(* ===== verification/_CoqProject ===== *)
-Q . S2P
Prelude.v
Text.v
Errors.v
Model.v
Postgres.v
MemDB.v
Session.v
RetryPolicy.v
Logging.v
Config.v
Ownership.v
Redis.v
ReadyQueue.v
Schemas.v
Submission.v
Mutations.v
Queries.v
Fencing.v
Recovery.v
Lifecycle.v
Leases.v
Doubles.v
Handlers.v
Heartbeat.v
Runner.v
Scheduler.v
Backlog.v
Worker.v
Validation.v
Process.v
Fleet.v
Requests.v
Visibility.v
Durability.v
Completion.v
Fairness.v
Startup.v
Timing.v
Replay.v
Schema.v
Migration.v
Upgrades.v
AlembicEnv.v
Rows.v
Api.v
Monitoring.v
