(* ===== verification/Prelude.v ===== *)
(** * Verification of the job-queue service

    The service (under [src/]) accepts jobs over HTTP, keeps them in PostgreSQL, tells
    workers where to look through a Redis index, and executes them at least once with
    retries, leases and crash recovery.  This library models its Python code and
    proves what makes it correct.

    ** The program and the files that model it

    - [Prelude], [Text]: shared lists, tactics, the result type; Python and Lua text
      (numerals, [int], [str.partition], UUIDs, [string.format]).
    - [Errors] ([app/core/errors.py]); [Model] ([app/db/models.py]): the jobs table, its
      constraints, column assignments.
    - [Postgres], [MemDB], [Session]: PostgreSQL as a class of statements with the laws
      it documents (an UPDATE changes the rows its WHERE clause accepts, three-valued,
      atomically, or fails on a constraint; a SELECT returns the matching rows in
      order; SKIP LOCKED leaves out locked rows), a finite-map instance that discharges
      the laws, and sessions: a state-and-exception monad over what is committed and
      what the transaction sees, where [interfere] lets other sessions commit between
      two statements, as READ COMMITTED does.
    - [RetryPolicy], [Config]: [app/services/retry_policy.py], [attempt.py],
      [app/core/config.py], [time.py].
    - [Ownership], with the theorems in [Fencing] and [Recovery]: the ownership half of
      [app/services/job_service.py] (claim, fenced writes, activation, sweep).  Every
      single-row conditional UPDATE is proved equal to a compare-and-set ([cas]), and
      the theorems reason about those.
    - [Schemas], [Submission], [Mutations], [Queries]: [app/schemas/jobs.py] and the rest of
      [job_service.py] (idempotent creation, cancel, manual retry, listing, counts).
    - [Redis], [ReadyQueue]: Redis as a class with laws and an instance; the ready queue
      of [app/services/queue_service.py] with both Lua scripts, proved to refine an
      abstract queue ([represents]).
    - [Doubles], [Handlers], [Heartbeat], [Runner], [Scheduler]: binary64 rounding and
      [app/jobs/], [worker/heartbeat.py], [worker/runner.py], [worker/scheduler.py],
      [recovery.py], [loops.py].
    - [Backlog]: the scheduler and recovery loops over many turns; [Worker]: the polling
      loop of [worker/runner.py], and a job's way through both stores.
    - [Lifecycle]: the whole service as a transition system; [Leases]: its histories with
      time (an attempt that beats) and with a count of the claims of a job.
    - [Validation]: pydantic as a class of validators with the laws the schemas rely on,
      and a request's way from its body to its result.
    - [Process]: one worker process ([worker/main.py], [identity.py]) as a machine of
      coroutines, await by await; [Fleet]: any number of processes with the service of
      [Lifecycle]; [Replay]: the cycles of [Runner] and [Scheduler] as runs of [Process].
    - [Requests]: [submit_job], [cancel_job] and [retry_job] as a request runs them, await
      by await; [Visibility]: requests and processes over one database and one Redis,
      closed to anybody else, and what they guarantee between the two stores, with its
      other half in [Durability] (whatever Redis names is a row);
      [Completion]: from there, fair turns of the three loops until every job has ended;
      [Fairness]: any fair run of the processes, await by await, with the same end;
      [Monitoring]: what [/health] shows of it; [Timing]: the processes with a clock.
    - [Startup]: [run] of [worker/main.py] with the settings it reads, [get_settings],
      [configure_logging] on the tree of loggers, and the lifespan of [app/main.py].
    - [Schema]: the metadata of [app/db/models.py] and [base.py] and the DDL of
      [alembic/versions/]; [Rows]: that schema's meaning on rows of any columns and values,
      against [Model]; [Migration]: the data step of revision 0002; [Upgrades]:
      [do_run_migrations] of [alembic/env.py], with Alembic's plan as an interface and a
      connection that may break at any message, the COMMIT included;
      [AlembicEnv]: the rest of that file, with [configparser]'s interpolation.
    - [Api] ([app/api/jobs.py], [app/services/health.py], the routes of [app/main.py]);
      [Logging] ([app/core/logging.py]).  [Session.get_session] is the dependency of
      [app/db/session.py].

    ** How the code is represented

    A job is the record [Model.Job] with one field per column; NULL is [None]; integers
    are [Z] with the 32-bit range of their column checked by [storable]; timestamps are
    microseconds; float settings are rationals; a UUID is an integer below 2^128.  A
    service function is a function of the database (and the Redis store) that returns
    the new stores and a value or the Python exception ([result exn]).  Its statements
    are lists of conditions and assignments that read like the SQLAlchemy calls.  What
    the code does not decide is an argument: clock readings, generated ids and tokens,
    random draws, the rows other transactions have locked, what others do at each
    await, and whether a network call is lost before or after its effect ([fault]).

    ** What is shown

    - Ownership: of any number of claims of a job one wins ([Fencing]); an attempt whose
      token left the row can never write again, in any later history ([Lifecycle]); an
      attempt settles once; a heartbeat and the sweep exclude each other ([Recovery]); an
      attempt that beats on time keeps its job through any history ([Leases]), and a
      worker process whose awaits end in time, with some beats lost, is such an attempt:
      each of its steps keeps the job, or settles it with a write that is accepted, or
      ends on a Redis failure ([Timing]); a stale execution changes nothing ([Runner]).
    - Lifecycle: every step of every component, with Redis changing at will, keeps
      every row well formed and refines the abstract life of a job; COMPLETED and
      CANCELLED are final; no PENDING job is stranded; a crashed worker's job runs
      again; the claims of a job are its attempt count plus three for each manual retry
      ([Leases]).
    - Completion: when nobody is about to publish and no publication was lost, fair turns
      of the loops, however small their batches, bring every job to its end
      ([Completion]); so does every fair run of the processes, whatever their coroutines
      do between each other's awaits and however often a lease runs out under a slow
      worker, from every state without lost publications and pending requests, as long
      as no call fails and one worker is not asked to stop ([Fairness]).
    - Validation: a payload is accepted exactly if it is a document of its type; what is
      stored fits the handler of its type, which raises for a webhook's delivery only.
    - Submission: a key names one job for 24 hours, under concurrent submissions too; a
      failure leaves no trace; a job is stored before it is published, and what becomes of
      the publication changes neither the row nor the answer ([Requests]).
    - Between the stores: whatever interleaves, fails or dies, a PENDING job is in the
      ready queue, or about to be published, or its publication was lost; when nothing
      is under way and nothing was lost, one worker executes every PENDING job; a job
      whose publication was lost is never run ([Visibility]).  Whatever the queue names, a
      worker has read there or somebody will publish is a row ([Durability]).
    - Progress: a job submitted to run at once is executed by a polling worker
      ([Worker]); an undisturbed worker drains the queue, stale entries included; the
      scheduler and recovery loops reach every row that waits, oldest first, however
      small their batches ([Backlog]); a stopped worker takes nothing more.
    - Queue: priority order, first-in first-out within a priority, one entry per job,
      compare-and-delete that spares newer entries; beyond 2^53 enqueues Lua's doubles
      lose the order.
    - Worker: one cycle runs the best candidate to the end its handler decides; stale
      candidates are dropped; other sessions may act on other rows at every await;
      activation publishes what it moved; the reported percentage is within one of
      the exact one for any number of items up to 2^40.
    - Processes: of all the worker processes, at most one can write a running job; a
      process's steps are steps of the service, so everything [Lifecycle] proves holds of
      every fleet, with crashes, signals and faults of both stores at every call; no
      heartbeat is alive when an attempt is settled; the clients are closed after the
      loops; a process that gets SIGTERM exits, and starts nothing new before
      ([Process], [Fleet]).  A cycle of [Runner] is a run of the process ([Replay]).
    - Schema: the migrations build what the models declare, the downgrades undo them, the
      migrated table accepts exactly the tables of [Model], and each partial index holds
      every row its query can select.  Running the migrations is all or nothing from every
      version, wherever the connection breaks, and repeatable ([Upgrades]).  They connect to
      the service's own URL exactly if it has no percent sign, given that no other option
      of [alembic.ini] has one ([AlembicEnv]).
    - Logs: a record is one line of printable ASCII and its texts read back; configured
      once or twice, a record goes out once, by the service's handler.
    - API: pages partition the listing, every outcome of a mutation, a lost database
      connection included, has its status code, the health report shows each store on its
      own, and a gap between its two numbers is made of lost publications and of jobs that
      were taken up between its two reads ([Monitoring]).
    - Windows the code leaves open are theorems as well: a publication lost after the
      commit is never made up for, a Redis failure between claim and removal spends an
      attempt that only the expiry of its lease ends ([Worker]), migration 0002 strands a row it releases on its last attempt, the web
      server's own lines do not reach the handler they were meant for ([Startup]), and
      validated settings may leave a heartbeat no headroom ([Recovery]).

    ** Bounds and fuel

    The only fuel is the code's own: [MAX_CANDIDATES_PER_CYCLE] passes of the candidate
    loop.  The loops of [Process] have no fuel: their end is a theorem.  The other loops
    recurse on data: the selected rows, the handler's program, the events at each
    interval.  Queue theorems assume sequences below 2^53 ([SEQ_BOUND]; [has_room] in
    the steps of [Visibility]).  The liveness theorem of [Lifecycle] takes a batch limit larger than
    the table; those of [Backlog] take any limit and count turns.  [Lifecycle] and
    [Visibility] take [create_job] without interleavings inside its transaction (those
    are in [Submission]) and worker ids of at most 128 bytes, the width of the column.
    [Visibility] has nobody else in Redis; [Lifecycle] and [Fleet] let Redis do anything.
    [Completion] needs eighteen epochs per job and one per queue entry: a job makes at most
    nine moves (three attempts of three), each counted twice because an entry of the
    queue may have to be dropped before it.  [Fairness] counts no steps: a number that no
    calm step increases, of what the rows, the publications under way and the queue may
    still cause, comes to zero; its runs have room for every enqueue to come.  Leases are written
    and compared with the database's clock; in [Leases] the gap between beats, with what
    a sweep's reading may run ahead of the events, is at most the lease.  [Timing] puts
    the gap together from the bounds of the awaits: with the default settings and delays
    of a second, a worker may lose a beat.

    ** What is not modelled

    What pydantic does beyond the laws of [Validation] (the grammars of addresses and URLs,
    the texts of its errors), FastAPI's routing and parsing, asyncio's scheduling beyond
    the order of awaits and the bounds [Timing] takes for their length, engine and client
    construction, reading the settings from the environment (with infinities, and
    durations beyond a [timedelta], which a float setting may hold), what Alembic prints
    offline.  Strings and JSON documents are those PostgreSQL can hold, without U+0000.
    The effects of DDL statements and SQL are the laws of [Catalog] and [Postgres].
    [JobLog] is a table no code writes. *)

From stdpp Require Export base gmap sets list strings fin_maps sorting.
From Stdlib Require Export ZArith Lia.

Set Default Proof Using "Type".

(** ** Results: a value, or the Python exception that was raised *)

Inductive result (E A : Type) : Type :=
  | Ok (a : A)
  | Err (e : E).
Arguments Ok {E A} a.
Arguments Err {E A} e.

(** ** Tactics *)

(** Case analysis on every [match]/[if] whose scrutinee is stuck, closing the
    branches that contradict an equation in the context. *)
Ltac break := repeat (case_match; simplify_eq/=); try done.

(** Turn boolean comparisons on [Z] into propositions. *)
Ltac to_prop :=
  repeat match goal with
  | H : (_ && _)%bool = true |- _ => apply andb_prop in H as [? ?]
  | H : (_ <? _)%Z = true |- _ => apply Z.ltb_lt in H
  | H : (_ <? _)%Z = false |- _ => apply Z.ltb_ge in H
  | H : (_ <=? _)%Z = true |- _ => apply Z.leb_le in H
  | H : (_ <=? _)%Z = false |- _ => apply Z.leb_gt in H
  | H : (_ =? _)%Z = true |- _ => apply Z.eqb_eq in H
  | H : (_ =? _)%Z = false |- _ => apply Z.eqb_neq in H
  | H : bool_decide _ = true |- _ => apply bool_decide_eq_true in H
  | H : bool_decide _ = false |- _ => apply bool_decide_eq_false in H
  end.

(** ** Lists *)

Section lists.
Context {A : Type}.
Implicit Types l : list A.

(** Two strongly sorted permutations of an antisymmetric order coincide: a
    query with a total ORDER BY has exactly one answer. *)
Lemma sorted_unique (R : relation A) `{!Transitive R, !AntiSymm (=) R} l1 l2 :
  StronglySorted R l1 → StronglySorted R l2 → l1 ≡ₚ l2 → l1 = l2.
Proof.
  intros H1 H2 Hp. apply (StronglySorted_unique R); auto.
Qed.

Lemma head_first_element (R : relation A) x l :
  StronglySorted R l → head l = Some x → ∀ y, y ∈ l → y = x ∨ R x y.
Proof.
  intros Hs Hh y Hy. destruct Hs as [|a l' Hs Hf]; simplify_eq/=.
  apply elem_of_cons in Hy as [->|Hy]; [by left|right].
  rewrite Forall_forall in Hf. auto.
Qed.

Lemma filter_none (P : A → Prop) `{∀ x, Decision (P x)} l :
  (∀ x, x ∈ l → ¬ P x) → filter P l = [].
Proof.
  induction l as [|x l IH]; intros Hno; [done|].
  rewrite filter_cons_False by (apply Hno; by left).
  apply IH. intros y Hy. apply Hno. by right.
Qed.

Lemma filter_all (P : A → Prop) `{∀ x, Decision (P x)} l :
  (∀ x, x ∈ l → P x) → filter P l = l.
Proof.
  induction l as [|x l IH]; intros Hall; [done|].
  rewrite filter_cons_True by (apply Hall; by left).
  f_equal. apply IH. intros y Hy. apply Hall. by right.
Qed.

Lemma sublist_sorted (R : relation A) l l' :
  l `sublist_of` l' → StronglySorted R l' → StronglySorted R l.
Proof.
  induction 1 as [|x l l' Hsub IH|x l l' Hsub IH]; inv 1; [constructor| |by apply IH].
  constructor; [by apply IH|]. apply Forall_forall. intros y Hy.
  rewrite Forall_forall in *. eauto using elem_of_sublist.
Qed.
End lists.
