(* ===== verification/Text.v ===== *)
(** * Text: strings of the two languages the service is written in

    Python's [str(int)], [int(text, base)], [str.partition], [str(uuid)] and
    [uuid.UUID(text)], and Lua's [string.format('%0<width>d', n)], on ASCII
    strings.  These are operations of the languages and their standard
    libraries, so the file has no counterpart under [src/]; it carries the round
    trips (print then parse) and the fact the ready queue rests on: fixed-width
    zero-padded numerals are ordered as strings the way they are as numbers. *)

From S2P Require Import Prelude.
From Stdlib Require Import Ascii String.

Local Open Scope Z_scope.

(** A [uuid.UUID] is a 128-bit integer. *)
Abbreviation uuid := Z (only parsing).
Definition uuid_ok (u : uuid) : Prop := 0 ≤ u < 2 ^ 128.

(** Code points of a UTF-8 string: the bytes that do not continue another one. *)
Fixpoint str_len (s : string) : nat :=
  match s with
  | EmptyString => 0
  | String c s' =>
      let n := nat_of_ascii c in
      if ((128 <=? n) && (n <? 192))%nat then str_len s' else S (str_len s')
  end.

(** ** Numerals *)

Definition digit_char (d : Z) : ascii :=
  ascii_of_N (Z.to_N (if d <? 10 then 48 + d else 87 + d)).

(** The value of one digit; letters of both cases count from 10. *)
Definition digit_val (c : ascii) : option Z :=
  let n := Z.of_N (N_of_ascii c) in
  if (48 <=? n) && (n <=? 57) then Some (n - 48)
  else if (97 <=? n) && (n <=? 122) then Some (n - 87)
  else if (65 <=? n) && (n <=? 90) then Some (n - 55)
  else None.

(** The [w] low-order digits of [n], most significant first. *)
Fixpoint digits (base : Z) (w : nat) (n : Z) : string :=
  match w with
  | O => EmptyString
  | S w' => digits base w' (n / base) +:+ String (digit_char (n mod base)) EmptyString
  end.

(** How many digits [n] has (at least one). *)
Fixpoint ndigits_go (fuel : nat) (base n : Z) : nat :=
  match fuel with
  | O => 1
  | S f => if n <? base then 1 else S (ndigits_go f base (n / base))
  end.
Definition ndigits (base n : Z) : nat := ndigits_go (Z.to_nat (Z.log2 n)) base n.

(** Python's [str(n)] for an integer, and the body of Lua's [%d]. *)
Definition show_nat (n : Z) : string := digits 10 (ndigits 10 n) n.
Definition show_int (n : Z) : string :=
  if n <? 0 then String "-"%char (show_nat (- n)) else show_nat n.

(** ** Python's [int(text, base)] *)

(** Digits with single underscores between them. *)
Fixpoint int_digits (base acc : Z) (after_digit : bool) (s : string) : option Z :=
  match s with
  | EmptyString => if after_digit then Some acc else None
  | String c s' =>
      if decide (c = "_"%char) then
        if after_digit then int_digits base acc false s' else None
      else
        match digit_val c with
        | Some d => if d <? base then int_digits base (acc * base + d) true s' else None
        | None => None
        end
  end.

Definition py_space (c : ascii) : bool :=
  let n := N_of_ascii c in
  ((9 <=? n) && (n <=? 13) || (28 <=? n) && (n <=? 32))%N.

Fixpoint lstrip (p : ascii → bool) (s : string) : string :=
  match s with
  | String c s' => if p c then lstrip p s' else s
  | EmptyString => EmptyString
  end.

(** The reversal is [String.rev]; [strip] trims both ends. *)
Definition strip (p : ascii → bool) (s : string) : string :=
  String.rev (lstrip p (String.rev (lstrip p s))).

Definition int_body (base : Z) (s : string) : option Z :=
  match s with
  | String "0" (String c s') =>
      if (base =? 16) && (bool_decide (c = "x"%char) || bool_decide (c = "X"%char)) then
        match s' with
        | String "_" s'' => int_digits base 0 false s''
        | _ => int_digits base 0 false s'
        end
      else int_digits base 0 false s
  | _ => int_digits base 0 false s
  end.

Definition py_int (base : Z) (s : string) : option Z :=
  match strip py_space s with
  | String "-" s' => Z.opp <$> int_body base s'
  | String "+" s' => int_body base s'
  | s' => int_body base s'
  end.

(** ** [str.partition(sep)] for a one-character separator *)

(** Text before the separator, whether it was found, text after it. *)
Fixpoint partition (sep : ascii) (s : string) : string * bool * string :=
  match s with
  | EmptyString => (EmptyString, false, EmptyString)
  | String c s' =>
      if decide (c = sep) then (EmptyString, true, s')
      else let '(l, found, r) := partition sep s' in (String c l, found, r)
  end.

(** ** Predicates on characters of a string *)

Fixpoint str_forall (p : ascii → bool) (s : string) : bool :=
  match s with
  | EmptyString => true
  | String c s' => p c && str_forall p s'
  end.

Definition is_digit (base : Z) (c : ascii) : bool :=
  match digit_val c with Some d => d <? base | None => false end.

(** ** UUIDs *)

(** [str.replace(p, '')] *)
Fixpoint remove_all (fuel : nat) (p s : string) : string :=
  match fuel, s with
  | S f, String c s' =>
      if String.prefix p s
      then remove_all f p (String.substring (String.length p) (String.length s) s)
      else String c (remove_all f p s')
  | _, _ => s
  end.
Definition py_remove (p s : string) : string := remove_all (String.length s) p s.

(** [str(uuid)]: 32 hexadecimal digits in groups of 8-4-4-4-12. *)
Definition show_uuid (u : uuid) : string :=
  digits 16 8 (u / 2 ^ 96) +:+ "-" +:+
  digits 16 4 (u / 2 ^ 80) +:+ "-" +:+
  digits 16 4 (u / 2 ^ 64) +:+ "-" +:+
  digits 16 4 (u / 2 ^ 48) +:+ "-" +:+
  digits 16 12 u.

Definition brace (c : ascii) : bool :=
  bool_decide (c = "{"%char) || bool_decide (c = "}"%char).

(** [uuid.UUID(text)]; [None] is its [ValueError]. *)
Definition parse_uuid (s : string) : option uuid :=
  let hex := py_remove "uuid:" (py_remove "urn:" s) in
  let hex := py_remove "-" (strip brace hex) in
  if decide (String.length hex = 32%nat) then
    match py_int 16 hex with
    | Some u => if (0 <=? u) && (u <? 2 ^ 128) then Some u else None
    | None => None
    end
  else None.

(** ** Lua's [string.format('%0' .. width .. 'd', n)] *)

Fixpoint zeros (k : nat) : string :=
  match k with O => EmptyString | S k' => String "0"%char (zeros k') end.

Definition lua_format_d (width : nat) (n : Z) : string :=
  if n <? 0
  then String "-"%char (zeros (width - 1 - ndigits 10 (- n)) +:+ show_nat (- n))
  else zeros (width - ndigits 10 n) +:+ show_nat n.

(** A Lua number is a double: an integer reply of Redis is rounded to 53
    significant bits, ties to even, when a script receives it. *)
Definition lua_number (z : Z) : Z :=
  let e := Z.log2 (Z.abs z) - 52 in
  if e <=? 0 then z
  else
    let q := z / 2 ^ e in
    let r := z mod 2 ^ e in
    let half := 2 ^ (e - 1) in
    let up := (half <? r) || ((half =? r) && Z.odd q) in
    (q + (if up then 1 else 0)) * 2 ^ e.

Example show_1 : lua_format_d 19 123 = "0000000000000000123". Proof. reflexivity. Qed.
Example show_2 : show_int (-40) = "-40". Proof. reflexivity. Qed.
Example show_3 : py_int 10 " +1_0 " = Some 10. Proof. reflexivity. Qed.
Example show_4 : show_uuid (2 ^ 127 + 171) = "80000000-0000-0000-0000-0000000000ab".
Proof. reflexivity. Qed.
Example show_5 : parse_uuid "{80000000-0000-0000-0000-0000000000AB}" = Some (2 ^ 127 + 171).
Proof. vm_compute. reflexivity. Qed.
Example show_6 : lua_number (2 ^ 53 + 1) = 2 ^ 53. Proof. reflexivity. Qed.

(** ** Lemmas: append, reversal, stripping *)

(** stdpp blocks the reduction of [append]; here it reduces on a constructor. *)
#[global] Arguments String.append !_ _ / : simpl nomatch.

Lemma str_app_assoc (a b c : string) : (a +:+ b) +:+ c = a +:+ (b +:+ c).
Proof. induction a as [|x a IH]; simpl; [done|]. by rewrite IH. Qed.

Lemma str_app_nil_r (a : string) : a +:+ "" = a.
Proof. induction a as [|x a IH]; simpl; [done|]. by rewrite IH. Qed.

Lemma str_length_app (a b : string) :
  String.length (a +:+ b) = (String.length a + String.length b)%nat.
Proof. induction a as [|x a IH]; simpl; [done|]. by rewrite IH. Qed.

Lemma str_len_app (a b : string) : str_len (a +:+ b) = (str_len a + str_len b)%nat.
Proof. induction a as [|x a IH]; cbn; [done|]. destruct (_ && _); cbn; by rewrite IH. Qed.

Lemma str_len_le (a : string) : (str_len a ≤ String.length a)%nat.
Proof. induction a as [|x a IH]; cbn; [done|]. destruct (_ && _); lia. Qed.

Lemma str_forall_app p (a b : string) :
  str_forall p (a +:+ b) = str_forall p a && str_forall p b.
Proof. induction a as [|x a IH]; simpl; [done|]. by rewrite IH, andb_assoc. Qed.

Lemma str_forall_impl (p q : ascii → bool) s :
  (∀ c, p c = true → q c = true) → str_forall p s = true → str_forall q s = true.
Proof.
  intros Hpq. induction s as [|c s IH]; simpl; [done|].
  rewrite !andb_true_iff. intros [? ?]. auto.
Qed.

Lemma str_rev_app_app (a b : string) : String.rev_app a b = String.rev a +:+ b.
Proof.
  unfold String.rev. revert b.
  induction a as [|c a IH]; intros b; simpl; [done|].
  rewrite (IH (String c b)), (IH (String c "")), str_app_assoc. done.
Qed.

Lemma str_rev_cons c (a : string) : String.rev (String c a) = String.rev a +:+ String c "".
Proof. exact (str_rev_app_app a (String c "")). Qed.

Lemma str_rev_app (a b : string) : String.rev (a +:+ b) = String.rev b +:+ String.rev a.
Proof.
  induction a as [|c a IH]; simpl; [by rewrite str_app_nil_r|].
  by rewrite !str_rev_cons, IH, str_app_assoc.
Qed.

Lemma str_rev_involutive (a : string) : String.rev (String.rev a) = a.
Proof. induction a as [|c a IH]; [done|]. by rewrite str_rev_cons, str_rev_app, IH. Qed.

Lemma str_forall_rev p (a : string) : str_forall p (String.rev a) = str_forall p a.
Proof.
  induction a as [|c a IH]; [done|].
  rewrite str_rev_cons, str_forall_app, IH. simpl. rewrite andb_true_r. apply andb_comm.
Qed.

Lemma lstrip_id p s : str_forall (λ c, negb (p c)) s = true → lstrip p s = s.
Proof.
  destruct s as [|c s]; simpl; [done|].
  rewrite andb_true_iff, negb_true_iff. by intros [-> _].
Qed.

Lemma strip_id p s : str_forall (λ c, negb (p c)) s = true → strip p s = s.
Proof.
  intros H. unfold strip. rewrite (lstrip_id p s H), lstrip_id.
  - apply str_rev_involutive.
  - by rewrite str_forall_rev.
Qed.

Lemma substring_all (s : string) n :
  (String.length s ≤ n)%nat → String.substring 0 n s = s.
Proof.
  revert n. induction s as [|c s IH]; intros n Hn; simpl in *; [by destruct n|].
  destruct n as [|n]; [lia|]. rewrite IH by lia. done.
Qed.

(** Removing a pattern whose first character never occurs changes nothing. *)
Lemma py_remove_id c p s :
  str_forall (λ x, negb (bool_decide (x = c))) s = true → py_remove (String c p) s = s.
Proof.
  unfold py_remove. generalize (String.length s). intros f. revert f.
  induction s as [|x s IH]; intros [|f]; cbn [remove_all str_forall]; try done.
  rewrite andb_true_iff, negb_true_iff, bool_decide_eq_false. intros [Hx Hs].
  replace (String.prefix (String c p) (String x s)) with false.
  - by rewrite IH.
  - simpl. destruct (ascii_dec c x); [congruence|done].
Qed.

(** Deleting a single character is a filter. *)
Fixpoint without (c : ascii) (s : string) : string :=
  match s with
  | EmptyString => EmptyString
  | String x s' => if decide (x = c) then without c s' else String x (without c s')
  end.

Lemma py_remove_char c s : py_remove (String c "") s = without c s.
Proof.
  unfold py_remove. assert (String.length s ≤ String.length s)%nat as Hf by lia.
  revert Hf. generalize (String.length s) at 2 3. intros f. revert f.
  induction s as [|x s IH]; intros [|f] Hf; try done; [simpl in Hf; lia|].
  cbn [remove_all without]. simpl in Hf.
  simpl String.prefix. destruct (ascii_dec c x) as [->|Hne].
  - rewrite decide_True by done. destruct s as [|y s]; [by destruct f|].
    cbn [String.substring String.length]. rewrite substring_all by (simpl; lia).
    apply IH. lia.
  - rewrite decide_False by congruence. rewrite IH by lia. done.
Qed.

Lemma without_app c (a b : string) : without c (a +:+ b) = without c a +:+ without c b.
Proof.
  induction a as [|x a IH]; simpl; [done|]. rewrite IH. by destruct (decide (x = c)).
Qed.

Lemma without_id c s :
  str_forall (λ x, negb (bool_decide (x = c))) s = true → without c s = s.
Proof.
  induction s as [|x s IH]; simpl; [done|].
  rewrite andb_true_iff, negb_true_iff, bool_decide_eq_false. intros [Hx Hs].
  rewrite decide_False by done. by rewrite IH.
Qed.

Lemma partition_found c (a b : string) :
  str_forall (λ x, negb (bool_decide (x = c))) a = true →
  partition c (a +:+ String c b) = (a, true, b).
Proof.
  induction a as [|x a IH]; simpl; intros H.
  - by rewrite decide_True.
  - apply andb_true_iff in H as [Hx Ha].
    rewrite negb_true_iff, bool_decide_eq_false in Hx.
    rewrite decide_False by done. by rewrite IH.
Qed.

(** ** Lemmas: numerals *)

Lemma digits_length base w n : String.length (digits base w n) = w.
Proof.
  revert n. induction w as [|w IH]; intros n; simpl; [done|].
  rewrite str_length_app, IH. simpl. lia.
Qed.

Lemma digit_cases (P : Z → Prop) d :
  0 ≤ d < 16 → P 0 → P 1 → P 2 → P 3 → P 4 → P 5 → P 6 → P 7 → P 8 → P 9 → P 10 →
  P 11 → P 12 → P 13 → P 14 → P 15 → P d.
Proof.
  intros Hd **.
  assert (d = 0 ∨ d = 1 ∨ d = 2 ∨ d = 3 ∨ d = 4 ∨ d = 5 ∨ d = 6 ∨ d = 7 ∨ d = 8 ∨
          d = 9 ∨ d = 10 ∨ d = 11 ∨ d = 12 ∨ d = 13 ∨ d = 14 ∨ d = 15) as Hc by lia.
  by repeat (destruct Hc as [->|Hc]; [done|]); subst.
Qed.

(** Prove a decidable fact of the digit [d] by trying all sixteen. *)
Ltac by_digits d := pattern d; apply digit_cases; [lia|done..].

Lemma digit_val_char d : 0 ≤ d < 16 → digit_val (digit_char d) = Some d.
Proof. intros Hd. by_digits d. Qed.

Lemma digit_char_not_underscore d : 0 ≤ d < 16 → digit_char d ≠ "_"%char.
Proof. intros Hd. by_digits d. Qed.

(** Digits in increasing order are characters in increasing order. *)
Lemma digit_char_lt d e :
  0 ≤ d < e → e < 16 → Ascii.compare (digit_char d) (digit_char e) = Lt.
Proof.
  intros Hd He. unfold Ascii.compare, digit_char.
  rewrite !N_ascii_embedding by (case_match; lia).
  apply N.compare_lt_iff. destruct (d <? 10) eqn:?, (e <? 10) eqn:?; lia.
Qed.

Section numerals.
Context (base : Z) (Hbase : 2 ≤ base ≤ 16).

Lemma mod_base n : 0 ≤ n mod base < base.
Proof using Hbase. apply Z.mod_pos_bound. lia. Qed.

Lemma digits_forall p w n :
  (∀ d, 0 ≤ d < base → p (digit_char d) = true) → str_forall p (digits base w n) = true.
Proof using Hbase.
  intros Hp. revert n. induction w as [|w IH]; intros n; cbn; [done|].
  rewrite str_forall_app, IH. simpl. rewrite Hp by apply mod_base. done.
Qed.

Lemma digits_mod w n : digits base w n = digits base w (n mod base ^ Z.of_nat w).
Proof using Hbase.
  revert n. induction w as [|w IH]; intros n; cbn; [done|].
  assert (0 < base ^ Z.of_nat w) by (apply Z.pow_pos_nonneg; lia).
  replace (Z.of_nat (S w)) with (Z.of_nat w + 1) by lia.
  rewrite Z.pow_add_r, Z.pow_1_r by lia.
  rewrite (Z.mul_comm _ base), Z.rem_mul_r by lia.
  rewrite (IH (n / base)), (IH ((_ + _) / base)).
  replace ((n mod base + base * ((n / base) mod base ^ Z.of_nat w)) / base)
    with ((n / base) mod base ^ Z.of_nat w).
  2:{ apply Z.div_unique with (n mod base); [left; apply mod_base|lia]. }
  rewrite Z.mod_mod by lia. f_equal. f_equal. f_equal.
  apply Z.mod_unique with ((n / base) mod base ^ Z.of_nat w); [left; apply mod_base|lia].
Qed.

Lemma digits_app j k n :
  digits base (j + k) n = digits base j (n / base ^ Z.of_nat k) +:+ digits base k n.
Proof using Hbase.
  revert n. induction k as [|k IH]; intros n.
  - rewrite Nat.add_0_r, Z.pow_0_r, Z.div_1_r. simpl. by rewrite str_app_nil_r.
  - rewrite Nat.add_succ_r. cbn [digits]. rewrite IH, str_app_assoc.
    replace (Z.of_nat (S k)) with (1 + Z.of_nat k) by lia.
    rewrite Z.pow_add_r, Z.pow_1_r by lia.
    assert (0 < base ^ Z.of_nat k) by (apply Z.pow_pos_nonneg; lia).
    by rewrite Z.div_div by lia.
Qed.

(** Reading [w] digits appends them to the accumulator. *)
Lemma int_digits_digits acc b w n s :
  int_digits base acc b (digits base w n +:+ s) =
  int_digits base (acc * base ^ Z.of_nat w + n mod base ^ Z.of_nat w)
    (b || negb (Nat.eqb w 0)) s.
Proof using Hbase.
  revert acc b n s. induction w as [|w IH]; intros acc b n s.
  - simpl. rewrite Z.mod_1_r, orb_false_r. f_equal. lia.
  - cbn [digits]. rewrite str_app_assoc, IH. simpl.
    pose proof (mod_base n) as Hm.
    rewrite decide_False by (apply digit_char_not_underscore; lia).
    rewrite digit_val_char by lia.
    replace (n mod base <? base) with true by (symmetry; lia).
    rewrite orb_true_r.
    replace (Z.of_nat (S w)) with (Z.of_nat w + 1) by lia.
    rewrite Z.pow_add_r, Z.pow_1_r by lia.
    assert (0 < base ^ Z.of_nat w) by (apply Z.pow_pos_nonneg; lia).
    rewrite (Z.mul_comm (base ^ Z.of_nat w) base), Z.rem_mul_r by lia. f_equal. lia.
Qed.

Lemma digits_not_space w n : str_forall (λ c, negb (py_space c)) (digits base w n) = true.
Proof using Hbase.
  apply digits_forall. intros d Hd. by_digits d.
Qed.

Lemma int_body_digits w n :
  w ≠ 0%nat → int_body base (digits base w n) = Some (n mod base ^ Z.of_nat w).
Proof using Hbase.
  intros Hw.
  assert (int_digits base 0 false (digits base w n) = Some (n mod base ^ Z.of_nat w)) as Hid.
  { rewrite <-(str_app_nil_r (digits base w n)), int_digits_digits.
    destruct w; [done|]. simpl. f_equal. }
  assert (∀ c s, digits base w n = String "0" (String c s) →
            (bool_decide (c = "x"%char) || bool_decide (c = "X"%char)) = false) as Hx.
  { intros c s Hs.
    assert (str_forall (λ c, negb (bool_decide (c = "x"%char) || bool_decide (c = "X"%char)))
              (digits base w n) = true) as Hf.
    { apply digits_forall. intros d Hd. by_digits d. }
    rewrite Hs in Hf. simpl in Hf. rewrite andb_true_iff, negb_true_iff in Hf. apply Hf. }
  unfold int_body. destruct (digits base w n) as [|c [|c' s]]; [done| |].
  - by destruct c as [[] [] [] [] [] [] [] []].
  - destruct c as [[] [] [] [] [] [] [] []]; try done.
    by rewrite (Hx c' s eq_refl), andb_false_r.
Qed.

(** Round trip: [int(digits)] is the number the digits were printed from. *)
Lemma py_int_digits w n :
  w ≠ 0%nat → py_int base (digits base w n) = Some (n mod base ^ Z.of_nat w).
Proof using Hbase.
  intros Hw. unfold py_int. rewrite strip_id by apply digits_not_space.
  pose proof (int_body_digits w n Hw) as Hb.
  assert (str_forall (λ c, negb (bool_decide (c = "-"%char) || bool_decide (c = "+"%char)))
            (digits base w n) = true) as Hf.
  { apply digits_forall. intros d Hd. by_digits d. }
  destruct (digits base w n) as [|c s]; [done|].
  simpl in Hf. apply andb_true_iff in Hf as [Hc _].
  by destruct c as [[] [] [] [] [] [] [] []].
Qed.

(** [ndigits] is enough digits, and no digit too many. *)
Lemma ndigits_go_spec f n :
  0 ≤ n < 2 ^ (Z.of_nat f + 1) →
  n < base ^ Z.of_nat (ndigits_go f base n) ∧
  (n = 0 ∨ base ^ (Z.of_nat (ndigits_go f base n) - 1) ≤ n).
Proof using Hbase.
  revert n. induction f as [|f IH]; intros n Hn; cbn [ndigits_go].
  - simpl Z.of_nat in *. rewrite Z.pow_1_r. simpl in *. lia.
  - destruct (n <? base) eqn:Hlt.
    + simpl. rewrite Z.pow_1_r. lia.
    + assert (0 ≤ n / base) by (apply Z.div_pos; lia).
      assert (n / base < 2 ^ (Z.of_nat f + 1)).
      { apply Z.div_lt_upper_bound; [lia|].
        replace (Z.of_nat (S f) + 1) with (1 + (Z.of_nat f + 1)) in Hn by lia.
        rewrite Z.pow_add_r, Z.pow_1_r in Hn by lia. nia. }
      destruct (IH (n / base)) as [IH1 IH2]; [lia|].
      set (k := ndigits_go f base (n / base)) in *.
      pose proof (Z.div_mod n base ltac:(lia)) as Hdm. pose proof (mod_base n).
      replace (Z.of_nat (S k)) with (1 + Z.of_nat k) by lia.
      rewrite Z.pow_add_r, Z.pow_1_r by lia.
      replace (1 + Z.of_nat k - 1) with (Z.of_nat k) by lia.
      split; [nia|right].
      destruct IH2 as [IH2|IH2]; [nia|].
      destruct k as [|k]; [simpl; lia|].
      replace (Z.of_nat (S k) - 1) with (Z.of_nat k) in IH2 by lia.
      replace (Z.of_nat (S k)) with (1 + Z.of_nat k) by lia.
      rewrite Z.pow_add_r, Z.pow_1_r by lia. nia.
Qed.

Lemma ndigits_spec n :
  0 ≤ n → n < base ^ Z.of_nat (ndigits base n) ∧
          (n = 0 ∨ base ^ (Z.of_nat (ndigits base n) - 1) ≤ n).
Proof using Hbase.
  intros Hn. apply ndigits_go_spec. split; [done|].
  destruct (decide (n = 0)) as [->|]; [done|].
  rewrite Z2Nat.id by apply Z.log2_nonneg.
  apply Z.log2_spec. lia.
Qed.

Lemma ndigits_nonzero n : ndigits base n ≠ 0%nat.
Proof using Type. unfold ndigits. destruct (Z.to_nat _); simpl; [done|]. by case_match. Qed.

Lemma ndigits_le n w : 0 ≤ n < base ^ Z.of_nat w → w ≠ 0%nat → (ndigits base n ≤ w)%nat.
Proof using Hbase.
  intros Hn Hw. destruct (ndigits_spec n) as [_ [->|Hge]]; [lia| |].
  { unfold ndigits. simpl. lia. }
  destruct (decide (ndigits base n ≤ w)%nat) as [|Hgt]; [done|exfalso].
  assert (base ^ Z.of_nat w ≤ base ^ (Z.of_nat (ndigits base n) - 1)); [|lia].
  apply Z.pow_le_mono_r; lia.
Qed.

Lemma digits_leading_zeros j k n :
  0 ≤ n < base ^ Z.of_nat k → digits base (j + k) n = zeros j +:+ digits base k n.
Proof using Hbase.
  intros Hn. rewrite digits_app, Z.div_small by done. f_equal. clear.
  assert (∀ j, zeros j +:+ "0" = zeros (S j)) as Hz.
  { clear. intros j. induction j as [|j IH]; cbn in *; [done|]. by rewrite IH. }
  induction j as [|j IH]; [done|]. cbn [digits]. rewrite Zdiv_0_l, Zmod_0_l.
  rewrite IH. apply (Hz j).
Qed.

(** Equal-width numerals compare as strings the way they do as numbers, whatever
    follows them. *)
Lemma digits_compare_lt w n m s t :
  0 ≤ n < m → m < base ^ Z.of_nat w →
  String.compare (digits base w n +:+ s) (digits base w m +:+ t) = Lt.
Proof using Hbase.
  revert n m s t. induction w as [|w IH]; intros n m s t Hn Hm; [simpl in *; lia|].
  cbn [digits]. rewrite !str_app_assoc.
  assert (m / base < base ^ Z.of_nat w).
  { apply Z.div_lt_upper_bound; [lia|].
    replace (Z.of_nat (S w)) with (1 + Z.of_nat w) in Hm by lia.
    by rewrite Z.pow_add_r, Z.pow_1_r in Hm by lia. }
  pose proof (Z.div_mod n base ltac:(lia)). pose proof (Z.div_mod m base ltac:(lia)).
  pose proof (mod_base n). pose proof (mod_base m).
  assert (0 ≤ n / base) by (apply Z.div_pos; lia).
  destruct (decide (n / base < m / base)) as [Hlt|Hge]; [apply IH; lia|].
  assert (n / base = m / base) as <- by nia.
  assert (∀ u x y, String.compare x y = Lt → String.compare (u +:+ x) (u +:+ y) = Lt) as Hpre.
  { clear. intros u x y Hxy. induction u as [|c u IHu]; simpl; [done|].
    replace (Ascii.compare c c) with Eq; [done|].
    unfold Ascii.compare. by rewrite N.compare_refl. }
  apply Hpre. simpl.
  assert (n mod base < m mod base) by nia.
  rewrite digit_char_lt by lia. done.
Qed.
End numerals.

(** ** Round trips and formats *)

Lemma py_int_show_nat n : 0 ≤ n → py_int 10 (show_nat n) = Some n.
Proof.
  intros Hn. unfold show_nat. rewrite py_int_digits; [|lia|apply ndigits_nonzero].
  rewrite Z.mod_small; [done|]. destruct (ndigits_spec 10 ltac:(lia) n); lia.
Qed.

(** Lua's zero-padded format of a number that fits is its fixed-width numeral. *)
Lemma lua_format_d_digits w n :
  w ≠ 0%nat → 0 ≤ n < 10 ^ Z.of_nat w → lua_format_d w n = digits 10 w n.
Proof.
  intros Hw Hn. unfold lua_format_d, show_nat.
  replace (n <? 0) with false by (symmetry; lia).
  rewrite <-digits_leading_zeros.
  - f_equal. pose proof (ndigits_le 10 ltac:(lia) n w Hn Hw). lia.
  - lia.
  - destruct (ndigits_spec 10 ltac:(lia) n); lia.
Qed.

Lemma lua_number_exact z : Z.abs z < 2 ^ 53 → lua_number z = z.
Proof.
  intros Hz. unfold lua_number.
  replace (Z.log2 (Z.abs z) - 52 <=? 0) with true; [done|]. symmetry. apply Z.leb_le.
  destruct (decide (z = 0)) as [->|]; [done|].
  assert (Z.log2 (Z.abs z) < 53) by (apply Z.log2_lt_pow2; lia). lia.
Qed.

Lemma show_uuid_digits u :
  without "-" (show_uuid u) = digits 16 32 u.
Proof.
  assert (∀ w n, without "-" (digits 16 w n) = digits 16 w n) as Hw.
  { intros w n. apply without_id, digits_forall; [lia|]. intros d Hd. by_digits d. }
  unfold show_uuid. rewrite !without_app, !Hw. simpl (without "-" "-"). simpl String.append.
  change 32%nat with (8 + (4 + (4 + (4 + 12))))%nat.
  by rewrite !digits_app by lia.
Qed.

Lemma show_uuid_forall p u :
  p "-"%char = true → (∀ d, 0 ≤ d < 16 → p (digit_char d) = true) →
  str_forall p (show_uuid u) = true.
Proof.
  intros Hdash Hd. unfold show_uuid.
  rewrite !str_forall_app, !digits_forall by (lia || auto). cbn. by rewrite Hdash.
Qed.

(** Round trip: [uuid.UUID(str(u)) = u]. *)
Lemma parse_show_uuid u : uuid_ok u → parse_uuid (show_uuid u) = Some u.
Proof.
  intros Hu. unfold uuid_ok in Hu. unfold parse_uuid.
  assert (str_forall (λ c, negb (bool_decide (c = "u"%char))) (show_uuid u) = true) as Hnou.
  { apply show_uuid_forall; [done|]. intros d Hd. by_digits d. }
  rewrite (py_remove_id "u" "rn:"), (py_remove_id "u" "uid:") by done.
  rewrite strip_id by (apply show_uuid_forall; [done|]; intros d Hd; by_digits d).
  rewrite py_remove_char, show_uuid_digits, digits_length, decide_True by done.
  rewrite py_int_digits by (done || lia).
  rewrite Z.mod_small by lia.
  replace ((0 <=? u) && (u <? 2 ^ 128)) with true by (symmetry; lia). done.
Qed.

Lemma show_uuid_inj u v : uuid_ok u → uuid_ok v → show_uuid u = show_uuid v → u = v.
Proof.
  intros Hu Hv H. apply parse_show_uuid in Hu, Hv. congruence.
Qed.
