(* ===== verification/Errors.v ===== *)
(** * Errors: the exceptions that cross layer boundaries

    [app/core/errors.py] with the library exceptions the services catch by
    class.  An exception is a value of [exn]; [exn_str] is Python's [str(error)]
    for the classes the repository defines. *)

From S2P Require Import Prelude.
From S2P Require Import Text.

Local Open Scope Z_scope.

(** What [_is_idempotency_conflict] reads off SQLAlchemy's [IntegrityError]:
    the [constraint_name] attribute of [error.orig] and of its [__cause__]
    ([None] when the attribute or the object is missing), and [str(error.orig)]. *)
Record IntegrityError := {
  orig_constraint : option string;
  cause_constraint : option string;
  orig_text : string
}.

Inductive exn : Type :=
  | JobNotFoundError (job_id : uuid)
  | JobConflictError (job_id : uuid) (action status : string)
  | OwnershipLostError (job_id : uuid) (worker_id : string) (execution_token : uuid)
  | JobExecutionError (message : string)
  | ValueError (message : string)
  | IntegrityErrorExn (e : IntegrityError)
  (** A database error that is not an integrity error (bad data, lost connection). *)
  | DBAPIError (message : string)
  (** A Redis error: connection, timeout, script failure. *)
  | RedisError (message : string)
  (** Any other exception, by its [repr]. *)
  | OtherError (repr : string).

Definition exn_str (e : exn) : string :=
  match e with
  | JobNotFoundError id => "job " +:+ show_uuid id +:+ " not found"
  | JobConflictError id action status =>
      "cannot " +:+ action +:+ " job " +:+ show_uuid id +:+ " while it is " +:+ status
  | OwnershipLostError id w tok =>
      "worker " +:+ w +:+ " no longer owns attempt " +:+ show_uuid tok +:+
      " of job " +:+ show_uuid id
  | JobExecutionError m | ValueError m | DBAPIError m | RedisError m | OtherError m => m
  | IntegrityErrorExn e => orig_text e
  end.
