(* ===== verification/Model.v ===== *)
(** * Model: the jobs table

    [app/db/models.py]: the status enum, a row of [jobs] as a record with the
    columns of class [Job], its CHECK constraints and column types, and the
    partial unique index on [idempotency_key].  Timestamps are microseconds since
    the epoch ([timestamptz]); NULL is [None]; integer columns are [Z] with the
    32-bit range of [Integer] written out in [column_types_ok]. *)

From S2P Require Import Prelude.
From S2P Require Import Text.

Local Open Scope Z_scope.

(** JSON documents ([JSONB] columns).  Numbers are decimals [m * 10^e], the form
    JSONB stores; strings are those PostgreSQL can hold, without U+0000. *)
Inductive JSON : Type :=
  | JNull
  | JBool (b : bool)
  | JNum (m e : Z)
  | JStr (s : string)
  | JArr (l : list JSON)
  | JObj (kvs : list (string * JSON)).

(** [JobStatus(str, enum.Enum)] *)
Inductive JobStatus : Type :=
  | SCHEDULED | PENDING | PROCESSING | COMPLETED | FAILED | CANCELLED.

#[export] Instance JobStatus_eq_dec : EqDecision JobStatus.
Proof. solve_decision. Defined.

(** The member's value, also the text stored by the native enum. *)
Definition status_value (s : JobStatus) : string :=
  match s with
  | SCHEDULED => "scheduled"
  | PENDING => "pending"
  | PROCESSING => "processing"
  | COMPLETED => "completed"
  | FAILED => "failed"
  | CANCELLED => "cancelled"
  end.

(** [for status in JobStatus]: declaration order. *)
Definition JobStatus_members : list JobStatus :=
  [SCHEDULED; PENDING; PROCESSING; COMPLETED; FAILED; CANCELLED].

(** [JobStatus(text)]: the member of a value, as [None] when there is none. *)
Definition status_of_value (v : string) : option JobStatus :=
  head (filter (λ s, status_value s = v) JobStatus_members).

#[export] Instance JobStatus_countable : Countable JobStatus.
Proof. refine (inj_countable status_value status_of_value _). by intros []. Defined.

Definition TERMINAL_STATUSES : list JobStatus := [COMPLETED; FAILED; CANCELLED].

(** A row of [jobs]. [result] and [error] are [job_result] and [job_error]. *)
Record Job := MkJob {
  job_id : uuid;
  job_type : string;
  payload : JSON;
  status : JobStatus;
  priority : Z;
  attempt_count : Z;
  max_attempts : Z;
  progress : Z;
  job_result : option JSON;
  job_error : option string;
  scheduled_at : option Z;
  created_at : Z;
  started_at : option Z;
  completed_at : option Z;
  worker_id : option string;
  execution_token : option uuid;
  lease_expires_at : option Z;
  idempotency_key : option string;
  idempotency_expires_at : option Z
}.

(** ** Constraints of the table *)

(** The four CHECK constraints, with their names. *)
Definition check_constraints : list (string * (Job → bool)) :=
  [("attempt_count_non_negative", λ r, 0 <=? attempt_count r);
   ("max_attempts_positive", λ r, 1 <=? max_attempts r);
   ("attempt_count_within_max", λ r, attempt_count r <=? max_attempts r);
   ("progress_percentage_range", λ r, (0 <=? progress r) && (progress r <=? 100))].

Definition checks_ok (r : Job) : bool := forallb (λ c, c.2 r) check_constraints.

Definition int4_ok (z : Z) : bool := (- 2 ^ 31 <=? z) && (z <? 2 ^ 31).
Definition varchar_ok (n : nat) (s : string) : bool := (str_len s <=? n)%nat.
Definition opt_ok {A} (p : A → bool) (o : option A) : bool :=
  match o with Some a => p a | None => true end.

(** Values the column types accept. *)
Definition column_types_ok (r : Job) : bool :=
  int4_ok (priority r) && int4_ok (attempt_count r) && int4_ok (max_attempts r) &&
  int4_ok (progress r) && varchar_ok 128 (job_type r) &&
  opt_ok (varchar_ok 128) (worker_id r) && opt_ok (varchar_ok 255) (idempotency_key r).

Definition storable (r : Job) : bool := checks_ok r && column_types_ok r.

Abbreviation table := (gmap uuid Job).

(** The partial unique index [uq_jobs_idempotency_key_active]: no two rows carry
    the same non-NULL key. *)
Definition idempotency_unique (t : table) : Prop :=
  map_Forall (λ i r, map_Forall (λ j r',
    i = j ∨ idempotency_key r = None ∨ idempotency_key r ≠ idempotency_key r') t) t.

(** The states of the table PostgreSQL accepts: the primary key is [id], every row
    is storable, the index is respected. *)
Record table_ok (t : table) : Prop := {
  table_ids : map_Forall (λ i r, job_id r = i) t;
  table_rows : map_Forall (λ _ r, storable r = true) t;
  table_keys : idempotency_unique t
}.

#[export] Instance table_ok_dec t : Decision (table_ok t).
Proof.
  destruct (decide (map_Forall (λ i r, job_id r = i) t ∧
                    map_Forall (λ _ r, storable r = true) t ∧
                    idempotency_unique t)) as [(?&?&?)|H].
  - left. by split.
  - right. intros [? ? ?]. by apply H.
Defined.

(** ** SQL UPDATE: column assignments *)

(** The columns an UPDATE of the service may assign. *)
Inductive Assign : Type :=
  | SetStatus (v : JobStatus)
  | SetAttemptCount (e : Job → Z)
  | SetProgress (v : Z)
  | SetResult (v : option JSON)
  | SetError (v : option string)
  | SetScheduledAt (v : option Z)
  | SetStartedAt (v : option Z)
  | SetCompletedAt (v : option Z)
  | SetWorkerId (v : option string)
  | SetExecutionToken (v : option uuid)
  | SetLeaseExpiresAt (v : option Z)
  | SetIdempotencyKey (v : option string)
  | SetIdempotencyExpiresAt (v : option Z)
.

Definition apply_assign (old : Job) (a : Assign) (r : Job) : Job :=
  match a with
  | SetStatus v => MkJob (job_id r) (job_type r) (payload r) v (priority r) (attempt_count
      r) (max_attempts r) (progress r) (job_result r) (job_error r) (scheduled_at r)
      (created_at r) (started_at r) (completed_at r) (worker_id r) (execution_token r)
      (lease_expires_at r) (idempotency_key r) (idempotency_expires_at r)
  | SetAttemptCount e => MkJob (job_id r) (job_type r) (payload r) (status r) (priority r)
      (e old) (max_attempts r) (progress r) (job_result r) (job_error r) (scheduled_at r)
      (created_at r) (started_at r) (completed_at r) (worker_id r) (execution_token r)
      (lease_expires_at r) (idempotency_key r) (idempotency_expires_at r)
  | SetProgress v => MkJob (job_id r) (job_type r) (payload r) (status r) (priority r)
      (attempt_count r) (max_attempts r) v (job_result r) (job_error r) (scheduled_at r)
      (created_at r) (started_at r) (completed_at r) (worker_id r) (execution_token r)
      (lease_expires_at r) (idempotency_key r) (idempotency_expires_at r)
  | SetResult v => MkJob (job_id r) (job_type r) (payload r) (status r) (priority r)
      (attempt_count r) (max_attempts r) (progress r) v (job_error r) (scheduled_at r)
      (created_at r) (started_at r) (completed_at r) (worker_id r) (execution_token r)
      (lease_expires_at r) (idempotency_key r) (idempotency_expires_at r)
  | SetError v => MkJob (job_id r) (job_type r) (payload r) (status r) (priority r)
      (attempt_count r) (max_attempts r) (progress r) (job_result r) v (scheduled_at r)
      (created_at r) (started_at r) (completed_at r) (worker_id r) (execution_token r)
      (lease_expires_at r) (idempotency_key r) (idempotency_expires_at r)
  | SetScheduledAt v => MkJob (job_id r) (job_type r) (payload r) (status r) (priority r)
      (attempt_count r) (max_attempts r) (progress r) (job_result r) (job_error r) v
      (created_at r) (started_at r) (completed_at r) (worker_id r) (execution_token r)
      (lease_expires_at r) (idempotency_key r) (idempotency_expires_at r)
  | SetStartedAt v => MkJob (job_id r) (job_type r) (payload r) (status r) (priority r)
      (attempt_count r) (max_attempts r) (progress r) (job_result r) (job_error r)
      (scheduled_at r) (created_at r) v (completed_at r) (worker_id r) (execution_token r)
      (lease_expires_at r) (idempotency_key r) (idempotency_expires_at r)
  | SetCompletedAt v => MkJob (job_id r) (job_type r) (payload r) (status r) (priority r)
      (attempt_count r) (max_attempts r) (progress r) (job_result r) (job_error r)
      (scheduled_at r) (created_at r) (started_at r) v (worker_id r) (execution_token r)
      (lease_expires_at r) (idempotency_key r) (idempotency_expires_at r)
  | SetWorkerId v => MkJob (job_id r) (job_type r) (payload r) (status r) (priority r)
      (attempt_count r) (max_attempts r) (progress r) (job_result r) (job_error r)
      (scheduled_at r) (created_at r) (started_at r) (completed_at r) v (execution_token r)
      (lease_expires_at r) (idempotency_key r) (idempotency_expires_at r)
  | SetExecutionToken v => MkJob (job_id r) (job_type r) (payload r) (status r) (priority r)
      (attempt_count r) (max_attempts r) (progress r) (job_result r) (job_error r)
      (scheduled_at r) (created_at r) (started_at r) (completed_at r) (worker_id r) v
      (lease_expires_at r) (idempotency_key r) (idempotency_expires_at r)
  | SetLeaseExpiresAt v => MkJob (job_id r) (job_type r) (payload r) (status r) (priority r)
      (attempt_count r) (max_attempts r) (progress r) (job_result r) (job_error r)
      (scheduled_at r) (created_at r) (started_at r) (completed_at r) (worker_id r)
      (execution_token r) v (idempotency_key r) (idempotency_expires_at r)
  | SetIdempotencyKey v => MkJob (job_id r) (job_type r) (payload r) (status r) (priority r)
      (attempt_count r) (max_attempts r) (progress r) (job_result r) (job_error r)
      (scheduled_at r) (created_at r) (started_at r) (completed_at r) (worker_id r)
      (execution_token r) (lease_expires_at r) v (idempotency_expires_at r)
  | SetIdempotencyExpiresAt v => MkJob (job_id r) (job_type r) (payload r) (status r)
      (priority r) (attempt_count r) (max_attempts r) (progress r) (job_result r) (job_error
      r) (scheduled_at r) (created_at r) (started_at r) (completed_at r) (worker_id r)
      (execution_token r) (lease_expires_at r) (idempotency_key r) v
  end.

(** Assignments all read the row as it was before the statement. *)
Definition apply_values (vs : list Assign) (r : Job) : Job :=
  foldl (λ acc a, apply_assign r a acc) r vs.

(** ** Facts *)

(** [storable], as the inequalities it abbreviates. *)
Lemma storable_iff r :
  storable r = true ↔
    0 ≤ attempt_count r ≤ max_attempts r ∧ 1 ≤ max_attempts r < 2147483648 ∧
    0 ≤ progress r ≤ 100 ∧ int4_ok (priority r) = true ∧
    varchar_ok 128 (job_type r) = true ∧ opt_ok (varchar_ok 128) (worker_id r) = true ∧
    opt_ok (varchar_ok 255) (idempotency_key r) = true.
Proof.
  unfold storable, checks_ok, column_types_ok, check_constraints, int4_ok. simpl.
  rewrite !andb_true_iff, !Z.leb_le, !Z.ltb_lt.
  split; intros; destruct_and?; repeat split; (assumption || lia).
Qed.
