(* ===== verification/Postgres.v ===== *)
(** * Postgres: SQL conditions and the interface of the database

    PostgreSQL is not part of the repository, so the services are written against
    the class [Postgres]: the statements they issue, on an abstract type of
    database states with an observation [jobs_table].  [PostgresLaws] is what they
    rely on, as PostgreSQL documents it: an UPDATE changes exactly the rows its
    WHERE clause accepts, atomically, or fails on a constraint; a SELECT returns
    the matching rows in the requested order.  WHERE clauses are three-valued.
    [MemDB] below implements the class with a checked finite map and discharges
    the laws; the witnesses run on it. *)

From S2P Require Import Prelude.
From S2P Require Import Text.
From S2P Require Import Errors.
From S2P Require Import Model.

Local Open Scope Z_scope.

(** ** Three-valued conditions *)

(** [Some true], [Some false], or [None] for SQL's unknown. *)
Abbreviation tri := (option bool).
Definition Cond : Type := Job → tri.

Definition sql_and (a b : tri) : tri :=
  match a, b with
  | Some false, _ | _, Some false => Some false
  | Some true, Some true => Some true
  | _, _ => None
  end.

Definition sql_or (a b : tri) : tri :=
  match a, b with
  | Some true, _ | _, Some true => Some true
  | Some false, Some false => Some false
  | _, _ => None
  end.

Definition sql_cmp {A} (p : A → A → bool) (a b : option A) : tri :=
  match a, b with Some x, Some y => Some (p x y) | _, _ => None end.
Definition sql_eq {A} `{EqDecision A} : option A → option A → tri :=
  sql_cmp (λ x y, bool_decide (x = y)).
Definition sql_lt : option Z → option Z → tri := sql_cmp Z.ltb.
Definition sql_le : option Z → option Z → tri := sql_cmp Z.leb.
Definition sql_is_null {A} (a : option A) : tri :=
  Some (match a with None => true | Some _ => false end).
Definition sql_is_not_null {A} (a : option A) : tri :=
  Some (match a with None => false | Some _ => true end).
Definition sql_in {A} `{EqDecision A} (a : A) (l : list A) : tri := Some (bool_decide (a ∈ l)).

Definition is_true (t : tri) : bool := match t with Some b => b | None => false end.

(** [.where(c1, c2, ...)]: the conjunction; a row is taken when it is true. *)
Definition where_ (cs : list Cond) : Cond := λ r, foldr (λ c acc, sql_and (c r) acc) (Some true) cs.
Definition holds (cs : list Cond) (r : Job) : bool := is_true (where_ cs r).

Lemma is_true_and a b : is_true (sql_and a b) = is_true a && is_true b.
Proof. by destruct a as [[]|], b as [[]|]. Qed.
Lemma is_true_or a b : is_true (sql_or a b) = is_true a || is_true b.
Proof. by destruct a as [[]|], b as [[]|]. Qed.
Lemma holds_nil r : holds [] r = true.
Proof. done. Qed.
Lemma holds_cons c cs r : holds (c :: cs) r = is_true (c r) && holds cs r.
Proof. apply is_true_and. Qed.
Lemma holds_app cs1 cs2 r : holds (cs1 ++ cs2) r = holds cs1 r && holds cs2 r.
Proof.
  induction cs1 as [|c cs1 IH]; [done|]. simpl app. by rewrite !holds_cons, IH, andb_assoc.
Qed.

Create Rewrite HintDb sql.
#[export] Hint Rewrite is_true_and is_true_or holds_nil holds_cons holds_app : sql.

(** ** Statements *)

Record Query := {
  q_where : list Cond;
  (** ORDER BY as a comparison: may the first row come before the second? *)
  q_order : Job → Job → bool;
  q_limit : option nat;
  q_offset : nat;
  (** FOR UPDATE SKIP LOCKED *)
  q_skip_locked : bool
}.

Definition before (q : Query) : relation Job := λ a b, q_order q a b = true.
#[export] Instance before_dec q : RelDecision (before q).
Proof. intros a b. unfold before. apply _. Defined.

Definition limit {A} (n : option nat) (l : list A) : list A :=
  match n with Some n => take n l | None => l end.

(** Rows a query may return, given the rows other transactions have locked. *)
Definition visible (locked : gset uuid) (q : Query) (r : Job) : bool :=
  holds (q_where q) r && negb (q_skip_locked q && bool_decide (job_id r ∈ locked)).

Definition rows (t : table) : list Job := (map_to_list t).*2.

Definition update_rows (cs : list Cond) (vs : list Assign) (t : table) : table :=
  (λ r, if holds cs r then apply_values vs r else r) <$> t.

(** What RETURNING yields, up to order: the new version of every updated row. *)
Definition returned (cs : list Cond) (vs : list Assign) (t : table) : list Job :=
  apply_values vs <$> filter (λ r, holds cs r = true) (rows t).

Inductive PgError : Type :=
  | PgIntegrity (e : IntegrityError)
  | PgData (message : string).

Class Postgres (DB : Type) := {
  jobs_table : DB → table;
  pg_update : list Cond → list Assign → DB → result PgError (DB * list Job);
  pg_insert : Job → DB → result PgError DB;
  pg_select : gset uuid → Query → DB → list Job;
  pg_count : list Cond → DB → Z;
  pg_count_by_status : DB → list (JobStatus * Z)
}.

(** The name of the index that rejected an insert reaches the application through
    the driver's exception or its cause. *)
Definition names_constraint (e : IntegrityError) (name : string) : Prop :=
  orig_constraint e = Some name ∨
  (orig_constraint e = None ∨ orig_constraint e = Some "") ∧ cause_constraint e = Some name.

Definition IDEMPOTENCY_INDEX : string := "uq_jobs_idempotency_key_active".

Class PostgresLaws (DB : Type) `{!Postgres DB} : Prop := {
  pg_table_ok (db : DB) : table_ok (jobs_table db);
  pg_update_spec cs vs (db : DB) :
    match pg_update cs vs db with
    | Ok (db', rs) =>
        jobs_table db' = update_rows cs vs (jobs_table db) ∧
        rs ≡ₚ returned cs vs (jobs_table db)
    | Err _ => ¬ table_ok (update_rows cs vs (jobs_table db))
    end;
  pg_insert_spec r (db : DB) :
    match pg_insert r db with
    | Ok db' =>
        jobs_table db !! job_id r = None ∧
        jobs_table db' = <[job_id r := r]> (jobs_table db)
    | Err e =>
        (jobs_table db !! job_id r = None → ¬ table_ok (<[job_id r := r]> (jobs_table db))) ∧
        (jobs_table db !! job_id r = None → storable r = true →
         ∃ i, e = PgIntegrity i ∧ names_constraint i IDEMPOTENCY_INDEX)
    end;
  pg_select_spec locked q (db : DB) :
    Total (before q) → Transitive (before q) →
    ∃ rs, rs ≡ₚ filter (λ r, visible locked q r = true) (rows (jobs_table db)) ∧
          StronglySorted (before q) rs ∧
          pg_select locked q db = limit (q_limit q) (drop (q_offset q) rs);
  pg_count_spec cs (db : DB) :
    pg_count cs db = Z.of_nat (length (filter (λ r, holds cs r = true) (rows (jobs_table db))));
  pg_group_spec (db : DB) :
    NoDup (pg_count_by_status db).*1 ∧
    ∀ s n, (s, n) ∈ pg_count_by_status db ↔
      0 < n ∧ n = Z.of_nat (length (filter (λ r, status r = s) (rows (jobs_table db))))
}.

(** ** Facts about tables *)

Lemma elem_of_rows t r : r ∈ rows t ↔ ∃ i, t !! i = Some r.
Proof.
  unfold rows. rewrite list_elem_of_fmap. split.
  - intros [[i r'] [-> ?%elem_of_map_to_list]]. eauto.
  - intros [i ?]. exists (i, r). by rewrite elem_of_map_to_list.
Qed.

Lemma job_id_apply_values vs r : job_id (apply_values vs r) = job_id r.
Proof.
  unfold apply_values. assert (∀ acc, job_id (foldl (λ acc a, apply_assign r a acc) acc vs) = job_id acc) as H.
  { induction vs as [|a vs IH]; intros acc; simpl; [done|]. rewrite IH. by destruct a. }
  apply H.
Qed.

Lemma lookup_update_rows cs vs t i :
  update_rows cs vs t !! i =
  (λ r, if holds cs r then apply_values vs r else r) <$> t !! i.
Proof. apply lookup_fmap. Qed.

(** A statement that stores good values and never gives a row a key it did not
    have keeps the table acceptable, whichever rows it touches. *)
Lemma update_rows_ok cs vs t :
  table_ok t →
  (∀ i r, t !! i = Some r → holds cs r = true → storable (apply_values vs r) = true) →
  (∀ r, idempotency_key (apply_values vs r) = idempotency_key r ∨
        idempotency_key (apply_values vs r) = None) →
  table_ok (update_rows cs vs t).
Proof.
  intros [Hids Hrows Hkeys] Hst Hkey.
  assert (∀ i r', update_rows cs vs t !! i = Some r' → ∃ r, t !! i = Some r ∧
            r' = if holds cs r then apply_values vs r else r) as Hinv.
  { intros i r'. rewrite lookup_update_rows. intros (r & ? & ->)%fmap_Some. eauto. }
  split.
  - intros i r' (r & Hr & ->)%Hinv. case_match; [rewrite job_id_apply_values|]; by apply Hids.
  - intros i r' (r & Hr & ->)%Hinv. case_match; [by eapply Hst|by eapply Hrows].
  - assert (∀ r, idempotency_key (if holds cs r then apply_values vs r else r) = idempotency_key r ∨
              idempotency_key (if holds cs r then apply_values vs r else r) = None) as Hk.
    { intros r. case_match; [apply Hkey|by left]. }
    intros i r1 (s1 & Hs1 & ->)%Hinv j r2 (s2 & Hs2 & ->)%Hinv.
    pose proof (Hkeys i s1 Hs1 j s2 Hs2) as Hu. simpl in Hu.
    destruct (Hk s1) as [E1|E1], (Hk s2) as [E2|E2]; rewrite ?E1, ?E2; try tauto.
    right. destruct (idempotency_key s1); [by right|by left].
Qed.

Lemma update_rows_none cs vs t :
  (∀ i r, t !! i = Some r → holds cs r = false) → update_rows cs vs t = t ∧ returned cs vs t = [].
Proof.
  intros Hno. split.
  - apply map_eq. intros i. rewrite lookup_update_rows.
    destruct (t !! i) as [r|] eqn:Hr; simpl; [|done]. by rewrite (Hno i r Hr).
  - unfold returned. rewrite filter_none; [done|].
    intros r [i Hi]%elem_of_rows. by rewrite (Hno i r Hi).
Qed.

Lemma filter_singleton_rows (p : Job → Prop) `{∀ r, Decision (p r)} t i r :
  (∀ j r', t !! j = Some r' → p r' → j = i) → t !! i = Some r → p r →
  filter p (rows t) = [r].
Proof.
  intros Honly Hr Hp. apply symmetry, Permutation_singleton_l.
  unfold rows. rewrite <-(insert_delete_id t i r Hr) at 1.
  rewrite map_to_list_insert by apply lookup_delete_eq. simpl.
  rewrite filter_cons_True by done. f_equiv.
  rewrite filter_none; [done|]. intros r' [j Hj]%(elem_of_rows (delete i t)) Hp'.
  apply lookup_delete_Some in Hj as [Hne Hj]. by apply (Honly j r') in Hp'.
Qed.

Lemma update_rows_one cs vs t i r :
  map_Forall (λ i r, job_id r = i) t →
  (∀ r', holds cs r' = true → job_id r' = i) → t !! i = Some r → holds cs r = true →
  update_rows cs vs t = <[i := apply_values vs r]> t ∧ returned cs vs t = [apply_values vs r].
Proof.
  intros Hids Honly Hr Hh. split.
  - apply map_eq. intros j. rewrite lookup_update_rows, lookup_insert.
    case_decide as Hij; [subst; by rewrite Hr; simpl; rewrite Hh|].
    destruct (t !! j) as [r'|] eqn:Hj; simpl; [|done].
    destruct (holds cs r') eqn:Hh'; [|done].
    apply Honly in Hh'. apply Hids in Hj. congruence.
  - unfold returned. rewrite (filter_singleton_rows _ t i r); [done| |done..].
    intros j r' Hj%Hids Hh'%Honly. congruence.
Qed.

(** ** Compare-and-set

    What a conditional UPDATE of one row is: if row [i] exists and satisfies [p],
    replace it by [f] of it and hand back the new version; otherwise do nothing. *)
Definition cas (i : uuid) (p : Job → bool) (f : Job → Job) (t : table) : table * option Job :=
  match t !! i with
  | Some r => if p r then (<[i := f r]> t, Some (f r)) else (t, None)
  | None => (t, None)
  end.

Definition keeps_key (vs : list Assign) : Prop :=
  ∀ r, idempotency_key (apply_values vs r) = idempotency_key r ∨
       idempotency_key (apply_values vs r) = None.

Lemma cas_hit i p f t r :
  t !! i = Some r → p r = true → cas i p f t = (<[i := f r]> t, Some (f r)).
Proof. intros Hr Hp. unfold cas. by rewrite Hr, Hp. Qed.

Lemma cas_miss i p f t :
  (∀ r, t !! i = Some r → p r = false) → cas i p f t = (t, None).
Proof. intros Hp. unfold cas. destruct (t !! i) eqn:Hi; [|done]. by rewrite Hp. Qed.

Lemma cas_some i p f t r' :
  (cas i p f t).2 = Some r' →
  ∃ r, t !! i = Some r ∧ p r = true ∧ r' = f r ∧ (cas i p f t).1 = <[i := f r]> t.
Proof. unfold cas. intros H. repeat case_match; simplify_eq/=. eauto. Qed.

Lemma cas_none i p f t : (cas i p f t).2 = None → (cas i p f t).1 = t.
Proof. unfold cas. intros H. by repeat case_match; simplify_eq/=. Qed.

(** Every other row is untouched. *)
Lemma cas_frame i p f t j : j ≠ i → (cas i p f t).1 !! j = t !! j.
Proof. intros Hj. unfold cas. repeat case_match; simpl; [by rewrite lookup_insert_ne|done..]. Qed.

Lemma head_option_list {A} (o : option A) : head (option_list o) = o.
Proof. by destruct o. Qed.

(** ** What the laws give for the statements the services issue *)

Section laws.
Context {DB : Type} `{!Postgres DB, !PostgresLaws DB}.
Implicit Types db : DB.

Lemma pg_update_ok cs vs db :
  table_ok (update_rows cs vs (jobs_table db)) →
  ∃ db' rs, pg_update cs vs db = Ok (db', rs) ∧
    jobs_table db' = update_rows cs vs (jobs_table db) ∧
    rs ≡ₚ returned cs vs (jobs_table db).
Proof using PostgresLaws0.
  intros Hok. pose proof (pg_update_spec cs vs db) as H.
  destruct (pg_update cs vs db) as [[db' rs]|e]; [|done].
  destruct H. eauto.
Qed.

(** No row matches: nothing changes and RETURNING is empty. *)
Lemma pg_update_none cs vs db :
  (∀ i r, jobs_table db !! i = Some r → holds cs r = false) →
  ∃ db', pg_update cs vs db = Ok (db', []) ∧ jobs_table db' = jobs_table db.
Proof using PostgresLaws0.
  intros Hno. destruct (update_rows_none cs vs _ Hno) as [Ht Hr].
  destruct (pg_update_ok cs vs db) as (db' & rs & H1 & H2 & H3).
  { rewrite Ht. apply pg_table_ok. }
  rewrite Hr in H3. apply symmetry, Permutation_nil in H3 as ->. rewrite H1, Ht in *. eauto.
Qed.

(** A statement whose WHERE clause names one id, on a row that satisfies it. *)
Lemma pg_update_one cs vs db i r :
  (∀ r', holds cs r' = true → job_id r' = i) →
  jobs_table db !! i = Some r → holds cs r = true →
  storable (apply_values vs r) = true →
  (∀ r', idempotency_key (apply_values vs r') = idempotency_key r' ∨
         idempotency_key (apply_values vs r') = None) →
  ∃ db', pg_update cs vs db = Ok (db', [apply_values vs r]) ∧
         jobs_table db' = <[i := apply_values vs r]> (jobs_table db).
Proof using PostgresLaws0.
  intros Honly Hr Hh Hst Hk. pose proof (pg_table_ok db) as Hok.
  destruct (update_rows_one cs vs _ i r (table_ids _ Hok) Honly Hr Hh) as [Ht Hret].
  destruct (pg_update_ok cs vs db) as (db' & rs & H1 & H2 & H3).
  { apply update_rows_ok; [done| |done]. intros j r' Hj Hh'.
    pose proof (Honly _ Hh') as Hi. apply (table_ids _ Hok) in Hj as Hid.
    rewrite <-Hid, Hi in Hj. congruence. }
  rewrite Hret in H3. apply symmetry, Permutation_singleton_l in H3 as ->.
  rewrite Ht in H2. eauto.
Qed.

(** A conditional UPDATE that pins the id is a compare-and-set on that row. *)
Lemma pg_update_cas cs vs i p db :
  (∀ r, holds cs r = bool_decide (job_id r = i) && p r) →
  (∀ r, jobs_table db !! i = Some r → p r = true → storable (apply_values vs r) = true) →
  keeps_key vs →
  ∃ db', pg_update cs vs db =
           Ok (db', option_list (cas i p (apply_values vs) (jobs_table db)).2) ∧
         jobs_table db' = (cas i p (apply_values vs) (jobs_table db)).1.
Proof using PostgresLaws0.
  intros Hcs Hst Hk. pose proof (pg_table_ok db) as [Hids _ _].
  assert (∀ r, holds cs r = true → job_id r = i) as Honly.
  { intros r. rewrite Hcs. intros [H%bool_decide_eq_true_1 _]%andb_prop. done. }
  destruct (jobs_table db !! i) as [r|] eqn:Hr; [destruct (p r) eqn:Hp|].
  - rewrite (cas_hit _ _ _ _ r) by done. simpl. apply (pg_update_one cs vs db i r); auto.
    rewrite Hcs, Hp, andb_true_r. apply bool_decide_eq_true_2, (Hids i r Hr).
  - rewrite cas_miss by (intros r'; rewrite Hr; naive_solver). apply pg_update_none.
    intros j r' Hj. destruct (holds cs r') eqn:Hh; [|done].
    apply Honly in Hh as Hij. apply Hids in Hj as Hij'. rewrite <-Hij', Hij, Hr in Hj.
    simplify_eq. by rewrite Hcs, Hp, andb_false_r in Hh.
  - rewrite cas_miss by (intros r'; by rewrite Hr). apply pg_update_none.
    intros j r' Hj. destruct (holds cs r') eqn:Hh; [|done].
    apply Honly in Hh. apply Hids in Hj as Hij'. by rewrite <-Hij', Hh, Hr in Hj.
Qed.

Lemma rows_ids db : job_id <$> rows (jobs_table db) = (map_to_list (jobs_table db)).*1.
Proof using PostgresLaws0.
  unfold rows. rewrite <-list_fmap_compose. apply list_fmap_ext.
  intros k [i r] Hk. simpl. apply (table_ids _ (pg_table_ok db)).
  apply elem_of_map_to_list. by eapply list_elem_of_lookup_2.
Qed.

(** What a SELECT returns: table rows it may see, each once, in order; and all of
    them unless the limit cut it short. *)
Lemma pg_select_facts locked q db :
  Total (before q) → Transitive (before q) →
  NoDup (job_id <$> pg_select locked q db) ∧
  (∀ r, r ∈ pg_select locked q db →
        jobs_table db !! job_id r = Some r ∧ visible locked q r = true) ∧
  StronglySorted (before q) (pg_select locked q db) ∧
  (∀ n, q_offset q = 0%nat → q_limit q = Some n →
     (length (pg_select locked q db) ≤ n)%nat ∧
     ((length (pg_select locked q db) < n)%nat → ∀ i r,
        jobs_table db !! i = Some r → visible locked q r = true → r ∈ pg_select locked q db)).
Proof using PostgresLaws0.
  intros Htot Htr. destruct (pg_select_spec locked q db Htot Htr) as (rs & Hp & Hs & ->).
  assert (∀ l : list Job, limit (q_limit q) l `sublist_of` l) as Hlim.
  { intros l. destruct (q_limit q); simpl; [apply sublist_take|done]. }
  assert (limit (q_limit q) (drop (q_offset q) rs) `sublist_of` rs) as Hsub.
  { etrans; [apply Hlim|apply sublist_drop]. }
  split; [|split; [|split]].
  - eapply sublist_NoDup; [|apply (fmap_sublist job_id), Hsub]. rewrite Hp.
    eapply sublist_NoDup; [|apply (fmap_sublist job_id), sublist_filter].
    rewrite rows_ids. apply NoDup_fst_map_to_list.
  - intros r Hr. assert (r ∈ rs) as Hin by (eapply elem_of_sublist; eauto).
    rewrite Hp in Hin. apply list_elem_of_filter in Hin as [Hv [i Hi]%elem_of_rows].
    split; [|done]. by rewrite (table_ids _ (pg_table_ok db) i r Hi).
  - by eapply sublist_sorted.
  - intros n -> ->. simpl. rewrite drop_0, length_take. split; [lia|].
    intros Hlt i r Hi Hv. rewrite take_ge by lia. rewrite Hp.
    apply list_elem_of_filter. split; [done|]. apply elem_of_rows. eauto.
Qed.

(** What the limit leaves out comes after everything it lets through. *)
Lemma pg_select_first locked q db i r r' :
  Total (before q) → Transitive (before q) → q_offset q = 0%nat →
  jobs_table db !! i = Some r → visible locked q r = true → r ∉ pg_select locked q db →
  r' ∈ pg_select locked q db → before q r' r.
Proof using PostgresLaws0.
  intros Htot Htr Hoff Hi Hv. destruct (pg_select_spec locked q db Htot Htr) as (rs & Hp & Hs & ->).
  rewrite Hoff, drop_0. destruct (q_limit q) as [n|]; simpl.
  - rewrite <-(take_drop n rs) in Hs. apply StronglySorted_app in Hs as (Hlt & _ & _).
    intros Hnin Hin. apply Hlt; [done|].
    assert (r ∈ rs) as Hr.
    { rewrite Hp. apply list_elem_of_filter. split; [done|]. apply elem_of_rows. eauto. }
    rewrite <-(take_drop n rs) in Hr. apply elem_of_app in Hr as [Hr|Hr]; done.
  - intros Hnin. destruct Hnin. rewrite Hp. apply list_elem_of_filter. split; [done|].
    apply elem_of_rows. eauto.
Qed.

Lemma table_id db i r : jobs_table db !! i = Some r → job_id r = i.
Proof using PostgresLaws0. apply (table_ids _ (pg_table_ok db)). Qed.

Lemma table_storable db i r : jobs_table db !! i = Some r → storable r = true.
Proof using PostgresLaws0. apply (table_rows _ (pg_table_ok db)). Qed.

(** A limit larger than the table never cuts a SELECT short. *)
Lemma select_short locked q db n :
  Total (before q) → Transitive (before q) → (size (jobs_table db) < n)%nat →
  (length (pg_select locked q db) < n)%nat.
Proof using PostgresLaws0.
  intros Ht Htr Hn. destruct (pg_select_facts locked q db Ht Htr) as (Hnd & Hin & _).
  apply Nat.le_lt_trans with (size (jobs_table db)); [|done].
  rewrite <-(length_fmap job_id), <-(size_list_to_set (C := gset uuid) _ Hnd), <-size_dom.
  apply subseteq_size. intros i Hi. apply elem_of_list_to_set, list_elem_of_fmap in Hi as (r & -> & Hr).
  apply Hin in Hr as [Hr _]. by apply elem_of_dom_2 in Hr.
Qed.
End laws.
