(* ===== verification/MemDB.v ===== *)
(** * MemDB: a database that satisfies [PostgresLaws]

    The jobs table as a finite map that carries the proof it is acceptable.  It
    discharges the interface of [Postgres], so the hypotheses of the services'
    theorems can hold, and it is what the witnesses run on.  It models no code of
    the repository. *)

From S2P Require Import Prelude.
From S2P Require Import Text.
From S2P Require Import Errors.
From S2P Require Import Model.
From S2P Require Import Postgres.

Local Open Scope Z_scope.

Record MemDB := { mem_table : table; mem_ok : bool_decide (table_ok mem_table) = true }.

Lemma empty_ok : bool_decide (table_ok ∅) = true.
Proof. done. Qed.

Definition mem_empty : MemDB := {| mem_table := ∅; mem_ok := empty_ok |}.

Definition mem_conflict : PgError :=
  PgIntegrity {| orig_constraint := None;
                 cause_constraint := Some IDEMPOTENCY_INDEX;
                 orig_text := "duplicate key value violates unique constraint" |}.

(** Commit a table if it is acceptable. *)
Definition mem_store (t : table) (e : PgError) : result PgError MemDB :=
  (if bool_decide (table_ok t) as b return bool_decide (table_ok t) = b → _
   then λ H, Ok {| mem_table := t; mem_ok := H |}
   else λ _, Err e) eq_refl.

Definition mem_update (cs : list Cond) (vs : list Assign) (db : MemDB)
    : result PgError (MemDB * list Job) :=
  match mem_store (update_rows cs vs (mem_table db)) (PgData "constraint violated") with
  | Ok db' => Ok (db', returned cs vs (mem_table db))
  | Err e => Err e
  end.

Definition mem_insert (r : Job) (db : MemDB) : result PgError MemDB :=
  match mem_table db !! job_id r with
  | Some _ => Err (PgData "duplicate primary key")
  | None =>
      if storable r then mem_store (<[job_id r := r]> (mem_table db)) mem_conflict
      else Err (PgData "bad row")
  end.

Definition mem_select (locked : gset uuid) (q : Query) (db : MemDB) : list Job :=
  limit (q_limit q) (drop (q_offset q)
    (merge_sort (before q)
       (filter (λ r, visible locked q r = true) (rows (mem_table db))))).

Definition mem_count (cs : list Cond) (db : MemDB) : Z :=
  Z.of_nat (length (filter (λ r, holds cs r = true) (rows (mem_table db)))).

Definition mem_count_by_status (db : MemDB) : list (JobStatus * Z) :=
  filter (λ p, 0 < p.2)
    ((λ s, (s, Z.of_nat (length (filter (λ r, status r = s) (rows (mem_table db))))))
       <$> JobStatus_members).

#[export] Instance MemDB_postgres : Postgres MemDB := {|
  jobs_table := mem_table;
  pg_update := mem_update;
  pg_insert := mem_insert;
  pg_select := mem_select;
  pg_count := mem_count;
  pg_count_by_status := mem_count_by_status
|}.

Lemma mem_store_spec t e :
  match mem_store t e with
  | Ok db => mem_table db = t ∧ table_ok t
  | Err e' => e' = e ∧ ¬ table_ok t
  end.
Proof.
  unfold mem_store. generalize (eq_refl (bool_decide (table_ok t))).
  generalize (bool_decide (table_ok t)) at 2 3.
  intros [] Hb; split; try done.
  - by apply bool_decide_eq_true_1 in Hb.
  - by apply bool_decide_eq_false_1 in Hb.
Qed.

Lemma elem_of_members s : s ∈ JobStatus_members.
Proof. unfold JobStatus_members. destruct s; set_solver. Qed.

#[export] Instance MemDB_laws : PostgresLaws MemDB.
Proof.
  split.
  - intros [t H]. exact (bool_decide_eq_true_1 _ H).
  - intros cs vs db. simpl. unfold mem_update.
    pose proof (mem_store_spec (update_rows cs vs (mem_table db)) (PgData "constraint violated")) as H.
    destruct (mem_store _ _) as [db'|e]; [destruct H as [<- H]|destruct H]; auto.
  - intros r db. simpl. unfold mem_insert.
    destruct (mem_table db !! job_id r) eqn:Hid.
    { by split. }
    destruct (storable r) eqn:Hst.
    + pose proof (mem_store_spec (<[job_id r:=r]> (mem_table db)) mem_conflict) as H.
      destruct (mem_store _ _) as [db'|e]; destruct H as [H1 H2]; [by rewrite <-H1 in *|].
      split; [done|]. intros _ _. eexists. split; [done|]. right. by split; [left|].
    + split; [|done]. intros _ [_ Hrows _].
      specialize (Hrows (job_id r) r (lookup_insert_eq _ _ _)). simpl in *. congruence.
  - intros locked q db Htot Htrans. simpl. unfold mem_select.
    exists (merge_sort (before q) (filter (λ r, visible locked q r = true) (rows (mem_table db)))).
    split; [apply merge_sort_Permutation|]. split; [|done].
    apply StronglySorted_merge_sort; apply _.
  - done.
  - intros db. simpl. unfold mem_count_by_status. split.
    + apply (sublist_NoDup _ JobStatus_members).
      * compute_done.
      * assert (∀ l : list JobStatus,
          (filter (λ p, 0 < p.2)
            ((λ s, (s, Z.of_nat (length (filter (λ r, status r = s) (rows (mem_table db)))))) <$> l)).*1
          `sublist_of` l) as H; [|apply H].
        induction l as [|s l IH]; [done|]. rewrite fmap_cons, filter_cons.
        case_decide; simpl; by constructor.
    + intros s n. rewrite list_elem_of_filter, list_elem_of_fmap. simpl. split.
      * intros [Hn (s' & [= -> ->] & _)]. done.
      * intros [Hn ->]. split; [done|]. exists s. split; [done|]. apply elem_of_members.
Qed.

(** ** Data for the witnesses *)

(** A database holding an acceptable table. *)
Definition mem_of (t : table) : MemDB :=
  match mem_store t (PgData "unacceptable table") with Ok db => db | Err _ => mem_empty end.

Definition demo_pending : Job :=
  {| job_id := 7; job_type := "email"; payload := JObj []; status := PENDING; priority := 50;
     attempt_count := 0; max_attempts := 3; progress := 0; job_result := None;
     job_error := None; scheduled_at := None; created_at := 1000; started_at := None;
     completed_at := None; worker_id := None; execution_token := None;
     lease_expires_at := None; idempotency_key := Some "order-1";
     idempotency_expires_at := Some 86400001000 |}.

Definition demo_scheduled : Job :=
  {| job_id := 8; job_type := "batch"; payload := JObj []; status := SCHEDULED; priority := 0;
     attempt_count := 1; max_attempts := 3; progress := 40; job_result := None;
     job_error := Some "boom"; scheduled_at := Some 5000000; created_at := 2000;
     started_at := Some 3000; completed_at := None; worker_id := None;
     execution_token := None; lease_expires_at := None; idempotency_key := None;
     idempotency_expires_at := None |}.

Definition demo_processing : Job :=
  {| job_id := 9; job_type := "report"; payload := JObj []; status := PROCESSING;
     priority := 100; attempt_count := 2; max_attempts := 3; progress := 10;
     job_result := None; job_error := Some "boom"; scheduled_at := Some 2500;
     created_at := 2000; started_at := Some 3000; completed_at := None;
     worker_id := Some "w1"; execution_token := Some 99; lease_expires_at := Some 60003000;
     idempotency_key := None; idempotency_expires_at := None |}.

Definition demo_failed : Job :=
  {| job_id := 10; job_type := "webhook"; payload := JObj []; status := FAILED; priority := 7;
     attempt_count := 3; max_attempts := 3; progress := 0; job_result := None;
     job_error := Some "boom"; scheduled_at := Some 2500; created_at := 2500;
     started_at := Some 3000; completed_at := Some 4000; worker_id := None;
     execution_token := None; lease_expires_at := None; idempotency_key := None;
     idempotency_expires_at := None |}.

Definition demo_table : table :=
  {[ 7 := demo_pending; 8 := demo_scheduled; 9 := demo_processing; 10 := demo_failed ]}.

Definition demo_db : MemDB := mem_of demo_table.

Lemma demo_db_table : jobs_table demo_db = demo_table.
Proof. vm_compute. reflexivity. Qed.
