(* ===== verification/Session.v ===== *)
(** * Session: transactions as a state-and-exception monad

    An [AsyncSession] holds one transaction over the shared database:
    [working] is what its statements see and change, [committed] what every other
    session sees.  A statement of [Postgres] either runs or raises; [commit]
    publishes, [rollback] discards, and leaving [async with session_factory()]
    discards whatever was not committed.  [interfere] is another session's
    commit landing between two statements, which READ COMMITTED allows. *)

From S2P Require Import Prelude.
From S2P Require Import Text.
From S2P Require Import Errors.
From S2P Require Import Model.
From S2P Require Import Postgres.

Record Session (DB : Type) := mk_session { committed : DB; working : DB }.
Arguments mk_session {DB}.
Arguments committed {DB}.
Arguments working {DB}.

Definition M (DB A : Type) : Type := Session DB → Session DB * result exn A.

Declare Scope session_scope.
Delimit Scope session_scope with session.
Open Scope session_scope.

Definition ret {DB A} (a : A) : M DB A := λ s, (s, Ok a).
Definition raise {DB A} (e : exn) : M DB A := λ s, (s, Err e).
Definition bind {DB A B} (m : M DB A) (k : A → M DB B) : M DB B := λ s,
  match m s with
  | (s', Ok a) => k a s'
  | (s', Err e) => (s', Err e)
  end.
(** [try: m except Exception as e: h(e)] *)
Definition try_except {DB A} (m : M DB A) (h : exn → M DB A) : M DB A := λ s,
  match m s with
  | (s', Ok a) => (s', Ok a)
  | (s', Err e) => h e s'
  end.
Definition lift {DB A} (r : result exn A) : M DB A := λ s, (s, r).

Notation "'let!' x := m 'in' k" := (bind m (λ x, k))
  (at level 10, x name, m at level 100, k at level 200) : session_scope.
Notation "'do!' m 'in' k" := (bind m (λ _, k))
  (at level 10, m at level 100, k at level 200) : session_scope.

Section statements.
Context {DB : Type} `{!Postgres DB}.

Definition exn_of_pg (e : PgError) : exn :=
  match e with PgIntegrity i => IntegrityErrorExn i | PgData m => DBAPIError m end.

(** [session.execute(update(Job).where(..).values(..).returning(Job))] *)
Definition execute_update (cs : list Cond) (vs : list Assign) : M DB (list Job) := λ s,
  match pg_update cs vs (working s) with
  | Ok (db', rs) => (mk_session (committed s) db', Ok rs)
  | Err e => (s, Err (exn_of_pg e))
  end.

(** [session.add(job); session.flush()] *)
Definition flush_insert (r : Job) : M DB unit := λ s,
  match pg_insert r (working s) with
  | Ok db' => (mk_session (committed s) db', Ok tt)
  | Err e => (s, Err (exn_of_pg e))
  end.

Definition execute_select (locked : gset uuid) (q : Query) : M DB (list Job) := λ s,
  (s, Ok (pg_select locked q (working s))).

Definition commit : M DB unit := λ s, (mk_session (working s) (working s), Ok tt).
Definition rollback : M DB unit := λ s, (mk_session (committed s) (committed s), Ok tt).
Definition interfere (g : DB → DB) : M DB unit := λ s,
  (mk_session (g (committed s)) (g (working s)), Ok tt).

(** [async with session_factory() as session: m]: the committed state survives. *)
Definition run_session {A} (m : M DB A) (db : DB) : DB * result exn A :=
  let '(s, r) := m (mk_session db db) in (committed s, r).

(** [get_session], FastAPI's dependency: an exception rolls back and goes on. *)
Definition get_session {A} (m : M DB A) : M DB A :=
  try_except m (λ e, do! rollback in raise e).

(** A SELECT with no ORDER BY, LIMIT or lock. *)
Definition plain_query (cs : list Cond) : Query :=
  {| q_where := cs; q_order := λ _ _, true; q_limit := None; q_offset := 0;
     q_skip_locked := false |}.
End statements.

Section session_lemmas.
Context {DB : Type} `{!Postgres DB, !PostgresLaws DB}.
Implicit Types db : DB.

(** A plain SELECT returns the rows that satisfy its conditions. *)
Lemma plain_select_spec cs db :
  pg_select ∅ (plain_query cs) db ≡ₚ filter (λ r, holds cs r = true) (rows (jobs_table db)).
Proof using PostgresLaws0.
  destruct (pg_select_spec ∅ (plain_query cs) db) as (rs & Hp & _ & ->).
  - intros a b. by left.
  - intros a b c _ _. done.
  - simpl. rewrite drop_0, Hp. apply reflexive_eq, list_filter_iff. intros r.
    unfold visible. simpl. by rewrite andb_true_r.
Qed.

Lemma plain_select_none cs db :
  (∀ i r, jobs_table db !! i = Some r → holds cs r = false) →
  pg_select ∅ (plain_query cs) db = [].
Proof using PostgresLaws0.
  intros Hno. apply Permutation_nil_r. rewrite plain_select_spec, filter_none; [done|].
  intros r [i Hi]%elem_of_rows. by rewrite (Hno i r Hi).
Qed.

Lemma plain_select_one cs db i r :
  (∀ j r', jobs_table db !! j = Some r' → holds cs r' = true → j = i) →
  jobs_table db !! i = Some r → holds cs r = true →
  pg_select ∅ (plain_query cs) db = [r].
Proof using PostgresLaws0.
  intros Honly Hr Hh. apply Permutation_singleton_r.
  rewrite plain_select_spec. apply reflexive_eq.
  by apply (filter_singleton_rows _ _ i r).
Qed.
End session_lemmas.

(** ** What a failure leaves behind *)

Section effects.
Context {DB : Type} `{!Postgres DB}.

(** [m] publishes nothing; [m] publishes nothing when it raises. *)
Definition quiet {A} (m : M DB A) : Prop := ∀ s, committed (m s).1 = committed s.
Definition all_or_nothing {A} (m : M DB A) : Prop :=
  ∀ s, match (m s).2 with Err _ => committed (m s).1 = committed s | Ok _ => True end.

Lemma quiet_ret {A} (a : A) : quiet (ret a). Proof using Type. done. Qed.
Lemma quiet_raise {A} e : quiet (raise (A := A) e). Proof using Type. done. Qed.
Lemma quiet_lift {A} (r : result exn A) : quiet (lift r). Proof using Type. done. Qed.
Lemma quiet_rollback : quiet rollback. Proof using Type. done. Qed.
Lemma quiet_select l q : quiet (execute_select l q). Proof using Type. done. Qed.
Lemma quiet_update cs vs : quiet (execute_update cs vs).
Proof using Type. intros s. unfold execute_update. by repeat case_match. Qed.
Lemma quiet_insert r : quiet (flush_insert r).
Proof using Type. intros s. unfold flush_insert. by repeat case_match. Qed.
Lemma quiet_interfere g : (∀ d, g d = d) → quiet (interfere g).
Proof using Type. intros Hg s. apply Hg. Qed.
Lemma quiet_bind {A B} (m : M DB A) (k : A → M DB B) :
  quiet m → (∀ a, quiet (k a)) → quiet (bind m k).
Proof using Type.
  intros Hm Hk s. unfold bind. specialize (Hm s).
  destruct (m s) as [s' [a|e]]; [|done]. by rewrite (Hk a s').
Qed.

Lemma aon_quiet {A} (m : M DB A) : quiet m → all_or_nothing m.
Proof using Type. intros Hm s. rewrite (Hm s). by case_match. Qed.
Lemma aon_commit {A} (a : A) : all_or_nothing (do! commit in ret a).
Proof using Type. done. Qed.
Lemma aon_bind {A B} (m : M DB A) (k : A → M DB B) :
  quiet m → (∀ a, all_or_nothing (k a)) → all_or_nothing (bind m k).
Proof using Type.
  intros Hm Hk s. unfold bind. specialize (Hm s).
  destruct (m s) as [s' [a|e]]; [|done]. specialize (Hk a s').
  destruct ((k a s').2); [done|]. simpl in *. congruence.
Qed.
Lemma aon_try {A} (m : M DB A) h :
  all_or_nothing m → (∀ e, all_or_nothing (h e)) → all_or_nothing (try_except m h).
Proof using Type.
  intros Hm Hh s. unfold try_except. specialize (Hm s).
  destruct (m s) as [s' [a|e]]; [done|]. specialize (Hh e s').
  destruct ((h e s').2); [done|]. simpl in *. congruence.
Qed.

(** A request's session commits what the service function committed and answers as it
    does, and a failure leaves no transaction open. *)
Lemma run_get_session {A} (m : M DB A) db : run_session (get_session m) db = run_session m db.
Proof using Type.
  unfold run_session, get_session, try_except. destruct (m _) as [s [a|e]]; done.
Qed.

Lemma get_session_closed {A} (m : M DB A) s s' e :
  get_session m s = (s', Err e) → working s' = committed s'.
Proof using Type.
  unfold get_session, try_except. destruct (m s) as [s1 [a|e1]]; [done|]. by intros [= <- <-].
Qed.

Lemma run_all_or_nothing {A} (m : M DB A) db db' e :
  all_or_nothing m → run_session m db = (db', Err e) → db' = db.
Proof using Type.
  intros Hm. unfold run_session. specialize (Hm (mk_session db db)).
  destruct (m _) as [s r]. intros [= <- ->]. done.
Qed.
End effects.

Create HintDb session.
#[export] Hint Resolve quiet_ret quiet_raise quiet_lift quiet_rollback quiet_select quiet_update
  quiet_insert quiet_interfere quiet_bind aon_commit aon_try : session.
