(* ===== verification/RetryPolicy.v ===== *)
(** * RetryPolicy: retry timing and attempt identity

    [app/services/retry_policy.py] and [app/services/attempt.py]. *)

From S2P Require Import Prelude.
From S2P Require Import Text.
From S2P Require Import Errors.
From S2P Require Import Model.

Local Open Scope Z_scope.

(** ** [retry_policy.py] *)

(** Seconds before the attempt that follows the attempt used as the key. *)
Definition RETRY_DELAYS_SECONDS : gmap Z Z := {[ 1 := 30; 2 := 120 ]}.

Definition retry_delay_seconds (attempt_count : Z) : result exn Z :=
  match RETRY_DELAYS_SECONDS !! attempt_count with
  | None =>
      Err (ValueError ("no retry delay defined for attempt " +:+ show_int attempt_count +:+
                       "; known attempts: [1, 2]"))
  | Some delay => Ok delay
  end.

(** [timedelta(seconds=n)] for an integer, in microseconds. *)
Definition seconds (n : Z) : Z := n * 1000000.

(** ** [attempt.py] *)

Record Attempt := MkAttempt {
  at_job_id : uuid;
  at_worker_id : string;
  at_execution_token : uuid;
  at_attempt_count : Z;
  at_max_attempts : Z
}.

#[export] Instance Attempt_eq_dec : EqDecision Attempt.
Proof. solve_decision. Defined.

(** [Attempt.of(job)] *)
Definition attempt_of (job : Job) : result exn Attempt :=
  match worker_id job, execution_token job with
  | Some w, Some tok =>
      Ok {| at_job_id := job_id job; at_worker_id := w; at_execution_token := tok;
            at_attempt_count := attempt_count job; at_max_attempts := max_attempts job |}
  | _, _ => Err (ValueError ("job " +:+ show_uuid (job_id job) +:+ " carries no owned attempt"))
  end.

Definition has_attempts_left (a : Attempt) : bool := at_attempt_count a <? at_max_attempts a.

(** ** Facts *)

Lemma retry_delay_defined n :
  (∃ d, retry_delay_seconds n = Ok d) ↔ n = 1 ∨ n = 2.
Proof.
  unfold retry_delay_seconds, RETRY_DELAYS_SECONDS. split.
  - intros [d Hd]. destruct (decide (n = 1)); [by left|]. destruct (decide (n = 2)); [by right|].
    by rewrite lookup_insert_ne, lookup_singleton_ne in Hd by done.
  - intros [-> | ->]; vm_compute; eauto.
Qed.

Lemma retry_delay_1 : retry_delay_seconds 1 = Ok 30. Proof. done. Qed.
Lemma retry_delay_2 : retry_delay_seconds 2 = Ok 120. Proof. done. Qed.
