(* ===== verification/Logging.v ===== *)
(** * Logging: one JSON object per line

    [app/core/logging.py].  [JsonFormatter.format] builds a dict and prints it with
    [json.dumps], whose defaults escape everything that is not printable ASCII.  Text
    is a list of code points.  What the standard library's [Formatter] computes (the
    formatted time, the message, the traceback) is part of the record; numbers that
    are not integers, and values [default=str] turns to text, carry their text. *)

From S2P Require Import Prelude.
From S2P Require Import Text.
From S2P Require Import Errors.
From S2P Require Import RetryPolicy.
From Stdlib Require Import Ascii.

Local Open Scope Z_scope.

Definition text : Type := list Z.

Fixpoint codes (s : string) : text :=
  match s with
  | EmptyString => []
  | String c s => Z.of_N (N_of_ascii c) :: codes s
  end.

(** ** [json.dumps] of strings *)

Definition hex_char (d : Z) : Z := if d <? 10 then 48 + d else 87 + d.

(** A [\uXXXX] escape, of a code point below 2^16. *)
Definition u_escape (v : Z) : text :=
  [92; 117; hex_char (Z.land (Z.shiftr v 12) 15); hex_char (Z.land (Z.shiftr v 8) 15);
   hex_char (Z.land (Z.shiftr v 4) 15); hex_char (Z.land v 15)].

Definition escape_char (c : Z) : text :=
  if c =? 34 then [92; 34]
  else if c =? 92 then [92; 92]
  else if c =? 10 then [92; 110]
  else if c =? 13 then [92; 114]
  else if c =? 9 then [92; 116]
  else if c =? 12 then [92; 102]
  else if c =? 8 then [92; 98]
  else if (32 <=? c) && (c <=? 126) then [c]
  else if c <? 65536 then u_escape c
  else
    let v := c - 65536 in
    u_escape (Z.lor 55296 (Z.land (Z.shiftr v 10) 1023)) ++ u_escape (Z.lor 56320 (Z.land v 1023)).

Definition escape (s : text) : text := s ≫= escape_char.
Definition dumps_text (s : text) : text := [34] ++ escape s ++ [34].

(** ** The values a log line carries *)

Inductive LogValue :=
  | LText (s : text)
  | LInt (z : Z)
  | LFloat (repr : text)
  | LBool (b : bool)
  | LNone
  (** Any other object, by its [str]. *)
  | LOther (s : text).

Definition dumps_value (v : LogValue) : text :=
  match v with
  | LText s | LOther s => dumps_text s
  | LInt z => codes (show_int z)
  | LFloat repr => repr
  | LBool true => codes "true"
  | LBool false => codes "false"
  | LNone => codes "null"
  end.

(** A dict in insertion order; assigning to a key it has keeps the key's place. *)
Abbreviation dict := (list (string * LogValue)).

Fixpoint dict_set (d : dict) (key : string) (v : LogValue) : dict :=
  match d with
  | [] => [(key, v)]
  | (k, w) :: d => if String.eqb k key then (k, v) :: d else (k, w) :: dict_set d key v
  end.

Fixpoint dict_get (d : dict) (key : string) : option LogValue :=
  match d with
  | [] => None
  | (k, w) :: d => if String.eqb k key then Some w else dict_get d key
  end.

Definition dumps_item (kv : string * LogValue) : text :=
  dumps_text (codes kv.1) ++ codes ": " ++ dumps_value kv.2.

Fixpoint dumps_items (d : dict) : text :=
  match d with
  | [] => []
  | [kv] => dumps_item kv
  | kv :: d => dumps_item kv ++ codes ", " ++ dumps_items d
  end.

Definition dumps (d : dict) : text := [123] ++ dumps_items d ++ [125].

(** ** The formatter *)

(** [rec_dict] is [record.__dict__]: the attributes every record has, and the extras. *)
Record LogRecord := {
  rec_time : text;
  rec_level : text;
  rec_name : text;
  rec_message : text;
  rec_exception : option text;
  rec_dict : dict
}.

(** [logging.LogRecord("", 0, "", 0, "", None, None).__dict__] and the three names added. *)
Definition RESERVED_RECORD_KEYS : list string :=
  ["name"; "msg"; "args"; "levelname"; "levelno"; "pathname"; "filename"; "module"; "exc_info";
   "exc_text"; "stack_info"; "lineno"; "funcName"; "created"; "msecs"; "relativeCreated"; "thread";
   "threadName"; "processName"; "process"; "message"; "asctime"; "taskName"].

Definition base_payload (record : LogRecord) : dict :=
  [("timestamp", LText (rec_time record)); ("level", LText (rec_level record));
   ("logger", LText (rec_name record)); ("message", LText (rec_message record))] ++
  match rec_exception record with Some e => [("exception", LText e)] | None => [] end.

Definition add_extra (payload : dict) (kv : string * LogValue) : dict :=
  if bool_decide (kv.1 ∈ RESERVED_RECORD_KEYS) then payload else dict_set payload kv.1 kv.2.

(** [JsonFormatter.format] *)
Definition format_payload (record : LogRecord) : dict :=
  foldl add_extra (base_payload record) (rec_dict record).
Definition format (record : LogRecord) : text := dumps (format_payload record).

(** [Attempt.log_context] *)
Definition log_context (a : Attempt) : dict :=
  [("job_id", LText (codes (show_uuid (at_job_id a)))); ("worker_id", LText (codes (at_worker_id a)));
   ("execution_token", LText (codes (show_uuid (at_execution_token a))));
   ("attempt", LInt (at_attempt_count a))].

(** ** Reading a JSON string back *)

Definition hex_val (c : Z) : option Z :=
  if (48 <=? c) && (c <=? 57) then Some (c - 48)
  else if (97 <=? c) && (c <=? 102) then Some (c - 87)
  else if (65 <=? c) && (c <=? 70) then Some (c - 55)
  else None.

Definition hex4 (a b c d : Z) : option Z :=
  match hex_val a, hex_val b, hex_val c, hex_val d with
  | Some a, Some b, Some c, Some d => Some (((a * 16 + b) * 16 + c) * 16 + d)
  | _, _, _, _ => None
  end.

Definition high_surrogate (v : Z) : bool := (55296 <=? v) && (v <? 56320).
Definition low_surrogate (v : Z) : bool := (56320 <=? v) && (v <? 57344).

Definition simple_escape (c : Z) : option Z :=
  if c =? 34 then Some 34 else if c =? 92 then Some 92 else if c =? 47 then Some 47
  else if c =? 110 then Some 10 else if c =? 114 then Some 13 else if c =? 116 then Some 9
  else if c =? 102 then Some 12 else if c =? 98 then Some 8 else None.

(** The characters of a JSON string, after its opening quote: the text and what follows
    the closing quote.  [hi] is a high surrogate read before. *)
Fixpoint read_string (hi : option Z) (l : text) : option (text * text) :=
  let flush (t : option (text * text)) :=
    match hi, t with
    | Some h, Some (t, rest) => Some (h :: t, rest)
    | _, _ => t
    end in
  match l with
  | [] => None
  | x :: l =>
      if x =? 34 then flush (Some ([], l))
      else if x =? 92 then
        match l with
        | [] => None
        | e :: l =>
            if e =? 117 then
              match l with
              | a :: b :: c :: d :: l =>
                  match hex4 a b c d with
                  | None => None
                  | Some v =>
                      match hi with
                      | Some h =>
                          if low_surrogate v then
                            match read_string None l with
                            | Some (t, rest) =>
                                Some (65536 + (h - 55296) * 1024 + (v - 56320) :: t, rest)
                            | None => None
                            end
                          else if high_surrogate v then flush (read_string (Some v) l)
                          else
                            match read_string None l with
                            | Some (t, rest) => flush (Some (v :: t, rest))
                            | None => None
                            end
                      | None =>
                          if high_surrogate v then read_string (Some v) l
                          else
                            match read_string None l with
                            | Some (t, rest) => Some (v :: t, rest)
                            | None => None
                            end
                      end
                  end
              | _ => None
              end
            else
              match simple_escape e, read_string None l with
              | Some c, Some (t, rest) => flush (Some (c :: t, rest))
              | _, _ => None
              end
        end
      else if x <? 32 then None
      else
        match read_string None l with
        | Some (t, rest) => flush (Some (x :: t, rest))
        | None => None
        end
  end.

Example read_back : read_string None (escape (codes "a") ++ [34; 44]) = Some (codes "a", [44]).
Proof. reflexivity. Qed.
Example read_quote : read_string None (escape [34; 10; 233; 128512; 92] ++ [34]) =
  Some ([34; 10; 233; 128512; 92], []).
Proof. reflexivity. Qed.

(** ** Properties *)

(** A Unicode scalar value: a code point that is no surrogate. *)
Definition scalar (c : Z) : Prop := 0 ≤ c < 55296 ∨ 57344 ≤ c < 1114112.

Lemma hex_val_char d : 0 ≤ d < 16 → hex_val (hex_char d) = Some d.
Proof.
  intros Hd. unfold hex_char. destruct (d <? 10) eqn:E; to_prop; unfold hex_val.
  - replace ((48 <=? 48 + d) && (48 + d <=? 57)) with true by lia. f_equal. lia.
  - replace ((48 <=? 87 + d) && (87 + d <=? 57)) with false by lia.
    replace ((97 <=? 87 + d) && (87 + d <=? 102)) with true by lia. f_equal. lia.
Qed.

Lemma nibble v n : 0 ≤ n → Z.land (Z.shiftr v n) 15 = (v / 2 ^ n) `mod` 16.
Proof. intros Hn. change 15 with (Z.ones 4). by rewrite Z.land_ones, Z.shiftr_div_pow2 by lia. Qed.

Lemma hex4_escape v :
  0 ≤ v < 65536 →
  hex4 (hex_char (Z.land (Z.shiftr v 12) 15)) (hex_char (Z.land (Z.shiftr v 8) 15))
    (hex_char (Z.land (Z.shiftr v 4) 15)) (hex_char (Z.land v 15)) = Some v.
Proof.
  intros Hv. unfold hex4. rewrite !nibble by lia. change 15 with (Z.ones 4).
  rewrite (Z.land_ones v 4) by lia.
  rewrite !hex_val_char by (apply Z.mod_pos_bound; lia). f_equal.
  change (2 ^ 12) with 4096. change (2 ^ 8) with 256. change (2 ^ 4) with 16.
  Z.to_euclidean_division_equations. lia.
Qed.

Lemma read_u_escape v l t rest :
  0 ≤ v < 65536 → high_surrogate v = false → read_string None l = Some (t, rest) →
  read_string None (u_escape v ++ l) = Some (v :: t, rest).
Proof.
  intros Hv Hh Hl. unfold u_escape. cbn -[hex4 hex_char Z.land Z.shiftr high_surrogate].
  by rewrite hex4_escape, Hh, Hl.
Qed.

(** [lor] of disjoint bits is a sum. *)
Lemma lor_add b x : 0 ≤ x < 1024 → Z.lor (b * 1024) x = b * 1024 + x.
Proof.
  intros Hx. rewrite <-Z.add_lor_land. assert (Z.land (b * 1024) x = 0) as ->; [|lia].
  assert (x = Z.land (Z.ones 10) x) as ->.
  { rewrite Z.land_comm, Z.land_ones by lia. symmetry. by apply Z.mod_small. }
  rewrite Z.land_assoc, Z.land_ones by lia. change (2 ^ 10) with 1024.
  by rewrite Z.mod_mul.
Qed.

(** The two halves of a code point above the basic plane. *)
Lemma surrogates v :
  0 ≤ v < 1048576 →
  Z.lor 55296 (Z.land (Z.shiftr v 10) 1023) = 55296 + v / 1024 ∧
  Z.lor 56320 (Z.land v 1023) = 56320 + v `mod` 1024.
Proof.
  intros Hv. change 1023 with (Z.ones 10). rewrite !Z.land_ones, Z.shiftr_div_pow2 by lia.
  change (2 ^ 10) with 1024. rewrite (Z.mod_small (v / 1024)) by (Z.to_euclidean_division_equations; lia).
  split; [apply (lor_add 54)|apply (lor_add 55)]; Z.to_euclidean_division_equations; lia.
Qed.

Lemma read_surrogates c l t rest :
  65536 ≤ c < 1114112 → read_string None l = Some (t, rest) →
  read_string None (escape_char c ++ l) = Some (c :: t, rest).
Proof.
  intros Hc Hl. unfold escape_char.
  do 7 (rewrite (proj2 (Z.eqb_neq c _)) by lia).
  replace ((32 <=? c) && (c <=? 126)) with false by lia.
  replace (c <? 65536) with false by lia. cbv zeta.
  destruct (surrogates (c - 65536)) as [-> ->]; [lia|].
  set (h := 55296 + _). set (w := 56320 + _).
  assert (0 ≤ h < 65536 ∧ 0 ≤ w < 65536 ∧ high_surrogate h = true ∧ low_surrogate w = true ∧
    65536 + (h - 55296) * 1024 + (w - 56320) = c) as (Hh & Hw & Hhs & Hls & Hv).
  { unfold high_surrogate, low_surrogate, h, w.
    split_and!; Z.to_euclidean_division_equations; lia. }
  clearbody h w. unfold u_escape. rewrite <-app_assoc.
  cbn -[hex4 hex_char Z.land Z.shiftr high_surrogate low_surrogate Z.mul Z.add Z.sub].
  rewrite !hex4_escape by done. by rewrite Hhs, Hls, Hl, Hv.
Qed.

Lemma read_escape_char c l t rest :
  scalar c → read_string None l = Some (t, rest) →
  read_string None (escape_char c ++ l) = Some (c :: t, rest).
Proof.
  intros Hc Hl. destruct (decide (65536 ≤ c)) as [Hbig|Hsmall].
  { apply read_surrogates; [|done]. destruct Hc; lia. }
  unfold escape_char.
  repeat match goal with
  | |- context [c =? ?n] => destruct (c =? n) eqn:?; to_prop; [subst c; cbn; by rewrite Hl|]
  end.
  destruct ((32 <=? c) && (c <=? 126)) eqn:Hr.
  - cbn -[Z.eqb Z.ltb]. do 2 rewrite (proj2 (Z.eqb_neq c _)) by done.
    to_prop. rewrite (proj2 (Z.ltb_ge c 32)) by done. by rewrite Hl.
  - replace (c <? 65536) with true by lia. apply read_u_escape; [destruct Hc; lia| |done].
    unfold high_surrogate. destruct Hc; lia.
Qed.

(** Reading a printed string gives the text back, whatever the text: quotes, control
    characters, line breaks and characters of any plane; and it ends exactly at the
    closing quote, so no text can forge what follows. *)
Theorem printed_text_reads_back s rest (Hs : Forall scalar s) :
  ∃ body, dumps_text s ++ rest = 34 :: body ∧ read_string None body = Some (s, rest).
Proof.
  exists (escape s ++ 34 :: rest). unfold dumps_text. rewrite <-!app_assoc. split; [done|].
  induction Hs as [|c s Hc Hs IH]; [done|]. unfold escape. cbn [mbind list_bind].
  rewrite <-app_assoc. by apply read_escape_char.
Qed.

(** *** One line *)

Definition printable (c : Z) : Prop := 32 ≤ c ≤ 126.

Lemma hex_char_printable v : 0 ≤ v → printable (hex_char (Z.land v 15)).
Proof.
  intros Hv. change 15 with (Z.ones 4). rewrite Z.land_ones by lia.
  pose proof (Z.mod_pos_bound v (2 ^ 4) ltac:(lia)). unfold hex_char, printable.
  change (2 ^ 4) with 16 in *. case_match; to_prop; lia.
Qed.

Lemma u_escape_printable v : 0 ≤ v → Forall printable (u_escape v).
Proof.
  intros Hv. unfold u_escape.
  repeat (constructor; [first [apply hex_char_printable; rewrite ?Z.shiftr_nonneg; lia
                              |unfold printable; lia]|]). constructor.
Qed.

Lemma escape_char_printable c : 0 ≤ c → Forall printable (escape_char c).
Proof.
  intros Hc. unfold escape_char.
  repeat match goal with
  | |- context [c =? ?n] => destruct (c =? n); [repeat constructor; unfold printable; lia|]
  end.
  destruct ((32 <=? c) && (c <=? 126)) eqn:Hr.
  - constructor; [|constructor]. unfold printable. to_prop. lia.
  - destruct (c <? 65536) eqn:E; [by apply u_escape_printable|]. cbv zeta. to_prop.
    apply Forall_app. split; apply u_escape_printable; rewrite Z.lor_nonneg, Z.land_nonneg; lia.
Qed.

Lemma dumps_text_printable s : Forall (λ c, 0 ≤ c) s → Forall printable (dumps_text s).
Proof.
  intros Hs. unfold dumps_text. apply Forall_app. split; [repeat constructor; unfold printable; lia|].
  apply Forall_app. split; [|repeat constructor; unfold printable; lia].
  unfold escape. induction Hs as [|c s Hc Hs IH]; [constructor|]. cbn [mbind list_bind].
  apply Forall_app. split; [by apply escape_char_printable|done].
Qed.

Lemma codes_nonneg s : Forall (λ c, 0 ≤ c) (codes s).
Proof. induction s; cbn; constructor; [lia|done]. Qed.

Definition printable_char (c : ascii) : bool :=
  (32 <=? Z.of_N (N_of_ascii c)) && (Z.of_N (N_of_ascii c) <=? 126).

Lemma codes_printable s : str_forall printable_char s = true → Forall printable (codes s).
Proof.
  induction s as [|c s IH]; cbn; [constructor|]. intros [Hc Hs]%andb_prop.
  constructor; [|by apply IH]. unfold printable_char in Hc. unfold printable. to_prop. lia.
Qed.

Lemma show_int_printable z : Forall printable (codes (show_int z)).
Proof.
  apply codes_printable. assert (∀ w n, str_forall printable_char (digits 10 w n) = true) as Hd.
  { intros w n. apply digits_forall; [lia|]. intros d Hd. by_digits d. }
  unfold show_int, show_nat. case_match; cbn; rewrite Hd; done.
Qed.

(** A value that prints: texts are code points, and a float's text is Python's. *)
Definition value_ok (v : LogValue) : Prop :=
  match v with
  | LText s | LOther s => Forall (λ c, 0 ≤ c) s
  | LFloat repr => Forall printable repr
  | _ => True
  end.

#[export] Instance value_ok_dec v : Decision (value_ok v).
Proof. destruct v; cbn; unfold printable; apply _. Defined.

Definition dict_ok (d : dict) : Prop := Forall (λ kv, value_ok kv.2) d.

Lemma dumps_value_printable v : value_ok v → Forall printable (dumps_value v).
Proof.
  destruct v as [s|z|t|b| |s]; cbn [value_ok dumps_value]; intros Hv.
  - by apply dumps_text_printable.
  - apply show_int_printable.
  - done.
  - destruct b; by apply codes_printable.
  - by apply codes_printable.
  - by apply dumps_text_printable.
Qed.

Lemma dumps_printable d : dict_ok d → Forall printable (dumps d).
Proof.
  intros Hd. assert (∀ kv, value_ok kv.2 → Forall printable (dumps_item kv)) as Hitem.
  { intros kv Hkv. unfold dumps_item. rewrite !Forall_app. split_and!;
      [apply dumps_text_printable, codes_nonneg|by apply codes_printable|by apply dumps_value_printable]. }
  unfold dumps. rewrite !Forall_app. split; [repeat constructor; unfold printable; lia|].
  split; [|repeat constructor; unfold printable; lia].
  induction Hd as [|kv d Hkv Hd IH]; [constructor|]. destruct d as [|kv' d]; [by apply Hitem|].
  cbn [dumps_items] in *. rewrite !Forall_app. split; [by apply Hitem|].
  split; [by apply codes_printable|done].
Qed.

Lemma dict_set_ok d k v : dict_ok d → value_ok v → dict_ok (dict_set d k v).
Proof.
  intros Hd Hv. induction Hd as [|[k' w] d Hw Hd IH]; cbn; [by repeat constructor|].
  case_match; by constructor.
Qed.

Lemma dict_get_set d k v k' :
  dict_get (dict_set d k v) k' = if String.eqb k k' then Some v else dict_get d k'.
Proof.
  induction d as [|[k1 w] d IH]; cbn; [done|].
  destruct (String.eqb_spec k1 k) as [->|Hne]; cbn.
  - by destruct (String.eqb k k').
  - rewrite IH. destruct (String.eqb_spec k1 k') as [->|]; [|done].
    by destruct (String.eqb_spec k k') as [->|].
Qed.

Record record_ok (record : LogRecord) : Prop := {
  ro_time : Forall (λ c, 0 ≤ c) (rec_time record);
  ro_level : Forall (λ c, 0 ≤ c) (rec_level record);
  ro_name : Forall (λ c, 0 ≤ c) (rec_name record);
  ro_message : Forall (λ c, 0 ≤ c) (rec_message record);
  ro_exception e : rec_exception record = Some e → Forall (λ c, 0 ≤ c) e;
  ro_dict : dict_ok (rec_dict record)
}.

Lemma format_payload_ok record : record_ok record → dict_ok (format_payload record).
Proof.
  intros [H1 H2 H3 H4 H5 H6]. unfold format_payload.
  assert (dict_ok (base_payload record)) as Hb.
  { unfold base_payload, dict_ok. rewrite Forall_app. split; [by repeat constructor|].
    destruct (rec_exception record); [|constructor]. constructor; [by apply H5|constructor]. }
  revert Hb. generalize (base_payload record). induction H6 as [|kv d Hkv _ IH]; intros p Hp; [done|].
  cbn. apply IH. unfold add_extra. case_bool_decide; [done|]. by apply dict_set_ok.
Qed.

(** C37: Every record is one line of printable ASCII: whatever a message, an error text or a
    traceback contains, a log line holds no line break, so no text can pass for a
    second record. *)
Theorem record_is_one_line record (Hr : record_ok record) :
  Forall printable (format record) ∧ (10 ∉ format record) ∧ (13 ∉ format record).
Proof.
  assert (Forall printable (format record)) as H by by apply dumps_printable, format_payload_ok.
  split; [done|]. rewrite Forall_forall in H. unfold printable in H.
  split; intros Hin%H; lia.
Qed.

(** An extra reaches the line under its own name unless the name is one of the record's;
    the header survives extras that stay off its four names. *)
Theorem extras_and_header record key :
  (key ∈ RESERVED_RECORD_KEYS → dict_get (format_payload record) key =
     dict_get (base_payload record) key) ∧
  (key ∉ (rec_dict record).*1 → dict_get (format_payload record) key =
     dict_get (base_payload record) key) ∧
  (∀ v, key ∉ RESERVED_RECORD_KEYS → NoDup (rec_dict record).*1 → (key, v) ∈ rec_dict record →
     dict_get (format_payload record) key = Some v).
Proof.
  unfold format_payload. generalize (base_payload record) as p.
  induction (rec_dict record) as [|[k w] d IH]; intros p; cbn.
  { split_and!; [done..|]. by intros v _ _ ?%not_elem_of_nil. }
  destruct (IH (add_extra p (k, w))) as (H1 & H2 & H3).
  assert (k ≠ key ∨ key ∈ RESERVED_RECORD_KEYS → dict_get (add_extra p (k, w)) key = dict_get p key)
    as Hskip.
  { intros Hk. unfold add_extra. cbn. case_bool_decide as Hres; [done|]. rewrite dict_get_set.
    destruct (String.eqb_spec k key) as [->|]; [|done]. by destruct Hk. }
  split_and!.
  - intros Hk. rewrite H1 by done. apply Hskip. by right.
  - intros [Hk Hd]%not_elem_of_cons. rewrite H2 by done. apply Hskip. left. congruence.
  - intros v Hk [Hnin Hnd]%NoDup_cons [[= -> ->]|Hin]%elem_of_cons; [|by apply H3].
    rewrite H2 by done. unfold add_extra. cbn. rewrite bool_decide_false by done.
    by rewrite dict_get_set, String.eqb_refl.
Qed.

(** *** Witnesses *)

Definition demo_record : LogRecord :=
  {| rec_time := codes "2026-08-27T10:00:00+0000"; rec_level := codes "WARNING";
     rec_name := codes "worker"; rec_message := codes "job_failed";
     rec_exception := Some (codes "Traceback" ++ [10] ++ codes "ValueError: \");
     rec_dict := ("msg", LText (codes "job_failed")) ::
                 log_context (MkAttempt 9 "w1" 99 2 3) ++ [("retrying", LBool true)] |}.

Example demo_line : dumps (log_context (MkAttempt 9 "w1" 99 2 3)) =
  codes "{" ++ dumps_text (codes "job_id") ++ codes ": " ++
  dumps_text (codes "00000000-0000-0000-0000-000000000009") ++ codes ", " ++
  dumps_text (codes "worker_id") ++ codes ": " ++ dumps_text (codes "w1") ++ codes ", " ++
  dumps_text (codes "execution_token") ++ codes ": " ++
  dumps_text (codes "00000000-0000-0000-0000-000000000063") ++ codes ", " ++
  dumps_text (codes "attempt") ++ codes ": 2}".
Proof. vm_compute. reflexivity. Qed.

Lemma printed_text_reads_back_witness :
  ∃ body, dumps_text [34; 10; 233; 128512; 92] ++ codes ", forged" = 34 :: body ∧
    read_string None body = Some ([34; 10; 233; 128512; 92], codes ", forged").
Proof. apply printed_text_reads_back. unfold scalar. repeat constructor; lia. Defined.

Lemma record_is_one_line_witness :
  (10 ∉ format demo_record) ∧ ∃ e, rec_exception demo_record = Some e ∧ 10 ∈ e.
Proof.
  split.
  - apply (record_is_one_line demo_record). split; try apply codes_nonneg.
    + intros e [= <-]. apply (bool_decide_unpack _). vm_compute. done.
    + apply (bool_decide_unpack _). vm_compute. done.
  - eexists. split; [reflexivity|]. apply (bool_decide_unpack _). vm_compute. done.
Defined.
