(* ===== verification/Ownership.v ===== *)
(** * Ownership: claiming a job and the fenced writes of its owner

    The state transitions of [app/services/job_service.py] that decide who owns a
    job: [claim_job], the fence [_owned_by], [extend_lease], [update_progress],
    [complete_job], [_apply_failed_attempt] and [fail_attempt], due-job activation
    and lease recovery.  [now] is PostgreSQL's [now()] for the transaction, in
    microseconds; [token] is the fresh [uuid.uuid4()]; [default_lease] is
    [settings.job_lease_seconds].  Log lines are not modelled. *)

From S2P Require Import Prelude.
From S2P Require Import Text.
From S2P Require Import Errors.
From S2P Require Import Model.
From S2P Require Import Postgres.
From S2P Require Import Session.
From S2P Require Import RetryPolicy.
From S2P Require Import Config.
From Stdlib Require Import QArith.

Local Open Scope Z_scope.

(** [_lease_deadline]: expiry against the database clock. *)
Definition lease_deadline (default_lease : Q) (now : Z) (lease_seconds : option Q) : Z :=
  let seconds := match lease_seconds with None => default_lease | Some s => s end in
  now + timedelta_seconds seconds.

(** Columns cleared whenever a job stops being PROCESSING. *)
Definition RELEASED_OWNERSHIP : list Assign :=
  [SetWorkerId None; SetExecutionToken None; SetLeaseExpiresAt None].

Inductive AttemptOutcome := RETRY_SCHEDULED | PERMANENTLY_FAILED.
#[export] Instance AttemptOutcome_eq_dec : EqDecision AttemptOutcome.
Proof. solve_decision. Defined.

Definition outcome_value (o : AttemptOutcome) : string :=
  match o with
  | RETRY_SCHEDULED => "retry_scheduled"
  | PERMANENTLY_FAILED => "permanently_failed"
  end.

Record AttemptResult := { ar_outcome : AttemptOutcome; ar_job : Job }.

Definition LEASE_EXPIRED_ERROR : string := "worker lease expired".

(** ** WHERE clauses and SET lists *)

Definition claim_where (id : uuid) : list Cond :=
  [λ r, sql_eq (Some (job_id r)) (Some id);
   λ r, sql_eq (Some (status r)) (Some PENDING);
   (* Never let the claim push attempt_count past the check constraint. *)
   λ r, sql_lt (Some (attempt_count r)) (Some (max_attempts r))].

Definition claim_values (now deadline : Z) (worker : string) (token : uuid) : list Assign :=
  [SetStatus PROCESSING;
   SetWorkerId (Some worker);
   SetExecutionToken (Some token);
   SetLeaseExpiresAt (Some deadline);
   SetStartedAt (Some now);
   SetAttemptCount (λ r, attempt_count r + 1)].

(** [_owned_by]: only the live owner of this exact attempt matches. *)
Definition owned_by (a : Attempt) : list Cond :=
  [λ r, sql_eq (Some (job_id r)) (Some (at_job_id a));
   λ r, sql_eq (Some (status r)) (Some PROCESSING);
   λ r, sql_eq (worker_id r) (Some (at_worker_id a));
   λ r, sql_eq (execution_token r) (Some (at_execution_token a))].

Definition complete_values (now : Z) (res : JSON) : list Assign :=
  [SetStatus COMPLETED;
   SetResult (Some res);
   SetProgress 100;
   SetCompletedAt (Some now);
   SetError None] ++ RELEASED_OWNERSHIP.

Definition retry_values (now delay : Z) (error : string) : list Assign :=
  [SetStatus SCHEDULED;
   SetScheduledAt (Some (now + seconds delay));
   SetError (Some error)] ++ RELEASED_OWNERSHIP.

Definition exhausted_values (now : Z) (error : string) : list Assign :=
  [SetStatus FAILED;
   SetError (Some error);
   SetCompletedAt (Some now)] ++ RELEASED_OWNERSHIP.

Definition lease_expired (now : Z) : Cond := λ r, sql_lt (lease_expires_at r) (Some now).

(** [Job.attempt_count < Job.max_attempts] and its complement. *)
Definition attempts_remain : Cond := λ r, sql_lt (Some (attempt_count r)) (Some (max_attempts r)).
Definition attempts_exhausted : Cond := λ r, sql_le (Some (max_attempts r)) (Some (attempt_count r)).

Definition due_where (now : Z) : list Cond :=
  [λ r, sql_eq (Some (status r)) (Some SCHEDULED);
   λ r, sql_le (scheduled_at r) (Some now)].

(** ORDER BY of a nullable timestamp, ascending, NULLS LAST. *)
Definition asc_nulls_last (a b : option Z) : bool :=
  match a, b with
  | Some x, Some y => x <=? y
  | None, Some _ => false
  | _, None => true
  end.

Definition due_query (now : Z) (n : nat) : Query :=
  {| q_where := due_where now;
     q_order := λ a b, asc_nulls_last (scheduled_at a) (scheduled_at b);
     q_limit := Some n; q_offset := 0; q_skip_locked := true |}.

Definition expired_query (now : Z) (n : nat) : Query :=
  {| q_where := [λ r, sql_eq (Some (status r)) (Some PROCESSING); lease_expired now];
     q_order := λ a b, asc_nulls_last (lease_expires_at a) (lease_expires_at b);
     q_limit := Some n; q_offset := 0; q_skip_locked := true |}.

(** ** The service functions *)

Section service.
Context {DB : Type} `{!Postgres DB}.

Definition ownership_lost {A} (a : Attempt) : M DB A :=
  raise (OwnershipLostError (at_job_id a) (at_worker_id a) (at_execution_token a)).

Definition claim_job (default_lease : Q) (now : Z) (token : uuid)
    (id : uuid) (worker : string) (lease_seconds : option Q) : M DB (option Job) :=
  let! rs := execute_update (claim_where id)
               (claim_values now (lease_deadline default_lease now lease_seconds) worker token) in
  do! commit in
  ret (head rs).

Definition extend_lease (default_lease : Q) (now : Z)
    (a : Attempt) (lease_seconds : option Q) : M DB Z :=
  let deadline := lease_deadline default_lease now lease_seconds in
  let! rs := execute_update (owned_by a) [SetLeaseExpiresAt (Some deadline)] in
  do! commit in
  match head rs ≫= lease_expires_at with
  | None => ownership_lost a
  | Some extended => ret extended
  end.

Definition update_progress (a : Attempt) (progress : Z) : M DB unit :=
  let! rs := execute_update (owned_by a) [SetProgress (Z.max 0 (Z.min 100 progress))] in
  do! commit in
  match length rs with
  | O => ownership_lost a
  | S _ => ret tt
  end.

Definition complete_job (now : Z) (a : Attempt) (res : JSON) : M DB Job :=
  let! rs := execute_update (owned_by a) (complete_values now res) in
  do! commit in
  match head rs with
  | None => ownership_lost a
  | Some job => ret job
  end.

(** [_apply_failed_attempt]; it does not commit. *)
Definition apply_failed_attempt (now : Z) (a : Attempt) (error : string)
    (require_expired_lease : bool) : M DB (option AttemptResult) :=
  let recheck := if require_expired_lease then [lease_expired now] else [] in
  let! found :=
    (if has_attempts_left a then
       let! delay := lift (retry_delay_seconds (at_attempt_count a)) in
       let! rs := execute_update
                    (owned_by a ++ [attempts_remain] ++ recheck)
                    (retry_values now delay error) in
       ret (RETRY_SCHEDULED, head rs)
     else
       let! rs := execute_update
                    (owned_by a ++ [attempts_exhausted] ++ recheck)
                    (exhausted_values now error) in
       ret (PERMANENTLY_FAILED, head rs)) in
  ret ((λ job, {| ar_outcome := found.1; ar_job := job |}) <$> found.2).

Definition fail_attempt (now : Z) (a : Attempt) (error : string) : M DB AttemptResult :=
  let! res := apply_failed_attempt now a error false in
  do! commit in
  match res with
  | None => ownership_lost a
  | Some r => ret r
  end.

(** The CTE picks at most [limit] due rows nobody else has locked; the UPDATE
    repeats the conditions. *)
Definition activate_due_scheduled_jobs (now : Z) (locked : gset uuid) (limit : nat)
    : M DB (list Job) :=
  let! due := execute_select locked (due_query now limit) in
  let! activated := execute_update
                      ((λ r, sql_in (job_id r) (job_id <$> due)) :: due_where now)
                      [SetStatus PENDING] in
  do! commit in
  ret activated.

(** The body of the sweep's loop, one expired row after the other. *)
Fixpoint recover_each (now : Z) (expired : list Job) : M DB (list AttemptResult) :=
  match expired with
  | [] => ret []
  | job :: rest =>
      let! a := lift (attempt_of job) in
      let! res := apply_failed_attempt now a LEASE_EXPIRED_ERROR true in
      let! recovered := recover_each now rest in
      ret (option_list res ++ recovered)
  end.

Definition recover_expired_leases (now : Z) (locked : gset uuid) (limit : nat)
    : M DB (list AttemptResult) :=
  let! expired := execute_select locked (expired_query now limit) in
  let! recovered := recover_each now expired in
  do! commit in
  ret recovered.

(** [get_job]: by primary key. *)
Definition get_job (id : uuid) : M DB (option Job) :=
  let! rs := execute_select ∅ (plain_query [λ r, sql_eq (Some (job_id r)) (Some id)]) in
  ret (head rs).
End service.

(** ** Rows, as the conditions see them *)

Definition claimable (r : Job) : bool :=
  bool_decide (status r = PENDING) && (attempt_count r <? max_attempts r).

(** No attempt owns the row. *)
Definition unowned (r : Job) : Prop :=
  worker_id r = None ∧ execution_token r = None ∧ lease_expires_at r = None.

(** The row carries the attempt's fence. *)
Definition owns (a : Attempt) (r : Job) : bool :=
  bool_decide (status r = PROCESSING) && bool_decide (worker_id r = Some (at_worker_id a)) &&
  bool_decide (execution_token r = Some (at_execution_token a)).

Definition expired (now : Z) (r : Job) : bool :=
  match lease_expires_at r with Some d => d <? now | None => false end.

Lemma is_true_eq_some {A} `{EqDecision A} (a b : A) :
  is_true (sql_eq (Some a) (Some b)) = bool_decide (a = b).
Proof. done. Qed.

Lemma is_true_eq_opt {A} `{EqDecision A} (a : option A) (b : A) :
  is_true (sql_eq a (Some b)) = bool_decide (a = Some b).
Proof.
  destruct a as [a|]; simpl; [|done]. apply bool_decide_ext. split; congruence.
Qed.

#[export] Hint Rewrite @is_true_eq_some : sql.

Lemma holds_claim id r : holds (claim_where id) r = bool_decide (job_id r = id) && claimable r.
Proof. unfold claim_where, claimable. autorewrite with sql. simpl. by rewrite andb_true_r. Qed.

Lemma holds_owned a r : holds (owned_by a) r = bool_decide (job_id r = at_job_id a) && owns a r.
Proof.
  unfold owned_by, owns. autorewrite with sql. rewrite !is_true_eq_opt.
  by rewrite andb_true_r, !andb_assoc.
Qed.

Lemma owns_spec a r :
  owns a r = true ↔
  status r = PROCESSING ∧ worker_id r = Some (at_worker_id a) ∧
  execution_token r = Some (at_execution_token a).
Proof. unfold owns. rewrite !andb_true_iff, !bool_decide_eq_true. tauto. Qed.

Lemma unowned_not_owned a r : unowned r → owns a r = false.
Proof.
  intros (Hw & _). destruct (owns a r) eqn:Ho; [|done]. apply owns_spec in Ho. naive_solver.
Qed.

Lemma attempt_of_spec job a :
  attempt_of job = Ok a ↔
  at_job_id a = job_id job ∧ worker_id job = Some (at_worker_id a) ∧
  execution_token job = Some (at_execution_token a) ∧
  at_attempt_count a = attempt_count job ∧ at_max_attempts a = max_attempts job.
Proof.
  unfold attempt_of. destruct a, (worker_id job), (execution_token job); simpl; naive_solver.
Qed.

(** A row matches the attempt read off it. *)
Lemma owns_attempt_of job a :
  attempt_of job = Ok a → status job = PROCESSING → owns a job = true.
Proof. rewrite attempt_of_spec, owns_spec. naive_solver. Qed.

(** Assignments of the services never introduce an idempotency key. *)
Ltac solve_keeps_key := intros ?; left; reflexivity.

Ltac solve_storable :=
  rewrite ?storable_iff in *; cbn in *; destruct_and?; repeat split; (assumption || done || lia).

(** ** The service functions as compare-and-sets *)

Section specs.
Context {DB : Type} `{!Postgres DB, !PostgresLaws DB}.
Implicit Types db : DB.

(** Run a conditional UPDATE of one row inside a session. *)
Lemma execute_update_cas cs vs i p (s : Session DB) :
  (∀ r, holds cs r = bool_decide (job_id r = i) && p r) →
  (∀ r, jobs_table (working s) !! i = Some r → p r = true →
        storable (apply_values vs r) = true) →
  keeps_key vs →
  ∃ db', execute_update cs vs s =
           (mk_session (committed s) db',
            Ok (option_list (cas i p (apply_values vs) (jobs_table (working s))).2)) ∧
         jobs_table db' = (cas i p (apply_values vs) (jobs_table (working s))).1.
Proof using PostgresLaws0.
  intros Hcs Hst Hk. destruct (pg_update_cas cs vs i p (working s) Hcs Hst Hk) as (db' & Hu & Ht).
  exists db'. unfold execute_update. by rewrite Hu.
Qed.

(** [claim_job] is a compare-and-set from claimable to claimed. *)
Lemma claim_job_cas dl now tok id w ls db :
  varchar_ok 128 w = true →
  ∃ db', run_session (claim_job dl now tok id w ls) db =
           (db', Ok (cas id claimable (apply_values
              (claim_values now (lease_deadline dl now ls) w tok)) (jobs_table db)).2) ∧
         jobs_table db' = (cas id claimable (apply_values
              (claim_values now (lease_deadline dl now ls) w tok)) (jobs_table db)).1.
Proof using PostgresLaws0.
  intros Hw.
  destruct (execute_update_cas (claim_where id)
              (claim_values now (lease_deadline dl now ls) w tok) id claimable
              (mk_session db db)) as (db' & Hu & Ht).
  - apply holds_claim.
  - simpl. intros r Hr%table_storable [_ Hlt]%andb_prop. to_prop. solve_storable.
  - solve_keeps_key.
  - exists db'. split; [|done]. unfold run_session, claim_job, bind. rewrite Hu. simpl.
    by rewrite head_option_list.
Qed.

Definition lost_exn (a : Attempt) : exn :=
  OwnershipLostError (at_job_id a) (at_worker_id a) (at_execution_token a).

Definition or_lost {A B} (a : Attempt) (o : option A) (f : A → B) : result exn B :=
  match o with Some x => Ok (f x) | None => Err (lost_exn a) end.

Lemma extend_lease_cas dl now a ls db :
  let vs := [SetLeaseExpiresAt (Some (lease_deadline dl now ls))] in
  ∃ db', run_session (extend_lease dl now a ls) db =
           (db', or_lost a (cas (at_job_id a) (owns a) (apply_values vs) (jobs_table db)).2
                   (λ _, lease_deadline dl now ls)) ∧
         jobs_table db' = (cas (at_job_id a) (owns a) (apply_values vs) (jobs_table db)).1.
Proof using PostgresLaws0.
  intros vs.
  destruct (execute_update_cas (owned_by a) vs (at_job_id a) (owns a) (mk_session db db))
    as (db' & Hu & Ht).
  - apply holds_owned.
  - simpl. intros r Hr%table_storable _. solve_storable.
  - solve_keeps_key.
  - subst vs. exists db'. split; [|done]. unfold run_session, extend_lease, bind. rewrite Hu. simpl.
    rewrite head_option_list.
    destruct ((cas _ _ _ _).2) as [r'|] eqn:Hc; simpl; [|done].
    apply cas_some in Hc as (r & _ & _ & -> & _). done.
Qed.

Lemma update_progress_cas a p db :
  let vs := [SetProgress (Z.max 0 (Z.min 100 p))] in
  ∃ db', run_session (update_progress a p) db =
           (db', or_lost a (cas (at_job_id a) (owns a) (apply_values vs) (jobs_table db)).2
                   (λ _, tt)) ∧
         jobs_table db' = (cas (at_job_id a) (owns a) (apply_values vs) (jobs_table db)).1.
Proof using PostgresLaws0.
  intros vs.
  destruct (execute_update_cas (owned_by a) vs (at_job_id a) (owns a) (mk_session db db))
    as (db' & Hu & Ht).
  - apply holds_owned.
  - simpl. intros r Hr%table_storable _. solve_storable.
  - solve_keeps_key.
  - subst vs. exists db'. split; [|done]. unfold run_session, update_progress, bind. rewrite Hu. simpl.
    by destruct ((cas _ _ _ _).2).
Qed.

Lemma complete_job_cas now a res db :
  let vs := complete_values now res in
  ∃ db', run_session (complete_job now a res) db =
           (db', or_lost a (cas (at_job_id a) (owns a) (apply_values vs) (jobs_table db)).2 id) ∧
         jobs_table db' = (cas (at_job_id a) (owns a) (apply_values vs) (jobs_table db)).1.
Proof using PostgresLaws0.
  intros vs.
  destruct (execute_update_cas (owned_by a) vs (at_job_id a) (owns a) (mk_session db db))
    as (db' & Hu & Ht).
  - apply holds_owned.
  - simpl. intros r Hr%table_storable _. solve_storable.
  - solve_keeps_key.
  - subst vs. exists db'. split; [|done]. unfold run_session, complete_job, bind. rewrite Hu. simpl.
    rewrite head_option_list. by destruct ((cas _ _ _ _).2).
Qed.
End specs.

(** ** Failed attempts *)

Definition retry_delay (n : Z) : Z :=
  match retry_delay_seconds n with Ok d => d | Err _ => 0 end.

(** What a failed attempt writes: a delayed retry while attempts remain, else a
    permanent failure. *)
Definition failed_values (now : Z) (error : string) (count max : Z) : list Assign :=
  if count <? max then retry_values now (retry_delay count) error else exhausted_values now error.

Definition settled (now : Z) (error : string) (r : Job) : Job :=
  apply_values (failed_values now error (attempt_count r) (max_attempts r)) r.

Definition outcome_of (count max : Z) : AttemptOutcome :=
  if count <? max then RETRY_SCHEDULED else PERMANENTLY_FAILED.

(** The WHERE clause of [_apply_failed_attempt]. *)
Definition may_fail (now : Z) (recheck : bool) (a : Attempt) (r : Job) : bool :=
  owns a r &&
  (if has_attempts_left a then attempt_count r <? max_attempts r
   else max_attempts r <=? attempt_count r) &&
  (if recheck then expired now r else true).

Lemma settled_unowned now error r : unowned (settled now error r).
Proof. unfold settled, failed_values. by destruct (attempt_count r <? max_attempts r). Qed.

(** The retry policy knows a delay for the attempt, if it is to be retried. *)
Definition has_delay (count max : Z) : Prop := count < max → count = 1 ∨ count = 2.

Lemma is_true_expired now r : is_true (lease_expired now r) = expired now r.
Proof. unfold lease_expired, expired. by destruct (lease_expires_at r). Qed.

Lemma holds_may_fail now (recheck : bool) a r :
  holds (owned_by a ++
         [if has_attempts_left a then attempts_remain else attempts_exhausted] ++
         (if recheck then [lease_expired now] else [])) r =
  bool_decide (job_id r = at_job_id a) && may_fail now recheck a r.
Proof.
  rewrite holds_app, holds_owned, <-andb_assoc. unfold may_fail. f_equal.
  rewrite <-andb_assoc. f_equal. rewrite holds_app. f_equal.
  - rewrite holds_cons, holds_nil, andb_true_r. by destruct (has_attempts_left a).
  - destruct recheck; [|done]. by rewrite holds_cons, holds_nil, andb_true_r, is_true_expired.
Qed.

Section failed.
Context {DB : Type} `{!Postgres DB, !PostgresLaws DB}.
Implicit Types db : DB.

Definition fail_result (a : Attempt) (job : Job) : AttemptResult :=
  {| ar_outcome := outcome_of (at_attempt_count a) (at_max_attempts a); ar_job := job |}.

Lemma apply_failed_cas now a error recheck (s : Session DB) :
  has_delay (at_attempt_count a) (at_max_attempts a) →
  let c := cas (at_job_id a) (may_fail now recheck a)
             (apply_values (failed_values now error (at_attempt_count a) (at_max_attempts a)))
             (jobs_table (working s)) in
  ∃ db', apply_failed_attempt now a error recheck s =
           (mk_session (committed s) db', Ok (fail_result a <$> c.2)) ∧
         jobs_table db' = c.1.
Proof using PostgresLaws0.
  intros Hdelay c.
  destruct (execute_update_cas
              (owned_by a ++
               [if has_attempts_left a then attempts_remain else attempts_exhausted] ++
               (if recheck then [lease_expired now] else []))
              (failed_values now error (at_attempt_count a) (at_max_attempts a))
              (at_job_id a) (may_fail now recheck a) s) as (db' & Hu & Ht).
  - apply holds_may_fail.
  - intros r Hr%table_storable _. unfold failed_values. case_match; solve_storable.
  - intros r. left. unfold failed_values. by case_match.
  - exists db'. split; [|done]. unfold apply_failed_attempt, fail_result, outcome_of.
    subst c. unfold failed_values, has_attempts_left, has_delay in *.
    destruct (at_attempt_count a <? at_max_attempts a) eqn:Hlt.
    + to_prop. destruct (proj2 (retry_delay_defined _) (Hdelay Hlt)) as [d Hd].
      assert (retry_delay (at_attempt_count a) = d) as Hrd by (unfold retry_delay; by rewrite Hd).
      rewrite Hrd in *. unfold bind, lift. rewrite Hd. cbv beta iota. rewrite Hu. simpl. by rewrite head_option_list.
    + unfold bind. rewrite Hu. simpl. by rewrite head_option_list.
Qed.

(** No delay is known: the ValueError of the retry policy reaches the caller and
    nothing is written. *)
Lemma apply_failed_no_delay now a error recheck (s : Session DB) :
  has_attempts_left a = true → at_attempt_count a ≠ 1 → at_attempt_count a ≠ 2 →
  ∃ m, apply_failed_attempt now a error recheck s = (s, Err (ValueError m)).
Proof using Type.
  intros Hleft H1 H2. unfold apply_failed_attempt. rewrite Hleft. unfold bind, lift.
  destruct (retry_delay_seconds (at_attempt_count a)) as [d|e] eqn:Hd.
  - exfalso. assert (at_attempt_count a = 1 ∨ at_attempt_count a = 2); [|lia].
    apply retry_delay_defined. eauto.
  - unfold retry_delay_seconds in Hd. case_match; simplify_eq. eauto.
Qed.

Lemma fail_attempt_cas now a error db :
  has_delay (at_attempt_count a) (at_max_attempts a) →
  let c := cas (at_job_id a) (may_fail now false a)
             (apply_values (failed_values now error (at_attempt_count a) (at_max_attempts a)))
             (jobs_table db) in
  ∃ db', run_session (fail_attempt now a error) db =
           (db', or_lost a c.2 (fail_result a)) ∧
         jobs_table db' = c.1.
Proof using PostgresLaws0.
  intros Hdelay c.
  destruct (apply_failed_cas now a error false (mk_session db db) Hdelay) as (db' & Hu & Ht).
  exists db'. split; [|done]. unfold run_session, fail_attempt, bind. rewrite Hu. simpl.
  fold c. by destruct (c.2).
Qed.
End failed.

(** ** Batches: the recovery sweep and due-job activation *)

(** A row the sweep can turn into an attempt and settle. *)
Definition recoverable (r : Job) : Prop :=
  is_Some (worker_id r) ∧ is_Some (execution_token r) ∧
  has_delay (attempt_count r) (max_attempts r).

Definition recovered_result (now : Z) (job : Job) : AttemptResult :=
  {| ar_outcome := outcome_of (attempt_count job) (max_attempts job);
     ar_job := settled now LEASE_EXPIRED_ERROR job |}.

(** Apply [f] to the rows whose id is listed. *)
Definition map_rows (f : Job → Job) (ids : list uuid) (t : table) : table :=
  map_imap (λ i r, Some (if bool_decide (i ∈ ids) then f r else r)) t.

Lemma lookup_map_rows f ids t i :
  map_rows f ids t !! i = (λ r, if bool_decide (i ∈ ids) then f r else r) <$> t !! i.
Proof. unfold map_rows. rewrite map_lookup_imap. by destruct (t !! i). Qed.

Lemma size_map_rows f ids (t : table) : size (map_rows f ids t) = size t.
Proof.
  rewrite <-!size_dom. f_equal. apply leibniz_equiv. intros i.
  rewrite !elem_of_dom, lookup_map_rows, fmap_is_Some. done.
Qed.

Lemma asc_nulls_last_total a b : asc_nulls_last a b = true ∨ asc_nulls_last b a = true.
Proof. destruct a, b; simpl; auto. rewrite !Z.leb_le. lia. Qed.

Lemma asc_nulls_last_trans a b c :
  asc_nulls_last a b = true → asc_nulls_last b c = true → asc_nulls_last a c = true.
Proof. destruct a, b, c; simpl; try done. rewrite !Z.leb_le. lia. Qed.

#[export] Instance due_query_total now n : Total (before (due_query now n)).
Proof. intros a b. apply asc_nulls_last_total. Qed.
#[export] Instance due_query_trans now n : Transitive (before (due_query now n)).
Proof. intros a b c. apply asc_nulls_last_trans. Qed.
#[export] Instance expired_query_total now n : Total (before (expired_query now n)).
Proof. intros a b. apply asc_nulls_last_total. Qed.
#[export] Instance expired_query_trans now n : Transitive (before (expired_query now n)).
Proof. intros a b c. apply asc_nulls_last_trans. Qed.

Lemma holds_due now r :
  holds (due_where now) r = true ↔
  status r = SCHEDULED ∧ ∃ at_, scheduled_at r = Some at_ ∧ at_ ≤ now.
Proof.
  unfold due_where. rewrite !holds_cons, holds_nil, andb_true_r, is_true_eq_some.
  rewrite andb_true_iff, bool_decide_eq_true. destruct (scheduled_at r); simpl.
  - rewrite Z.leb_le. naive_solver.
  - naive_solver.
Qed.

Lemma visible_expired locked now n r :
  visible locked (expired_query now n) r = true ↔
  status r = PROCESSING ∧ expired now r = true ∧ job_id r ∉ locked.
Proof.
  unfold visible. cbn [q_where q_skip_locked expired_query].
  rewrite !holds_cons, holds_nil, andb_true_r, is_true_eq_some,
    is_true_expired, andb_true_l, !andb_true_iff, negb_true_iff, bool_decide_eq_true, bool_decide_eq_false.
  tauto.
Qed.

Lemma visible_due locked now n r :
  visible locked (due_query now n) r = true ↔
  holds (due_where now) r = true ∧ job_id r ∉ locked.
Proof.
  unfold visible. simpl. rewrite andb_true_iff, negb_true_iff, bool_decide_eq_false. done.
Qed.

Section batches.
Context {DB : Type} `{!Postgres DB, !PostgresLaws DB}.
Implicit Types db : DB.

(** The loop settles every row it is given: each still carries the fence and the
    expired lease it was selected with, because only the sweep itself writes
    inside its transaction. *)
Lemma recover_each_spec now l (s : Session DB) :
  NoDup (job_id <$> l) →
  (∀ job, job ∈ l → jobs_table (working s) !! job_id job = Some job ∧
     status job = PROCESSING ∧ expired now job = true ∧ recoverable job) →
  ∃ db', recover_each now l s =
           (mk_session (committed s) db', Ok (recovered_result now <$> l)) ∧
         jobs_table db' =
           map_rows (settled now LEASE_EXPIRED_ERROR) (job_id <$> l) (jobs_table (working s)).
Proof using PostgresLaws0.
  revert s. induction l as [|job l IH]; intros s Hnd Hl.
  { exists (working s). split; [by destruct s|]. apply map_eq. intros i.
    rewrite lookup_map_rows. simpl. by destruct (jobs_table (working s) !! i). }
  rewrite fmap_cons in Hnd. apply NoDup_cons in Hnd as [Hnin Hnd].
  destruct (Hl job) as (Hjob & Hst & Hexp & [w Hw] & [tok Htok] & Hdelay); [by left|].
  destruct (attempt_of job) as [a|e] eqn:Ha; [|unfold attempt_of in Ha; by rewrite Hw, Htok in Ha].
  pose proof (owns_attempt_of _ _ Ha Hst) as Howns.
  apply attempt_of_spec in Ha as Ha'. destruct Ha' as (Hid & _ & _ & Hc & Hm).
  destruct (apply_failed_cas now a LEASE_EXPIRED_ERROR true s) as (db1 & H1 & Ht1).
  { by rewrite Hc, Hm. }
  rewrite (cas_hit _ _ _ _ job) in H1, Ht1 by
    (by rewrite Hid || (unfold may_fail, has_attempts_left; rewrite Howns, Hexp, Hc, Hm;
       destruct (attempt_count job <? max_attempts job) eqn:E; [done|];
       rewrite Z.leb_antisym, E; done)).
  rewrite Hc, Hm, Hid in H1, Ht1. cbn [fst snd] in H1, Ht1.
  destruct (IH (mk_session (committed s) db1)) as (db2 & H2 & Ht2); [done| |].
  { intros job' Hin. destruct (Hl job') as (Hj' & ?); [by right|]. split; [|done].
    simpl. rewrite Ht1, lookup_insert_ne; [done|]. intros Heq. apply Hnin. rewrite Heq.
    by apply list_elem_of_fmap_2. }
  exists db2. split.
  - simpl. unfold bind, lift. destruct (attempt_of job) as [a'|] eqn:Ha'; [|done].
    injection Ha as ->. rewrite H1, H2. simpl. unfold fail_result, recovered_result.
    by rewrite Hc, Hm.
  - rewrite Ht2. simpl. apply map_eq. intros i. rewrite !lookup_map_rows, Ht1, lookup_insert.
    case_decide as Hi.
    + subst i. rewrite Hjob. simpl. rewrite bool_decide_false by done.
      rewrite bool_decide_true by (by left). done.
    + destruct (jobs_table (working s) !! i) eqn:?; simpl; [|done]. f_equal.
      assert (bool_decide (i ∈ job_id <$> l) = bool_decide (i ∈ job_id job :: (job_id <$> l))) as ->;
        [|done].
      apply bool_decide_ext. rewrite elem_of_cons. naive_solver.
Qed.

(** A row that carries no worker or token stops the loop with a ValueError. *)
Lemma recover_each_poison now job l (s : Session DB) :
  worker_id job = None ∨ execution_token job = None →
  ∃ m, recover_each now (job :: l) s = (s, Err (ValueError m)).
Proof using Type.
  intros Hp. simpl. unfold bind, lift, attempt_of.
  destruct (worker_id job), (execution_token job); destruct Hp; simplify_eq; eauto.
Qed.

Lemma recover_expired_leases_spec now locked n db :
  (∀ i r, jobs_table db !! i = Some r → status r = PROCESSING → expired now r = true →
          recoverable r) →
  let l := pg_select locked (expired_query now n) db in
  ∃ db', run_session (recover_expired_leases now locked n) db =
           (db', Ok (recovered_result now <$> l)) ∧
         jobs_table db' =
           map_rows (settled now LEASE_EXPIRED_ERROR) (job_id <$> l) (jobs_table db).
Proof using PostgresLaws0.
  intros Hrec l.
  destruct (pg_select_facts locked (expired_query now n) db _ _) as (Hnd & Hin & _).
  destruct (recover_each_spec now l (mk_session db db)) as (db' & H1 & H2).
  - exact Hnd.
  - intros job Hjob. destruct (Hin job Hjob) as [Hlk (Hst & Hexp & _)%visible_expired].
    simpl. eauto 6.
  - exists db'. split; [|done]. unfold run_session, recover_expired_leases, bind, execute_select.
    simpl. fold l. by rewrite H1.
Qed.

Lemma activate_spec now locked n db :
  let l := pg_select locked (due_query now n) db in
  ∃ db' rs, run_session (activate_due_scheduled_jobs now locked n) db = (db', Ok rs) ∧
         rs ≡ₚ apply_values [SetStatus PENDING] <$> l ∧
         jobs_table db' = map_rows (apply_values [SetStatus PENDING]) (job_id <$> l) (jobs_table db).
Proof using PostgresLaws0.
  intros l. set (vs := [SetStatus PENDING]).
  set (cs := (λ r, sql_in (job_id r) (job_id <$> l)) :: due_where now).
  destruct (pg_select_facts locked (due_query now n) db _ _) as (Hnd & Hin & _).
  fold l in Hnd, Hin.
  assert (∀ i r, jobs_table db !! i = Some r → holds cs r = bool_decide (i ∈ job_id <$> l)) as Hcs.
  { intros i r Hr. unfold cs. rewrite holds_cons. simpl.
    rewrite <-(table_id db i r Hr).
    case_bool_decide as Hi; [simpl|done]. apply list_elem_of_fmap in Hi as (r' & Heq & Hr').
    apply Hin in Hr' as [Hlk [Hdue _]%visible_due].
    rewrite <-Heq, (table_id db i r Hr), Hr in Hlk. by simplify_eq. }
  assert (update_rows cs vs (jobs_table db) =
          map_rows (apply_values vs) (job_id <$> l) (jobs_table db)) as Heq.
  { apply map_eq. intros i. rewrite lookup_update_rows, lookup_map_rows.
    destruct (jobs_table db !! i) as [r|] eqn:Hr; simpl; [|done]. by rewrite (Hcs i r Hr). }
  destruct (pg_update_ok cs vs db) as (db' & rs & H1 & H2 & H3).
  { apply update_rows_ok; [apply pg_table_ok| |solve_keeps_key].
    intros i r Hr%table_storable _. solve_storable. }
  exists db', rs. split; [|split].
  - unfold run_session, activate_due_scheduled_jobs, bind, execute_select, execute_update. simpl.
    fold l. fold cs vs. by rewrite H1.
  - rewrite H3. unfold returned. apply fmap_Permutation.
    apply NoDup_Permutation.
    + eapply (NoDup_fmap_1 job_id), sublist_NoDup; [|apply (fmap_sublist job_id), sublist_filter].
      rewrite rows_ids. apply NoDup_fst_map_to_list.
    + by eapply (NoDup_fmap_1 job_id).
    + intros r. rewrite list_elem_of_filter, elem_of_rows. split.
      * intros [Hh [i Hi]]. rewrite (Hcs i r Hi) in Hh. apply bool_decide_eq_true_1 in Hh.
        apply list_elem_of_fmap in Hh as (r' & -> & Hr'). apply Hin in Hr' as Hlk.
        destruct Hlk as [Hlk _]. rewrite Hi in Hlk. by simplify_eq.
      * intros Hr. destruct (Hin r Hr) as [Hlk _]. split; [|eauto].
        rewrite (Hcs _ r Hlk). apply bool_decide_eq_true_2. by apply list_elem_of_fmap_2.
  - by rewrite H2.
Qed.
End batches.

(** [get_job] reads the row of its id. *)
Lemma get_job_spec {DB} `{!Postgres DB, !PostgresLaws DB} id (s : Session DB) :
  get_job id s = (s, Ok (jobs_table (working s) !! id)).
Proof.
  assert (∀ r : Job, holds [λ r, sql_eq (Some (job_id r)) (Some id)] r = bool_decide (job_id r = id)) as Hh.
  { intros r. by rewrite holds_cons, holds_nil, andb_true_r, is_true_eq_some. }
  unfold get_job, bind, execute_select, ret. simpl. do 2 f_equal.
  destruct (jobs_table (working s) !! id) as [r|] eqn:Hr.
  - rewrite (plain_select_one _ _ id r); [done| |done|].
    + intros j r' Hj. rewrite Hh. intros Hid%bool_decide_eq_true_1.
      by rewrite <-(table_id _ _ _ Hj).
    + rewrite Hh. apply bool_decide_eq_true_2, (table_id _ _ _ Hr).
  - rewrite plain_select_none; [done|]. intros j r' Hj. rewrite Hh.
    apply bool_decide_eq_false_2. intros Hid. rewrite (table_id _ _ _ Hj) in Hid. congruence.
Qed.
