(* ===== verification/Redis.v ===== *)
(** * Redis: the interface of the ready index's store

    Redis is not part of the repository.  [Redis] lists the commands the queue
    issues on an abstract server state with three observations (sorted sets,
    hashes, counters by key); [RedisLaws] is their documented effect.  [MemRedis]
    is the concrete store the witnesses run on and discharges the laws.  [fault] is what a
    network may do to a call: [call] for one to Redis, [db_call] for a transaction. *)

From S2P Require Import Prelude.
From S2P Require Import Text.
From S2P Require Import Errors.

Local Open Scope Z_scope.

(** Entries of a sorted set are ordered by score, ties by member bytes. *)
Definition entry_le : relation (string * Z) := λ a b,
  a.2 < b.2 ∨ (a.2 = b.2 ∧ String.le a.1 b.1).

#[export] Instance entry_le_dec : RelDecision entry_le.
Proof. intros a b. unfold entry_le. apply _. Defined.
#[export] Instance entry_le_trans : Transitive entry_le.
Proof.
  intros a b c [H1|[H1 H1']] [H2|[H2 H2']]; unfold entry_le; try lia.
  right. split; [lia|]. by transitivity b.1.
Qed.
#[export] Instance entry_le_total : Total entry_le.
Proof.
  intros a b. unfold entry_le. destruct (Z.lt_trichotomy a.2 b.2) as [|[Heq|]]; [tauto| |tauto].
  destruct (total String.le a.1 b.1); [left|right]; right; done.
Qed.

(** The members of a sorted set in ascending order. *)
Definition zorder (z : gmap string Z) : list string := (merge_sort entry_le (map_to_list z)).*1.

(** ZRANGE's index arithmetic: inclusive bounds, negative ones from the end. *)
Definition zrange_slice {A} (start stop : Z) (l : list A) : list A :=
  let n := Z.of_nat (length l) in
  let s := Z.max 0 (if start <? 0 then n + start else start) in
  let e := if stop <? 0 then n + stop else stop in
  take (Z.to_nat (e - s + 1)) (drop (Z.to_nat s) l).

Class Redis (R : Type) := {
  zset : R → string → gmap string Z;
  hash : R → string → gmap string string;
  counter : R → string → Z;
  INCR : string → R → result exn (R * Z);
  HGET : string → string → R → option string;
  HSET : string → string → string → R → R;
  HDEL : string → string → R → R;
  ZADD : string → Z → string → R → R;
  ZREM : string → string → R → R * Z;
  ZRANGE : string → Z → Z → R → list string;
  ZCARD : string → R → Z;
  ZSCORE : string → string → R → option Z
}.

Definition upd {A} (f : string → A) (k : string) (a : A) : string → A :=
  λ k', if decide (k' = k) then a else f k'.

Class RedisLaws (R : Type) `{!Redis R} : Prop := {
  incr_spec k (r : R) :
    counter r k < 2 ^ 63 - 1 →
    ∃ r', INCR k r = Ok (r', counter r k + 1) ∧
      (∀ k', counter r' k' = upd (counter r) k (counter r k + 1) k') ∧
      (∀ k', zset r' k' = zset r k') ∧ (∀ k', hash r' k' = hash r k');
  hget_spec k f (r : R) : HGET k f r = hash r k !! f;
  hset_hash k f v (r : R) k' : hash (HSET k f v r) k' = upd (hash r) k (<[f := v]> (hash r k)) k';
  hset_zset k f v (r : R) k' : zset (HSET k f v r) k' = zset r k';
  hset_counter k f v (r : R) k' : counter (HSET k f v r) k' = counter r k';
  hdel_hash k f (r : R) k' : hash (HDEL k f r) k' = upd (hash r) k (delete f (hash r k)) k';
  hdel_zset k f (r : R) k' : zset (HDEL k f r) k' = zset r k';
  hdel_counter k f (r : R) k' : counter (HDEL k f r) k' = counter r k';
  zadd_zset k s m (r : R) k' : zset (ZADD k s m r) k' = upd (zset r) k (<[m := s]> (zset r k)) k';
  zadd_hash k s m (r : R) k' : hash (ZADD k s m r) k' = hash r k';
  zadd_counter k s m (r : R) k' : counter (ZADD k s m r) k' = counter r k';
  zrem_reply k m (r : R) : (ZREM k m r).2 = match zset r k !! m with Some _ => 1 | None => 0 end;
  zrem_zset k m (r : R) k' : zset (ZREM k m r).1 k' = upd (zset r) k (delete m (zset r k)) k';
  zrem_hash k m (r : R) k' : hash (ZREM k m r).1 k' = hash r k';
  zrem_counter k m (r : R) k' : counter (ZREM k m r).1 k' = counter r k';
  zrange_spec k a b (r : R) : ZRANGE k a b r = zrange_slice a b (zorder (zset r k));
  zcard_spec k (r : R) : ZCARD k r = Z.of_nat (size (zset r k));
  zscore_spec k m (r : R) : ZSCORE k m r = zset r k !! m
}.

Create Rewrite HintDb redis.
#[export] Hint Rewrite @hget_spec @hset_hash @hset_zset @hset_counter @hdel_hash @hdel_zset
  @hdel_counter @zadd_zset @zadd_hash @zadd_counter @zrem_reply @zrem_zset @zrem_hash
  @zrem_counter @zrange_spec @zcard_spec @zscore_spec using typeclasses eauto : redis.

Lemma upd_eq {A} (f : string → A) k a : upd f k a k = a.
Proof. unfold upd. by rewrite decide_True. Qed.
Lemma upd_ne {A} (f : string → A) k k' a : k' ≠ k → upd f k a k' = f k'.
Proof. intros. unfold upd. by rewrite decide_False. Qed.

(** What can become of a command sent over the network. *)
Inductive fault := no_fault | command_lost | reply_lost.
#[export] Instance fault_eq_dec : EqDecision fault.
Proof. solve_decision. Defined.

Definition call {R A} (f : fault) (op : R → R * result exn A) (r : R) : R * result exn A :=
  match f with
  | no_fault => op r
  | command_lost => (r, Err (RedisError "connection error"))
  | reply_lost => ((op r).1, Err (RedisError "timeout"))
  end.

(** A session whose connection may fail before the statement or after the commit. *)
Definition db_call {DB A} (f : fault) (op : DB → DB * result exn A) (db : DB)
    : DB * result exn A :=
  match f with
  | no_fault => op db
  | command_lost => (db, Err (DBAPIError "connection was closed"))
  | reply_lost => ((op db).1, Err (DBAPIError "connection was closed"))
  end.

(** ** The concrete store *)

Record MemRedis := {
  mr_zsets : gmap string (gmap string Z);
  mr_hashes : gmap string (gmap string string);
  mr_counters : gmap string Z
}.

Definition redis_empty : MemRedis := {| mr_zsets := ∅; mr_hashes := ∅; mr_counters := ∅ |}.

Definition get_map {A} (m : gmap string (gmap string A)) (k : string) : gmap string A :=
  default ∅ (m !! k).

Definition mr_counter (r : MemRedis) (k : string) : Z := default 0 (mr_counters r !! k).

Definition with_zset (r : MemRedis) k z : MemRedis :=
  {| mr_zsets := <[k := z]> (mr_zsets r); mr_hashes := mr_hashes r;
     mr_counters := mr_counters r |}.
Definition with_hash (r : MemRedis) k h : MemRedis :=
  {| mr_zsets := mr_zsets r; mr_hashes := <[k := h]> (mr_hashes r);
     mr_counters := mr_counters r |}.

#[export] Instance MemRedis_redis : Redis MemRedis := {|
  zset r k := get_map (mr_zsets r) k;
  hash r k := get_map (mr_hashes r) k;
  counter := mr_counter;
  INCR k r :=
    if mr_counter r k <? 2 ^ 63 - 1 then
      Ok ({| mr_zsets := mr_zsets r; mr_hashes := mr_hashes r;
             mr_counters := <[k := mr_counter r k + 1]> (mr_counters r) |}, mr_counter r k + 1)
    else Err (RedisError "ERR increment or decrement would overflow");
  HGET k f r := get_map (mr_hashes r) k !! f;
  HSET k f v r := with_hash r k (<[f := v]> (get_map (mr_hashes r) k));
  HDEL k f r := with_hash r k (delete f (get_map (mr_hashes r) k));
  ZADD k s m r := with_zset r k (<[m := s]> (get_map (mr_zsets r) k));
  ZREM k m r := (with_zset r k (delete m (get_map (mr_zsets r) k)),
                 match get_map (mr_zsets r) k !! m with Some _ => 1 | None => 0 end);
  ZRANGE k a b r := zrange_slice a b (zorder (get_map (mr_zsets r) k));
  ZCARD k r := Z.of_nat (size (get_map (mr_zsets r) k));
  ZSCORE k m r := get_map (mr_zsets r) k !! m
|}.

Lemma get_map_insert {A} (m : gmap string (gmap string A)) k x k' :
  get_map (<[k := x]> m) k' = upd (get_map m) k x k'.
Proof.
  unfold get_map, upd. rewrite lookup_insert.
  destruct (decide (k' = k)) as [->|]; case_decide; congruence || done.
Qed.

#[export] Instance MemRedis_laws : RedisLaws MemRedis.
Proof.
  split; intros; simpl; rewrite ?get_map_insert; try done.
  apply Z.ltb_lt in H as Hlt. simpl in Hlt. rewrite Hlt. eexists. split; [done|].
  split; [|done]. intros k'. unfold mr_counter, upd. simpl. rewrite lookup_insert.
  destruct (decide (k' = k)) as [->|]; case_decide; congruence || done.
Qed.
