(* ===== verification/ReadyQueue.v ===== *)
(** * ReadyQueue: the Redis index of runnable jobs

    [app/services/queue_service.py].  The two Lua scripts are sequences of Redis
    commands run without interleaving; [call] (in [Redis]) adds what can happen to
    one over the network.  The abstract queue maps a job to its score and enqueue
    sequence; [represents] relates it to the sorted set, the entry mapping and the
    counter, and the operations are proved to refine it. *)

From S2P Require Import Prelude.
From S2P Require Import Text.
From S2P Require Import Errors.
From S2P Require Import Redis.
From Stdlib Require Import Ascii String.

Local Open Scope Z_scope.

Definition READY_QUEUE_KEY : string := "job_queue:ready".
Definition SEQUENCE_KEY : string := "job_queue:sequence".
Definition ENTRIES_KEY : string := "job_queue:entries".
Definition MAX_PRIORITY : Z := 100.
Definition SEQUENCE_WIDTH : nat := 19.

Record QueueCandidate := MkCandidate {
  qc_job_id : uuid;
  qc_member : string;
  qc_sequence : Z
}.

(** [QueueCandidate.from_member] *)
Definition from_member (member : string) : result exn QueueCandidate :=
  match partition ":" member with
  | (sequence_text, separator, job_id_text) =>
      if separator then
        match parse_uuid job_id_text with
        | None => Err (ValueError "badly formed hexadecimal UUID string")
        | Some job_id =>
            match py_int 10 sequence_text with
            | None => Err (ValueError ("invalid literal for int() with base 10: '" +:+
                                       sequence_text +:+ "'"))
            | Some sequence =>
                Ok {| qc_job_id := job_id; qc_member := member; qc_sequence := sequence |}
            end
        end
      else Err (ValueError ("malformed queue member: '" +:+ member +:+ "'"))
  end.

Definition entry_score (priority : Z) : Z :=
  let clamped := Z.max 0 (Z.min MAX_PRIORITY priority) in
  MAX_PRIORITY - clamped.

(** [string.format('%0' .. width .. 'd', sequence) .. ':' .. job_id]; the counter
    reaches Lua as a double. *)
Definition entry_member (width : nat) (sequence : Z) (job_id : string) : string :=
  lua_format_d width (lua_number sequence) +:+ ":" +:+ job_id.

Section queue.
Context {R : Type} `{!Redis R}.

(** [_ENQUEUE_SCRIPT] *)
Definition ENQUEUE_SCRIPT (ready_key sequence_key entries_key : string)
    (score : Z) (job_id : string) (width : nat) (r : R) : R * result exn string :=
  match INCR sequence_key r with
  | Err e => (r, Err e)
  | Ok (r, sequence) =>
      let member := entry_member width sequence job_id in
      let r := match HGET entries_key job_id r with
               | Some previous => (ZREM ready_key previous r).1
               | None => r
               end in
      let r := ZADD ready_key score member r in
      let r := HSET entries_key job_id member r in
      (r, Ok member)
  end.

(** [_REMOVE_SCRIPT]: compare-and-delete. *)
Definition REMOVE_SCRIPT (ready_key entries_key : string) (member job_id : string)
    (r : R) : R * result exn Z :=
  let '(r, removed) := ZREM ready_key member r in
  let r := if bool_decide (HGET entries_key job_id r = Some member)
           then HDEL entries_key job_id r else r in
  (r, Ok removed).

(** [ReadyQueue.enqueue] *)
Definition enqueue (job_id : uuid) (priority : Z) (r : R) : R * result exn QueueCandidate :=
  match ENQUEUE_SCRIPT READY_QUEUE_KEY SEQUENCE_KEY ENTRIES_KEY
          (entry_score priority) (show_uuid job_id) SEQUENCE_WIDTH r with
  | (r, Ok member) => (r, from_member member)
  | (r, Err e) => (r, Err e)
  end.

Fixpoint from_members (members : list string) : result exn (list QueueCandidate) :=
  match members with
  | [] => Ok []
  | m :: ms =>
      match from_member m with
      | Err e => Err e
      | Ok c => match from_members ms with Err e => Err e | Ok cs => Ok (c :: cs) end
      end
  end.

Definition peek_many (count : Z) (r : R) : result exn (list QueueCandidate) :=
  from_members (ZRANGE READY_QUEUE_KEY 0 (count - 1) r).

Definition peek (r : R) : result exn (option QueueCandidate) :=
  match peek_many 1 r with
  | Err e => Err e
  | Ok candidates => Ok (head candidates)
  end.

Definition remove (c : QueueCandidate) (r : R) : R * result exn bool :=
  match REMOVE_SCRIPT READY_QUEUE_KEY ENTRIES_KEY (qc_member c) (show_uuid (qc_job_id c)) r with
  | (r, Ok removed) => (r, Ok (negb (removed =? 0)))
  | (r, Err e) => (r, Err e)
  end.

Definition current_member (job_id : uuid) (r : R) : option string :=
  HGET ENTRIES_KEY (show_uuid job_id) r.

(** Two round trips: [between] is what other clients do after the lookup. *)
Definition remove_current (between : R → R) (job_id : uuid) (r : R) : R * result exn bool :=
  match current_member job_id r with
  | None => (between r, Ok false)
  | Some member =>
      match from_member member with
      | Err e => (between r, Err e)
      | Ok c => remove c (between r)
      end
  end.

Definition size (r : R) : Z := ZCARD READY_QUEUE_KEY r.

Definition score (c : QueueCandidate) (r : R) : option Z :=
  ZSCORE READY_QUEUE_KEY (qc_member c) r.
End queue.

(** ** The abstract queue *)

(** A queued job: its priority and the sequence of its enqueue. *)
Abbreviation aqueue := (gmap uuid (Z * Z)).

(** A priority outside 0..100 counts as the nearest one in it. *)
Definition effective (priority : Z) : Z := Z.max 0 (Z.min 100 priority).

Definition a_enqueue (id : uuid) (priority seq : Z) (q : aqueue) : aqueue :=
  <[id := (effective priority, seq)]> q.

(** Remove the entry only if it is still the one that was observed. *)
Definition a_remove (id : uuid) (seq : Z) (q : aqueue) : aqueue :=
  match q !! id with
  | Some (_, seq') => if decide (seq' = seq) then delete id q else q
  | None => q
  end.

(** [a] is served before [b]: higher priority first, then earlier sequence. *)
Definition served_before (a b : Z * Z) : Prop := b.1 < a.1 ∨ (a.1 = b.1 ∧ a.2 < b.2).

Definition member (seq : Z) (id : uuid) : string := digits 10 19 seq +:+ ":" +:+ show_uuid id.

#[global] Arguments member : simpl never.
#[global] Arguments show_uuid : simpl never.
#[global] Arguments entry_score : simpl never.

(** Sequences a Lua number holds exactly. *)
Definition SEQ_BOUND : Z := 2 ^ 53.

Record represents {R} `{!Redis R} (r : R) (q : aqueue) : Prop := {
  rep_counter : 0 ≤ counter r SEQUENCE_KEY;
  rep_wf id p seq : q !! id = Some (p, seq) →
    uuid_ok id ∧ 0 ≤ p ≤ 100 ∧ 1 ≤ seq ≤ counter r SEQUENCE_KEY ∧ seq < SEQ_BOUND;
  rep_seq id id' p p' seq : q !! id = Some (p, seq) → q !! id' = Some (p', seq) → id = id';
  rep_hash f m : hash r ENTRIES_KEY !! f = Some m ↔
    ∃ id p seq, q !! id = Some (p, seq) ∧ f = show_uuid id ∧ m = member seq id;
  rep_zset m sc : zset r READY_QUEUE_KEY !! m = Some sc ↔
    ∃ id p seq, q !! id = Some (p, seq) ∧ sc = entry_score p ∧ m = member seq id
}.

Example member_1 :
  entry_member 19 123 "x" = "0000000000000000123:x". Proof. reflexivity. Qed.
Example enqueue_twice :
  let '(r, _) := enqueue 7 50 redis_empty in
  let '(r, _) := enqueue 8 90 r in
  let '(r, _) := enqueue 7 10 r in
  (peek r, size r) = (Ok (Some (MkCandidate 8 (member 2 8) 2)), 2).
Proof. vm_compute. reflexivity. Qed.

(** ** Members *)

Lemma entry_member_exact seq id :
  0 ≤ seq < SEQ_BOUND → entry_member SEQUENCE_WIDTH seq (show_uuid id) = member seq id.
Proof.
  intros Hs. unfold entry_member, member, SEQ_BOUND in *.
  unfold SEQUENCE_WIDTH. rewrite lua_number_exact by lia.
  by rewrite lua_format_d_digits by (done || simpl Z.of_nat; lia).
Qed.

(** Round trip: a worker reads back the job and the sequence it was queued under. *)
Lemma from_member_member seq id :
  uuid_ok id → 0 ≤ seq < SEQ_BOUND →
  from_member (member seq id) =
    Ok {| qc_job_id := id; qc_member := member seq id; qc_sequence := seq |}.
Proof.
  intros Hid Hs. unfold from_member, member, SEQ_BOUND in *. simpl (":" +:+ _).
  rewrite partition_found.
  2:{ apply digits_forall; [lia|]. intros d Hd. by_digits d. }
  rewrite parse_show_uuid, py_int_digits by (done || lia).
  rewrite Z.mod_small by (simpl; lia). done.
Qed.

Lemma member_inj seq seq' id id' :
  uuid_ok id → uuid_ok id' → 0 ≤ seq < SEQ_BOUND → 0 ≤ seq' < SEQ_BOUND →
  member seq id = member seq' id' → seq = seq' ∧ id = id'.
Proof.
  intros Hid Hid' Hs Hs' Heq.
  pose proof (from_member_member seq id Hid Hs) as H1.
  pose proof (from_member_member seq' id' Hid' Hs') as H2.
  rewrite Heq, H2 in H1. by simplify_eq.
Qed.

(** Zero padding makes the byte order of members the numeric order of sequences. *)
Lemma member_compare seq seq' id id' :
  0 ≤ seq < seq' → seq' < SEQ_BOUND →
  String.compare (member seq id) (member seq' id') = Lt.
Proof.
  intros Hs Hs'. unfold member, SEQ_BOUND in *. apply digits_compare_lt; simpl; lia.
Qed.

Lemma member_le seq seq' id id' :
  0 ≤ seq < SEQ_BOUND → 0 ≤ seq' < SEQ_BOUND →
  String.le (member seq id) (member seq' id') → seq ≤ seq'.
Proof.
  intros Hs Hs' Hle. destruct (Z.le_gt_cases seq seq') as [|Hgt]; [done|exfalso].
  pose proof (member_compare seq' seq id' id ltac:(lia) ltac:(lia)) as Hlt.
  unfold String.le, String.leb in Hle.
  rewrite String.compare_antisym, Hlt in Hle. done.
Qed.

Lemma effective_bounds p : 0 ≤ effective p ≤ 100.
Proof. unfold effective. lia. Qed.

Lemma entry_score_effective p : entry_score (effective p) = entry_score p.
Proof. unfold entry_score, effective, MAX_PRIORITY. lia. Qed.

(** Within the accepted range a higher priority is a strictly lower score. *)
Lemma entry_score_lt p p' :
  0 ≤ p ≤ 100 → 0 ≤ p' ≤ 100 → entry_score p < entry_score p' ↔ p' < p.
Proof. unfold entry_score, MAX_PRIORITY. lia. Qed.

Lemma entry_score_inj p p' :
  0 ≤ p ≤ 100 → 0 ≤ p' ≤ 100 → entry_score p = entry_score p' → p = p'.
Proof. unfold entry_score, MAX_PRIORITY. lia. Qed.

(** ** Refinement *)

Section refinement.
Context {R : Type} `{!Redis R, !RedisLaws R}.
Implicit Types (r : R) (q : aqueue).

Lemma keys_distinct : READY_QUEUE_KEY ≠ ENTRIES_KEY.
Proof using Type. done. Qed.

Lemma represents_empty r :
  zset r READY_QUEUE_KEY = ∅ → hash r ENTRIES_KEY = ∅ → 0 ≤ counter r SEQUENCE_KEY →
  represents r ∅.
Proof using Type.
  intros Hz Hh Hc. split; [done|..]; intros *; rewrite ?Hz, ?Hh, ?lookup_empty; try done.
  - split; [done|]. intros (?&?&?&H&_). by rewrite lookup_empty in H.
  - split; [done|]. intros (?&?&?&H&_). by rewrite lookup_empty in H.
Qed.

(** Bounds of a represented entry, in the form the member lemmas want. *)
Lemma rep_bounds r q id sc seq :
  represents r q → q !! id = Some (sc, seq) → uuid_ok id ∧ 0 ≤ seq < SEQ_BOUND.
Proof using Type. intros Hr (?&?&?&?)%(rep_wf _ _ Hr). split; [done|lia]. Qed.

(** Equal members belong to the same job and enqueue. *)
Lemma rep_member_inj r q id id' sc sc' seq seq' :
  represents r q → q !! id = Some (sc, seq) → q !! id' = Some (sc', seq') →
  member seq id = member seq' id' → seq = seq' ∧ id = id'.
Proof using Type.
  intros Hr H1 H2 Heq. pose proof (rep_bounds _ _ _ _ _ Hr H1).
  pose proof (rep_bounds _ _ _ _ _ Hr H2). apply member_inj; tauto.
Qed.

Lemma rep_lookup_hash r q id :
  represents r q → uuid_ok id →
  hash r ENTRIES_KEY !! show_uuid id = (λ e, member e.2 id) <$> q !! id.
Proof using Type.
  intros Hr Hid. destruct (q !! id) as [[sc seq]|] eqn:Hq; simpl.
  - apply (rep_hash _ _ Hr). eauto 6.
  - destruct (hash r ENTRIES_KEY !! show_uuid id) as [m|] eqn:Hh; [|done].
    apply (rep_hash _ _ Hr) in Hh as (id' & sc & seq & Hq' & Hf & _).
    destruct (rep_bounds _ _ _ _ _ Hr Hq').
    apply show_uuid_inj in Hf; [|done..]. congruence.
Qed.

(** The sorted set without the job's current member. *)
Definition zset_without r q (id : uuid) : gmap string Z :=
  match q !! id with
  | Some e => delete (member e.2 id) (zset r READY_QUEUE_KEY)
  | None => zset r READY_QUEUE_KEY
  end.

Lemma zset_without_spec r q id m sc :
  represents r q →
  zset_without r q id !! m = Some sc ↔
    ∃ id' p seq, q !! id' = Some (p, seq) ∧ sc = entry_score p ∧ m = member seq id' ∧ id' ≠ id.
Proof using Type.
  intros Hr. unfold zset_without. destruct (q !! id) as [[p0 seq0]|] eqn:Hq; simpl.
  - rewrite lookup_delete_Some, (rep_zset _ _ Hr). split.
    + intros [Hne (id' & p & seq & Hq' & -> & ->)]. exists id', p, seq. split_and!; [done..|].
      intros ->. by simplify_eq.
    + intros (id' & p & seq & Hq' & -> & -> & Hne). split; [|eauto 6].
      intros Heq. by destruct (rep_member_inj _ _ _ _ _ _ _ _ Hr Hq Hq' Heq).
  - rewrite (rep_zset _ _ Hr). split.
    + intros (id' & p & seq & Hq' & -> & ->). exists id', p, seq.
      split_and!; [done..|]. congruence.
    + intros (id' & p & seq & Hq' & -> & -> & _). eauto 6.
Qed.

(** Replacing the job's entry by one under a fresh sequence. *)
Lemma represents_insert r r' q id p n :
  represents r q → uuid_ok id → 0 ≤ p ≤ 100 →
  n = counter r SEQUENCE_KEY + 1 → n < SEQ_BOUND →
  counter r' SEQUENCE_KEY = n →
  hash r' ENTRIES_KEY = <[show_uuid id := member n id]> (hash r ENTRIES_KEY) →
  zset r' READY_QUEUE_KEY = <[member n id := entry_score p]> (zset_without r q id) →
  represents r' (<[id := (p, n)]> q).
Proof using Type.
  intros Hr Hid Hsc Hnd Hn Hc' Hh' Hz'. pose proof (rep_counter _ _ Hr) as Hc.
  split; rewrite ?Hc', ?Hh', ?Hz'.
  - lia.
  - intros id' sc' seq. rewrite lookup_insert. case_decide; intros Hq; simplify_eq.
    + split_and!; (done || lia).
    + apply (rep_wf _ _ Hr) in Hq as (?&?&?&?). split_and!; (done || lia).
  - intros id1 id2 sc1 sc2 seq. rewrite !lookup_insert.
    repeat case_decide; intros H1 H2; simplify_eq; try done.
    + apply (rep_wf _ _ Hr) in H2. lia.
    + apply (rep_wf _ _ Hr) in H1. lia.
    + by eapply (rep_seq _ _ Hr).
  - intros f m. rewrite lookup_insert_Some, (rep_hash _ _ Hr). split.
    + intros [[<- <-]|[Hf (id' & sc' & seq & Hq & -> & ->)]].
      * exists id, p, n. by rewrite lookup_insert_eq.
      * exists id', sc', seq. rewrite lookup_insert_ne; [done|]. by intros ->.
    + intros (id' & sc' & seq & [[<- ?]|[Hne Hq]]%lookup_insert_Some & -> & ->); simplify_eq.
      * by left.
      * right. split; [|eauto 6]. destruct (rep_bounds _ _ _ _ _ Hr Hq).
        intros Hs. by apply show_uuid_inj in Hs.
  - intros m sc'. rewrite lookup_insert_Some, (zset_without_spec _ _ _ _ _ Hr). split.
    + intros [[<- <-]|[Hm (id' & p' & seq & Hq & -> & -> & Hne)]].
      * exists id, p, n. by rewrite lookup_insert_eq.
      * exists id', p', seq. by rewrite lookup_insert_ne.
    + intros (id' & p' & seq & [[<- ?]|[Hne Hq]]%lookup_insert_Some & -> & ->); simplify_eq.
      * by left.
      * right. split; [|eauto 8]. destruct (rep_bounds _ _ _ _ _ Hr Hq).
        intros [_ Hs]%member_inj; [congruence|(done || lia)..].
Qed.

(** Dropping the job's entry. *)
Lemma represents_delete r r' q id sc seq :
  represents r q → q !! id = Some (sc, seq) →
  counter r' SEQUENCE_KEY = counter r SEQUENCE_KEY →
  hash r' ENTRIES_KEY = delete (show_uuid id) (hash r ENTRIES_KEY) →
  zset r' READY_QUEUE_KEY = delete (member seq id) (zset r READY_QUEUE_KEY) →
  represents r' (delete id q).
Proof using Type.
  intros Hr Hq Hc' Hh' Hz'. split; rewrite ?Hc', ?Hh', ?Hz'.
  - apply Hr.
  - intros id' sc' seq' [_ H]%lookup_delete_Some. by apply (rep_wf _ _ Hr) in H.
  - intros id1 id2 sc1 sc2 seq' [_ H1]%lookup_delete_Some [_ H2]%lookup_delete_Some.
    by eapply (rep_seq _ _ Hr).
  - intros f m. rewrite lookup_delete_Some, (rep_hash _ _ Hr). split.
    + intros [Hne (id' & sc' & seq' & Hq' & -> & ->)]. exists id', sc', seq'.
      split_and!; try done. rewrite lookup_delete_ne; [done|]. by intros ->.
    + intros (id' & sc' & seq' & [Hne Hq']%lookup_delete_Some & -> & ->). split; [|eauto 6].
      destruct (rep_bounds _ _ _ _ _ Hr Hq), (rep_bounds _ _ _ _ _ Hr Hq').
      intros Hs. by apply show_uuid_inj in Hs.
  - intros m sc'.
    assert (delete (member seq id) (zset r READY_QUEUE_KEY) = zset_without r q id) as ->
      by (unfold zset_without; by rewrite Hq).
    rewrite (zset_without_spec _ _ _ _ _ Hr). split.
    + intros (id' & p & seq' & Hq' & -> & -> & Hne). exists id', p, seq'.
      by rewrite lookup_delete_ne.
    + intros (id' & p & seq' & [Hne Hq']%lookup_delete_Some & -> & ->). eauto 8.
Qed.

(** Equal observations represent the same queue. *)
Lemma represents_same r r' q :
  represents r q →
  counter r' SEQUENCE_KEY = counter r SEQUENCE_KEY →
  hash r' ENTRIES_KEY = hash r ENTRIES_KEY →
  zset r' READY_QUEUE_KEY = zset r READY_QUEUE_KEY →
  represents r' q.
Proof using Type. intros [] Hc Hh Hz. by split; rewrite ?Hc, ?Hh, ?Hz. Qed.

(** [enqueue] gives the job one entry, under the next sequence, in place of any
    earlier one. *)
Lemma enqueue_spec r q id p :
  represents r q → uuid_ok id → counter r SEQUENCE_KEY + 1 < SEQ_BOUND →
  let n := counter r SEQUENCE_KEY + 1 in
  ∃ r', enqueue id p r = (r', Ok (MkCandidate id (member n id) n)) ∧
        represents r' (a_enqueue id p n q) ∧ counter r' SEQUENCE_KEY = n.
Proof using RedisLaws0.
  intros Hr Hid Hn n. pose proof (rep_counter _ _ Hr) as Hc.
  assert (n = counter r SEQUENCE_KEY + 1) as Hnd by done. clearbody n.
  unfold enqueue, ENQUEUE_SCRIPT.
  destruct (incr_spec SEQUENCE_KEY r) as (r1 & -> & Hc1 & Hz1 & Hh1); [unfold SEQ_BOUND in *; lia|].
  rewrite <-Hnd in *. cbv beta iota zeta. rewrite entry_member_exact by lia.
  rewrite hget_spec, Hh1, (rep_lookup_hash r q id Hr Hid).
  rewrite from_member_member by (done || lia). eexists. split; [done|].
  split; [eapply (represents_insert r); rewrite ?entry_score_effective; try done;
          [apply effective_bounds|..]|];
    destruct (q !! id) as [e|] eqn:Hq; simpl; autorewrite with redis; unfold zset_without;
    rewrite ?Hq, ?upd_eq, ?Hc1, ?Hh1, ?Hz1, ?upd_eq; try done.
Qed.

Lemma rep_member_absent r q id seq :
  represents r q → uuid_ok id → 0 ≤ seq < SEQ_BOUND → (∀ sc, q !! id ≠ Some (sc, seq)) →
  zset r READY_QUEUE_KEY !! member seq id = None.
Proof using Type.
  intros Hr Hid Hseq Hno. apply eq_None_not_Some.
  intros [sc (id' & p & s' & Hq' & _ & Hm)%(rep_zset _ _ Hr)].
  destruct (rep_bounds _ _ _ _ _ Hr Hq'). apply member_inj in Hm as [-> ->]; naive_solver.
Qed.

(** [remove] is compare-and-delete: it drops exactly the observed entry and
    reports whether it did. *)
Lemma remove_spec r q id seq :
  represents r q → uuid_ok id → 0 ≤ seq < SEQ_BOUND →
  ∃ r', remove (MkCandidate id (member seq id) seq) r =
          (r', Ok (bool_decide (snd <$> q !! id = Some seq))) ∧
        represents r' (a_remove id seq q) ∧
        counter r' SEQUENCE_KEY = counter r SEQUENCE_KEY.
Proof using RedisLaws0.
  intros Hr Hid Hseq. unfold remove, REMOVE_SCRIPT. simpl.
  destruct (ZREM READY_QUEUE_KEY (member seq id) r) as [r1 removed] eqn:Hrem.
  pose proof (zrem_reply READY_QUEUE_KEY (member seq id) r) as Hrep.
  pose proof (zrem_zset READY_QUEUE_KEY (member seq id) r READY_QUEUE_KEY) as Hz.
  pose proof (zrem_hash READY_QUEUE_KEY (member seq id) r ENTRIES_KEY) as Hh.
  pose proof (zrem_counter READY_QUEUE_KEY (member seq id) r SEQUENCE_KEY) as Hc.
  rewrite Hrem in Hrep, Hz, Hh, Hc. simpl in Hrep, Hz, Hh, Hc. rewrite upd_eq in Hz.
  rewrite hget_spec, Hh, (rep_lookup_hash r q id Hr Hid). unfold a_remove.
  destruct (q !! id) as [[sc seq']|] eqn:Hq; cbn [fmap option_fmap option_map fst snd].
  - assert (Some (member seq' id) = Some (member seq id) ↔ seq' = seq) as Heq.
    { split; [|by intros ->]. intros Hm%(inj Some). destruct (rep_bounds _ _ _ _ _ Hr Hq).
      by apply member_inj in Hm as [-> _]. }
    destruct (decide (seq' = seq)) as [->|Hne].
    + rewrite (bool_decide_true _ (proj2 Heq eq_refl)), bool_decide_true by done.
      assert (zset r READY_QUEUE_KEY !! member seq id = Some (entry_score sc)) as Hin
        by (apply (rep_zset _ _ Hr); eauto 6).
      rewrite Hin in Hrep. subst removed. eexists. split; [done|].
      autorewrite with redis. split; [|done].
      eapply (represents_delete r); autorewrite with redis; rewrite ?upd_eq; congruence || done.
    + rewrite !bool_decide_false by naive_solver.
      pose proof (rep_member_absent _ _ _ _ Hr Hid Hseq ltac:(naive_solver)) as Hnin.
      rewrite Hnin in Hrep. subst removed. exists r1. split; [done|]. split; [|done].
      apply (represents_same r); [done..|]. by rewrite Hz, delete_id.
  - rewrite !bool_decide_false by done.
    pose proof (rep_member_absent _ _ _ _ Hr Hid Hseq ltac:(naive_solver)) as Hnin.
    rewrite Hnin in Hrep. subst removed. exists r1. split; [done|]. split; [|done].
    apply (represents_same r); [done..|]. by rewrite Hz, delete_id.
Qed.

(** Uncontended, [remove_current] takes the job out of the queue. *)
Lemma remove_current_spec r q id :
  represents r q → uuid_ok id →
  ∃ r', remove_current (λ r, r) id r = (r', Ok (bool_decide (is_Some (q !! id)))) ∧
        represents r' (delete id q).
Proof using RedisLaws0.
  intros Hr Hid. unfold remove_current, current_member.
  rewrite hget_spec, (rep_lookup_hash r q id Hr Hid).
  destruct (q !! id) as [[sc seq]|] eqn:Hq; cbn [fmap option_fmap option_map snd].
  - destruct (rep_bounds _ _ _ _ _ Hr Hq) as [_ Hs]. rewrite from_member_member by done.
    destruct (remove_spec r q id seq Hr Hid Hs) as (r' & Hrem & Hr' & _).
    unfold a_remove in Hr'. rewrite Hq in Hrem, Hr'. rewrite decide_True in Hr' by done.
    exists r'. split; [|done]. rewrite Hrem. do 2 f_equal.
    rewrite !bool_decide_true; done.
  - exists r. rewrite bool_decide_false by (intros []; done). split; [done|].
    by rewrite delete_id.
Qed.
End refinement.

(** ** Order *)

Definition entry_of (e : uuid * (Z * Z)) : string * Z := (member e.2.2 e.1, entry_score e.2.1).
Definition candidate_of (e : uuid * (Z * Z)) : QueueCandidate :=
  MkCandidate e.1 (member e.2.2 e.1) e.2.2.

(** [l] lists the queue in the order it is served. *)
Definition service_order (q : aqueue) (l : list (uuid * (Z * Z))) : Prop :=
  l ≡ₚ map_to_list q ∧ StronglySorted (λ a b, served_before a.2 b.2) l.

Section order.
Context {R : Type} `{!Redis R, !RedisLaws R}.
Implicit Types (r : R) (q : aqueue).

Lemma zset_entries r q :
  represents r q → map_to_list (zset r READY_QUEUE_KEY) ≡ₚ entry_of <$> map_to_list q.
Proof using Type.
  intros Hr. apply NoDup_Permutation.
  - apply NoDup_map_to_list.
  - apply NoDup_fmap_2_strong; [|apply NoDup_map_to_list].
    intros [id [p seq]] [id' [p' seq']] H1%elem_of_map_to_list H2%elem_of_map_to_list.
    unfold entry_of. cbn [fst snd]. intros Heq. pose proof (f_equal fst Heq) as Hm.
    destruct (rep_member_inj _ _ _ _ _ _ _ _ Hr H1 H2 Hm). subst. congruence.
  - intros [m sc]. rewrite elem_of_map_to_list, (rep_zset _ _ Hr), list_elem_of_fmap. split.
    + intros (id & p & seq & Hq & -> & ->). exists (id, (p, seq)).
      by rewrite elem_of_map_to_list.
    + intros ([id [p seq]] & Heq & Hq%elem_of_map_to_list).
      pose proof (f_equal fst Heq) as Hm. pose proof (f_equal snd Heq) as Hs.
      cbn in Hm, Hs. subst. eauto 6.
Qed.

(** Redis's order of the members is the service order of the queue. *)
Lemma zorder_service r q :
  represents r q →
  ∃ l, service_order q l ∧
       zorder (zset r READY_QUEUE_KEY) = (λ e, member e.2.2 e.1) <$> l.
Proof using Type.
  intros Hr. unfold zorder.
  pose proof (merge_sort_Permutation entry_le (map_to_list (zset r READY_QUEUE_KEY))) as Hp.
  rewrite (zset_entries r q Hr) in Hp at 2.
  apply Permutation_map_inv in Hp as (l & Hl & Hpl).
  exists l. change (map entry_of l) with (entry_of <$> l) in Hl. rewrite Hl. split.
  2:{ rewrite <-list_fmap_compose. done. }
  split; [done|].
  assert (StronglySorted entry_le (entry_of <$> l)) as Hs.
  { rewrite <-Hl. apply StronglySorted_merge_sort; apply _. }
  assert (NoDup l) as Hnd by (rewrite <-Hpl; apply NoDup_map_to_list).
  assert (∀ e, e ∈ l → q !! e.1 = Some e.2) as Hin.
  { intros [id e] He. apply elem_of_map_to_list. by rewrite Hpl. }
  clear Hl Hpl. induction l as [|a l IH]; [constructor|].
  apply NoDup_cons in Hnd as [Hna Hnd]. inversion Hs as [|? ? Hs' Hf]; subst.
  constructor; [apply IH; [done|done|]; intros e He; apply Hin; by right|].
  rewrite Forall_fmap in Hf. rewrite Forall_forall in Hf |- *. intros b Hb.
  destruct a as [ia [pa qa]], b as [ib [pb qb]].
  pose proof (Hin _ (list_elem_of_here _ _)) as Ha.
  pose proof (Hin _ (list_elem_of_further _ _ _ Hb)) as Hb'. cbn in Ha, Hb'.
  destruct (rep_wf _ _ Hr _ _ _ Ha) as (_ & Hpa & _), (rep_wf _ _ Hr _ _ _ Hb') as (_ & Hpb & _).
  destruct (Hf _ Hb) as [Hlt|[Heq Hle]]; unfold served_before; cbn in *.
  { left. by apply entry_score_lt. }
  apply entry_score_inj in Heq; [|done..]. right. split; [done|].
  destruct (rep_bounds _ _ _ _ _ Hr Ha), (rep_bounds _ _ _ _ _ Hr Hb').
  apply member_le in Hle; [|done..].
  assert (qa ≠ qb); [|lia]. intros ->. subst pb.
  pose proof (rep_seq _ _ Hr _ _ _ _ _ Ha Hb') as ->. done.
Qed.

Lemma from_members_map r q l :
  represents r q → (∀ e, e ∈ l → q !! e.1 = Some e.2) →
  from_members ((λ e, member e.2.2 e.1) <$> l) = Ok (candidate_of <$> l).
Proof using Type.
  intros Hr. induction l as [|[id [sc seq]] l IH]; intros Hin; [done|].
  rewrite !fmap_cons. cbn [from_members fst snd].
  destruct (rep_bounds _ _ _ _ _ Hr (Hin _ (list_elem_of_here _ _))) as [? ?].
  rewrite from_member_member by done.
  rewrite IH by (intros e He; apply Hin; by right). done.
Qed.

(** [peek_many n] reads the first [n] entries of the service order. *)
Lemma peek_many_spec r q n :
  represents r q → 1 ≤ n →
  ∃ l, service_order q l ∧ peek_many n r = Ok (candidate_of <$> take (Z.to_nat n) l).
Proof using RedisLaws0.
  intros Hr Hn. destruct (zorder_service r q Hr) as (l & Hl & Hz).
  exists l. split; [done|]. unfold peek_many. rewrite zrange_spec, Hz. unfold zrange_slice.
  replace (n - 1 <? 0) with false by (symmetry; lia).
  replace (Z.to_nat (n - 1 - Z.max 0 (if 0 <? 0 then _ else 0) + 1)) with (Z.to_nat n)
    by (simpl; lia).
  simpl (Z.to_nat (Z.max _ _)). rewrite drop_0, <-fmap_take.
  apply (from_members_map r q); [done|]. intros [id e] He.
  apply elem_of_map_to_list. destruct Hl as [Hp _]. rewrite <-Hp.
  by eapply elem_of_sublist, sublist_take.
Qed.

(** [peek] reads the first entry of the service order. *)
Lemma peek_spec r q :
  represents r q →
  (q = ∅ ∧ peek r = Ok None) ∨
  ∃ id sc seq, q !! id = Some (sc, seq) ∧
    peek r = Ok (Some (MkCandidate id (member seq id) seq)) ∧
    ∀ id' e, q !! id' = Some e → id' ≠ id → served_before (sc, seq) e.
Proof using RedisLaws0.
  intros Hr. unfold peek.
  destruct (peek_many_spec r q 1 Hr ltac:(lia)) as (l & [Hp Hs] & ->).
  assert (∀ id e, q !! id = Some e ↔ (id, e) ∈ l) as Hin.
  { intros id e. by rewrite Hp, elem_of_map_to_list. }
  destruct l as [|[id [sc seq]] l]; cbn.
  - left. split; [|done]. apply map_eq. intros id. rewrite lookup_empty.
    apply eq_None_not_Some. intros [e He%Hin]. by apply not_elem_of_nil in He.
  - right. exists id, sc, seq. split; [apply Hin; by left|]. split; [done|].
    intros id' e He%Hin Hne. inversion Hs as [|? ? _ Hf]; subst.
    rewrite Forall_forall in Hf.
    apply elem_of_cons in He as [He|He]; [by simplify_eq|]. by apply (Hf (id', e)).
Qed.

Lemma served_before_asym a b : served_before a b → ¬ served_before b a.
Proof using Type. unfold served_before. lia. Qed.

(** The entry nothing is served before is the one [peek] reads. *)
Lemma peek_best r q id sc seq :
  represents r q → q !! id = Some (sc, seq) →
  (∀ id' e, q !! id' = Some e → id' ≠ id → served_before (sc, seq) e) →
  peek r = Ok (Some (MkCandidate id (member seq id) seq)).
Proof using RedisLaws0.
  intros Hr Hq Hbest. destruct (peek_spec r q Hr) as [[-> _]|(id' & sc' & seq' & Hq' & Hp & Hb)].
  - by rewrite lookup_empty in Hq.
  - destruct (decide (id' = id)) as [->|Hne]; [by simplify_eq|].
    destruct (served_before_asym _ _ (Hbest id' _ Hq' Hne)). by apply (Hb id).
Qed.

Lemma size_spec r q : represents r q → size r = Z.of_nat (base.size q).
Proof using RedisLaws0.
  intros Hr. unfold size. rewrite zcard_spec. f_equal.
  rewrite <-!length_map_to_list, (zset_entries r q Hr). apply length_fmap.
Qed.
End order.

(** ** Properties *)

Section properties.
Context {R : Type} `{!Redis R, !RedisLaws R}.
Implicit Types (r : R) (q : aqueue).

(** C28: [peek] never fails on a represented queue; it returns nothing exactly when the
    queue is empty, and otherwise the entry of highest priority and, within that
    priority, of earliest enqueue. *)
Theorem peek_serves_best r q (Hr : represents r q) :
  match peek r with
  | Ok None => q = ∅
  | Ok (Some c) =>
      ∃ p, q !! qc_job_id c = Some (p, qc_sequence c) ∧
           ∀ id e, q !! id = Some e → id ≠ qc_job_id c →
                   served_before (p, qc_sequence c) e
  | Err _ => False
  end.
Proof using RedisLaws0.
  destruct (peek_spec r q Hr) as [[Hq ->]|(id & sc & seq & Hq & -> & Hbest)]; [done|].
  cbn. eauto.
Qed.

(** [enqueue] refines the abstract insertion: one entry per job, at the next
    sequence, and the returned candidate names it. *)
Theorem enqueue_refines r q id p (Hr : represents r q) (Hid : uuid_ok id)
    (Hn : counter r SEQUENCE_KEY + 1 < SEQ_BOUND) :
  let n := counter r SEQUENCE_KEY + 1 in
  ∃ r', enqueue id p r = (r', Ok (MkCandidate id (member n id) n)) ∧
        represents r' (a_enqueue id p n q) ∧ counter r' SEQUENCE_KEY = n.
Proof using RedisLaws0. by apply enqueue_spec. Qed.

(** A job enqueued now waits behind every queued job of at least its priority and
    goes ahead of every queued job of lower priority. *)
Theorem enqueue_is_fifo_within_priority r q id p id' p' seq'
    (Hr : represents r q) (Hid : uuid_ok id)
    (Hn : counter r SEQUENCE_KEY + 1 < SEQ_BOUND)
    (Hp : 0 ≤ p ≤ 100) (Hne : id' ≠ id) (Hq : q !! id' = Some (p', seq')) :
  ∃ r' q' mine, (enqueue id p r).1 = r' ∧ represents r' q' ∧
    q' !! id = Some mine ∧ q' !! id' = Some (p', seq') ∧
    (p ≤ p' → served_before (p', seq') mine) ∧
    (p' < p → served_before mine (p', seq')).
Proof using RedisLaws0.
  destruct (enqueue_spec r q id p Hr Hid Hn) as (r' & -> & Hr' & _).
  eexists r', _, _. split; [done|]. split; [exact Hr'|]. unfold a_enqueue.
  split; [apply lookup_insert_eq|]. split; [by rewrite lookup_insert_ne|].
  destruct (rep_wf _ _ Hr _ _ _ Hq) as (_ & _ & Hs & _). unfold served_before, effective.
  cbn. lia.
Qed.

(** Compare-and-delete: a cleanup holding a superseded token removes nothing and
    leaves the newer entry of the same job in place. *)
Theorem stale_remove_keeps_newer_entry r q id seq sc' seq'
    (Hr : represents r q) (Hs : 0 ≤ seq < SEQ_BOUND)
    (Hq : q !! id = Some (sc', seq')) (Hne : seq' ≠ seq) :
  ∃ r', remove (MkCandidate id (member seq id) seq) r = (r', Ok false) ∧ represents r' q.
Proof using RedisLaws0.
  destruct (rep_bounds _ _ _ _ _ Hr Hq) as [Hid _].
  destruct (remove_spec r q id seq Hr Hid Hs) as (r' & Hrem & Hr' & _).
  exists r'. unfold a_remove in Hr'. rewrite Hq in Hrem, Hr'.
  rewrite decide_False in Hr' by done. split; [|done]. rewrite Hrem. do 2 f_equal.
  apply bool_decide_false. cbn. naive_solver.
Qed.

(** Removing the token a job is queued under removes that job and no other. *)
Theorem remove_observed_entry r q id sc seq
    (Hr : represents r q) (Hq : q !! id = Some (sc, seq)) :
  ∃ r', remove (MkCandidate id (member seq id) seq) r = (r', Ok true) ∧
        represents r' (delete id q).
Proof using RedisLaws0.
  destruct (rep_bounds _ _ _ _ _ Hr Hq) as [Hid Hs].
  destruct (remove_spec r q id seq Hr Hid Hs) as (r' & Hrem & Hr' & _).
  exists r'. unfold a_remove in Hr'. rewrite Hq in Hrem, Hr'.
  rewrite decide_True in Hr' by done. split; [|done]. rewrite Hrem. do 2 f_equal.
  by apply bool_decide_true.
Qed.

(** [remove_current] against a concurrent re-enqueue of the same job: the lookup
    saw the old token, so the entry published in between survives. *)
Theorem remove_current_spares_concurrent_enqueue r q id p sc seq
    (Hr : represents r q) (Hq : q !! id = Some (sc, seq))
    (Hn : counter r SEQUENCE_KEY + 1 < SEQ_BOUND) :
  ∃ r', remove_current (λ r, (enqueue id p r).1) id r = (r', Ok false) ∧
        represents r' (a_enqueue id p (counter r SEQUENCE_KEY + 1) q).
Proof using RedisLaws0.
  destruct (rep_bounds _ _ _ _ _ Hr Hq) as [Hid Hs].
  destruct (rep_wf _ _ Hr _ _ _ Hq) as (_ & _ & Hle & _).
  unfold remove_current, current_member.
  rewrite hget_spec, (rep_lookup_hash r q id Hr Hid), Hq. cbn [fmap option_fmap option_map snd].
  rewrite from_member_member by done.
  destruct (enqueue_spec r q id p Hr Hid Hn) as (r1 & -> & Hr1 & _). cbn [fst].
  destruct (remove_spec r1 _ id seq Hr1 Hid Hs) as (r' & Hrem & Hr' & _).
  exists r'. unfold a_remove, a_enqueue in *. rewrite lookup_insert_eq in Hrem, Hr'.
  rewrite decide_False in Hr' by lia. split; [|done]. rewrite Hrem. do 2 f_equal.
  apply bool_decide_false. cbn. intros [= Heq]. lia.
Qed.

(** Asking for as many entries as there are drains the queue in service order. *)
Theorem peek_many_drains_in_order r q (Hr : represents r q) (Hne : q ≠ ∅) :
  ∃ l, service_order q l ∧ peek_many (size r) r = Ok (candidate_of <$> l).
Proof using RedisLaws0.
  rewrite (size_spec r q Hr). pose proof (proj2 (map_size_non_empty_iff q) Hne) as Hsz.
  assert (1 ≤ Z.of_nat (base.size q)) as Hpos by lia.
  destruct (peek_many_spec r q _ Hr Hpos) as (l & Hl & ->).
  exists l. split; [done|]. rewrite Nat2Z.id, take_ge; [done|].
  destruct Hl as [Hp _]. by rewrite Hp, length_map_to_list.
Qed.
End properties.

(** The padding covers 19 digits but Lua numbers stop being exact at 2^53: the next
    two sequences after that produce the same numeral, so a job enqueued later can
    sort ahead of one enqueued earlier at the same priority. *)
Theorem sequence_loses_fifo_beyond_doubles :
  let early := entry_member SEQUENCE_WIDTH (2 ^ 53) (show_uuid 1) in
  let late := entry_member SEQUENCE_WIDTH (2 ^ 53 + 1) (show_uuid 0) in
  2 ^ 53 + 1 < 2 ^ 63 ∧ String.compare late early = Lt.
Proof. vm_compute. done. Qed.

(** ** Witnesses *)

Definition demo_queue : MemRedis :=
  (enqueue 8 90 (enqueue 7 50 redis_empty).1).1.

Lemma demo_represents :
  represents demo_queue (a_enqueue 8 90 2 (a_enqueue 7 50 1 ∅)).
Proof.
  assert (represents redis_empty ∅) as H0 by (by apply represents_empty).
  destruct (enqueue_spec redis_empty ∅ 7 50 H0 ltac:(done) ltac:(done)) as (r1 & E1 & H1 & C1).
  destruct (enqueue_spec r1 _ 8 90 H1 ltac:(done)) as (r2 & E2 & H2 & C2).
  { rewrite C1. vm_compute. done. }
  unfold demo_queue. rewrite E1. cbn [fst]. rewrite E2. cbn [fst].
  rewrite C1 in H2. exact H2.
Qed.

Lemma peek_serves_best_witness :
  match peek demo_queue with
  | Ok (Some c) => qc_job_id c = 8 ∧ ∃ sc, a_enqueue 8 90 2 (a_enqueue 7 50 1 ∅) !! 8 = Some (sc, 2)
  | _ => False
  end.
Proof.
  pose proof (peek_serves_best demo_queue _ demo_represents) as H.
  destruct (peek demo_queue) as [[c|]|e] eqn:Hp; vm_compute in Hp; simplify_eq.
  split; [done|]. destruct H as (sc & H & _). exists sc. exact H.
Defined.

Lemma enqueue_refines_witness :
  ∃ r', enqueue 7 1 demo_queue = (r', Ok (MkCandidate 7 (member 3 7) 3)) ∧
        counter r' SEQUENCE_KEY = 3.
Proof.
  destruct (enqueue_refines demo_queue _ 7 1 demo_represents ltac:(done) ltac:(vm_compute; done))
    as (r' & H1 & _ & H2).
  exists r'. split; [exact H1|exact H2].
Defined.

Lemma enqueue_is_fifo_within_priority_witness :
  ∃ (q' : aqueue) mine theirs, q' !! 9 = Some mine ∧ q' !! 7 = Some theirs ∧ served_before theirs mine.
Proof.
  destruct (enqueue_is_fifo_within_priority demo_queue _ 9 50 7 50 1 demo_represents
              ltac:(done) ltac:(vm_compute; done) ltac:(lia) ltac:(done)
              ltac:(vm_compute; done)) as (r' & q' & mine & _ & _ & H1 & H2 & H3 & _).
  exists q', mine, (50, 1). split_and!; [done..|]. apply H3. lia.
Defined.

Lemma stale_remove_keeps_newer_entry_witness :
  ∃ r', remove (MkCandidate 8 (member 1 8) 1) demo_queue = (r', Ok false) ∧
        represents r' (a_enqueue 8 90 2 (a_enqueue 7 50 1 ∅)).
Proof.
  apply (stale_remove_keeps_newer_entry demo_queue _ 8 1 90 2 demo_represents); vm_compute; done.
Defined.

Lemma remove_observed_entry_witness :
  ∃ r', remove (MkCandidate 8 (member 2 8) 2) demo_queue = (r', Ok true) ∧
        represents r' (delete 8 (a_enqueue 8 90 2 (a_enqueue 7 50 1 ∅))).
Proof.
  apply (remove_observed_entry demo_queue _ 8 90 2 demo_represents). vm_compute. done.
Defined.

Lemma remove_current_spares_concurrent_enqueue_witness :
  ∃ r', remove_current (λ r, (enqueue 8 5 r).1) 8 demo_queue = (r', Ok false).
Proof.
  destruct (remove_current_spares_concurrent_enqueue demo_queue _ 8 5 90 2 demo_represents)
    as (r' & H & _); [vm_compute; done..|]. exists r'. exact H.
Defined.

Lemma peek_many_drains_in_order_witness :
  ∃ l, service_order (a_enqueue 8 90 2 (a_enqueue 7 50 1 ∅)) l ∧
       peek_many (size demo_queue) demo_queue = Ok (candidate_of <$> l).
Proof.
  apply (peek_many_drains_in_order demo_queue _ demo_represents). intros H.
  apply (f_equal (λ q, q !! 8)) in H. vm_compute in H. done.
Defined.
