(* ===== verification/Schemas.v ===== *)
(** * Schemas: requests, payload declarations and responses

    [app/schemas/jobs.py].  The payload classes are given as data (their fields,
    types and bounds).  Validation itself is pydantic's, which is not part of the
    repository: [model_validate], on a declared model and a JSON document, is a
    parameter of [validate_payload_for_type]; [Validation] states its laws. *)

From S2P Require Import Prelude.
From S2P Require Import Text.
From S2P Require Import Errors.
From S2P Require Import Model.
From S2P Require Import Config.

Local Open Scope Z_scope.

Definition MAX_PAGE_SIZE : Z := 100.
Definition DEFAULT_PAGE_SIZE : Z := 50.
Definition MIN_PRIORITY : Z := 0.
Definition MAX_PRIORITY : Z := 100.

Inductive JobType := EMAIL | WEBHOOK | REPORT | BATCH.
#[export] Instance JobType_eq_dec : EqDecision JobType.
Proof. solve_decision. Defined.

Definition jobtype_value (t : JobType) : string :=
  match t with
  | EMAIL => "email" | WEBHOOK => "webhook" | REPORT => "report" | BATCH => "batch"
  end.

(** [JobType(text)]; [None] is its [ValueError]. *)
Definition jobtype_of_value (s : string) : option JobType :=
  if decide (s = "email") then Some EMAIL
  else if decide (s = "webhook") then Some WEBHOOK
  else if decide (s = "report") then Some REPORT
  else if decide (s = "batch") then Some BATCH
  else None.

(** ** Payload models *)

Inductive ReportFormat := PDF | CSV.
Definition reportformat_value (f : ReportFormat) : string :=
  match f with PDF => "pdf" | CSV => "csv" end.

Inductive FieldType :=
  | FEmailStr | FHttpUrl | FStr | FReportFormat | FListAny.

Record FieldDecl := {
  fd_name : string;
  fd_type : FieldType;
  (** [T | None = None] *)
  fd_optional : bool;
  fd_min_length : option Z;
  fd_max_length : option Z
}.

Definition field (name : string) (t : FieldType) : FieldDecl :=
  {| fd_name := name; fd_type := t; fd_optional := false;
     fd_min_length := None; fd_max_length := None |}.

(** A payload class; [extra="forbid"] is shared by all of them. *)
Definition PayloadModel : Type := list FieldDecl.

Definition bounded (d : FieldDecl) (lo : Z) (hi : option Z) : FieldDecl :=
  {| fd_name := fd_name d; fd_type := fd_type d; fd_optional := fd_optional d;
     fd_min_length := Some lo; fd_max_length := hi |}.
Definition optional (d : FieldDecl) : FieldDecl :=
  {| fd_name := fd_name d; fd_type := fd_type d; fd_optional := true;
     fd_min_length := fd_min_length d; fd_max_length := fd_max_length d |}.

Definition EmailPayload : PayloadModel :=
  [field "to" FEmailStr; bounded (field "subject" FStr) 1 (Some 255);
   optional (field "body" FStr)].
Definition WebhookPayload : PayloadModel :=
  [field "url" FHttpUrl; optional (bounded (field "event" FStr) 1 (Some 255))].
Definition ReportPayload : PayloadModel :=
  [bounded (field "report_type" FStr) 1 (Some 255); field "format" FReportFormat].
Definition BatchPayload : PayloadModel :=
  [bounded (field "items" FListAny) 1 None].

Definition PAYLOAD_MODELS (t : JobType) : PayloadModel :=
  match t with
  | EMAIL => EmailPayload
  | WEBHOOK => WebhookPayload
  | REPORT => ReportPayload
  | BATCH => BatchPayload
  end.

(** One item of [ValidationError.errors()]: its [loc], pieces rendered, and [msg]. *)
Record ErrorItem := { ei_loc : list string; ei_msg : string }.

Fixpoint join (sep : string) (parts : list string) : string :=
  match parts with
  | [] => ""
  | [p] => p
  | p :: ps => p +:+ sep +:+ join sep ps
  end.

Definition format_payload_errors (errors : list ErrorItem) : string :=
  join "; " ((λ item,
    let location := join "." (ei_loc item) in
    (if decide (location = "") then "payload" else location) +:+ ": " +:+ ei_msg item) <$> errors).

Record JobCreateRequest := {
  req_type : JobType;
  req_payload : JSON;
  req_priority : Z;
  req_scheduled_at : option datetime
}.

Section validation.
(** Pydantic: the canonical JSON form of the document ([model_dump]), or errors. *)
Variable model_validate : PayloadModel → JSON → result (list ErrorItem) JSON.

Definition validate_payload_for_type (self : JobCreateRequest) : result exn JobCreateRequest :=
  let model := PAYLOAD_MODELS (req_type self) in
  match model_validate model (req_payload self) with
  | Err errors =>
      Err (ValueError ("invalid payload for job type '" +:+ jobtype_value (req_type self) +:+
                       "': " +:+ format_payload_errors errors))
  | Ok validated =>
      Ok {| req_type := req_type self; req_payload := validated;
            req_priority := req_priority self; req_scheduled_at := req_scheduled_at self |}
  end.
End validation.

(** [Field(default=0, ge=MIN_PRIORITY, le=MAX_PRIORITY)] and [AwareDatetime]. *)
Definition request_fields_ok (r : JobCreateRequest) : bool :=
  (MIN_PRIORITY <=? req_priority r) && (req_priority r <=? MAX_PRIORITY) &&
  match req_scheduled_at r with Some d => bool_decide (is_Some (utcoffset d)) | None => true end.

(** [JobResponse]: the public columns; ownership and idempotency stay internal. *)
Record JobResponse := {
  resp_id : uuid;
  resp_type : string;
  resp_payload : JSON;
  resp_status : JobStatus;
  resp_priority : Z;
  resp_attempt_count : Z;
  resp_max_attempts : Z;
  resp_progress : Z;
  resp_result : option JSON;
  resp_error : option string;
  resp_scheduled_at : option Z;
  resp_created_at : Z;
  resp_started_at : option Z;
  resp_completed_at : option Z
}.

Definition job_response (r : Job) : JobResponse := {|
  resp_id := job_id r; resp_type := job_type r; resp_payload := payload r;
  resp_status := status r; resp_priority := priority r;
  resp_attempt_count := attempt_count r; resp_max_attempts := max_attempts r;
  resp_progress := progress r; resp_result := job_result r; resp_error := job_error r;
  resp_scheduled_at := scheduled_at r; resp_created_at := created_at r;
  resp_started_at := started_at r; resp_completed_at := completed_at r
|}.

Record JobListResponse := {
  list_items : list JobResponse;
  list_total : Z;
  list_limit : Z;
  list_offset : Z
}.

Lemma jobtype_value_roundtrip t : jobtype_of_value (jobtype_value t) = Some t.
Proof. by destruct t. Qed.

Example format_two :
  format_payload_errors [{| ei_loc := ["items"; "0"]; ei_msg := "bad" |};
                         {| ei_loc := []; ei_msg := "worse" |}]
  = "items.0: bad; payload: worse".
Proof. reflexivity. Qed.
