(* ===== verification/Submission.v ===== *)
(** * Submission: creating jobs and idempotency keys

    [create_job] and [submit_job] of [app/services/job_service.py] with their
    helpers.  [create_job] is several statements; [Env] carries what happens around
    them: the clock readings of each helper, the generated id, and the commits of
    other sessions between two statements ([between_*]). *)

From S2P Require Import Prelude.
From S2P Require Import Text.
From S2P Require Import Errors.
From S2P Require Import Model.
From S2P Require Import Postgres.
From S2P Require Import MemDB.
From S2P Require Import Session.
From S2P Require Import Config.
From S2P Require Import Schemas.
From S2P Require Import Redis.
From S2P Require Import ReadyQueue.

Local Open Scope Z_scope.

(** [timedelta(hours=24)] *)
Definition IDEMPOTENCY_TTL : Z := 24 * 3600 * 1000000.
Definition DEFAULT_MAX_ATTEMPTS : Z := 3.
Definition IDEMPOTENCY_INDEX_NAME : string := "uq_jobs_idempotency_key_active".

(** [sub in s] *)
Fixpoint str_contains (sub s : string) : bool :=
  String.prefix sub s ||
  match s with EmptyString => false | String _ s' => str_contains sub s' end.

(** A falsy key ([None] or the empty string) is no key. *)
Definition truthy (key : option string) : option string :=
  match key with
  | Some k => if decide (k = "") then None else Some k
  | None => None
  end.

Definition is_idempotency_conflict (error : IntegrityError) : bool :=
  match truthy (orig_constraint error) with
  | Some c => bool_decide (c = IDEMPOTENCY_INDEX_NAME)
  | None =>
      match truthy (cause_constraint error) with
      | Some c => bool_decide (c = IDEMPOTENCY_INDEX_NAME)
      | None => str_contains IDEMPOTENCY_INDEX_NAME (orig_text error)
      end
  end.

(** The key is owned and has not expired. *)
Definition active_where (now : Z) (key : string) : list Cond :=
  [λ r, sql_eq (idempotency_key r) (Some key);
   λ r, sql_or (sql_is_null (idempotency_expires_at r))
               (sql_lt (Some now) (idempotency_expires_at r))].

Definition expired_key_where (now : Z) (key : string) : list Cond :=
  [λ r, sql_eq (idempotency_key r) (Some key);
   λ r, sql_is_not_null (idempotency_expires_at r);
   λ r, sql_le (idempotency_expires_at r) (Some now)].

(** [_build_job]: [now] is the application clock; the id and [created_at] are
    filled in at flush time. *)
Definition build_job (now : Z) (id : uuid) (created : Z)
    (request : JobCreateRequest) (key : option string) : result exn Job :=
  match (match req_scheduled_at request with
         | Some d => match to_utc d with Ok z => Ok (Some z) | Err e => Err e end
         | None => Ok None
         end) with
  | Err e => Err e
  | Ok scheduled =>
      let is_future := match scheduled with Some z => now <? z | None => false end in
      Ok {| job_id := id;
            job_type := jobtype_value (req_type request);
            payload := req_payload request;
            status := if is_future then SCHEDULED else PENDING;
            priority := req_priority request;
            attempt_count := 0;
            max_attempts := DEFAULT_MAX_ATTEMPTS;
            progress := 0;
            job_result := None;
            job_error := None;
            scheduled_at := scheduled;
            created_at := created;
            started_at := None;
            completed_at := None;
            worker_id := None;
            execution_token := None;
            lease_expires_at := None;
            idempotency_key := key;
            idempotency_expires_at :=
              match truthy key with Some _ => Some (now + IDEMPOTENCY_TTL) | None => None end |}
  end.

(** What surrounds one call of [create_job]. *)
Record Env (DB : Type) := {
  now_find : Z;
  now_release : Z;
  now_build : Z;
  now_reload : Z;
  db_now : Z;
  new_id : uuid;
  between_find_release : DB → DB;
  between_release_insert : DB → DB;
  between_conflict_reload : DB → DB
}.
Arguments now_find {DB}. Arguments now_release {DB}. Arguments now_build {DB}.
Arguments now_reload {DB}. Arguments db_now {DB}. Arguments new_id {DB}.
Arguments between_find_release {DB}. Arguments between_release_insert {DB}.
Arguments between_conflict_reload {DB}.

Section service.
Context {DB : Type} `{!Postgres DB}.

Definition find_active_by_key (now : Z) (key : string) : M DB (option Job) :=
  let! rs := execute_select ∅ (plain_query (active_where now key)) in
  ret (head rs).

Definition release_expired_key (now : Z) (key : string) : M DB unit :=
  do! execute_update (expired_key_where now key)
        [SetIdempotencyKey None; SetIdempotencyExpiresAt None] in
  ret tt.

(** [create_job] before the insert: the holder of a live key, or, after giving
    up an expired one, nothing. *)
Definition find_or_release (env : Env DB) (key : option string) : M DB (option Job) :=
  match truthy key with
  | Some k =>
      let! existing := find_active_by_key (now_find env) k in
      match existing with
      | Some _ => ret existing
      | None =>
          do! interfere (between_find_release env) in
          do! release_expired_key (now_release env) k in
          ret None
      end
  | None => ret None
  end.

(** Its [except IntegrityError] clause. *)
Definition resolve_conflict (env : Env DB) (key : option string) (error : exn)
    : M DB (Job * bool) :=
  match error with
  | IntegrityErrorExn e =>
      do! rollback in
      match truthy key with
      | Some k =>
          if is_idempotency_conflict e then
            do! interfere (between_conflict_reload env) in
            let! winner := find_active_by_key (now_reload env) k in
            match winner with
            | None => raise error
            | Some w => ret (w, false)
            end
          else raise error
      | None => raise error
      end
  | _ => raise error
  end.

Definition create_job (env : Env DB) (request : JobCreateRequest) (key : option string)
    : M DB (Job * bool) :=
  let! existing := find_or_release env key in
  match existing with
  | Some job => ret (job, false)
  | None =>
      let! job := lift (build_job (now_build env) (new_id env) (db_now env) request key) in
      do! interfere (between_release_insert env) in
      try_except
        (do! flush_insert job in
         do! commit in
         ret (job, true))
        (resolve_conflict env key)
  end.

(** [submit_job]: commit, then publish a new runnable job; [c] is what becomes of the
    connection to the database, [f] of the Redis call, whose failure is only logged. *)
Definition submit_job_over {R} `{!Redis R} (c : fault) (env : Env DB) (f : fault)
    (request : JobCreateRequest) (key : option string) (db : DB) (r : R)
    : DB * R * result exn (Job * bool) :=
  match db_call c (run_session (create_job env request key)) db with
  | (db', Err e) => (db', r, Err e)
  | (db', Ok (job, created)) =>
      if created && bool_decide (status job = PENDING) then
        let '(r', _) := call f (enqueue (job_id job) (priority job)) r in
        (db', r', Ok (job, created))
      else (db', r, Ok (job, created))
  end.

(** Over a connection that holds. *)
Definition submit_job {R} `{!Redis R} (env : Env DB) (f : fault)
    (request : JobCreateRequest) (key : option string) (db : DB) (r : R)
    : DB * R * result exn (Job * bool) :=
  submit_job_over no_fault env f request key db r.
End service.

(** ** Who holds a key *)

Definition holds_key (k : string) (r : Job) : Prop := idempotency_key r = Some k.

#[export] Instance holds_key_dec k r : Decision (holds_key k r).
Proof. unfold holds_key. apply _. Defined.

(** The key of the row is still valid at [now]; expired is the opposite. *)
Definition live (now : Z) (r : Job) : bool :=
  match idempotency_expires_at r with Some e => now <? e | None => true end.

Definition released_key (r : Job) : Job :=
  apply_values [SetIdempotencyKey None; SetIdempotencyExpiresAt None] r.

(** The table after expired holders of [k] gave it up. *)
Definition release_key (now : Z) (k : string) (t : table) : table :=
  update_rows (expired_key_where now k) [SetIdempotencyKey None; SetIdempotencyExpiresAt None] t.

Lemma holds_active now k r :
  holds (active_where now k) r = true ↔ holds_key k r ∧ live now r = true.
Proof.
  unfold active_where, holds_key, live. autorewrite with sql. unfold sql_eq.
  destruct (idempotency_key r) as [k'|], (idempotency_expires_at r); simpl;
    rewrite ?andb_true_r, ?bool_decide_eq_true, ?andb_true_iff, ?bool_decide_eq_true;
    naive_solver.
Qed.

Lemma holds_expired_key now k r :
  holds (expired_key_where now k) r = true ↔ holds_key k r ∧ live now r = false.
Proof.
  unfold expired_key_where, holds_key, live. autorewrite with sql. unfold sql_eq.
  destruct (idempotency_key r) as [k'|], (idempotency_expires_at r) as [e|]; simpl;
    rewrite ?andb_true_r, ?andb_false_r, ?andb_true_iff, ?bool_decide_eq_true, ?Z.leb_le, ?Z.ltb_ge;
    naive_solver.
Qed.

(** The driver named the idempotency index: the error is recognised. *)
Lemma named_is_conflict e :
  names_constraint e IDEMPOTENCY_INDEX → is_idempotency_conflict e = true.
Proof.
  unfold is_idempotency_conflict. intros [-> | [[-> | ->] ->]]; reflexivity.
Qed.

(** A request whose fields passed validation builds a row the table accepts. *)
Lemma build_job_spec now id created request key :
  request_fields_ok request = true → opt_ok (varchar_ok 255) key = true →
  ∃ job, build_job now id created request key = Ok job ∧ storable job = true ∧
    job_id job = id ∧ idempotency_key job = key ∧ priority job = req_priority request ∧
    payload job = req_payload request ∧ job_type job = jobtype_value (req_type request) ∧
    attempt_count job = 0 ∧ max_attempts job = 3 ∧ created_at job = created ∧
    (idempotency_expires_at job =
       match truthy key with Some _ => Some (now + IDEMPOTENCY_TTL) | None => None end) ∧
    (status job = SCHEDULED ∧ (∃ z, scheduled_at job = Some z ∧ now < z) ∨
     status job = PENDING ∧ (∀ z, scheduled_at job = Some z → z ≤ now)).
Proof.
  unfold request_fields_ok, MIN_PRIORITY, Schemas.MAX_PRIORITY. intros Hr Hk.
  apply andb_prop in Hr as [Hp Hd]. apply andb_prop in Hp as [Hp1 Hp2]. to_prop.
  assert (∃ sch, (match req_scheduled_at request with
         | Some d => match to_utc d with Ok z => Ok (Some z) | Err e => Err e end
         | None => Ok None
         end : result exn (option Z)) = Ok sch) as [sch Hs].
  { destruct (req_scheduled_at request) as [d|]; [|eauto].
    to_prop. destruct Hd as [o Ho]. unfold to_utc. rewrite Ho. eauto. }
  unfold build_job. rewrite Hs. eexists. split; [done|]. split.
  - apply storable_iff. cbn. unfold int4_ok. rewrite andb_true_iff, Z.leb_le, Z.ltb_lt.
    repeat split; try done; try lia. by destruct (req_type request).
  - cbn. do 9 (split; [done|]). destruct sch as [z|]; cbn; [|right; by split].
    destruct (now <? z) eqn:Hz; to_prop; [left|right]; (split; [done|]); [eauto|].
    by intros ? [= <-].
Qed.

Section specs.
Context {DB : Type} `{!Postgres DB, !PostgresLaws DB}.
Implicit Types db : DB.

(** A key has at most one holder. *)
Lemma key_holder_unique db k i j r r' :
  jobs_table db !! i = Some r → jobs_table db !! j = Some r' →
  holds_key k r → holds_key k r' → i = j.
Proof using PostgresLaws0.
  unfold holds_key. intros Hr Hr' Hk Hk'.
  pose proof (table_keys _ (pg_table_ok db) i r Hr j r' Hr') as H. simpl in H.
  destruct H as [|[|]]; congruence.
Qed.

Lemma find_active_some now k i r (s : Session DB) :
  jobs_table (working s) !! i = Some r → holds_key k r → live now r = true →
  find_active_by_key now k s = (s, Ok (Some r)).
Proof using PostgresLaws0.
  intros Hr Hk Hl. unfold find_active_by_key, bind, execute_select, ret.
  rewrite (plain_select_one _ _ i r); [done| |done|by apply holds_active].
  intros j r' Hj [Hk' _]%holds_active. by eapply key_holder_unique.
Qed.

Lemma find_active_none now k (s : Session DB) :
  (∀ i r, jobs_table (working s) !! i = Some r → holds_key k r → live now r = false) →
  find_active_by_key now k s = (s, Ok None).
Proof using PostgresLaws0.
  intros Hno. unfold find_active_by_key, bind, execute_select, ret.
  rewrite plain_select_none; [done|]. intros i r Hr.
  destruct (holds (active_where now k) r) eqn:Hh; [|done].
  apply holds_active in Hh as [Hk Hl]. by rewrite (Hno i r Hr Hk) in Hl.
Qed.

(** Releasing never fails; it clears the key of its expired holder only. *)
Lemma release_expired_spec now k (s : Session DB) :
  ∃ db', release_expired_key now k s = (mk_session (committed s) db', Ok tt) ∧
         jobs_table db' = release_key now k (jobs_table (working s)).
Proof using PostgresLaws0.
  destruct (pg_update_ok (expired_key_where now k)
              [SetIdempotencyKey None; SetIdempotencyExpiresAt None] (working s))
    as (db' & rs & Hu & Ht & _).
  { apply update_rows_ok; [apply pg_table_ok| |].
    - intros i r Hr%table_storable _. rewrite storable_iff in *. cbn. tauto.
    - intros r. by right. }
  exists db'. split; [|done]. unfold release_expired_key, bind, execute_update, ret.
  by rewrite Hu.
Qed.

Lemma lookup_release_key now k t i :
  release_key now k t !! i =
  (λ r, if decide (holds_key k r ∧ live now r = false) then released_key r else r) <$> t !! i.
Proof using Type.
  unfold release_key. rewrite lookup_update_rows. destruct (t !! i) as [r|]; simpl; [|done].
  f_equal. pose proof (holds_expired_key now k r). by destruct (holds _ r), decide; try naive_solver.
Qed.

(** No holder of the key, live at [now], is left after a release at [now]. *)
Lemma release_key_frees now k t i r :
  (∀ j r', t !! j = Some r' → holds_key k r' → live now r' = false) →
  release_key now k t !! i = Some r → ¬ holds_key k r.
Proof using Type.
  rewrite lookup_release_key. intros Hno (r0 & Hr0 & ->)%fmap_Some Hk.
  case_decide as Hd; [done|]. by destruct Hd; eauto.
Qed.

(** The row inserted when its id and key are free. *)
Lemma insert_fresh db job :
  jobs_table db !! job_id job = None → storable job = true →
  (∀ i r, jobs_table db !! i = Some r →
     idempotency_key job = None ∨ idempotency_key r ≠ idempotency_key job) →
  ∃ db', pg_insert job db = Ok db' ∧ jobs_table db' = <[job_id job := job]> (jobs_table db).
Proof using PostgresLaws0.
  intros Hid Hst Hkey. pose proof (pg_insert_spec job db) as H.
  destruct (pg_insert job db) as [db'|e]; [naive_solver|]. destruct H as [Hbad _].
  exfalso. apply (Hbad Hid). destruct (pg_table_ok db) as [Hids Hrows Hkeys]. split.
  - apply map_Forall_insert_2; done.
  - apply map_Forall_insert_2; done.
  - intros i r Hi j r' Hj.
    apply lookup_insert_Some in Hi as [[<- <-]|[Hi Hr]], Hj as [[<- <-]|[Hj Hr']];
      [by left| | |by apply (Hkeys i r Hr j r' Hr')];
      right; [destruct (Hkey j r' Hr')|destruct (Hkey i r Hr)]; [tauto|right; congruence| |].
    + destruct (idempotency_key r); [right; congruence|by left].
    + by right.
Qed.

(** The row rejected because its key is held. *)
Lemma insert_conflict db job k i r :
  jobs_table db !! job_id job = None → storable job = true →
  idempotency_key job = Some k → jobs_table db !! i = Some r → holds_key k r →
  ∃ e, pg_insert job db = Err (PgIntegrity e) ∧ is_idempotency_conflict e = true.
Proof using PostgresLaws0.
  intros Hid Hst Hkey Hr Hk. pose proof (pg_insert_spec job db) as H.
  destruct (pg_insert job db) as [db'|e].
  - destruct H as [_ Ht]. exfalso. pose proof (table_keys _ (pg_table_ok db')) as Hu.
    rewrite Ht in Hu. assert (i ≠ job_id job) as Hne by (intros ->; congruence).
    pose proof (Hu i r) as Hu'. rewrite lookup_insert_ne in Hu' by done.
    specialize (Hu' Hr (job_id job) job (lookup_insert_eq _ _ _)). simpl in Hu'.
    unfold holds_key in Hk. rewrite Hk, Hkey in Hu'. destruct Hu' as [|[|]]; congruence.
  - destruct H as [_ H]. destruct (H Hid Hst) as (e' & -> & Hn).
    exists e'. split; [done|]. by apply named_is_conflict.
Qed.
End specs.

(** ** [create_job] *)

(** Nobody commits between the statements. *)
Record alone {DB} (env : Env DB) : Prop := {
  alone_1 d : between_find_release env d = d;
  alone_2 d : between_release_insert env d = d;
  alone_3 d : between_conflict_reload env d = d
}.

(** The rows after an expired holder of the submitted key gave it up. *)
Definition after_release {DB} (env : Env DB) (key : option string) (t : table) : table :=
  match truthy key with Some k => release_key (now_release env) k t | None => t end.

Section create.
Context {DB : Type} `{!Postgres DB, !PostgresLaws DB}.
Implicit Types db : DB.

(** A live key: the existing job is the answer and nothing is written. *)
Lemma create_replay env request k i r db :
  k ≠ "" → jobs_table db !! i = Some r → holds_key k r → live (now_find env) r = true →
  run_session (create_job env request (Some k)) db = (db, Ok (r, false)).
Proof using PostgresLaws0.
  intros Hk Hr Hkey Hl. unfold run_session, create_job, find_or_release. simpl truthy.
  rewrite decide_False by done. unfold bind.
  by rewrite (find_active_some _ _ i r).
Qed.

(** Nobody holds a live key: the statements before the insert. *)
Lemma create_new env request key job db :
  key ≠ Some "" → alone env → now_find env ≤ now_release env →
  (∀ k i r, key = Some k → jobs_table db !! i = Some r → holds_key k r →
            live (now_find env) r = false) →
  build_job (now_build env) (new_id env) (db_now env) request key = Ok job →
  storable job = true → job_id job = new_id env → idempotency_key job = key →
  jobs_table db !! new_id env = None →
  ∃ db', run_session (create_job env request key) db = (db', Ok (job, true)) ∧
         jobs_table db' = <[new_id env := job]> (after_release env key (jobs_table db)).
Proof using PostgresLaws0.
  intros Hkey Ha Hclock Hfree Hb Hst Hid Hjk Hnew. unfold after_release.
  destruct key as [k|]; simpl truthy.
  - rewrite decide_False by congruence.
    assert (∀ i r, jobs_table db !! i = Some r → holds_key k r →
                   live (now_release env) r = false) as Hfree'.
    { intros i r Hr Hk. pose proof (Hfree k i r eq_refl Hr Hk) as H. unfold live in *.
      case_match; [|done]. to_prop. apply Z.ltb_ge. lia. }
    destruct (release_expired_spec (now_release env) k (mk_session db db)) as (db1 & Hrel & Ht1).
    simpl in Ht1.
    destruct (insert_fresh db1 job) as (db2 & Hins & Ht2); [|done| |].
    { by rewrite Hid, Ht1, lookup_release_key, Hnew. }
    { intros i r. rewrite Ht1. intros Hr. right. rewrite Hjk.
      eapply (release_key_frees _ _ _ _ _ Hfree'), Hr. }
    exists db2. rewrite Ht2, Hid, Ht1. split; [|done].
    unfold run_session, create_job, find_or_release. simpl truthy. rewrite decide_False by congruence.
    unfold bind. rewrite (find_active_none _ _ (mk_session db db)) by (simpl; eauto).
    unfold interfere. simpl committed. simpl working. rewrite !(alone_1 _ Ha), Hrel.
    cbv [ret lift]. rewrite Hb. simpl. rewrite !(alone_2 _ Ha).
    unfold try_except, flush_insert. simpl. by rewrite Hins.
  - destruct (insert_fresh db job) as (db2 & Hins & Ht2); [by rewrite Hid|done|by left|].
    exists db2. rewrite Ht2, Hid. split; [|done].
    unfold run_session, create_job, find_or_release, bind. simpl. cbv [ret lift]. rewrite Hb. simpl.
    rewrite !(alone_2 _ Ha). unfold try_except, flush_insert. simpl. by rewrite Hins.
Qed.

(** Another session commits a job with the key before the insert: the insert is
    rejected, everything is rolled back and the winner is the answer. *)
Lemma create_lost_race env request k job i r t' db :
  k ≠ "" → (∀ d, between_find_release env d = d) → (∀ d, between_conflict_reload env d = d) →
  (∀ i r, jobs_table db !! i = Some r → ¬ holds_key k r) →
  (∀ d, jobs_table d = jobs_table db → jobs_table (between_release_insert env d) = t') →
  t' !! i = Some r → holds_key k r → live (now_reload env) r = true →
  build_job (now_build env) (new_id env) (db_now env) request (Some k) = Ok job →
  storable job = true → job_id job = new_id env → idempotency_key job = Some k →
  t' !! new_id env = None →
  ∃ db', run_session (create_job env request (Some k)) db = (db', Ok (r, false)) ∧
         jobs_table db' = t'.
Proof using PostgresLaws0.
  intros Hk Ha1 Ha3 Hfree Hg Hr Hkr Hl Hb Hst Hid Hjk Hnew.
  destruct (release_expired_spec (now_release env) k (mk_session db db)) as (db1 & Hrel & Ht1).
  simpl in Ht1.
  assert (jobs_table db1 = jobs_table db) as Ht1'.
  { rewrite Ht1. apply map_eq. intros j. rewrite lookup_release_key.
    destruct (jobs_table db !! j) as [r'|] eqn:Hj; simpl; [|done].
    rewrite decide_False; [done|]. intros [Hk' _]. by eapply Hfree. }
  pose proof (Hg db eq_refl) as Hg1. pose proof (Hg db1 Ht1') as Hg2.
  destruct (insert_conflict (between_release_insert env db1) job k i r)
    as (e & Hins & Hconf); [by rewrite Hg2, Hid|done|done|by rewrite Hg2|done|].
  exists (between_release_insert env db). split; [|done].
  unfold run_session, create_job, find_or_release. simpl truthy. rewrite decide_False by done.
  unfold bind. rewrite (find_active_none _ _ (mk_session db db)).
  2:{ intros j r' Hj Hk'. by destruct (Hfree _ _ Hj Hk'). }
  unfold interfere. simpl committed. simpl working. rewrite !Ha1, Hrel.
  cbv [ret lift]. rewrite Hb. simpl. unfold try_except, flush_insert. simpl.
  rewrite Hins. simpl. unfold resolve_conflict, bind. simpl.
  rewrite decide_False by done. rewrite Hconf. simpl. rewrite !Ha3.
  assert (head (pg_select ∅ (plain_query (active_where (now_reload env) k))
                  (between_release_insert env db)) = Some r) as ->; [|done].
  rewrite (plain_select_one _ _ i r); [done| |by rewrite Hg1|by apply holds_active].
  intros j r' Hj [Hk' _]%holds_active. rewrite <-Hg1 in Hr. by eapply key_holder_unique.
Qed.

Lemma find_active_quiet now k : quiet (find_active_by_key (DB := DB) now k).
Proof using Type. unfold find_active_by_key. auto with session. Qed.

Lemma find_or_release_quiet env key : alone env → quiet (find_or_release env key).
Proof using Type.
  intros [H1 _ _]. unfold find_or_release. case_match; [|auto with session].
  apply quiet_bind; [apply find_active_quiet|].
  intros [|]; unfold release_expired_key; auto 10 with session.
Qed.

Lemma resolve_conflict_quiet env key e : alone env → quiet (resolve_conflict env key e).
Proof using Type.
  intros [_ _ H3]. unfold resolve_conflict. case_match; auto with session.
  apply quiet_bind; [auto with session|]. intros _. repeat case_match; auto with session.
  apply quiet_bind; [auto with session|]. intros _.
  apply quiet_bind; [apply find_active_quiet|]. intros [|]; auto with session.
Qed.

(** A [create_job] that raises has published nothing. *)
Lemma create_all_or_nothing env request key :
  alone env → all_or_nothing (create_job env request key).
Proof using Type.
  intros Ha. unfold create_job.
  apply aon_bind; [by apply find_or_release_quiet|].
  intros [job|]; [apply aon_quiet; auto with session|].
  apply aon_bind; [auto with session|]. intros job.
  apply aon_bind; [destruct Ha; auto with session|]. intros _.
  apply aon_try; [apply aon_bind; auto with session|].
  intros e. by apply aon_quiet, resolve_conflict_quiet.
Qed.

Lemma find_or_release_table env key db :
  alone env →
  match find_or_release env key (mk_session db db) with
  | (s, Ok None) => jobs_table (working s) = after_release env key (jobs_table db)
  | _ => True
  end.
Proof using PostgresLaws0.
  intros [A1 _ _]. unfold find_or_release, after_release.
  destruct (truthy key) as [k|]; [|done].
  unfold bind at 1, find_active_by_key, bind at 1, execute_select, ret. simpl.
  destruct (head _) as [job|]; [done|]. unfold bind, interfere. simpl. rewrite !A1.
  destruct (release_expired_spec (now_release env) k (mk_session db db)) as (db1 & -> & Ht). done.
Qed.

(** The loser of a race created nothing. *)
Lemma resolve_conflict_creates_nothing env key e (s : Session DB) job :
  (resolve_conflict env key e s).2 ≠ Ok (job, true).
Proof using Type.
  unfold resolve_conflict, raise, bind. destruct e; try done. cbn.
  destruct (truthy key); [|done]. destruct (is_idempotency_conflict e); [|done]. cbn.
  by repeat case_match; cbn; simplify_eq.
Qed.

(** Whatever the request, a lone [create_job] leaves the table alone or inserts the
    built job over the released table. *)
Lemma create_job_cases env request key db db' res :
  alone env → run_session (create_job env request key) db = (db', res) →
  (jobs_table db' = jobs_table db ∧ ∀ job, res ≠ Ok (job, true)) ∨
  ∃ job, build_job (now_build env) (new_id env) (db_now env) request key = Ok job ∧
    job_id job = new_id env ∧ res = Ok (job, true) ∧
    jobs_table db !! new_id env = None ∧
    jobs_table db' = <[new_id env := job]> (after_release env key (jobs_table db)).
Proof using PostgresLaws0.
  intros Ha. unfold run_session, create_job, bind at 1.
  pose proof (find_or_release_quiet env key Ha (mk_session db db)) as Hc.
  pose proof (find_or_release_table env key db Ha) as Ht.
  destruct (find_or_release env key (mk_session db db)) as [[c1 w1] [[job|]|e]]; simpl in Hc, Ht;
    subst c1; [intros [= <- <-]; by left| |intros [= <- <-]; by left].
  unfold bind at 1, lift.
  destruct (build_job _ _ _ request key) as [job|e] eqn:Hb; [|intros [= <- <-]; by left].
  assert (job_id job = new_id env) as Hid.
  { revert Hb. unfold build_job. repeat case_match; intros; by simplify_eq. }
  unfold bind at 1, interfere. simpl. rewrite !(alone_2 _ Ha).
  unfold try_except, bind, flush_insert. simpl.
  pose proof (pg_insert_spec job w1) as Hins. destruct (pg_insert job w1) as [db2|e]; simpl.
  - destruct Hins as [Hnew Hins]. intros [= <- <-]. right. exists job. rewrite <-Hid.
    do 3 (split; [done|]). rewrite Hins, Ht. split; [|done].
    rewrite Ht in Hnew. unfold after_release in Hnew. case_match; [|done].
    rewrite lookup_release_key in Hnew. by destruct (jobs_table db !! job_id job).
  - pose proof (resolve_conflict_quiet env key (exn_of_pg e) Ha (mk_session db w1)) as Hq.
    pose proof (resolve_conflict_creates_nothing env key (exn_of_pg e) (mk_session db w1)) as Hc.
    destruct (resolve_conflict _ _ _ _) as [s r]. simpl in Hq, Hc. intros [= <- <-]. left.
    split; [by rewrite Hq|exact Hc].
Qed.
End create.

(** ** Properties *)

Section properties.
Context {DB : Type} `{!Postgres DB, !PostgresLaws DB} {R : Type} `{!Redis R, !RedisLaws R}.
Implicit Types (db : DB) (r : R).

(** Replaying a live key: the job that holds it is returned as not created, the
    database is untouched and nothing is queued, whatever the request says. *)
Theorem submit_replay_changes_nothing env f request k i job db r
    (Hk : k ≠ "") (Hjob : jobs_table db !! i = Some job) (Hkey : holds_key k job)
    (Hlive : live (now_find env) job = true) :
  submit_job env f request (Some k) db r = (db, r, Ok (job, false)).
Proof using PostgresLaws0.
  unfold submit_job, submit_job_over. cbn [db_call]. by rewrite (create_replay env request k i job).
Qed.

(** A new submission stores its row with a fresh attempt budget, SCHEDULED exactly when
    its time is in the future. *)
Lemma create_stores env request key db :
  request_fields_ok request = true → opt_ok (varchar_ok 255) key = true → key ≠ Some "" →
  alone env → now_find env ≤ now_release env →
  (∀ k i job, key = Some k → jobs_table db !! i = Some job → holds_key k job →
     live (now_find env) job = false) →
  jobs_table db !! new_id env = None →
  ∃ job db', run_session (create_job env request key) db = (db', Ok (job, true)) ∧
    jobs_table db' = <[new_id env := job]> (after_release env key (jobs_table db)) ∧
    job_id job = new_id env ∧ attempt_count job = 0 ∧ max_attempts job = 3 ∧
    priority job = req_priority request ∧ idempotency_key job = key ∧
    (status job = SCHEDULED ∧ (∃ z, scheduled_at job = Some z ∧ now_build env < z) ∨
     status job = PENDING ∧ (∀ z, scheduled_at job = Some z → z ≤ now_build env)).
Proof using PostgresLaws0.
  intros Hreq Hlen Hkey Halone Hclock Hfree Hnew.
  destruct (build_job_spec (now_build env) (new_id env) (db_now env) request key Hreq Hlen)
    as (job & Hb & Hst & Hid & Hjk & Hpr & _ & _ & Hac & Hma & _ & _ & Hstatus).
  destruct (create_new env request key job db) as (db' & Hrun & Ht); [done..|].
  exists job, db'. repeat (split; [done|]). done.
Qed.

(** A submission that finds only an expired holder of its key takes the key over;
    the old job keeps everything else. *)
Theorem expired_key_is_reassigned env request k i old db
    (Hreq : request_fields_ok request = true) (Hlen : varchar_ok 255 k = true)
    (Hk : k ≠ "") (Halone : alone env) (Hclock : now_find env ≤ now_release env)
    (Hold : jobs_table db !! i = Some old) (Hkey : holds_key k old)
    (Hexp : live (now_find env) old = false)
    (Hnew : jobs_table db !! new_id env = None) :
  ∃ job old' db', run_session (create_job env request (Some k)) db = (db', Ok (job, true)) ∧
    jobs_table db' = <[new_id env := job]> (<[i := old']> (jobs_table db)) ∧
    holds_key k job ∧ idempotency_key old' = None ∧
    status old' = status old ∧ attempt_count old' = attempt_count old ∧
    job_response old' = job_response old.
Proof using PostgresLaws0.
  destruct (build_job_spec (now_build env) (new_id env) (db_now env) request (Some k) Hreq Hlen)
    as (job & Hb & Hst & Hid & Hjk & _).
  destruct (create_new env request (Some k) job db) as (db' & Hrun & Ht); try done.
  { congruence. }
  { intros k' j r' [= <-] Hj Hk'. rewrite (key_holder_unique _ _ _ _ _ _ Hold Hj Hkey Hk') in Hold.
    by simplify_eq. }
  exists job, (released_key old), db'. split; [done|]. split; [|done]. rewrite Ht. f_equal.
  unfold after_release. simpl truthy. rewrite decide_False by done.
  apply map_eq. intros j. rewrite lookup_release_key, lookup_insert. case_decide as Hj.
  - subst j. rewrite Hold. simpl. rewrite decide_True; [done|]. split; [done|].
    unfold live in *. case_match; [|done]. to_prop. apply Z.ltb_ge. lia.
  - destruct (jobs_table db !! j) as [r'|] eqn:Hr'; simpl; [|done].
    rewrite decide_False; [done|]. intros [Hk' _]. apply Hj.
    by eapply key_holder_unique.
Qed.

(** C22: Two overlapping submissions of one key create one job: the request whose
    insert comes second is rejected by the index, rolls back and answers with the
    winner's job; the database holds the winner's commit and nothing else. *)
Theorem lost_race_returns_the_winner env request k i winner t' db
    (Hreq : request_fields_ok request = true) (Hlen : varchar_ok 255 k = true) (Hk : k ≠ "")
    (Ha1 : ∀ d, between_find_release env d = d) (Ha3 : ∀ d, between_conflict_reload env d = d)
    (Hfree : ∀ j job, jobs_table db !! j = Some job → ¬ holds_key k job)
    (Hwins : ∀ d, jobs_table d = jobs_table db → jobs_table (between_release_insert env d) = t')
    (Hw : t' !! i = Some winner) (Hkey : holds_key k winner)
    (Hlive : live (now_reload env) winner = true) (Hnew : t' !! new_id env = None) :
  ∃ db', run_session (create_job env request (Some k)) db = (db', Ok (winner, false)) ∧
         jobs_table db' = t'.
Proof using PostgresLaws0.
  destruct (build_job_spec (now_build env) (new_id env) (db_now env) request (Some k) Hreq Hlen)
    as (job & Hb & Hst & Hid & Hjk & _).
  by apply (create_lost_race env request k job i winner t').
Qed.

(** C23: A key names one job for 24 hours: a second submission of it, whatever it asks
    for, answers with the first job and leaves the database as it is, up to the
    microsecond the key expires. *)
Theorem key_names_one_job_for_24h env env' f request request' k db r
    (Hreq : request_fields_ok request = true) (Hlen : varchar_ok 255 k = true)
    (Hk : k ≠ "") (Halone : alone env) (Hclock : now_find env ≤ now_release env)
    (Hfree : ∀ i job, jobs_table db !! i = Some job → holds_key k job →
                      live (now_find env) job = false)
    (Hnew : jobs_table db !! new_id env = None)
    (Hlater : now_find env' < now_build env + 24 * 3600 * 1000000) :
  ∃ job db', run_session (create_job env request (Some k)) db = (db', Ok (job, true)) ∧
    job_id job = new_id env ∧
    submit_job env' f request' (Some k) db' r = (db', r, Ok (job, false)).
Proof using PostgresLaws0.
  destruct (build_job_spec (now_build env) (new_id env) (db_now env) request (Some k) Hreq Hlen)
    as (job & Hb & Hst & Hid & Hjk & _ & _ & _ & _ & _ & _ & Hexp & _).
  destruct (create_new env request (Some k) job db) as (db' & Hrun & Ht); try done.
  { congruence. }
  { intros k' j r' [= <-]. by apply Hfree. }
  exists job, db'. do 2 (split; [done|]). unfold submit_job, submit_job_over. cbn [db_call].
  rewrite (create_replay env' request' k (new_id env) job); [done|done| |done|].
  - by rewrite Ht, lookup_insert_eq.
  - unfold live. rewrite Hexp. simpl truthy. rewrite decide_False by done.
    apply Z.ltb_lt. unfold IDEMPOTENCY_TTL. lia.
Qed.

(** A submission that fails, for whatever reason, leaves the database exactly as
    it was and queues nothing. *)
Theorem failed_submission_leaves_no_trace env f request key db db' r r' e
    (Halone : alone env) (Hfail : submit_job env f request key db r = (db', r', Err e)) :
  db' = db ∧ r' = r.
Proof using PostgresLaws0.
  unfold submit_job, submit_job_over in Hfail. cbn [db_call] in Hfail.
  destruct (run_session (create_job env request key) db) as [d res] eqn:Hrun.
  assert (res = Err e ∧ d = db' ∧ r' = r) as (-> & -> & ->) by (repeat case_match; by simplify_eq).
  split; [|done]. eapply run_all_or_nothing, Hrun. by apply create_all_or_nothing.
Qed.
End properties.

(** ** Witnesses *)

Definition demo_request : JobCreateRequest :=
  {| req_type := EMAIL; req_payload := JObj [("to", JStr "a@example.com")];
     req_priority := 5; req_scheduled_at := None |}.

Definition demo_env (now : Z) (id : uuid) : Env MemDB :=
  {| now_find := now; now_release := now; now_build := now; now_reload := now; db_now := now;
     new_id := id; between_find_release := λ d, d; between_release_insert := λ d, d;
     between_conflict_reload := λ d, d |}.

Lemma demo_alone now id : alone (demo_env now id).
Proof. by split. Qed.

(** The other request commits first. *)
Definition racing_env (now : Z) (id other : uuid) : Env MemDB :=
  {| now_find := now; now_release := now; now_build := now; now_reload := now; db_now := now;
     new_id := id; between_find_release := λ d, d;
     between_release_insert := λ d,
       (run_session (create_job (demo_env now other) demo_request (Some "k")) d).1;
     between_conflict_reload := λ d, d |}.

(** No row of the demo table holds the key, or its holder is expired. *)
Ltac by_demo_rows :=
  intros; rewrite ?demo_db_table in *; unfold demo_table, holds_key in *; simplify_eq;
  repeat match goal with
  | H : <[_ := _]> _ !! _ = Some _ |- _ => apply lookup_insert_Some in H as [[<- <-]|[_ H]]
  | H : {[ _ := _ ]} !! _ = Some _ |- _ => apply lookup_singleton_Some in H as [<- <-]
  end; try done.

Lemma submit_replay_changes_nothing_witness :
  submit_job (demo_env 2000 11) reply_lost demo_request (Some "order-1") demo_db demo_queue =
  (demo_db, demo_queue, Ok (demo_pending, false)).
Proof.
  apply (submit_replay_changes_nothing _ _ _ "order-1" 7 demo_pending); vm_compute; done.
Defined.

Lemma expired_key_is_reassigned_witness :
  ∃ job old' db', run_session (create_job (demo_env 90000000000 11) demo_request (Some "order-1"))
                    demo_db = (db', Ok (job, true)) ∧
    holds_key "order-1" job ∧ idempotency_key old' = None.
Proof.
  destruct (expired_key_is_reassigned (demo_env 90000000000 11) demo_request "order-1" 7 demo_pending
              demo_db ltac:(done) ltac:(done) ltac:(done) (demo_alone _ _) ltac:(done)
              ltac:(vm_compute; done) ltac:(done) ltac:(done) ltac:(vm_compute; done))
    as (job & old' & db' & H1 & _ & H2 & H3 & _).
  exists job, old', db'. by split.
Defined.

Definition other_job : Job :=
  match build_job 2000 12 2000 demo_request (Some "k") with Ok j => j | Err _ => demo_pending end.

Lemma lost_race_returns_the_winner_witness :
  ∃ db', run_session (create_job (racing_env 2000 11 12) demo_request (Some "k")) mem_empty =
           (db', Ok (other_job, false)) ∧ jobs_table db' = {[ 12 := other_job ]}.
Proof.
  apply (lost_race_returns_the_winner (racing_env 2000 11 12) demo_request "k" 12 other_job
           {[ 12 := other_job ]} mem_empty); try done.
  intros d Hd.
  destruct (create_new (demo_env 2000 12) demo_request (Some "k") other_job d) as (d' & Hrun & Ht);
    try (done || apply demo_alone || (intros *; by rewrite Hd)).
  cbn [between_release_insert racing_env]. rewrite Hrun. cbn [fst]. rewrite Ht. by rewrite Hd.
Defined.

Lemma key_names_one_job_for_24h_witness :
  ∃ job db', submit_job (demo_env 86400001999 12) no_fault demo_request (Some "k") db' demo_queue =
    (db', demo_queue, Ok (job, false)) ∧ job_id job = 11.
Proof.
  destruct (key_names_one_job_for_24h (demo_env 2000 11) (demo_env 86400001999 12) no_fault
              demo_request demo_request "k" demo_db demo_queue ltac:(done) ltac:(done) ltac:(done)
              (demo_alone _ _) ltac:(done)) as (job & db' & _ & H1 & H2).
  - by_demo_rows.
  - vm_compute. done.
  - done.
  - exists job, db'. by split.
Defined.

Lemma failed_submission_leaves_no_trace_witness :
  ∃ db' r' e, submit_job (demo_env 2000 11) no_fault
      {| req_type := EMAIL; req_payload := JNull; req_priority := 2 ^ 31;
         req_scheduled_at := None |} None demo_db demo_queue = (db', r', Err e) ∧
    db' = demo_db ∧ r' = demo_queue.
Proof.
  destruct (submit_job (demo_env 2000 11) no_fault
      {| req_type := EMAIL; req_payload := JNull; req_priority := 2 ^ 31;
         req_scheduled_at := None |} None demo_db demo_queue) as [[db' r'] [x|e]] eqn:E.
  - exfalso. apply (f_equal snd) in E. vm_compute in E. done.
  - exists db', r', e. split; [done|].
    eapply (failed_submission_leaves_no_trace _ _ _ _ demo_db); [apply demo_alone|exact E].
Defined.
