(* ===== verification/Mutations.v ===== *)
(** * Mutations: cancelling a job and retrying a failed one

    [cancel_job], [_remove_ready_entry] and [retry_job] of
    [app/services/job_service.py].  Each commits its conditional UPDATE before it
    does anything else, so its session is two transactions one after the other;
    [between] is what other sessions commit between the two, and [f] what becomes
    of the Redis call, whose failure is only logged.  A connection to the database that
    breaks ends the call with the driver's error. *)

From S2P Require Import Prelude.
From S2P Require Import Text.
From S2P Require Import Errors.
From S2P Require Import Model.
From S2P Require Import Postgres.
From S2P Require Import MemDB.
From S2P Require Import Session.
From S2P Require Import RetryPolicy.
From S2P Require Import Config.
From S2P Require Import Ownership.
From S2P Require Import Redis.
From S2P Require Import ReadyQueue.
From Stdlib Require Import QArith.

Local Open Scope Z_scope.

Definition CANCELLABLE : list JobStatus := [PENDING; SCHEDULED].

Definition cancel_where (id : uuid) : list Cond :=
  [λ r, sql_eq (Some (job_id r)) (Some id); λ r, sql_in (status r) CANCELLABLE].

Definition cancel_values : list Assign := SetStatus CANCELLED :: RELEASED_OWNERSHIP.

Definition retry_where (id : uuid) : list Cond :=
  [λ r, sql_eq (Some (job_id r)) (Some id); λ r, sql_eq (Some (status r)) (Some FAILED)].

Definition retry_job_values : list Assign :=
  [SetStatus PENDING;
   SetAttemptCount (λ _, 0);
   SetProgress 0;
   SetError None;
   SetResult None;
   SetCompletedAt None;
   SetStartedAt None;
   SetScheduledAt None] ++ RELEASED_OWNERSHIP.

Section service.
Context {DB : Type} `{!Postgres DB} {R : Type} `{!Redis R}.

(** [between] runs between the two round trips of [remove_current]. *)
Definition remove_ready_entry (f : fault) (between : R → R) (id : uuid) (r : R) : R :=
  match call f (remove_current between id) r with
  | (r', Ok _) => r'
  | (r', Err _) => r'
  end.

(** The UPDATE of [cancel_job], committed; the job when it matched. *)
Definition cancel_transaction (id : uuid) : M DB (option Job) :=
  let! rs := execute_update (cancel_where id) cancel_values in
  do! commit in ret (head rs).

(** The UPDATE of [retry_job]. *)
Definition retry_transaction (id : uuid) : M DB (option Job) :=
  let! rs := execute_update (retry_where id) retry_job_values in
  do! commit in ret (head rs).

(** [c1] and [c2] are what becomes of the two database calls. *)
Definition cancel_job_over (c1 c2 : fault) (between : DB → DB) (f : fault)
    (between_redis : R → R) (id : uuid) (db : DB) (r : R) : DB * R * result exn Job :=
  match db_call c1 (run_session (cancel_transaction id)) db with
  | (db, Err e) => (db, r, Err e)
  | (db, Ok (Some job)) => (db, remove_ready_entry f between_redis (job_id job) r, Ok job)
  | (db, Ok None) =>
      match db_call c2 (run_session (get_job id)) (between db) with
      | (db, Err e) => (db, r, Err e)
      | (db, Ok None) => (db, r, Err (JobNotFoundError id))
      | (db, Ok (Some existing)) =>
          if decide (status existing = CANCELLED) then (db, r, Ok existing)
          else (db, r, Err (JobConflictError id "cancel" (status_value (status existing))))
      end
  end.

Definition retry_job_over (c1 c2 : fault) (between : DB → DB) (f : fault) (id : uuid)
    (db : DB) (r : R) : DB * R * result exn Job :=
  match db_call c1 (run_session (retry_transaction id)) db with
  | (db, Err e) => (db, r, Err e)
  | (db, Ok None) =>
      match db_call c2 (run_session (get_job id)) (between db) with
      | (db, Err e) => (db, r, Err e)
      | (db, Ok None) => (db, r, Err (JobNotFoundError id))
      | (db, Ok (Some existing)) =>
          (db, r, Err (JobConflictError id "retry" (status_value (status existing))))
      end
  | (db, Ok (Some job)) =>
      match call f (enqueue (job_id job) (priority job)) r with
      | (r', Ok _) => (db, r', Ok job)
      | (r', Err _) => (db, r', Ok job)
      end
  end.

(** Over connections that hold. *)
Definition cancel_job (between : DB → DB) (f : fault) (between_redis : R → R)
    (id : uuid) (db : DB) (r : R) : DB * R * result exn Job :=
  cancel_job_over no_fault no_fault between f between_redis id db r.
Definition retry_job (between : DB → DB) (f : fault) (id : uuid) (db : DB) (r : R)
    : DB * R * result exn Job :=
  retry_job_over no_fault no_fault between f id db r.
End service.

(** ** As compare-and-sets *)

Definition cancellable (r : Job) : bool := bool_decide (status r ∈ CANCELLABLE).
Definition failed (r : Job) : bool := bool_decide (status r = FAILED).

(** The row after a cancellation, and after a manual retry. *)
Definition cancelled (r : Job) : Job := apply_values cancel_values r.
Definition retried (r : Job) : Job := apply_values retry_job_values r.

Lemma cancellable_spec r : cancellable r = true ↔ status r = PENDING ∨ status r = SCHEDULED.
Proof. unfold cancellable, CANCELLABLE. rewrite bool_decide_eq_true. set_solver. Qed.

Section specs.
Context {DB : Type} `{!Postgres DB, !PostgresLaws DB} {R : Type} `{!Redis R}.
Implicit Types db : DB.

Lemma update_and_commit cs vs i p db :
  (∀ r, holds cs r = bool_decide (job_id r = i) && p r) →
  (∀ r, storable r = true → storable (apply_values vs r) = true) →
  keeps_key vs →
  ∃ db', run_session (let! rs := execute_update cs vs in do! commit in ret (head rs)) db =
           (db', Ok (cas i p (apply_values vs) (jobs_table db)).2) ∧
         jobs_table db' = (cas i p (apply_values vs) (jobs_table db)).1.
Proof using PostgresLaws0.
  intros Hcs Hst Hk.
  destruct (execute_update_cas cs vs i p (mk_session db db)) as (db' & Hu & Ht);
    [done| |done|].
  - simpl. intros r Hr%table_storable _. by apply Hst.
  - exists db'. split; [|done]. unfold run_session, bind. rewrite Hu. simpl.
    by rewrite head_option_list.
Qed.

Lemma cancel_update db id :
  ∃ db', run_session (cancel_transaction id) db =
           (db', Ok (cas id cancellable cancelled (jobs_table db)).2) ∧
         jobs_table db' = (cas id cancellable cancelled (jobs_table db)).1.
Proof using PostgresLaws0.
  apply update_and_commit.
  - intros r. unfold cancel_where. autorewrite with sql. by rewrite andb_true_r.
  - intros r Hr. solve_storable.
  - solve_keeps_key.
Qed.

Lemma retry_update db id :
  ∃ db', run_session (retry_transaction id) db =
           (db', Ok (cas id failed retried (jobs_table db)).2) ∧
         jobs_table db' = (cas id failed retried (jobs_table db)).1.
Proof using PostgresLaws0.
  apply update_and_commit.
  - intros r. unfold retry_where. autorewrite with sql. by rewrite andb_true_r.
  - intros r Hr. solve_storable.
  - solve_keeps_key.
Qed.

Lemma run_get_job id db : run_session (get_job id) db = (db, Ok (jobs_table db !! id)).
Proof using PostgresLaws0. unfold run_session. by rewrite get_job_spec. Qed.

(** The outcome of [cancel_job] on the state it finds. *)
Lemma cancel_over_hit c2 between f bq id db r job :
  jobs_table db !! id = Some job → cancellable job = true →
  ∃ db', cancel_job_over no_fault c2 between f bq id db r =
           (db', remove_ready_entry f bq id r, Ok (cancelled job)) ∧
         jobs_table db' = <[id := cancelled job]> (jobs_table db).
Proof using PostgresLaws0.
  intros Hj Hc. destruct (cancel_update db id) as (db' & Hu & Ht).
  rewrite (cas_hit _ _ _ _ job) in Hu, Ht by done. exists db'. split; [|done].
  unfold cancel_job_over. cbn [db_call]. rewrite Hu. cbn [fst snd].
  unfold cancelled. by rewrite job_id_apply_values, (table_id _ _ _ Hj).
Qed.

Lemma cancel_over_miss c2 between f bq id db (r : R) :
  (∀ job, jobs_table db !! id = Some job → cancellable job = false) →
  ∃ db', jobs_table db' = jobs_table db ∧
    cancel_job_over no_fault c2 between f bq id db r =
      (between db', r,
       match c2, jobs_table (between db') !! id with
       | no_fault, None => Err (JobNotFoundError id)
       | no_fault, Some job =>
           if decide (status job = CANCELLED) then Ok job
           else Err (JobConflictError id "cancel" (status_value (status job)))
       | _, _ => Err (DBAPIError "connection was closed")
       end).
Proof using PostgresLaws0.
  intros Hc. destruct (cancel_update db id) as (db' & Hu & Ht).
  rewrite cas_miss in Hu, Ht by done. exists db'. split; [done|].
  unfold cancel_job_over. cbn [db_call]. rewrite Hu. cbn [fst snd]. unfold db_call.
  rewrite run_get_job. destruct c2; cbn [fst]; by repeat case_match.
Qed.

(** A connection that breaks in the update. *)
Lemma cancel_over_broken c1 c2 between f bq id db (r : R) :
  c1 ≠ no_fault →
  cancel_job_over c1 c2 between f bq id db r =
    ((db_call c1 (run_session (cancel_transaction id)) db).1, r,
     Err (DBAPIError "connection was closed")).
Proof using Type. by destruct c1. Qed.

Lemma retry_over_hit c2 between f id db r job :
  jobs_table db !! id = Some job → status job = FAILED →
  ∃ db', retry_job_over no_fault c2 between f id db r =
           (db', (call f (enqueue id (priority job)) r).1, Ok (retried job)) ∧
         jobs_table db' = <[id := retried job]> (jobs_table db).
Proof using PostgresLaws0.
  intros Hj Hs. destruct (retry_update db id) as (db' & Hu & Ht).
  rewrite (cas_hit _ _ _ _ job) in Hu, Ht by (done || by apply bool_decide_eq_true_2).
  exists db'. split; [|done]. unfold retry_job_over. cbn [db_call]. rewrite Hu. cbn [fst snd].
  unfold retried. rewrite job_id_apply_values, (table_id _ _ _ Hj).
  change (priority (apply_values retry_job_values job)) with (priority job).
  by destruct (call f (enqueue id (priority job)) r) as [r' [|]].
Qed.

Lemma retry_over_miss c2 between f id db (r : R) :
  (∀ job, jobs_table db !! id = Some job → status job ≠ FAILED) →
  ∃ db', jobs_table db' = jobs_table db ∧
    retry_job_over no_fault c2 between f id db r =
      (between db', r,
       match c2, jobs_table (between db') !! id with
       | no_fault, None => Err (JobNotFoundError id)
       | no_fault, Some job => Err (JobConflictError id "retry" (status_value (status job)))
       | _, _ => Err (DBAPIError "connection was closed")
       end).
Proof using PostgresLaws0.
  intros Hc. destruct (retry_update db id) as (db' & Hu & Ht).
  rewrite cas_miss in Hu, Ht by (intros; by apply bool_decide_eq_false_2, Hc).
  exists db'. split; [done|].
  unfold retry_job_over. cbn [db_call]. rewrite Hu. cbn [fst snd]. unfold db_call.
  rewrite run_get_job. destruct c2; cbn [fst]; by repeat case_match.
Qed.

Lemma retry_over_broken c1 c2 between f id db (r : R) :
  c1 ≠ no_fault →
  retry_job_over c1 c2 between f id db r =
    ((db_call c1 (run_session (retry_transaction id)) db).1, r,
     Err (DBAPIError "connection was closed")).
Proof using Type. by destruct c1. Qed.

(** Over connections that hold. *)
Lemma cancel_job_hit between f bq id db r job :
  jobs_table db !! id = Some job → cancellable job = true →
  ∃ db', cancel_job between f bq id db r =
           (db', remove_ready_entry f bq id r, Ok (cancelled job)) ∧
         jobs_table db' = <[id := cancelled job]> (jobs_table db).
Proof using PostgresLaws0. apply cancel_over_hit. Qed.

Lemma cancel_job_miss between f bq id db (r : R) :
  (∀ job, jobs_table db !! id = Some job → cancellable job = false) →
  ∃ db', jobs_table db' = jobs_table db ∧
    cancel_job between f bq id db r =
      (between db', r,
       match jobs_table (between db') !! id with
       | None => Err (JobNotFoundError id)
       | Some job =>
           if decide (status job = CANCELLED) then Ok job
           else Err (JobConflictError id "cancel" (status_value (status job)))
       end).
Proof using PostgresLaws0. apply (cancel_over_miss no_fault). Qed.

Lemma retry_job_hit between f id db r job :
  jobs_table db !! id = Some job → status job = FAILED →
  ∃ db', retry_job between f id db r =
           (db', (call f (enqueue id (priority job)) r).1, Ok (retried job)) ∧
         jobs_table db' = <[id := retried job]> (jobs_table db).
Proof using PostgresLaws0. apply retry_over_hit. Qed.

Lemma retry_job_miss between f id db (r : R) :
  (∀ job, jobs_table db !! id = Some job → status job ≠ FAILED) →
  ∃ db', jobs_table db' = jobs_table db ∧
    retry_job between f id db r =
      (between db', r,
       match jobs_table (between db') !! id with
       | None => Err (JobNotFoundError id)
       | Some job => Err (JobConflictError id "retry" (status_value (status job)))
       end).
Proof using PostgresLaws0. apply (retry_over_miss no_fault). Qed.
End specs.

(** ** Properties *)

Section properties.
Context {DB : Type} `{!Postgres DB, !PostgresLaws DB} {R : Type} `{!Redis R, !RedisLaws R}.
Implicit Types db : DB.

(** C31: [cancel_job] on every status a job may have, whatever becomes of its Redis
    cleanup: PENDING and SCHEDULED jobs are cancelled and left unowned, a
    CANCELLED job is returned unchanged, any other is a conflict naming its
    status, and an unknown id is not found; no other row is touched. *)
Theorem cancel_job_outcome f bq id db (r : R) :
  let '(db', _, res) := cancel_job (λ db, db) f bq id db r in
  match jobs_table db !! id with
  | None => res = Err (JobNotFoundError id) ∧ jobs_table db' = jobs_table db
  | Some job =>
      match status job with
      | PENDING | SCHEDULED => ∃ job',
          res = Ok job' ∧ jobs_table db' = <[id := job']> (jobs_table db) ∧
          status job' = CANCELLED ∧ unowned job' ∧ attempt_count job' = attempt_count job ∧
          job_error job' = job_error job ∧ idempotency_key job' = idempotency_key job
      | CANCELLED => res = Ok job ∧ jobs_table db' = jobs_table db
      | PROCESSING | COMPLETED | FAILED =>
          res = Err (JobConflictError id "cancel" (status_value (status job))) ∧
          jobs_table db' = jobs_table db
      end
  end.
Proof using PostgresLaws0.
  destruct (jobs_table db !! id) as [job|] eqn:Hj.
  - destruct (cancellable job) eqn:Hc.
    + destruct (cancel_job_hit (λ db, db) f bq id db r job Hj Hc) as (db' & -> & Ht).
      apply cancellable_spec in Hc as [-> | ->]; by exists (cancelled job).
    + destruct (cancel_job_miss (λ db, db) f bq id db r) as (db' & Ht & ->).
      { intros j. rewrite Hj. naive_solver. }
      rewrite Ht, Hj. destruct (status job) eqn:Hs; try done;
        unfold cancellable in Hc; by rewrite Hs in Hc.
  - destruct (cancel_job_miss (λ db, db) f bq id db r) as (db' & Ht & ->).
    { intros j. by rewrite Hj. }
    by rewrite Ht, Hj.
Qed.

(** A cancellation and a worker's claim of the same PENDING job exclude each
    other: whichever statement runs first wins, the other finds the row gone from
    PENDING and changes nothing. *)
Theorem cancel_claim_exclusive db (r : R) f bq id w tok dl now ls job
    (Hj : jobs_table db !! id = Some job) (Hc : claimable job = true)
    (Hw : varchar_ok 128 w = true) :
  (∃ db1 db2 r2 job',
     run_session (claim_job dl now tok id w ls) db = (db1, Ok (Some job')) ∧
     cancel_job (λ db, db) f bq id db1 r =
       (db2, r2, Err (JobConflictError id "cancel" "processing")) ∧
     jobs_table db2 !! id = Some job' ∧ owns (MkAttempt id w tok 0 0) job' = true) ∧
  (∃ db1 db2 r1 job',
     cancel_job (λ db, db) f bq id db r = (db1, r1, Ok job') ∧
     run_session (claim_job dl now tok id w ls) db1 = (db2, Ok None) ∧
     jobs_table db2 !! id = Some job' ∧ status job' = CANCELLED).
Proof using PostgresLaws0.
  split.
  - destruct (claim_job_cas dl now tok id w ls db Hw) as (db1 & Hu & Ht).
    rewrite (cas_hit _ _ _ _ job) in Hu, Ht by done. cbn [fst snd] in Hu, Ht.
    destruct (cancel_job_miss (λ db, db) f bq id db1 r) as (db2 & Ht2 & Hcan).
    { intros j. rewrite Ht, lookup_insert_eq. by intros [= <-]. }
    rewrite Ht2, Ht, lookup_insert_eq in Hcan. eexists db1, db2, r, _.
    split; [exact Hu|]. split; [exact Hcan|]. rewrite Ht2, Ht, lookup_insert_eq.
    split; [done|]. by apply owns_spec.
  - assert (cancellable job = true) as Hcan.
    { apply cancellable_spec. left. unfold claimable in Hc. by to_prop. }
    destruct (cancel_job_hit (λ db, db) f bq id db r job Hj Hcan) as (db1 & E & Ht).
    destruct (claim_job_cas dl now tok id w ls db1 Hw) as (db2 & Hu & Ht2).
    rewrite cas_miss in Hu, Ht2 by (intros j; rewrite Ht, lookup_insert_eq; by intros [= <-]).
    cbn [fst snd] in Hu, Ht2.
    eexists db1, db2, _, _. split; [exact E|]. split; [exact Hu|].
    by rewrite Ht2, Ht, lookup_insert_eq.
Qed.

(** With Redis reachable and nobody else at the queue, the cancelled job also
    leaves the ready queue, alone. *)
Theorem cancel_job_dequeues bdb id db (r : R) q job
    (Hj : jobs_table db !! id = Some job) (Hc : cancellable job = true)
    (Hr : represents r q) (Hid : uuid_ok id) :
  ∃ db' r' job', cancel_job bdb no_fault (λ r, r) id db r = (db', r', Ok job') ∧
    represents r' (delete id q).
Proof using PostgresLaws0 RedisLaws0.
  destruct (cancel_job_hit bdb no_fault (λ r, r) id db r job Hj Hc) as (db' & -> & _).
  destruct (remove_current_spec r q id Hr Hid) as (r' & Hrem & Hr').
  eexists db', _, _. split; [done|]. unfold remove_ready_entry, call. by rewrite Hrem.
Qed.

(** C32: [retry_job] on every status: only a FAILED job starts a new cycle, with no
    attempt spent, nothing left of the old one and the full number of attempts
    ahead, so that the next claim can take it; every other status is a conflict
    and nothing changes.  A failing Redis changes neither the row nor the
    answer. *)
Theorem retry_job_outcome f id db (r : R) :
  let '(db', r', res) := retry_job (λ db, db) f id db r in
  match jobs_table db !! id with
  | None => res = Err (JobNotFoundError id) ∧ jobs_table db' = jobs_table db ∧ r' = r
  | Some job =>
      if decide (status job = FAILED) then ∃ job',
        res = Ok job' ∧ jobs_table db' = <[id := job']> (jobs_table db) ∧
        r' = (call f (enqueue id (priority job)) r).1 ∧
        claimable job' = true ∧ attempt_count job' = 0 ∧
        max_attempts job' = max_attempts job ∧ progress job' = 0 ∧ unowned job' ∧
        job_result job' = None ∧ job_error job' = None ∧ scheduled_at job' = None ∧
        started_at job' = None ∧ completed_at job' = None
      else
        res = Err (JobConflictError id "retry" (status_value (status job))) ∧
        jobs_table db' = jobs_table db ∧ r' = r
  end.
Proof using PostgresLaws0.
  destruct (jobs_table db !! id) as [job|] eqn:Hj; [case_decide as Hs|].
  - destruct (retry_job_hit (λ db, db) f id db r job Hj Hs) as (db' & -> & Ht).
    exists (retried job). do 3 (split; [done|]). split; [|done].
    pose proof (table_storable _ _ _ Hj) as Hst. rewrite storable_iff in Hst.
    unfold claimable. apply andb_true_iff. split; [done|]. apply Z.ltb_lt. cbn. lia.
  - destruct (retry_job_miss (λ db, db) f id db r) as (db' & Ht & ->).
    { intros j. rewrite Hj. by intros [= <-]. }
    by rewrite Ht, Hj.
  - destruct (retry_job_miss (λ db, db) f id db r) as (db' & Ht & ->).
    { intros j. by rewrite Hj. }
    by rewrite Ht, Hj.
Qed.
End properties.

(** ** Witnesses *)

Lemma cancel_claim_exclusive_witness :
  ∃ db1 db2 r2 job',
    run_session (claim_job 60%Q 1000000 77 7 "w1" None) demo_db = (db1, Ok (Some job')) ∧
    cancel_job (λ db, db) no_fault (λ r, r) 7 db1 demo_queue =
      (db2, r2, Err (JobConflictError 7 "cancel" "processing")).
Proof.
  destruct (cancel_claim_exclusive demo_db demo_queue no_fault (λ r, r) 7 "w1" 77 60%Q 1000000 None
              demo_pending ltac:(vm_compute; done) ltac:(done) ltac:(done))
    as [(db1 & db2 & r2 & job' & H1 & H2 & _) _].
  exists db1, db2, r2, job'. by split.
Defined.

Lemma cancel_job_outcome_witness :
  (let '(db', _, res) := cancel_job (λ db, db) command_lost (λ r, r) 8 demo_db demo_queue in
   ∃ job', res = Ok job' ∧ status job' = CANCELLED ∧ jobs_table db' !! 8 = Some job') ∧
  (let '(_, _, res) := cancel_job (λ db, db) command_lost (λ r, r) 9 demo_db demo_queue in
   res = Err (JobConflictError 9 "cancel" "processing")).
Proof.
  split.
  - pose proof (cancel_job_outcome command_lost (λ r, r) 8 demo_db demo_queue) as H.
    destruct (cancel_job _ _ _ 8 demo_db demo_queue) as [[db' r'] res].
    replace (jobs_table demo_db !! 8) with (Some demo_scheduled) in H by (vm_compute; done).
    destruct H as (job' & -> & Ht & Hs & _). exists job'.
    rewrite Ht. split; [done|]. split; [done|]. apply lookup_insert_eq.
  - pose proof (cancel_job_outcome command_lost (λ r, r) 9 demo_db demo_queue) as H.
    destruct (cancel_job _ _ _ 9 demo_db demo_queue) as [[db' r'] res].
    replace (jobs_table demo_db !! 9) with (Some demo_processing) in H by (vm_compute; done).
    apply H.
Defined.

Lemma retry_job_outcome_witness :
  let '(db', _, res) := retry_job (λ db, db) command_lost 10 demo_db demo_queue in
  ∃ job', res = Ok job' ∧ claimable job' = true ∧ attempt_count job' = 0 ∧
    jobs_table db' !! 10 = Some job'.
Proof.
  pose proof (retry_job_outcome command_lost 10 demo_db demo_queue) as H.
  destruct (retry_job _ _ 10 demo_db demo_queue) as [[db' r'] res].
  replace (jobs_table demo_db !! 10) with (Some demo_failed) in H by (vm_compute; done).
  rewrite decide_True in H by done.
  destruct H as (job' & -> & Ht & _ & Hc & Ha & _). exists job'.
  rewrite Ht. split; [done|]. split; [done|]. split; [done|]. apply lookup_insert_eq.
Defined.

Lemma cancel_job_dequeues_witness :
  ∃ db' r' job', cancel_job (λ db, db) no_fault (λ r, r) 7 demo_db demo_queue = (db', r', Ok job') ∧
    represents r' (delete 7 (a_enqueue 8 90 2 (a_enqueue 7 50 1 ∅))).
Proof.
  apply (cancel_job_dequeues (λ db, db) 7 demo_db demo_queue _ demo_pending);
    [vm_compute; done|done|exact demo_represents|done].
Defined.
