(* ===== verification/Queries.v ===== *)
(** * Queries: listing and counting jobs

    [_apply_filters], [list_jobs] and [count_jobs_by_status] of
    [app/services/job_service.py].  [between] is what other sessions commit between
    the count and the page of [list_jobs]. *)

From S2P Require Import Prelude.
From S2P Require Import Text.
From S2P Require Import Errors.
From S2P Require Import Model.
From S2P Require Import Postgres.
From S2P Require Import MemDB.
From S2P Require Import Session.
From S2P Require Import Schemas.

Local Open Scope Z_scope.

(** [_apply_filters] *)
Definition apply_filters (st : option JobStatus) (ty : option JobType) : list Cond :=
  match st with Some s => [λ r : Job, sql_eq (Some (status r)) (Some s)] | None => [] end ++
  match ty with
  | Some t => [λ r : Job, sql_eq (Some (job_type r)) (Some (jobtype_value t))]
  | None => []
  end.

(** [order_by(created_at.desc(), id.desc())]; PostgreSQL orders uuids by their
    bytes, that is by value. *)
Definition newest_first (a b : Job) : bool :=
  (created_at b <? created_at a) ||
  ((created_at a =? created_at b) && (job_id b <=? job_id a)).

Definition page_query (cs : list Cond) (limit offset : Z) : Query :=
  {| q_where := cs; q_order := newest_first; q_limit := Some (Z.to_nat limit);
     q_offset := Z.to_nat offset; q_skip_locked := false |}.

Section service.
Context {DB : Type} `{!Postgres DB}.

Definition execute_count (cs : list Cond) : M DB Z := λ s, (s, Ok (pg_count cs (working s))).

Definition list_jobs (between : DB → DB) (st : option JobStatus) (ty : option JobType)
    (limit offset : Z) : M DB (list Job * Z) :=
  let! total := execute_count (apply_filters st ty) in
  do! interfere between in
  let! rows := execute_select ∅ (page_query (apply_filters st ty) limit offset) in
  ret (rows, total).

(** The dict starts with a zero for every status, in declaration order; each
    group found overwrites its entry. *)
Definition count_jobs_by_status : M DB (list (JobStatus * Z)) := λ s,
  let groups := pg_count_by_status (working s) in
  let counts := (λ st, (st, 0)) <$> JobStatus_members in
  (s, Ok (foldl (λ acc g,
        (λ e, if decide (e.1 = g.1) then (e.1, g.2) else e) <$> acc) counts groups)).
End service.

(** ** The pages *)

#[export] Instance newest_first_total cs l o : Total (before (page_query cs l o)).
Proof.
  intros a b. unfold before. simpl. unfold newest_first.
  rewrite !orb_true_iff, !andb_true_iff, !Z.ltb_lt, !Z.eqb_eq, !Z.leb_le. lia.
Qed.
#[export] Instance newest_first_trans cs l o : Transitive (before (page_query cs l o)).
Proof.
  intros a b c. unfold before. simpl. unfold newest_first.
  rewrite !orb_true_iff, !andb_true_iff, !Z.ltb_lt, !Z.eqb_eq, !Z.leb_le. lia.
Qed.

(** The filters as the caller reads them. *)
Definition matches (st : option JobStatus) (ty : option JobType) (r : Job) : Prop :=
  (∀ s, st = Some s → status r = s) ∧ (∀ t, ty = Some t → job_type r = jobtype_value t).

Lemma holds_filters st ty r : holds (apply_filters st ty) r = true ↔ matches st ty r.
Proof.
  unfold apply_filters, matches.
  destruct st as [s|], ty as [t|]; autorewrite with sql; unfold sql_eq; simpl;
    rewrite ?andb_true_r, ?andb_true_iff, ?bool_decide_eq_true; naive_solver.
Qed.

(** Jobs that tie on [created_at] are told apart by id, so the order on a table's
    rows is total and antisymmetric. *)
Lemma newest_first_antisym a b :
  newest_first a b = true → newest_first b a = true → job_id a = job_id b.
Proof.
  unfold newest_first.
  rewrite !orb_true_iff, !andb_true_iff, !Z.ltb_lt, !Z.eqb_eq, !Z.leb_le. lia.
Qed.

Lemma sorted_by_newest_unique (l1 l2 : list Job) :
  NoDup (job_id <$> l1) → l1 ≡ₚ l2 →
  StronglySorted (λ a b, newest_first a b = true) l1 →
  StronglySorted (λ a b, newest_first a b = true) l2 → l1 = l2.
Proof.
  revert l2. induction l1 as [|a l1 IH]; intros l2 Hnd Hp H1 H2.
  { by apply Permutation_nil_l in Hp as ->. }
  destruct l2 as [|b l2]; [by apply symmetry, Permutation_nil_cons in Hp|].
  inversion H1 as [|? ? Hs1 Hf1]; inversion H2 as [|? ? Hs2 Hf2]; subst.
  rewrite Forall_forall in Hf1, Hf2. rewrite fmap_cons in Hnd.
  apply NoDup_cons in Hnd as [Hnin Hnd].
  assert (b ∈ a :: l1) as Hb by (rewrite Hp; by left).
  assert (a ∈ b :: l2) as Ha by (rewrite <-Hp; by left).
  assert (a = b) as ->.
  { apply elem_of_cons in Hb as [|Hb]; [done|]. apply elem_of_cons in Ha as [|Ha]; [done|].
    pose proof (newest_first_antisym _ _ (Hf1 _ Hb) (Hf2 _ Ha)) as Heq.
    destruct Hnin. rewrite Heq. by apply list_elem_of_fmap_2. }
  f_equal. apply IH; try done. by apply Permutation_cons_inv in Hp.
Qed.

Section properties.
Context {DB : Type} `{!Postgres DB, !PostgresLaws DB}.
Implicit Types db : DB.

(** The matching jobs, newest first: the list the pages are cut from. *)
Lemma listing_exists cs db :
  ∃ all : list Job,
    all ≡ₚ filter (λ r, holds cs r = true) (rows (jobs_table db)) ∧
    ∀ n k, pg_select ∅ (page_query cs n k) db = take (Z.to_nat n) (drop (Z.to_nat k) all).
Proof using PostgresLaws0.
  assert (∀ n k, ∃ all, all ≡ₚ filter (λ r, holds cs r = true) (rows (jobs_table db)) ∧
    StronglySorted (λ a b, newest_first a b = true) all ∧
    pg_select ∅ (page_query cs n k) db = take (Z.to_nat n) (drop (Z.to_nat k) all)) as H.
  { intros n k. destruct (pg_select_spec ∅ (page_query cs n k) db _ _) as (all & Hp & Hs & E).
    exists all. split; [|done]. rewrite Hp. apply reflexive_eq, list_filter_iff. intros r.
    unfold visible. simpl. by rewrite andb_true_r. }
  destruct (H 0 0) as (all & Hp & Hs & _). exists all. split; [done|]. intros n k.
  destruct (H n k) as (all' & Hp' & Hs' & ->).
  rewrite (sorted_by_newest_unique all all'); [done| | |done..]; [|by rewrite Hp, Hp'].
  rewrite Hp. eapply sublist_NoDup; [|apply (fmap_sublist job_id), sublist_filter].
  rewrite rows_ids. apply NoDup_fst_map_to_list.
Qed.

(** C34: Pagination: on a table nobody changes, every page reports the number of
    matching jobs, and the pages of any size put end to end are exactly the
    matching jobs, each once, newest first. *)
Theorem list_jobs_pages st ty n db (Hn : 1 ≤ n) :
  ∃ all : list Job,
    (∀ r, r ∈ all ↔ matches st ty r ∧ ∃ i, jobs_table db !! i = Some r) ∧
    NoDup (job_id <$> all) ∧
    StronglySorted (λ a b, newest_first a b = true) all ∧
    (∀ k, run_session (list_jobs (λ db, db) st ty n k) db =
            (db, Ok (take (Z.to_nat n) (drop (Z.to_nat k) all), Z.of_nat (length all)))) ∧
    (∀ pages, length all ≤ pages * Z.to_nat n →
       concat ((λ p, take (Z.to_nat n) (drop (p * Z.to_nat n) all)) <$> seq 0 pages) = all)%nat.
Proof using PostgresLaws0.
  destruct (listing_exists (apply_filters st ty) db) as (all & Hp & Hpage). exists all.
  split; [|split; [|split; [|split]]].
  - intros r. rewrite Hp, list_elem_of_filter, holds_filters, elem_of_rows. done.
  - rewrite Hp. eapply sublist_NoDup; [|apply (fmap_sublist job_id), sublist_filter].
    rewrite rows_ids. apply NoDup_fst_map_to_list.
  - destruct (pg_select_facts ∅ (page_query (apply_filters st ty) (Z.of_nat (length all)) 0) db _ _)
      as (_ & _ & Hs & _).
    rewrite Hpage in Hs. rewrite Nat2Z.id in Hs. simpl in Hs.
    rewrite drop_0, take_ge in Hs by done. exact Hs.
  - intros k. unfold run_session, list_jobs, bind, execute_count, interfere, execute_select, ret.
    simpl. rewrite Hpage, pg_count_spec. do 4 f_equal. by rewrite Hp.
  - intros pages. clear. set (m := Z.to_nat n).
    assert (∀ p, concat ((λ q, take m (drop (q * m) all)) <$> seq 0 p) = take (p * m) all) as H.
    { induction p as [|p IH]; [done|].
      rewrite seq_S, fmap_app, concat_app, IH. simpl. rewrite app_nil_r.
      rewrite take_take_drop. f_equal. lia. }
    intros Hle. rewrite H. by apply take_ge.
Qed.

(** Every status is counted, empty ones as zero, and the counts add up. *)
Lemma fold_counts (groups : list (JobStatus * Z)) (g : JobStatus → Z) :
  NoDup groups.*1 →
  foldl (λ acc p, (λ e, if decide (e.1 = p.1) then (e.1, p.2) else e) <$> acc)
    ((λ st, (st, g st)) <$> JobStatus_members) groups =
  (λ st, (st, default (g st) ((list_to_map groups : gmap JobStatus Z) !! st))) <$> JobStatus_members.
Proof using Type.
  revert g. induction groups as [|[s n] groups IH]; intros g Hnd; [done|].
  rewrite fmap_cons in Hnd. apply NoDup_cons in Hnd as [Hnin Hnd]. cbn [foldl].
  assert ((λ e : JobStatus * Z, if decide (e.1 = (s, n).1) then (e.1, (s, n).2) else e) <$>
            ((λ st, (st, g st)) <$> JobStatus_members) =
          (λ st, (st, if decide (st = s) then n else g st)) <$> JobStatus_members) as ->.
  { rewrite <-list_fmap_compose. apply list_fmap_ext. intros _ st _. simpl. by case_decide. }
  rewrite (IH (λ st, if decide (st = s) then n else g st)) by done.
  apply list_fmap_ext. intros _ st _. f_equal. simpl. rewrite lookup_insert.
  case_decide as H1; case_decide as H2; simplify_eq; try done.
  rewrite (not_elem_of_list_to_map_1 groups st); done.
Qed.

Lemma run_count_jobs db :
  ∃ counts, run_session count_jobs_by_status db = (db, Ok counts) ∧
    counts.*1 = JobStatus_members ∧
    (∀ s n, (s, n) ∈ counts →
       n = Z.of_nat (length (filter (λ r, status r = s) (rows (jobs_table db))))).
Proof using PostgresLaws0.
  set (nof := λ s, Z.of_nat (length (filter (λ r, status r = s) (rows (jobs_table db))))).
  destruct (pg_group_spec db) as [Hnd Hin].
  assert (run_session count_jobs_by_status db =
          (db, Ok ((λ s, (s, nof s)) <$> JobStatus_members))) as E.
  { unfold run_session, count_jobs_by_status. simpl working.
    rewrite (fold_counts _ (λ _, 0) Hnd). cbn [committed]. do 2 f_equal.
    apply list_fmap_ext. intros _ s _. f_equal.
    destruct ((list_to_map (pg_count_by_status db) : gmap JobStatus Z) !! s) as [n|] eqn:Hs; simpl.
    - apply elem_of_list_to_map_2 in Hs. by apply Hin in Hs as [_ ->].
    - destruct (decide (0 < nof s)) as [Hpos|]; [|unfold nof in *; lia].
      assert ((s, nof s) ∈ pg_count_by_status db) as H by by apply Hin.
      apply elem_of_list_to_map_1 in H; [|done]. congruence. }
  rewrite E. eexists. split; [done|]. split.
  - rewrite <-list_fmap_compose. apply list_fmap_id.
  - intros s n (s' & [= -> ->] & _)%list_elem_of_fmap. done.
Qed.

(** [count_jobs_by_status] reports every status once, the empty ones as zero, with
    the number of rows in it; nothing is loaded or changed. *)
Theorem count_jobs_by_status_counts db :
  ∃ counts, run_session count_jobs_by_status db = (db, Ok counts) ∧
    counts.*1 = JobStatus_members ∧
    (∀ s n, (s, n) ∈ counts →
       n = Z.of_nat (length (filter (λ r, status r = s) (rows (jobs_table db))))) ∧
    foldr Z.add 0 counts.*2 = Z.of_nat (size (jobs_table db)).
Proof using PostgresLaws0.
  destruct (run_count_jobs db) as (counts & E & Hm & Hn).
  exists counts. do 3 (split; [done|]).
  assert (counts = (λ s, (s, Z.of_nat (length (filter (λ r, status r = s)
            (rows (jobs_table db)))))) <$> JobStatus_members) as ->.
  { rewrite <-Hm, <-list_fmap_compose. clear E Hm. induction counts as [|[s n] counts IH]; [done|].
    rewrite fmap_cons. f_equal; [cbn; f_equal; apply Hn; by left|].
    apply IH. intros s' n' H. apply Hn. by right. }
  rewrite <-list_fmap_compose, <-length_map_to_list, <-(length_fmap snd).
  change ((map_to_list (jobs_table db)).*2) with (rows (jobs_table db)).
  clear. induction (rows (jobs_table db)) as [|r l IH]; [done|].
  rewrite length_cons, Nat2Z.inj_succ, <-IH. cbn [fmap list_fmap foldr compose snd].
  unfold JobStatus_members. cbn [fmap list_fmap foldr compose snd].
  rewrite !filter_cons. destruct (status r); repeat case_decide; try done;
    rewrite ?length_cons, ?Nat2Z.inj_succ; lia.
Qed.
End properties.

Lemma list_jobs_pages_witness :
  ∃ all : list Job,
    run_session (list_jobs (λ db, db) None (Some BATCH) 50 0) demo_db =
      (demo_db, Ok (take 50 all, Z.of_nat (length all))) ∧ demo_scheduled ∈ all.
Proof.
  destruct (list_jobs_pages None (Some BATCH) 50 demo_db ltac:(lia)) as (all & H1 & _ & _ & H2 & _).
  exists all. split; [exact (H2 0)|]. apply H1. split.
  - split; [done|]. intros t [= <-]. done.
  - exists 8. vm_compute. done.
Defined.
