(* ===== verification/Fencing.v ===== *)
(** * Fencing: what a claim grants and what a stale attempt cannot do

    The theorems about [claim_job] and the fenced writes of [Ownership].  Every
    statement is one atomic UPDATE, so concurrent callers are sequences of calls in
    some order; the theorems hold for every order. *)

From S2P Require Import Prelude.
From S2P Require Import Text.
From S2P Require Import Errors.
From S2P Require Import Model.
From S2P Require Import Postgres.
From S2P Require Import MemDB.
From S2P Require Import Session.
From S2P Require Import RetryPolicy.
From S2P Require Import Config.
From S2P Require Import Ownership.
From Stdlib Require Import QArith.

Local Open Scope Z_scope.

(** ** Several workers at one candidate *)

Record Claimer := { cl_worker : string; cl_token : uuid; cl_now : Z; cl_lease : option Q }.

Section claimers.
Context {DB : Type} `{!Postgres DB}.

Fixpoint claim_all (dl : Q) (id : uuid) (cs : list Claimer) (db : DB)
    : DB * list (result exn (option Job)) :=
  match cs with
  | [] => (db, [])
  | c :: cs =>
      let '(db, res) :=
        run_session (claim_job dl (cl_now c) (cl_token c) id (cl_worker c) (cl_lease c)) db in
      let '(db, rest) := claim_all dl id cs db in
      (db, res :: rest)
  end.

Context `{!PostgresLaws DB}.
Implicit Types db : DB.

Lemma claim_all_missed dl id cs db :
  Forall (λ c, varchar_ok 128 (cl_worker c) = true) cs →
  (∀ job, jobs_table db !! id = Some job → claimable job = false) →
  ∃ db', claim_all dl id cs db = (db', (λ _, Ok None) <$> cs) ∧
         jobs_table db' = jobs_table db.
Proof using PostgresLaws0.
  intros Hcs. revert db. induction Hcs as [|c cs Hw Hcs IH]; intros db Hno; [by exists db|].
  destruct (claim_job_cas dl (cl_now c) (cl_token c) id (cl_worker c) (cl_lease c) db Hw)
    as (db1 & Hu & Ht).
  rewrite cas_miss in Hu, Ht by done. cbn [fst snd] in Hu, Ht.
  destruct (IH db1) as (db2 & H2 & Ht2); [by rewrite Ht|].
  exists db2. cbn [claim_all]. rewrite Hu, H2. split; [done|]. by rewrite Ht2, Ht.
Qed.

(** C1: Any number of workers race for one PENDING candidate: exactly the first
    statement to run gets the job, all the others get nothing, and the row ends as
    the winner's attempt. *)
Theorem claim_is_exclusive dl id c cs db job
    (Hw : Forall (λ c, varchar_ok 128 (cl_worker c) = true) (c :: cs))
    (Hjob : jobs_table db !! id = Some job) (Hc : claimable job = true) :
  ∃ db' job', claim_all dl id (c :: cs) db = (db', Ok (Some job') :: ((λ _, Ok None) <$> cs)) ∧
    jobs_table db' = <[id := job']> (jobs_table db) ∧
    attempt_of job' =
      Ok (MkAttempt id (cl_worker c) (cl_token c) (attempt_count job + 1) (max_attempts job)).
Proof using PostgresLaws0.
  inversion Hw as [|? ? Hw1 Hw2]; subst.
  destruct (claim_job_cas dl (cl_now c) (cl_token c) id (cl_worker c) (cl_lease c) db Hw1)
    as (db1 & Hu & Ht).
  rewrite (cas_hit _ _ _ _ job) in Hu, Ht by done. cbn [fst snd] in Hu, Ht.
  destruct (claim_all_missed dl id cs db1 Hw2) as (db2 & H2 & Ht2).
  { intros j. rewrite Ht, lookup_insert_eq. by intros [= <-]. }
  eexists db2, _. cbn [claim_all]. rewrite Hu, H2. split; [done|].
  split; [by rewrite Ht2, Ht|]. apply attempt_of_spec. cbn. by rewrite (table_id _ _ _ Hjob).
Qed.
End claimers.

(** ** The fenced writes *)

(** Everything an attempt may try to write. *)
Inductive OwnerCall :=
  | ExtendLease (lease_seconds : option Q)
  | UpdateProgress (progress : Z)
  | CompleteJob (result : JSON)
  | FailAttempt (error : string).

Section fenced.
Context {DB : Type} `{!Postgres DB}.

(** Run a call; only whether it raised matters here. *)
Definition owner_call (dl : Q) (now : Z) (a : Attempt) (c : OwnerCall) (db : DB)
    : DB * result exn unit :=
  match c with
  | ExtendLease ls =>
      run_session (let! _ := extend_lease dl now a ls in ret tt) db
  | UpdateProgress p => run_session (update_progress a p) db
  | CompleteJob res => run_session (let! _ := complete_job now a res in ret tt) db
  | FailAttempt e => run_session (let! _ := fail_attempt now a e in ret tt) db
  end.

Context `{!PostgresLaws DB}.
Implicit Types db : DB.

Definition discard {A} (r : result exn A) : result exn unit :=
  match r with Ok _ => Ok tt | Err e => Err e end.

Lemma run_discard {A} (m : M DB A) db :
  run_session (let! _ := m in ret tt) db = ((run_session m db).1, discard (run_session m db).2).
Proof using Type.
  unfold run_session, bind, ret. destruct (m (mk_session db db)) as [s [a|e]]; done.
Qed.

(** The new row an owner's call writes. *)
Definition call_values (dl : Q) (now : Z) (a : Attempt) (c : OwnerCall) : list Assign :=
  match c with
  | ExtendLease ls => [SetLeaseExpiresAt (Some (lease_deadline dl now ls))]
  | UpdateProgress p => [SetProgress (Z.max 0 (Z.min 100 p))]
  | CompleteJob res => complete_values now res
  | FailAttempt e => failed_values now e (at_attempt_count a) (at_max_attempts a)
  end.

(** A failure needs a delay for its attempt; the other calls need nothing. *)
Definition delay_known (a : Attempt) (c : OwnerCall) : Prop :=
  match c with
  | FailAttempt _ => has_delay (at_attempt_count a) (at_max_attempts a)
  | _ => True
  end.

#[export] Instance delay_known_dec a c : Decision (delay_known a c).
Proof using Type. destruct c; cbn; unfold has_delay; apply _. Defined.

Definition call_fence (now : Z) (a : Attempt) (c : OwnerCall) : Job → bool :=
  match c with FailAttempt _ => may_fail now false a | _ => owns a end.

(** All four calls are one compare-and-set behind the fence. *)
Lemma owner_call_cas dl now a c db :
  delay_known a c →
  let k := cas (at_job_id a) (call_fence now a c) (apply_values (call_values dl now a c))
             (jobs_table db) in
  ∃ db', owner_call dl now a c db = (db', or_lost a k.2 (λ _, tt)) ∧ jobs_table db' = k.1.
Proof using PostgresLaws0.
  intros Hd k. subst k. destruct c as [ls|p|res|e]; cbn [owner_call call_values call_fence];
    rewrite ?run_discard.
  - destruct (extend_lease_cas dl now a ls db) as (db' & -> & ?). exists db'. split; [|done].
    cbn [fst snd]. by destruct ((cas _ _ _ _).2).
  - apply update_progress_cas.
  - destruct (complete_job_cas now a res db) as (db' & -> & ?). exists db'. split; [|done].
    cbn [fst snd]. by destruct ((cas _ _ _ _).2).
  - destruct (fail_attempt_cas now a e db Hd) as (db' & -> & ?). exists db'. split; [|done].
    cbn [fst snd]. by destruct ((cas _ _ _ _).2).
Qed.

Lemma call_fence_owns now a c r : call_fence now a c r = true → owns a r = true.
Proof using Type. destruct c; cbn; try done. unfold may_fail. by intros [[] ]%andb_prop%proj1%andb_prop. Qed.

(** A failure without a known delay writes nothing either. *)
Lemma owner_call_no_delay dl now a c db :
  ¬ delay_known a c → ∃ res, owner_call dl now a c db = (db, res).
Proof using Type.
  destruct c as [| | |e]; cbn; try tauto. intros Hd. rewrite run_discard.
  unfold run_session, fail_attempt, bind.
  destruct (apply_failed_no_delay now a e false (mk_session db db)) as [m Hm].
  - unfold has_attempts_left. apply Z.ltb_lt.
    destruct (decide (at_attempt_count a < at_max_attempts a)); [done|]. destruct Hd. by intros ?.
  - intros E. apply Hd. intros _. by left.
  - intros E. apply Hd. intros _. by right.
  - rewrite Hm. by eexists.
Qed.

(** A stale attempt writes nothing: if the row is gone or carries another fence
    (another worker, another token, or it is not PROCESSING), every call of the
    owner is refused with OwnershipLostError and the table stays as it is. *)
Theorem stale_attempt_writes_nothing dl now a c db
    (Hd : delay_known a c)
    (Hstale : ∀ job, jobs_table db !! at_job_id a = Some job → owns a job = false) :
  ∃ db', owner_call dl now a c db =
    (db', Err (OwnershipLostError (at_job_id a) (at_worker_id a) (at_execution_token a))) ∧
    jobs_table db' = jobs_table db.
Proof using PostgresLaws0.
  destruct (owner_call_cas dl now a c db Hd) as (db' & Hu & Ht). exists db'.
  assert (∀ r, jobs_table db !! at_job_id a = Some r → call_fence now a c r = false) as Hmiss.
  { intros r Hr. destruct (call_fence now a c r) eqn:Hf; [|done].
    apply call_fence_owns in Hf. by rewrite (Hstale r Hr) in Hf. }
  by rewrite cas_miss in Hu, Ht.
Qed.

(** The row after a call, whoever made it, when the attempt owned it. *)
Lemma owner_call_hit dl now a c db job :
  delay_known a c →
  jobs_table db !! at_job_id a = Some job → attempt_of job = Ok a → status job = PROCESSING →
  ∃ db', owner_call dl now a c db = (db', Ok tt) ∧
    jobs_table db' = <[at_job_id a := apply_values (call_values dl now a c) job]> (jobs_table db).
Proof using PostgresLaws0.
  intros Hd Hj Ha Hs. destruct (owner_call_cas dl now a c db Hd) as (db' & Hu & Ht).
  exists db'. rewrite (cas_hit _ _ _ _ job) in Hu, Ht; [done|done| |done|];
    pose proof (owns_attempt_of _ _ Ha Hs) as Ho;
    apply attempt_of_spec in Ha as (_ & _ & _ & Hc & Hm);
    (destruct c; cbn; [done..|]); unfold may_fail, has_attempts_left; rewrite Ho, Hc, Hm;
    destruct (attempt_count job <? max_attempts job) eqn:E; [done| |done|];
    by rewrite Z.leb_antisym, E.
Qed.

Definition settles (c : OwnerCall) : bool :=
  match c with CompleteJob _ | FailAttempt _ => true | _ => false end.

Lemma settled_is_released dl now a c r :
  settles c = true → unowned (apply_values (call_values dl now a c) r).
Proof using Type. destruct c; try done. cbn. unfold failed_values. by case_match. Qed.

(** An attempt is settled at most once: after it completed or failed, none of its
    owner's calls is accepted any more, in whatever order they arrive. *)
Theorem attempt_settles_once dl now now' a c c' db job
    (Hd : delay_known a c) (Hd' : delay_known a c')
    (Hj : jobs_table db !! at_job_id a = Some job) (Ha : attempt_of job = Ok a)
    (Hs : status job = PROCESSING) (Hset : settles c = true) :
  ∃ db1 db2, owner_call dl now a c db = (db1, Ok tt) ∧
    owner_call dl now' a c' db1 =
      (db2, Err (OwnershipLostError (at_job_id a) (at_worker_id a) (at_execution_token a))) ∧
    jobs_table db2 = jobs_table db1 ∧
    ∃ job', jobs_table db1 !! at_job_id a = Some job' ∧ unowned job' ∧ status job' ≠ PROCESSING.
Proof using PostgresLaws0.
  destruct (owner_call_hit dl now a c db job Hd Hj Ha Hs) as (db1 & H1 & Ht1).
  pose proof (settled_is_released dl now a c job Hset) as Hun.
  destruct (owner_call_cas dl now' a c' db1 Hd') as (db2 & H2 & Ht2).
  rewrite cas_miss in H2, Ht2.
  - exists db1, db2. split; [done|]. split; [done|]. split; [done|].
    eexists. rewrite Ht1, lookup_insert_eq. split; [done|]. split; [done|].
    destruct c; try done. cbn. unfold failed_values. by case_match.
  - intros r. rewrite Ht1, lookup_insert_eq. intros [= <-].
    destruct (call_fence now' a c' _) eqn:Hf; [|done].
    apply call_fence_owns in Hf. by rewrite unowned_not_owned in Hf.
  - intros r. rewrite Ht1, lookup_insert_eq. intros [= <-].
    destruct (call_fence now' a c' _) eqn:Hf; [|done].
    apply call_fence_owns in Hf. by rewrite unowned_not_owned in Hf.
Qed.

(** [complete_job] by the owner: the row is COMPLETED with the result, at 100%, no
    error and no owner; no other row changes. *)
Theorem owner_completes now a res db job
    (Hj : jobs_table db !! at_job_id a = Some job) (Hown : owns a job = true) :
  ∃ db' job', run_session (complete_job now a res) db = (db', Ok job') ∧
    jobs_table db' = <[at_job_id a := job']> (jobs_table db) ∧
    status job' = COMPLETED ∧ job_result job' = Some res ∧ progress job' = 100 ∧
    completed_at job' = Some now ∧ job_error job' = None ∧ unowned job' ∧
    attempt_count job' = attempt_count job.
Proof using PostgresLaws0.
  destruct (complete_job_cas now a res db) as (db' & Hu & Ht).
  rewrite (cas_hit _ _ _ _ job) in Hu, Ht by done.
  by exists db', (apply_values (complete_values now res) job).
Qed.

(** C27: [fail_attempt] by the owner, on the attempt number: the first failure waits
    30 seconds, the second 120, the last is final; the row is released and keeps
    the error, and its attempts are not counted again. *)
Theorem failed_attempt_backs_off now a e db job
    (Hj : jobs_table db !! at_job_id a = Some job) (Ha : attempt_of job = Ok a)
    (Hs : status job = PROCESSING) (Hd : has_delay (attempt_count job) (max_attempts job)) :
  ∃ db' job', run_session (fail_attempt now a e) db =
      (db', Ok {| ar_outcome := if attempt_count job <? max_attempts job
                                then RETRY_SCHEDULED else PERMANENTLY_FAILED; ar_job := job' |}) ∧
    jobs_table db' = <[at_job_id a := job']> (jobs_table db) ∧
    job_error job' = Some e ∧ unowned job' ∧ attempt_count job' = attempt_count job ∧
    if attempt_count job <? max_attempts job then
      status job' = SCHEDULED ∧
      scheduled_at job' = Some (now + (if attempt_count job =? 1 then 30 else 120) * 1000000)
    else status job' = FAILED ∧ completed_at job' = Some now.
Proof using PostgresLaws0.
  pose proof (owns_attempt_of _ _ Ha Hs) as Ho.
  apply attempt_of_spec in Ha as (_ & _ & _ & Hc & Hm).
  destruct (fail_attempt_cas now a e db) as (db' & Hu & Ht); [by rewrite Hc, Hm|].
  assert (may_fail now false a job = true) as Hmay.
  { unfold may_fail, has_attempts_left. rewrite Ho, Hc, Hm.
    destruct (attempt_count job <? max_attempts job) eqn:E; [done|].
    by rewrite Z.leb_antisym, E. }
  rewrite (cas_hit _ _ _ _ job) in Hu, Ht by done. rewrite Hc, Hm in Hu, Ht.
  eexists db', _. split; [rewrite Hu; cbn; unfold fail_result, outcome_of; by rewrite Hc, Hm|].
  split; [exact Ht|]. unfold failed_values.
  destruct (attempt_count job <? max_attempts job) eqn:E; [|done]. to_prop.
  do 3 (split; [done|]). split; [done|]. destruct (Hd E) as [-> | ->]; done.
Qed.

(** The policy knows no delay for a third or later retry (a job with more than
    three attempts): the failure is a ValueError and nothing at all is written. *)
Theorem unknown_delay_fails_closed now a e db
    (Hleft : at_attempt_count a < at_max_attempts a)
    (H1 : at_attempt_count a ≠ 1) (H2 : at_attempt_count a ≠ 2) :
  ∃ m, run_session (fail_attempt now a e) db = (db, Err (ValueError m)).
Proof using Type.
  destruct (apply_failed_no_delay now a e false (mk_session db db)) as [m Hm]; [|done..|].
  { by apply Z.ltb_lt. }
  exists m. unfold run_session, fail_attempt, bind. by rewrite Hm.
Qed.

(** [update_progress] by the owner stores the percentage clamped to 0..100 for any
    argument, so the CHECK constraint of the column never rejects it. *)
Theorem progress_is_clamped a p db job
    (Hj : jobs_table db !! at_job_id a = Some job) (Hown : owns a job = true) :
  ∃ db' job', run_session (update_progress a p) db = (db', Ok tt) ∧
    jobs_table db' = <[at_job_id a := job']> (jobs_table db) ∧
    0 ≤ progress job' ≤ 100 ∧ (0 ≤ p ≤ 100 → progress job' = p) ∧
    (p < 0 → progress job' = 0) ∧ (100 < p → progress job' = 100) ∧ owns a job' = true.
Proof using PostgresLaws0.
  destruct (update_progress_cas a p db) as (db' & Hu & Ht).
  rewrite (cas_hit _ _ _ _ job) in Hu, Ht by done.
  exists db', (apply_values [SetProgress (Z.max 0 (Z.min 100 p))] job).
  do 2 (split; [done|]). cbn. do 4 (split; [lia|]). done.
Qed.
End fenced.

(** ** Witnesses *)

Definition demo_attempt : Attempt := MkAttempt 9 "w1" 99 2 3.

Lemma claim_is_exclusive_witness :
  ∃ db' job', claim_all 60%Q 7 [{| cl_worker := "w1"; cl_token := 1; cl_now := 10; cl_lease := None |};
                                {| cl_worker := "w2"; cl_token := 2; cl_now := 10; cl_lease := None |}]
                demo_db = (db', [Ok (Some job'); Ok None]) ∧ worker_id job' = Some "w1".
Proof.
  destruct (claim_is_exclusive 60%Q 7
              {| cl_worker := "w1"; cl_token := 1; cl_now := 10; cl_lease := None |}
              [{| cl_worker := "w2"; cl_token := 2; cl_now := 10; cl_lease := None |}]
              demo_db demo_pending ltac:(repeat constructor) ltac:(vm_compute; done) ltac:(done))
    as (db' & job' & H1 & _ & H2).
  exists db', job'. split; [exact H1|]. by apply attempt_of_spec in H2 as (_ & H2 & _).
Defined.

Lemma stale_attempt_writes_nothing_witness :
  ∃ db', owner_call 60%Q 10 (MkAttempt 9 "w1" 98 1 3) (CompleteJob JNull) demo_db =
    (db', Err (OwnershipLostError 9 "w1" 98)) ∧ jobs_table db' = jobs_table demo_db.
Proof.
  apply (stale_attempt_writes_nothing 60%Q 10 (MkAttempt 9 "w1" 98 1 3) (CompleteJob JNull)).
  - done.
  - rewrite demo_db_table. intros job. vm_compute. by intros [= <-].
Defined.

Lemma attempt_settles_once_witness :
  ∃ db1 db2, owner_call 60%Q 10 demo_attempt (CompleteJob JNull) demo_db = (db1, Ok tt) ∧
    owner_call 60%Q 20 demo_attempt (FailAttempt "late") db1 =
      (db2, Err (OwnershipLostError 9 "w1" 99)).
Proof.
  destruct (attempt_settles_once 60%Q 10 20 demo_attempt (CompleteJob JNull) (FailAttempt "late")
              demo_db demo_processing ltac:(done) ltac:(by right) ltac:(vm_compute; done) ltac:(done)
              ltac:(done) ltac:(done)) as (db1 & db2 & H1 & H2 & _).
  exists db1, db2. by split.
Defined.

Lemma owner_completes_witness :
  ∃ db' job', run_session (complete_job 70 demo_attempt (JStr "done")) demo_db = (db', Ok job') ∧
    status job' = COMPLETED.
Proof.
  destruct (owner_completes 70 demo_attempt (JStr "done") demo_db demo_processing
              ltac:(vm_compute; done) ltac:(done)) as (db' & job' & H1 & _ & H2 & _).
  exists db', job'. by split.
Defined.

Lemma failed_attempt_backs_off_witness :
  ∃ db' job', run_session (fail_attempt 70 demo_attempt "boom") demo_db =
      (db', Ok {| ar_outcome := RETRY_SCHEDULED; ar_job := job' |}) ∧
    scheduled_at job' = Some 120000070.
Proof.
  destruct (failed_attempt_backs_off 70 demo_attempt "boom" demo_db demo_processing
              ltac:(vm_compute; done) ltac:(done) ltac:(done) ltac:(by right))
    as (db' & job' & H1 & _ & _ & _ & _ & _ & H2).
  exists db', job'. by split.
Defined.

Lemma unknown_delay_fails_closed_witness :
  ∃ m, run_session (fail_attempt 70 (MkAttempt 9 "w1" 99 3 5) "boom") demo_db =
    (demo_db, Err (ValueError m)).
Proof. apply unknown_delay_fails_closed; done. Defined.

Lemma progress_is_clamped_witness :
  ∃ db' job', run_session (update_progress demo_attempt 250) demo_db = (db', Ok tt) ∧
    progress job' = 100.
Proof.
  destruct (progress_is_clamped demo_attempt 250 demo_db demo_processing
              ltac:(vm_compute; done) ltac:(done)) as (db' & job' & H1 & _ & _ & _ & _ & H2 & _).
  exists db', job'. split; [exact H1|]. apply H2. lia.
Defined.
