(* ===== verification/Recovery.v ===== *)
(** * Recovery: expired leases, due jobs and the heartbeat between them

    The theorems about [recover_expired_leases], [activate_due_scheduled_jobs] and
    their race with a worker's heartbeat.  [locked] is the set of rows other
    transactions hold (SKIP LOCKED). *)

From S2P Require Import Prelude.
From S2P Require Import Text.
From S2P Require Import Errors.
From S2P Require Import Model.
From S2P Require Import Postgres.
From S2P Require Import MemDB.
From S2P Require Import Session.
From S2P Require Import RetryPolicy.
From S2P Require Import Config.
From S2P Require Import Ownership.
From Stdlib Require Import QArith.

Local Open Scope Z_scope.

(** Every PROCESSING row is one the sweep could settle; an invariant of the
    reachable databases (see [Lifecycle]). *)
Definition sweepable {DB} `{!Postgres DB} (db : DB) : Prop :=
  ∀ i r, jobs_table db !! i = Some r → status r = PROCESSING → recoverable r.

Lemma expired_spec now r :
  expired now r = true ↔ ∃ d, lease_expires_at r = Some d ∧ d < now.
Proof. unfold expired. destruct (lease_expires_at r); rewrite ?Z.ltb_lt; naive_solver. Qed.

Section batches.
Context {DB : Type} `{!Postgres DB, !PostgresLaws DB}.
Implicit Types db : DB.

(** C21: The sweep takes at most [limit] rows, each PROCESSING, expired and unlocked,
    and all of those when they fit; every row taken is settled by the retry policy
    as a failed attempt and released, every other row is untouched, and the
    answer lists exactly what was settled. *)
Theorem sweep_settles_the_expired now locked n db (Hok : sweepable db) :
  ∃ db' taken,
    run_session (recover_expired_leases now locked n) db =
      (db', Ok (recovered_result now <$> taken)) ∧
    (length taken ≤ n)%nat ∧ NoDup (job_id <$> taken) ∧
    (∀ r, r ∈ taken → jobs_table db !! job_id r = Some r ∧ status r = PROCESSING ∧
                      expired now r = true ∧ job_id r ∉ locked) ∧
    ((length taken < n)%nat → ∀ i r, jobs_table db !! i = Some r → status r = PROCESSING →
                      expired now r = true → i ∉ locked → r ∈ taken) ∧
    (∀ i r, jobs_table db !! i = Some r → ∃ r', jobs_table db' !! i = Some r' ∧
       if decide (i ∈ job_id <$> taken) then
         job_error r' = Some "worker lease expired" ∧ unowned r' ∧
         attempt_count r' = attempt_count r ∧
         (if attempt_count r <? max_attempts r then
            status r' = SCHEDULED ∧
            scheduled_at r' = Some (now + (if attempt_count r =? 1 then 30 else 120) * 1000000)
          else status r' = FAILED ∧ completed_at r' = Some now)
       else r' = r).
Proof using PostgresLaws0.
  destruct (recover_expired_leases_spec now locked n db) as (db' & Hrun & Ht); [by eauto|].
  destruct (pg_select_facts locked (expired_query now n) db _ _) as (Hnd & Hin & _ & Hlim).
  destruct (Hlim n eq_refl eq_refl) as [Hlen Hall].
  exists db', (pg_select locked (expired_query now n) db).
  do 3 (split; [done|]). split; [|split].
  - intros r [Hr (?&?&?)%visible_expired]%Hin. done.
  - intros Hlt i r Hr Hs He Hl. apply (Hall Hlt i r Hr). apply visible_expired.
    by rewrite (table_id _ _ _ Hr).
  - intros i r Hr. rewrite Ht, lookup_map_rows, Hr. eexists. split; [done|].
    case_decide as Hd; [rewrite bool_decide_true by done|by rewrite bool_decide_false].
    apply list_elem_of_fmap in Hd as (r0 & -> & Hd).
    apply Hin in Hd as [Hr' (Hs & He & _)%visible_expired]. rewrite Hr in Hr'. simplify_eq.
    destruct (Hok _ _ Hr Hs) as (_ & _ & Hdelay).
    unfold settled, failed_values. destruct (attempt_count r0 <? max_attempts r0) eqn:E; [|done].
    to_prop. do 2 (split; [done|]). split; [done|]. destruct (Hdelay E) as [-> | ->]; done.
Qed.

(** A sweep that raises has settled nothing: its batch is one transaction. *)
Theorem failed_sweep_recovers_nothing now locked n db db' e
    (Hfail : run_session (recover_expired_leases now locked n) db = (db', Err e)) : db' = db.
Proof using Type.
  eapply run_all_or_nothing, Hfail. unfold recover_expired_leases.
  apply aon_bind; [auto with session|]. intros l. apply aon_bind; [|intros; apply aon_commit].
  induction l as [|job l IH]; cbn [recover_each]; [auto with session|].
  apply quiet_bind; [auto with session|]. intros a.
  apply quiet_bind; [|intros; apply quiet_bind; auto with session].
  unfold apply_failed_attempt. apply quiet_bind; [|auto with session].
  case_match; repeat (apply quiet_bind; [auto with session|intros]); auto with session.
Qed.

(** Activation moves at most [limit] jobs to PENDING, each SCHEDULED, due and
    unlocked, and all of those when they fit; it returns exactly the rows it moved
    and leaves every other row as it is. *)
Theorem activation_moves_due_jobs now locked n db :
  ∃ db' taken moved,
    run_session (activate_due_scheduled_jobs now locked n) db = (db', Ok moved) ∧
    (length taken ≤ n)%nat ∧ NoDup (job_id <$> taken) ∧
    (∀ r, r ∈ taken → jobs_table db !! job_id r = Some r ∧ status r = SCHEDULED ∧
                      (job_id r ∉ locked) ∧ (∃ z, scheduled_at r = Some z ∧ z ≤ now)) ∧
    ((length taken < n)%nat → ∀ i r z, jobs_table db !! i = Some r → status r = SCHEDULED →
                      scheduled_at r = Some z → z ≤ now → i ∉ locked → r ∈ taken) ∧
    (job_id <$> moved) ≡ₚ (job_id <$> taken) ∧
    (∀ r', r' ∈ moved → jobs_table db' !! job_id r' = Some r') ∧
    (∀ i r, jobs_table db !! i = Some r → ∃ r', jobs_table db' !! i = Some r' ∧
       if decide (i ∈ job_id <$> taken) then
         status r' = PENDING ∧ attempt_count r' = attempt_count r ∧
         priority r' = priority r ∧ scheduled_at r' = scheduled_at r
       else r' = r).
Proof using PostgresLaws0.
  destruct (activate_spec now locked n db) as (db' & rs & Hrun & Hp & Ht).
  destruct (pg_select_facts locked (due_query now n) db _ _) as (Hnd & Hin & _ & Hlim).
  destruct (Hlim n eq_refl eq_refl) as [Hlen Hall].
  set (l := pg_select locked (due_query now n) db) in *. exists db', l, rs.
  do 3 (split; [done|]). split; [|split; [|split; [|split]]].
  - intros r [Hr [[Hs Hd]%holds_due Hl]%visible_due]%Hin. done.
  - intros Hlt i r z Hr Hs Hz Hle Hl. apply (Hall Hlt i r Hr), visible_due.
    rewrite (table_id _ _ _ Hr), holds_due. eauto.
  - rewrite Hp, <-list_fmap_compose. done.
  - intros r' Hr'. rewrite Hp in Hr'. apply list_elem_of_fmap in Hr' as (r & -> & Hr).
    rewrite job_id_apply_values, Ht, lookup_map_rows. destruct (Hin r Hr) as [-> _]. simpl.
    rewrite bool_decide_true; [done|]. by apply list_elem_of_fmap_2.
  - intros i r Hr. rewrite Ht, lookup_map_rows, Hr. eexists. split; [done|].
    case_decide; [by rewrite bool_decide_true|by rewrite bool_decide_false].
Qed.

(** Nobody activates a job a second time: two schedulers that run at the same
    moment, one after the other, return disjoint jobs, so no job is queued
    twice. *)
Theorem job_is_activated_once now locked locked' n n' db db1 db2 moved again
    (H1 : run_session (activate_due_scheduled_jobs now locked n) db = (db1, Ok moved))
    (H2 : run_session (activate_due_scheduled_jobs now locked' n') db1 = (db2, Ok again)) :
  ∀ i, i ∈ job_id <$> moved → i ∉ job_id <$> again.
Proof using PostgresLaws0.
  destruct (activate_spec now locked n db) as (db1' & rs & H1' & Hp & Ht).
  destruct (activate_spec now locked' n' db1) as (db2' & rs' & H2' & Hp' & _).
  rewrite H1 in H1'. rewrite H2 in H2'. simplify_eq.
  destruct (pg_select_facts locked (due_query now n) db _ _) as (_ & Hin & _).
  destruct (pg_select_facts locked' (due_query now n') db1' _ _) as (_ & Hin' & _).
  intros i Hi Hi'. rewrite Hp, <-list_fmap_compose in Hi. rewrite Hp', <-list_fmap_compose in Hi'.
  apply list_elem_of_fmap in Hi as (r & -> & Hr). apply list_elem_of_fmap in Hi' as (r' & Hid & Hr').
  change (job_id r = job_id r') in Hid.
  destruct (Hin' r' Hr') as [Hlk [[Hs _]%holds_due _]%visible_due].
  rewrite <-Hid, Ht, lookup_map_rows in Hlk. destruct (Hin r Hr) as [Hr0 _].
  rewrite Hr0 in Hlk. simpl in Hlk. rewrite bool_decide_true in Hlk.
  - injection Hlk as <-. done.
  - by apply list_elem_of_fmap_2.
Qed.

(** Heartbeat against recovery, both orders.  A beat that lands first keeps the
    job: no sweep before the new deadline takes it.  A sweep that settles the
    attempt first makes the beat fail, and the worker learns it lost the job. *)
Theorem heartbeat_and_recovery_exclude dl now a ls locked n db job
    (Hok : sweepable db)
    (Hj : jobs_table db !! at_job_id a = Some job) (Hown : owns a job = true) :
  (∃ db1, run_session (extend_lease dl now a ls) db = (db1, Ok (lease_deadline dl now ls)) ∧
     ∀ now' db2 rs, now' ≤ lease_deadline dl now ls →
       run_session (recover_expired_leases now' locked n) db1 = (db2, Ok rs) →
       jobs_table db2 !! at_job_id a = jobs_table db1 !! at_job_id a) ∧
  (∀ now' db1 rs,
     run_session (recover_expired_leases now' locked n) db = (db1, Ok rs) →
     jobs_table db1 !! at_job_id a ≠ Some job →
     ∃ db2, run_session (extend_lease dl now a ls) db1 =
       (db2, Err (OwnershipLostError (at_job_id a) (at_worker_id a) (at_execution_token a)))).
Proof using PostgresLaws0.
  split.
  - destruct (extend_lease_cas dl now a ls db) as (db1 & Hu & Ht).
    rewrite (cas_hit _ _ _ _ job) in Hu, Ht by done. cbn [fst snd or_lost] in Hu, Ht.
    exists db1. split; [done|]. intros now' db2 rs Hle Hrun.
    destruct (recover_expired_leases_spec now' locked n db1) as (db2' & Hrun' & Ht2).
    { intros i r Hr Hs _. rewrite Ht in Hr.
      apply lookup_insert_Some in Hr as [[<- <-]|[_ Hr]]; [|by eauto].
      exact (Hok _ _ Hj Hs). }
    rewrite Hrun in Hrun'. simplify_eq. rewrite Ht2, lookup_map_rows, Ht, lookup_insert_eq. simpl.
    rewrite bool_decide_false; [done|]. intros (r & Hid & Hr)%list_elem_of_fmap.
    destruct (pg_select_facts locked (expired_query now' n) db1 _ _) as (_ & Hin & _).
    destruct (Hin r Hr) as [Hlk (_ & (d & Hd & Hlt)%expired_spec & _)%visible_expired].
    rewrite <-Hid, Ht, lookup_insert_eq in Hlk. injection Hlk as <-. simpl in Hd.
    simplify_eq. lia.
  - intros now' db1 rs Hrun Hne.
    destruct (recover_expired_leases_spec now' locked n db) as (db1' & Hrun' & Ht); [by eauto|].
    rewrite Hrun in Hrun'. simplify_eq.
    destruct (extend_lease_cas dl now a ls db1') as (db2 & Hu & _). exists db2.
    rewrite cas_miss in Hu; [done|]. rewrite Ht, lookup_map_rows, Hj in *. simpl in *.
    intros r [= <-]. case_bool_decide; [|done]. apply unowned_not_owned, settled_unowned.
Qed.
End batches.

(** ** Beating on time *)

(** With settings that pass validation, a worker that beats at every heartbeat
    interval is never past its lease: at the moment of the next beat the row it
    claimed or extended is not expired, down to the microsecond rounding of the two
    intervals. *)
Theorem beat_arrives_before_expiry (s : Settings) now r
    (Hs : validate_settings s = Ok s)
    (Hr : lease_expires_at r = Some (lease_deadline (job_lease_seconds s) now None)) :
  expired (now + timedelta_seconds (job_heartbeat_seconds s)) r = false.
Proof.
  unfold expired. rewrite Hr. apply Z.ltb_ge. unfold lease_deadline. apply Z.add_le_mono_l.
  unfold validate_settings in Hs. destruct (filter _ _) as [|[name c] l]; [|done].
  unfold heartbeat_must_beat_before_the_lease_expires in Hs.
  destruct (Qle_bool _ _) eqn:Hle; [done|].
  assert (¬ (job_lease_seconds s <= job_heartbeat_seconds s)%Q) as Hlt.
  { intros H. apply Qle_bool_iff in H. congruence. }
  apply Qnot_le_lt in Hlt. unfold timedelta_seconds. apply round_half_even_mono; [done..|].
  unfold Qlt in Hlt. nia.
Qed.

(** The default settings with a heartbeat just below the lease. *)
Definition tight_settings : Settings :=
  configured (database_url default_settings) 60 (599999999 # 10000000).

(** Validation asks for no headroom beyond that order: there are settings it accepts
    under which a beat that is late by any delay at all finds its lease expired. *)
Lemma headroom_is_not_required :
  validate_settings tight_settings = Ok tight_settings ∧
  ∀ now d r, 0 < d →
    lease_expires_at r = Some (lease_deadline (job_lease_seconds tight_settings) now None) →
    expired (now + timedelta_seconds (job_heartbeat_seconds tight_settings) + d) r = true.
Proof.
  split; [reflexivity|]. intros now d r Hd Hr. unfold expired. rewrite Hr. apply Z.ltb_lt.
  unfold lease_deadline. change (timedelta_seconds (job_heartbeat_seconds _)) with 60000000.
  change (timedelta_seconds _) with 60000000. lia.
Qed.

(** ** Witnesses *)

Lemma demo_sweepable : sweepable demo_db.
Proof.
  intros i r Hr Hs. rewrite demo_db_table in Hr. unfold demo_table in Hr.
  repeat (apply lookup_insert_Some in Hr as [[<- <-]|[_ Hr]]; [try done|]).
  2: apply lookup_singleton_Some in Hr as [<- <-]; done.
  split; [by eexists|]. split; [by eexists|]. by right.
Qed.

(** A PROCESSING row without a token, which no operation leaves behind. *)
Definition poisoned_db : MemDB :=
  mem_of {[ 9 := apply_values [SetExecutionToken None] demo_processing ]}.

Lemma sweep_settles_the_expired_witness :
  ∃ db' taken, run_session (recover_expired_leases 60003001 ∅ 100) demo_db =
    (db', Ok (recovered_result 60003001 <$> taken)) ∧ demo_processing ∈ taken.
Proof.
  destruct (sweep_settles_the_expired 60003001 ∅ 100 demo_db demo_sweepable)
    as (db' & taken & H1 & _ & _ & H2 & H3 & _).
  exists db', taken. split; [exact H1|].
  assert (match (run_session (recover_expired_leases 60003001 ∅ 100) demo_db).2 with
          | Ok l => length l | Err _ => O end = 1%nat) as Hl by (vm_compute; done).
  rewrite H1 in Hl. cbn [snd] in Hl. rewrite length_fmap in Hl.
  apply (H3 ltac:(rewrite Hl; lia) 9); [vm_compute; done|done|done|set_solver].
Defined.

Lemma failed_sweep_recovers_nothing_witness :
  ∃ db' e, run_session (recover_expired_leases 60003001 ∅ 100) poisoned_db = (db', Err e) ∧
           db' = poisoned_db.
Proof.
  destruct (run_session (recover_expired_leases 60003001 ∅ 100) poisoned_db) as [db' [x|e]] eqn:E.
  - exfalso. apply (f_equal (λ p, match p.2 with Ok _ => true | Err _ => false end)) in E.
    vm_compute in E. done.
  - exists db', e. split; [done|]. eapply failed_sweep_recovers_nothing, E.
Defined.

Lemma activation_moves_due_jobs_witness :
  ∃ db' moved, run_session (activate_due_scheduled_jobs 5000000 ∅ 10) demo_db = (db', Ok moved) ∧
    8 ∈ job_id <$> moved.
Proof.
  destruct (activation_moves_due_jobs 5000000 ∅ 10 demo_db)
    as (db' & taken & moved & H1 & _ & _ & _ & H2 & H3 & _).
  exists db', moved. split; [exact H1|].
  assert (match (run_session (activate_due_scheduled_jobs 5000000 ∅ 10) demo_db).2 with
          | Ok l => job_id <$> l | Err _ => [] end = [8]) as Hl by (vm_compute; done).
  rewrite H1 in Hl. cbn [snd] in Hl. rewrite Hl. by left.
Defined.

Lemma job_is_activated_once_witness :
  ∃ db1 db2 moved again,
    run_session (activate_due_scheduled_jobs 5000000 ∅ 10) demo_db = (db1, Ok moved) ∧
    run_session (activate_due_scheduled_jobs 5000000 ∅ 10) db1 = (db2, Ok again) ∧
    (∀ i, i ∈ job_id <$> moved → i ∉ job_id <$> again).
Proof.
  destruct (activate_spec 5000000 ∅ 10 demo_db) as (db1 & moved & E1 & _).
  destruct (activate_spec 5000000 ∅ 10 db1) as (db2 & again & E2 & _).
  exists db1, db2, moved, again. split; [exact E1|]. split; [exact E2|].
  exact (job_is_activated_once 5000000 ∅ ∅ 10 10 demo_db db1 db2 moved again E1 E2).
Defined.

Lemma heartbeat_and_recovery_exclude_witness :
  ∃ db1, run_session (extend_lease 60%Q 60000000 (MkAttempt 9 "w1" 99 2 3) None) demo_db =
           (db1, Ok 120000000) ∧
    ∀ db2 rs, run_session (recover_expired_leases 120000000 ∅ 100) db1 = (db2, Ok rs) →
      jobs_table db2 !! 9 = jobs_table db1 !! 9.
Proof.
  destruct (heartbeat_and_recovery_exclude 60%Q 60000000 (MkAttempt 9 "w1" 99 2 3) None ∅ 100
              demo_db demo_processing demo_sweepable ltac:(vm_compute; done) ltac:(done))
    as [(db1 & H1 & H2) _].
  exists db1. split; [exact H1|]. intros db2 rs. apply H2. vm_compute. done.
Defined.

Lemma beat_arrives_before_expiry_witness :
  expired 20001000 (apply_values [SetLeaseExpiresAt (Some 60001000)] demo_processing) = false.
Proof. apply (beat_arrives_before_expiry default_settings 1000); reflexivity. Defined.
