(* ===== verification/Lifecycle.v ===== *)
(** * Lifecycle: the whole service as a transition system

    A system state is the database, the Redis store and the execution tokens minted
    so far.  A step is one call of a service function, with any arguments, made by
    any client, worker or loop; [step_redis] lets Redis change in any way at all, so
    nothing proved here depends on the ready index.  [move] is the abstract life of
    one job, on its status and attempt count alone; every step makes every row
    follow it, and [job_wf] is the invariant that makes the steps total. *)

From S2P Require Import Prelude.
From S2P Require Import Text.
From S2P Require Import Errors.
From S2P Require Import Model.
From S2P Require Import Postgres.
From S2P Require Import MemDB.
From S2P Require Import Session.
From S2P Require Import RetryPolicy.
From S2P Require Import Config.
From S2P Require Import Ownership.
From S2P Require Import Redis.
From S2P Require Import ReadyQueue.
From S2P Require Import Schemas.
From S2P Require Import Submission.
From S2P Require Import Mutations.
From S2P Require Import Fencing.
From S2P Require Import Recovery.
From Stdlib Require Import QArith.

Local Open Scope Z_scope.

(** ** The abstract life of a job *)

Definition phase (r : Job) : JobStatus * Z := (status r, attempt_count r).

Inductive move : JobStatus * Z → JobStatus * Z → Prop :=
  | move_stay p : move p p
  | move_claim n : n < 3 → move (PENDING, n) (PROCESSING, n + 1)
  | move_complete n : move (PROCESSING, n) (COMPLETED, n)
  | move_back_off n : n < 3 → move (PROCESSING, n) (SCHEDULED, n)
  | move_exhaust : move (PROCESSING, 3) (FAILED, 3)
  | move_activate n : move (SCHEDULED, n) (PENDING, n)
  | move_cancel_pending n : move (PENDING, n) (CANCELLED, n)
  | move_cancel_scheduled n : move (SCHEDULED, n) (CANCELLED, n)
  | move_retry n : move (FAILED, n) (PENDING, 0).

(** What the submitter decided never changes. *)
Definition same_submission (r r' : Job) : Prop :=
  job_id r' = job_id r ∧ job_type r' = job_type r ∧ payload r' = payload r ∧
  priority r' = priority r ∧ max_attempts r' = max_attempts r ∧ created_at r' = created_at r.

(** ** Well-formed rows *)

Record job_wf (r : Job) : Prop := {
  wf_type : ∃ ty, job_type r = jobtype_value ty;
  wf_max : max_attempts r = 3;
  wf_count : 0 ≤ attempt_count r ≤ 3;
  wf_owned : status r = PROCESSING →
    is_Some (worker_id r) ∧ is_Some (execution_token r) ∧ is_Some (lease_expires_at r) ∧
    is_Some (started_at r) ∧ 1 ≤ attempt_count r;
  wf_unowned : status r ≠ PROCESSING → unowned r;
  wf_runnable : status r = PENDING ∨ status r = SCHEDULED → attempt_count r < 3;
  wf_scheduled : status r = SCHEDULED → is_Some (scheduled_at r);
  wf_completed : status r = COMPLETED →
    is_Some (job_result r) ∧ progress r = 100 ∧ job_error r = None ∧ is_Some (completed_at r);
  wf_failed : status r = FAILED →
    attempt_count r = 3 ∧ is_Some (job_error r) ∧ is_Some (completed_at r)
}.

(** How a step may change one row; [fresh] are the tokens it mints. *)
Record evolves (fresh : gset uuid) (r r' : Job) : Prop := {
  ev_wf : job_wf r';
  ev_move : move (phase r) (phase r');
  ev_same : same_submission r r';
  ev_token t : execution_token r' = Some t → execution_token r = Some t ∨ t ∈ fresh;
  ev_result : status r = COMPLETED →
    job_result r' = job_result r ∧ completed_at r' = completed_at r
}.

Record table_evolves (fresh : gset uuid) (t t' : table) : Prop := {
  te_old i r : t !! i = Some r → ∃ r', t' !! i = Some r' ∧ evolves fresh r r';
  te_new i r' : t !! i = None → t' !! i = Some r' →
    job_wf r' ∧ (status r' = PENDING ∨ status r' = SCHEDULED) ∧ attempt_count r' = 0 ∧ unowned r'
}.

Definition table_wf (t : table) : Prop := map_Forall (λ _ r, job_wf r) t.

Lemma evolves_refl fresh r : job_wf r → evolves fresh r r.
Proof. intros Hw. split; [done|constructor|done|auto|done]. Qed.

Lemma table_evolves_refl fresh t : table_wf t → table_evolves fresh t t.
Proof. intros Hw. split; [eauto using evolves_refl|congruence]. Qed.

Lemma table_evolves_wf fresh t t' : table_evolves fresh t t' → table_wf t'.
Proof.
  intros [Hold Hnew] i r' Hr'. destruct (t !! i) as [r|] eqn:Hr.
  - destruct (Hold i r Hr) as (r'' & Hr'' & []). by simplify_eq.
  - by apply (Hnew i r').
Qed.

Lemma cas_evolves fresh i p f t :
  table_wf t → (∀ r, job_wf r → p r = true → evolves fresh r (f r)) →
  table_evolves fresh t (cas i p f t).1.
Proof.
  intros Hw Hf. unfold cas. destruct (t !! i) as [r|] eqn:Hr; [|by apply table_evolves_refl].
  destruct (p r) eqn:Hp; [|by apply table_evolves_refl]. simpl. split.
  - intros j r0 Hj. rewrite lookup_insert. case_decide as Hij; [|eauto using evolves_refl].
    subst j. simplify_eq. eauto.
  - intros j r'. rewrite lookup_insert. case_decide; congruence.
Qed.

Lemma map_rows_evolves fresh f ids t :
  table_wf t → (∀ i r, t !! i = Some r → i ∈ ids → evolves fresh r (f r)) →
  table_evolves fresh t (map_rows f ids t).
Proof.
  intros Hw Hf. split.
  - intros i r Hr. rewrite lookup_map_rows, Hr. simpl. eexists. split; [done|].
    case_bool_decide; eauto using evolves_refl.
  - intros i r' Hn. by rewrite lookup_map_rows, Hn.
Qed.

(** ** Each operation evolves the rows it touches *)

(** Split a row's status in every hypothesis and goal of an [evolves]. *)
Ltac wf_row Hw :=
  pose proof (wf_type _ Hw); pose proof (wf_max _ Hw); pose proof (wf_count _ Hw); pose proof (wf_owned _ Hw);
  pose proof (wf_unowned _ Hw); pose proof (wf_runnable _ Hw); pose proof (wf_scheduled _ Hw);
  pose proof (wf_completed _ Hw); pose proof (wf_failed _ Hw).

Ltac solve_wf :=
  split; cbn;
  first
    [ assumption | lia | done | (intros; congruence) | (intros [?|?]; congruence)
    | (intros; split_and!; first [done | lia | by eexists])
    | (intros; lia) | auto ].

Lemma evolves_claim now d w tok r :
  job_wf r → claimable r = true → evolves {[tok]} r (apply_values (claim_values now d w tok) r).
Proof.
  intros Hw [Hs Hlt]%andb_prop. to_prop. wf_row Hw. split.
  - solve_wf.
  - unfold phase. cbn. rewrite Hs. constructor. lia.
  - done.
  - cbn. intros t [= <-]. right. set_solver.
  - congruence.
Qed.

Lemma evolves_extend d r :
  job_wf r → status r = PROCESSING → evolves ∅ r (apply_values [SetLeaseExpiresAt (Some d)] r).
Proof.
  intros Hw Hs. wf_row Hw. split; [|constructor|done|cbn; auto|congruence].
  split; cbn; try done. intros Hp. by destruct (wf_owned _ Hw Hp) as (?&?&_&?&?).
Qed.

Lemma evolves_progress p r :
  job_wf r → status r = PROCESSING → evolves ∅ r (apply_values [SetProgress p] r).
Proof.
  intros Hw Hs. wf_row Hw. split; [|constructor|done|cbn; auto|congruence].
  split; cbn; try done. congruence.
Qed.

Lemma evolves_complete now res r :
  job_wf r → status r = PROCESSING → evolves ∅ r (apply_values (complete_values now res) r).
Proof.
  intros Hw Hs. wf_row Hw. split; [|unfold phase; cbn; rewrite Hs; constructor|done|done|congruence].
  solve_wf.
Qed.

(** The SQL of a failed attempt re-proves the branch it was built for, so even
    counters that disagree with the row cannot break it. *)
Lemma evolves_fail now now' e recheck a r :
  job_wf r → may_fail now recheck a r = true →
  evolves ∅ r (apply_values (failed_values now' e (at_attempt_count a) (at_max_attempts a)) r).
Proof.
  intros Hw Hmay. wf_row Hw. unfold may_fail in Hmay.
  apply andb_prop in Hmay as [[Ho Hc]%andb_prop _].
  apply owns_spec in Ho as (Hs & _). unfold failed_values, has_attempts_left in *.
  destruct (at_attempt_count a <? at_max_attempts a); to_prop.
  - split; [|unfold phase; cbn; rewrite Hs; constructor; lia|done|done|congruence]. solve_wf.
  - assert (attempt_count r = 3) as Hc3 by lia.
    split; [|unfold phase; cbn; rewrite Hs, Hc3; constructor|done|done|congruence]. solve_wf.
Qed.

(** What a failed attempt of any running row leaves. *)
Lemma evolves_settled now e r : job_wf r → status r = PROCESSING → evolves ∅ r (settled now e r).
Proof.
  intros Hw Hs. destruct (attempt_of r) as [a|x] eqn:Ha.
  2:{ destruct (wf_owned _ Hw Hs) as ([? Hwk] & [? Htok] & _). unfold attempt_of in Ha.
      by rewrite Hwk, Htok in Ha. }
  pose proof (owns_attempt_of _ _ Ha Hs) as Ho. apply attempt_of_spec in Ha as (_ & _ & _ & Hc & Hm).
  unfold settled. rewrite <-Hc, <-Hm. apply (evolves_fail now now e false a); [done|].
  unfold may_fail, has_attempts_left. rewrite Ho, Hc, Hm, andb_true_r. cbn.
  destruct (attempt_count r <? max_attempts r) eqn:E; [done|]. by rewrite Z.leb_antisym, E.
Qed.

Lemma evolves_activate r :
  job_wf r → status r = SCHEDULED → evolves ∅ r (apply_values [SetStatus PENDING] r).
Proof.
  intros Hw Hs. wf_row Hw.
  split; [|unfold phase; cbn; rewrite Hs; constructor|done|cbn; auto|congruence].
  assert (unowned r) by (apply (wf_unowned _ Hw); congruence). solve_wf.
Qed.

Lemma evolves_cancel r : job_wf r → cancellable r = true → evolves ∅ r (cancelled r).
Proof.
  intros Hw Hc. wf_row Hw. apply cancellable_spec in Hc.
  split; [|unfold phase; destruct Hc as [Hs|Hs]; cbn; rewrite Hs; constructor|done|done|
    destruct Hc; congruence].
  solve_wf.
Qed.

Lemma evolves_retry r : job_wf r → failed r = true → evolves ∅ r (retried r).
Proof.
  intros Hw Hs. wf_row Hw. unfold failed in Hs. to_prop.
  split; [|unfold phase; cbn; rewrite Hs; constructor|done|done|congruence]. solve_wf.
Qed.

Lemma evolves_release_key r : job_wf r → evolves ∅ r (released_key r).
Proof. intros Hw. split; [|constructor|done|cbn; auto|done]. by destruct Hw. Qed.

Lemma wf_recoverable r : job_wf r → status r = PROCESSING → recoverable r.
Proof.
  intros Hw Hs. destruct (wf_owned _ Hw Hs) as (?&?&_&_&?). pose proof (wf_max _ Hw).
  split; [done|]. split; [done|]. intros Hlt. lia.
Qed.

(** A freshly built job. *)
Lemma build_job_wf now id created request key job :
  build_job now id created request key = Ok job →
  job_wf job ∧ (status job = PENDING ∨ status job = SCHEDULED) ∧ attempt_count job = 0 ∧
  unowned job.
Proof.
  unfold build_job. destruct (match req_scheduled_at request with Some _ => _ | None => _ end)
    as [sch|]; [|done]. intros [= <-]. cbn.
  destruct sch as [z|]; cbn; [destruct (now <? z)|]; (split; [|by (split; [auto|done])]); split; cbn;
    first [done|lia|intros; first [by eexists|congruence|lia|done]].
Qed.

(** ** The system *)

Record Sys (DB R : Type) := mk_sys { sys_db : DB; sys_redis : R; minted : gset uuid }.
Arguments mk_sys {DB R}. Arguments sys_db {DB R}. Arguments sys_redis {DB R}.
Arguments minted {DB R}.

Section system.
Context {DB : Type} `{!Postgres DB} {R : Type} `{!Redis R}.
Implicit Types s : Sys DB R.

Inductive step : Sys DB R → Sys DB R → Prop :=
  (** A client submits a job ([between]-interleavings are in [Submission]). *)
  | step_submit s env f request key db' r' res :
      alone env →
      submit_job env f request key (sys_db s) (sys_redis s) = (db', r', res) →
      step s (mk_sys db' r' (minted s))
  (** A worker tries to claim; [uuid4] never repeats a token. *)
  | step_claim s dl now tok id w ls db' res :
      tok ∉ minted s → varchar_ok 128 w = true →
      run_session (claim_job dl now tok id w ls) (sys_db s) = (db', res) →
      step s (mk_sys db' (sys_redis s) ({[tok]} ∪ minted s))
  (** Any attempt, current, stale or made up, writes through the fence. *)
  | step_owner s dl now a c db' res :
      owner_call dl now a c (sys_db s) = (db', res) →
      step s (mk_sys db' (sys_redis s) (minted s))
  | step_activate s now locked n db' res :
      run_session (activate_due_scheduled_jobs now locked n) (sys_db s) = (db', res) →
      step s (mk_sys db' (sys_redis s) (minted s))
  | step_recover s now locked n db' res :
      run_session (recover_expired_leases now locked n) (sys_db s) = (db', res) →
      step s (mk_sys db' (sys_redis s) (minted s))
  | step_cancel s f bq id db' r' res :
      cancel_job (λ db, db) f bq id (sys_db s) (sys_redis s) = (db', r', res) →
      step s (mk_sys db' r' (minted s))
  | step_retry s f id db' r' res :
      retry_job (λ db, db) f id (sys_db s) (sys_redis s) = (db', r', res) →
      step s (mk_sys db' r' (minted s))
  (** The ready index loses, gains or reorders entries. *)
  | step_redis s r' : step s (mk_sys (sys_db s) r' (minted s)).

Definition initial s : Prop := jobs_table (sys_db s) = ∅ ∧ minted s = ∅.
Definition reachable s : Prop := ∃ s0, initial s0 ∧ rtc step s0 s.

Context `{!PostgresLaws DB}.
Implicit Types db : DB.

Abbreviation T s := (jobs_table (sys_db s)).

(** A submission releases an expired key and adds a row, or does nothing. *)
Lemma submit_table env f request key db (r : R) db' r' res :
  alone env → submit_job env f request key db r = (db', r', res) →
  jobs_table db' = jobs_table db ∨
  ∃ job, build_job (now_build env) (new_id env) (db_now env) request key = Ok job ∧
    jobs_table db !! new_id env = None ∧
    jobs_table db' = <[new_id env := job]> (after_release env key (jobs_table db)).
Proof using PostgresLaws0.
  intros Ha Hsub.
  assert (∃ res', run_session (create_job env request key) db = (db', res')) as [res' Hrun].
  { unfold submit_job, submit_job_over in Hsub. cbn [db_call] in Hsub. destruct (run_session _ db) as [d [[job c]|e]]; repeat case_match;
      simplify_eq; eauto. }
  destruct (create_job_cases env request key db db' res' Ha Hrun)
    as [[-> _]|(job & Hb & _ & _ & Hnew & Ht)]; [by left|]. right. by exists job.
Qed.

Lemma submit_evolves env f request key db (r : R) db' r' res :
  alone env → submit_job env f request key db r = (db', r', res) →
  table_wf (jobs_table db) → table_evolves ∅ (jobs_table db) (jobs_table db').
Proof using PostgresLaws0.
  intros Ha [->|(job & Hb & Hnew & ->)]%submit_table Hw; [by apply table_evolves_refl| |done].
  pose proof (build_job_wf _ _ _ _ _ _ Hb) as Hjob.
  assert (∀ i r0, jobs_table db !! i = Some r0 → ∃ r1,
    after_release env key (jobs_table db) !! i = Some r1 ∧ evolves ∅ r0 r1) as Hrel.
  { intros i r0 Hr0. unfold after_release. case_match; [|eauto using evolves_refl].
    rewrite lookup_release_key, Hr0. simpl. eexists. split; [done|].
    case_decide; [eauto using evolves_release_key|eauto using evolves_refl]. }
  split.
  - intros i r0 Hr0. rewrite lookup_insert_ne by (intros Heq; congruence). by apply Hrel.
  - intros i r1 Hn. rewrite lookup_insert. case_decide; [intros [= <-]; done|].
    unfold after_release. case_match; [|congruence]. by rewrite lookup_release_key, Hn.
Qed.

Lemma owner_evolves dl now a c db db' res :
  owner_call dl now a c db = (db', res) →
  table_wf (jobs_table db) → table_evolves ∅ (jobs_table db) (jobs_table db').
Proof using PostgresLaws0.
  intros Hc Hw. destruct (decide (delay_known a c)) as [Hd|Hd].
  - destruct (owner_call_cas dl now a c db Hd) as (db1 & Hu & Ht). rewrite Hc in Hu.
    simplify_eq. rewrite Ht. apply cas_evolves; [done|]. intros r Hwr Hp.
    apply call_fence_owns in Hp as Ho. apply owns_spec in Ho as [Hs _].
    destruct c; [by apply evolves_extend|by apply evolves_progress|by apply evolves_complete|].
    by eapply evolves_fail.
  - destruct (owner_call_no_delay dl now a c db Hd) as [res1 Hu]. rewrite Hc in Hu.
    simplify_eq. by apply table_evolves_refl.
Qed.

Lemma wf_sweepable db : table_wf (jobs_table db) → sweepable db.
Proof using Type. intros Hw i r Hr Hs. apply wf_recoverable; [by eapply Hw|done]. Qed.

Lemma recover_evolves now locked n db db' res :
  run_session (recover_expired_leases now locked n) db = (db', res) →
  table_wf (jobs_table db) →
  table_evolves ∅ (jobs_table db) (jobs_table db') ∧ ∃ rs, res = Ok rs.
Proof using PostgresLaws0.
  intros Hrun Hw. destruct (recover_expired_leases_spec now locked n db) as (db1 & Hu & Ht).
  { intros i r Hr Hs _. by eapply wf_sweepable. }
  rewrite Hrun in Hu. simplify_eq. split; [|eauto]. rewrite Ht.
  apply map_rows_evolves; [done|]. intros i r Hr (r' & -> & Hr')%list_elem_of_fmap.
  destruct (pg_select_facts locked (expired_query now n) db _ _) as (_ & Hin & _).
  destruct (Hin r' Hr') as [Hlk (Hs & He & _)%visible_expired].
  rewrite Hr in Hlk. simplify_eq. by apply evolves_settled; [eapply Hw|].
Qed.

Lemma activate_evolves now locked n db db' res :
  run_session (activate_due_scheduled_jobs now locked n) db = (db', res) →
  table_wf (jobs_table db) → table_evolves ∅ (jobs_table db) (jobs_table db').
Proof using PostgresLaws0.
  intros Hrun Hw. destruct (activate_spec now locked n db) as (db1 & rs & Hu & _ & Ht).
  rewrite Hrun in Hu. simplify_eq. rewrite Ht.
  apply map_rows_evolves; [done|]. intros i r Hr (r' & -> & Hr')%list_elem_of_fmap.
  destruct (pg_select_facts locked (due_query now n) db _ _) as (_ & Hin & _).
  destruct (Hin r' Hr') as [Hlk [[Hs _]%holds_due _]%visible_due].
  rewrite Hr in Hlk. simplify_eq. apply evolves_activate; [by eapply Hw|done].
Qed.

Lemma cancel_table f bq id db (r : R) db' r' res :
  cancel_job (λ db, db) f bq id db r = (db', r', res) →
  jobs_table db' = (cas id cancellable cancelled (jobs_table db)).1.
Proof using PostgresLaws0.
  intros Hrun. destruct (cancel_update db id) as (db1 & Hu & <-).
  unfold cancel_job, cancel_job_over in Hrun. cbn [db_call] in Hrun. rewrite Hu in Hrun. destruct ((cas _ _ _ _).2); [by simplify_eq|].
  rewrite run_get_job in Hrun. repeat case_match; by simplify_eq.
Qed.

Lemma cancel_evolves f bq id db (r : R) db' r' res :
  cancel_job (λ db, db) f bq id db r = (db', r', res) →
  table_wf (jobs_table db) → table_evolves ∅ (jobs_table db) (jobs_table db').
Proof using PostgresLaws0.
  intros ->%cancel_table Hw. apply cas_evolves; [done|]. intros; by apply evolves_cancel.
Qed.

Lemma retry_table f id db (r : R) db' r' res :
  retry_job (λ db, db) f id db r = (db', r', res) →
  jobs_table db' = (cas id failed retried (jobs_table db)).1.
Proof using PostgresLaws0.
  intros Hrun. destruct (retry_update db id) as (db1 & Hu & <-).
  unfold retry_job, retry_job_over in Hrun. cbn [db_call] in Hrun. rewrite Hu in Hrun. destruct ((cas _ _ _ _).2).
  - repeat case_match; by simplify_eq.
  - rewrite run_get_job in Hrun. repeat case_match; by simplify_eq.
Qed.

Lemma retry_evolves f id db (r : R) db' r' res :
  retry_job (λ db, db) f id db r = (db', r', res) →
  table_wf (jobs_table db) → table_evolves ∅ (jobs_table db) (jobs_table db').
Proof using PostgresLaws0.
  intros ->%retry_table Hw. apply cas_evolves; [done|]. intros; by apply evolves_retry.
Qed.

Lemma claim_evolves dl now tok id w ls db db' res :
  varchar_ok 128 w = true → run_session (claim_job dl now tok id w ls) db = (db', res) →
  table_wf (jobs_table db) → table_evolves {[tok]} (jobs_table db) (jobs_table db').
Proof using PostgresLaws0.
  intros Hlen Hrun Hw. destruct (claim_job_cas dl now tok id w ls db Hlen) as (db1 & Hu & Ht).
  rewrite Hrun in Hu. simplify_eq. rewrite Ht. apply cas_evolves; [done|].
  intros; by apply evolves_claim.
Qed.

Lemma table_evolves_mono (F G : gset uuid) t t' :
  F ⊆ G → table_evolves F t t' → table_evolves G t t'.
Proof using Type.
  intros HFG [Hold Hnew]. split; [|done]. intros i r Hr.
  destruct (Hold i r Hr) as (r' & Hr' & [? ? ? Htok ?]). exists r'. split; [done|].
  split; [done..| |done]. intros t0 Ht0. destruct (Htok t0 Ht0); [by left|right; by apply HFG].
Qed.

(** What a sweep and an activation leave as it is. *)
Lemma sweep_spares now locked n db db' res i r :
  run_session (recover_expired_leases now locked n) db = (db', res) →
  table_wf (jobs_table db) → jobs_table db !! i = Some r → expired now r = false →
  jobs_table db' !! i = Some r.
Proof using PostgresLaws0.
  intros Hrun Hw Hr Hn. destruct (recover_expired_leases_spec now locked n db) as (db1 & Hu & Ht).
  { intros j r0 Hr0 Hs _. by eapply wf_sweepable. }
  rewrite Hrun in Hu. simplify_eq. rewrite Ht, lookup_map_rows, Hr. cbn.
  rewrite bool_decide_false; [done|]. intros (r' & Hid & Hr')%list_elem_of_fmap.
  destruct (pg_select_facts locked (expired_query now n) db _ _) as (_ & Hin & _).
  destruct (Hin r' Hr') as [Hlk (_ & He & _)%visible_expired].
  rewrite <-Hid, Hr in Hlk. simplify_eq. congruence.
Qed.

Lemma activation_spares now locked n db db' res i r :
  run_session (activate_due_scheduled_jobs now locked n) db = (db', res) →
  jobs_table db !! i = Some r → status r ≠ SCHEDULED → jobs_table db' !! i = Some r.
Proof using PostgresLaws0.
  intros Hrun Hr Hn. destruct (activate_spec now locked n db) as (db1 & rs & Hu & _ & Ht).
  rewrite Hrun in Hu. simplify_eq. rewrite Ht, lookup_map_rows, Hr. cbn.
  rewrite bool_decide_false; [done|]. intros (r' & Hid & Hr')%list_elem_of_fmap.
  destruct (pg_select_facts locked (due_query now n) db _ _) as (_ & Hin & _).
  destruct (Hin r' Hr') as [Hlk [[Hs _]%holds_due _]%visible_due].
  rewrite <-Hid, Hr in Hlk. simplify_eq.
Qed.

(** Every step, on a well-formed database, evolves the table and mints only tokens
    nobody had. *)
Lemma step_evolves s s' :
  step s s' → table_wf (T s) →
  table_evolves (minted s' ∖ minted s) (T s) (T s') ∧ minted s ⊆ minted s'.
Proof using PostgresLaws0.
  intros Hstep Hw. destruct Hstep; simpl.
  2: { split; [|set_solver]. eapply table_evolves_mono, claim_evolves; eauto. set_solver. }
  all: split; [|done]; eapply table_evolves_mono; [apply empty_subseteq|].
  - by eapply submit_evolves.
  - by eapply owner_evolves.
  - by eapply activate_evolves.
  - by eapply recover_evolves.
  - by eapply cancel_evolves.
  - by eapply retry_evolves.
  - by apply table_evolves_refl.
Qed.

Lemma steps_wf s s' : rtc step s s' → table_wf (T s) → table_wf (T s').
Proof using PostgresLaws0.
  induction 1 as [s|s1 s2 s3 H12 H23 IH]; [done|]. intros Hw. apply IH.
  by eapply table_evolves_wf, step_evolves.
Qed.

Lemma reachable_wf s : reachable s → table_wf (T s).
Proof using PostgresLaws0.
  intros (s0 & [Hi _] & Hs). apply (steps_wf _ _ Hs). rewrite Hi. apply map_Forall_empty.
Qed.

(** Tokens in the table have been minted. *)
Definition tokens_minted s : Prop :=
  ∀ i r t, T s !! i = Some r → execution_token r = Some t → t ∈ minted s.

Lemma step_tokens s s' :
  step s s' → table_wf (T s) → tokens_minted s → tokens_minted s'.
Proof using PostgresLaws0.
  intros Hst Hw Htok i r' t Hr' Ht. destruct (step_evolves _ _ Hst Hw) as [[Hold Hnew] Hsub].
  destruct (T s !! i) as [r|] eqn:Hr.
  - destruct (Hold i r Hr) as (r1 & Hr1 & Hev). rewrite Hr' in Hr1. simplify_eq.
    destruct (ev_token _ _ _ Hev t Ht) as [Ht'|Ht']; [by eapply Hsub, Htok|].
    by apply elem_of_difference in Ht' as [? _].
  - destruct (Hnew i r' Hr Hr') as (_ & _ & _ & _ & Hun & _). congruence.
Qed.

Lemma reachable_tokens s : reachable s → tokens_minted s.
Proof using PostgresLaws0.
  intros (s0 & [Hi Hm] & Hs).
  assert (table_wf (T s0)) as Hw by (rewrite Hi; apply map_Forall_empty).
  assert (tokens_minted s0) as Ht by (intros i r t; by rewrite Hi, lookup_empty).
  clear Hi Hm. induction Hs as [s|s1 s2 s3 H12 H23 IH]; [done|].
  apply IH; [by eapply steps_wf; [apply rtc_once|]|by eapply step_tokens].
Qed.

(** Once a row does not carry a token that has been minted, it never will. *)
Lemma token_stays_lost s s' i t :
  rtc step s s' → table_wf (T s) → t ∈ minted s →
  (∀ r, T s !! i = Some r → execution_token r ≠ Some t) →
  ∀ r, T s' !! i = Some r → execution_token r ≠ Some t.
Proof using PostgresLaws0.
  induction 1 as [s|s1 s2 s3 H12 H23 IH]; [done|]. intros Hw Hm Hno.
  destruct (step_evolves _ _ H12 Hw) as [[Hold Hnew] Hsub].
  apply IH; [by eapply steps_wf; [apply rtc_once|]|by apply Hsub|].
  intros r' Hr' Ht. destruct (T s1 !! i) as [r|] eqn:Hr.
  - destruct (Hold i r Hr) as (r1 & Hr1 & Hev). rewrite Hr' in Hr1. simplify_eq.
    destruct (ev_token _ _ _ Hev t Ht) as [Ht'|Ht']; [by apply (Hno r)|].
    by apply elem_of_difference in Ht' as [_ ?].
  - destruct (Hnew i r' Hr Hr') as (_ & _ & _ & _ & Hun & _). congruence.
Qed.

Lemma final_stays s s' i r :
  rtc step s s' → table_wf (T s) → T s !! i = Some r →
  status r = COMPLETED ∨ status r = CANCELLED →
  ∃ r', T s' !! i = Some r' ∧ phase r' = phase r ∧ same_submission r r' ∧
    (status r = COMPLETED → job_result r' = job_result r ∧ completed_at r' = completed_at r).
Proof using PostgresLaws0.
  intros Hs. revert r. induction Hs as [s|s1 s2 s3 H12 H23 IH]; intros r Hw Hr Hfin;
    [by exists r|].
  destruct (step_evolves _ _ H12 Hw) as [[Hold _] _]. destruct (Hold i r Hr) as (r1 & Hr1 & Hev).
  assert (phase r1 = phase r) as Hp.
  { pose proof (ev_move _ _ _ Hev) as Hm. unfold phase in *.
    inversion Hm; subst; try done; destruct Hfin; congruence. }
  assert (status r1 = status r) as Hs1 by (unfold phase in Hp; congruence).
  destruct (IH r1) as (r2 & Hr2 & Hp2 & Hsame2 & Hres2).
  - eapply steps_wf; [by apply rtc_once|done].
  - done.
  - by rewrite Hs1.
  - exists r2. split; [done|]. split; [congruence|]. split.
    + pose proof (ev_same _ _ _ Hev). unfold same_submission in *. naive_solver congruence.
    + intros Hc. destruct (ev_result _ _ _ Hev Hc) as [<- <-]. apply Hres2. congruence.
Qed.
End system.

(** ** Properties *)

Section properties.
Context {DB : Type} `{!Postgres DB, !PostgresLaws DB} {R : Type} `{!Redis R}.
Implicit Types s : Sys DB R.

Abbreviation T s := (jobs_table (sys_db s)).

(** C12: In every reachable state every job is well formed: its type is one of the accepted
    ones; a PROCESSING job carries its worker, token, lease and start and has spent an attempt, any other job is
    unowned; a PENDING or SCHEDULED job has an attempt left; a COMPLETED job has
    its result and no error; a FAILED job has spent all three attempts. *)
Theorem reachable_jobs_are_well_formed s i r
    (Hs : reachable s) (Hr : T s !! i = Some r) : job_wf r.
Proof using PostgresLaws0. exact (reachable_wf s Hs i r Hr). Qed.

(** C11: The service refines the life of a job: whatever call a client, a worker or a
    loop makes, and whatever Redis does, no job disappears, every job makes one
    move of the abstract machine or none, what its submitter decided is kept, and
    a job that appears is PENDING or SCHEDULED with no attempt spent. *)
Theorem steps_refine_the_lifecycle s s' (Hs : reachable s) (Hst : step s s') :
  (∀ i r, T s !! i = Some r →
     ∃ r', T s' !! i = Some r' ∧ move (phase r) (phase r') ∧ same_submission r r') ∧
  (∀ i r', T s !! i = None → T s' !! i = Some r' →
     phase r' = (PENDING, 0) ∨ phase r' = (SCHEDULED, 0)).
Proof using PostgresLaws0.
  destruct (step_evolves s s' Hst (reachable_wf s Hs)) as [[Hold Hnew] _]. split.
  - intros i r Hr. destruct (Hold i r Hr) as (r' & Hr' & Hev). exists r'.
    split; [done|]. split; [apply Hev|apply Hev].
  - intros i r' Hn Hr'. destruct (Hnew i r' Hn Hr') as (_ & Hst' & Hc & _). unfold phase.
    rewrite Hc. destruct Hst' as [-> | ->]; auto.
Qed.

(** C2: An attempt that lost its job has lost it for good: once the row does not carry
    its token, no later history gives it back, and every write it tries, at any
    later time, is refused and changes nothing. *)
Theorem lost_attempt_stays_fenced s s' dl now a c
    (Hs : reachable s) (Hrun : rtc step s s') (Hm : at_execution_token a ∈ minted s)
    (Hlost : ∀ r, T s !! at_job_id a = Some r → execution_token r ≠ Some (at_execution_token a))
    (Hd : delay_known a c) :
  ∃ db', owner_call dl now a c (sys_db s') =
    (db', Err (OwnershipLostError (at_job_id a) (at_worker_id a) (at_execution_token a))) ∧
    jobs_table db' = T s'.
Proof using PostgresLaws0.
  destruct (owner_call_cas dl now a c (sys_db s') Hd) as (db' & Hu & Ht). exists db'.
  pose proof (token_stays_lost s s' _ _ Hrun (reachable_wf s Hs) Hm Hlost) as Hno.
  assert (∀ r, T s' !! at_job_id a = Some r → call_fence now a c r = false) as Hmiss.
  { intros r Hr. destruct (call_fence now a c r) eqn:Hf; [|done].
    apply call_fence_owns, owns_spec in Hf as (_ & _ & Htok). by destruct (Hno r Hr). }
  by rewrite cas_miss in Hu, Ht.
Qed.

(** Two attempts never share a token: a claim mints one that no row carries, so
    the row it returns is the only one in the table with it. *)
Theorem claim_tokens_are_unique s dl now tok id w ls db' job
    (Hs : reachable s) (Hw : varchar_ok 128 w = true) (Htok : tok ∉ minted s)
    (Hrun : run_session (claim_job dl now tok id w ls) (sys_db s) = (db', Ok (Some job))) :
  ∀ i r, jobs_table db' !! i = Some r → execution_token r = Some tok → i = id.
Proof using PostgresLaws0.
  intros i r Hr Ht. destruct (decide (i = id)) as [|Hne]; [done|exfalso].
  destruct (claim_job_cas dl now tok id w ls (sys_db s) Hw) as (db1 & Hu & Htab).
  rewrite Hrun in Hu. simplify_eq. rewrite Htab, cas_frame in Hr by done.
  apply Htok, (reachable_tokens s Hs i r tok Hr Ht).
Qed.

(** COMPLETED and CANCELLED are final: through any later history the job keeps its
    status, its attempt count, what was submitted and, when completed, its
    result. *)
Theorem final_jobs_never_change s s' i r
    (Hs : reachable s) (Hrun : rtc step s s') (Hr : T s !! i = Some r)
    (Hfin : status r = COMPLETED ∨ status r = CANCELLED) :
  ∃ r', T s' !! i = Some r' ∧ status r' = status r ∧ attempt_count r' = attempt_count r ∧
    same_submission r r' ∧ (status r = COMPLETED → job_result r' = job_result r).
Proof using PostgresLaws0.
  destruct (final_stays s s' i r Hrun (reachable_wf s Hs) Hr Hfin)
    as (r' & Hr' & Hp & Hsame & Hres). exists r'. unfold phase in Hp.
  split; [done|]. split; [congruence|]. split; [congruence|]. split; [done|].
  intros Hc. by apply Hres.
Qed.

(** No PENDING job is stranded: in every reachable state a worker that tries one
    gets it, with the next attempt number, at most the third. *)
Theorem pending_jobs_can_be_claimed s dl now tok id w ls r
    (Hs : reachable s) (Hw : varchar_ok 128 w = true)
    (Hr : T s !! id = Some r) (Hp : status r = PENDING) :
  ∃ db' job, run_session (claim_job dl now tok id w ls) (sys_db s) = (db', Ok (Some job)) ∧
    attempt_count job = attempt_count r + 1 ∧ attempt_count job ≤ 3 ∧
    attempt_of job = Ok (MkAttempt id w tok (attempt_count r + 1) 3) ∧
    lease_expires_at job = Some (lease_deadline dl now ls).
Proof using PostgresLaws0.
  pose proof (reachable_wf s Hs id r Hr) as Hwf.
  pose proof (wf_runnable _ Hwf (or_introl Hp)). pose proof (wf_max _ Hwf) as Hmax.
  destruct (claim_job_cas dl now tok id w ls (sys_db s) Hw) as (db' & Hu & _).
  rewrite (cas_hit _ _ _ _ r) in Hu; [|done|].
  - eexists db', _. split; [exact Hu|]. cbn. split; [done|]. split; [lia|]. split; [|done].
    by rewrite (table_id _ _ _ Hr), Hmax.
  - unfold claimable. rewrite bool_decide_true by done. apply Z.ltb_lt. lia.
Qed.

(** The recovery sweep never raises in a reachable state, whatever its clock, its
    limit and the rows others have locked. *)
Theorem sweep_always_succeeds s now locked n (Hs : reachable s) :
  ∃ db' rs, run_session (recover_expired_leases now locked n) (sys_db s) = (db', Ok rs).
Proof using PostgresLaws0.
  destruct (recover_expired_leases_spec now locked n (sys_db s)) as (db' & -> & _); [|eauto].
  intros i r Hr Hst _. by apply (wf_sweepable _ (reachable_wf s Hs) i).
Qed.

(** A sweep with room for the whole table settles every attempt whose lease is over. *)
Lemma sweep_takes now n db i r :
  table_wf (jobs_table db) → jobs_table db !! i = Some r → status r = PROCESSING →
  expired now r = true → (base.size (jobs_table db) < n)%nat →
  ∃ db' rs, run_session (recover_expired_leases now ∅ n) db = (db', Ok rs) ∧
    jobs_table db' !! i = Some (settled now LEASE_EXPIRED_ERROR r) ∧
    base.size (jobs_table db') = base.size (jobs_table db).
Proof using PostgresLaws0.
  intros Hwf Hr Hp Hexp Hn.
  destruct (recover_expired_leases_spec now ∅ n db) as (db' & H1 & Ht1).
  { intros j r' Hr' Hst _. by eapply wf_sweepable. }
  eexists db', _. split; [exact H1|]. split; [|by rewrite Ht1, size_map_rows].
  rewrite Ht1, lookup_map_rows, Hr. simpl. rewrite bool_decide_true; [done|].
  destruct (pg_select_facts ∅ (expired_query now n) db _ _) as (_ & _ & _ & Hl).
  destruct (Hl n eq_refl eq_refl) as [_ Hall]. rewrite <-(table_id _ _ _ Hr).
  apply list_elem_of_fmap_2, (Hall (select_short _ _ _ _ _ _ Hn) i r Hr), visible_expired.
  split; [done|]. split; [done|]. set_solver.
Qed.

(** A crashed worker's job runs again: once its lease is over, one sweep and, two
    minutes of back-off later at most, one activation (each with room for the
    whole table and nobody holding its rows) make it claimable by any worker,
    under a new token and the next attempt number. *)
Theorem crashed_job_runs_again s t1 t2 t3 n i r dl tok w ls
    (Hs : reachable s) (Hr : T s !! i = Some r) (Hp : status r = PROCESSING)
    (Hleft : attempt_count r < 3) (Hexp : expired t1 r = true)
    (Hback : t1 + 120 * 1000000 ≤ t2) (Hn : (base.size (T s) < n)%nat)
    (Hw : varchar_ok 128 w = true) :
  ∃ db1 db2 db3 rs ms job,
    run_session (recover_expired_leases t1 ∅ n) (sys_db s) = (db1, Ok rs) ∧
    run_session (activate_due_scheduled_jobs t2 ∅ n) db1 = (db2, Ok ms) ∧
    i ∈ job_id <$> ms ∧
    run_session (claim_job dl t3 tok i w ls) db2 = (db3, Ok (Some job)) ∧
    attempt_of job = Ok (MkAttempt i w tok (attempt_count r + 1) 3).
Proof using PostgresLaws0.
  pose proof (reachable_wf s Hs) as Hwf. pose proof (wf_max _ (Hwf i r Hr)) as Hmax.
  destruct (sweep_takes t1 n (sys_db s) i r Hwf Hr Hp Hexp Hn) as (db1 & rs & H1 & Hr1 & Hsize).
  set (r1 := settled t1 LEASE_EXPIRED_ERROR r) in *.
  assert (status r1 = SCHEDULED ∧ attempt_count r1 = attempt_count r ∧ max_attempts r1 = 3 ∧
          ∃ z, scheduled_at r1 = Some z ∧ z ≤ t2) as (Hst1 & Hc1 & Hm1 & Hz).
  { unfold r1, settled, failed_values. rewrite Hmax, (proj2 (Z.ltb_lt _ _) Hleft). cbn.
    do 3 (split; [done|]). eexists. split; [done|].
    destruct (wf_recoverable r (Hwf i r Hr) Hp) as (_ & _ & Hd).
    destruct (Hd ltac:(lia)) as [-> | ->]; unfold retry_delay, seconds;
      [rewrite retry_delay_1|rewrite retry_delay_2]; lia. }
  destruct (activate_spec t2 ∅ n db1) as (db2 & ms & H2 & Hms & Ht2).
  assert (r1 ∈ pg_select ∅ (due_query t2 n) db1) as Hin.
  { destruct (pg_select_facts ∅ (due_query t2 n) db1 _ _) as (_ & _ & _ & Hl).
    destruct (Hl n eq_refl eq_refl) as [_ Hall].
    apply (Hall ltac:(apply select_short; [apply _..|]; by rewrite Hsize) i r1 Hr1).
    apply visible_due. split; [by apply holds_due|]. set_solver. }
  destruct (claim_job_cas dl t3 tok i w ls db2 Hw) as (db3 & H3 & _).
  rewrite (cas_hit _ _ _ _ (apply_values [SetStatus PENDING] r1)) in H3.
  - eexists db1, db2, db3, rs, ms, _. split; [exact H1|]. split; [exact H2|].
    split; [|split; [exact H3|]].
    + rewrite Hms, <-list_fmap_compose. apply list_elem_of_fmap. exists r1. split; [|done].
      cbn. symmetry. by apply (table_id db1).
    + apply attempt_of_spec. cbn. by rewrite (table_id _ _ _ Hr1), Hc1, Hm1.
  - rewrite Ht2, lookup_map_rows, Hr1. simpl. rewrite bool_decide_true; [done|].
    rewrite <-(table_id _ _ _ Hr1). by apply list_elem_of_fmap_2.
  - unfold claimable. cbn. rewrite Hc1, Hm1. by apply Z.ltb_lt.
Qed.
End properties.

(** ** Witnesses: a short history on the concrete stores *)

Definition do_submit (s : Sys MemDB MemRedis) env f request key : Sys MemDB MemRedis :=
  let '(db', r', _) := submit_job env f request key (sys_db s) (sys_redis s) in
  mk_sys db' r' (minted s).

Definition do_claim (s : Sys MemDB MemRedis) now tok id w : Sys MemDB MemRedis :=
  mk_sys (run_session (claim_job 60%Q now tok id w None) (sys_db s)).1 (sys_redis s)
    ({[tok]} ∪ minted s).

Definition do_recover (s : Sys MemDB MemRedis) now : Sys MemDB MemRedis :=
  mk_sys (run_session (recover_expired_leases now ∅ 100) (sys_db s)).1 (sys_redis s) (minted s).

Definition do_complete (s : Sys MemDB MemRedis) now a res : Sys MemDB MemRedis :=
  mk_sys (owner_call 60%Q now a (CompleteJob res) (sys_db s)).1 (sys_redis s) (minted s).

Lemma do_submit_step s env f request key : alone env → step s (do_submit s env f request key).
Proof.
  intros Ha. unfold do_submit.
  destruct (submit_job env f request key (sys_db s) (sys_redis s)) as [[db' r'] res] eqn:E.
  by eapply step_submit.
Qed.

Lemma do_claim_step s now tok id w :
  tok ∉ minted s → varchar_ok 128 w = true → step s (do_claim s now tok id w).
Proof. intros Ht Hw. eapply step_claim; [done|done|]. apply surjective_pairing. Qed.

Lemma do_recover_step s now : step s (do_recover s now).
Proof. eapply step_recover. apply surjective_pairing. Qed.

Lemma do_complete_step s now a res : step s (do_complete s now a res).
Proof. eapply step_owner. apply surjective_pairing. Qed.

Definition s_empty : Sys MemDB MemRedis := mk_sys mem_empty redis_empty ∅.
(** A job is submitted while Redis is down, claimed, and its worker crashes. *)
Definition s_pending := do_submit s_empty (demo_env 2000 11) command_lost demo_request None.
Definition s_claimed := do_claim s_pending 3000 77 11 "w1".
Definition s_recovered := do_recover s_claimed 60003001.
Definition s_completed := do_complete s_claimed 5000 (MkAttempt 11 "w1" 77 1 3) JNull.

Lemma pending_reachable : reachable s_pending.
Proof. exists s_empty. split; [by split|]. apply rtc_once, do_submit_step, demo_alone. Qed.

Lemma claimed_reachable : reachable s_claimed.
Proof.
  destruct pending_reachable as (s0 & Hi & Hs). exists s0. split; [done|].
  eapply rtc_r; [exact Hs|]. apply do_claim_step; [set_solver|done].
Qed.

Lemma recovered_reachable : reachable s_recovered.
Proof.
  destruct claimed_reachable as (s0 & Hi & Hs). exists s0. split; [done|].
  eapply rtc_r; [exact Hs|]. apply do_recover_step.
Qed.

Lemma completed_reachable : reachable s_completed.
Proof.
  destruct claimed_reachable as (s0 & Hi & Hs). exists s0. split; [done|].
  eapply rtc_r; [exact Hs|]. apply do_complete_step.
Qed.

(** The job as a state holds it. *)
Definition job_in (s : Sys MemDB MemRedis) : Job := default demo_pending (mem_table (sys_db s) !! 11).

Lemma in_pending : mem_table (sys_db s_pending) !! 11 = Some (job_in s_pending).
Proof. vm_compute. reflexivity. Qed.
Lemma in_claimed : mem_table (sys_db s_claimed) !! 11 = Some (job_in s_claimed).
Proof. vm_compute. reflexivity. Qed.
Lemma in_recovered : mem_table (sys_db s_recovered) !! 11 = Some (job_in s_recovered).
Proof. vm_compute. reflexivity. Qed.
Lemma in_completed : mem_table (sys_db s_completed) !! 11 = Some (job_in s_completed).
Proof. vm_compute. reflexivity. Qed.

Lemma reachable_jobs_are_well_formed_witness :
  job_wf (job_in s_recovered) ∧ status (job_in s_recovered) = SCHEDULED.
Proof.
  split; [|vm_compute; done].
  exact (reachable_jobs_are_well_formed s_recovered 11 _ recovered_reachable in_recovered).
Defined.

Lemma steps_refine_the_lifecycle_witness :
  ∃ r', mem_table (sys_db s_claimed) !! 11 = Some r' ∧ move (phase (job_in s_pending)) (phase r').
Proof.
  destruct (steps_refine_the_lifecycle s_pending s_claimed pending_reachable) as [H _].
  { apply do_claim_step; [set_solver|done]. }
  destruct (H 11 _ in_pending) as (r' & H1 & H2 & _). exists r'. by split.
Defined.

Lemma lost_attempt_stays_fenced_witness :
  ∃ db', owner_call 60%Q 70000000 (MkAttempt 11 "w1" 77 1 3) (CompleteJob JNull) (sys_db s_recovered)
    = (db', Err (OwnershipLostError 11 "w1" 77)) ∧ jobs_table db' = jobs_table (sys_db s_recovered).
Proof.
  apply (lost_attempt_stays_fenced s_recovered s_recovered 60%Q 70000000 (MkAttempt 11 "w1" 77 1 3)
           (CompleteJob JNull) recovered_reachable).
  - constructor.
  - cbn. set_solver.
  - intros r Hr. change (mem_table (sys_db s_recovered) !! 11 = Some r) in Hr.
    rewrite in_recovered in Hr. apply (inj Some) in Hr. subst r. vm_compute. done.
  - done.
Defined.

Lemma claim_tokens_are_unique_witness :
  ∃ db' job, run_session (claim_job 60%Q 3000 77 11 "w1" None) (sys_db s_pending) =
      (db', Ok (Some job)) ∧
    ∀ i r, jobs_table db' !! i = Some r → execution_token r = Some 77 → i = 11.
Proof.
  destruct (run_session (claim_job 60%Q 3000 77 11 "w1" None) (sys_db s_pending))
    as [db' [[job|]|e]] eqn:E.
  - exists db', job. split; [done|].
    apply (claim_tokens_are_unique s_pending 60%Q 3000 77 11 "w1" None db' job pending_reachable);
      [done|cbn; set_solver|exact E].
  - exfalso. apply (f_equal (λ p, match p.2 with Ok (Some _) => true | _ => false end)) in E.
    vm_compute in E. done.
  - exfalso. apply (f_equal (λ p, match p.2 with Ok (Some _) => true | _ => false end)) in E.
    vm_compute in E. done.
Defined.

Lemma final_jobs_never_change_witness :
  ∃ r', mem_table (sys_db (do_recover s_completed 70000000)) !! 11 = Some r' ∧
    status r' = COMPLETED.
Proof.
  destruct (final_jobs_never_change s_completed (do_recover s_completed 70000000) 11
              (job_in s_completed) completed_reachable) as (r' & H1 & H2 & _).
  - apply rtc_once, do_recover_step.
  - exact in_completed.
  - left. vm_compute. done.
  - exists r'. split; [exact H1|]. rewrite H2. vm_compute. done.
Defined.

Lemma pending_jobs_can_be_claimed_witness :
  ∃ db' job, run_session (claim_job 60%Q 3000 77 11 "w1" None) (sys_db s_pending) =
      (db', Ok (Some job)) ∧ lease_expires_at job = Some 60003000.
Proof.
  destruct (pending_jobs_can_be_claimed s_pending 60%Q 3000 77 11 "w1" None (job_in s_pending)
              pending_reachable ltac:(done) in_pending ltac:(vm_compute; done))
    as (db' & job & H1 & _ & _ & _ & H2).
  exists db', job. by split.
Defined.

Lemma sweep_always_succeeds_witness :
  ∃ db' rs, run_session (recover_expired_leases 60003001 ∅ 100) (sys_db s_claimed) = (db', Ok rs).
Proof. apply sweep_always_succeeds, claimed_reachable. Defined.

Lemma crashed_job_runs_again_witness :
  ∃ db1 db2 db3 rs ms job,
    run_session (recover_expired_leases 60003001 ∅ 100) (sys_db s_claimed) = (db1, Ok rs) ∧
    run_session (activate_due_scheduled_jobs 180003001 ∅ 100) db1 = (db2, Ok ms) ∧
    run_session (claim_job 60%Q 180003002 78 11 "w2" None) db2 = (db3, Ok (Some job)) ∧
    attempt_of job = Ok (MkAttempt 11 "w2" 78 2 3).
Proof.
  destruct (crashed_job_runs_again s_claimed 60003001 180003001 180003002 100 11 (job_in s_claimed)
              60%Q 78 "w2" None claimed_reachable in_claimed ltac:(vm_compute; done)
              ltac:(vm_compute; done) ltac:(vm_compute; done) ltac:(done)
              ltac:(apply Nat.ltb_lt; vm_compute; done) ltac:(done))
    as (db1 & db2 & db3 & rs & ms & job & H1 & H2 & _ & H3 & H4).
  exists db1, db2, db3, rs, ms, job. split; [exact H1|]. split; [exact H2|].
  split; [exact H3|]. assert (attempt_count (job_in s_claimed) = 1) as Hc by (vm_compute; done).
  by rewrite Hc in H4.
Defined.
