(* ===== verification/Leases.v ===== *)
(** * Leases: how long an attempt lasts, and how often a job is tried

    Two quantitative promises over whole histories of the service ([Lifecycle]).  An
    attempt whose heartbeat is punctual keeps its job, whatever everybody else does; and
    a job is claimed at most three times between two manual retries.  Leases are written
    and compared with PostgreSQL's [now()], the begin of a statement's transaction; the
    readings here are that clock's. *)

From S2P Require Import Prelude.
From S2P Require Import Text.
From S2P Require Import Errors.
From S2P Require Import Model.
From S2P Require Import Postgres.
From S2P Require Import MemDB.
From S2P Require Import Session.
From S2P Require Import RetryPolicy.
From S2P Require Import Ownership.
From S2P Require Import Redis.
From S2P Require Import ReadyQueue.
From S2P Require Import Schemas.
From S2P Require Import Submission.
From S2P Require Import Mutations.
From S2P Require Import Fencing.
From S2P Require Import Recovery.
From S2P Require Import Lifecycle.
From Stdlib Require Import QArith.

Local Open Scope Z_scope.

Section leases.
Context {DB : Type} `{!Postgres DB} {R : Type} `{!Redis R}.
Implicit Types s : Sys DB R.

(** ** An attempt and the others *)

Section attempt.
Context (a : Attempt) (dl : Q) (ls : option Q) (gap skew : Z).

(** What everybody else does: clients, schedulers, other attempts (of this job too),
    Redis, and workers that try to claim. *)
Inductive others : Sys DB R → Sys DB R → Prop :=
  | others_submit s env f request key db' r' res :
      alone env → submit_job env f request key (sys_db s) (sys_redis s) = (db', r', res) →
      others s (mk_sys db' r' (minted s))
  | others_claim s dl' now tok id w ls' db' res :
      tok ∉ minted s → varchar_ok 128 w = true →
      run_session (claim_job dl' now tok id w ls') (sys_db s) = (db', res) →
      others s (mk_sys db' (sys_redis s) ({[tok]} ∪ minted s))
  | others_call s dl' now b c db' res :
      at_job_id b ≠ at_job_id a ∨ at_execution_token b ≠ at_execution_token a →
      owner_call dl' now b c (sys_db s) = (db', res) →
      others s (mk_sys db' (sys_redis s) (minted s))
  | others_activate s now locked n db' res :
      run_session (activate_due_scheduled_jobs now locked n) (sys_db s) = (db', res) →
      others s (mk_sys db' (sys_redis s) (minted s))
  | others_cancel s f bq id db' r' res :
      cancel_job (λ db, db) f bq id (sys_db s) (sys_redis s) = (db', r', res) →
      others s (mk_sys db' r' (minted s))
  | others_retry s f id db' r' res :
      retry_job (λ db, db) f id (sys_db s) (sys_redis s) = (db', r', res) →
      others s (mk_sys db' r' (minted s))
  | others_redis s r' : others s (mk_sys (sys_db s) r' (minted s)).

(** An event at time [t]; [last] is the reading of the attempt's latest beat, or of its
    claim.  The reading of a sweep may run ahead of the event by [skew]: not at all
    where one database clock orders the events, by its corrections otherwise. *)
Inductive event (last : Z) s (t : Z) : Z → Sys DB R → Prop :=
  | event_beat db' res :
      owner_call dl t a (ExtendLease ls) (sys_db s) = (db', res) →
      event last s t t (mk_sys db' (sys_redis s) (minted s))
  | event_report p db' res :
      owner_call dl t a (UpdateProgress p) (sys_db s) = (db', res) →
      event last s t last (mk_sys db' (sys_redis s) (minted s))
  | event_sweep reading locked n db' res :
      reading ≤ t + skew →
      run_session (recover_expired_leases reading locked n) (sys_db s) = (db', res) →
      event last s t last (mk_sys db' (sys_redis s) (minted s))
  | event_other s' : others s s' → event last s t last s'.

(** A stretch of history in which the attempt beats at least every [gap]. *)
Inductive punctual : Z → Sys DB R → Z → Sys DB R → Prop :=
  | punctual_now last s : punctual last s last s
  | punctual_next last s t last1 s1 last2 s2 :
      t ≤ last + gap → event last s t last1 s1 → punctual last1 s1 last2 s2 →
      punctual last s last2 s2.

(** What everybody else does to an attempt that nobody executes, with sweeps whose
    readings are not past a moment. *)
Inductive unattended (deadline : Z) : Sys DB R → Sys DB R → Prop :=
  | unattended_other s s' : others s s' → unattended deadline s s'
  | unattended_sweep s reading locked n db' res :
      reading ≤ deadline →
      run_session (recover_expired_leases reading locked n) (sys_db s) = (db', res) →
      unattended deadline s (mk_sys db' (sys_redis s) (minted s)).

(** The attempt holds the job, with the lease its latest beat wrote. *)
Definition holding (last : Z) (t : table) : Prop :=
  ∃ r, t !! at_job_id a = Some r ∧ attempt_of r = Ok a ∧ status r = PROCESSING ∧
    lease_expires_at r = Some (lease_deadline dl last ls).

Lemma event_step last s t last' s' : event last s t last' s' → step s s'.
Proof using Type.
  destruct 1 as [| | |s' H]; [by eapply step_owner|by eapply step_owner|by eapply step_recover|].
  destruct H; [by eapply step_submit|by eapply step_claim|by eapply step_owner|
    by eapply step_activate|by eapply step_cancel|by eapply step_retry|by eapply step_redis].
Qed.

Lemma punctual_steps last s last' s' : punctual last s last' s' → rtc step s s'.
Proof using Type.
  induction 1; [done|]. eapply rtc_l; [by eapply event_step|done].
Qed.

Context `{!PostgresLaws DB}.

Lemma same_holding last t t' :
  t' !! at_job_id a = t !! at_job_id a → holding last t → holding last t'.
Proof using Type. intros Heq (r & Hr & H). exists r. by rewrite Heq. Qed.

Lemma cas_holding last i p f t :
  (∀ r, attempt_of r = Ok a → status r = PROCESSING → i = at_job_id a → p r = false) →
  holding last t → holding last (cas i p f t).1.
Proof using Type.
  intros Hp Hh. pose proof Hh as (r & Hr & Ha & Hs & Hd). apply (same_holding last t); [|done].
  destruct (decide (i = at_job_id a)) as [->|Hne]; [|by rewrite cas_frame].
  by rewrite cas_miss by (intros r' Hr'; simplify_eq; auto).
Qed.

(** Nobody else takes the job away, nor its lease. *)
Lemma others_spare last s s' :
  others s s' → holding last (jobs_table (sys_db s)) → holding last (jobs_table (sys_db s')).
Proof using PostgresLaws0.
  destruct 1 as [s env f request key db' r' res Ha Hrun|s dl' now tok id w ls' db' res _ Hw Hrun|
    s dl' now b c db' res Hb Hrun|s now locked n db' res Hrun|s f bq id db' r' res Hrun|
    s f id db' r' res Hrun|s r']; cbn [sys_db]; intros Hh.
  - destruct (submit_table _ _ _ _ _ _ _ _ _ Ha Hrun) as [->|(job & _ & Hnew & ->)]; [done|].
    destruct Hh as (r & Hr & Hat & Hs & Hd). unfold holding, after_release.
    rewrite lookup_insert_ne by congruence. case_match; [|by exists r].
    rewrite lookup_release_key, Hr. cbn. eexists. split; [done|]. by case_decide.
  - destruct (claim_job_cas dl' now tok id w ls' (sys_db s) Hw) as (db1 & Hu & Ht).
    rewrite Hrun in Hu. simplify_eq. rewrite Ht. apply cas_holding; [|done].
    intros r _ Hs _. unfold claimable. by rewrite Hs.
  - destruct (decide (delay_known b c)) as [Hd|Hd].
    + destruct (owner_call_cas dl' now b c (sys_db s) Hd) as (db1 & Hu & Ht).
      rewrite Hrun in Hu. simplify_eq. rewrite Ht. apply cas_holding; [|done].
      intros r Hat _ Hid. destruct (call_fence now b c r) eqn:Hf; [|done].
      apply call_fence_owns, owns_spec in Hf as (_ & _ & Htok).
      apply attempt_of_spec in Hat as (_ & _ & Htok' & _). destruct Hb; congruence.
    + destruct (owner_call_no_delay dl' now b c (sys_db s) Hd) as [res1 Hu]. congruence.
  - destruct Hh as (r & Hr & Hat & Hs & Hd). exists r. split; [|done].
    eapply activation_spares; [done|done|congruence].
  - rewrite (cancel_table _ _ _ _ _ _ _ _ Hrun). apply cas_holding; [|done].
    intros r _ Hs _. unfold cancellable. by rewrite Hs.
  - rewrite (retry_table _ _ _ _ _ _ _ Hrun). apply cas_holding; [|done].
    intros r _ Hs _. unfold failed. by rewrite Hs.
  - done.
Qed.

Lemma event_holding last s t last' s' :
  t ≤ last + gap → gap + skew ≤ lease_deadline dl 0 ls → table_wf (jobs_table (sys_db s)) →
  event last s t last' s' → holding last (jobs_table (sys_db s)) →
  holding last' (jobs_table (sys_db s')).
Proof using PostgresLaws0.
  intros Ht Hlease Hwf He Hh. pose proof Hh as (r & Hr & Hat & Hs & Hd).
  destruct He as [db' res Hrun|p db' res Hrun|reading locked n db' res Hle Hrun|s' Hrun]; cbn [sys_db].
  - destruct (owner_call_hit dl t a (ExtendLease ls) (sys_db s) r I Hr Hat Hs) as (db1 & Hu & Htab).
    rewrite Hrun in Hu. simplify_eq. unfold holding. rewrite Htab, lookup_insert_eq. eexists.
    split; [done|]. by split; [exact Hat|].
  - destruct (owner_call_hit dl t a (UpdateProgress p) (sys_db s) r I Hr Hat Hs) as (db1 & Hu & Htab).
    rewrite Hrun in Hu. simplify_eq. unfold holding. rewrite Htab, lookup_insert_eq. eexists.
    split; [done|]. by split; [exact Hat|].
  - exists r. split; [|done]. eapply sweep_spares; [done..|]. unfold expired. rewrite Hd.
    apply Z.ltb_ge. unfold lease_deadline in *. lia.
  - by eapply others_spare.
Qed.

Lemma punctual_holding last s last' s' :
  gap + skew ≤ lease_deadline dl 0 ls → table_wf (jobs_table (sys_db s)) →
  punctual last s last' s' → holding last (jobs_table (sys_db s)) →
  holding last' (jobs_table (sys_db s')).
Proof using PostgresLaws0.
  intros Hlease Hwf Hp. induction Hp as [|last s t last1 s1 last2 s2 Ht He Hp IH]; [done|].
  intros Hh. apply IH; [|by eapply event_holding].
  eapply steps_wf; [by eapply rtc_once, event_step|done].
Qed.
End attempt.

(** Nobody's doing takes the job from an attempt until its lease is over. *)
Lemma unattended_holding `{!PostgresLaws DB} a dl ls now s s' :
  rtc (unattended a (lease_deadline dl now ls)) s s' → table_wf (jobs_table (sys_db s)) →
  holding a dl ls now (jobs_table (sys_db s)) →
  table_wf (jobs_table (sys_db s')) ∧ holding a dl ls now (jobs_table (sys_db s')).
Proof using Type.
  induction 1 as [|s s1 s2 Hst _ IH]; [done|]. intros Hwf Hh.
  assert (event a dl ls 0 now s (lease_deadline dl now ls) now s1) as He.
  { destruct Hst as [s s1 Ho|s reading locked n db' res Hle Hrun]; [by apply event_other|].
    eapply event_sweep; [|exact Hrun]. lia. }
  apply IH.
  - eapply steps_wf; [by eapply rtc_once, event_step|done].
  - eapply (event_holding a dl ls (lease_deadline dl 0 ls) 0); [| |exact Hwf|exact He|exact Hh].
    + unfold lease_deadline. lia.
    + lia.
Qed.

(** A claim that won holds the job. *)
Lemma claimed_holding `{!PostgresLaws DB} dl now tok id w ls (db db' : DB) job a :
  varchar_ok 128 w = true →
  run_session (claim_job dl now tok id w ls) db = (db', Ok (Some job)) → attempt_of job = Ok a →
  at_job_id a = id ∧ holding a dl ls now (jobs_table db').
Proof using Type.
  intros Hw Hclaim Ha. destruct (claim_job_cas dl now tok id w ls db Hw) as (db1 & Hu & Ht).
  rewrite Hclaim in Hu. injection Hu as <- Hc. symmetry in Hc.
  apply cas_some in Hc as (r0 & Hr0 & Hp & -> & Hc). rewrite Hc in Ht.
  pose proof (proj1 (attempt_of_spec _ _) Ha) as (Hid & _).
  rewrite job_id_apply_values, (table_id _ _ _ Hr0) in Hid. split; [done|]. eexists.
  rewrite Ht, Hid, lookup_insert_eq. by split.
Qed.

(** C4: A punctual attempt keeps its job.  From its claim on, let the worker's beats be at
    most [gap] apart and no sweep's reading ahead by more than [skew], together no more
    than the lease.  Then, through any history of submissions, claims, other attempts,
    sweeps, activations, cancellations, retries and changes of Redis, the job stays
    with this attempt and this lease; nobody can claim it or cancel it, and whatever
    the attempt writes next, its result or its failure, is accepted. *)
Theorem punctual_attempt_keeps_its_job `{!PostgresLaws DB} s dl now tok id w ls db job a gap skew last' s'
    (Hs : reachable s) (Htok : tok ∉ minted s) (Hw : varchar_ok 128 w = true)
    (Hclaim : run_session (claim_job dl now tok id w ls) (sys_db s) = (db, Ok (Some job)))
    (Ha : attempt_of job = Ok a) (Hlease : gap + skew ≤ lease_deadline dl 0 ls)
    (Hrun : punctual a dl ls gap skew now (mk_sys db (sys_redis s) ({[tok]} ∪ minted s)) last' s') :
  holding a dl ls last' (jobs_table (sys_db s')) ∧
  (∀ dl' now' tok' w' ls', varchar_ok 128 w' = true → ∃ db',
     run_session (claim_job dl' now' tok' id w' ls') (sys_db s') = (db', Ok None) ∧
     jobs_table db' = jobs_table (sys_db s')) ∧
  (∀ f bq db' r' res, cancel_job (λ db, db) f bq id (sys_db s') (sys_redis s') = (db', r', res) →
     jobs_table db' = jobs_table (sys_db s')) ∧
  (∀ now' c, ∃ db' r, owner_call dl now' a c (sys_db s') = (db', Ok tt) ∧
     jobs_table (sys_db s') !! id = Some r ∧
     jobs_table db' = <[id := apply_values (call_values dl now' a c) r]> (jobs_table (sys_db s'))).
Proof using Type.
  destruct (claimed_holding dl now tok id w ls (sys_db s) db job a Hw Hclaim Ha) as [Hid Hheld].
  assert (step s (mk_sys db (sys_redis s) ({[tok]} ∪ minted s))) as Hst by (by eapply step_claim).
  pose proof (steps_wf _ _ (rtc_once _ _ Hst) (reachable_wf s Hs)) as Hwf.
  assert (table_wf (jobs_table (sys_db s'))) as Hwf'
    by (eapply steps_wf; [by eapply punctual_steps|exact Hwf]).
  assert (holding a dl ls last' (jobs_table (sys_db s'))) as Hh
    by exact (punctual_holding a dl ls gap skew _ _ _ _ Hlease Hwf Hrun Hheld).
  pose proof Hh as (r & Hr & Hat & Hs' & _). rewrite Hid in Hr. split; [done|].
  split; [|split].
  - intros dl' now' tok' w' ls' Hw'.
    destruct (claim_job_cas dl' now' tok' id w' ls' (sys_db s') Hw') as (db' & Hu & Ht').
    rewrite cas_miss in Hu, Ht'; [by exists db'|..]; intros r1 Hr1; simplify_eq;
      unfold claimable; by rewrite Hs'.
  - intros f bq db' r' res Hrc. rewrite (cancel_table _ _ _ _ _ _ _ _ Hrc), cas_miss; [done|].
    intros r1 Hr1. simplify_eq. unfold cancellable. by rewrite Hs'.
  - intros now' c. rewrite <-Hid in *.
    destruct (owner_call_hit dl now' a c (sys_db s') r) as (db' & Hu & Ht'); [|done..|by exists db', r].
    apply attempt_of_spec in Hat as (_ & _ & _ & Hcnt & Hmax).
    destruct c; [done..|]. cbn. rewrite Hcnt, Hmax.
    by destruct (wf_recoverable r (Hwf' _ _ Hr) Hs') as (_ & _ & ?).
Qed.
End leases.

(** ** How often a job is tried *)

Section tries.
Context {DB : Type} `{!Postgres DB, !PostgresLaws DB} {R : Type} `{!Redis R}.
Implicit Types s : Sys DB R.

Definition moved (from to : JobStatus) (i : uuid) (t t' : table) : nat :=
  match t !! i, t' !! i with
  | Some r, Some r' => if decide (status r = from ∧ status r' = to) then 1 else 0
  | _, _ => 0
  end.
(** A worker got the job; a client sent it round again. *)
Definition wins : uuid → table → table → nat := moved PENDING PROCESSING.
Definition restarts : uuid → table → table → nat := moved FAILED PENDING.

(** A history with the number of both for the job [i]. *)
Inductive history (i : uuid) : nat → nat → Sys DB R → Sys DB R → Prop :=
  | history_now s : history i 0 0 s s
  | history_next c k s s1 s2 :
      step s s1 → history i c k s1 s2 →
      history i (wins i (jobs_table (sys_db s)) (jobs_table (sys_db s1)) + c)
        (restarts i (jobs_table (sys_db s)) (jobs_table (sys_db s1)) + k) s s2.

Lemma history_step i c k c' k' s s1 s2 :
  step s s1 → wins i (jobs_table (sys_db s)) (jobs_table (sys_db s1)) = c' →
  restarts i (jobs_table (sys_db s)) (jobs_table (sys_db s1)) = k' →
  history i c k s1 s2 → history i (c' + c) (k' + k) s s2.
Proof using Type. intros H <- <-. by apply history_next. Qed.

Definition spent (i : uuid) (t : table) : Z :=
  match t !! i with Some r => attempt_count r | None => 0 end.

(** The ledger of one step: a win spends an attempt, a restart gives three back. *)
Lemma step_ledger fresh i t t' :
  table_wf t → table_evolves fresh t t' →
  spent i t' = spent i t + Z.of_nat (wins i t t') - 3 * Z.of_nat (restarts i t t').
Proof using Type.
  intros Hw [Hold Hnew]. unfold spent, wins, restarts, moved. destruct (t !! i) as [r|] eqn:Hr.
  - destruct (Hold i r Hr) as (r' & -> & [_ Hm _ _ _]). pose proof (wf_failed _ (Hw i r Hr)) as Hf.
    unfold phase in Hm. inversion Hm; subst; repeat case_decide;
      first [lia|exfalso; intuition congruence|idtac].
    destruct Hf as [? _]; [congruence|lia].
  - destruct (t' !! i) as [r'|] eqn:Hr'; [|lia].
    destruct (Hnew i r' Hr Hr') as (_ & _ & Hc & _). lia.
Qed.

(** C10: The ledger of a job: of all the claims workers have won of it since it was
    submitted, in any history, exactly three were spent on each manual retry and the
    rest are its attempt count; so it is tried at most three times between two
    retries, and [attempt_count] never loses or invents a try, whatever crashes,
    sweeps and races there were. *)
Theorem attempts_are_accounted_for s s' i c k r
    (Hs : reachable s) (Hnew : jobs_table (sys_db s) !! i = None)
    (Hrun : history i c k s s') (Hr : jobs_table (sys_db s') !! i = Some r) :
  Z.of_nat c = 3 * Z.of_nat k + attempt_count r ∧ Z.of_nat c ≤ 3 * (Z.of_nat k + 1).
Proof using PostgresLaws0.
  pose proof (reachable_wf s Hs) as Hw.
  assert (spent i (jobs_table (sys_db s')) =
    spent i (jobs_table (sys_db s)) + Z.of_nat c - 3 * Z.of_nat k ∧
    table_wf (jobs_table (sys_db s'))) as [Hled Hw'].
  { clear Hnew Hr Hs. induction Hrun as [s|c k s s1 s2 Hst Hrun IH]; [by split; [lia|]|].
    destruct (step_evolves s s1 Hst Hw) as [Hev _].
    pose proof (step_ledger _ i _ _ Hw Hev). pose proof (table_evolves_wf _ _ _ Hev).
    destruct IH as [-> ?]; [done|]. split; [lia|done]. }
  unfold spent in Hled. rewrite Hnew, Hr in Hled. pose proof (wf_count r (Hw' i r Hr)). lia.
Qed.
End tries.

(** ** Witnesses *)

Definition demo_attempt : Attempt := MkAttempt 11 "w1" 77 1 3.

(** The state after a call of the demo attempt. *)
Definition do_call (s : Sys MemDB MemRedis) now c : Sys MemDB MemRedis :=
  mk_sys (owner_call 60%Q now demo_attempt c (sys_db s)).1 (sys_redis s) (minted s).

(** A beat after twenty seconds, and a sweep just after the lease of the claim. *)
Definition s_swept := do_recover (do_call s_claimed 20003000 (ExtendLease None)) 61000000.

Lemma s_swept_punctual :
  punctual demo_attempt 60%Q None 58000000 1000000 3000 s_claimed 20003000 s_swept.
Proof.
  apply (punctual_next _ _ _ _ _ 3000 s_claimed 20003000 20003000
    (do_call s_claimed 20003000 (ExtendLease None))); [lia|by eapply event_beat, surjective_pairing|].
  apply (punctual_next _ _ _ _ _ 20003000 _ 61000000 20003000 s_swept); [lia| |apply punctual_now].
  eapply (event_sweep _ _ _ _ _ _ _ 61000000); [lia|]. apply surjective_pairing.
Qed.

Lemma punctual_attempt_keeps_its_job_witness :
  holding demo_attempt 60%Q None 20003000 (jobs_table (sys_db s_swept)) ∧
  ∃ db', owner_call 60%Q 62000000 demo_attempt (CompleteJob JNull) (sys_db s_swept) = (db', Ok tt).
Proof.
  destruct (pending_jobs_can_be_claimed s_pending 60%Q 3000 77 11 "w1" None (job_in s_pending)
    pending_reachable eq_refl in_pending) as (db & job & E & _ & _ & Ha & _); [vm_compute; done|].
  assert (attempt_count (job_in s_pending) + 1 = 1) as Hc1 by (vm_compute; done).
  rewrite Hc1 in Ha.
  destruct (punctual_attempt_keeps_its_job s_pending 60%Q 3000 77 11 "w1" None db job demo_attempt
    58000000 1000000 20003000 s_swept pending_reachable ltac:(cbn; set_solver) eq_refl E Ha
    ltac:(vm_compute; done)) as (Hh & _ & _ & Hc).
  - assert (mk_sys db (sys_redis s_pending) ({[77]} ∪ minted s_pending) = s_claimed) as ->
      by (unfold s_claimed, do_claim; by rewrite E).
    apply s_swept_punctual.
  - split; [exact Hh|]. destruct (Hc 62000000 (CompleteJob JNull)) as (db' & r & H & _). by exists db'.
Defined.

Lemma attempts_are_accounted_for_witness :
  1 = 3 * 0 + attempt_count (job_in s_recovered).
Proof.
  assert (history 11 1 0 s_empty s_recovered) as H.
  { apply (history_step 11 1 0 0 0 s_empty s_pending);
      [apply do_submit_step, demo_alone|vm_compute; reflexivity..|].
    apply (history_step 11 0 0 1 0 s_pending s_claimed);
      [apply do_claim_step; [set_solver|done]|vm_compute; reflexivity..|].
    apply (history_step 11 0 0 0 0 s_claimed s_recovered);
      [apply do_recover_step|vm_compute; reflexivity..|constructor]. }
  destruct (attempts_are_accounted_for s_empty s_recovered 11 1 0 (job_in s_recovered)) as [Hc _];
    [|done|exact H|exact in_recovered|exact Hc].
  exists s_empty. split; [by split|constructor].
Defined.
