(* ===== verification/Doubles.v ===== *)
(** * Doubles: the IEEE arithmetic behind the progress percentage

    Python computes [processed / total * 100] on floats.  This file takes the
    Standard Library's executable binary64 ([SpecFloat]) and bounds what its rounding
    does: [round_spec] for one rounding, [quotient_spec] and [product_spec] for the
    division and the multiplication. *)

From S2P Require Import Prelude.
From Stdlib Require Import SpecFloat.

Local Open Scope Z_scope.

(** The double of an integer, and [int(x)]: truncation toward zero; [None] for an
    infinity or NaN. *)
Definition to_double (z : Z) : spec_float := binary_normalize 53 1024 z 0 false.

Definition double_trunc (x : spec_float) : option Z :=
  match x with
  | S754_zero _ => Some 0
  | S754_finite s m e =>
      let n := if 0 <=? e then Z.pos m * 2 ^ e else Z.pos m / 2 ^ (- e) in
      Some (if s then - n else n)
  | _ => None
  end.

(** ** Digits and shifts *)

Abbreviation digits2 m := (Z.pos (digits2_pos m)).

Lemma digits2_bounds m : 2 ^ (digits2 m - 1) ≤ Z.pos m < 2 ^ digits2 m.
Proof.
  induction m as [m IH|m IH|]; cbn [digits2_pos]; [| |done];
    rewrite Pos2Z.inj_succ; replace (Z.succ (digits2 m) - 1) with (digits2 m) by lia;
    rewrite Z.pow_succ_r by lia;
    replace (digits2 m) with (Z.succ (digits2 m - 1)) at 1 by lia;
    rewrite Z.pow_succ_r by lia; lia.
Qed.

Lemma digits2_unique m d : 2 ^ (d - 1) ≤ Z.pos m < 2 ^ d → digits2 m = d.
Proof.
  intros [H1 H2]. pose proof (digits2_bounds m) as [H3 H4].
  assert (0 ≤ d) as Hd.
  { destruct (Z.neg_nonneg_cases d); [|done]. rewrite (Z.pow_neg_r 2 d) in H2 by done. lia. }
  assert (digits2 m - 1 < d) by (apply (Z.pow_lt_mono_r_iff 2); lia).
  assert (d - 1 < digits2 m); [|lia].
  destruct (Z.neg_nonneg_cases (d - 1)); [lia|]. apply (Z.pow_lt_mono_r_iff 2); lia.
Qed.

Lemma iter_pos_nat {A} (f : A → A) n x : iter_pos f n x = Nat.iter (Pos.to_nat n) f x.
Proof.
  revert x. induction n as [n IH|n IH|]; intros x; cbn [iter_pos]; [| |done];
    rewrite !IH, <-Nat.iter_add.
  - rewrite <-Nat.iter_succ_r. f_equal. lia.
  - f_equal. lia.
Qed.

Lemma shr_1_div r : 0 ≤ shr_m r → shr_m (shr_1 r) = shr_m r / 2.
Proof.
  destruct r as [[|[p|p|]|p] a b]; cbn; intros H; try done.
  - change (Z.pos p~1) with (2 * Z.pos p + 1). by rewrite Z.add_comm, Z.mul_comm, Z.div_add.
  - change (Z.pos p~0) with (2 * Z.pos p). by rewrite Z.mul_comm, Z.div_mul.
Qed.

Lemma shr_iter_div n r : 0 ≤ shr_m r → shr_m (Nat.iter n shr_1 r) = shr_m r / 2 ^ Z.of_nat n.
Proof.
  intros H. induction n as [|n IH]; [by rewrite Z.div_1_r|]. rewrite Nat.iter_succ.
  assert (0 < 2 ^ Z.of_nat n) by (apply Z.pow_pos_nonneg; lia).
  rewrite shr_1_div by (rewrite IH; apply Z.div_pos; lia).
  rewrite IH, Z.div_div by lia. f_equal. rewrite Nat2Z.inj_succ, Z.pow_succ_r by lia. lia.
Qed.

(** Shifting out zeros loses nothing. *)
Lemma shr_iter_exact n c :
  0 ≤ c → Nat.iter n shr_1 (Build_shr_record (c * 2 ^ Z.of_nat n) false false) =
          Build_shr_record c false false.
Proof.
  intros Hc. induction n as [|n IH] in c, Hc |-*; [by rewrite Z.mul_1_r|].
  rewrite Nat.iter_succ, Nat2Z.inj_succ, Z.pow_succ_r by lia.
  rewrite Z.mul_assoc, IH by lia. rewrite (Z.mul_comm c 2). by destruct c as [|p|p].
Qed.

(** ** One rounding *)

Lemma shr_fexp_unfold m e l k :
  0 ≤ k → fexp 53 1024 (Zdigits2 m + e) - e = k →
  shr_fexp 53 1024 m e l = (Nat.iter (Z.to_nat k) shr_1 (shr_record_of_loc m l), e + k).
Proof.
  intros Hk Hf. unfold shr_fexp, shr. rewrite Hf. destruct k as [|k|k]; [|by rewrite iter_pos_nat|done].
  by rewrite Z.add_0_r.
Qed.

Lemma round_nearest_even_cases m l : round_nearest_even m l = m ∨ round_nearest_even m l = m + 1.
Proof. destruct l as [|[]]; cbn; auto. by destruct (Z.even m); auto. Qed.

Lemma shr_m_of_loc m l : shr_m (shr_record_of_loc m l) = m.
Proof. by destruct l as [|[]]. Qed.

(** Rounding a mantissa of at least 53 digits, away from the ends of the exponent
    range: the result is finite, normal, and the value one of the two neighbours;
    exactly the argument when that has 53 significant digits. *)
Lemma round_spec s m e l (k := digits2 m - 53) :
  0 ≤ k → -1000 ≤ digits2 m + e ≤ 900 →
  ∃ M E c, binary_round_aux 53 1024 s (Z.pos m) e l = S754_finite s M E ∧ e ≤ E ≤ e + k + 1 ∧
    digits2 M = 53 ∧ (c = 0 ∨ c = 1) ∧
    Z.pos M * 2 ^ (E - e) = (Z.pos m / 2 ^ k + c) * 2 ^ k ∧
    (l = loc_Exact → Z.pos m mod 2 ^ k = 0 → c = 0).
Proof.
  intros Hk He. pose proof (digits2_bounds m) as [Hlo Hhi].
  assert (0 < 2 ^ k) as Hpk by (apply Z.pow_pos_nonneg; lia).
  unfold binary_round_aux. rewrite (shr_fexp_unfold _ _ _ k); [|done|unfold fexp, emin; cbn [Zdigits2]; lia].
  set (rs := Nat.iter _ _ _).
  assert (shr_m rs = Z.pos m / 2 ^ k) as Hm1.
  { unfold rs. rewrite shr_iter_div, shr_m_of_loc, Z2Nat.id; by rewrite ?shr_m_of_loc. }
  assert (2 ^ 52 ≤ Z.pos m / 2 ^ k < 2 ^ 53) as Hm1b.
  { split; [apply Z.div_le_lower_bound|apply Z.div_lt_upper_bound]; try done;
      rewrite <-Z.pow_add_r by lia; [replace (k + 52) with (digits2 m - 1) by lia
                                    |replace (k + 53) with (digits2 m) by lia]; done. }
  set (m2 := round_nearest_even _ _).
  assert (∃ c, (c = 0 ∨ c = 1) ∧ m2 = Z.pos m / 2 ^ k + c ∧
               (l = loc_Exact → Z.pos m mod 2 ^ k = 0 → c = 0)) as (c & Hc & Hm2 & Hex).
  { assert (l = loc_Exact → Z.pos m mod 2 ^ k = 0 → m2 = Z.pos m / 2 ^ k) as Hex.
    { intros -> Hmod. unfold m2. rewrite Hm1. unfold rs. cbn [shr_record_of_loc].
      pose proof (shr_iter_exact (Z.to_nat k) (Z.pos m / 2 ^ k) ltac:(lia)) as Hit.
      rewrite Z2Nat.id in Hit by done. rewrite (Z.mul_comm _ (2 ^ k)) in Hit.
      rewrite <-(proj2 (Z.div_exact (Z.pos m) (2 ^ k) ltac:(lia)) Hmod) in Hit.
      by rewrite Hit. }
    destruct (round_nearest_even_cases (shr_m rs) (loc_of_shr_record rs)) as [H|H];
      fold m2 in H; rewrite Hm1 in H; [exists 0|exists 1]; (split; [auto|]); (split; [lia|]); [done|].
    intros Hl Hmod. rewrite (Hex Hl Hmod) in H. lia. }
  clearbody m2 rs. clear Hm1.
  destruct (decide (m2 = 2 ^ 53)) as [Htop|Htop].
  - rewrite Htop, (shr_fexp_unfold _ _ _ 1); [|done|unfold fexp, emin; change (Zdigits2 (2 ^ 53)) with 54; lia].
    cbn [shr_record_of_loc].
    change (shr_m (Nat.iter _ _ _)) with (2 ^ 52). cbv beta iota.
    replace (e + k + 1 <=? 1024 - 53) with true by lia. eexists _, _, c. split; [done|].
    split; [lia|]. split; [done|]. split; [done|]. split; [|done]. rewrite <-Hm2, Htop.
    replace (e + k + 1 - e) with (Z.succ k) by lia. rewrite Z.pow_succ_r by lia. lia.
  - destruct m2 as [|M|M]; [lia| |lia].
    assert (digits2 M = 53) as HM by (apply digits2_unique; lia).
    rewrite (shr_fexp_unfold _ _ _ 0); [|done|unfold fexp, emin; cbn [Zdigits2]; lia].
    change (shr_m (Nat.iter _ _ _)) with (Z.pos M). cbv beta iota.
    replace (e + k + 0 <=? 1024 - 53) with true by lia. eexists M, _, c. split; [done|].
    split; [lia|]. split; [done|]. split; [done|]. split; [|done].
    rewrite <-Hm2. do 2 f_equal. lia.
Qed.

(** A 53-digit mantissa is not rounded. *)
Lemma round_exact s m e :
  digits2 m = 53 → -1000 ≤ 53 + e ≤ 900 →
  binary_round_aux 53 1024 s (Z.pos m) e loc_Exact = S754_finite s m e.
Proof.
  intros Hd He. destruct (round_spec s m e loc_Exact) as (M & E & c & -> & HE & HM & _ & Hv & Hc);
    [lia|lia|]. rewrite Hd in HE, Hv, Hc. cbn in Hv, Hc.
  rewrite Hc, Z.div_1_r in Hv by (done || apply Z.mod_1_r).
  pose proof (digits2_bounds m) as Hm. pose proof (digits2_bounds M) as HMb. rewrite Hd in Hm. rewrite HM in HMb.
  assert (E = e ∨ E = e + 1) as [-> | ->] by lia.
  - rewrite Z.sub_diag in Hv. do 2 f_equal. lia.
  - replace (e + 1 - e) with 1 in Hv by lia. lia.
Qed.

Lemma pos_iter_xO m d : Z.pos (Pos.iter xO m d) = Z.pos m * 2 ^ Z.pos d.
Proof.
  induction d as [|d IH] using Pos.peano_ind; [cbn; lia|].
  rewrite Pos.iter_succ, Pos2Z.inj_succ, Z.pow_succ_r by done.
  rewrite (Pos2Z.inj_xO (Pos.iter _ _ _)), IH. lia.
Qed.

(** The double of an integer below 2^53, normalised. *)
Lemma to_double_spec n (d := digits2 n) :
  Z.pos n < 2 ^ 53 →
  ∃ M, to_double (Z.pos n) = S754_finite false M (d - 53) ∧
       Z.pos M = Z.pos n * 2 ^ (53 - d) ∧ digits2 M = 53 ∧ d ≤ 53.
Proof.
  intros Hn. pose proof (digits2_bounds n) as [Hlo Hhi]. fold d in Hlo, Hhi.
  assert (d ≤ 53) as Hd.
  { assert (d - 1 < 53); [|lia]. apply (Z.pow_lt_mono_r_iff 2); lia. }
  assert (∃ M, shl_align n 0 (d - 53) = (M, d - 53) ∧ Z.pos M = Z.pos n * 2 ^ (53 - d))
    as (M & Hsh & HM).
  { unfold shl_align. destruct (d - 53 - 0) as [|k|k] eqn:Hk; [|lia|].
    - exists n. split; [f_equal; lia|]. replace (53 - d) with 0 by lia. lia.
    - exists (Pos.iter xO n k). split; [done|]. rewrite pos_iter_xO. do 2 f_equal. lia. }
  assert (digits2 M = 53) as HdM.
  { apply digits2_unique. rewrite HM. replace (53 - 1) with (d - 1 + (53 - d)) by lia.
    replace 53 with (d + (53 - d)) at 4 by lia. rewrite !Z.pow_add_r by lia.
    assert (0 < 2 ^ (53 - d)) by (apply Z.pow_pos_nonneg; lia). nia. }
  exists M. split; [|done]. unfold to_double, binary_normalize, binary_round.
  replace (fexp 53 1024 (digits2 n + 0)) with (d - 53) by (unfold fexp, emin; fold d; lia).
  rewrite Hsh. apply round_exact; [done|]. unfold d. lia.
Qed.

(** ** Relative error *)

(** The value of a finite double in units of [2 ^ e]. *)
Definition scaled (M : positive) (E e : Z) : Z := Z.pos M * 2 ^ (E - e).

Definition close (v m : Z) : Prop := m * (2 ^ 52 - 1) ≤ v * 2 ^ 52 ≤ m * (2 ^ 52 + 1).

Lemma round_close s m e l :
  53 ≤ digits2 m → -1000 ≤ digits2 m + e ≤ 900 →
  ∃ M E, binary_round_aux 53 1024 s (Z.pos m) e l = S754_finite s M E ∧
    e ≤ E ≤ e + digits2 m - 52 ∧ digits2 M = 53 ∧ close (scaled M E e) (Z.pos m).
Proof.
  intros Hd He. destruct (round_spec s m e l) as (M & E & c & -> & HE & HM & Hc & Hv & _);
    [lia|done|].
  exists M, E. split; [done|]. split; [lia|]. split; [done|].
  unfold close, scaled. rewrite Hv. pose proof (digits2_bounds m) as [Hlo _].
  replace (digits2 m - 1) with ((digits2 m - 53) + 52) in Hlo by lia.
  rewrite Z.pow_add_r in Hlo by lia.
  assert (0 < 2 ^ (digits2 m - 53)) as Hp by (apply Z.pow_pos_nonneg; lia).
  pose proof (Z.div_mod (Z.pos m) (2 ^ (digits2 m - 53)) ltac:(lia)) as Hdm.
  pose proof (Z.mod_pos_bound (Z.pos m) _ Hp) as Hr.
  set (P := 2 ^ (digits2 m - 53)) in *. set (q := Z.pos m / P) in *.
  assert (q * P = Z.pos m - Z.pos m mod P) as Hq by lia.
  rewrite Z.mul_add_distr_r, Hq. destruct Hc as [-> | ->]; lia.
Qed.

Lemma close_mul v m x : close v m → 0 ≤ x → close (v * x) (m * x).
Proof. unfold close. intros [H1 H2] Hx. split; nia. Qed.

(** Division of [p] by [t ≥ p]: the quotient, in units of [2 ^ (d p - d t - 53)], is
    close to the truncated exact one; and equal operands give 1. *)
Lemma quotient_spec p t (e := digits2 p - digits2 t - 53) :
  Z.pos p ≤ Z.pos t → Z.pos t < 2 ^ 53 →
  ∃ M E, SFdiv 53 1024 (to_double (Z.pos p)) (to_double (Z.pos t)) = S754_finite false M E ∧
    e ≤ E ≤ e + 2 ∧ digits2 M = 53 ∧ close (scaled M E e) (Z.pos p * 2 ^ (- e) / Z.pos t) ∧
    -106 ≤ e ≤ -53.
Proof.
  intros Hpt Ht.
  destruct (to_double_spec p) as (Mp & -> & HMp & HdMp & Hdp); [lia|].
  destruct (to_double_spec t) as (Mt & -> & HMt & HdMt & Hdt); [done|].
  pose proof (digits2_bounds Mp) as Hbp. pose proof (digits2_bounds Mt) as Hbt.
  rewrite HdMp in Hbp. rewrite HdMt in Hbt.
  assert (digits2 p ≤ digits2 t) as Hle.
  { pose proof (digits2_bounds p). pose proof (digits2_bounds t).
    assert (digits2 p - 1 < digits2 t); [|lia]. apply (Z.pow_lt_mono_r_iff 2); lia. }
  unfold SFdiv, SFdiv_core_binary. cbn [Zdigits2 xorb]. rewrite HdMp, HdMt.
  replace (Z.min _ _) with e by (unfold fexp, emin; lia).
  replace (digits2 p - 53 - (digits2 t - 53) - e) with 53 by lia. cbv iota.
  assert (Z.shiftl (Z.pos Mp) 53 / Z.pos Mt = Z.pos p * 2 ^ (- e) / Z.pos t) as Hq.
  { rewrite Z.shiftl_mul_pow2, HMp, HMt by lia.
    replace (- e) with (53 + (digits2 t - digits2 p)) by lia.
    replace (53 - digits2 p) with ((digits2 t - digits2 p) + (53 - digits2 t)) by lia.
    rewrite !Z.pow_add_r by lia.
    assert (0 < 2 ^ (53 - digits2 t)) by (apply Z.pow_pos_nonneg; lia).
    rewrite <-(Z.div_mul_cancel_r (Z.pos p * _) (Z.pos t) (2 ^ (53 - digits2 t))) by lia.
    f_equal. ring. }
  rewrite Z.shiftl_mul_pow2 in * by lia.
  pose proof (Z.div_eucl_eq (Z.pos Mp * 2 ^ 53) (Z.pos Mt)) as _.
  unfold Z.div in Hq at 1. destruct (Z.div_eucl (Z.pos Mp * 2 ^ 53) (Z.pos Mt)) as [q r] eqn:Hdiv.
  assert (q = Z.pos Mp * 2 ^ 53 / Z.pos Mt) as Hqd by (unfold Z.div; by rewrite Hdiv).
  assert (2 ^ 52 ≤ q < 2 ^ 54) as Hqb.
  { rewrite Hqd. split; [apply Z.div_le_lower_bound|apply Z.div_lt_upper_bound]; lia. }
  rewrite <-Hq. destruct q as [|q|q]; [lia| |lia].
  assert (digits2 q = 53 ∨ digits2 q = 54) as Hdq.
  { destruct (Z.lt_ge_cases (Z.pos q) (2 ^ 53)); [left|right]; apply digits2_unique; lia. }
  destruct (round_close false q e (new_location (Z.pos Mt) r)) as (M & E & -> & HE & HM & Hcl);
    [lia|lia|].
  exists M, E. split; [done|]. split; [lia|]. split; [done|]. split; [done|lia].
Qed.

Lemma quotient_self p :
  Z.pos p < 2 ^ 53 →
  SFdiv 53 1024 (to_double (Z.pos p)) (to_double (Z.pos p)) =
    S754_finite false (2 ^ 52)%positive (-52).
Proof.
  intros Hp. destruct (to_double_spec p Hp) as (M & -> & _ & Hd & _).
  unfold SFdiv, SFdiv_core_binary. cbn [Zdigits2 xorb]. rewrite Hd.
  set (d := digits2 p - 53). replace (53 + d - (53 + d)) with 0 by lia.
  rewrite Z.sub_diag. change (Z.min (fexp 53 1024 0) 0) with (-53). cbv iota zeta.
  change (0 - -53) with 53. cbv iota. rewrite Z.shiftl_mul_pow2 by lia.
  destruct (Z.div_eucl (Z.pos M * 2 ^ 53) (Z.pos M)) as [q r] eqn:Hdiv.
  assert (q = 2 ^ 53) as ->.
  { transitivity (Z.pos M * 2 ^ 53 / Z.pos M); [unfold Z.div; by rewrite Hdiv|].
    by rewrite Z.mul_comm, Z.div_mul. }
  assert (r = 0) as ->.
  { transitivity ((Z.pos M * 2 ^ 53) mod Z.pos M); [unfold Z.modulo; by rewrite Hdiv|].
    by rewrite Z.mul_comm, Z.mod_mul. }
  unfold new_location, new_location_even, new_location_odd. cbn [Z.eqb].
  destruct (Z.even (Z.pos M)); vm_compute; done.
Qed.

Lemma digits2_mul a b :
  digits2 a + digits2 b - 1 ≤ digits2 (a * b)%positive ≤ digits2 a + digits2 b.
Proof.
  pose proof (digits2_bounds a) as Ha. pose proof (digits2_bounds b) as Hb.
  pose proof (digits2_bounds (a * b)) as Hab. rewrite Pos2Z.inj_mul in Hab.
  assert (2 ^ (digits2 a - 1 + (digits2 b - 1)) ≤ Z.pos a * Z.pos b) by (rewrite Z.pow_add_r by lia; nia).
  assert (Z.pos a * Z.pos b < 2 ^ (digits2 a + digits2 b)) by (rewrite Z.pow_add_r by lia; nia).
  split.
  - assert (digits2 a - 1 + (digits2 b - 1) < digits2 (a * b)); [|lia].
    apply (Z.pow_lt_mono_r_iff 2); lia.
  - assert (digits2 (a * b) - 1 < digits2 a + digits2 b); [|lia].
    apply (Z.pow_lt_mono_r_iff 2); lia.
Qed.

Lemma product_spec M E M' E' :
  digits2 M = 53 → digits2 M' = 53 → -900 ≤ E + E' ≤ 700 →
  ∃ N F, SFmul 53 1024 (S754_finite false M E) (S754_finite false M' E') =
           S754_finite false N F ∧
    E + E' ≤ F ∧ close (scaled N F (E + E')) (Z.pos M * Z.pos M').
Proof.
  intros HM HM' HE. unfold SFmul. cbn [xorb]. pose proof (digits2_mul M M') as Hd.
  destruct (round_close false (M * M') (E + E') loc_Exact) as (N & F & -> & HF & _ & Hc); [lia|lia|].
  exists N, F. split; [done|]. split; [lia|]. done.
Qed.

(** Truncation is the floor of the value. *)
Lemma trunc_scaled M E e :
  e ≤ E → e ≤ 0 → double_trunc (S754_finite false M E) = Some (scaled M E e / 2 ^ (- e)).
Proof.
  intros HE He. unfold double_trunc, scaled. f_equal. destruct (Z.leb_spec 0 E).
  - replace (E - e) with (E + - e) by lia. rewrite Z.pow_add_r, Z.mul_assoc by lia.
    rewrite Z.div_mul; [done|]. apply Z.pow_nonzero; lia.
  - replace (- e) with (- E + (E - e)) by lia. rewrite Z.pow_add_r by lia.
    rewrite Z.div_mul_cancel_r; [done|apply Z.pow_nonzero; lia..].
Qed.

(** ** [int(p / t * 100)] *)

Definition percent_double (p t : Z) : option Z :=
  double_trunc (SFmul 53 1024 (SFdiv 53 1024 (to_double p) (to_double t)) (to_double 100)).

Lemma to_double_100 : to_double 100 = S754_finite false (100 * 2 ^ 46)%positive (-46).
Proof. reflexivity. Qed.

Lemma percent_self p : Z.pos p < 2 ^ 53 → percent_double (Z.pos p) (Z.pos p) = Some 100.
Proof. intros Hp. unfold percent_double. by rewrite quotient_self. Qed.

(** The two roundings together keep the percentage within one of the exact one,
    and never carry it past an integer. *)
Lemma percent_bounds p t D Q V W v k :
  0 < t ≤ 2 ^ 40 → 0 ≤ p ≤ t → 2 ^ 53 ≤ D →
  Q = p * D / t → close V Q → close W (V * (100 * 2 ^ 46)) →
  v = W / (2 ^ 46 * D) → k = 100 * p / t → k - 1 ≤ v ≤ k.
Proof.
  unfold close. intros Ht Hp HD HQ HV HW Hv Hk.
  pose proof (Z.div_mod (p * D) t ltac:(lia)) as HQ1.
  pose proof (Z.mod_pos_bound (p * D) t ltac:(lia)) as HQ2. rewrite <-HQ in HQ1.
  pose proof (Z.div_mod (100 * p) t ltac:(lia)) as Hk1.
  pose proof (Z.mod_pos_bound (100 * p) t ltac:(lia)) as Hk2. rewrite <-Hk in Hk1.
  assert (t * Q ≤ p * D < t * Q + t) as HQb by lia.
  assert (t * k ≤ 100 * p ∧ 100 * p + 1 ≤ t * k + t) as Hkb by lia.
  assert (0 ≤ Q) by (rewrite HQ; apply Z.div_pos; nia).
  assert (0 ≤ k ≤ 100) as Hk100 by nia.
  clear HQ1 HQ2 Hk1 Hk2 HQ Hk.
  assert (t * k * D ≤ 100 * (p * D) ∧ 100 * (p * D) + D ≤ t * k * D + t * D) as HK by nia.
  assert (t * Q * (2 ^ 52 - 1) ≤ t * V * 2 ^ 52 ≤ t * Q * (2 ^ 52 + 1)) as HV' by nia.
  assert (t * V * (100 * 2 ^ 46) * (2 ^ 52 - 1) ≤ t * W * 2 ^ 52 ≤
          t * V * (100 * 2 ^ 46) * (2 ^ 52 + 1)) as HW' by nia.
  assert (p * D ≤ t * D) by nia. assert (t * 2 ^ 53 ≤ t * D) by nia.
  assert (t * D ≤ 2 ^ 40 * D) by nia.
  assert (t * k * D - t * D ≤ 100 * (p * D) - t * D) by lia.
  assert (t * (2 ^ 46 * D * (k - 1)) ≤ t * W) as Hlow.
  { replace (t * (2 ^ 46 * D * (k - 1))) with (2 ^ 46 * (t * k * D - t * D)) by ring. lia. }
  assert (t * W < t * (2 ^ 46 * D * (k + 1))) as Hup.
  { replace (t * (2 ^ 46 * D * (k + 1))) with (2 ^ 46 * (t * k * D + t * D)) by ring. lia. }
  assert (2 ^ 46 * D * (k - 1) ≤ W) by (apply (Z.mul_le_mono_pos_l _ _ t); lia).
  assert (W < 2 ^ 46 * D * (k + 1)) by (apply (Z.mul_lt_mono_pos_l t); lia).
  subst v. split.
  - apply Z.div_le_lower_bound; lia.
  - assert (W / (2 ^ 46 * D) < k + 1); [|lia]. apply Z.div_lt_upper_bound; lia.
Qed.

Lemma percent_zero t : 0 < t < 2 ^ 53 → percent_double 0 t = Some 0.
Proof.
  intros Ht. destruct t as [|t|t]; [lia| |lia]. unfold percent_double.
  by destruct (to_double_spec t) as (M & -> & _); [lia|].
Qed.

(** The value the two operations produce, before truncation. *)
Lemma percent_value p t (e := digits2 p - digits2 t - 53) :
  Z.pos p ≤ Z.pos t → Z.pos t < 2 ^ 53 →
  -106 ≤ e ≤ -53 ∧ ∃ V W,
    percent_double (Z.pos p) (Z.pos t) = Some (W / (2 ^ 46 * 2 ^ (- e))) ∧
    close V (Z.pos p * 2 ^ (- e) / Z.pos t) ∧ close W (V * (100 * 2 ^ 46)).
Proof.
  intros Hpt Ht. destruct (quotient_spec p t Hpt Ht) as (M & E & Hdiv & HE & HM & HV & He).
  split; [done|]. fold e in HE, HV, He.
  destruct (product_spec M E (100 * 2 ^ 46) (-46)) as (N & F & Hmul & HF & HW); [done|done|lia|].
  exists (scaled M E e), (scaled N F (E + -46) * 2 ^ (E - e)).
  assert (0 < 2 ^ (E - e)) by (apply Z.pow_pos_nonneg; lia).
  split; [|split; [done|]].
  - unfold percent_double. rewrite Hdiv, to_double_100, Hmul, (trunc_scaled _ _ (E + -46)) by lia.
    f_equal. rewrite <-Z.pow_add_r by lia.
    replace (46 + - e) with (- (E + -46) + (E - e)) by lia. rewrite Z.pow_add_r by lia.
    rewrite Z.div_mul_cancel_r; [done|apply Z.pow_nonzero; lia|lia].
  - change (Z.pos (100 * 2 ^ 46)) with (100 * 2 ^ 46) in HW.
    replace (scaled M E e * _) with (Z.pos M * (100 * 2 ^ 46) * 2 ^ (E - e))
      by (unfold scaled; ring).
    apply close_mul; [done|lia].
Qed.

Lemma percent_defined p t : 0 ≤ p ≤ t → 0 < t < 2 ^ 53 → is_Some (percent_double p t).
Proof.
  intros Hp Ht. destruct t as [|t|t]; [lia| |lia].
  destruct p as [|p|p]; [by rewrite percent_zero| |lia].
  destruct (percent_value p t) as (_ & V & W & -> & _); [lia..|]. by eexists.
Qed.

Lemma percent_spec p t :
  0 ≤ p ≤ t → 0 < t ≤ 2 ^ 40 →
  ∃ v, percent_double p t = Some v ∧ 100 * p / t - 1 ≤ v ≤ 100 * p / t ∧ 0 ≤ v ∧
       (p = t → v = 100).
Proof.
  intros Hp Ht. destruct t as [|t|t]; [lia| |lia].
  destruct p as [|p|p]; [exists 0; rewrite percent_zero by lia; by rewrite Z.div_0_l| |lia].
  destruct (percent_value p t) as (He & V & W & Hv & HV & HW); [lia..|].
  eexists. split; [exact Hv|]. split; [|split].
  - eapply (percent_bounds (Z.pos p) (Z.pos t)); [lia|lia| |reflexivity|done|done|reflexivity..].
    apply (Z.pow_le_mono_r 2 53); lia.
  - assert (0 < 2 ^ (- (digits2 p - digits2 t - 53))) as HD by (apply Z.pow_pos_nonneg; lia).
    apply Z.div_pos; [|lia]. unfold close in *.
    assert (0 ≤ Z.pos p * 2 ^ (- (digits2 p - digits2 t - 53)) / Z.pos t)
      by (apply Z.div_pos; lia). lia.
  - intros [= ->]. rewrite percent_self in Hv by lia. by injection Hv as <-.
Qed.
