(* ===== verification/Handlers.v ===== *)
(** * Handlers: what a job does when it runs

    [app/jobs/base.py], [handlers.py], [registry.py] and the progress percentage of
    [worker/runner.py].  A handler is a program of the three effects its context
    gives it (sleep, progress report, result or exception); [Runner] interprets it
    against the database.  Random draws and generated ids come from the context.
    Durations are exact rationals where Python computes floats; progress uses
    IEEE doubles because its truncation depends on their rounding. *)

From S2P Require Import Prelude.
From S2P Require Import Text.
From S2P Require Import Errors.
From S2P Require Import Model.
From S2P Require Import RetryPolicy.
From S2P Require Import Schemas.
From S2P Require Import Doubles.
From Stdlib Require Import QArith SpecFloat Ascii.

Local Open Scope Z_scope.

(** ** Handler programs *)

Inductive prog : Type :=
  | Done (r : result exn JSON)
  | Sleep (seconds : Q) (k : prog)
  | Report (processed total : Z) (k : prog).

(** [JobContext]: the fields a handler reads.  [ctx_random n] is the [n]-th draw of
    the random source, [ctx_hex] the hex digits of the [uuid4] a handler asks for. *)
Record JobContext := {
  ctx_job_id : uuid;
  ctx_job_type : string;
  ctx_payload : JSON;
  ctx_attempt : Z;
  ctx_worker_id : string;
  ctx_execution_token : option uuid;
  ctx_random : nat → Q;
  ctx_hex : string
}.

(** [JobContext.duration], with the draw it consumes. *)
Definition duration (c : JobContext) (draw : nat) (minimum maximum : Q) : Q :=
  (minimum + ctx_random c draw * (maximum - minimum))%Q.

Definition EMAIL_DURATION_SECONDS : Q * Q := (1, 3)%Q.
Definition WEBHOOK_DURATION_SECONDS : Q * Q := (1, 2)%Q.
Definition REPORT_DURATION_SECONDS : Q * Q := (3, 5)%Q.
Definition BATCH_ITEM_DURATION_SECONDS : Q := (2 # 10)%Q.
Definition WEBHOOK_SUCCESS_RATE : Q := (8 # 10)%Q.
Definition REPORT_BASE_URL : string := "https://example.local/reports".

(** [payload[key]]: the value, or the exception Python raises. *)
Definition subscript (v : JSON) (key : string) : result exn JSON :=
  match v with
  | JObj kvs =>
      match filter (λ kv, kv.1 = key) kvs with
      | (_, x) :: _ => Ok x
      | [] => Err (OtherError ("KeyError('" +:+ key +:+ "')"))
      end
  | _ => Err (OtherError "TypeError('payload is not a mapping')")
  end.

(** [len(items)], when the value has one. *)
Definition json_len (v : JSON) : option nat :=
  match v with
  | JArr l => Some (length l)
  | JObj kvs => Some (length kvs)
  | JStr s => Some (str_len s)
  | _ => None
  end.

Section handlers.
(** [str(value)] of a payload value that is not a string; validated payloads only
    interpolate strings. *)
Variable py_str : JSON → string.

Definition interpolate (v : JSON) : string :=
  match v with JStr s => s | _ => py_str v end.

Definition handle_email (c : JobContext) : prog :=
  Sleep (duration c 0 EMAIL_DURATION_SECONDS.1 EMAIL_DURATION_SECONDS.2)
    (Done (Ok (JObj [("message_id", JStr ("msg_" +:+ ctx_hex c)); ("status", JStr "sent")]))).

Definition handle_webhook (c : JobContext) : prog :=
  Sleep (duration c 0 WEBHOOK_DURATION_SECONDS.1 WEBHOOK_DURATION_SECONDS.2)
    (if Qle_bool WEBHOOK_SUCCESS_RATE (ctx_random c 1) then
       match subscript (ctx_payload c) "url" with
       | Err e => Done (Err e)
       | Ok url => Done (Err (JobExecutionError
           ("webhook delivery to " +:+ interpolate url +:+ " failed with status 503")))
       end
     else Done (Ok (JObj [("status_code", JNum 200 0); ("delivered", JBool true)]))).

Definition handle_report (c : JobContext) : prog :=
  Sleep (duration c 0 REPORT_DURATION_SECONDS.1 REPORT_DURATION_SECONDS.2)
    (match subscript (ctx_payload c) "format" with
     | Err e => Done (Err e)
     | Ok file_format => Done (Ok (JObj [("file_url",
         JStr (REPORT_BASE_URL +:+ "/" +:+ show_uuid (ctx_job_id c) +:+ "." +:+
               interpolate file_format))]))
     end).

(** The loop of [handle_batch], with [todo] items left. *)
Fixpoint batch_loop (todo : nat) (processed total : Z) : prog :=
  match todo with
  | O => Done (Ok (JObj [("processed", JNum processed 0); ("failed", JNum 0 0);
                         ("total", JNum total 0)]))
  | S todo =>
      Sleep BATCH_ITEM_DURATION_SECONDS
        (Report (processed + 1) total (batch_loop todo (processed + 1) total))
  end.

Definition handle_batch (c : JobContext) : prog :=
  match subscript (ctx_payload c) "items" with
  | Err e => Done (Err e)
  | Ok items =>
      match json_len items with
      | None => Done (Err (OtherError "TypeError('object has no len()')"))
      | Some n => batch_loop n 0 (Z.of_nat n)
      end
  end.

Definition HANDLERS (t : JobType) : JobContext → prog :=
  match t with
  | EMAIL => handle_email
  | WEBHOOK => handle_webhook
  | REPORT => handle_report
  | BATCH => handle_batch
  end.

Definition get_handler (job_type : string) : option (JobContext → prog) :=
  HANDLERS <$> jobtype_of_value job_type.
End handlers.

(** ** The progress percentage *)

(** [int(processed / total * 100) if total else 100].  Both counts are exact as
    doubles below 2^53, where true division is the rounded quotient. *)
Definition percentage (processed total : Z) : option Z :=
  if total =? 0 then Some 100
  else double_trunc (SFmul 53 1024 (SFdiv 53 1024 (to_double processed) (to_double total))
                       (to_double 100)).

Example percentage_half : percentage 1 2 = Some 50. Proof. reflexivity. Qed.

(** ** Properties of the handlers *)

(** The reports a program makes when nothing interrupts it, and how it ends. *)
Fixpoint reports (p : prog) : list (Z * Z) :=
  match p with
  | Done _ => []
  | Sleep _ k => reports k
  | Report n t k => (n, t) :: reports k
  end.

Fixpoint outcome (p : prog) : result exn JSON :=
  match p with Done r => r | Sleep _ k | Report _ _ k => outcome k end.

Lemma batch_loop_spec todo processed total :
  reports (batch_loop todo processed total) =
    (λ k, (processed + Z.of_nat k, total)) <$> seq 1 todo ∧
  outcome (batch_loop todo processed total) =
    Ok (JObj [("processed", JNum (processed + Z.of_nat todo) 0); ("failed", JNum 0 0);
              ("total", JNum total 0)]).
Proof.
  revert processed. induction todo as [|todo IH]; intros processed; simpl.
  { by rewrite Z.add_0_r. }
  destruct (IH (processed + 1)) as [-> ->]. split.
  - f_equal. rewrite <-(fmap_S_seq 1 todo), <-list_fmap_compose.
    apply list_fmap_ext. intros _ k _. simpl. f_equal. lia.
  - replace (processed + 1 + Z.of_nat todo) with (processed + Z.of_nat (S todo)) by lia. done.
Qed.

(** A registered handler exists exactly for the four accepted job types, and every
    accepted submission has one. *)
Theorem every_accepted_type_has_a_handler py_str s :
  is_Some (get_handler py_str s) ↔ ∃ t, s = jobtype_value t.
Proof.
  unfold get_handler, jobtype_of_value. rewrite fmap_is_Some. split.
  - repeat case_decide; intros [t Ht]; simplify_eq; [by exists EMAIL|by exists WEBHOOK|
      by exists REPORT|by exists BATCH].
  - intros [[] ->]; by eexists.
Qed.

(** [handle_batch] on [n] items reports each of them once, in order, against the
    same total, and returns the counts. *)
Theorem batch_reports_every_item c items kvs
    (Hp : ctx_payload c = JObj kvs) (Hi : subscript (JObj kvs) "items" = Ok (JArr items)) :
  reports (handle_batch c) =
    (λ k, (Z.of_nat k, Z.of_nat (length items))) <$> seq 1 (length items) ∧
  outcome (handle_batch c) =
    Ok (JObj [("processed", JNum (Z.of_nat (length items)) 0); ("failed", JNum 0 0);
              ("total", JNum (Z.of_nat (length items)) 0)]).
Proof.
  unfold handle_batch. rewrite Hp, Hi. simpl.
  destruct (batch_loop_spec (length items) 0 (Z.of_nat (length items))) as [-> ->].
  split; [|done]. apply list_fmap_ext. intros _ k _. by rewrite Z.add_0_l.
Qed.

(** A report always has a percentage. *)
Lemma percentage_defined p t : 0 ≤ p ≤ t → t < 2 ^ 53 → is_Some (percentage p t).
Proof.
  intros Hp Ht. unfold percentage. destruct (Z.eqb_spec t 0); [by eexists|].
  apply percent_defined; lia.
Qed.

(** The reported percentage of a batch, for any number of items up to 2^40: between 0
    and 100, the exact percentage rounded down or one less than that (two floating
    point roundings never carry it past an integer), and 100 at the last item. *)
Theorem percentage_is_sound p t
    (Hp : 0 ≤ p ≤ t) (Ht : 0 < t ≤ 2 ^ 40) :
  ∃ v, percentage p t = Some v ∧ 0 ≤ v ≤ 100 ∧
       100 * p / t - 1 ≤ v ≤ 100 * p / t ∧ (p = t → v = 100).
Proof.
  destruct (percent_spec p t Hp Ht) as (v & Hv & Hb & H0 & H100). exists v.
  unfold percentage. replace (t =? 0) with false by lia. split; [done|]. split; [|done].
  assert (100 * p / t ≤ 100) by (apply Z.div_le_upper_bound; lia). lia.
Qed.

(** The handler's reports are percentages Python can compute. *)
Definition reportable (p : prog) : Prop :=
  Forall (λ x, is_Some (percentage x.1 x.2)) (reports p).

(** A payload whose item count Python's [/] divides exactly as modelled. *)
Definition countable (payload : JSON) : Prop :=
  ∀ v n, subscript payload "items" = Ok v → json_len v = Some n → Z.of_nat n < 2 ^ 53.

Lemma subscript_error v key e : subscript v key = Err e → ∃ m, e = OtherError m.
Proof. destruct v; cbn; try by intros [= <-]; eauto. case_match; [|case_match]; naive_solver. Qed.

Lemma batch_loop_reportable n : Z.of_nat n < 2 ^ 53 → reportable (batch_loop n 0 (Z.of_nat n)).
Proof.
  intros Hn. unfold reportable. destruct (batch_loop_spec n 0 (Z.of_nat n)) as [-> _].
  apply Forall_fmap, Forall_forall. intros k Hk%elem_of_seq. apply percentage_defined; cbn; lia.
Qed.

(** Whatever the payload, a registered handler reports percentages that exist and
    never ends in the exception that stands for a lost attempt. *)
Lemma registered_handler_ends_properly py_str s h c :
  get_handler py_str s = Some h → countable (ctx_payload c) →
  reportable (h c) ∧ ∀ i w t, outcome (h c) ≠ Err (OwnershipLostError i w t).
Proof.
  unfold get_handler, countable. destruct (jobtype_of_value s) as [ty|]; [|done].
  intros [= <-] Hc. unfold reportable. destruct ty; cbn.
  - by split.
  - destruct (Qle_bool _ _); [|by split].
    destruct (subscript (ctx_payload c) "url") eqn:Hs; [by split|].
    apply subscript_error in Hs as [m ->]. by split.
  - destruct (subscript (ctx_payload c) "format") eqn:Hs; [by split|].
    apply subscript_error in Hs as [m ->]. by split.
  - unfold handle_batch. destruct (subscript (ctx_payload c) "items") as [items|e] eqn:Hs.
    + destruct (json_len items) as [n|] eqn:Hn; [|by split].
      split; [by apply batch_loop_reportable, (Hc items n)|].
      by destruct (batch_loop_spec n 0 (Z.of_nat n)) as [_ ->].
    + apply subscript_error in Hs as [m ->]. by split.
Qed.

(** The rounding of the quotient can cost a percent: 29 items of 100 are 28%. *)
Example percentage_of_29 : percentage 29 100 = Some 28.
Proof. reflexivity. Qed.

(** ** Witnesses *)

Definition demo_context : JobContext :=
  {| ctx_job_id := 8; ctx_job_type := "batch"; ctx_payload := JObj [("items", JArr [JNull; JNull])];
     ctx_attempt := 1; ctx_worker_id := "w1"; ctx_execution_token := Some 5;
     ctx_random := λ _, 0%Q; ctx_hex := "0" |}.

Lemma batch_reports_every_item_witness :
  reports (handle_batch demo_context) = [(1, 2); (2, 2)].
Proof.
  destruct (batch_reports_every_item demo_context [JNull; JNull] [("items", JArr [JNull; JNull])])
    as [-> _]; reflexivity.
Defined.

Lemma percentage_is_sound_witness : ∃ v, percentage 3 3 = Some v ∧ v = 100.
Proof.
  destruct (percentage_is_sound 3 3 ltac:(lia) ltac:(lia)) as (v & H1 & _ & _ & H2).
  exists v. split; [exact H1|]. by apply H2.
Defined.
