(* ===== verification/Heartbeat.v ===== *)
(** * Heartbeat: keeping a lease, and learning that it is gone

    [worker/heartbeat.py].  [beat] is one call of [LeaseHeartbeat.beat]; [_run] is
    folded over what happens at each interval: whether the stop event was set while
    it slept, what the rest of the system committed meanwhile, the database clock and
    what became of the connection.  The bounded wait of [__aexit__] is asyncio's. *)

From S2P Require Import Prelude.
From S2P Require Import Text.
From S2P Require Import Errors.
From S2P Require Import Model.
From S2P Require Import Postgres.
From S2P Require Import MemDB.
From S2P Require Import Session.
From S2P Require Import RetryPolicy.
From S2P Require Import Config.
From S2P Require Import Ownership.
From S2P Require Import Redis.
From S2P Require Import Recovery.
From Stdlib Require Import QArith.

Local Open Scope Z_scope.

Record Tick (DB : Type) := {
  tk_stopped : bool;
  tk_others : DB → DB;
  tk_now : Z;
  tk_fault : fault
}.
Arguments tk_stopped {DB}. Arguments tk_others {DB}. Arguments tk_now {DB}.
Arguments tk_fault {DB}.

Section heartbeat.
Context {DB : Type} `{!Postgres DB}.

(** The new database, whether [ownership_lost] was set, and the answer. *)
Definition beat (default_lease : Q) (lease_seconds : option Q) (a : Attempt)
    (now : Z) (f : fault) (db : DB) : DB * bool * bool :=
  match db_call f (run_session (extend_lease default_lease now a lease_seconds)) db with
  | (db, Err (OwnershipLostError _ _ _)) => (db, true, false)
  | (db, Err _) => (db, false, true)
  | (db, Ok _) => (db, false, true)
  end.

(** [_run]: the database and whether [ownership_lost] is set when the task ends, or
    when the events run out. *)
Fixpoint heartbeat_run (default_lease : Q) (lease_seconds : option Q) (a : Attempt)
    (ticks : list (Tick DB)) (db : DB) : DB * bool :=
  match ticks with
  | [] => (db, false)
  | t :: ticks =>
      let db := tk_others t db in
      if tk_stopped t then (db, false)
      else
        match beat default_lease lease_seconds a (tk_now t) (tk_fault t) db with
        | (db, _, true) => heartbeat_run default_lease lease_seconds a ticks db
        | (db, lost, false) => (db, lost)
        end
  end.

(** ** The rest of the system *)

(** [f] runs other sessions' commits: one of [fs] takes the table from [t] to [t']. *)
Definition others_act (fs : list (DB → DB)) : relation table := λ t t',
  ∃ f d, f ∈ fs ∧ jobs_table d = t ∧ jobs_table (f d) = t'.

Definition row_write (id : uuid) : relation table := λ t t', ∃ x, t' = <[id := x]> t.

(** Every change is other sessions' or a write of row [id]. *)
Definition story (id : uuid) (fs : list (DB → DB)) : relation table :=
  rtc (λ t t', others_act fs t t' ∨ row_write id t t').

Definition leaves_row (id : uuid) (fs : list (DB → DB)) : Prop :=
  ∀ f d, f ∈ fs → jobs_table (f d) !! id = jobs_table d !! id.

Definition lost_row (a : Attempt) (t : table) : Prop :=
  ∀ r, t !! at_job_id a = Some r → owns a r = false.

(** Nobody gives a lost attempt its row back. *)
Definition keeps_lost (a : Attempt) (fs : list (DB → DB)) : Prop :=
  ∀ f d, f ∈ fs → lost_row a (jobs_table d) → lost_row a (jobs_table (f d)).

Lemma story_write id fs t x t' : story id fs (<[id := x]> t) t' → story id fs t t'.
Proof using Type. intros H. eapply rtc_l; [right; by exists x|done]. Qed.

Lemma story_other id fs f d t' :
  f ∈ fs → story id fs (jobs_table (f d)) t' → story id fs (jobs_table d) t'.
Proof using Type. intros Hf H. eapply rtc_l; [left; by exists f, d|done]. Qed.

Lemma others_act_l fs f d t' :
  f ∈ fs → rtc (others_act fs) (jobs_table (f d)) t' → rtc (others_act fs) (jobs_table d) t'.
Proof using Type. intros Hf H. eapply rtc_l; [by exists f, d|done]. Qed.

(** Left alone, the table changes in that row only. *)
Lemma story_undisturbed id fs t t' job' :
  (∀ f d, f ∈ fs → jobs_table (f d) = jobs_table d) →
  story id fs t t' → t' !! id = Some job' → t' = <[id := job']> t.
Proof using Type.
  intros Hid Hst Hj. apply map_eq. intros j. destruct (decide (j = id)) as [->|Hne].
  { by rewrite lookup_insert_eq. }
  rewrite lookup_insert_ne by done. clear Hj.
  induction Hst as [t|t t1 t2 [(f & d & Hf & <- & <-)|[x ->]] _ IH]; [done| |].
  - by rewrite IH, Hid.
  - by rewrite IH, lookup_insert_ne.
Qed.

Context `{!PostgresLaws DB}.
Implicit Types db : DB.

Lemma beat_cas dl ls a now f db :
  let c := cas (at_job_id a) (owns a)
             (apply_values [SetLeaseExpiresAt (Some (lease_deadline dl now ls))]) (jobs_table db) in
  ∃ db' lost go, beat dl ls a now f db = (db', lost, go) ∧
    jobs_table db' = (match f with command_lost => jobs_table db | _ => c.1 end) ∧
    lost = (match f with no_fault => match c.2 with None => true | Some _ => false end
            | _ => false end) ∧ go = negb lost.
Proof using PostgresLaws0.
  intros c. destruct (extend_lease_cas dl now a ls db) as (db' & Hu & Ht).
  unfold beat, db_call. destruct f; cbn.
  - rewrite Hu. subst c. unfold or_lost, lost_exn. destruct ((cas _ _ _ _).2); eauto 8.
  - eauto 8.
  - rewrite Hu. eauto 8.
Qed.

(** One beat, on every outcome: a reachable database renews the lease of a job the
    attempt still owns, and reports the loss of one it does not; a failing
    connection is never taken for a loss.  No other row is ever touched. *)
Theorem beat_outcome dl ls a now f db :
  let '(db', lost, go_on) := beat dl ls a now f db in
  (lost = true ↔ f = no_fault ∧
     ∀ r, jobs_table db !! at_job_id a = Some r → owns a r = false) ∧
  go_on = negb lost ∧ (lost = true → jobs_table db' = jobs_table db) ∧
  (∀ r, f = no_fault → jobs_table db !! at_job_id a = Some r → owns a r = true →
     ∃ r', jobs_table db' !! at_job_id a = Some r' ∧ owns a r' = true ∧
           lease_expires_at r' = Some (lease_deadline dl now ls)) ∧
  (∀ j, j ≠ at_job_id a → jobs_table db' !! j = jobs_table db !! j).
Proof using PostgresLaws0.
  destruct (beat_cas dl ls a now f db) as (db' & lost & go & -> & Ht & Hl & Hg).
  assert ((∃ r, jobs_table db !! at_job_id a = Some r ∧ owns a r = true) ∨
          ¬ ∃ r, jobs_table db !! at_job_id a = Some r ∧ owns a r = true) as [(r & Hr & Ho)|Hno].
  { destruct (jobs_table db !! at_job_id a) as [r|]; [|right; by intros (? & ? & _)].
    destruct (owns a r) eqn:Ho; [left; eauto|right]. intros (r' & [= <-] & ?). congruence. }
  - rewrite (cas_hit _ _ _ _ r) in Ht, Hl by done. cbn in Ht, Hl.
    assert (lost = false) as -> by (by destruct f). split; [|split; [done|split; [done|split]]].
    + split; [done|]. intros [_ H]. by rewrite (H r Hr) in Ho.
    + intros r' -> Hr' _. rewrite Hr in Hr'. apply (inj Some) in Hr' as <-.
      rewrite Ht, lookup_insert_eq. eauto.
    + intros j Hj. destruct f; rewrite Ht; rewrite ?lookup_insert_ne by done; done.
  - assert (∀ r, jobs_table db !! at_job_id a = Some r → owns a r = false) as Hmiss.
    { intros r Hr. destruct (owns a r) eqn:Ho; [|done]. destruct Hno. eauto. }
    rewrite cas_miss in Ht, Hl by done. cbn in Ht, Hl.
    assert (jobs_table db' = jobs_table db) as -> by (by destruct f).
    split; [|split; [done|split; [done|split; [|done]]]].
    + destruct f; subst lost; split; try done; by intros [? _].
    + intros r _ Hr Ho. destruct Hno. eauto.
Qed.

(** While the attempt keeps its row, the task only ever moves the lease. *)
Lemma heartbeat_run_owned dl ls a fs ticks db job :
  Forall (λ t, tk_others t ∈ fs) ticks → leaves_row (at_job_id a) fs →
  jobs_table db !! at_job_id a = Some job → owns a job = true →
  ∃ db' l, heartbeat_run dl ls a ticks db = (db', false) ∧
    story (at_job_id a) fs (jobs_table db) (jobs_table db') ∧
    jobs_table db' !! at_job_id a = Some (apply_values [SetLeaseExpiresAt l] job).
Proof using PostgresLaws0.
  intros Hin Hrow. revert db job.
  induction Hin as [|t ticks Ht Hts IH]; intros db job Hj Ho; cbn.
  { exists db, (lease_expires_at job). split; [done|]. split; [apply rtc_refl|].
    rewrite Hj. by destruct job. }
  assert (jobs_table (tk_others t db) !! at_job_id a = Some job) as Hj1 by (by rewrite Hrow).
  destruct (tk_stopped t).
  { exists (tk_others t db), (lease_expires_at job). split; [done|].
    split; [by apply (story_other _ _ (tk_others t)), rtc_refl|]. rewrite Hj1. by destruct job. }
  destruct (beat_cas dl ls a (tk_now t) (tk_fault t) (tk_others t db))
    as (db1 & lost & go & -> & Ht1 & Hl & Hg).
  rewrite (cas_hit _ _ _ _ job) in Ht1, Hl by done. cbn in Ht1, Hl.
  assert (lost = false) as -> by (by destruct (tk_fault t)). subst go. cbn.
  assert (∃ l, jobs_table db1 =
    <[at_job_id a := apply_values [SetLeaseExpiresAt l] job]> (jobs_table (tk_others t db)))
    as (l & Ht1').
  { destruct (tk_fault t); [by eexists| |by eexists]. exists (lease_expires_at job).
    rewrite insert_id; [done|]. rewrite Hj1. by destruct job. }
  destruct (IH db1 (apply_values [SetLeaseExpiresAt l] job)) as (db' & l' & -> & Hst & Hj').
  { by rewrite Ht1', lookup_insert_eq. }
  { done. }
  exists db', l'. split; [done|]. split; [|exact Hj'].
  apply (story_other _ _ (tk_others t)); [done|]. eapply story_write. by rewrite <-Ht1'.
Qed.

(** Without its row, it writes nothing. *)
Lemma heartbeat_run_stale dl ls a fs ticks db :
  Forall (λ t, tk_others t ∈ fs) ticks → keeps_lost a fs → lost_row a (jobs_table db) →
  ∃ db' lost, heartbeat_run dl ls a ticks db = (db', lost) ∧
    rtc (others_act fs) (jobs_table db) (jobs_table db') ∧ lost_row a (jobs_table db').
Proof using PostgresLaws0.
  intros Hin Hkeep. revert db. induction Hin as [|t ticks Ht Hts IH]; intros db Hlost; cbn.
  { exists db, false. split; [done|]. split; [apply rtc_refl|done]. }
  pose proof (Hkeep _ db Ht Hlost) as Hlost1. destruct (tk_stopped t).
  { exists (tk_others t db), false. split; [done|].
    split; [by apply (others_act_l _ (tk_others t)), rtc_refl|done]. }
  destruct (beat_cas dl ls a (tk_now t) (tk_fault t) (tk_others t db))
    as (db1 & lost & go & -> & Ht1 & Hl & Hg).
  rewrite cas_miss in Ht1 by done. cbn in Ht1.
  assert (jobs_table db1 = jobs_table (tk_others t db)) as Heq by (by destruct (tk_fault t)).
  destruct (IH db1) as (db' & lost' & Hrun & Hst & Hlost'); [by rewrite Heq|].
  rewrite Heq in Hst. destruct go; [rewrite Hrun|].
  - exists db', lost'. split; [done|]. split; [by apply (others_act_l _ (tk_others t))|done].
  - exists db1, lost. split; [done|]. rewrite Heq.
    split; [by apply (others_act_l _ (tk_others t)), rtc_refl|done].
Qed.

(** The background task as a whole: while the rest of the system leaves the attempt
    its row, the task never reports a loss, whatever connections fail, and the row
    still belongs to the attempt when it ends. *)
Theorem heartbeat_never_cries_wolf dl ls a ticks db
    (Hown : ∃ r, jobs_table db !! at_job_id a = Some r ∧ owns a r = true)
    (Hothers : Forall (λ t, ∀ d,
       (∃ r, jobs_table d !! at_job_id a = Some r ∧ owns a r = true) →
       ∃ r, jobs_table (tk_others t d) !! at_job_id a = Some r ∧ owns a r = true) ticks) :
  let '(db', lost) := heartbeat_run dl ls a ticks db in
  lost = false ∧ ∃ r, jobs_table db' !! at_job_id a = Some r ∧ owns a r = true.
Proof using PostgresLaws0.
  revert db Hown. induction Hothers as [|t ticks Ht Hts IH]; intros db Hown; cbn; [done|].
  apply Ht in Hown. destruct (tk_stopped t); [done|].
  destruct Hown as (r & Hr & Ho).
  destruct (beat_cas dl ls a (tk_now t) (tk_fault t) (tk_others t db))
    as (db' & lost & go & -> & Htab & Hl & Hg).
  rewrite (cas_hit _ _ _ _ r) in Htab, Hl by done.
  assert (lost = false) as -> by (by destruct (tk_fault t)). subst go. cbn.
  apply IH. destruct (tk_fault t); rewrite Htab; cbn; rewrite ?lookup_insert_eq; eauto.
Qed.

(** Once the row is lost, the first beat that reaches the database says so, and the
    task ends there: it writes nothing more, in that beat or later. *)
Theorem heartbeat_stops_at_the_loss dl ls a t ticks db
    (Hgo : tk_stopped t = false) (Hf : tk_fault t = no_fault)
    (Hlost : ∀ r, jobs_table (tk_others t db) !! at_job_id a = Some r → owns a r = false) :
  ∃ db', heartbeat_run dl ls a (t :: ticks) db = (db', true) ∧
         jobs_table db' = jobs_table (tk_others t db).
Proof using PostgresLaws0.
  cbn. rewrite Hgo.
  destruct (beat_cas dl ls a (tk_now t) (tk_fault t) (tk_others t db))
    as (db' & lost & go & -> & Htab & Hl & Hg).
  rewrite Hf, cas_miss in * by done. cbn in *. subst. by exists db'.
Qed.
End heartbeat.

(** ** Witnesses *)

Definition quiet_tick (now : Z) (f : fault) : Tick MemDB :=
  {| tk_stopped := false; tk_others := λ d, d; tk_now := now; tk_fault := f |}.

(** Recovery takes the job between two beats. *)
Definition recovery_tick (now : Z) : Tick MemDB :=
  {| tk_stopped := false;
     tk_others := λ d, (run_session (recover_expired_leases now ∅ 10) d).1;
     tk_now := now; tk_fault := no_fault |}.

Lemma heartbeat_never_cries_wolf_witness :
  ∃ r, jobs_table (heartbeat_run 60%Q None (MkAttempt 9 "w1" 99 2 3)
         [quiet_tick 20000000 no_fault; quiet_tick 40000000 reply_lost] demo_db).1 !! 9 = Some r ∧
       owns (MkAttempt 9 "w1" 99 2 3) r = true.
Proof.
  pose proof (heartbeat_never_cries_wolf 60%Q None (MkAttempt 9 "w1" 99 2 3)
    [quiet_tick 20000000 no_fault; quiet_tick 40000000 reply_lost] demo_db) as H.
  destruct (heartbeat_run _ _ _ _ _) as [db' lost]. apply H.
  - exists demo_processing. by rewrite demo_db_table.
  - repeat constructor; done.
Defined.

Lemma heartbeat_stops_at_the_loss_witness :
  ∃ db', heartbeat_run 60%Q None (MkAttempt 9 "w1" 99 2 3)
           [recovery_tick 60003001; quiet_tick 80000000 no_fault] demo_db = (db', true).
Proof.
  destruct (heartbeat_stops_at_the_loss 60%Q None (MkAttempt 9 "w1" 99 2 3)
    (recovery_tick 60003001) [quiet_tick 80000000 no_fault] demo_db ltac:(done) ltac:(done))
    as (db' & H & _).
  - intros r Hr. cbn in Hr. vm_compute in Hr. by apply (inj Some) in Hr as <-.
  - by exists db'.
Defined.
