(* ===== verification/Runner.v ===== *)
(** * Runner: one worker's peek-claim-execute cycle

    [worker/runner.py].  A world is the database and the Redis store.  The code's
    awaits are where the rest of the system acts: [Cycle] carries, for one pass of the
    candidate loop, the readings of the stop event, what others do at each await, the
    clock and the token of the claim, and what becomes of the Redis calls; [Slice]
    is one sleep of the handler: the heartbeats that fall into it, each after what
    others did before it, and what others do until the handler goes on. *)

From S2P Require Import Prelude.
From S2P Require Import Text.
From S2P Require Import Errors.
From S2P Require Import Model.
From S2P Require Import Postgres.
From S2P Require Import MemDB.
From S2P Require Import Session.
From S2P Require Import RetryPolicy.
From S2P Require Import Config.
From S2P Require Import Ownership.
From S2P Require Import Redis.
From S2P Require Import ReadyQueue.
From S2P Require Import Schemas.
From S2P Require Import Fencing.
From S2P Require Import Recovery.
From S2P Require Import Handlers.
From S2P Require Import Heartbeat.
From Stdlib Require Import QArith.

Local Open Scope Z_scope.

Definition MAX_CANDIDATES_PER_CYCLE : nat := 10.

(** A heartbeat: what others did before it, its clock and its connection. *)
Record Beat (DB : Type) := { bt_others : DB → DB; bt_now : Z; bt_fault : fault }.
Arguments bt_others {DB}. Arguments bt_now {DB}. Arguments bt_fault {DB}.

Record Slice (DB : Type) := { sl_beats : list (Beat DB); sl_others : DB → DB }.
Arguments sl_beats {DB}. Arguments sl_others {DB}.

(** The heartbeat is not stopped while the handler runs. *)
Definition beat_tick {DB} (b : Beat DB) : Tick DB :=
  {| tk_stopped := false; tk_others := bt_others b; tk_now := bt_now b; tk_fault := bt_fault b |}.

Record Cycle (DB R : Type) := {
  cy_stopped_before_peek : bool;
  cy_peek : fault;
  cy_stopped_before_claim : bool;
  cy_before_claim : DB * R → DB * R;
  cy_now : Z;
  cy_token : uuid;
  cy_before_read : DB * R → DB * R;
  cy_before_remove : DB * R → DB * R;
  cy_remove : fault;
  cy_random : nat → Q;
  cy_hex : string;
  cy_slices : list (Slice DB);
  cy_settle_now : Z
}.
Arguments cy_stopped_before_peek {DB R}. Arguments cy_peek {DB R}.
Arguments cy_stopped_before_claim {DB R}. Arguments cy_before_claim {DB R}.
Arguments cy_now {DB R}. Arguments cy_token {DB R}. Arguments cy_before_read {DB R}.
Arguments cy_before_remove {DB R}. Arguments cy_remove {DB R}. Arguments cy_random {DB R}.
Arguments cy_hex {DB R}. Arguments cy_slices {DB R}. Arguments cy_settle_now {DB R}.

(** The worker's configuration. *)
Record WorkerConfig := {
  wk_id : string;
  wk_lease : Q;
  wk_default_lease : Q
}.

Section runner.
Context {DB : Type} `{!Postgres DB} {R : Type} `{!Redis R}.
(** Python's [str] of a payload value and [repr] of an exception. *)
Variable py_str : JSON → string.
Variable exn_repr : exn → string.

(** [_progress_reporter]'s [report] *)
Definition report_progress (a : Attempt) (processed total : Z) (db : DB) : DB * result exn unit :=
  match percentage processed total with
  | None => (db, Err (OtherError "OverflowError('cannot convert float infinity to integer')"))
  | Some pct => run_session (update_progress a pct) db
  end.

(** [_run_handler]: the handler raced against the heartbeat's loss signal. *)
Fixpoint run_handler (wk : WorkerConfig) (a : Attempt) (slices : list (Slice DB)) (p : prog)
    (db : DB) : DB * result exn JSON :=
  match p with
  | Done r => (db, r)
  | Report processed total k =>
      match report_progress a processed total db with
      | (db, Err e) => (db, Err e)
      | (db, Ok _) => run_handler wk a slices k db
      end
  | Sleep _ k =>
      match slices with
      | [] => run_handler wk a [] k db
      | s :: slices =>
          match heartbeat_run (wk_default_lease wk) (Some (wk_lease wk)) a
                  (beat_tick <$> sl_beats s) db with
          | (db, true) => (db, Err (lost_exn a))
          | (db, false) => run_handler wk a slices k (sl_others s db)
          end
      end
  end.

Definition settle_success (now : Z) (a : Attempt) (res : JSON) (db : DB) : DB * result exn unit :=
  match run_session (complete_job now a res) db with
  | (db, Err (OwnershipLostError _ _ _)) => (db, Ok tt)
  | (db, Err e) => (db, Err e)
  | (db, Ok _) => (db, Ok tt)
  end.

Definition settle_failure (now : Z) (a : Attempt) (error : string) (db : DB)
    : DB * result exn unit :=
  match run_session (fail_attempt now a error) db with
  | (db, Err (OwnershipLostError _ _ _)) => (db, Ok tt)
  | (db, Err e) => (db, Err e)
  | (db, Ok _) => (db, Ok tt)
  end.

Definition job_context (wk : WorkerConfig) (random : nat → Q) (hex : string) (job : Job)
    (a : Attempt) : JobContext :=
  {| ctx_job_id := job_id job; ctx_job_type := job_type job; ctx_payload := payload job;
     ctx_attempt := at_attempt_count a; ctx_worker_id := wk_id wk;
     ctx_execution_token := Some (at_execution_token a);
     ctx_random := random; ctx_hex := hex |}.

(** [_execute] *)
Definition execute (wk : WorkerConfig) (cy : Cycle DB R) (job : Job) (a : Attempt) (db : DB)
    : DB * result exn unit :=
  match get_handler py_str (job_type job) with
  | None =>
      settle_failure (cy_settle_now cy) a
        ("no handler registered for job type '" +:+ job_type job +:+ "'") db
  | Some handler =>
      match run_handler wk a (cy_slices cy)
              (handler (job_context wk (cy_random cy) (cy_hex cy) job a)) db with
      | (db, Err (OwnershipLostError _ _ _)) => (db, Ok tt)
      | (db, Err (JobExecutionError m)) => settle_failure (cy_settle_now cy) a m db
      | (db, Err e) => settle_failure (cy_settle_now cy) a ("unexpected error: " +:+ exn_repr e) db
      | (db, Ok res) => settle_success (cy_settle_now cy) a res db
      end
  end.

(** [_discard_unclaimable]'s test of the row it read. *)
Definition still_claimable (job : option Job) : bool :=
  match job with
  | Some j => bool_decide (status j = PENDING) && (attempt_count j <? max_attempts j)
  | None => false
  end.

(** [_discard_unclaimable] *)
Definition discard_unclaimable (cy : Cycle DB R) (c : QueueCandidate) (w : DB * R)
    : DB * R * result exn unit :=
  let '(db, r) := cy_before_read cy w in
  match run_session (get_job (qc_job_id c)) db with
  | (db, Err e) => (db, r, Err e)
  | (db, Ok job) =>
      if still_claimable job then (db, r, Ok tt)
      else
        let '(db, r) := cy_before_remove cy (db, r) in
        match call (cy_remove cy) (remove c) r with
        | (r, Err e) => (db, r, Err e)
        | (r, Ok _) => (db, r, Ok tt)
        end
  end.

(** One pass of the candidate loop; [None] is [continue]. *)
Definition run_candidate (wk : WorkerConfig) (cy : Cycle DB R) (w : DB * R)
    : DB * R * result exn (option bool) :=
  let '(db, r) := w in
  if cy_stopped_before_peek cy then (db, r, Ok (Some false))
  else
    match call (cy_peek cy) (λ r, (r, peek r)) r with
    | (r, Err e) => (db, r, Err e)
    | (r, Ok None) => (db, r, Ok (Some false))
    | (r, Ok (Some c)) =>
        if cy_stopped_before_claim cy then (db, r, Ok (Some false))
        else
          let '(db, r) := cy_before_claim cy (db, r) in
          match run_session (claim_job (wk_default_lease wk) (cy_now cy) (cy_token cy)
                               (qc_job_id c) (wk_id wk) (Some (wk_lease wk))) db with
          | (db, Err e) => (db, r, Err e)
          | (db, Ok None) =>
              match discard_unclaimable cy c (db, r) with
              | (db, r, Err e) => (db, r, Err e)
              | (db, r, Ok _) => (db, r, Ok None)
              end
          | (db, Ok (Some job)) =>
              let '(db, r) := cy_before_remove cy (db, r) in
              match call (cy_remove cy) (remove c) r with
              | (r, Err e) => (db, r, Err e)
              | (r, Ok _) =>
                  match attempt_of job with
                  | Err e => (db, r, Err e)
                  | Ok a =>
                      match execute wk cy job a db with
                      | (db, Err e) => (db, r, Err e)
                      | (db, Ok _) => (db, r, Ok (Some true))
                      end
                  end
              end
          end
    end.

Fixpoint run_candidates (wk : WorkerConfig) (cycles : nat → Cycle DB R) (fuel k : nat)
    (w : DB * R) : DB * R * result exn bool :=
  match fuel with
  | O => (w.1, w.2, Ok false)
  | S fuel =>
      match run_candidate wk (cycles k) w with
      | (db, r, Err e) => (db, r, Err e)
      | (db, r, Ok (Some did_work)) => (db, r, Ok did_work)
      | (db, r, Ok None) => run_candidates wk cycles fuel (S k) (db, r)
      end
  end.

(** [run_once]: at most [MAX_CANDIDATES_PER_CYCLE] passes. *)
Definition run_once (wk : WorkerConfig) (cycles : nat → Cycle DB R) (w : DB * R)
    : DB * R * result exn bool :=
  run_candidates wk cycles MAX_CANDIDATES_PER_CYCLE 0 w.
End runner.

(** ** Executing an attempt *)

(** While the attempt runs, only its progress and lease change. *)
Definition running (job job' : Job) : Prop :=
  ∃ p l, job' = apply_values [SetProgress p; SetLeaseExpiresAt l] job.

Lemma running_refl job : running job job.
Proof. exists (progress job), (lease_expires_at job). by destruct job. Qed.

Lemma running_progress job job' p : running job job' → running job (apply_values [SetProgress p] job').
Proof. intros (p' & l & ->). by exists p, l. Qed.

Lemma running_lease job job' l :
  running job job' → running job (apply_values [SetLeaseExpiresAt l] job').
Proof. intros (p & l' & ->). by exists p, l. Qed.

Lemma running_owns a job job' : running job job' → owns a job' = owns a job.
Proof. by intros (p & l & ->). Qed.

Lemma running_counts job job' :
  running job job' → attempt_count job' = attempt_count job ∧ max_attempts job' = max_attempts job.
Proof. by intros (p & l & ->). Qed.

(** What others do in the course of the handler. *)
Definition slice_acts {DB} (s : Slice DB) : list (DB → DB) :=
  (bt_others <$> sl_beats s) ++ [sl_others s].
Definition acts {DB} (slices : list (Slice DB)) : list (DB → DB) := mjoin (slice_acts <$> slices).

Definition undisturbed {DB} (slices : list (Slice DB)) : Prop :=
  ∀ f d, f ∈ acts slices → f d = d.

Lemma acts_cons {DB} (s : Slice DB) slices (fs : list (DB → DB)) :
  acts (s :: slices) ⊆ fs →
  Forall (λ t, tk_others t ∈ fs) (beat_tick <$> sl_beats s) ∧ sl_others s ∈ fs ∧ acts slices ⊆ fs.
Proof.
  intros Hsub. unfold acts in *. rewrite fmap_cons in Hsub. cbn in Hsub.
  unfold slice_acts at 1 in Hsub. split; [|split].
  - apply Forall_fmap, Forall_forall. intros b Hb. apply Hsub.
    apply elem_of_app. left. apply elem_of_app. left.
    change (tk_others (beat_tick b)) with (bt_others b). by apply list_elem_of_fmap_2.
  - apply Hsub, elem_of_app. left. apply elem_of_app. right. by left.
  - intros f Hf. apply Hsub, elem_of_app. by right.
Qed.

Section execution.
Context {DB : Type} `{!Postgres DB, !PostgresLaws DB} {R : Type} `{!Redis R}.
Context (py_str : JSON → string) (exn_repr : exn → string).
Implicit Types db : DB.

(** An attempt that keeps its row runs its handler to the end, whatever others do
    to other rows and whatever becomes of the heartbeat's connections. *)
Lemma run_handler_owned wk a fs slices p db job :
  acts slices ⊆ fs → leaves_row (at_job_id a) fs → reportable p →
  jobs_table db !! at_job_id a = Some job → owns a job = true →
  ∃ db' job', run_handler wk a slices p db = (db', outcome p) ∧ running job job' ∧
    story (at_job_id a) fs (jobs_table db) (jobs_table db') ∧
    jobs_table db' !! at_job_id a = Some job'.
Proof using PostgresLaws0.
  intros Hs Hrow. revert slices db job Hs.
  induction p as [r|q k IH|n t k IH]; intros slices db job Hs Hp Hj Ho.
  - exists db, job. split; [done|]. split; [apply running_refl|]. split; [apply rtc_refl|done].
  - destruct slices as [|s slices]; cbn; [by apply IH|].
    apply acts_cons in Hs as (Hb & Hso & Hs).
    destruct (heartbeat_run_owned (wk_default_lease wk) (Some (wk_lease wk)) a fs
                (beat_tick <$> sl_beats s) db job) as (db1 & l & -> & Hst & Hj1); [done..|].
    destruct (IH slices (sl_others s db1) (apply_values [SetLeaseExpiresAt l] job))
      as (db2 & job2 & -> & Hr2 & Hst2 & Hj2); [done|done|by rewrite Hrow|done|].
    exists db2, job2. split; [done|]. split; [|split; [|done]].
    + destruct Hr2 as (p2 & l2 & ->). by exists p2, l2.
    + etrans; [exact Hst|]. by apply (story_other _ _ (sl_others s)).
  - cbn. unfold report_progress. unfold reportable in Hp. cbn in Hp.
    apply Forall_cons in Hp as [[pct Hpct] Hp]. cbn in Hpct. rewrite Hpct.
    destruct (update_progress_cas a pct db) as (db1 & Hu & Ht). cbn zeta in Hu, Ht.
    rewrite (cas_hit _ _ _ _ job) in Hu, Ht by done. rewrite Hu. cbn [or_lost snd].
    cbn [fst] in Ht.
    set (job1 := apply_values [SetProgress (Z.max 0 (Z.min 100 pct))] job) in *.
    destruct (IH slices db1 job1 Hs Hp) as (db2 & job2 & -> & Hr2 & Hst2 & Hj2).
    { rewrite Ht. apply lookup_insert_eq. }
    { by rewrite (running_owns a job) by apply running_progress, running_refl. }
    exists db2, job2. split; [done|]. split; [|split; [|done]].
    + destruct Hr2 as (p2 & l2 & ->). by exists p2, l2.
    + eapply story_write. rewrite <-Ht. exact Hst2.
Qed.

(** The message a failed attempt records. *)
Definition failure_message (e : exn) : string :=
  match e with JobExecutionError m => m | _ => "unexpected error: " +:+ exn_repr e end.

(** The row an attempt that ends with [res] at [now] writes. *)
Definition settled_row (now : Z) (res : result exn JSON) (job : Job) : Job :=
  match res with
  | Ok v => apply_values (complete_values now v) job
  | Err e => settled now (failure_message e) job
  end.

(** The same, after the progress reports and heartbeats of the attempt. *)
Definition ended (now : Z) (res : result exn JSON) (job job' : Job) : Prop :=
  ∃ job1, running job job1 ∧ job' = settled_row now res job1.

(** What that row says. *)
Definition settled_as (now : Z) (res : result exn JSON) (job job' : Job) : Prop :=
  unowned job' ∧ attempt_count job' = attempt_count job ∧
  match res with
  | Ok v => status job' = COMPLETED ∧ job_result job' = Some v ∧ progress job' = 100 ∧
            job_error job' = None ∧ completed_at job' = Some now
  | Err e => job_error job' = Some (failure_message e) ∧
             if attempt_count job <? max_attempts job
             then status job' = SCHEDULED ∧
                  scheduled_at job' = Some (now + seconds (retry_delay (attempt_count job)))
             else status job' = FAILED ∧ completed_at job' = Some now
  end.

Lemma ended_settled now res job job' : ended now res job job' → settled_as now res job job'.
Proof using Type.
  intros (job1 & (p & l & ->) & ->). destruct res as [v|e]; [done|].
  unfold settled_row, settled, failed_values, settled_as. cbn.
  by destruct (attempt_count job <? max_attempts job).
Qed.

Lemma settle_success_owned now a res db job :
  jobs_table db !! at_job_id a = Some job → owns a job = true →
  ∃ db', settle_success now a res db = (db', Ok tt) ∧
    jobs_table db' = <[at_job_id a := settled_row now (Ok res) job]> (jobs_table db).
Proof using PostgresLaws0.
  intros Hj Ho. destruct (complete_job_cas now a res db) as (db' & Hu & Ht).
  cbn zeta in Hu, Ht. rewrite (cas_hit _ _ _ _ job) in Hu, Ht by done.
  exists db'. split; [unfold settle_success; by rewrite Hu|exact Ht].
Qed.

Lemma settle_failure_owned now a e db job :
  jobs_table db !! at_job_id a = Some job → owns a job = true →
  at_attempt_count a = attempt_count job → at_max_attempts a = max_attempts job →
  has_delay (attempt_count job) (max_attempts job) →
  ∃ db', settle_failure now a (failure_message e) db = (db', Ok tt) ∧
    jobs_table db' = <[at_job_id a := settled_row now (Err e) job]> (jobs_table db).
Proof using PostgresLaws0.
  intros Hj Ho Hc Hm Hd.
  destruct (fail_attempt_cas now a (failure_message e) db) as (db' & Hu & Ht);
    [by rewrite Hc, Hm|].
  rewrite (cas_hit _ _ _ _ job) in Hu, Ht; [|done| |done|].
  2,3: unfold may_fail, has_attempts_left; rewrite Ho, Hc, Hm;
    destruct (attempt_count job <? max_attempts job) eqn:E; [done|]; by rewrite Z.leb_antisym, E.
  exists db'. split; [unfold settle_failure; by rewrite Hu|].
  rewrite Hc, Hm in Ht. exact Ht.
Qed.

Lemma execute_outcome wk (cy : Cycle DB R) db job a handler
    (Hh : get_handler py_str (job_type job) = Some handler)
    (Hj : jobs_table db !! at_job_id a = Some job) (Ha : attempt_of job = Ok a)
    (Hs : status job = PROCESSING) (Hd : has_delay (attempt_count job) (max_attempts job))
    (Hrow : leaves_row (at_job_id a) (acts (cy_slices cy)))
    (Hn : countable (payload job))
    (p := handler (job_context wk (cy_random cy) (cy_hex cy) job a)) :
  ∃ db' job', execute py_str exn_repr wk cy job a db = (db', Ok tt) ∧
    story (at_job_id a) (acts (cy_slices cy)) (jobs_table db) (jobs_table db') ∧
    jobs_table db' !! at_job_id a = Some job' ∧ ended (cy_settle_now cy) (outcome p) job job'.
Proof using PostgresLaws0.
  pose proof (owns_attempt_of _ _ Ha Hs) as Ho.
  destruct (registered_handler_ends_properly py_str _ handler
              (job_context wk (cy_random cy) (cy_hex cy) job a) Hh Hn) as [Hp Hno].
  fold p in Hp, Hno. apply attempt_of_spec in Ha as (_ & _ & _ & Hc & Hm).
  destruct (run_handler_owned wk a (acts (cy_slices cy)) (cy_slices cy) p db job)
    as (db1 & job1 & Hrun & Hr & Hst & Hj1); [done..|].
  assert (owns a job1 = true) as Ho1 by (by rewrite (running_owns a job)).
  destruct (running_counts _ _ Hr) as [Hc1 Hm1].
  unfold execute. rewrite Hh. fold p. rewrite Hrun.
  assert (∀ db' job', jobs_table db' = <[at_job_id a := job']> (jobs_table db1) →
    story (at_job_id a) (acts (cy_slices cy)) (jobs_table db) (jobs_table db') ∧
    jobs_table db' !! at_job_id a = Some job') as Hend.
  { intros db' job' ->. split; [|apply lookup_insert_eq]. etrans; [exact Hst|].
    eapply story_write, rtc_refl. }
  destruct (outcome p) as [res|e] eqn:Hout.
  - destruct (settle_success_owned (cy_settle_now cy) a res db1 job1 Hj1 Ho1)
      as (db' & -> & [Ht' Hj']%Hend).
    eexists db', _. do 3 (split; [done|]). by exists job1.
  - destruct (settle_failure_owned (cy_settle_now cy) a e db1 job1 Hj1 Ho1)
      as (db' & Hset & [Ht' Hj']%Hend); [congruence..|by rewrite Hc1, Hm1|].
    eexists db', _. split; [|do 2 (split; [done|]); by exists job1].
    destruct e as [| |i w t| | | | | |]; try exact Hset. by destruct (Hno i w t).
Qed.

(** With nobody else about, no other row changes. *)
Lemma execute_alone wk (cy : Cycle DB R) db job a handler
    (Hh : get_handler py_str (job_type job) = Some handler)
    (Hj : jobs_table db !! at_job_id a = Some job) (Ha : attempt_of job = Ok a)
    (Hs : status job = PROCESSING) (Hd : has_delay (attempt_count job) (max_attempts job))
    (Hq : undisturbed (cy_slices cy))
    (Hn : countable (payload job))
    (p := handler (job_context wk (cy_random cy) (cy_hex cy) job a)) :
  ∃ db' job', execute py_str exn_repr wk cy job a db = (db', Ok tt) ∧
    jobs_table db' = <[at_job_id a := job']> (jobs_table db) ∧
    ended (cy_settle_now cy) (outcome p) job job'.
Proof using PostgresLaws0.
  destruct (execute_outcome wk cy db job a handler) as (db' & job' & Hrun & Hst & Hj' & Hset);
    try done.
  { intros f d Hf. by rewrite Hq. }
  exists db', job'. split; [done|]. split; [|done].
  eapply story_undisturbed; [|done..]. intros f d Hf. by rewrite Hq.
Qed.

(** C25: Executing an attempt that keeps its row, while other sessions do what they like
    to other rows and connections of the heartbeat fail: the job ends as its handler
    did.  A result completes it; a [JobExecutionError] is recorded as such, any
    other exception as an unexpected error, and both go through the retry policy:
    SCHEDULED after its delay while attempts are left, else FAILED.  The attempt itself writes no other row. *)
Theorem execute_settles_the_outcome wk (cy : Cycle DB R) db job a handler
    (Hh : get_handler py_str (job_type job) = Some handler)
    (Hj : jobs_table db !! at_job_id a = Some job) (Ha : attempt_of job = Ok a)
    (Hs : status job = PROCESSING) (Hd : has_delay (attempt_count job) (max_attempts job))
    (Hrow : leaves_row (at_job_id a) (acts (cy_slices cy)))
    (Hn : countable (payload job))
    (p := handler (job_context wk (cy_random cy) (cy_hex cy) job a)) :
  ∃ db' job', execute py_str exn_repr wk cy job a db = (db', Ok tt) ∧
    story (at_job_id a) (acts (cy_slices cy)) (jobs_table db) (jobs_table db') ∧
    jobs_table db' !! at_job_id a = Some job' ∧ settled_as (cy_settle_now cy) (outcome p) job job'.
Proof using PostgresLaws0.
  destruct (execute_outcome wk cy db job a handler) as (db' & job' & H1 & H2 & H3 & H4%ended_settled);
    [done..|]. by exists db', job'.
Qed.

(** The same without its row: nothing is written but by others. *)
Lemma run_handler_stale wk a fs slices p db :
  acts slices ⊆ fs → keeps_lost a fs → lost_row a (jobs_table db) →
  ∃ db' res, run_handler wk a slices p db = (db', res) ∧
    rtc (others_act fs) (jobs_table db) (jobs_table db') ∧ lost_row a (jobs_table db').
Proof using PostgresLaws0.
  intros Hs Hkeep. revert slices db Hs.
  induction p as [r|q k IH|n t k IH]; intros slices db Hs Hlost; cbn.
  - exists db, r. split; [done|]. split; [apply rtc_refl|done].
  - destruct slices as [|s slices]; [by apply IH|]. apply acts_cons in Hs as (Hb & Hso & Hs).
    destruct (heartbeat_run_stale (wk_default_lease wk) (Some (wk_lease wk)) a fs
                (beat_tick <$> sl_beats s) db) as (db1 & [] & -> & Hst & Hlost1); [done..| |].
    { exists db1, (Err (lost_exn a)). done. }
    destruct (IH slices (sl_others s db1) Hs (Hkeep _ _ Hso Hlost1))
      as (db2 & res & -> & Hst2 & Hlost2).
    exists db2, res. split; [done|]. split; [|done]. etrans; [exact Hst|].
    by apply (others_act_l _ (sl_others s)).
  - unfold report_progress. destruct (percentage n t) as [pct|].
    2:{ eexists _, _. split; [done|]. split; [apply rtc_refl|done]. }
    destruct (update_progress_cas a pct db) as (db1 & Hu & Ht). cbn zeta in Hu, Ht.
    rewrite cas_miss in Hu, Ht by done. rewrite Hu. cbn. cbn in Ht.
    eexists _, _. split; [done|]. rewrite Ht. split; [apply rtc_refl|done].
Qed.

Lemma settle_success_stale now a res db :
  (∀ r, jobs_table db !! at_job_id a = Some r → owns a r = false) →
  jobs_table (settle_success now a res db).1 = jobs_table db.
Proof using PostgresLaws0.
  intros Hlost. unfold settle_success.
  destruct (complete_job_cas now a res db) as (db1 & Hu & Ht). cbn zeta in Hu, Ht.
  rewrite cas_miss in Hu, Ht by done. rewrite Hu. cbn. cbn in Ht. by rewrite Ht.
Qed.

Lemma settle_failure_stale now a m db :
  has_delay (at_attempt_count a) (at_max_attempts a) →
  (∀ r, jobs_table db !! at_job_id a = Some r → owns a r = false) →
  jobs_table (settle_failure now a m db).1 = jobs_table db.
Proof using PostgresLaws0.
  intros Hd Hlost. unfold settle_failure.
  destruct (fail_attempt_cas now a m db Hd) as (db1 & Hu & Ht).
  rewrite cas_miss in Hu, Ht by (intros r Hr; unfold may_fail; by rewrite (Hlost r Hr)).
  rewrite Hu. cbn. cbn in Ht. by rewrite Ht.
Qed.

(** C26: An attempt that has lost its row writes nothing, whatever its handler does, however
    it ends and whatever others do meanwhile: a stale worker wastes work but cannot
    corrupt state. *)
Theorem stale_execution_changes_nothing wk (cy : Cycle DB R) db job a
    (Hd : has_delay (at_attempt_count a) (at_max_attempts a))
    (Hkeep : keeps_lost a (acts (cy_slices cy))) (Hlost : lost_row a (jobs_table db)) :
  ∃ db' res, execute py_str exn_repr wk cy job a db = (db', res) ∧
    rtc (others_act (acts (cy_slices cy))) (jobs_table db) (jobs_table db').
Proof using PostgresLaws0.
  destruct (execute py_str exn_repr wk cy job a db) as [db' res] eqn:E.
  exists db', res. split; [done|]. change db' with (db', res).1. rewrite <-E. unfold execute.
  destruct (get_handler py_str (job_type job)) as [h|].
  2:{ rewrite settle_failure_stale by done. apply rtc_refl. }
  set (p := h _).
  destruct (run_handler_stale wk a (acts (cy_slices cy)) (cy_slices cy) p db)
    as (d & o & -> & Hst & Hlost'); [done..|].
  etrans; [exact Hst|]. destruct o as [v|[]];
    rewrite ?settle_failure_stale, ?settle_success_stale by done; apply rtc_refl.
Qed.
End execution.

(** ** The cycle *)

(** A pass nothing interferes with, up to the Redis removal, which may fail. *)
Record calm {DB R} (cy : Cycle DB R) : Prop := {
  calm_stop1 : cy_stopped_before_peek cy = false;
  calm_peek : cy_peek cy = no_fault;
  calm_stop2 : cy_stopped_before_claim cy = false;
  calm_claim w : cy_before_claim cy w = w;
  calm_read w : cy_before_read cy w = w;
  calm_remove w : cy_before_remove cy w = w;
  calm_slices : undisturbed (cy_slices cy)
}.

Section cycle.
Context {DB : Type} `{!Postgres DB, !PostgresLaws DB} {R : Type} `{!Redis R, !RedisLaws R}.
Context (py_str : JSON → string) (exn_repr : exn → string).
Implicit Types (db : DB) (r : R).

(** The claimed row, and the attempt read off it. *)
Definition claimed (wk : WorkerConfig) (cy : Cycle DB R) (job : Job) : Job :=
  apply_values (claim_values (cy_now cy)
    (lease_deadline (wk_default_lease wk) (cy_now cy) (Some (wk_lease wk)))
    (wk_id wk) (cy_token cy)) job.
Definition claimed_attempt (wk : WorkerConfig) (cy : Cycle DB R) (job : Job) : Attempt :=
  MkAttempt (job_id job) (wk_id wk) (cy_token cy) (attempt_count job + 1) (max_attempts job).

(** The pass up to the removal of the observed entry. *)
Lemma run_candidate_claimed wk cy db r q id prio seq job :
  calm cy → represents r q → q !! id = Some (prio, seq) →
  (∀ id' e, q !! id' = Some e → id' ≠ id → served_before (prio, seq) e) →
  jobs_table db !! id = Some job → claimable job = true → varchar_ok 128 (wk_id wk) = true →
  ∃ db', jobs_table db' = <[id := claimed wk cy job]> (jobs_table db) ∧
    run_candidate py_str exn_repr wk cy (db, r) =
      match call (cy_remove cy) (remove (MkCandidate id (member seq id) seq)) r with
      | (r, Err e) => (db', r, Err e)
      | (r, Ok _) =>
          match execute py_str exn_repr wk cy (claimed wk cy job) (claimed_attempt wk cy job) db' with
          | (db, Err e) => (db, r, Err e)
          | (db, Ok _) => (db, r, Ok (Some true))
          end
      end.
Proof using PostgresLaws0 RedisLaws0.
  intros [H1 H2 H3 H4 H5 H6 H7] Hr Hq Hbest Hj Hc Hw.
  destruct (claim_job_cas (wk_default_lease wk) (cy_now cy) (cy_token cy) id (wk_id wk)
              (Some (wk_lease wk)) db Hw) as (db' & Hu & Ht).
  rewrite (cas_hit _ _ _ _ job) in Hu, Ht by done. exists db'. split; [exact Ht|].
  unfold run_candidate. rewrite H1, H2. unfold call at 1.
  rewrite (peek_best r q id prio seq) by done. rewrite H3, H4. cbn [qc_job_id].
  rewrite Hu. cbn [snd]. rewrite H6. fold (claimed wk cy job).
  assert (attempt_of (claimed wk cy job) = Ok (claimed_attempt wk cy job)) as -> by done.
  done.
Qed.

(** The pass that executes the best entry's job. *)
Lemma run_candidate_best wk cy db r q id prio seq job handler
    (Hcalm : calm cy) (Hrem : cy_remove cy = no_fault)
    (Hr : represents r q) (Hq : q !! id = Some (prio, seq))
    (Hbest : ∀ id' e, q !! id' = Some e → id' ≠ id → served_before (prio, seq) e)
    (Hj : jobs_table db !! id = Some job) (Hc : claimable job = true)
    (Hmax : max_attempts job = 3) (Hw : varchar_ok 128 (wk_id wk) = true)
    (Hh : get_handler py_str (job_type job) = Some handler) (Hn : countable (payload job))
    (p := handler (job_context wk (cy_random cy) (cy_hex cy) (claimed wk cy job)
                     (claimed_attempt wk cy job))) :
  ∃ db' r' job', run_candidate py_str exn_repr wk cy (db, r) = (db', r', Ok (Some true)) ∧
    represents r' (delete id q) ∧ counter r' SEQUENCE_KEY = counter r SEQUENCE_KEY ∧
    jobs_table db' = <[id := job']> (jobs_table db) ∧
    ended exn_repr (cy_settle_now cy) (outcome p) (claimed wk cy job) job'.
Proof using PostgresLaws0 RedisLaws0.
  destruct (run_candidate_claimed wk cy db r q id prio seq job) as (db1 & Ht1 & Hrun); [done..|].
  destruct (rep_bounds _ _ _ _ _ Hr Hq) as [Hid Hs].
  destruct (remove_spec r q id seq Hr Hid Hs) as (r' & Hremove & Hr' & Hcnt).
  unfold a_remove in Hr'. rewrite Hq, decide_True in Hr' by done.
  pose proof (table_id _ _ _ Hj) as Hjid. apply andb_prop in Hc as [Hst Hlt]. to_prop.
  pose proof (table_storable _ _ _ Hj) as Hstor. rewrite storable_iff in Hstor.
  destruct (execute_alone py_str exn_repr wk cy db1 (claimed wk cy job)
              (claimed_attempt wk cy job) handler) as (db' & job' & Hex & Ht & Hset); try done.
  { change (at_job_id (claimed_attempt wk cy job)) with (job_id job).
    by rewrite Ht1, Hjid, lookup_insert_eq. }
  { unfold has_delay. cbn. lia. }
  { by destruct Hcalm. }
  exists db', r', job'. split; [|split; [done|split; [done|split; [|done]]]].
  - rewrite Hrun, Hrem. unfold call. by rewrite Hremove, Hex.
  - rewrite Ht, Ht1. change (at_job_id (claimed_attempt wk cy job)) with (job_id job).
    by rewrite Hjid, insert_insert_eq.
Qed.

(** One cycle of an undisturbed worker: the best entry of the ready queue is
    claimed, leaves the queue, and its job is executed to the end its handler
    decides; no other job and no other entry changes. *)
Theorem worker_runs_the_best_job wk cycles db r q id prio seq job handler
    (cy := cycles 0%nat) (Hcalm : calm cy) (Hrem : cy_remove cy = no_fault)
    (Hr : represents r q) (Hq : q !! id = Some (prio, seq))
    (Hbest : ∀ id' e, q !! id' = Some e → id' ≠ id → served_before (prio, seq) e)
    (Hj : jobs_table db !! id = Some job) (Hc : claimable job = true)
    (Hmax : max_attempts job = 3) (Hw : varchar_ok 128 (wk_id wk) = true)
    (Hh : get_handler py_str (job_type job) = Some handler) (Hn : countable (payload job))
    (p := handler (job_context wk (cy_random cy) (cy_hex cy) (claimed wk cy job)
                     (claimed_attempt wk cy job))) :
  ∃ db' r' job', run_once py_str exn_repr wk cycles (db, r) = (db', r', Ok true) ∧
    represents r' (delete id q) ∧
    jobs_table db' = <[id := job']> (jobs_table db) ∧
    settled_as exn_repr (cy_settle_now cy) (outcome p) (claimed wk cy job) job'.
Proof using PostgresLaws0 RedisLaws0.
  destruct (run_candidate_best wk cy db r q id prio seq job handler)
    as (db' & r' & job' & Hrun & Hr' & _ & Ht & Hset%ended_settled); [done..|].
  exists db', r', job'. split; [|done].
  unfold run_once, MAX_CANDIDATES_PER_CYCLE. cbn [run_candidates]. fold cy. by rewrite Hrun.
Qed.

(** A candidate whose job cannot be claimed (owned, finished, cancelled or gone) is
    dropped from the queue and skipped; the database does not change. *)
Lemma unclaimable_candidate_is_discarded wk cy db r q id prio seq
    (Hcalm : calm cy) (Hrem : cy_remove cy = no_fault)
    (Hr : represents r q) (Hq : q !! id = Some (prio, seq))
    (Hbest : ∀ id' e, q !! id' = Some e → id' ≠ id → served_before (prio, seq) e)
    (Hno : ∀ job, jobs_table db !! id = Some job → claimable job = false)
    (Hw : varchar_ok 128 (wk_id wk) = true) :
  ∃ db' r', run_candidate py_str exn_repr wk cy (db, r) = (db', r', Ok None) ∧
    jobs_table db' = jobs_table db ∧ represents r' (delete id q) ∧
    counter r' SEQUENCE_KEY = counter r SEQUENCE_KEY.
Proof using PostgresLaws0 RedisLaws0.
  destruct Hcalm as [H1 H2 H3 H4 H5 H6 H7].
  destruct (claim_job_cas (wk_default_lease wk) (cy_now cy) (cy_token cy) id (wk_id wk)
              (Some (wk_lease wk)) db Hw) as (db1 & Hu & Ht).
  rewrite cas_miss in Hu, Ht by done. cbn [fst snd] in Hu, Ht.
  destruct (rep_bounds _ _ _ _ _ Hr Hq) as [Hid Hs].
  destruct (remove_spec r q id seq Hr Hid Hs) as (r' & Hremove & Hr' & Hcnt).
  unfold a_remove in Hr'. rewrite Hq, decide_True in Hr' by done.
  exists db1, r'. split; [|done].
  unfold run_candidate. rewrite H1, H2. unfold call at 1.
  rewrite (peek_best r q id prio seq) by done. rewrite H3, H4. cbn [qc_job_id]. rewrite Hu.
  unfold discard_unclaimable. rewrite H5. unfold run_session. cbn [qc_job_id].
  rewrite get_job_spec. cbn [committed working]. rewrite Ht.
  assert (still_claimable (jobs_table db !! id) = false) as ->
    by (destruct (jobs_table db !! id) as [j|]; [exact (Hno j eq_refl)|done]).
  rewrite H6, Hrem. unfold call. by rewrite Hremove.
Qed.

(** Once the stop event is set, before the peek or between the peek and the claim,
    the cycle takes no job: both stores are left exactly as they are. *)
Theorem stopped_worker_takes_nothing wk cycles db r
    (Hstop : cy_stopped_before_peek (cycles 0%nat) = true ∨
             cy_stopped_before_claim (cycles 0%nat) = true) :
  ∃ res, run_once py_str exn_repr wk cycles (db, r) = (db, r, res) ∧ res ≠ Ok true.
Proof using Type.
  unfold run_once, MAX_CANDIDATES_PER_CYCLE. cbn [run_candidates]. unfold run_candidate.
  destruct (cy_stopped_before_peek (cycles 0%nat)); [by eexists|].
  destruct Hstop as [|Hstop]; [done|]. rewrite Hstop. unfold call.
  destruct (cy_peek (cycles 0%nat)); cbn; [|by eexists..].
  destruct (peek r) as [[c|]|e]; by eexists.
Qed.
End cycle.

(** ** Witnesses *)

Definition demo_worker : WorkerConfig := {| wk_id := "w1"; wk_lease := 60; wk_default_lease := 60 |}.

(** A job of the demo table, made a due e-mail under id 8. *)
Definition demo_email : Job :=
  {| job_id := 8; job_type := "email"; payload := JObj []; status := PENDING; priority := 90;
     attempt_count := 0; max_attempts := 3; progress := 0; job_result := None;
     job_error := None; scheduled_at := None; created_at := 1000; started_at := None;
     completed_at := None; worker_id := None; execution_token := None;
     lease_expires_at := None; idempotency_key := None; idempotency_expires_at := None |}.

Definition demo_email_db : MemDB := mem_of {[ 8 := demo_email ]}.

(** The handler sleeps once; the heartbeat beats in that time, over a dead connection. *)
Definition demo_cycle (f : fault) (stop : bool) : Cycle MemDB MemRedis :=
  {| cy_stopped_before_peek := false; cy_peek := no_fault; cy_stopped_before_claim := stop;
     cy_before_claim := λ w, w; cy_now := 5000; cy_token := 77; cy_before_read := λ w, w;
     cy_before_remove := λ w, w; cy_remove := f; cy_random := λ _, 0%Q; cy_hex := "c0ffee";
     cy_slices := [{| sl_beats := [{| bt_others := λ d, d; bt_now := 25000000; bt_fault := command_lost |};
                                 {| bt_others := λ d, d; bt_now := 45000000; bt_fault := no_fault |}];
                    sl_others := λ d, d |}];
     cy_settle_now := 26000000 |}.

Lemma demo_undisturbed f stop : undisturbed (cy_slices (demo_cycle f stop)).
Proof.
  intros g d Hg. cbn in Hg.
  repeat (apply elem_of_cons in Hg as [->|Hg]; [done|]). by apply not_elem_of_nil in Hg.
Qed.

Lemma demo_calm f : calm (demo_cycle f false).
Proof. split; try done. apply demo_undisturbed. Qed.

Lemma demo_best id e :
  a_enqueue 8 90 2 (a_enqueue 7 50 1 ∅) !! id = Some e → id ≠ 8 → served_before (90, 2) e.
Proof.
  unfold a_enqueue. intros H Hne. rewrite lookup_insert_ne in H by congruence.
  apply lookup_insert_Some in H as [[<- <-]|[_ H]]; [|by rewrite lookup_empty in H].
  left. vm_compute. done.
Qed.

Lemma execute_settles_the_outcome_witness :
  ∃ db' job', execute (λ _, "") (λ _, "") demo_worker (demo_cycle no_fault false) demo_processing
      (MkAttempt 9 "w1" 99 2 3) demo_db = (db', Ok tt) ∧
    job_error job' = Some "unexpected error: " ∧ status job' = SCHEDULED.
Proof.
  destruct (execute_settles_the_outcome (R := MemRedis) (λ _, "") (λ _, "") demo_worker
              (demo_cycle no_fault false) demo_db demo_processing (MkAttempt 9 "w1" 99 2 3)
              (handle_report (λ _, "")) ltac:(done) ltac:(vm_compute; done) ltac:(done) ltac:(done)
              ltac:(by right)
              ltac:(intros f d Hf; by rewrite (demo_undisturbed no_fault false f d Hf))
              ltac:(done))
    as (db' & job' & H1 & _ & _ & _ & _ & H2 & H3 & _).
  exists db', job'. split; [exact H1|]. split; [exact H2|exact H3].
Defined.

Lemma stale_execution_changes_nothing_witness :
  ∃ db' res, execute (λ _, "") (λ _, "") demo_worker (demo_cycle no_fault false) demo_email
      (MkAttempt 9 "w1" 98 1 3) demo_db = (db', res) ∧
    rtc (others_act (acts (cy_slices (demo_cycle no_fault false))))
      (jobs_table demo_db) (jobs_table db').
Proof.
  apply (stale_execution_changes_nothing (R := MemRedis) (λ _, "") (λ _, "")).
  - by left.
  - intros f d Hf. by rewrite (demo_undisturbed no_fault false f d Hf).
  - intros r. rewrite demo_db_table. vm_compute. by intros [= <-].
Defined.

Lemma worker_runs_the_best_job_witness :
  ∃ db' r' job', run_once (λ _, "") (λ _, "") demo_worker (λ _, demo_cycle no_fault false)
      (demo_email_db, demo_queue) = (db', r', Ok true) ∧
    represents r' (delete 8 (a_enqueue 8 90 2 (a_enqueue 7 50 1 ∅))) ∧ status job' = COMPLETED.
Proof.
  destruct (worker_runs_the_best_job (λ _, "") (λ _, "") demo_worker (λ _, demo_cycle no_fault false)
              demo_email_db demo_queue _ 8 90 2 demo_email (handle_email) (demo_calm no_fault)
              ltac:(done) demo_represents ltac:(vm_compute; done) demo_best ltac:(vm_compute; done)
              ltac:(done) ltac:(done) ltac:(done) ltac:(done) ltac:(done))
    as (db' & r' & job' & H1 & H2 & _ & _ & _ & H3 & _).
  exists db', r', job'. split; [exact H1|]. split; [exact H2|exact H3].
Defined.

Lemma unclaimable_candidate_is_discarded_witness :
  ∃ db' r', run_candidate (λ _, "") (λ _, "") demo_worker (demo_cycle no_fault false)
      (demo_db, demo_queue) = (db', r', Ok None) ∧
    represents r' (delete 8 (a_enqueue 8 90 2 (a_enqueue 7 50 1 ∅))).
Proof.
  destruct (unclaimable_candidate_is_discarded (λ _, "") (λ _, "") demo_worker
              (demo_cycle no_fault false) demo_db demo_queue _ 8 90 2 (demo_calm no_fault)
              ltac:(done) demo_represents ltac:(vm_compute; done) demo_best)
    as (db' & r' & H1 & _ & H2 & _).
  - rewrite demo_db_table. intros job. vm_compute. by intros [= <-].
  - done.
  - exists db', r'. split; [exact H1|exact H2].
Defined.

Lemma stopped_worker_takes_nothing_witness :
  ∃ res, run_once (λ _, "") (λ _, "") demo_worker (λ _, demo_cycle no_fault true)
      (demo_email_db, demo_queue) = (demo_email_db, demo_queue, res) ∧ res ≠ Ok true.
Proof. apply stopped_worker_takes_nothing. by right. Defined.
