(* ===== verification/Scheduler.v ===== *)
(** * Scheduler: the background loops

    [worker/scheduler.py], [worker/recovery.py] and [worker/loops.py].  [faults] says
    what becomes of the Redis call for each job; a failed one is logged and the batch
    goes on. *)

From S2P Require Import Prelude.
From S2P Require Import Text.
From S2P Require Import Errors.
From S2P Require Import Model.
From S2P Require Import Postgres.
From S2P Require Import MemDB.
From S2P Require Import Session.
From S2P Require Import RetryPolicy.
From S2P Require Import Config.
From S2P Require Import Ownership.
From S2P Require Import Redis.
From S2P Require Import ReadyQueue.
From S2P Require Import Recovery.
From Stdlib Require Import QArith.

Local Open Scope Z_scope.

(** [run_until_stopped]: one event per turn of the loop, whether the stop event is set
    when it is tested and what the rest of the system does while the loop sleeps.  An
    exception of the cycle is logged and dropped. *)
Fixpoint run_until_stopped {W A} (cycle : W → W * result exn A) (events : list (bool * (W → W)))
    (w : W) : W :=
  match events with
  | [] => w
  | (stopped, others) :: events =>
      if stopped then w
      else
        match cycle w with
        | (w, Ok _) => run_until_stopped cycle events (others w)
        | (w, Err _) => run_until_stopped cycle events (others w)
        end
  end.

Section loops.
Context {DB : Type} `{!Postgres DB} {R : Type} `{!Redis R}.

(** The loop over the activated jobs. *)
Fixpoint publish (faults : uuid → fault) (activated : list Job) (r : R) : R :=
  match activated with
  | [] => r
  | job :: rest =>
      match call (faults (job_id job)) (enqueue (job_id job) (priority job)) r with
      | (r, Ok _) => publish faults rest r
      | (r, Err _) => publish faults rest r
      end
  end.

(** [JobScheduler.run_once] *)
Definition scheduler_run_once (now : Z) (locked : gset uuid) (batch_size : nat)
    (faults : uuid → fault) (w : DB * R) : DB * R * result exn Z :=
  match run_session (activate_due_scheduled_jobs now locked batch_size) w.1 with
  | (db, Err e) => (db, w.2, Err e)
  | (db, Ok activated) => (db, publish faults activated w.2, Ok (Z.of_nat (length activated)))
  end.

(** [LeaseRecovery.run_once] *)
Definition recovery_run_once (now : Z) (locked : gset uuid) (batch_size : nat) (db : DB)
    : DB * result exn Z :=
  match run_session (recover_expired_leases now locked batch_size) db with
  | (db, Err e) => (db, Err e)
  | (db, Ok recovered) => (db, Ok (Z.of_nat (length recovered)))
  end.

Context `{!PostgresLaws DB, !RedisLaws R}.
Implicit Types (db : DB) (r : R) (q : aqueue).

(** The queue after a batch: a job whose script ran has one entry, newer than
    everything queued before; a job whose command was lost, and every job outside
    the batch, is queued as it was. *)
Definition published (faults : uuid → fault) (activated : list Job) (n : Z) (q q' : aqueue) : Prop :=
  ∀ id, match list_find (λ j, job_id j = id) activated with
        | Some (_, job) =>
            if decide (faults id = command_lost) then q' !! id = q !! id
            else ∃ seq, q' !! id = Some (effective (priority job), seq) ∧ n < seq
        | None => q' !! id = q !! id
        end.

Lemma publish_spec faults l r q :
  represents r q → NoDup (job_id <$> l) → Forall (λ j, uuid_ok (job_id j)) l →
  counter r SEQUENCE_KEY + Z.of_nat (length l) < SEQ_BOUND →
  ∃ q', represents (publish faults l r) q' ∧ published faults l (counter r SEQUENCE_KEY) q q' ∧
    counter (publish faults l r) SEQUENCE_KEY ≤ counter r SEQUENCE_KEY + Z.of_nat (length l).
Proof using RedisLaws0.
  revert r q. induction l as [|job l IH]; intros r q Hr Hnd Hid Hn.
  { exists q. split; [done|]. split; [by intros id|]. cbn. lia. }
  rewrite fmap_cons in Hnd. apply NoDup_cons in Hnd as [Hnin Hnd].
  apply Forall_cons in Hid as [Hid Hids]. rewrite length_cons in Hn.
  set (n := counter r SEQUENCE_KEY) in *.
  assert (∃ r1 q1 x, call (faults (job_id job)) (enqueue (job_id job) (priority job)) r = (r1, x) ∧
    represents r1 q1 ∧ n ≤ counter r1 SEQUENCE_KEY ≤ n + 1 ∧
    q1 = if decide (faults (job_id job) = command_lost) then q
         else a_enqueue (job_id job) (priority job) (n + 1) q)
    as (r1 & q1 & x & Hcall & Hr1 & Hn1 & Hq1).
  { destruct (enqueue_spec r q (job_id job) (priority job) Hr Hid ltac:(unfold n in *; lia))
      as (r1 & He & Hr1 & Hc1). fold n in He, Hr1, Hc1.
    destruct (decide (faults (job_id job) = command_lost)) as [Hf|Hf].
    - exists r, q, (Err (RedisError "connection error")). rewrite Hf. split; [done|].
      split; [done|]. split; [unfold n; lia|done].
    - exists r1, (a_enqueue (job_id job) (priority job) (n + 1) q).
      destruct (faults (job_id job)); [|done|]; unfold call; rewrite He; eexists;
        (split; [done|]); (split; [done|]); (split; [lia|done]). }
  destruct (IH r1 q1 Hr1 Hnd Hids ltac:(lia)) as (q2 & Hr2 & Hpub & Hn2). exists q2.
  assert (publish faults (job :: l) r = publish faults l r1) as -> by (cbn; rewrite Hcall; by destruct x).
  split; [done|]. split; [|cbn [length]; lia].
  intros id. specialize (Hpub id). cbn [list_find].
  destruct (decide (job_id job = id)) as [<-|Hne].
  - destruct (list_find (λ j, job_id j = job_id job) l) as [[i j]|] eqn:Hf.
    { apply list_find_Some in Hf as (Hj & Hjid & _). destruct Hnin. rewrite <-Hjid.
      by apply list_elem_of_fmap_2, list_elem_of_lookup_2 with i. }
    rewrite Hpub, Hq1. case_decide; [done|]. exists (n + 1). unfold a_enqueue.
    rewrite lookup_insert_eq. split; [done|lia].
  - assert (q1 !! id = q !! id) as Hsame.
    { rewrite Hq1. clear Hpub. case_decide; [done|]. unfold a_enqueue. by rewrite lookup_insert_ne. }
    destruct (list_find (λ j, job_id j = id) l) as [[i j]|]; cbn;
      [|by rewrite Hpub].
    case_decide; [by rewrite Hpub|]. destruct Hpub as (seq & Hseq & Hlt).
    exists seq. split; [done|lia].
Qed.

(** One turn of the scheduler: every job it activates is PENDING and committed
    before it is published; each is queued behind what was queued before, except
    those whose Redis command was lost, which stay PENDING and are counted but not
    queued; a failure of one does not keep the others from being published. *)
Theorem scheduler_publishes_what_it_activates now locked n faults db r q
    (Hr : represents r q)
    (Hids : ∀ i, is_Some (jobs_table db !! i) → uuid_ok i)
    (Hn : counter r SEQUENCE_KEY + Z.of_nat n < SEQ_BOUND) :
  ∃ db' r' q' activated,
    scheduler_run_once now locked n faults (db, r) =
      (db', r', Ok (Z.of_nat (length activated))) ∧
    (∀ job, job ∈ activated → jobs_table db' !! job_id job = Some job ∧ status job = PENDING ∧
       ∃ old, jobs_table db !! job_id job = Some old ∧ status old = SCHEDULED) ∧
    represents r' q' ∧ published faults activated (counter r SEQUENCE_KEY) q q'.
Proof using PostgresLaws0 RedisLaws0.
  destruct (activate_spec now locked n db) as (db' & ms & Hrun & Hp & Ht).
  destruct (pg_select_facts locked (due_query now n) db _ _) as (Hnd & Hin & _ & Hlim).
  destruct (Hlim n eq_refl eq_refl) as [Hlen _].
  assert ((job_id <$> ms) ≡ₚ (job_id <$> pg_select locked (due_query now n) db)) as Hidp.
  { rewrite Hp, <-list_fmap_compose. done. }
  destruct (publish_spec faults ms r q Hr) as (q' & Hr' & Hpub & _).
  - by rewrite Hidp.
  - apply Forall_forall. intros m Hm. rewrite Hp in Hm.
    apply list_elem_of_fmap in Hm as (old & -> & Hold). rewrite job_id_apply_values.
    apply Hids. destruct (Hin old Hold) as [-> _]. by eexists.
  - rewrite Hp, length_fmap. lia.
  - exists db', (publish faults ms r), q', ms. split; [unfold scheduler_run_once; cbn [fst snd]; by rewrite Hrun|].
    split; [|done]. intros m Hm. rewrite Hp in Hm.
    apply list_elem_of_fmap in Hm as (old & -> & Hold). rewrite job_id_apply_values.
    destruct (Hin old Hold) as [Hlk [[Hs _]%holds_due _]%visible_due].
    rewrite Ht, lookup_map_rows, Hlk. simpl. rewrite bool_decide_true by (by apply list_elem_of_fmap_2).
    split; [done|]. split; [done|]. by exists old.
Qed.
End loops.

(** ** Witness *)

Lemma scheduler_publishes_what_it_activates_witness :
  ∃ db' r' q' (activated : list Job),
    scheduler_run_once 5000000 ∅ 10 (λ _, command_lost) (demo_db, demo_queue) =
      (db', r', Ok (Z.of_nat (length activated))) ∧ represents r' q'.
Proof.
  destruct (scheduler_publishes_what_it_activates 5000000 ∅ 10 (λ _, command_lost) demo_db demo_queue
              _ demo_represents) as (db' & r' & q' & activated & H1 & _ & H2 & _).
  - intros i [r Hr]. rewrite demo_db_table in Hr. unfold demo_table in Hr.
    repeat (apply lookup_insert_Some in Hr as [[<- <-]|[_ Hr]]; [done|]).
    by apply lookup_singleton_Some in Hr as [<- <-].
  - vm_compute. done.
  - exists db', r', q', activated. split; [exact H1|exact H2].
Defined.
