(* ===== verification/Backlog.v ===== *)
(** * Backlog: the background loops catch up

    The scheduler and recovery loops ([worker/scheduler.py], [worker/recovery.py]) take
    one bounded batch per turn, oldest first.  This file shows that enough turns reach
    every row that was waiting: a batch lowers the number of waiting rows by its
    limit, or to zero. *)

From S2P Require Import Prelude.
From S2P Require Import Text.
From S2P Require Import Errors.
From S2P Require Import Model.
From S2P Require Import Postgres.
From S2P Require Import MemDB.
From S2P Require Import Session.
From S2P Require Import RetryPolicy.
From S2P Require Import Config.
From S2P Require Import Ownership.
From S2P Require Import Redis.
From S2P Require Import ReadyQueue.
From S2P Require Import Recovery.
From S2P Require Import Scheduler.

Local Open Scope Z_scope.

(** ** One batch *)

(** The rows of a table that satisfy [P], and their number. *)
Definition waiting (P : Job → bool) (t : table) : table := filter (λ p, P p.2 = true) t.
Definition backlog (P : Job → bool) (t : table) : nat := base.size (waiting P t).

Lemma lookup_waiting P t i r : waiting P t !! i = Some r ↔ t !! i = Some r ∧ P r = true.
Proof. apply map_lookup_filter_Some. Qed.

Lemma backlog_zero P t : backlog P t = 0%nat → ∀ i r, t !! i = Some r → P r = false.
Proof.
  intros Hz%map_size_empty_inv i r Hr. destruct (P r) eqn:HP; [|done].
  assert (waiting P t !! i = Some r) as Hw by (by apply lookup_waiting).
  by rewrite Hz, lookup_empty in Hw.
Qed.

(** Rewriting every waiting row leaves none waiting. *)
Lemma backlog_all P f ids t :
  (∀ r, P (f r) = false) → (∀ i r, t !! i = Some r → P r = true → i ∈ ids) →
  backlog P (map_rows f ids t) = 0%nat.
Proof.
  intros Hf Hall. apply map_size_empty_iff, map_empty. intros i.
  apply eq_None_not_Some. intros [r [Hr HP]%lookup_waiting].
  rewrite lookup_map_rows in Hr. apply fmap_Some in Hr as (r0 & Hr0 & ->).
  destruct (bool_decide (i ∈ ids)) eqn:Hi; [by rewrite Hf in HP|].
  apply bool_decide_eq_false in Hi. destruct Hi. by apply (Hall i r0).
Qed.

(** Rewriting some waiting rows takes them off the backlog. *)
Lemma backlog_some P f ids t :
  NoDup ids → (∀ r, P (f r) = false) →
  (∀ i, i ∈ ids → ∃ r, t !! i = Some r ∧ P r = true) →
  (backlog P (map_rows f ids t) + length ids ≤ backlog P t)%nat.
Proof.
  intros Hnd Hf Hin. unfold backlog. rewrite <-!size_dom.
  rewrite <-(size_list_to_set (C := gset uuid) ids Hnd), <-size_union.
  - apply subseteq_size. intros i [Hi|Hi]%elem_of_union.
    + apply elem_of_dom in Hi as [r [Hr HP]%lookup_waiting]. rewrite lookup_map_rows in Hr.
      apply fmap_Some in Hr as (r0 & Hr0 & ->).
      destruct (bool_decide (i ∈ ids)); [by rewrite Hf in HP|].
      apply elem_of_dom. exists r0. by apply lookup_waiting.
    + apply elem_of_list_to_set in Hi. destruct (Hin i Hi) as (r & Hr & HP).
      apply elem_of_dom. exists r. by apply lookup_waiting.
  - intros i Hi Hi'. apply elem_of_list_to_set in Hi'.
    apply elem_of_dom in Hi as [r [Hr HP]%lookup_waiting]. rewrite lookup_map_rows in Hr.
    apply fmap_Some in Hr as (r0 & Hr0 & ->).
    by rewrite bool_decide_true, Hf in HP by done.
Qed.

Section batch.
Context {DB : Type} `{!Postgres DB, !PostgresLaws DB}.
Implicit Types db : DB.

(** A batch that takes [n] rows in order, the waiting ones first, and rewrites them so
    that they wait no more. *)
Lemma batch_backlog q n P f db :
  Total (before q) → Transitive (before q) → q_offset q = 0%nat → q_limit q = Some n →
  (∀ r, P (f r) = false) → (∀ r, P r = true → visible ∅ q r = true) →
  (∀ r r', before q r' r → visible ∅ q r' = true → P r = true → P r' = true) →
  (backlog P (map_rows f (job_id <$> pg_select ∅ q db) (jobs_table db))
     ≤ backlog P (jobs_table db) - n)%nat.
Proof using PostgresLaws0.
  intros Htot Htr Hoff Hlim Hf Hvis Hfirst.
  destruct (pg_select_facts ∅ q db Htot Htr) as (Hnd & Hin & _ & Hbound).
  destruct (Hbound n Hoff Hlim) as [Hlen Hshort].
  set (l := pg_select ∅ q db) in *.
  set (left_out := filter (λ p : uuid * Job, p.1 ∉ job_id <$> l) (waiting P (jobs_table db))).
  destruct (map_choose_or_empty left_out) as [(i & r & Hir)|Hnone].
  - apply map_lookup_filter_Some in Hir as [[Hr HP]%lookup_waiting Hi]. cbn in Hi.
    assert (r ∉ l) as Hrl.
    { intros Hr'. apply Hi. rewrite <-(table_id db i r Hr). by apply list_elem_of_fmap_2. }
    assert (length l = n) as Hn.
    { destruct (Nat.lt_ge_cases (length l) n) as [Hlt|]; [|lia].
      destruct Hrl. by apply (Hshort Hlt i r Hr), Hvis. }
    assert (backlog P (map_rows f (job_id <$> l) (jobs_table db)) + length (job_id <$> l)
              ≤ backlog P (jobs_table db))%nat as Hle.
    { apply backlog_some; [done|done|]. intros j (r' & -> & Hr')%list_elem_of_fmap.
      destruct (Hin r' Hr') as [Hlk Hv]. exists r'. split; [done|].
      apply (Hfirst r); [|done|done].
      apply (pg_select_first ∅ q db i r r'); auto. }
    rewrite length_fmap, Hn in Hle. lia.
  - rewrite backlog_all; [lia|done|]. intros i r Hr HP.
    destruct (decide (i ∈ job_id <$> l)) as [|Hi]; [done|].
    assert (left_out !! i = Some r) as Hx.
    { apply map_lookup_filter_Some. split; [by apply lookup_waiting|done]. }
    by rewrite Hnone, lookup_empty in Hx.
Qed.
End batch.

(** ** The loops *)

(** A world with a clock; [ticking] events let the loop sleep while time passes and
    nothing else happens. *)
Definition ticking {S} (events : list (bool * (Z * S → Z * S))) : Prop :=
  Forall (λ e, e.1 = false ∧ ∀ w, w.1 ≤ (e.2 w).1 ∧ (e.2 w).2 = w.2) events.

Definition overdue (now : Z) (r : Job) : bool :=
  bool_decide (status r = PROCESSING) && expired now r.

Definition due (now : Z) (r : Job) : bool :=
  bool_decide (status r = SCHEDULED) &&
  match scheduled_at r with Some at_ => at_ <=? now | None => false end.

(** Rows stay as they are, or leave status [src] once, as [Q] says. *)
Definition moved (src : JobStatus) (Q : Job → Job → Prop) : relation table := λ t t',
  ∀ i r, t !! i = Some r → ∃ r', t' !! i = Some r' ∧
    (r' = r ∨ (status r = src ∧ status r' ≠ src ∧ Q r r')).

#[export] Instance moved_preorder src Q : PreOrder (moved src Q).
Proof.
  split.
  - intros t i r Hr. eauto.
  - intros t1 t2 t3 H12 H23 i r Hr. destruct (H12 i r Hr) as (r2 & Hr2 & Hm2).
    destruct (H23 i r2 Hr2) as (r3 & Hr3 & Hm3). exists r3. split; [done|].
    destruct Hm2 as [->|(Hs & Hs2 & HQ)]; [done|]. destruct Hm3 as [->|(Hs3 & _)]; [eauto|done].
Qed.

Lemma moved_map_rows src Q f ids t :
  (∀ i r, i ∈ ids → t !! i = Some r → status r = src) →
  (∀ r, status r = src → status (f r) ≠ src ∧ Q r (f r)) →
  moved src Q t (map_rows f ids t).
Proof.
  intros Hsrc Hf i r Hr. rewrite lookup_map_rows, Hr. eexists. split; [done|].
  destruct (decide (i ∈ ids)) as [Hi|Hi]; [|left; by rewrite bool_decide_false].
  right. rewrite bool_decide_true by done. pose proof (Hsrc i r Hi Hr) as Hs.
  split; [done|]. by apply Hf.
Qed.

Definition taken_back (r r' : Job) : Prop :=
  unowned r' ∧ (status r' = SCHEDULED ∨ status r' = FAILED).
Definition activated (r r' : Job) : Prop := r' = apply_values [SetStatus PENDING] r.

Section loops.
Context {DB : Type} `{!Postgres DB} {R : Type} `{!Redis R}.

(** One turn, at the time the clock shows. *)
Definition recovery_turn (batch_size : nat) (w : Z * DB) : Z * DB * result exn Z :=
  let '(db, res) := recovery_run_once w.1 ∅ batch_size w.2 in (w.1, db, res).

Definition scheduler_turn (batch_size : nat) (faults : Z → uuid → fault) (w : Z * (DB * R))
    : Z * (DB * R) * result exn Z :=
  let '(s, res) := scheduler_run_once w.1 ∅ batch_size (faults w.1) w.2 in (w.1, s, res).

Context `{!PostgresLaws DB}.
Implicit Types db : DB.

Lemma recovery_step now0 now n db :
  sweepable db → now0 ≤ now →
  ∃ db' m, recovery_run_once now ∅ n db = (db', Ok m) ∧ sweepable db' ∧
    moved PROCESSING taken_back (jobs_table db) (jobs_table db') ∧
    (backlog (overdue now0) (jobs_table db') ≤ backlog (overdue now0) (jobs_table db) - n)%nat.
Proof using PostgresLaws0.
  intros Hok Hnow. destruct (recover_expired_leases_spec now ∅ n db) as (db' & Hrun & Ht); [by eauto|].
  destruct (pg_select_facts ∅ (expired_query now n) db _ _) as (_ & Hin & _).
  set (f := settled now LEASE_EXPIRED_ERROR) in *.
  assert (∀ r, status (f r) = SCHEDULED ∨ status (f r) = FAILED) as Hf.
  { intros r. unfold f, settled, failed_values. destruct (attempt_count r <? max_attempts r); auto. }
  assert (∀ r, unowned (f r)) as Hun.
  { intros r. unfold f, settled, failed_values. by destruct (attempt_count r <? max_attempts r). }
  assert (moved PROCESSING taken_back (jobs_table db) (jobs_table db')) as Hmv.
  { rewrite Ht. apply moved_map_rows.
    - intros i r (r0 & -> & [Hr0 Hv]%Hin)%list_elem_of_fmap Hr.
      apply visible_expired in Hv as (Hs & _). congruence.
    - intros r _. split; [by destruct (Hf r) as [-> | ->]|]. split; auto. }
  eexists db', _. split; [unfold recovery_run_once; by rewrite Hrun|].
  split; [|split; [done|]].
  - intros i r' Hr' Hs. rewrite Ht, lookup_map_rows in Hr'.
    apply fmap_Some in Hr' as (r & Hr & ->).
    destruct (bool_decide _); [by destruct (Hf r) as [Hx|Hx]; rewrite Hx in Hs|by eapply Hok].
  - rewrite Ht. unfold overdue. apply batch_backlog; try apply _; try done.
    + intros r. by destruct (Hf r) as [-> | ->].
    + intros r [Hs He]%andb_prop. apply visible_expired. to_prop. split; [done|].
      split; [|set_solver]. apply expired_spec in He as (d & Hd & Hlt). apply expired_spec.
      exists d. split; [done|lia].
    + intros r r' Hb (Hs & He & _)%visible_expired [_ He0]%andb_prop. rewrite bool_decide_true by done.
      apply expired_spec in He as (d & Hd & _), He0 as (d0 & Hd0 & Hlt). apply expired_spec.
      exists d. split; [done|]. unfold before in Hb. cbn in Hb. rewrite Hd, Hd0 in Hb. cbn in Hb. lia.
Qed.

Lemma recovery_loop_steps now0 n events now db :
  sweepable db → now0 ≤ now → ticking events →
  ∃ now' db', run_until_stopped (recovery_turn n) events (now, db) = (now', db') ∧
    moved PROCESSING taken_back (jobs_table db) (jobs_table db') ∧
    (backlog (overdue now0) (jobs_table db')
       ≤ backlog (overdue now0) (jobs_table db) - length events * n)%nat.
Proof using PostgresLaws0.
  intros Hok Hnow Hev. revert now db Hok Hnow.
  induction Hev as [|[stopped others] events [He Ho] Hev IH]; intros now db Hok Hnow.
  { exists now, db. split; [done|]. split; [done|]. cbn. lia. }
  cbn in He. subst stopped. cbn [run_until_stopped]. unfold recovery_turn at 1. cbn [fst snd].
  destruct (recovery_step now0 now n db Hok Hnow) as (db1 & m & -> & Hok1 & Hmv1 & Hb1).
  destruct (Ho (now, db1)) as [Hle Hdb]. cbn [fst snd] in Hle, Hdb.
  destruct (others (now, db1)) as [now1 db1'] eqn:E. cbn [fst snd] in Hle, Hdb. subst db1'.
  destruct (IH now1 db1 Hok1 ltac:(lia)) as (now' & db' & Hrun & Hmv & Hb).
  exists now', db'. split; [exact Hrun|]. split; [by etrans|]. cbn [length]. lia.
Qed.

Lemma scheduler_step now0 now n faults db (r : R) :
  now0 ≤ now →
  ∃ db' r' m, scheduler_run_once now ∅ n faults (db, r) = (db', r', Ok m) ∧
    moved SCHEDULED activated (jobs_table db) (jobs_table db') ∧
    (backlog (due now0) (jobs_table db') ≤ backlog (due now0) (jobs_table db) - n)%nat.
Proof using PostgresLaws0.
  intros Hnow. destruct (activate_spec now ∅ n db) as (db' & rs & Hrun & _ & Ht).
  destruct (pg_select_facts ∅ (due_query now n) db _ _) as (_ & Hin & _).
  eexists db', _, _. split; [unfold scheduler_run_once; cbn [fst snd]; by rewrite Hrun|].
  rewrite Ht. split.
  - apply moved_map_rows; [|done].
    intros i r0 (r1 & -> & [Hr1 Hv]%Hin)%list_elem_of_fmap Hr0.
    apply visible_due in Hv as [[Hs _]%holds_due _]. congruence.
  - unfold due. apply batch_backlog; try apply _; try done.
    + intros r0 [Hs Hd]%andb_prop. apply visible_due. split; [|set_solver]. apply holds_due.
      to_prop. split; [done|]. destruct (scheduled_at r0) as [z|]; [|done]. exists z.
      to_prop. split; [done|lia].
    + intros r0 r' Hb [[Hs (z & Hz & _)]%holds_due _]%visible_due [_ Hd]%andb_prop.
      rewrite bool_decide_true by done. unfold before in Hb. cbn in Hb. rewrite Hz in Hb |- *.
      destruct (scheduled_at r0) as [z0|]; [|done]. to_prop. cbn in *. lia.
Qed.

Lemma scheduler_loop_steps now0 n faults events now db (r : R) :
  now0 ≤ now → ticking events →
  ∃ now' db' r', run_until_stopped (scheduler_turn n faults) events (now, (db, r)) =
      (now', (db', r')) ∧
    moved SCHEDULED activated (jobs_table db) (jobs_table db') ∧
    (backlog (due now0) (jobs_table db')
       ≤ backlog (due now0) (jobs_table db) - length events * n)%nat.
Proof using PostgresLaws0.
  intros Hnow Hev. revert now db r Hnow.
  induction Hev as [|[stopped others] events [He Ho] Hev IH]; intros now db r Hnow.
  { exists now, db, r. split; [done|]. split; [done|]. cbn. lia. }
  cbn in He. subst stopped. cbn [run_until_stopped]. unfold scheduler_turn at 1. cbn [fst snd].
  destruct (scheduler_step now0 now n (faults now) db r Hnow) as (db1 & r1 & m & -> & Hmv1 & Hb1).
  destruct (Ho (now, (db1, r1))) as [Hle Hw]. cbn [fst snd] in Hle, Hw.
  destruct (others (now, (db1, r1))) as [now1 w1] eqn:E. cbn [fst snd] in Hle, Hw. subst w1.
  destruct (IH now1 db1 r1 ltac:(lia)) as (now' & db' & r' & Hrun & Hmv & Hb).
  exists now', db', r'. split; [exact Hrun|]. split; [by etrans|]. cbn [length]. lia.
Qed.

(** What enough turns leave: no row that waited at the start still waits. *)
Lemma caught_up P src Q t t' i r :
  moved src Q t t' → backlog P t' = 0%nat → (∀ r, P r = true → status r = src) →
  t !! i = Some r →
  ∃ r', t' !! i = Some r' ∧ (P r = true → Q r r') ∧ (status r ≠ src → r' = r).
Proof using Type.
  intros Hmv Hz Hsrc Hr. destruct (Hmv i r Hr) as (r' & Hr' & Hm). exists r'.
  split; [done|]. destruct Hm as [->|(Hs & _ & HQ)]; [|done].
  split; [|done]. intros HP. by rewrite (backlog_zero P t' Hz i r Hr') in HP.
Qed.

(** However many leases have run out at one moment, the recovery loop settles them all:
    after enough turns to take them in batches, every job that was overdue is
    released and either rescheduled or failed, even if other leases keep running
    out meanwhile; jobs that were not running are untouched. *)
Theorem recovery_loop_clears_the_backlog now0 n events now db
    (Hok : sweepable db) (Hnow : now0 ≤ now) (Hev : ticking events)
    (Hlen : (backlog (overdue now0) (jobs_table db) ≤ length events * n)%nat) :
  ∃ now' db', run_until_stopped (recovery_turn n) events (now, db) = (now', db') ∧
    ∀ i r, jobs_table db !! i = Some r → ∃ r', jobs_table db' !! i = Some r' ∧
      (overdue now0 r = true → unowned r' ∧ (status r' = SCHEDULED ∨ status r' = FAILED)) ∧
      (status r ≠ PROCESSING → r' = r).
Proof using PostgresLaws0.
  destruct (recovery_loop_steps now0 n events now db Hok Hnow Hev) as (now' & db' & Hrun & Hmv & Hb).
  exists now', db'. split; [done|]. intros i r Hr.
  apply (caught_up (overdue now0) PROCESSING taken_back (jobs_table db)); [done|lia| |done].
  intros r0 [Hs _]%andb_prop. by to_prop.
Qed.

(** However many jobs are due at one moment, the scheduler loop makes them all
    PENDING: the earliest go first, failing Redis commands and exceptions do not
    stop it, and no job that was not SCHEDULED is touched. *)
Theorem scheduler_loop_clears_the_backlog now0 n faults events now db (r : R)
    (Hnow : now0 ≤ now) (Hev : ticking events)
    (Hlen : (backlog (due now0) (jobs_table db) ≤ length events * n)%nat) :
  ∃ now' db' r', run_until_stopped (scheduler_turn n faults) events (now, (db, r)) =
      (now', (db', r')) ∧
    ∀ i job, jobs_table db !! i = Some job → ∃ job', jobs_table db' !! i = Some job' ∧
      (due now0 job = true → job' = apply_values [SetStatus PENDING] job) ∧
      (status job ≠ SCHEDULED → job' = job).
Proof using PostgresLaws0.
  destruct (scheduler_loop_steps now0 n faults events now db r Hnow Hev)
    as (now' & db' & r' & Hrun & Hmv & Hb).
  exists now', db', r'. split; [done|]. intros i job Hj.
  apply (caught_up (due now0) SCHEDULED activated (jobs_table db)); [done|lia| |done].
  intros r0 [Hs _]%andb_prop. by to_prop.
Qed.
End loops.

(** ** Witnesses *)

Definition one_second {S} : bool * (Z * S → Z * S) := (false, λ w, (w.1 + 1000000, w.2)).

Lemma one_second_ticking {S} k : ticking (replicate k (@one_second S)).
Proof. apply Forall_replicate. split; [done|]. intros [t s]. cbn. split; [lia|done]. Qed.

Lemma recovery_loop_clears_the_backlog_witness :
  ∃ now' db' r', run_until_stopped (recovery_turn 1) (replicate 2 one_second) (60003001, demo_db) =
      (now', db') ∧ jobs_table db' !! 9 = Some r' ∧
    (status r' = SCHEDULED ∨ status r' = FAILED).
Proof.
  destruct (recovery_loop_clears_the_backlog 60003001 1 (replicate 2 one_second) 60003001 demo_db)
    as (now' & db' & Hrun & H).
  - intros i r. rewrite demo_db_table. unfold demo_table. intros Hr Hs.
    repeat (apply lookup_insert_Some in Hr as [[<- <-]|[_ Hr]]; [try done|]).
    + split; [by eexists|]. split; [by eexists|]. by right.
    + by apply lookup_singleton_Some in Hr as [<- <-].
  - lia.
  - apply one_second_ticking.
  - rewrite demo_db_table. vm_compute. lia.
  - destruct (H 9 demo_processing) as (r' & Hr' & Hs & _); [by rewrite demo_db_table|].
    exists now', db', r'. destruct (Hs ltac:(done)) as [_ Hst]. done.
Defined.

Lemma scheduler_loop_clears_the_backlog_witness :
  ∃ now' db' r' job', run_until_stopped (scheduler_turn 1 (λ _ _, command_lost))
      (replicate 1 one_second) (5000000, (demo_db, redis_empty)) = (now', (db', r')) ∧
    jobs_table db' !! 8 = Some job' ∧ status job' = PENDING.
Proof.
  destruct (scheduler_loop_clears_the_backlog 5000000 1 (λ _ _, command_lost)
              (replicate 1 one_second) 5000000 demo_db redis_empty) as (now' & db' & r' & Hrun & H).
  - lia.
  - apply one_second_ticking.
  - rewrite demo_db_table. vm_compute. lia.
  - destruct (H 8 demo_scheduled) as (job' & Hj' & Hs & _); [by rewrite demo_db_table|].
    exists now', db', r', job'. split; [done|]. split; [done|]. by rewrite (Hs ltac:(done)).
Defined.
