(* ===== verification/Worker.v ===== *)
(** * Worker: polling until stopped

    [JobRunner.run_forever] of [worker/runner.py] over the cycle of [Runner], and the
    way of a job through the whole service: submitted through [Submission], published
    in [ReadyQueue], executed by a polling worker; or claimed by a worker that loses
    Redis before it executes it. *)

From S2P Require Import Prelude.
From S2P Require Import Text.
From S2P Require Import Errors.
From S2P Require Import Model.
From S2P Require Import Postgres.
From S2P Require Import MemDB.
From S2P Require Import Session.
From S2P Require Import RetryPolicy.
From S2P Require Import Config.
From S2P Require Import Ownership.
From S2P Require Import Redis.
From S2P Require Import ReadyQueue.
From S2P Require Import Schemas.
From S2P Require Import Submission.
From S2P Require Import Fencing.
From S2P Require Import Recovery.
From S2P Require Import Lifecycle.
From S2P Require Import Leases.
From S2P Require Import Handlers.
From S2P Require Import Heartbeat.
From S2P Require Import Runner.
From Stdlib Require Import QArith.

Local Open Scope Z_scope.

(** One turn of the polling loop: the stop event when the loop tests it, the passes
    of the cycle, and what others do while an idle worker waits. *)
Record Turn (DB R : Type) := {
  tn_stopped : bool;
  tn_cycles : nat → Cycle DB R;
  tn_idle : DB * R → DB * R
}.
Arguments tn_stopped {DB R}. Arguments tn_cycles {DB R}. Arguments tn_idle {DB R}.

Section worker.
Context {DB : Type} `{!Postgres DB} {R : Type} `{!Redis R}.
Context (py_str : JSON → string) (exn_repr : exn → string).

(** [run_forever], over the turns of an execution: a cycle that raises counts as one
    that did no work, and a worker that did no work waits. *)
Fixpoint run_forever (wk : WorkerConfig) (turns : list (Turn DB R)) (w : DB * R) : DB * R :=
  match turns with
  | [] => w
  | t :: turns =>
      if tn_stopped t then w
      else
        let '(w, did_work) :=
          match run_once py_str exn_repr wk (tn_cycles t) w with
          | (db, r, Ok did_work) => ((db, r), did_work)
          | (db, r, Err _) => ((db, r), false)
          end in
        if did_work then run_forever wk turns w
        else run_forever wk turns (tn_idle t w)
  end.

(** After the stop event is set, whichever test sees it first (the loop's, the one
    before the peek or the one before the claim), the worker itself changes
    nothing any more, in either store. *)
Theorem shutdown_takes_no_more_work wk turns w
    (Hstop : ∀ t, t ∈ turns → tn_stopped t = true ∨
       cy_stopped_before_peek (tn_cycles t 0%nat) = true ∨
       cy_stopped_before_claim (tn_cycles t 0%nat) = true) :
  rtc (λ w w', ∃ t, t ∈ turns ∧ w' = tn_idle t w) w (run_forever wk turns w).
Proof using Type.
  assert (∀ all, turns ⊆ all →
    rtc (λ w w', ∃ t, t ∈ all ∧ w' = tn_idle t w) w (run_forever wk turns w)) as H; [|by apply H].
  intros all. revert w. induction turns as [|t turns IH]; intros w Hall; [apply rtc_refl|].
  cbn [run_forever]. destruct (tn_stopped t) eqn:Ht; [apply rtc_refl|]. destruct w as [db r].
  destruct (stopped_worker_takes_nothing py_str exn_repr wk (tn_cycles t) db r)
    as (res & -> & Hres).
  { destruct (Hstop t) as [Hs|Hs]; [by left|congruence|done]. }
  assert (match res with Ok b => ((db, r), b) | Err _ => ((db, r), false) end =
          ((db, r), false)) as Heq by (by destruct res as [[]|]).
  destruct res as [b|e]; [injection Heq as ->|];
    (eapply rtc_l; [exists t; split; [apply Hall; by left|done]|]);
    (apply IH; [intros t' Ht'; apply Hstop; by right|intros t' Ht'; apply Hall; by right]).
Qed.

(** ** Draining the queue *)

(** A turn in which nothing interferes. *)
Definition calm_turn (t : Turn DB R) : Prop :=
  tn_stopped t = false ∧ (∀ k, calm (tn_cycles t k) ∧ cy_remove (tn_cycles t k) = no_fault) ∧
  (∀ w, tn_idle t w = w).

(** A job a worker can run once it has claimed it. *)
Definition runnable (job : Job) : Prop :=
  max_attempts job = 3 ∧ countable (payload job) ∧ is_Some (get_handler py_str (job_type job)).

(** [job'] is what an attempt of [job] in the pass [cy] leaves. *)
Definition ran_by (wk : WorkerConfig) (cy : Cycle DB R) (job job' : Job) : Prop :=
  ∃ handler, get_handler py_str (job_type job) = Some handler ∧
    ended exn_repr (cy_settle_now cy)
      (outcome (handler (job_context wk (cy_random cy) (cy_hex cy)
         (claimed wk cy job) (claimed_attempt wk cy job)))) (claimed wk cy job) job'.

(** [job'] is what one attempt of [job] in one of the turns leaves. *)
Definition ran_in (wk : WorkerConfig) (turns : list (Turn DB R)) (job job' : Job) : Prop :=
  ∃ t k, t ∈ turns ∧ ran_by wk (tn_cycles t k) job job'.

(** How a worker's work changes the table and the queue: entries only leave, and with
    each its job has run if it could be claimed; nothing else changes. *)
Record works (ran : Job → Job → Prop) (t : table) (q : aqueue) (t' : table) (q' : aqueue)
    : Prop := {
  wo_sub : q' ⊆ q;
  wo_kept id : is_Some (q' !! id) ∨ q !! id = None → t' !! id = t !! id;
  wo_done id job : is_Some (q !! id) → q' !! id = None → t !! id = Some job →
    if claimable job then ∃ job', t' !! id = Some job' ∧ ran job job' else t' !! id = Some job;
  wo_none id : t !! id = None → t' !! id = None
}.

Lemma works_refl ran t q : works ran t q t q.
Proof using Type. split; [done|done| |done]. intros id job [e He]. congruence. Qed.

Lemma works_trans ran t1 q1 t2 q2 t3 q3 :
  works ran t1 q1 t2 q2 → works ran t2 q2 t3 q3 → works ran t1 q1 t3 q3.
Proof using Type.
  intros [S1 K1 D1 N1] [S2 K2 D2 N2]. split; [by etrans| | |auto].
  - intros id Hid. rewrite K2, K1; [done|..].
    + destruct Hid as [[e He]|]; [left; exists e; by eapply lookup_weaken|by right].
    + destruct Hid as [?|Hn]; [by left|right]. by eapply lookup_weaken_None.
  - intros id job Hid Hn Hj. destruct (q2 !! id) as [e|] eqn:Hq2.
    + apply D2; [by eexists|done|]. rewrite K1; [done|left; by eexists].
    + specialize (D1 id job Hid Hq2 Hj). by rewrite K2 by (by right).
Qed.

Lemma works_mono (ran ran' : Job → Job → Prop) t q t' q' :
  (∀ job job', ran job job' → ran' job job') → works ran t q t' q' → works ran' t q t' q'.
Proof using Type.
  intros Hr [S K D N]. split; [done|done| |done]. intros id job Hid Hn Hj. specialize (D id job Hid Hn Hj).
  destruct (claimable job); [|done]. destruct D as (job' & ? & ?). eauto.
Qed.

(** One entry leaves the queue. *)
Lemma works_one (ran : Job → Job → Prop) t t' q id :
  (∀ i, i ≠ id → t' !! i = t !! i) →
  (∀ job, t !! id = Some job →
     if claimable job then ∃ job', t' !! id = Some job' ∧ ran job job' else t' !! id = Some job) →
  (t !! id = None → t' !! id = None) →
  is_Some (q !! id) → works ran t q t' (delete id q).
Proof using Type.
  intros Hk Hd Hno Hin. split; [apply delete_subseteq| | |].
  - intros i [[e [Hne _]%lookup_delete_Some]|Hn]; apply Hk; [congruence|]. intros ->.
    rewrite Hn in Hin. by destruct Hin.
  - intros i job [e He] Hn Hj. destruct (decide (i = id)) as [->|Hne]; [by apply Hd|].
    rewrite lookup_delete_ne in Hn by done. congruence.
  - intros i Hi. destruct (decide (i = id)) as [->|Hne]; [by apply Hno|by rewrite Hk].
Qed.

Context `{!PostgresLaws DB, !RedisLaws R}.
Implicit Types (db : DB) (r : R) (q : aqueue).

(** Every queued job that can be claimed can be run. *)
Definition ready_to_run (t : table) (q : aqueue) : Prop :=
  ∀ id job, is_Some (q !! id) → t !! id = Some job → claimable job = true → runnable job.

Lemma works_ready ran t q t' q' :
  works ran t q t' q' → ready_to_run t q → ready_to_run t' q'.
Proof using Type.
  intros [S K D _] Hready id job [e He] Hj Hc. apply (Hready id); [|by rewrite <-K; [|left; by eexists]|done].
  exists e. by eapply lookup_weaken.
Qed.

(** One pass over a queue that is not empty takes its best entry out. *)
Lemma calm_pass wk cy db r q :
  calm cy → cy_remove cy = no_fault → represents r q → q ≠ ∅ → varchar_ok 128 (wk_id wk) = true →
  ready_to_run (jobs_table db) q →
  ∃ db' r' id res, run_candidate py_str exn_repr wk cy (db, r) = (db', r', Ok res) ∧
    (res = Some true ∨ res = None) ∧ is_Some (q !! id) ∧ represents r' (delete id q) ∧
    counter r' SEQUENCE_KEY = counter r SEQUENCE_KEY ∧
    works (ran_by wk cy) (jobs_table db) q (jobs_table db') (delete id q).
Proof using PostgresLaws0 RedisLaws0.
  intros Hcalm Hrem Hr Hne Hw Hready.
  destruct (peek_spec r q Hr) as [[-> _]|(id & prio & seq & Hq & _ & Hbest)]; [done|].
  assert (is_Some (q !! id)) as Hin by (by eexists).
  destruct (match jobs_table db !! id with Some job => claimable job | None => false end) eqn:Hcase.
  - destruct (jobs_table db !! id) as [job|] eqn:Hj; [|done]. rename Hcase into Hc.
    destruct (Hready id job Hin Hj Hc) as (Hmax & Hn & handler & Hh).
    destruct (run_candidate_best py_str exn_repr wk cy db r q id prio seq job handler)
      as (db' & r' & job' & Hrun & Hr' & Hn' & Ht & Hset); [done..|].
    exists db', r', id, (Some true). split; [done|]. split; [by left|]. do 3 (split; [done|]).
    apply works_one; [intros i Hi; by rewrite Ht, lookup_insert_ne| |congruence|done].
    intros j Hj'. rewrite Hj in Hj'. injection Hj' as <-. rewrite Hc. exists job'.
    rewrite Ht, lookup_insert_eq. split; [done|]. by exists handler.
  - assert (∀ job, jobs_table db !! id = Some job → claimable job = false) as Hno.
    { intros job Hj. by rewrite Hj in Hcase. }
    destruct (unclaimable_candidate_is_discarded py_str exn_repr wk cy db r q id prio seq)
      as (db' & r' & Hrun & Ht & Hr' & Hn'); [done..|].
    exists db', r', id, None. split; [done|]. split; [by right|]. do 3 (split; [done|]).
    apply works_one; [by rewrite Ht| |by rewrite Ht|done]. intros job Hj. by rewrite (Hno job Hj), Ht.
Qed.

Lemma idle_pass wk cy db r :
  calm cy → represents r ∅ → run_candidate py_str exn_repr wk cy (db, r) = (db, r, Ok (Some false)).
Proof using RedisLaws0.
  intros [H1 H2 _ _ _ _ _] Hr. unfold run_candidate. rewrite H1, H2. unfold call.
  destruct (peek_spec r ∅ Hr) as [[_ ->]|(id & p & seq & Hq & _)]; [done|].
  by rewrite lookup_empty in Hq.
Qed.

(** A cycle: it takes at least one entry out of a queue that has any. *)
Lemma calm_passes wk cycles fuel k db r q :
  (∀ k, calm (cycles k) ∧ cy_remove (cycles k) = no_fault) → represents r q →
  varchar_ok 128 (wk_id wk) = true → ready_to_run (jobs_table db) q →
  ∃ db' r' q' b, run_candidates py_str exn_repr wk cycles fuel k (db, r) = (db', r', Ok b) ∧
    represents r' q' ∧ counter r' SEQUENCE_KEY = counter r SEQUENCE_KEY ∧
    (fuel ≠ 0%nat → q ≠ ∅ → (base.size q' < base.size q)%nat) ∧
    works (λ job job', ∃ k, ran_by wk (cycles k) job job') (jobs_table db) q (jobs_table db') q'.
Proof using PostgresLaws0 RedisLaws0.
  intros Hcalm. revert k db r q. induction fuel as [|fuel IH]; intros k db r q Hr Hw Hready.
  { exists db, r, q, false. do 3 (split; [done|]). split; [done|]. apply works_refl. }
  cbn [run_candidates]. destruct (Hcalm k) as [Hc Hrem].
  destruct (decide (q = ∅)) as [->|Hne].
  { rewrite idle_pass by done. exists db, r, ∅, false. do 3 (split; [done|]). split; [done|].
    apply works_refl. }
  destruct (calm_pass wk (cycles k) db r q Hc Hrem Hr Hne Hw Hready)
    as (db1 & r1 & id & res & -> & Hres & [e He] & Hr1 & Hn1 & Hwo).
  assert (base.size (delete id q) < base.size q)%nat as Hlt.
  { rewrite map_size_delete_Some by (by eexists). assert (base.size q ≠ 0%nat) by (by intros ?%map_size_empty_inv). lia. }
  apply (works_mono _ (λ job job', ∃ k, ran_by wk (cycles k) job job')) in Hwo; [|by eauto].
  destruct Hres as [-> | ->].
  - by exists db1, r1, (delete id q), true.
  - destruct (IH (S k) db1 r1 (delete id q) Hr1 Hw) as (db' & r' & q' & b & Hrun & Hr' & Hn' & _ & Hwo');
      [by eapply works_ready|].
    exists db', r', q', b. do 2 (split; [done|]). split; [congruence|]. split; [|by eapply works_trans].
    intros _ _. pose proof (map_subseteq_size _ _ (wo_sub _ _ _ _ _ Hwo')). lia.
Qed.

Lemma polling_drains wk turns all db r q :
  turns ⊆ all → Forall calm_turn turns → (base.size q ≤ length turns)%nat →
  represents r q → varchar_ok 128 (wk_id wk) = true → ready_to_run (jobs_table db) q →
  ∃ db' r', run_forever wk turns (db, r) = (db', r') ∧ represents r' ∅ ∧
    works (ran_in wk all) (jobs_table db) q (jobs_table db') ∅.
Proof using PostgresLaws0 RedisLaws0.
  intros Hall Hcalm. revert db r q Hall.
  induction Hcalm as [|t turns (Hst & Hcy & Hidle) Hts IH]; intros db r q Hall Hlen Hr Hw Hready.
  { cbn in Hlen. assert (q = ∅) as -> by (apply map_size_empty_inv; lia).
    exists db, r. do 2 (split; [done|]). apply works_refl. }
  destruct (calm_passes wk (tn_cycles t) MAX_CANDIDATES_PER_CYCLE 0 db r q Hcy Hr Hw Hready)
    as (db1 & r1 & q1 & b & Hrun & Hr1 & _ & Hlt & Hwo).
  assert (base.size q1 ≤ length turns)%nat as Hlen1.
  { destruct (decide (q = ∅)) as [->|Hne]; [|specialize (Hlt ltac:(done) Hne); cbn in Hlen; lia].
    pose proof (wo_sub _ _ _ _ _ Hwo) as Hsub. apply map_subseteq_size in Hsub.
    rewrite map_size_empty in Hsub. lia. }
  destruct (IH db1 r1 q1) as (db' & r' & Hrun' & Hr' & Hwo'); [|done..|by eapply works_ready|].
  { intros t' Ht'. apply Hall. by right. }
  exists db', r'. split; [|split; [done|]].
  - cbn [run_forever]. unfold run_once. rewrite Hst, Hrun. destruct b; [done|]. by rewrite Hidle.
  - eapply works_trans; [|exact Hwo']. eapply works_mono; [|exact Hwo].
    intros job job' [k Hk]. exists t, k. split; [apply Hall; by left|done].
Qed.

(** A polling worker nothing interferes with drains the queue, stale entries and
    all: in as many turns as there are entries, each queued job that can be claimed is
    executed, once, to the end its handler decides; the entries of jobs that
    finished, were cancelled or never existed are dropped; the queue is empty, and no
    other job is touched. *)
Theorem polling_drains_the_queue wk turns db r q
    (Hcalm : Forall calm_turn turns) (Hlen : (base.size q ≤ length turns)%nat)
    (Hr : represents r q) (Hw : varchar_ok 128 (wk_id wk) = true)
    (Hready : ready_to_run (jobs_table db) q) :
  ∃ db' r', run_forever wk turns (db, r) = (db', r') ∧ represents r' ∅ ∧
    (∀ id job, is_Some (q !! id) → jobs_table db !! id = Some job → claimable job = true →
       ∃ job', jobs_table db' !! id = Some job' ∧ ran_in wk turns job job') ∧
    (∀ id job, jobs_table db !! id = Some job → q !! id = None ∨ claimable job = false →
       jobs_table db' !! id = Some job).
Proof using PostgresLaws0 RedisLaws0.
  destruct (polling_drains wk turns turns db r q) as (db' & r' & Hrun & Hr' & [_ K D _]); [done..|].
  exists db', r'. do 2 (split; [done|]). split; intros id job.
  - intros Hid Hj Hc. specialize (D id job Hid (lookup_empty _) Hj). by rewrite Hc in D.
  - intros Hj Hn. destruct (q !! id) as [e|] eqn:Hq; [|by rewrite K; [|right]].
    destruct Hn as [|Hc]; [done|]. specialize (D id job ltac:(by eexists) (lookup_empty _) Hj).
    by rewrite Hc in D.
Qed.

(** From submission to result, through both stores: a job submitted to run at once is
    stored, queued and, after at most as many turns of a worker as there are jobs
    in the queue, executed to the end its handler decides. *)
Theorem submitted_job_is_executed wk turns env request db r q
    (Hreq : request_fields_ok request = true) (Hnow : req_scheduled_at request = None)
    (Hn : countable (req_payload request))
    (Halone : alone env) (Hclock : now_find env ≤ now_release env)
    (Hnew : jobs_table db !! new_id env = None) (Hid : uuid_ok (new_id env))
    (Hr : represents r q) (Hseq : counter r SEQUENCE_KEY + 1 < SEQ_BOUND)
    (Hready : ready_to_run (jobs_table db) q)
    (Hcalm : Forall calm_turn turns) (Hlen : (S (base.size q) ≤ length turns)%nat)
    (Hw : varchar_ok 128 (wk_id wk) = true) :
  ∃ db1 r1 job db2 r2 job', submit_job env no_fault request None db r = (db1, r1, Ok (job, true)) ∧
    run_forever wk turns (db1, r1) = (db2, r2) ∧
    jobs_table db2 !! new_id env = Some job' ∧ ran_in wk turns job job' ∧ represents r2 ∅ ∧
    payload job = req_payload request ∧ job_type job = jobtype_value (req_type request) ∧
    attempt_count job = 0 ∧ max_attempts job = 3.
Proof using PostgresLaws0 RedisLaws0.
  destruct (build_job_spec (now_build env) (new_id env) (db_now env) request None Hreq eq_refl)
    as (job & Hb & Hst & Hjid & Hjk & Hpr & Hpay & Hty & Hac & Hma & _ & _ & Hstatus).
  destruct (create_new env request None job db) as (db1 & Hrun & Ht); [done..|].
  cbn in Ht. assert (status job = PENDING) as Hpend.
  { unfold build_job in Hb. rewrite Hnow in Hb. by injection Hb as <-. }
  destruct (enqueue_spec r q (new_id env) (req_priority request) Hr Hid Hseq) as (r1 & He & Hr1 & _).
  set (q1 := a_enqueue _ _ _ q) in Hr1.
  destruct (polling_drains wk turns turns db1 r1 q1) as (db2 & r2 & Hrun2 & Hr2 & [_ _ Hdone _]);
    try done.
  - unfold q1, a_enqueue. rewrite map_size_insert. destruct (q !! new_id env); cbn; lia.
  - intros id j Hin. unfold q1, a_enqueue in Hin. rewrite Ht, lookup_insert.
    case_decide as Hi; [|rewrite lookup_insert_ne in Hin by done; by apply Hready].
    intros [= <-] _. unfold runnable. rewrite Hma, Hpay, Hty. do 2 (split; [done|]).
    apply every_accepted_type_has_a_handler. by eexists.
  - assert (is_Some (q1 !! new_id env)) as Hin by (unfold q1, a_enqueue; rewrite lookup_insert_eq; by eexists).
    assert (claimable job = true) as Hc by (unfold claimable; by rewrite Hpend, Hac, Hma).
    specialize (Hdone (new_id env) job Hin (lookup_empty _)).
    rewrite Ht, lookup_insert_eq, Hc in Hdone. destruct (Hdone eq_refl) as (job' & Hj' & Hran).
    exists db1, r1, job, db2, r2, job'. split; [|by repeat (split; [done|])].
    unfold submit_job, submit_job_over. cbn [db_call]. rewrite Hrun, Hjid, Hpr. cbn [andb]. rewrite bool_decide_true by done.
    unfold call. by rewrite He.
Qed.
(** ** A claim that is left alone *)

Lemma claimed_and_left wk (cy : Cycle DB R) (s : Sys DB R) id job (db' : DB) (r' : R) :
  reachable s → jobs_table (sys_db s) !! id = Some job → claimable job = true →
  varchar_ok 128 (wk_id wk) = true →
  jobs_table db' = <[id := claimed wk cy job]> (jobs_table (sys_db s)) →
  table_wf (jobs_table db') ∧
  holding (claimed_attempt wk cy job) (wk_default_lease wk) (Some (wk_lease wk)) (cy_now cy)
    (jobs_table db').
Proof using PostgresLaws0.
  intros Hs Hj Hc Hw Ht. pose proof (table_id _ _ _ Hj) as Hid.
  destruct (claim_job_cas (wk_default_lease wk) (cy_now cy) (cy_token cy) id (wk_id wk)
    (Some (wk_lease wk)) (sys_db s) Hw) as (db1 & Hu & Ht1).
  rewrite (cas_hit _ _ _ _ job) in Hu, Ht1 by done. rewrite Ht. cbn [fst snd] in *.
  split.
  - unfold claimed. rewrite <-Ht1.
    eapply table_evolves_wf, claim_evolves; [exact Hw|exact Hu|by apply reachable_wf].
  - exists (claimed wk cy job). change (at_job_id (claimed_attempt wk cy job)) with (job_id job).
    rewrite Hid, lookup_insert_eq. by split.
Qed.

(** C36: The window between the claim and the removal.  If Redis fails there, the cycle
    raises with the job PROCESSING under an attempt that was counted but that nobody
    executes, and only the end of its lease brings the job back: whatever clients, other
    workers, schedulers, Redis and sweeps that read the clock before that do, it stays
    with the dead attempt; the first sweep after that with room for the table releases
    it, for another attempt or, if it was the third, as FAILED. *)
Theorem redis_failure_after_claim_wastes_the_attempt wk (cycles : nat → Cycle DB R) (s : Sys DB R)
    q id prio seq job
    (cy := cycles 0%nat) (a := claimed_attempt wk cy job)
    (deadline := lease_deadline (wk_default_lease wk) (cy_now cy) (Some (wk_lease wk)))
    (Hs : reachable s) (Hcalm : calm cy) (Hrem : cy_remove cy ≠ no_fault)
    (Hr : represents (sys_redis s) q) (Hq : q !! id = Some (prio, seq))
    (Hbest : ∀ id' e, q !! id' = Some e → id' ≠ id → served_before (prio, seq) e)
    (Hj : jobs_table (sys_db s) !! id = Some job) (Hp : status job = PENDING)
    (Hw : varchar_ok 128 (wk_id wk) = true) :
  ∃ db' r' m job', run_once py_str exn_repr wk cycles (sys_db s, sys_redis s) =
      (db', r', Err (RedisError m)) ∧
    jobs_table db' = <[id := job']> (jobs_table (sys_db s)) ∧ status job' = PROCESSING ∧
    attempt_of job' = Ok a ∧ at_attempt_count a = attempt_count job + 1 ∧
    ∀ s', rtc (unattended a deadline) (mk_sys db' r' ({[cy_token cy]} ∪ minted s)) s' →
      (∃ row, jobs_table (sys_db s') !! id = Some row ∧ status row = PROCESSING ∧
         attempt_of row = Ok a) ∧
      ∀ now n, deadline < now → (base.size (jobs_table (sys_db s')) < n)%nat →
        ∃ db2 rs row, run_session (recover_expired_leases now ∅ n) (sys_db s') = (db2, Ok rs) ∧
          jobs_table db2 !! id = Some row ∧ unowned row ∧
          status row = (if decide (at_attempt_count a < 3) then SCHEDULED else FAILED).
Proof using PostgresLaws0 RedisLaws0.
  pose proof (reachable_wf s Hs id job Hj) as Hjwf. pose proof (wf_max _ Hjwf) as Hmax.
  pose proof (table_id _ _ _ Hj) as Hid.
  assert (claimable job = true) as Hc.
  { pose proof (wf_runnable _ Hjwf (or_introl Hp)). unfold claimable.
    rewrite bool_decide_true by done. apply Z.ltb_lt. lia. }
  destruct (run_candidate_claimed py_str exn_repr wk cy (sys_db s) (sys_redis s) q id prio seq job)
    as (db' & Ht & Hrun); [done..|].
  assert (∃ r' m, run_once py_str exn_repr wk cycles (sys_db s, sys_redis s) =
    (db', r', Err (RedisError m))) as (r' & m & Hce).
  { unfold run_once, MAX_CANDIDATES_PER_CYCLE. cbn [run_candidates]. fold cy. rewrite Hrun.
    destruct (cy_remove cy); [done|..]; by eexists _, _. }
  exists db', r', m, (claimed wk cy job). do 4 (split; [done|]). split; [done|]. intros s' Hh.
  destruct (claimed_and_left wk cy s id job db' r') as [Hwf Hhold]; [done..|].
  destruct (unattended_holding a (wk_default_lease wk) (Some (wk_lease wk)) (cy_now cy)
    (mk_sys db' r' ({[cy_token cy]} ∪ minted s)) s' Hh Hwf Hhold) as [Hwf' (row & Hrow & Hat & Hst & Hlease)].
  rewrite <-Hid. split; [by exists row|]. intros now n Hnow Hn.
  destruct (sweep_takes now n (sys_db s') (job_id job) row) as (db2 & rs & Hsw & Hrow2 & _);
    [done..| |done|].
  { unfold expired. rewrite Hlease. by apply Z.ltb_lt. }
  eexists db2, rs, _. split; [exact Hsw|]. split; [exact Hrow2|]. split; [apply settled_unowned|].
  apply attempt_of_spec in Hat as (_ & _ & _ & Hcnt & Hm). unfold settled, failed_values.
  change (at_max_attempts a) with (max_attempts job) in Hm. rewrite <-Hcnt, <-Hm, Hmax.
  case_decide as Hd; [rewrite (proj2 (Z.ltb_lt _ _) Hd); reflexivity|].
  apply Z.nlt_ge, Z.ltb_ge in Hd. rewrite Hd. reflexivity.
Qed.
End worker.

(** ** Witnesses *)

Definition demo_turn (stopped : bool) : Turn MemDB MemRedis :=
  {| tn_stopped := false; tn_cycles := λ _, demo_cycle no_fault stopped; tn_idle := λ w, w |}.

Lemma demo_turn_calm : calm_turn (demo_turn false).
Proof. split; [done|]. split; [|done]. intros k. split; [apply demo_calm|done]. Qed.

Definition one_job_queue : MemRedis := (enqueue 8 90 redis_empty).1.

Lemma one_job_represents : represents one_job_queue (a_enqueue 8 90 1 ∅).
Proof.
  destruct (enqueue_spec redis_empty ∅ 8 90) as (r1 & E1 & H1 & _);
    [by apply represents_empty|done|done|].
  unfold one_job_queue. rewrite E1. exact H1.
Qed.

Lemma shutdown_takes_no_more_work_witness :
  rtc (λ w w', ∃ t, t ∈ [demo_turn true] ∧ w' = tn_idle t w) (demo_email_db, demo_queue)
    (run_forever (λ _, "") (λ _, "") demo_worker [demo_turn true] (demo_email_db, demo_queue)).
Proof.
  apply shutdown_takes_no_more_work. intros t ->%list_elem_of_singleton. right. by right.
Defined.

(** Job 9 is PROCESSING: its entry is stale. *)
Definition stale_queue : MemRedis := (enqueue 9 100 one_job_queue).1.

Lemma stale_represents : represents stale_queue (a_enqueue 9 100 2 (a_enqueue 8 90 1 ∅)).
Proof.
  destruct (enqueue_spec one_job_queue (a_enqueue 8 90 1 ∅) 9 100) as (r1 & E1 & H1 & _);
    [exact one_job_represents|done|vm_compute; done|].
  unfold stale_queue. rewrite E1. exact H1.
Qed.

Definition stale_db : MemDB := mem_of {[ 8 := demo_email; 9 := demo_processing ]}.

Lemma stale_lookup id job :
  jobs_table stale_db !! id = Some job → job = demo_email ∨ job = demo_processing.
Proof.
  intros H. change (({[ 8 := demo_email; 9 := demo_processing ]} : table) !! id = Some job) in H.
  apply lookup_insert_Some in H as [[_ <-]|[_ H]]; [by left|].
  apply lookup_singleton_Some in H as [_ <-]. by right.
Qed.

Lemma polling_drains_the_queue_witness :
  ∃ db' r' job', run_forever (λ _, "") (λ _, "") demo_worker [demo_turn false; demo_turn false]
      (stale_db, stale_queue) = (db', r') ∧ represents r' ∅ ∧
    jobs_table db' !! 8 = Some job' ∧ attempt_count job' = 1 ∧
    jobs_table db' !! 9 = Some demo_processing.
Proof.
  destruct (polling_drains_the_queue (λ _, "") (λ _, "") demo_worker [demo_turn false; demo_turn false]
              stale_db stale_queue (a_enqueue 9 100 2 (a_enqueue 8 90 1 ∅)))
    as (db' & r' & Hrun & Hr' & Hdone & Hkept).
  - repeat constructor; apply demo_turn_calm.
  - vm_compute. lia.
  - exact stale_represents.
  - done.
  - intros id job _ [-> | ->]%stale_lookup Hc; [|done]. split; [done|]. split; [done|by eexists].
  - destruct (Hdone 8 demo_email)
      as (job' & Hj' & t & k & _ & h & _ & (_ & Hc & _)%ended_settled);
      [by eexists|vm_compute; done|done|].
    exists db', r', job'. split; [done|]. split; [done|]. split; [done|].
    split; [exact Hc|]. apply Hkept; [vm_compute; done|by right].
Defined.

Lemma submitted_job_is_executed_witness :
  ∃ db1 r1 job db2 r2 job',
    submit_job (demo_env 2000 11) no_fault demo_request None demo_db redis_empty =
      (db1, r1, Ok (job, true)) ∧
    run_forever (λ _, "") (λ _, "") demo_worker [demo_turn false] (db1, r1) = (db2, r2) ∧
    jobs_table db2 !! 11 = Some job' ∧ represents r2 ∅.
Proof.
  destruct (submitted_job_is_executed (λ _, "") (λ _, "") demo_worker [demo_turn false]
              (demo_env 2000 11) demo_request demo_db redis_empty ∅)
    as (db1 & r1 & job & db2 & r2 & job' & H1 & H2 & H3 & _ & H4 & _); try done.
  - by apply represents_empty.
  - intros id job [e He]. by rewrite lookup_empty in He.
  - constructor; [apply demo_turn_calm|constructor].
  - exists db1, r1, job, db2, r2, job'. split; [exact H1|]. split; [exact H2|].
    split; [exact H3|exact H4].
Defined.

Definition s_queued : Sys MemDB MemRedis := do_submit s_empty (demo_env 2000 11) no_fault demo_request None.
Definition queued_job : Job := default demo_pending (jobs_table (sys_db s_queued) !! 11).

Lemma queued_represents : represents (sys_redis s_queued) (a_enqueue 11 5 1 ∅).
Proof.
  destruct (enqueue_spec redis_empty ∅ 11 5) as (r1 & E1 & H1 & _);
    [by apply represents_empty|done|done|].
  assert (sys_redis s_queued = (enqueue 11 5 redis_empty).1) as -> by (vm_compute; reflexivity).
  rewrite E1. exact H1.
Qed.

(** Nothing happens until the lease is over; then a sweep schedules the job again. *)
Lemma redis_failure_after_claim_wastes_the_attempt_witness :
  ∃ db' r' m, run_once (λ _, "") (λ _, "") demo_worker (λ _, demo_cycle command_lost false)
      (sys_db s_queued, sys_redis s_queued) = (db', r', Err (RedisError m)) ∧
    ∃ db2 rs row, run_session (recover_expired_leases 70000000 ∅ 100) db' = (db2, Ok rs) ∧
      jobs_table db2 !! 11 = Some row ∧ status row = SCHEDULED.
Proof.
  destruct (redis_failure_after_claim_wastes_the_attempt (λ _, "") (λ _, "") demo_worker
              (λ _, demo_cycle command_lost false) s_queued (a_enqueue 11 5 1 ∅) 11 5 1 queued_job)
    as (db' & r' & m & job' & H1 & H2 & _ & _ & H3 & H4).
  - exists s_empty. split; [by split|]. apply rtc_once, do_submit_step, demo_alone.
  - apply demo_calm.
  - done.
  - exact queued_represents.
  - vm_compute. reflexivity.
  - intros id e He Hne. unfold a_enqueue in He.
    apply lookup_insert_Some in He as [[? _]|[_ He]]; [congruence|].
    by rewrite lookup_empty in He.
  - vm_compute. reflexivity.
  - vm_compute. reflexivity.
  - done.
  - exists db', r', m. split; [exact H1|].
    destruct (H4 _ (rtc_refl _ _)) as [_ Hsweep].
    destruct (Hsweep 70000000 100%nat) as (db2 & rs & row & Hrun & Hrow & _ & Hst).
    + vm_compute. reflexivity.
    + cbn [sys_db]. rewrite H2. apply Nat.ltb_lt. vm_compute. reflexivity.
    + exists db2, rs, row. split; [exact Hrun|]. split; [exact Hrow|]. exact Hst.
Defined.
