(* ===== verification/Validation.v ===== *)
(** * Validation: what an accepted request stores

    [PayloadBase] and its subclasses of [app/schemas/jobs.py] are data in [Schemas];
    pydantic, which validates a document against them, is an interface here, with the
    documented behaviour of [model_validate] and [model_dump(mode="json")] as its laws.
    What follows for the service: the payload a worker reads fits the handler of its
    type, so an accepted job can fail by its own bad luck only. *)

From S2P Require Import Prelude.
From S2P Require Import Text.
From S2P Require Import Errors.
From S2P Require Import Model.
From S2P Require Import Postgres.
From S2P Require Import MemDB.
From S2P Require Import Session.
From S2P Require Import RetryPolicy.
From S2P Require Import Config.
From S2P Require Import Ownership.
From S2P Require Import Redis.
From S2P Require Import ReadyQueue.
From S2P Require Import Schemas.
From S2P Require Import Submission.
From S2P Require Import Handlers.
From S2P Require Import Runner.
From S2P Require Import Worker.
From Stdlib Require Import QArith.

Local Open Scope Z_scope.

(** ** The interface of pydantic *)

Definition length_ok (d : FieldDecl) (n : nat) : bool :=
  match fd_min_length d with Some lo => lo <=? Z.of_nat n | None => true end &&
  match fd_max_length d with Some hi => Z.of_nat n <=? hi | None => true end.

(** [ReportFormat(text)]; [None] is its [ValueError]. *)
Definition reportformat_of_value (s : string) : option ReportFormat :=
  if decide (s = "pdf") then Some PDF else if decide (s = "csv") then Some CSV else None.

(** The JSON values of a declared field: its type, its length and [| None]. *)
Definition conforms (d : FieldDecl) (v : JSON) : bool :=
  match fd_type d, v with
  | _, JNull => fd_optional d
  | (FEmailStr | FHttpUrl | FStr), JStr s => length_ok d (str_len s)
  | FReportFormat, JStr s => bool_decide (is_Some (reportformat_of_value s))
  | FListAny, JArr l => length_ok d (length l)
  | _, _ => false
  end.

(** The types whose values pydantic keeps as they are; an address or a URL is replaced
    by its normal form. *)
Definition plain (t : FieldType) : bool :=
  match t with FStr | FReportFormat | FListAny => true | FEmailStr | FHttpUrl => false end.

(** [validates t s]: the address or URL validator accepts the text [s]. *)
Class TextValidators := { validates : FieldType → string → bool }.

(** A value that meets the declaration, for the types whose validators are foreign too. *)
Definition meets `{TextValidators} (d : FieldDecl) (v : JSON) : bool :=
  conforms d v &&
  match v with JStr s => plain (fd_type d) || validates (fd_type d) s | _ => true end.

(** The documents of a payload class: every required key, no other key than the
    declared ones, and every value given meets its declaration. *)
Definition fills `{TextValidators} (m : PayloadModel) (kvs : list (string * JSON)) : bool :=
  forallb (λ d, fd_optional d || bool_decide (fd_name d ∈ kvs.*1)) m &&
  forallb (λ kv, bool_decide (kv.1 ∈ fd_name <$> m)) kvs &&
  forallb (λ d, forallb (λ kv, negb (String.eqb kv.1 (fd_name d)) || meets d kv.2) kvs) m.

Lemma fills_spec `{TextValidators} m kvs :
  fills m kvs = true ↔
    (∀ d, d ∈ m → fd_optional d = false → fd_name d ∈ kvs.*1) ∧
    (∀ k, k ∈ kvs.*1 → k ∈ fd_name <$> m) ∧
    (∀ d x, d ∈ m → (fd_name d, x) ∈ kvs → meets d x = true).
Proof.
  unfold fills. rewrite !andb_true_iff, !forallb_forall. setoid_rewrite <-list_elem_of_In.
  split.
  - intros [[H1 H2] H3]. split; [|split].
    + intros d Hd Ho. specialize (H1 d Hd). rewrite Ho in H1. by apply bool_decide_eq_true in H1.
    + intros k (kv & -> & Hk)%list_elem_of_fmap. by apply H2, bool_decide_eq_true in Hk.
    + intros d x Hd Hx. specialize (H3 d Hd). rewrite forallb_forall in H3.
      apply list_elem_of_In, H3 in Hx. cbn in Hx. by rewrite String.eqb_refl in Hx.
  - intros (H1 & H2 & H3). split; [split|].
    + intros d Hd. destruct (fd_optional d) eqn:Ho; [done|]. by apply bool_decide_eq_true, H1.
    + intros kv Hk. by apply bool_decide_eq_true, H2, list_elem_of_fmap_2.
    + intros d Hd. apply forallb_forall. intros [k x] Hx%list_elem_of_In. cbn.
      destruct (String.eqb_spec k (fd_name d)) as [->|]; [by eapply H3|done].
Qed.

Class Pydantic := { model_validate : PayloadModel → JSON → result (list ErrorItem) JSON }.

Class PydanticLaws `{!TextValidators, !Pydantic} : Prop := {
  (** A validated model dumps every declared field, in order, with a value of its type. *)
  dump_fields m doc v : model_validate m doc = Ok v →
    ∃ kvs vals, doc = JObj kvs ∧ v = JObj (zip (fd_name <$> m) vals) ∧
      Forall2 (λ d x, conforms d x = true) m vals;
  (** A field without a default is required; [extra="forbid"] refuses any other key. *)
  required_fields m kvs v d : model_validate m (JObj kvs) = Ok v → d ∈ m →
    fd_optional d = false → fd_name d ∈ kvs.*1;
  extra_forbidden m kvs v k : model_validate m (JObj kvs) = Ok v → k ∈ kvs.*1 → k ∈ fd_name <$> m;
  (** What the document gives has to meet the declaration, and a plain value is kept. *)
  given_fields m kvs v d x : model_validate m (JObj kvs) = Ok v → NoDup kvs.*1 → d ∈ m →
    (fd_name d, x) ∈ kvs → meets d x = true ∧ (plain (fd_type d) = true → subscript v (fd_name d) = Ok x);
  (** Nothing else is refused, and a refusal has at least one error. *)
  accepted_fields m kvs : NoDup kvs.*1 → (∀ k, k ∈ kvs.*1 → k ∈ fd_name <$> m) →
    (∀ d, d ∈ m → fd_optional d = false → fd_name d ∈ kvs.*1) →
    (∀ d x, d ∈ m → (fd_name d, x) ∈ kvs → meets d x = true) →
    ∃ v, model_validate m (JObj kvs) = Ok v;
  some_error m doc es : model_validate m doc = Err es → es ≠ []
}.

(** ** Reading a dumped model *)

Lemma subscript_zip m vals d x i :
  NoDup (fd_name <$> m) → m !! i = Some d → vals !! i = Some x →
  subscript (JObj (zip (fd_name <$> m) vals)) (fd_name d) = Ok x.
Proof.
  unfold subscript. intros Hnd. revert vals i.
  induction m as [|d' m IH]; intros vals i Hd Hx; [done|].
  rewrite fmap_cons in Hnd |- *. apply NoDup_cons in Hnd as [Hn Hnd].
  destruct vals as [|x' vals]; [done|]. cbn [zip zip_with].
  destruct i as [|i]; cbn [lookup list_lookup] in Hd, Hx; simplify_eq.
  - by rewrite filter_cons_True.
  - rewrite filter_cons_False; [by eapply IH|]. cbn [fst]. intros Heq. apply Hn. rewrite Heq.
    apply list_elem_of_fmap_2. by eapply list_elem_of_lookup_2.
Qed.

Lemma payload_model_keys t : NoDup (fd_name <$> PAYLOAD_MODELS t).
Proof. destruct t; cbn; repeat constructor; set_solver. Qed.

Section validation.
Context {T : TextValidators} {P : Pydantic} {L : PydanticLaws}.

(** The value a stored payload has under a declared key. *)
Lemma stored_field self req i d :
  validate_payload_for_type model_validate self = Ok req →
  PAYLOAD_MODELS (req_type self) !! i = Some d →
  req_type req = req_type self ∧
  ∃ x, subscript (req_payload req) (fd_name d) = Ok x ∧ conforms d x = true.
Proof using L.
  unfold validate_payload_for_type.
  destruct (model_validate _ _) as [v|es] eqn:Hv; [|done]. intros [= <-] Hd. split; [done|].
  destruct (dump_fields _ _ _ Hv) as (kvs & vals & _ & -> & Hall). cbn [req_payload].
  destruct (Forall2_lookup_l _ _ _ _ _ Hall Hd) as (x & Hx & Hc). exists x. split; [|done].
  eapply subscript_zip; [apply payload_model_keys|done|done].
Qed.

Lemma conforms_text d x :
  conforms d x = true → fd_optional d = false → fd_type d ≠ FListAny → ∃ s, x = JStr s.
Proof using Type.
  unfold conforms. destruct (fd_type d), x; try done; try (by eexists); intros Ho; congruence.
Qed.

Lemma conforms_list d x :
  conforms d x = true → fd_optional d = false → fd_type d = FListAny →
  ∃ l, x = JArr l ∧ length_ok d (length l) = true.
Proof using Type.
  unfold conforms. destruct (fd_type d), x; try done; try (by eexists); intros Ho; congruence.
Qed.

(** What the handlers read of an accepted request. *)
Lemma accepted_url self req :
  validate_payload_for_type model_validate self = Ok req → req_type self = WEBHOOK →
  ∃ url, subscript (req_payload req) "url" = Ok (JStr url).
Proof using L.
  intros Ha Ht. destruct (stored_field self req 0 (field "url" FHttpUrl) Ha) as (_ & x & Hx & Hok);
    [by rewrite Ht|].
  destruct (conforms_text _ _ Hok eq_refl ltac:(done)) as [url ->]. by exists url.
Qed.

Lemma accepted_format self req :
  validate_payload_for_type model_validate self = Ok req → req_type self = REPORT →
  ∃ f, subscript (req_payload req) "format" = Ok (JStr (reportformat_value f)).
Proof using L.
  intros Ha Ht. destruct (stored_field self req 1 (field "format" FReportFormat) Ha)
    as (_ & x & Hx & Hok); [by rewrite Ht|].
  destruct (conforms_text _ _ Hok eq_refl ltac:(done)) as [s ->].
  cbn in Hok. apply bool_decide_eq_true in Hok as [f Hf]. unfold reportformat_of_value in Hf.
  repeat case_decide; simplify_eq; [by exists PDF|by exists CSV].
Qed.

Lemma accepted_items self req :
  validate_payload_for_type model_validate self = Ok req → req_type self = BATCH →
  ∃ items, subscript (req_payload req) "items" = Ok (JArr items) ∧ items ≠ [].
Proof using L.
  intros Ha Ht.
  destruct (stored_field self req 0 (bounded (field "items" FListAny) 1 None) Ha)
    as (_ & x & Hx & Hok); [by rewrite Ht|].
  destruct (conforms_list _ _ Hok eq_refl eq_refl) as (items & -> & Hlen).
  exists items. split; [done|]. intros ->. by vm_compute in Hlen.
Qed.

(** C29: The payload an accepted request stores fits the handler of its type, whatever its
    client sent: the keys the handler reads are there with a value of the right type,
    so it never ends in a KeyError or a TypeError.  An email, a report and a batch
    complete, the report at a URL with its format, the batch with every one of its
    items counted and reported; a webhook completes unless its delivery fails, and then
    it says so with its URL. *)
Theorem accepted_payload_fits_its_handler py_str self req c
    (Ha : validate_payload_for_type model_validate self = Ok req)
    (Hc : ctx_payload c = req_payload req) :
  let p := HANDLERS py_str (req_type self) c in
  match req_type self with
  | EMAIL => outcome p = Ok (JObj [("message_id", JStr ("msg_" +:+ ctx_hex c)); ("status", JStr "sent")])
  | REPORT => ∃ f, subscript (req_payload req) "format" = Ok (JStr (reportformat_value f)) ∧
      outcome p = Ok (JObj [("file_url", JStr (REPORT_BASE_URL +:+ "/" +:+
        show_uuid (ctx_job_id c) +:+ "." +:+ reportformat_value f))])
  | BATCH => ∃ items, subscript (req_payload req) "items" = Ok (JArr items) ∧ items ≠ [] ∧
      reports p = (λ k, (Z.of_nat k, Z.of_nat (length items))) <$> seq 1 (length items) ∧
      outcome p = Ok (JObj [("processed", JNum (Z.of_nat (length items)) 0); ("failed", JNum 0 0);
                            ("total", JNum (Z.of_nat (length items)) 0)])
  | WEBHOOK => ∃ url, subscript (req_payload req) "url" = Ok (JStr url) ∧
      outcome p = if Qle_bool WEBHOOK_SUCCESS_RATE (ctx_random c 1)
        then Err (JobExecutionError ("webhook delivery to " +:+ url +:+ " failed with status 503"))
        else Ok (JObj [("status_code", JNum 200 0); ("delivered", JBool true)])
  end.
Proof using L.
  intros p. subst p. destruct (req_type self) eqn:Ht; cbn [HANDLERS].
  - done.
  - destruct (accepted_url self req Ha Ht) as [url Hu]. exists url. split; [done|].
    unfold handle_webhook. cbn [outcome]. destruct (Qle_bool _ _); [|done]. by rewrite Hc, Hu.
  - destruct (accepted_format self req Ha Ht) as [f Hf]. exists f. split; [done|].
    unfold handle_report. cbn [outcome]. by rewrite Hc, Hf.
  - destruct (accepted_items self req Ha Ht) as (items & Hi & Hne). exists items.
    do 2 (split; [done|]). unfold handle_batch. rewrite Hc, Hi. cbn [json_len].
    destruct (batch_loop_spec (length items) 0 (Z.of_nat (length items))) as [-> ->].
    split; [|by rewrite Z.add_0_l]. apply list_fmap_ext. intros _ k _. by rewrite Z.add_0_l.
Qed.

(** How a job of an accepted request can end: a result, or a webhook's failed delivery. *)
Definition ends_well (t : JobType) (payload : JSON) (o : result exn JSON) : Prop :=
  (∃ v, o = Ok v) ∨
  t = WEBHOOK ∧ ∃ url, subscript payload "url" = Ok (JStr url) ∧
    o = Err (JobExecutionError ("webhook delivery to " +:+ url +:+ " failed with status 503")).

Lemma accepted_ends_well py_str self req c :
  validate_payload_for_type model_validate self = Ok req → ctx_payload c = req_payload req →
  ends_well (req_type self) (req_payload req) (outcome (HANDLERS py_str (req_type self) c)).
Proof using L.
  intros Ha Hc. unfold ends_well. destruct (req_type self) eqn:Ht; cbn [HANDLERS].
  - left. by eexists.
  - destruct (accepted_url self req Ha Ht) as [url Hu]. unfold handle_webhook. cbn [outcome].
    destruct (Qle_bool _ _); [|left; by eexists]. right. split; [done|]. exists url.
    by rewrite Hc, Hu.
  - destruct (accepted_format self req Ha Ht) as [f Hf]. left. unfold handle_report. cbn [outcome].
    rewrite Hc, Hf. by eexists.
  - destruct (accepted_items self req Ha Ht) as (items & Hi & _). left. unfold handle_batch.
    rewrite Hc, Hi. cbn [json_len].
    destruct (batch_loop_spec (length items) 0 (Z.of_nat (length items))) as [_ ->]. by eexists.
Qed.

(** A payload is accepted exactly if it is a document of the class of its type: a
    required key left out, a key the type does not have, or a value that does not
    meet its declaration (an empty subject, a report in a format there is not, a batch
    of no items, a text the address or URL validator rejects) is refused, before
    anything is stored, by a ValueError that names the type and at least one error.
    An accepted payload is stored in canonical form: the keys of its class, all of
    them, in order, with the plain values it was given. *)
Theorem accepts_exactly_the_documents_of_a_type self kvs
    (Hp : req_payload self = JObj kvs) (Hnd : NoDup kvs.*1) :
  match validate_payload_for_type model_validate self with
  | Ok req => fills (PAYLOAD_MODELS (req_type self)) kvs = true ∧ req_type req = req_type self ∧
      req_priority req = req_priority self ∧ req_scheduled_at req = req_scheduled_at self ∧
      (∃ stored, req_payload req = JObj stored ∧ stored.*1 = fd_name <$> PAYLOAD_MODELS (req_type self)) ∧
      (∀ d x, d ∈ PAYLOAD_MODELS (req_type self) → (fd_name d, x) ∈ kvs → plain (fd_type d) = true →
         subscript (req_payload req) (fd_name d) = Ok x)
  | Err e => fills (PAYLOAD_MODELS (req_type self)) kvs = false ∧
      ∃ item items, e = ValueError ("invalid payload for job type '" +:+
        jobtype_value (req_type self) +:+ "': " +:+ format_payload_errors (item :: items))
  end.
Proof using L.
  unfold validate_payload_for_type. rewrite Hp. set (m := PAYLOAD_MODELS (req_type self)).
  destruct (model_validate m (JObj kvs)) as [v|es] eqn:Hv.
  - split; [|do 3 (split; [done|]); split].
    + apply fills_spec. split; [|split].
      * intros d Hd Ho. by eapply required_fields.
      * intros k Hk. by eapply extra_forbidden.
      * intros d x Hd Hx. by destruct (given_fields _ _ _ _ _ Hv Hnd Hd Hx).
    + destruct (dump_fields _ _ _ Hv) as (_ & vals & _ & -> & Hall). eexists. split; [done|].
      apply fst_zip. rewrite length_fmap. by rewrite (Forall2_length _ _ _ Hall).
    + intros d x Hd Hx Hpl. destruct (given_fields _ _ _ _ _ Hv Hnd Hd Hx) as [_ Hk]. by apply Hk.
  - split.
    + apply not_true_is_false. intros (H1 & H2 & H3)%fills_spec.
      destruct (accepted_fields m kvs Hnd H2 H1 H3) as [v Hv']. congruence.
    + destruct es as [|item items]; [by apply some_error in Hv|]. by exists item, items.
Qed.

Section execution.
Context {DB : Type} `{!Postgres DB, !PostgresLaws DB} {R : Type} `{!Redis R, !RedisLaws R}.
Context (py_str : JSON → string) (exn_repr : exn → string).
Implicit Types (db : DB) (r : R).

(** C14: From the request's body to the job's end: a job submitted to run at once with a
    payload that validation accepts is stored as validation left it, queued, run by a
    polling worker within as many turns as the queue has entries, and COMPLETED at
    its first attempt, unless it is a webhook whose delivery failed: that one waits
    thirty seconds for its second attempt, with the delivery's error.  It never fails
    for what its payload says. *)
Theorem accepted_request_reaches_its_result wk turns env self req db r q
    (Ha : validate_payload_for_type model_validate self = Ok req)
    (Hreq : request_fields_ok self = true) (Hnow : req_scheduled_at self = None)
    (Hn : countable (req_payload req))
    (Halone : alone env) (Hclock : now_find env ≤ now_release env)
    (Hnew : jobs_table db !! new_id env = None) (Hid : uuid_ok (new_id env))
    (Hr : represents r q) (Hseq : counter r SEQUENCE_KEY + 1 < SEQ_BOUND)
    (Hready : ready_to_run py_str (jobs_table db) q)
    (Hcalm : Forall calm_turn turns) (Hlen : (S (base.size q) ≤ length turns)%nat)
    (Hw : varchar_ok 128 (wk_id wk) = true) :
  ∃ db1 r1 job db2 r2 job', submit_job env no_fault req None db r = (db1, r1, Ok (job, true)) ∧
    payload job = req_payload req ∧ run_forever py_str exn_repr wk turns (db1, r1) = (db2, r2) ∧
    jobs_table db2 !! new_id env = Some job' ∧ attempt_count job' = 1 ∧
    (status job' = COMPLETED ∧ is_Some (job_result job') ∧ job_error job' = None ∨
     req_type self = WEBHOOK ∧ status job' = SCHEDULED ∧
       ∃ url t k, subscript (req_payload req) "url" = Ok (JStr url) ∧ t ∈ turns ∧
         job_error job' = Some ("webhook delivery to " +:+ url +:+ " failed with status 503") ∧
         scheduled_at job' = Some (cy_settle_now (tn_cycles t k) + seconds 30)).
Proof using L PostgresLaws0 RedisLaws0.
  assert (request_fields_ok req = true ∧ req_scheduled_at req = None ∧ req_type req = req_type self)
    as (Hreq' & Hnow' & Hty).
  { unfold validate_payload_for_type in Ha. destruct (model_validate _ _); [|done].
    by injection Ha as <-. }
  destruct (submitted_job_is_executed py_str exn_repr wk turns env req db r q)
    as (db1 & r1 & job & db2 & r2 & job' & Hsub & Hrun & Hj' & Hran & _ & Hpay & Hjt & Hac & Hma);
    [done..|].
  exists db1, r1, job, db2, r2, job'. do 4 (split; [done|]).
  destruct Hran as (t & k & Htin & h & Hh & (_ & Hcnt & Hset)%ended_settled).
  rewrite Hjt, Hty in Hh. unfold get_handler in Hh. rewrite jobtype_value_roundtrip in Hh.
  injection Hh as <-.
  set (c := job_context _ _ _ _ _) in Hset.
  assert (attempt_count (claimed wk (tn_cycles t k) job) = 1) as Hc1 by (unfold claimed; cbn; lia).
  assert (max_attempts (claimed wk (tn_cycles t k) job) = 3) as Hm3 by done.
  split; [by rewrite Hcnt|].
  destruct (accepted_ends_well py_str self req c Ha Hpay) as [[v Ho]|(Hweb & url & Hurl & Ho)];
    rewrite Ho in Hset.
  - left. destruct Hset as (? & -> & _ & ? & _). split; [done|]. by split; [eexists|].
  - right. split; [done|]. rewrite Hc1, Hm3 in Hset. destruct Hset as (He & Hst & Hsch).
    split; [done|]. exists url, t, k. split; [done|]. split; [done|]. split; [exact He|exact Hsch].
Qed.
End execution.
End validation.

(** ** Witnesses: a validator that keeps every text *)

#[export] Instance demo_texts : TextValidators := {| validates _ s := negb (String.eqb s "not-a-url") |}.

Definition given (kvs : list (string * JSON)) (key : string) : JSON :=
  match filter (λ kv, kv.1 = key) kvs with (_, x) :: _ => x | [] => JNull end.

#[export] Instance demo_pydantic : Pydantic := {|
  model_validate m doc :=
    match doc with
    | JObj kvs =>
        if bool_decide (NoDup kvs.*1) && fills m kvs
        then Ok (JObj (zip (fd_name <$> m) ((λ d, given kvs (fd_name d)) <$> m)))
        else Err [{| ei_loc := []; ei_msg := "invalid" |}]
    | _ => Err [{| ei_loc := []; ei_msg := "Input should be a valid dictionary" |}]
    end
|}.

Lemma given_in kvs key x : NoDup kvs.*1 → (key, x) ∈ kvs → given kvs key = x.
Proof.
  unfold given. induction kvs as [|[k y] kvs IH]; intros Hnd Hx; [by apply not_elem_of_nil in Hx|].
  rewrite fmap_cons in Hnd. apply NoDup_cons in Hnd as [Hn Hnd].
  apply elem_of_cons in Hx as [[= <- <-]|Hx]; [by rewrite filter_cons_True|].
  rewrite filter_cons_False; [by apply IH|]. cbn. intros ->. apply Hn.
  apply list_elem_of_fmap. by exists (key, x).
Qed.

Lemma given_missing kvs key : key ∉ kvs.*1 → given kvs key = JNull.
Proof.
  intros Hn. unfold given. rewrite filter_none; [done|]. intros kv Hkv <-. apply Hn.
  by apply list_elem_of_fmap_2.
Qed.

Lemma dumped_field (g : string → JSON) m d :
  d ∈ m → subscript (JObj (zip (fd_name <$> m) ((λ d, g (fd_name d)) <$> m))) (fd_name d) =
          Ok (g (fd_name d)).
Proof.
  unfold subscript. induction m as [|d' m IH]; intros Hd; [by apply not_elem_of_nil in Hd|].
  rewrite !fmap_cons. cbn [zip zip_with].
  destruct (decide (fd_name d' = fd_name d)) as [Heq|Hne].
  - rewrite filter_cons_True by done. by rewrite Heq.
  - rewrite filter_cons_False by done. apply IH.
    apply elem_of_cons in Hd as [->|?]; [done|done].
Qed.

#[export] Instance demo_pydantic_laws : PydanticLaws.
Proof.
  assert (∀ m kvs v, model_validate m (JObj kvs) = Ok v → NoDup kvs.*1 ∧ fills m kvs = true ∧
    v = JObj (zip (fd_name <$> m) ((λ d, given kvs (fd_name d)) <$> m))) as Hok.
  { intros m kvs v. cbn. destruct (bool_decide (NoDup kvs.*1) && fills m kvs) eqn:E; [|done].
    apply andb_prop in E as [Hnd Hf]. apply bool_decide_eq_true in Hnd. by intros [= <-]. }
  split.
  - intros m doc v Hv. destruct doc as [| | | | |kvs]; try done. apply Hok in Hv as (Hnd & Hf & ->).
    apply fills_spec in Hf as (Hreq & _ & Hmeet). eexists _, _. do 2 (split; [done|]).
    apply Forall2_fmap_r, Forall_Forall2_diag, Forall_forall. intros d Hd.
    change (conforms d (given kvs (fd_name d)) = true).
    destruct (decide (fd_name d ∈ kvs.*1)) as [Hin|Hin].
    + apply list_elem_of_fmap in Hin as ([k x] & Hk & Hx). cbn in Hk. subst k.
      rewrite (given_in kvs _ x) by done. by apply (Hmeet d x Hd) in Hx as [? _]%andb_prop.
    + rewrite given_missing by done. destruct (fd_optional d) eqn:Ho; [|by destruct Hin; apply Hreq].
      unfold conforms. by destruct (fd_type d).
  - intros m kvs v d (_ & Hf & _)%Hok. apply fills_spec in Hf as (? & _). auto.
  - intros m kvs v k (_ & Hf & _)%Hok. apply fills_spec in Hf as (_ & ? & _). auto.
  - intros m kvs v d x (_ & Hf & ->)%Hok Hnd Hd Hx. apply fills_spec in Hf as (_ & _ & Hm).
    split; [by apply Hm|]. intros _. rewrite dumped_field by done. by rewrite (given_in kvs _ x).
  - intros m kvs Hnd Hk Hr Hm. cbn. rewrite bool_decide_true by done.
    assert (fills m kvs = true) as -> by (by apply fills_spec). by eexists.
  - intros m doc es. cbn. destruct doc; try by intros [= <-]. by destruct (_ && _); intros [= <-].
Qed.

Definition email_body : list (string * JSON) :=
  [("subject", JStr "Hi"); ("to", JStr "user@example.com")].
Definition email_request (kvs : list (string * JSON)) : JobCreateRequest :=
  {| req_type := EMAIL; req_payload := JObj kvs; req_priority := 5; req_scheduled_at := None |}.
Definition email_stored : JobCreateRequest :=
  email_request [("to", JStr "user@example.com"); ("subject", JStr "Hi"); ("body", JNull)].

Lemma email_accepted :
  validate_payload_for_type model_validate (email_request email_body) = Ok email_stored.
Proof. vm_compute. reflexivity. Qed.

(** [test_payload_is_stored_in_canonical_form] and an unknown field. *)
Lemma accepts_exactly_the_documents_of_a_type_witness :
  subscript (req_payload email_stored) "subject" = Ok (JStr "Hi") ∧
  fills EmailPayload (("unexpected", JNull) :: email_body) = false.
Proof.
  assert (NoDup (("unexpected", JNull) :: email_body).*1) as Hnd
    by (cbn; repeat constructor; rewrite ?elem_of_cons, ?elem_of_nil; naive_solver).
  split.
  - pose proof (accepts_exactly_the_documents_of_a_type (email_request email_body) email_body
      eq_refl (NoDup_cons_1_2 _ _ Hnd)) as H.
    rewrite email_accepted in H. destruct H as (_ & _ & _ & _ & _ & H).
    apply (H (bounded (field "subject" FStr) 1 (Some 255)));
      [apply list_elem_of_In; cbn; auto|apply list_elem_of_In; cbn; auto|done].
  - pose proof (accepts_exactly_the_documents_of_a_type
      (email_request (("unexpected", JNull) :: email_body)) _ eq_refl Hnd) as H.
    destruct (validate_payload_for_type _ _) eqn:E; [vm_compute in E; discriminate|].
    destruct H as [H _]. exact H.
Defined.

Definition email_context : JobContext :=
  {| ctx_job_id := 8; ctx_job_type := "email"; ctx_payload := req_payload email_stored;
     ctx_attempt := 1; ctx_worker_id := "w1"; ctx_execution_token := Some 5;
     ctx_random := λ _, 0%Q; ctx_hex := "0" |}.

Lemma accepted_payload_fits_its_handler_witness :
  outcome (HANDLERS (λ _, "") EMAIL email_context) =
  Ok (JObj [("message_id", JStr "msg_0"); ("status", JStr "sent")]).
Proof.
  exact (accepted_payload_fits_its_handler (λ _, "") (email_request email_body) email_stored
    email_context email_accepted eq_refl).
Defined.

Lemma accepted_request_reaches_its_result_witness :
  ∃ db2 r2 job', jobs_table db2 !! 11 = Some job' ∧ status job' = COMPLETED ∧
    run_forever (λ _, "") (λ _, "") demo_worker [demo_turn false]
      (submit_job (demo_env 2000 11) no_fault email_stored None demo_db redis_empty).1 = (db2, r2).
Proof.
  destruct (accepted_request_reaches_its_result (λ _, "") (λ _, "") demo_worker [demo_turn false]
              (demo_env 2000 11) (email_request email_body) email_stored demo_db redis_empty ∅
              email_accepted)
    as (db1 & r1 & job & db2 & r2 & job' & H1 & _ & H2 & H3 & _ & [[H4 _]|[H4 _]]); try done.
  - by apply represents_empty.
  - intros id job [e He]. by rewrite lookup_empty in He.
  - constructor; [apply demo_turn_calm|constructor].
  - exists db2, r2, job'. split; [exact H3|]. split; [exact H4|]. by rewrite H1.
Defined.
