(* ===== verification/Process.v ===== *)
(** * Process: one worker process, await by await

    [worker/main.py], [identity.py] and the three loops it gathers, as a machine.
    A control state names the call a coroutine is waiting for.  A step performs that
    call and runs the coroutine on to its next await; between two steps anything may
    happen, in this process (its other coroutines, a signal) or in another.  An
    [Answer] holds what the code does not decide: the clock, generated ids, random
    draws, locked rows, and whether the call reaches its server or loses its reply.
    A session whose connection broke may refuse its next statement: that statement
    is a lost command. *)

From S2P Require Import Prelude.
From S2P Require Import Text.
From S2P Require Import Errors.
From S2P Require Import Model.
From S2P Require Import Postgres.
From S2P Require Import MemDB.
From S2P Require Import Session.
From S2P Require Import RetryPolicy.
From S2P Require Import Config.
From S2P Require Import Ownership.
From S2P Require Import Redis.
From S2P Require Import ReadyQueue.
From S2P Require Import Fencing.
From S2P Require Import Handlers.
From S2P Require Import Heartbeat.
From S2P Require Import Runner.
From Stdlib Require Import QArith.

Local Open Scope Z_scope.

(** [build_worker_id]: [uuid4().hex] is the UUID's text without its dashes. *)
Definition build_worker_id (hostname : string) (pid : Z) (hex : string) : string :=
  hostname +:+ "-" +:+ show_int pid +:+ "-" +:+ String.substring 0 6 hex.

(** ** Control states *)

(** What [_execute] is about to write for the attempt it ran. *)
Inductive Verdict :=
  | Succeeded (result : JSON)
  | FailedWith (error : string).

(** Where [JobRunner.run_forever] waits; [k] passes of the candidate loop are left. *)
Inductive RunnerPc :=
  | R_peek (k : nat)
  | R_claim (k : nat) (c : QueueCandidate)
  | R_lookup (k : nat) (c : QueueCandidate)
  | R_discard (k : nat) (c : QueueCandidate)
  | R_remove (job : Job) (c : QueueCandidate)
  | R_handler (job : Job) (a : Attempt) (p : prog)
  (** [LeaseHeartbeat.__aexit__], with the handler's outcome. *)
  | R_exit (job : Job) (a : Attempt) (outcome : result exn JSON)
  | R_settle (a : Attempt) (v : Verdict)
  | R_sleep
  | R_stopped.

(** The heartbeat's task; [H_none] when no [LeaseHeartbeat] is entered. *)
Inductive HeartPc := H_none | H_waiting | H_beating | H_ended.

Record Heart := mk_heart { h_pc : HeartPc; h_stop : bool; h_lost : bool }.
Definition no_heart : Heart := mk_heart H_none false false.
(** [__aenter__] *)
Definition heart_enter : Heart := mk_heart H_waiting false false.
(** [__aexit__] sets the stop event before it waits. *)
Definition heart_exit (h : Heart) : Heart := mk_heart (h_pc h) true (h_lost h).

Inductive SchedulerPc :=
  | S_activate
  | S_enqueue (job : Job) (rest : list Job)
  | S_sleep
  | S_stopped.

Inductive RecoveryPc := V_recover | V_sleep | V_stopped.

(** [run]: inside [gather], then the [finally] block. *)
Inductive MainPc := M_gather | M_close_redis | M_dispose_engine | M_exited.

Record Process := mk_process {
  pr_wk : WorkerConfig;
  pr_activation_batch : nat;
  pr_recovery_batch : nat;
  pr_stop : bool;
  pr_runner : RunnerPc;
  pr_heart : Heart;
  pr_scheduler : SchedulerPc;
  pr_recovery : RecoveryPc;
  pr_main : MainPc;
  pr_redis_open : bool;
  pr_engine_open : bool
}.

Record Answer := {
  an_fault : fault;
  an_now : Z;
  an_token : uuid;
  an_random : nat → Q;
  an_hex : string;
  an_locked : gset uuid
}.

(** ** Where a coroutine goes on: the code between two awaits *)

(** The head of [run_once]'s loop with [k] passes left. *)
Definition next_candidate (stop : bool) (k : nat) : RunnerPc :=
  match k with
  | O => R_sleep
  | S k => if stop then R_sleep else R_peek k
  end.

(** The head of [run_forever]'s loop. *)
Definition next_cycle (stop : bool) : RunnerPc :=
  if stop then R_stopped else next_candidate stop MAX_CANDIDATES_PER_CYCLE.

Definition next_enqueue (jobs : list Job) : SchedulerPc :=
  match jobs with [] => S_sleep | job :: rest => S_enqueue job rest end.

Section process.
Context {DB : Type} `{!Postgres DB} {R : Type} `{!Redis R}.
Variable py_str : JSON → string.
Variable exn_repr : exn → string.

(** [report]: the percentage is computed before the session is used. *)
Definition report_call (f : fault) (a : Attempt) (processed total : Z) (db : DB)
    : DB * result exn unit :=
  match percentage processed total with
  | None => report_progress a processed total db
  | Some _ => db_call f (report_progress a processed total) db
  end.

(** [_execute] up to its first await. *)
Definition start_execution (wk : WorkerConfig) (an : Answer) (job : Job) (a : Attempt)
    : RunnerPc * Heart :=
  match get_handler py_str (job_type job) with
  | None => (R_settle a (FailedWith
               ("no handler registered for job type '" +:+ job_type job +:+ "'")), no_heart)
  | Some handler =>
      (R_handler job a (handler (job_context wk (an_random an) (an_hex an) job a)), heart_enter)
  end.

(** [_execute]'s [except] and [else] clauses; an abandoned attempt still counts as a
    job executed. *)
Definition after_handler (stop : bool) (a : Attempt) (outcome : result exn JSON) : RunnerPc :=
  match outcome with
  | Err (OwnershipLostError _ _ _) => next_cycle stop
  | Err (JobExecutionError m) => R_settle a (FailedWith m)
  | Err e => R_settle a (FailedWith ("unexpected error: " +:+ exn_repr e))
  | Ok res => R_settle a (Succeeded res)
  end.

Definition settle (now : Z) (a : Attempt) (v : Verdict) : DB → DB * result exn unit :=
  match v with
  | Succeeded res => settle_success now a res
  | FailedWith m => settle_failure now a m
  end.

(** The runner's coroutine.  An exception of a cycle goes to [run_forever], which logs it
    and waits; [None] is a coroutine that is blocked or has returned. *)
Definition runner_step (wk : WorkerConfig) (an : Answer) (stop : bool) (h : Heart)
    (pc : RunnerPc) (db : DB) (r : R) : option (RunnerPc * Heart * DB * R) :=
  match pc with
  | R_peek k =>
      match call (an_fault an) (λ r, (r, peek r)) r with
      | (r, Ok (Some c)) => Some (if stop then R_sleep else R_claim k c, h, db, r)
      | (r, _) => Some (R_sleep, h, db, r)
      end
  | R_claim k c =>
      match db_call (an_fault an) (run_session (claim_job (wk_default_lease wk) (an_now an)
              (an_token an) (qc_job_id c) (wk_id wk) (Some (wk_lease wk)))) db with
      | (db, Err _) => Some (R_sleep, h, db, r)
      | (db, Ok None) => Some (R_lookup k c, h, db, r)
      | (db, Ok (Some job)) => Some (R_remove job c, h, db, r)
      end
  | R_lookup k c =>
      match db_call (an_fault an) (run_session (get_job (qc_job_id c))) db with
      | (db, Err _) => Some (R_sleep, h, db, r)
      | (db, Ok job) =>
          Some (if still_claimable job then next_candidate stop k else R_discard k c, h, db, r)
      end
  | R_discard k c =>
      match call (an_fault an) (remove c) r with
      | (r, Err _) => Some (R_sleep, h, db, r)
      | (r, Ok _) => Some (next_candidate stop k, h, db, r)
      end
  | R_remove job c =>
      match call (an_fault an) (remove c) r with
      | (r, Err _) => Some (R_sleep, h, db, r)
      | (r, Ok _) =>
          match attempt_of job with
          | Err _ => Some (R_sleep, h, db, r)
          | Ok a => let '(pc, h) := start_execution wk an job a in Some (pc, h, db, r)
          end
      end
  | R_handler job a p =>
      match p with
      | Done res => Some (R_exit job a res, heart_exit h, db, r)
      | Sleep _ p => Some (R_handler job a p, h, db, r)
      | Report processed total p =>
          match report_call (an_fault an) a processed total db with
          | (db, Ok _) => Some (R_handler job a p, h, db, r)
          | (db, Err e) => Some (R_handler job a (Done (Err e)), h, db, r)
          end
      end
  | R_exit job a res =>
      match h_pc h with
      | H_ended => Some (after_handler stop a res, no_heart, db, r)
      | _ => None
      end
  | R_settle a v =>
      match db_call (an_fault an) (settle (an_now an) a v) db with
      | (db, Ok _) => Some (next_cycle stop, h, db, r)
      | (db, Err _) => Some (R_sleep, h, db, r)
      end
  | R_sleep => Some (next_cycle stop, h, db, r)
  | R_stopped => None
  end.

(** [_run_handler]'s other branch: the loss was signalled while the handler is not done. *)
Definition abandon_step (stop : bool) (h : Heart) (pc : RunnerPc) : option (RunnerPc * Heart) :=
  match pc with
  | R_handler _ _ (Done _) => None
  | R_handler _ _ _ => if h_lost h then Some (next_cycle stop, no_heart) else None
  | _ => None
  end.

(** [wait_for]'s timeout in [__aexit__]: the beat in flight is cancelled. *)
Definition timeout_step (h : Heart) (pc : RunnerPc) : option Heart :=
  match pc, h_pc h with
  | R_exit _ _ _, H_beating => Some (mk_heart H_ended (h_stop h) (h_lost h))
  | _, _ => None
  end.

(** The attempt a heartbeat runs for. *)
Definition beating_for (pc : RunnerPc) : option Attempt :=
  match pc with R_handler _ a _ | R_exit _ a _ => Some a | _ => None end.

(** [LeaseHeartbeat._run] *)
Definition heart_step (wk : WorkerConfig) (an : Answer) (a : Attempt) (h : Heart) (db : DB)
    : option (Heart * DB) :=
  match h_pc h with
  | H_waiting => Some (mk_heart (if h_stop h then H_ended else H_beating) (h_stop h) (h_lost h), db)
  | H_beating =>
      match beat (wk_default_lease wk) (Some (wk_lease wk)) a (an_now an) (an_fault an) db with
      | (db, lost, go_on) =>
          Some (mk_heart (if go_on && negb (h_stop h) then H_waiting else H_ended)
                  (h_stop h) (lost || h_lost h), db)
      end
  | _ => None
  end.

(** [JobScheduler.run_once] under [run_until_stopped] *)
Definition scheduler_step (batch : nat) (an : Answer) (stop : bool) (pc : SchedulerPc)
    (db : DB) (r : R) : option (SchedulerPc * DB * R) :=
  match pc with
  | S_activate =>
      match db_call (an_fault an)
              (run_session (activate_due_scheduled_jobs (an_now an) (an_locked an) batch)) db with
      | (db, Err _) => Some (S_sleep, db, r)
      | (db, Ok activated) => Some (next_enqueue activated, db, r)
      end
  | S_enqueue job rest =>
      let '(r, _) := call (an_fault an) (enqueue (job_id job) (priority job)) r in
      Some (next_enqueue rest, db, r)
  | S_sleep => Some (if stop then S_stopped else S_activate, db, r)
  | S_stopped => None
  end.

(** [LeaseRecovery.run_once] under [run_until_stopped] *)
Definition recovery_step (batch : nat) (an : Answer) (stop : bool) (pc : RecoveryPc) (db : DB)
    : option (RecoveryPc * DB) :=
  match pc with
  | V_recover =>
      let '(db, _) := db_call (an_fault an)
        (run_session (recover_expired_leases (an_now an) (an_locked an) batch)) db in
      Some (V_sleep, db)
  | V_sleep => Some (if stop then V_stopped else V_recover, db)
  | V_stopped => None
  end.

(** [gather] ends when its three coroutines have returned; a [close_redis] that raises
    leaves the [finally] block, and the process, without [dispose_engine]. *)
Definition main_step (an : Answer) (p : Process) : option (MainPc * bool * bool) :=
  match pr_main p with
  | M_gather =>
      match pr_runner p, pr_scheduler p, pr_recovery p with
      | R_stopped, S_stopped, V_stopped => Some (M_close_redis, pr_redis_open p, pr_engine_open p)
      | _, _, _ => None
      end
  | M_close_redis =>
      match an_fault an with
      | no_fault => Some (M_dispose_engine, false, pr_engine_open p)
      | _ => Some (M_exited, false, pr_engine_open p)
      end
  | M_dispose_engine => Some (M_exited, pr_redis_open p, false)
  | M_exited => None
  end.

(** ** The process *)

(** Which coroutine goes on. *)
Inductive Actor := A_runner | A_abandon | A_heart | A_timeout | A_scheduler | A_recovery | A_main.
#[export] Instance actor_eq_dec : EqDecision Actor.
Proof. solve_decision. Defined.

Definition set_runner (p : Process) (pc : RunnerPc) (h : Heart) : Process :=
  mk_process (pr_wk p) (pr_activation_batch p) (pr_recovery_batch p) (pr_stop p) pc h
    (pr_scheduler p) (pr_recovery p) (pr_main p) (pr_redis_open p) (pr_engine_open p).
Definition set_scheduler (p : Process) (pc : SchedulerPc) : Process :=
  mk_process (pr_wk p) (pr_activation_batch p) (pr_recovery_batch p) (pr_stop p) (pr_runner p)
    (pr_heart p) pc (pr_recovery p) (pr_main p) (pr_redis_open p) (pr_engine_open p).
Definition set_recovery (p : Process) (pc : RecoveryPc) : Process :=
  mk_process (pr_wk p) (pr_activation_batch p) (pr_recovery_batch p) (pr_stop p) (pr_runner p)
    (pr_heart p) (pr_scheduler p) pc (pr_main p) (pr_redis_open p) (pr_engine_open p).
Definition set_main (p : Process) (pc : MainPc) (redis engine : bool) : Process :=
  mk_process (pr_wk p) (pr_activation_batch p) (pr_recovery_batch p) (pr_stop p) (pr_runner p)
    (pr_heart p) (pr_scheduler p) (pr_recovery p) pc redis engine.

(** [request_stop], the handler of SIGINT and SIGTERM. *)
Definition request_stop (p : Process) : Process :=
  mk_process (pr_wk p) (pr_activation_batch p) (pr_recovery_batch p) true (pr_runner p)
    (pr_heart p) (pr_scheduler p) (pr_recovery p) (pr_main p) (pr_redis_open p)
    (pr_engine_open p).

(** [run] when it enters [gather]: each loop is about to test the stop event. *)
Definition start_process (wk : WorkerConfig) (activation_batch recovery_batch : nat) : Process :=
  mk_process wk activation_batch recovery_batch false R_sleep no_heart S_sleep V_sleep M_gather
    true true.

Definition process_step (actor : Actor) (an : Answer) (p : Process) (db : DB) (r : R)
    : option (Process * DB * R) :=
  match actor with
  | A_runner =>
      match runner_step (pr_wk p) an (pr_stop p) (pr_heart p) (pr_runner p) db r with
      | Some (pc, h, db, r) => Some (set_runner p pc h, db, r)
      | None => None
      end
  | A_abandon =>
      match abandon_step (pr_stop p) (pr_heart p) (pr_runner p) with
      | Some (pc, h) => Some (set_runner p pc h, db, r)
      | None => None
      end
  | A_heart =>
      match beating_for (pr_runner p) with
      | Some a =>
          match heart_step (pr_wk p) an a (pr_heart p) db with
          | Some (h, db) => Some (set_runner p (pr_runner p) h, db, r)
          | None => None
          end
      | None => None
      end
  | A_timeout =>
      match timeout_step (pr_heart p) (pr_runner p) with
      | Some h => Some (set_runner p (pr_runner p) h, db, r)
      | None => None
      end
  | A_scheduler =>
      match scheduler_step (pr_activation_batch p) an (pr_stop p) (pr_scheduler p) db r with
      | Some (pc, db, r) => Some (set_scheduler p pc, db, r)
      | None => None
      end
  | A_recovery =>
      match recovery_step (pr_recovery_batch p) an (pr_stop p) (pr_recovery p) db with
      | Some (pc, db) => Some (set_recovery p pc, db, r)
      | None => None
      end
  | A_main =>
      match main_step an p with
      | Some (pc, redis, engine) => Some (set_main p pc redis engine, db, r)
      | None => None
      end
  end.
End process.

(** ** The shape of a running process *)

(** A heartbeat exists exactly while a handler runs or is left, is told to stop only
    by the exit, and ends with the loss it reports. *)
Record heart_ok (pc : RunnerPc) (h : Heart) : Prop := {
  ok_none : beating_for pc = None → h = no_heart;
  ok_some a : beating_for pc = Some a → h_pc h ≠ H_none;
  ok_handler job a q : pc = R_handler job a q → h_stop h = false;
  ok_exit job a res : pc = R_exit job a res → h_stop h = true;
  ok_lost : h_lost h = true → h_pc h = H_ended
}.

(** A loop returns only when asked to stop; the clients are open until every loop has
    returned. *)
Record process_ok (p : Process) : Prop := {
  ok_heart : heart_ok (pr_runner p) (pr_heart p);
  ok_stopped : pr_runner p = R_stopped ∨ pr_scheduler p = S_stopped ∨ pr_recovery p = V_stopped →
    pr_stop p = true;
  ok_main : pr_main p ≠ M_gather →
    pr_runner p = R_stopped ∧ pr_scheduler p = S_stopped ∧ pr_recovery p = V_stopped;
  ok_redis : pr_main p = M_gather ∨ pr_main p = M_close_redis → pr_redis_open p = true;
  ok_engine : pr_main p ≠ M_exited → pr_engine_open p = true
}.

Lemma start_process_ok wk n m : process_ok (start_process wk n m).
Proof. split; cbn; try done; by intros [|[]]. Qed.

Lemma request_stop_ok p : process_ok p → process_ok (request_stop p).
Proof. by intros []. Qed.

Lemma next_candidate_cases stop k :
  next_candidate stop k = R_sleep ∨ (stop = false ∧ ∃ k', next_candidate stop k = R_peek k').
Proof. destruct k, stop; cbn; eauto. Qed.

Lemma next_cycle_cases stop :
  (stop = true ∧ next_cycle stop = R_stopped) ∨ (stop = false ∧ ∃ k, next_cycle stop = R_peek k).
Proof. destruct stop; cbn; eauto. Qed.

Lemma next_enqueue_cases jobs :
  next_enqueue jobs = S_sleep ∨
  ∃ job rest, jobs = job :: rest ∧ next_enqueue jobs = S_enqueue job rest.
Proof. destruct jobs; cbn; eauto. Qed.

Fixpoint prog_steps (p : prog) : nat :=
  match p with Done _ => O | Sleep _ p | Report _ _ p => S (prog_steps p) end.

(** The control flow of the runner's coroutine, whatever the stores answer. *)
Inductive runner_flow (stop : bool) : RunnerPc → Heart → RunnerPc → Heart → Prop :=
  | flow_raise pc h : beating_for pc = None → pc ≠ R_stopped → pc ≠ R_sleep →
      runner_flow stop pc h R_sleep h
  | flow_seen k c h : stop = false → runner_flow stop (R_peek k) h (R_claim k c) h
  | flow_missed k c h : runner_flow stop (R_claim k c) h (R_lookup k c) h
  | flow_claimed k c job h : runner_flow stop (R_claim k c) h (R_remove job c) h
  | flow_kept k c h : runner_flow stop (R_lookup k c) h (next_candidate stop k) h
  | flow_unclaimable k c h : runner_flow stop (R_lookup k c) h (R_discard k c) h
  | flow_discarded k c h : runner_flow stop (R_discard k c) h (next_candidate stop k) h
  | flow_no_handler job c a v h : attempt_of job = Ok a →
      runner_flow stop (R_remove job c) h (R_settle a v) no_heart
  | flow_start job c a q h : attempt_of job = Ok a →
      runner_flow stop (R_remove job c) h (R_handler job a q) heart_enter
  | flow_handler job a q q' h : (prog_steps q' < prog_steps q)%nat →
      runner_flow stop (R_handler job a q) h (R_handler job a q') h
  | flow_done job a res h : runner_flow stop (R_handler job a (Done res)) h (R_exit job a res) (heart_exit h)
  | flow_abandon job a q h : h_lost h = true →
      runner_flow stop (R_handler job a q) h (next_cycle stop) no_heart
  | flow_lost job a res h : h_pc h = H_ended →
      runner_flow stop (R_exit job a res) h (next_cycle stop) no_heart
  | flow_left job a res v h : h_pc h = H_ended →
      runner_flow stop (R_exit job a res) h (R_settle a v) no_heart
  | flow_settled a v h : runner_flow stop (R_settle a v) h (next_cycle stop) h
  | flow_wake h : runner_flow stop R_sleep h (next_cycle stop) h.

Section flow.
Context {DB : Type} `{!Postgres DB} {R : Type} `{!Redis R}.
Context (py_str : JSON → string) (exn_repr : exn → string).

Lemma runner_step_flow wk an stop h pc (db : DB) (r : R) pc' h' db' r' :
  runner_step py_str exn_repr wk an stop h pc db r = Some (pc', h', db', r') →
  runner_flow stop pc h pc' h'.
Proof using Type.
  destruct pc; cbn; unfold start_execution, after_handler; intros H;
    repeat case_match; simplify_eq/=; try (by constructor); constructor; cbn; lia.
Qed.

Lemma abandon_step_flow stop h pc pc' h' :
  abandon_step stop h pc = Some (pc', h') → runner_flow stop pc h pc' h'.
Proof using Type. destruct pc; cbn; intros H; repeat case_match; simplify_eq/=; by constructor. Qed.

Lemma beat_go_on dl ls a now f (db : DB) db' lost go :
  beat dl ls a now f db = (db', lost, go) → go = negb lost.
Proof using Type. unfold beat. intros H. repeat case_match; by simplify_eq. Qed.
End flow.

(** ** Winding down *)

Definition runner_rank (pc : RunnerPc) : nat :=
  match pc with
  | R_claim _ _ => 6
  | R_remove _ _ => 5
  | R_handler _ _ _ => 4
  | R_exit _ _ _ | R_lookup _ _ => 3
  | R_peek _ | R_discard _ _ | R_settle _ _ => 2
  | R_sleep => 1
  | R_stopped => 0
  end.

(** Within a handler, its steps; within the exit, the beat in flight. *)
Definition runner_size (pc : RunnerPc) (h : Heart) : nat :=
  match pc with
  | R_handler _ _ q => prog_steps q
  | R_exit _ _ _ => match h_pc h with H_ended => 0 | _ => 1 end
  | _ => 0
  end.

Definition scheduler_rank (batch : nat) (pc : SchedulerPc) : nat :=
  match pc with
  | S_activate => 2 + batch
  | S_enqueue _ rest => 2 + length rest
  | S_sleep => 1
  | S_stopped => 0
  end.

Definition recovery_rank (pc : RecoveryPc) : nat :=
  match pc with V_recover => 2 | V_sleep => 1 | V_stopped => 0 end.

Definition main_rank (pc : MainPc) : nat :=
  match pc with M_gather => 3 | M_close_redis => 2 | M_dispose_engine => 1 | M_exited => 0 end.

Definition rank (p : Process) : nat :=
  runner_rank (pr_runner p) + scheduler_rank (pr_activation_batch p) (pr_scheduler p) +
  recovery_rank (pr_recovery p) + main_rank (pr_main p).

Definition size_of (p : Process) : nat := runner_size (pr_runner p) (pr_heart p).

(** A beat of a heartbeat nobody has told to stop: the only coroutine that may go on
    any number of times while the process winds down. *)
Definition is_beat (p : Process) (actor : Actor) : Prop :=
  actor = A_heart ∧ h_stop (pr_heart p) = false.

Section winding_down.
Context {DB : Type} `{!Postgres DB} {R : Type} `{!Redis R}.
Context (py_str : JSON → string) (exn_repr : exn → string).
Implicit Types (db : DB) (r : R) (p : Process).

Abbreviation pstep := (process_step py_str exn_repr).

(** [p] goes to [p'] by a step of [actor], in some state of the stores. *)
Definition acts_to (actor : Actor) (p p' : Process) : Prop :=
  ∃ an (db : DB) (r : R) db' r', pstep actor an p db r = Some (p', db', r').

Definition beats (p p' : Process) : Prop := is_beat p A_heart ∧ acts_to A_heart p p'.

(** Whatever the servers answer and in whatever order its coroutines run, the process
    exits: between two steps that are no beats it is never stuck, whatever the
    answer, and every such step brings it nearer. *)
Inductive winds_down (p : Process) : Prop :=
  | winds_exited : pr_main p = M_exited → winds_down p
  | winds_on :
      (∀ p1, rtc beats p p1 →
         (∃ actor, ¬ is_beat p1 actor ∧ ∀ an (db : DB) (r : R), is_Some (pstep actor an p1 db r)) ∧
         (∀ actor p2, ¬ is_beat p1 actor → acts_to actor p1 p2 → winds_down p2)) →
      winds_down p.

Lemma heart_step_ok wk an a pc h (db : DB) h' db' :
  beating_for pc = Some a → heart_ok pc h → heart_step wk an a h db = Some (h', db') →
  heart_ok pc h' ∧ h_stop h' = h_stop h ∧
  (h_stop h = true → h_pc h' = H_ended ∧ h_pc h ≠ H_ended).
Proof using Type.
  intros Hb [H1 H2 H3 H4 H5] Hh.
  assert (h_stop h' = h_stop h ∧ h_pc h' ≠ H_none ∧ (h_lost h' = true → h_pc h' = H_ended) ∧
    (h_stop h = true → h_pc h' = H_ended ∧ h_pc h ≠ H_ended)) as (Hs & Hn & Hl & He).
  { unfold heart_step in Hh. destruct (h_pc h) eqn:Hpc; try done.
    - injection Hh as <- <-. cbn. split; [done|]. split; [by destruct (h_stop h)|].
      split; [intros ?%H5; congruence|by intros ->].
    - destruct (beat _ _ _ _ _ _) as [[d1 lost] go] eqn:Hbt. injection Hh as <- <-. cbn.
      apply beat_go_on in Hbt as ->. split; [done|]. split; [by repeat case_match|].
      split; [|intros ->; by rewrite andb_false_r].
      intros [->|?%H5]%orb_prop; [done|congruence]. }
  split; [|done]. split; [by rewrite Hb|done|by rewrite Hs|by rewrite Hs|done].
Qed.

Lemma beats_same p p' :
  process_ok p → beats p p' → process_ok p' ∧ rank p' = rank p ∧ size_of p' = size_of p ∧
    pr_stop p' = pr_stop p ∧ pr_main p' = pr_main p.
Proof using Type.
  intros Hok ([_ Hns] & an & db & r & db' & r' & Hstep). cbn in Hstep.
  destruct (beating_for (pr_runner p)) as [a|] eqn:Hb; [|done].
  destruct (heart_step _ _ _ _ _) as [[h d]|] eqn:Hh; [|done]. injection Hstep as <- <- <-.
  destruct (heart_step_ok _ _ _ _ _ _ _ _ Hb (ok_heart _ Hok) Hh) as (Hh' & Hs & _).
  split; [|split; [done|split; [|done]]].
  - destruct Hok. by split.
  - unfold size_of. cbn. destruct (pr_runner p) eqn:Hr; try done.
    pose proof (ok_exit _ _ Hh' _ _ _ eq_refl). congruence.
Qed.

(** *** Every step keeps the shape *)

Lemma flow_keeps stop pc h pc' h' :
  runner_flow stop pc h pc' h' → heart_ok pc h →
  heart_ok pc' h' ∧ (pc' = R_stopped → stop = true) ∧ pc ≠ R_stopped.
Proof using Type.
  intros Hf [H1 H2 H3 H4 H5]. destruct (next_cycle_cases stop) as [[Hs Hc]|(Hs & k0 & Hc)];
    destruct Hf as [| | | |k| |k| | | | | | | | |]; rewrite ?Hc;
    try destruct (next_candidate_cases stop k) as [->|(Hs' & ? & ->)]; cbn in *;
    split_and!; try done; split; cbn; try done; try congruence; eauto.
Qed.

Lemma flow_ok p pc h :
  process_ok p → runner_flow (pr_stop p) (pr_runner p) (pr_heart p) pc h →
  process_ok (set_runner p pc h).
Proof using Type.
  intros Hok (H1 & H2 & H3)%flow_keeps; [|by destruct Hok].
  destruct Hok. split; cbn; try done; naive_solver.
Qed.

Lemma step_ok actor an p db r p' db' r' :
  process_ok p → pstep actor an p db r = Some (p', db', r') → process_ok p' ∧ pr_stop p' = pr_stop p.
Proof using Type.
  intros Hok Hstep. destruct actor; cbn in Hstep.
  - destruct (runner_step _ _ _ _ _ _ _ _ _) as [[[[pc h] d] r1]|] eqn:H; [|done].
    injection Hstep as <- <- <-. split; [|done]. eapply flow_ok, runner_step_flow; eauto.
  - destruct (abandon_step _ _ _) as [[pc h]|] eqn:H; [|done]. injection Hstep as <- <- <-.
    split; [|done]. by apply flow_ok, abandon_step_flow.
  - destruct (beating_for (pr_runner p)) as [a|] eqn:Hb; [|done].
    destruct (heart_step _ _ _ _ _) as [[h d]|] eqn:H; [|done]. injection Hstep as <- <- <-.
    destruct (heart_step_ok _ _ _ _ _ _ _ _ Hb (ok_heart _ Hok) H) as [Hh _].
    split; [|done]. destruct Hok. by split.
  - destruct (timeout_step _ _) as [h|] eqn:H; [|done]. injection Hstep as <- <- <-.
    split; [|done]. destruct Hok as [[H1 H2 H3 H4 H5] ? ? ? ?]. split; cbn; try done.
    unfold timeout_step in H. repeat case_match; simplify_eq/=. split; cbn; try done; eauto.
  - destruct (scheduler_step _ _ _ _ _ _) as [[[pc d] r1]|] eqn:H; [|done].
    injection Hstep as <- <- <-. split; [|done]. destruct Hok as [? Hst Hm ? ?]. split; cbn; try done.
    + intros [?|[->|?]]; [by apply Hst; auto| |by apply Hst; auto].
      destruct (pr_scheduler p); cbn in H; repeat case_match; simplify_eq/=; try done;
        unfold next_enqueue in *; by case_match.
    + intros Hg. destruct (Hm Hg) as (_ & E & _). by rewrite E in H.
  - destruct (recovery_step _ _ _ _ _) as [[pc d]|] eqn:H; [|done].
    injection Hstep as <- <- <-. split; [|done]. destruct Hok as [? Hst Hm ? ?]. split; cbn; try done.
    + intros [?|[?| ->]]; [by apply Hst; auto..|].
      destruct (pr_recovery p); cbn in H; repeat case_match; by simplify_eq/=.
    + intros Hg. destruct (Hm Hg) as (_ & _ & E). by rewrite E in H.
  - destruct (main_step _ _) as [[[pc rd] en]|] eqn:H; [|done]. injection Hstep as <- <- <-.
    split; [|done]. destruct Hok as [H1 H2 H3 H4 H5].
    unfold main_step in H. destruct (pr_main p) eqn:Hm.
    + destruct (pr_runner p) eqn:Hr, (pr_scheduler p) eqn:Hs, (pr_recovery p) eqn:Hv;
        simplify_eq/=. split; cbn; rewrite ?Hr, ?Hs, ?Hv; auto.
    + destruct (an_fault an); simplify_eq/=;
        (split; cbn; [done|done|by intros _; apply H3|by intros []|by intros _; apply H5]).
    + simplify_eq/=. split; cbn; [done|done|by intros _; apply H3|by intros []|done].
    + done.
Qed.

(** *** Every step but a beat brings a stopping process nearer to its exit *)

Lemma flow_nearer pc h pc' h' :
  runner_flow true pc h pc' h' →
  (runner_rank pc' < runner_rank pc)%nat ∨
  (runner_rank pc' = runner_rank pc ∧ runner_size pc' h' < runner_size pc h)%nat.
Proof using Type.
  intros Hf. destruct Hf as [pc h Hb H1 H2|? ? ? [=]| | |k| |k| | | | | | | | |]; cbn;
    try (destruct k; cbn); auto with lia.
  left. destruct pc; cbn; try done; lia.
Qed.

Context `{!PostgresLaws DB}.

Lemma activation_bounded now locked n db db' jobs :
  run_session (activate_due_scheduled_jobs now locked n) db = (db', Ok jobs) → (length jobs ≤ n)%nat.
Proof using PostgresLaws0.
  intros Hrun. destruct (activate_spec now locked n db) as (db1 & rs & Hu & Hp & _).
  destruct (pg_select_facts locked (due_query now n) db _ _) as (_ & _ & _ & Hlim).
  destruct (Hlim n eq_refl eq_refl) as [Hlen _].
  rewrite Hrun in Hu. injection Hu as <- <-. by rewrite Hp, length_fmap.
Qed.

Lemma scheduler_nearer n an pc db r pc' db' r' :
  scheduler_step n an true pc db r = Some (pc', db', r') →
  (scheduler_rank n pc' < scheduler_rank n pc)%nat.
Proof using PostgresLaws0.
  destruct pc; cbn; [|intros H; repeat case_match; simplify_eq/=..|done].
  - unfold db_call. destruct (an_fault an); cbn;
      try (intros H; simplify_eq/=; lia).
    destruct (run_session _ db) as [d [jobs|e]] eqn:Hrun; intros H; simplify_eq/=; [|lia].
    apply activation_bounded in Hrun. destruct jobs; cbn in *; lia.
  - destruct rest; cbn; lia.
  - lia.
Qed.

Lemma step_nearer actor p p' :
  process_ok p → pr_stop p = true → ¬ is_beat p actor → acts_to actor p p' →
  (rank p' < rank p)%nat ∨ (rank p' = rank p ∧ size_of p' < size_of p)%nat.
Proof using PostgresLaws0.
  intros Hok Hst Hnb (an & db & r & db' & r' & Hstep). unfold rank, size_of.
  destruct actor; cbn in Hstep; rewrite ?Hst in Hstep.
  - destruct (runner_step _ _ _ _ _ _ _ _ _) as [[[[pc h] d] r1]|] eqn:H; [|done].
    injection Hstep as <- <- <-. apply runner_step_flow, flow_nearer in H. cbn. lia.
  - destruct (abandon_step _ _ _) as [[pc h]|] eqn:H; [|done]. injection Hstep as <- <- <-.
    apply abandon_step_flow, flow_nearer in H. cbn. lia.
  - destruct (beating_for (pr_runner p)) as [a|] eqn:Hb; [|done].
    destruct (heart_step _ _ _ _ _) as [[h d]|] eqn:H; [|done]. injection Hstep as <- <- <-.
    destruct (heart_step_ok _ _ _ _ _ _ _ _ Hb (ok_heart _ Hok) H) as (_ & _ & He).
    assert (h_stop (pr_heart p) = true) as Hs by (apply not_false_is_true; by intros ?; apply Hnb).
    destruct (He Hs) as [He1 He2]. right. cbn. split; [done|].
    destruct (pr_runner p) eqn:Hr; try done.
    + pose proof (ok_handler _ _ (ok_heart _ Hok) _ _ _ Hr). congruence.
    + cbn. rewrite He1. destruct (h_pc (pr_heart p)); try done; lia.
  - destruct (timeout_step _ _) as [h|] eqn:H; [|done]. injection Hstep as <- <- <-.
    unfold timeout_step in H. right. cbn. split; [done|]. unfold runner_size.
    repeat case_match; simplify_eq/=. lia.
  - destruct (scheduler_step _ _ _ _ _ _) as [[[pc d] r1]|] eqn:H; [|done].
    injection Hstep as <- <- <-. apply scheduler_nearer in H. cbn. lia.
  - destruct (recovery_step _ _ _ _ _) as [[pc d]|] eqn:H; [|done]. injection Hstep as <- <- <-.
    left. cbn. destruct (pr_recovery p); cbn in *; repeat case_match; simplify_eq/=; lia.
  - destruct (main_step _ _) as [[[pc rd] en]|] eqn:H; [|done]. injection Hstep as <- <- <-.
    left. unfold main_step in H. cbn. repeat case_match; simplify_eq/=; lia.
Qed.

Lemma not_stuck p :
  process_ok p → pr_main p ≠ M_exited →
  ∃ actor, ¬ is_beat p actor ∧ ∀ an (db : DB) (r : R), is_Some (pstep actor an p db r).
Proof using Type.
  intros Hok Hm. destruct (pr_main p) eqn:Em; [|exists A_main..|done].
  2,3: split; [by intros []|]; intros an db r; cbn; unfold main_step; rewrite Em;
    destruct (an_fault an); by eexists.
  destruct (decide (runner_rank (pr_runner p) = 0%nat)) as [Er|Er].
  2:{ destruct (pr_runner p) as [| | | | | |job a res| | |] eqn:Hr; try done.
      7:{ pose proof (ok_exit _ _ (ok_heart _ Hok) _ _ _ Hr) as Hs.
          pose proof (ok_some _ _ (ok_heart _ Hok) a ltac:(by rewrite Hr)) as Hn.
          exists (match h_pc (pr_heart p) with H_ended => A_runner | _ => A_heart end). split.
          - intros [_ ?]. congruence.
          - intros an db r. destruct (h_pc (pr_heart p)) eqn:Hh; [congruence|..];
              cbn; rewrite Hr; cbn; unfold heart_step; rewrite Hh; [by eexists| |by eexists].
            destruct (beat _ _ _ _ _ _) as [[? ?] ?]. by eexists. }
      all: exists A_runner; (split; [by intros []|]); intros an db r; cbn; rewrite Hr; cbn;
        repeat case_match; simplify_eq/=; by eexists. }
  destruct (decide (scheduler_rank 0 (pr_scheduler p) = 0%nat)) as [Es|Es].
  2:{ exists A_scheduler. split; [by intros []|]. intros an db r. cbn.
      destruct (pr_scheduler p); cbn; repeat case_match; simplify_eq/=; by eexists. }
  destruct (decide (recovery_rank (pr_recovery p) = 0%nat)) as [Ev|Ev].
  2:{ exists A_recovery. split; [by intros []|]. intros an db r. cbn.
      destruct (pr_recovery p); cbn; repeat case_match; simplify_eq/=; by eexists. }
  exists A_main. split; [by intros []|]. intros an db r. cbn. unfold main_step.
  rewrite Em. destruct (pr_runner p), (pr_scheduler p), (pr_recovery p); try done.
Qed.

Lemma beats_steps_same p p' :
  rtc beats p p' → process_ok p → process_ok p' ∧ rank p' = rank p ∧ size_of p' = size_of p ∧
    pr_stop p' = pr_stop p ∧ pr_main p' = pr_main p.
Proof using Type.
  induction 1 as [p|p p1 p2 Hb _ IH]; [done|]. intros Hok.
  destruct (beats_same p p1 Hok Hb) as (Hok1 & <- & <- & <- & <-). by apply IH.
Qed.

(** A process that was asked to stop exits, whatever state it was in: no answer of
    a server, no order of its coroutines and no number of heartbeats can keep it. *)
Lemma stopping_winds_down p (Hok : process_ok p) (Hstop : pr_stop p = true) : winds_down p.
Proof using PostgresLaws0.
  remember (rank p) as n eqn:Hn. revert p Hok Hstop Hn.
  induction n as [n IHn] using lt_wf_ind. intros p Hok Hstop Hn.
  remember (size_of p) as m eqn:Hm. revert p Hok Hstop Hn Hm.
  induction m as [m IHm] using lt_wf_ind. intros p Hok Hstop Hn Hm.
  destruct (decide (main_rank (pr_main p) = 0%nat)) as [Hz|Hz].
  { apply winds_exited. by destruct (pr_main p). }
  assert (pr_main p ≠ M_exited) as Hne by (intros E; by rewrite E in Hz).
  apply winds_on. intros p1 Hb.
  destruct (beats_steps_same p p1 Hb Hok) as (Hok1 & Hr1 & Hs1 & Hst1 & Hm1). split.
  { apply not_stuck; congruence. }
  intros actor p2 Hnb Hact.
  assert (process_ok p2 ∧ pr_stop p2 = true) as [Hok2 Hst2].
  { destruct Hact as (an & db & r & db' & r' & Hstep).
    destruct (step_ok _ _ _ _ _ _ _ _ Hok1 Hstep). split; congruence. }
  destruct (step_nearer actor p1 p2 Hok1) as [Hlt|[Heq Hlt]]; [congruence|done..| |].
  - apply (IHn (rank p2)); [lia|done..].
  - apply (IHm (size_of p2)); [lia|done|done|congruence|done].
Qed.

(** Once asked to stop, a process starts no new work: no step takes it to a peek, a
    claim, an activation or a recovery sweep it was not at already. *)
Theorem stopped_process_starts_nothing actor p p' (Hstop : pr_stop p = true)
    (Hstep : acts_to actor p p') :
  (∀ k, pr_runner p' = R_peek k → pr_runner p = R_peek k) ∧
  (∀ k c, pr_runner p' = R_claim k c → pr_runner p = R_claim k c) ∧
  (pr_scheduler p' = S_activate → pr_scheduler p = S_activate) ∧
  (pr_recovery p' = V_recover → pr_recovery p = V_recover).
Proof using Type.
  destruct Hstep as (an & db & r & db' & r' & Hstep).
  assert (∀ pc h pc' h', runner_flow true pc h pc' h' →
    (∀ k, pc' ≠ R_peek k) ∧ (∀ k c, pc' ≠ R_claim k c)) as Hflow.
  { intros pc h pc' h' Hf. destruct Hf as [| | | |k| |k| | | | | | | | |]; try done; by destruct k. }
  destruct actor; cbn in Hstep; rewrite ?Hstop in Hstep.
  - destruct (runner_step _ _ _ _ _ _ _ _ _) as [[[[pc h] d] r1]|] eqn:H; [|done].
    injection Hstep as <- <- <-. apply runner_step_flow, Hflow in H as [H1 H2]. cbn. naive_solver.
  - destruct (abandon_step _ _ _) as [[pc h]|] eqn:H; [|done]. injection Hstep as <- <- <-.
    apply abandon_step_flow, Hflow in H as [H1 H2]. cbn. naive_solver.
  - by repeat case_match; simplify_eq.
  - by repeat case_match; simplify_eq.
  - destruct (scheduler_step _ _ _ _ _ _) as [[[pc d] r1]|] eqn:H; [|done].
    injection Hstep as <- <- <-. split_and!; try done. cbn. intros ->.
    destruct (pr_scheduler p); cbn in H; repeat case_match; simplify_eq; try done;
      unfold next_enqueue in *; by case_match.
  - destruct (recovery_step _ _ _ _ _) as [[pc d]|] eqn:H; [|done]. injection Hstep as <- <- <-.
    split_and!; try done. cbn. intros ->. destruct (pr_recovery p); cbn in H;
      repeat case_match; by simplify_eq.
  - by repeat case_match; simplify_eq.
Qed.
End winding_down.

(** ** The worker's identity *)

Lemma substring_length n m s : (String.length (String.substring n m s) ≤ m)%nat.
Proof.
  revert n m. induction s as [|c s IH]; intros n m; [by destruct n, m; cbn; lia|].
  destruct n as [|n]; [|apply IH]. destruct m as [|m]; cbn; [lia|]. specialize (IH 0%nat m). lia.
Qed.

Lemma show_nat_length n w :
  0 ≤ n < 10 ^ Z.of_nat w → w ≠ 0%nat → (String.length (show_nat n) ≤ w)%nat.
Proof. intros Hn Hw. unfold show_nat. rewrite digits_length. apply ndigits_le; lia. Qed.

(** The identity of a worker on a host with a POSIX name and pid fits its column. *)
Theorem worker_id_fits hostname pid hex
    (Hhost : (str_len hostname ≤ 64)%nat) (Hpid : 0 ≤ pid < 2 ^ 31) :
  varchar_ok 128 (build_worker_id hostname pid hex) = true.
Proof.
  unfold varchar_ok, build_worker_id. apply Nat.leb_le. rewrite !str_len_app.
  pose proof (substring_length 0 6 hex). pose proof (str_len_le (String.substring 0 6 hex)).
  pose proof (str_len_le (show_int pid)).
  assert (String.length (show_int pid) ≤ 10)%nat.
  { unfold show_int. rewrite (proj2 (Z.ltb_ge pid 0)) by lia. apply show_nat_length; [|done].
    change (10 ^ Z.of_nat 10) with 10000000000. lia. }
  change (str_len "-") with 1%nat. lia.
Qed.

(** ** Witnesses *)

Lemma worker_id_fits_witness :
  varchar_ok 128 (build_worker_id "worker-7f9c" 42 "c0ffee00") = true ∧
  build_worker_id "worker-7f9c" 42 "c0ffee00" = "worker-7f9c-42-c0ffee".
Proof. split; [apply worker_id_fits; [vm_compute; lia|lia]|reflexivity]. Defined.

Definition demo_answer (f : fault) (now : Z) : Answer :=
  {| an_fault := f; an_now := now; an_token := 77; an_random := λ _, 0%Q; an_hex := "c0ffee";
     an_locked := ∅ |}.

(** A process asked to stop in the middle of a handler. *)
Definition demo_stopping : Process :=
  mk_process demo_worker 10 10 true
    (R_handler demo_processing (MkAttempt 9 "w1" 99 2 3) (Sleep 3 (Report 1 2 (Done (Ok JNull)))))
    heart_enter (S_enqueue demo_email []) V_sleep M_gather true true.

Lemma demo_stopping_ok : process_ok demo_stopping.
Proof. split; cbn; done. Qed.

Lemma stopped_process_starts_nothing_witness :
  ∃ p', acts_to (DB := MemDB) (R := MemRedis) (λ _, "") (λ _, "") A_runner demo_stopping p' ∧
    pr_runner p' = R_handler demo_processing (MkAttempt 9 "w1" 99 2 3) (Report 1 2 (Done (Ok JNull))) ∧
    (pr_scheduler p' = S_activate → pr_scheduler demo_stopping = S_activate).
Proof.
  eexists. assert (acts_to (DB := MemDB) (R := MemRedis) (λ _, "") (λ _, "") A_runner demo_stopping
    _) as H by (exists (demo_answer no_fault 5000), demo_db, redis_empty; do 2 eexists; reflexivity).
  split; [exact H|]. split; [reflexivity|].
  by apply (stopped_process_starts_nothing (λ _, "") (λ _, "") A_runner demo_stopping _ eq_refl H).
Defined.
