(* ===== verification/Fleet.v ===== *)
(** * Fleet: any number of worker processes over one database and one Redis

    The processes of [Process] with the service of [Lifecycle]: processes start, get
    signals, crash and take their steps in any order, while clients and anything
    else that uses the service act as well.  Every step of a fleet is a step of the
    service, so what [Lifecycle] proves of all histories holds of every fleet; what
    is proved here is about the processes themselves: whose attempt may write, and
    that a process shuts down. *)

From S2P Require Import Prelude.
From S2P Require Import Text.
From S2P Require Import Errors.
From S2P Require Import Model.
From S2P Require Import Postgres.
From S2P Require Import MemDB.
From S2P Require Import Session.
From S2P Require Import RetryPolicy.
From S2P Require Import Config.
From S2P Require Import Ownership.
From S2P Require Import Redis.
From S2P Require Import ReadyQueue.
From S2P Require Import Submission.
From S2P Require Import Mutations.
From S2P Require Import Fencing.
From S2P Require Import Recovery.
From S2P Require Import Lifecycle.
From S2P Require Import Handlers.
From S2P Require Import Heartbeat.
From S2P Require Import Runner.
From S2P Require Import Process.
From Stdlib Require Import QArith.

Local Open Scope Z_scope.

Record Fleet (DB R : Type) := mk_fleet { fl_sys : Sys DB R; fl_procs : gmap nat Process }.
Arguments mk_fleet {DB R}. Arguments fl_sys {DB R}. Arguments fl_procs {DB R}.

(** The token that reaches the database in a step. *)
Definition mints (actor : Actor) (an : Answer) (p : Process) : gset uuid :=
  match actor, pr_runner p, an_fault an with
  | A_runner, R_claim _ _, command_lost => ∅
  | A_runner, R_claim _ _, _ => {[ an_token an ]}
  | _, _, _ => ∅
  end.

(** The attempt a process executes, from the claim's answer to the settling write. *)
Definition holds_pc (pc : RunnerPc) (a : Attempt) : Prop :=
  match pc with
  | R_remove job _ => attempt_of job = Ok a
  | R_handler _ b _ | R_exit _ b _ | R_settle b _ => b = a
  | _ => False
  end.
Definition held_by (p : Process) (a : Attempt) : Prop := holds_pc (pr_runner p) a.

Section fleet.
Context {DB : Type} `{!Postgres DB} {R : Type} `{!Redis R}.
Context (py_str : JSON → string) (exn_repr : exn → string).

Abbreviation pstep := (process_step py_str exn_repr).
Abbreviation T s := (jobs_table (sys_db s)).

Inductive fleet_step : Fleet DB R → Fleet DB R → Prop :=
  (** A client, a loop of another deployment, or Redis. *)
  | fleet_service s s' ps : step s s' → fleet_step (mk_fleet s ps) (mk_fleet s' ps)
  | fleet_start s ps i wk n m :
      ps !! i = None → varchar_ok 128 (wk_id wk) = true →
      fleet_step (mk_fleet s ps) (mk_fleet s (<[i := start_process wk n m]> ps))
  | fleet_signal s ps i p :
      ps !! i = Some p → fleet_step (mk_fleet s ps) (mk_fleet s (<[i := request_stop p]> ps))
  (** SIGKILL, or the machine is gone. *)
  | fleet_crash s ps i : fleet_step (mk_fleet s ps) (mk_fleet s (delete i ps))
  | fleet_process s ps i p actor an p' db' r' :
      ps !! i = Some p → mints actor an p ## minted s →
      pstep actor an p (sys_db s) (sys_redis s) = Some (p', db', r') →
      fleet_step (mk_fleet s ps)
        (mk_fleet (mk_sys db' r' (mints actor an p ∪ minted s)) (<[i := p']> ps)).

Definition fleet_initial (F : Fleet DB R) : Prop := initial (fl_sys F) ∧ fl_procs F = ∅.
Definition fleet_reachable (F : Fleet DB R) : Prop := ∃ F0, fleet_initial F0 ∧ rtc fleet_step F0 F.

Context `{!PostgresLaws DB}.
Implicit Types (db : DB) (r : R) (s : Sys DB R) (p : Process).

(** ** A step of a process is a step of the service *)

Lemma db_call_fst {A} f (op : DB → DB * result exn A) db :
  (db_call f op db).1 = if decide (f = command_lost) then db else (op db).1.
Proof using Type. by destruct f. Qed.

Definition verdict_call (v : Verdict) : OwnerCall :=
  match v with Succeeded res => CompleteJob res | FailedWith m => FailAttempt m end.

Lemma settle_fst dl now a v db : (settle now a v db).1 = (owner_call dl now a (verdict_call v) db).1.
Proof using Type.
  destruct v; cbn [settle verdict_call owner_call]; rewrite run_discard; cbn [fst];
    unfold settle_success, settle_failure; by destruct (run_session _ db) as [d [?|[]]].
Qed.

Lemma report_fst dl now f a n t db :
  (report_call f a n t db).1 = db ∨
  ∃ pct, (report_call f a n t db).1 = (owner_call dl now a (UpdateProgress pct) db).1.
Proof using Type.
  unfold report_call. destruct (percentage n t) as [pct|] eqn:Hp.
  - rewrite db_call_fst. case_decide; [by left|right]. exists pct. unfold report_progress. by rewrite Hp.
  - left. unfold report_progress. by rewrite Hp.
Qed.

Lemma beat_fst dl ls a now f db :
  (beat dl ls a now f db).1.1 = db ∨
  (beat dl ls a now f db).1.1 = (owner_call dl now a (ExtendLease ls) db).1.
Proof using Type.
  unfold beat. cbn [owner_call]. rewrite run_discard. cbn [fst].
  destruct f; cbn; destruct (run_session _ db) as [d [?|[]]]; auto.
Qed.

(** What a step of a runner or a heartbeat does to the database: nothing, a claim,
    or a write of the attempt it holds. *)
Inductive store_effect (s : Sys DB R) (p : Process) (an : Answer) : Actor → DB → R → Prop :=
  | effect_none actor r' : mints actor an p = ∅ → store_effect s p an actor (sys_db s) r'
  | effect_claim k c :
      pr_runner p = R_claim k c → an_fault an ≠ command_lost →
      store_effect s p an A_runner
        (run_session (claim_job (wk_default_lease (pr_wk p)) (an_now an) (an_token an) (qc_job_id c)
           (wk_id (pr_wk p)) (Some (wk_lease (pr_wk p)))) (sys_db s)).1 (sys_redis s)
  | effect_owner actor a dl c :
      held_by p a → actor = A_runner ∨ actor = A_heart → mints actor an p = ∅ →
      store_effect s p an actor (owner_call dl (an_now an) a c (sys_db s)).1 (sys_redis s)
  | effect_activate n :
      store_effect s p an A_scheduler
        (run_session (activate_due_scheduled_jobs (an_now an) (an_locked an) n) (sys_db s)).1
        (sys_redis s)
  | effect_recover n :
      store_effect s p an A_recovery
        (run_session (recover_expired_leases (an_now an) (an_locked an) n) (sys_db s)).1
        (sys_redis s).

Lemma runner_step_effect s p an pc h db' r' :
  runner_step py_str exn_repr (pr_wk p) an (pr_stop p) (pr_heart p) (pr_runner p)
    (sys_db s) (sys_redis s) = Some (pc, h, db', r') →
  store_effect s p an A_runner db' r'.
Proof using PostgresLaws0.
  intros Hstep. assert (∀ d, d = sys_db s → mints A_runner an p = ∅ → d = db' →
    store_effect s p an A_runner db' r') as Hnone by (intros d -> Hm <-; by apply effect_none).
  unfold mints in *. destruct (pr_runner p) as [k|k c|k c|k c|job c|job a q|job a o|a v| |] eqn:Hpc;
    cbn in Hstep.
  - destruct (call _ _ _) as [r1 [[c|]|e]]; simplify_eq; by eapply Hnone.
  - pose proof (db_call_fst (an_fault an) (run_session (claim_job (wk_default_lease (pr_wk p))
      (an_now an) (an_token an) (qc_job_id c) (wk_id (pr_wk p)) (Some (wk_lease (pr_wk p)))))
      (sys_db s)) as Hdb.
    destruct (db_call _ _ _) as [d res]. cbn [fst] in Hdb.
    assert (d = db' ∧ r' = sys_redis s) as [-> ->] by (destruct res as [[job|]|e]; by simplify_eq).
    case_decide as Hf; [rewrite Hf in Hnone; by eapply Hnone|].
    rewrite Hdb. by eapply effect_claim.
  - pose proof (db_call_fst (an_fault an) (run_session (get_job (qc_job_id c))) (sys_db s)) as Hdb.
    rewrite run_get_job in Hdb. destruct (db_call _ _ _) as [d res]. cbn [fst] in Hdb.
    eapply Hnone; [|done|by destruct res; simplify_eq]. by case_decide.
  - destruct (call _ _ _) as [r1 [b|e]]; simplify_eq; by eapply Hnone.
  - destruct (call _ _ _) as [r1 [b|e]]; [destruct (attempt_of job); [destruct (start_execution _ _ _ _ _)|]|];
      simplify_eq; by eapply Hnone.
  - destruct q as [o|t q|n t q]; [simplify_eq; by eapply Hnone..|].
    pose proof (report_fst (wk_default_lease (pr_wk p)) (an_now an) (an_fault an) a n t (sys_db s)) as Hr.
    destruct (report_call _ _ _ _ _) as [d res]. cbn [fst] in Hr.
    assert (d = db' ∧ r' = sys_redis s) as [-> ->] by (destruct res; by simplify_eq).
    destruct Hr as [Hr|[pct ->]]; [by eapply Hnone|].
    apply effect_owner; [unfold held_by; by rewrite Hpc|by left|unfold mints; by rewrite Hpc].
  - destruct (h_pc (pr_heart p)); simplify_eq; by eapply Hnone.
  - pose proof (db_call_fst (an_fault an) (settle (an_now an) a v) (sys_db s)) as Hdb.
    rewrite (settle_fst (wk_default_lease (pr_wk p))) in Hdb.
    destruct (db_call _ _ _) as [d res]. cbn [fst] in Hdb.
    assert (d = db' ∧ r' = sys_redis s) as [-> ->] by (destruct res; by simplify_eq).
    case_decide; [by eapply Hnone|]. rewrite Hdb.
    apply effect_owner; [unfold held_by; by rewrite Hpc|by left|unfold mints; by rewrite Hpc].
  - simplify_eq. by eapply Hnone.
  - done.
Qed.

Lemma beating_for_held p a : beating_for (pr_runner p) = Some a → held_by p a.
Proof using Type. unfold held_by. destruct (pr_runner p); cbn; by intros [= ->]. Qed.

Lemma process_step_effect s p an actor p' db' r' :
  pstep actor an p (sys_db s) (sys_redis s) = Some (p', db', r') → store_effect s p an actor db' r'.
Proof using PostgresLaws0.
  intros Hstep. destruct actor; cbn in Hstep.
  - destruct (runner_step _ _ _ _ _ _ _ _ _) as [[[[pc h] d] r1]|] eqn:H; [|done].
    injection Hstep as <- <- <-. by eapply runner_step_effect.
  - destruct (abandon_step _ _ _) as [[pc h]|]; [|done]. simplify_eq. by apply effect_none.
  - destruct (beating_for (pr_runner p)) as [a|] eqn:Hb; [|done].
    apply beating_for_held in Hb. unfold heart_step in Hstep.
    destruct (h_pc (pr_heart p)); simplify_eq; [by apply effect_none|].
    destruct (beat_fst (wk_default_lease (pr_wk p)) (Some (wk_lease (pr_wk p))) a (an_now an)
      (an_fault an) (sys_db s)) as [Hd|Hd];
      destruct (beat _ _ _ _ _ _) as [[d lost] go]; cbn [fst] in Hd; simplify_eq; rewrite ?Hd.
    + by apply effect_none.
    + apply effect_owner; auto.
  - destruct (timeout_step _ _); [|done]. simplify_eq. by apply effect_none.
  - destruct (scheduler_step _ _ _ _ _ _) as [[[pc d] r1]|] eqn:H; [|done].
    injection Hstep as <- <- <-. destruct (pr_scheduler p); cbn in H; simplify_eq.
    + pose proof (db_call_fst (an_fault an) (run_session (activate_due_scheduled_jobs (an_now an)
        (an_locked an) (pr_activation_batch p))) (sys_db s)) as Hdb.
      destruct (db_call _ _ _) as [d1 res]. cbn [fst] in Hdb.
      assert (d1 = d ∧ r1 = sys_redis s) as [-> ->] by (destruct res; by simplify_eq).
      case_decide; rewrite Hdb; [by apply effect_none|apply effect_activate].
    + destruct (call _ _ _). simplify_eq. by apply effect_none.
    + by apply effect_none.
  - destruct (recovery_step _ _ _ _ _) as [[pc d]|] eqn:H; [|done].
    injection Hstep as <- <- <-. destruct (pr_recovery p); cbn in H; simplify_eq; [|by apply effect_none].
    pose proof (db_call_fst (an_fault an) (run_session (recover_expired_leases (an_now an)
      (an_locked an) (pr_recovery_batch p))) (sys_db s)) as Hdb.
    destruct (db_call _ _ _) as [d1 res]. cbn [fst] in Hdb. simplify_eq.
    case_decide; [by apply effect_none|apply effect_recover].
  - destruct (main_step _ _) as [[[? ?] ?]|]; [|done]. simplify_eq. by apply effect_none.
Qed.

Lemma process_refines s p actor an p' db' r' :
  varchar_ok 128 (wk_id (pr_wk p)) = true → mints actor an p ## minted s →
  pstep actor an p (sys_db s) (sys_redis s) = Some (p', db', r') →
  step s (mk_sys db' r' (mints actor an p ∪ minted s)).
Proof using PostgresLaws0.
  intros Hw Hfresh He%process_step_effect.
  assert (∀ x, x = ∅ → ∀ (d : DB) (r1 : R), mk_sys d r1 (x ∪ minted s) = mk_sys d r1 (minted s)) as Hm.
  { intros x -> d r1. by rewrite (left_id_L ∅ (∪)). }
  destruct He as [actor r1 H|k c Hpc Hf|actor a dl c _ _ H|n|n].
  - rewrite (Hm _ H). apply step_redis.
  - assert (mints A_runner an p = {[an_token an]}) as Ht.
    { unfold mints. rewrite Hpc. by destruct (an_fault an). }
    rewrite Ht in *. destruct (run_session _ _) as [d res] eqn:Hrun. cbn [fst].
    eapply step_claim; [set_solver|exact Hw|exact Hrun].
  - rewrite (Hm _ H). destruct (owner_call _ _ _ _ _) as [d res] eqn:Hrun. by eapply step_owner.
  - rewrite (Hm _ eq_refl). destruct (run_session _ _) as [d res] eqn:Hrun. by eapply step_activate.
  - rewrite (Hm _ eq_refl). destruct (run_session _ _) as [d res] eqn:Hrun. by eapply step_recover.
Qed.

(** ** Who holds which attempt *)

Lemma flow_holds stop pc h pc' h' a :
  runner_flow stop pc h pc' h' → holds_pc pc' a →
  holds_pc pc a ∨ ∃ k c job, pc = R_claim k c ∧ pc' = R_remove job c ∧ attempt_of job = Ok a.
Proof using Type.
  intros Hf Ha. destruct (next_cycle_cases stop) as [[Hs Hc]|(Hs & k0 & Hc)];
    destruct Hf as [| | | |k| |k| | | | | | | | |]; rewrite ?Hc in Ha;
    try destruct (next_candidate_cases stop k) as [Hn|(Hs' & ? & Hn)]; rewrite ?Hn in Ha;
    cbn in *; subst; naive_solver.
Qed.

Lemma step_holds s p actor an p' db' r' a :
  varchar_ok 128 (wk_id (pr_wk p)) = true →
  pstep actor an p (sys_db s) (sys_redis s) = Some (p', db', r') → held_by p' a →
  held_by p a ∨ at_execution_token a ∈ mints actor an p.
Proof using PostgresLaws0.
  intros Hw Hstep Ha. destruct actor; cbn in Hstep.
  - destruct (runner_step _ _ _ _ _ _ _ _ _) as [[[[pc h] d] r1]|] eqn:H; [|done].
    injection Hstep as <- <- <-. pose proof (runner_step_flow _ _ _ _ _ _ _ _ _ _ _ _ _ H) as Hf.
    destruct (flow_holds _ _ _ _ _ a Hf Ha) as [|(k & c & job & Hpc & Hpc' & Hat)]; [by left|right].
    subst pc. rewrite Hpc in H. cbn in H. unfold mints. rewrite Hpc.
    destruct (claim_job_cas (wk_default_lease (pr_wk p)) (an_now an) (an_token an) (qc_job_id c)
      (wk_id (pr_wk p)) (Some (wk_lease (pr_wk p))) (sys_db s) Hw) as (d1 & Hu & _).
    unfold db_call in H. destruct (an_fault an); rewrite ?Hu in H; simplify_eq/=.
    destruct (cas _ _ _ _) as [t [j|]] eqn:Hcas; simplify_eq/=.
    unfold cas in Hcas. repeat case_match; simplify_eq.
    apply attempt_of_spec in Hat as (_ & _ & Htok & _). cbn in Htok. simplify_eq. set_solver.
  - destruct (abandon_step _ _ _) as [[pc h]|] eqn:H; [|done]. injection Hstep as <- <- <-.
    apply abandon_step_flow in H as Hf.
    destruct (flow_holds _ _ _ _ _ a Hf Ha) as [|(k & c & job & Hpc & _)]; [by left|].
    by rewrite Hpc in H.
  - left. by repeat case_match; simplify_eq.
  - left. by repeat case_match; simplify_eq.
  - left. by repeat case_match; simplify_eq.
  - left. by repeat case_match; simplify_eq.
  - left. by repeat case_match; simplify_eq.
Qed.

Lemma step_same_worker actor an p db r p' db' r' :
  pstep actor an p db r = Some (p', db', r') → pr_wk p' = pr_wk p.
Proof using Type. intros H. destruct actor; cbn in H; by repeat case_match; simplify_eq. Qed.

Record fleet_ok (F : Fleet DB R) : Prop := {
  fo_process i p : fl_procs F !! i = Some p →
    process_ok p ∧ varchar_ok 128 (wk_id (pr_wk p)) = true;
  fo_minted i p a : fl_procs F !! i = Some p → held_by p a →
    at_execution_token a ∈ minted (fl_sys F);
  fo_distinct i j p q a b : i ≠ j → fl_procs F !! i = Some p → fl_procs F !! j = Some q →
    held_by p a → held_by q b → at_execution_token a ≠ at_execution_token b
}.

Lemma step_minted s s' : step s s' → minted s ⊆ minted s'.
Proof using Type. intros []; cbn; first [done|apply union_subseteq_r]. Qed.

(** Replacing one process by one that holds no attempt of its own making. *)
Lemma fleet_ok_insert s s' ps i p' :
  fleet_ok (mk_fleet s ps) → minted s ⊆ minted s' →
  process_ok p' ∧ varchar_ok 128 (wk_id (pr_wk p')) = true →
  (∀ a, held_by p' a → (∃ p, ps !! i = Some p ∧ held_by p a) ∨
     ((at_execution_token a ∉ minted s) ∧ at_execution_token a ∈ minted s')) →
  fleet_ok (mk_fleet s' (<[i := p']> ps)).
Proof using Type.
  intros [Hp Hm Hd] Hsub Hok Hheld. cbn in *. split; cbn.
  - intros j q [[<- <-]|[_ Hq]]%lookup_insert_Some; [done|by eapply Hp].
  - intros j q a [[<- <-]|[_ Hq]]%lookup_insert_Some Ha; [|by eapply Hsub, Hm].
    destruct (Hheld a Ha) as [(p & Hpi & Hpa)|[_ ?]]; [by eapply Hsub, Hm|done].
  - assert (∀ j q a b, i ≠ j → ps !! j = Some q → held_by p' a → held_by q b →
      at_execution_token a ≠ at_execution_token b) as Hone.
    { intros j q a b Hij Hq Ha Hb. destruct (Hheld a Ha) as [(p & Hpi & Hpa)|[Hno _]];
        [by apply (Hd i j p q a b)|]. intros E. apply Hno. rewrite E. by eapply Hm. }
    intros j k q q' a b Hjk [[<- <-]|[Hj Hq]]%lookup_insert_Some
      [[<- <-]|[Hk Hq']]%lookup_insert_Some Ha Hb;
      [done|by apply (Hone k q' a b)| |by apply (Hd j k q q' a b)].
    intros E. by apply (Hone j q b a).
Qed.

Lemma fleet_step_ok F F' : fleet_step F F' → fleet_ok F → fleet_ok F'.
Proof using PostgresLaws0.
  intros [s s' ps Hs|s ps i wk n m Hi Hw|s ps i p Hi|s ps i|s ps i p actor an p' db' r' Hi Hf Hst] Hok.
  - apply step_minted in Hs. destruct Hok. split; cbn in *; eauto.
  - apply (fleet_ok_insert s s); try done. split; [apply start_process_ok|done].
  - destruct (fo_process _ Hok i p Hi) as [Hp Hw].
    apply (fleet_ok_insert s s); try done; [split; [by apply request_stop_ok|done]|].
    intros a Ha. left. by exists p.
  - destruct Hok as [Hp Hm Hd]. split; cbn in *.
    + intros j q [_ Hq]%lookup_delete_Some. by eapply Hp.
    + intros j q a [_ Hq]%lookup_delete_Some. by eapply Hm.
    + intros j k q q' a b Hjk [_ Hq]%lookup_delete_Some [_ Hq']%lookup_delete_Some. by apply (Hd j k q q' a b).
  - destruct (fo_process _ Hok i p Hi) as [Hp Hw]. cbn in Hp, Hw.
    apply (fleet_ok_insert s); cbn; [done|set_solver| |].
    + split; [by eapply step_ok|]. by rewrite (step_same_worker _ _ _ _ _ _ _ _ Hst).
    + intros a Ha. destruct (step_holds s p actor an p' db' r' a Hw Hst Ha); [left; eauto|right].
      set_solver.
Qed.

Lemma fleet_reachable_ok F : fleet_reachable F → fleet_ok F.
Proof using PostgresLaws0.
  intros (F0 & [_ Hp] & Hs). assert (fleet_ok F0) as Hok.
  { split; intros; rewrite Hp in *; by simplify_map_eq. }
  clear Hp. induction Hs as [F|F1 F2 F3 H12 _ IH]; [done|]. by eapply IH, fleet_step_ok.
Qed.

(** ** Properties *)

Lemma fleet_step_refines F F' :
  fleet_ok F → fleet_step F F' → fl_sys F' = fl_sys F ∨ step (fl_sys F) (fl_sys F').
Proof using PostgresLaws0.
  intros Hok Hstep. revert Hok.
  destruct Hstep as [s s' ps Hs|s ps i wk n m Hi Hw|s ps i p Hi|s ps i|s ps i p actor an p' db' r' Hi Hf Hst];
    intros Hok; cbn; [by right|by left..|right].
  destruct (fo_process _ Hok i p Hi) as [_ Hw]. by eapply process_refines.
Qed.

Lemma fleet_steps_refine F F' :
  fleet_ok F → rtc fleet_step F F' → rtc step (fl_sys F) (fl_sys F').
Proof using PostgresLaws0.
  intros Hok Hs. induction Hs as [F|F1 F2 F3 H12 _ IH]; [apply rtc_refl|].
  destruct (fleet_step_refines F1 F2 Hok H12) as [<-|Hst].
  - by eapply IH, fleet_step_ok.
  - eapply rtc_l; [exact Hst|]. by eapply IH, fleet_step_ok.
Qed.

Lemma fleet_reachable_service F : fleet_reachable F → reachable (fl_sys F).
Proof using PostgresLaws0.
  intros (F0 & [Hi Hp] & Hs). exists (fl_sys F0). split; [done|].
  apply fleet_steps_refine; [|done]. apply fleet_reachable_ok. exists F0. split; [done|apply rtc_refl].
Qed.

(** C13: Any number of worker processes, starting, crashing and acting await by await in any
    order, over faulty connections, refine the service: what they reach the service
    reaches, and what they do next the service can do next, so every invariant and
    every history of the service is theirs. *)
Theorem fleet_refines_the_service F F' (Hr : fleet_reachable F) (Hs : rtc fleet_step F F') :
  reachable (fl_sys F) ∧ rtc step (fl_sys F) (fl_sys F').
Proof using PostgresLaws0.
  split; [by apply fleet_reachable_service|]. apply fleet_steps_refine; [|done].
  by apply fleet_reachable_ok.
Qed.

(** An owner's call changes no row but the one its attempt owns. *)
Lemma owner_call_changes dl now a c db id row :
  jobs_table db !! id = Some row → jobs_table (owner_call dl now a c db).1 !! id ≠ Some row →
  id = at_job_id a ∧ owns a row = true.
Proof using PostgresLaws0.
  intros Hrow Hne. destruct (decide (delay_known a c)) as [Hd|Hd].
  - destruct (owner_call_cas dl now a c db Hd) as (db' & Hu & Ht). rewrite Hu in Hne. cbn in Hne.
    rewrite Ht in Hne. destruct (jobs_table db !! at_job_id a) as [x|] eqn:Hx.
    + destruct (call_fence now a c x) eqn:Hf.
      * rewrite (cas_hit _ _ _ _ x) in Hne by done. cbn in Hne.
        rewrite lookup_insert in Hne. case_decide as Hi; [|done]. subst id. split; [done|].
        simplify_eq. by eapply call_fence_owns.
      * rewrite cas_miss in Hne; [done|]. intros y Hy. congruence.
    + rewrite cas_miss in Hne; [done|]. intros y Hy. congruence.
  - destruct (owner_call_no_delay dl now a c db Hd) as [res Hu]. by rewrite Hu in Hne.
Qed.

(** A step of a runner or a heartbeat that changes a running job is its owner's. *)
Lemma changes_own_row s p actor an p' db' r' id row :
  varchar_ok 128 (wk_id (pr_wk p)) = true →
  pstep actor an p (sys_db s) (sys_redis s) = Some (p', db', r') →
  actor ≠ A_scheduler → actor ≠ A_recovery →
  T s !! id = Some row → status row = PROCESSING → jobs_table db' !! id ≠ Some row →
  ∃ a, held_by p a ∧ id = at_job_id a ∧ owns a row = true.
Proof using PostgresLaws0.
  intros Hw He%process_step_effect Hns Hnr Hrow Hst Hne.
  destruct He as [|k c Hpc Hf|actor a dl c Ha _ _|n|n]; [done| |exists a|done..].
  - destruct (claim_job_cas (wk_default_lease (pr_wk p)) (an_now an) (an_token an) (qc_job_id c)
      (wk_id (pr_wk p)) (Some (wk_lease (pr_wk p))) (sys_db s) Hw) as (d1 & Hu & Ht).
    rewrite Hu in Hne. cbn in Hne. rewrite Ht in Hne. unfold cas in Hne.
    destruct (T s !! qc_job_id c) as [x|] eqn:Hx; [|done].
    destruct (claimable x) eqn:Hc; [|done]. cbn in Hne. rewrite lookup_insert in Hne.
    case_decide as Hi; [|done]. subst id. simplify_eq. unfold claimable in Hc. to_prop. congruence.
  - split; [done|]. by eapply owner_call_changes.
Qed.

(** C5: A running job has one writer: of all the processes of a fleet, whatever they
    believe they own, at most one can change a PROCESSING job by the writes of its
    runner and its heartbeat (progress, lease, completion, failure). *)
Theorem running_job_has_one_writer F i j p q actor actor' an an' p' q' db1 r1 db2 r2 id row
    (Hr : fleet_reachable F) (Hp : fl_procs F !! i = Some p) (Hq : fl_procs F !! j = Some q)
    (Hrow : T (fl_sys F) !! id = Some row) (Hst : status row = PROCESSING)
    (Ha : actor ≠ A_scheduler ∧ actor ≠ A_recovery) (Ha' : actor' ≠ A_scheduler ∧ actor' ≠ A_recovery)
    (Hstep : pstep actor an p (sys_db (fl_sys F)) (sys_redis (fl_sys F)) = Some (p', db1, r1))
    (Hstep' : pstep actor' an' q (sys_db (fl_sys F)) (sys_redis (fl_sys F)) = Some (q', db2, r2))
    (Hch : jobs_table db1 !! id ≠ Some row) (Hch' : jobs_table db2 !! id ≠ Some row) :
  i = j.
Proof using PostgresLaws0.
  apply fleet_reachable_ok in Hr as Hok.
  destruct (fo_process _ Hok i p Hp) as [_ Hw], (fo_process _ Hok j q Hq) as [_ Hw'].
  destruct Ha as [Hn1 Hn2], Ha' as [Hn1' Hn2'].
  destruct (changes_own_row (fl_sys F) p actor an p' db1 r1 id row) as (a & Hh & _ & Ho); [done..|].
  destruct (changes_own_row (fl_sys F) q actor' an' q' db2 r2 id row) as (b & Hh' & _ & Ho'); [done..|].
  destruct (decide (i = j)) as [|Hij]; [done|].
  destruct (fo_distinct _ Hok i j p q a b Hij Hp Hq Hh Hh').
  apply owns_spec in Ho as (_ & _ & Ht), Ho' as (_ & _ & Ht'). congruence.
Qed.

(** C16: In every process of every fleet: the heartbeat has ended when the attempt is
    settled, so no beat can race the settling write; and the Redis client and the
    engine are closed only after all three loops have returned. *)
Theorem processes_keep_order F i p (Hr : fleet_reachable F) (Hp : fl_procs F !! i = Some p) :
  (∀ a v, pr_runner p = R_settle a v → pr_heart p = no_heart) ∧
  (pr_redis_open p = false ∨ pr_engine_open p = false →
     pr_runner p = R_stopped ∧ pr_scheduler p = S_stopped ∧ pr_recovery p = V_stopped) ∧
  (pr_main p ≠ M_gather → pr_stop p = true).
Proof using PostgresLaws0.
  destruct (fo_process _ (fleet_reachable_ok F Hr) i p Hp) as [[Hh Hs Hm Hro Heo] _].
  split; [|split].
  - intros a v Hpc. apply (ok_none _ _ Hh). by rewrite Hpc.
  - intros Hc. apply Hm. intros E. rewrite Hro, Heo in Hc by (rewrite E; auto). by destruct Hc.
  - intros Hg. apply Hs. destruct (Hm Hg) as [-> _]. by left.
Qed.

(** C15: SIGTERM ends every process: at whatever point of whatever history it arrives, the
    process exits, and neither the servers' answers, the order of its coroutines
    nor any number of heartbeats can keep it from that. *)
Theorem signalled_process_exits F i p (Hr : fleet_reachable F) (Hp : fl_procs F !! i = Some p) :
  winds_down (DB := DB) (R := R) py_str exn_repr (request_stop p).
Proof using PostgresLaws0.
  destruct (fo_process _ (fleet_reachable_ok F Hr) i p Hp) as [Hok _].
  exact (stopping_winds_down _ _ (request_stop p) (request_stop_ok p Hok) eq_refl).
Qed.
End fleet.

(** ** Witnesses: two workers and one job *)

Definition no_text {A} : A → string := λ _, "".

(** One step of process [i], if it can take it. *)
Definition advance (i : nat) (actor : Actor) (an : Answer) (F : Fleet MemDB MemRedis)
    : Fleet MemDB MemRedis :=
  match fl_procs F !! i with
  | None => F
  | Some p =>
      match process_step no_text no_text actor an p (sys_db (fl_sys F)) (sys_redis (fl_sys F)) with
      | Some (p', db', r') =>
          if decide (mints actor an p ## minted (fl_sys F))
          then mk_fleet (mk_sys db' r' (mints actor an p ∪ minted (fl_sys F))) (<[i := p']> (fl_procs F))
          else F
      | None => F
      end
  end.

Lemma advance_steps i actor an F : rtc (fleet_step no_text no_text) F (advance i actor an F).
Proof.
  unfold advance. destruct (fl_procs F !! i) as [p|] eqn:Hp; [|apply rtc_refl].
  destruct (process_step _ _ _ _ _ _ _) as [[[p' db'] r']|] eqn:Hstep; [|apply rtc_refl].
  case_decide as Hf; [|apply rtc_refl]. apply rtc_once. destruct F. by eapply fleet_process.
Qed.

Lemma advance_reachable i actor an F :
  fleet_reachable no_text no_text F → fleet_reachable no_text no_text (advance i actor an F).
Proof.
  intros (F0 & Hi & Hs). exists F0. split; [done|]. etrans; [exact Hs|]. apply advance_steps.
Qed.

Definition demo_start : Fleet MemDB MemRedis :=
  mk_fleet (do_submit s_empty (demo_env 2000 11) no_fault demo_request None)
    (<[1%nat := start_process demo_worker 10 10]> (<[0%nat := start_process demo_worker 10 10]> ∅)).

Lemma demo_start_reachable : fleet_reachable no_text no_text demo_start.
Proof.
  exists (mk_fleet s_empty ∅). split; [by split|].
  eapply rtc_l; [apply fleet_service, do_submit_step, demo_alone|].
  eapply rtc_l; [by apply (fleet_start _ _ _ _ 0%nat demo_worker 10 10)|].
  apply rtc_once. by apply (fleet_start _ _ _ _ 1%nat demo_worker 10 10).
Qed.

(** Worker 0 has claimed the job and runs its handler; a beat is on its way. *)
Definition demo_running : Fleet MemDB MemRedis :=
  advance 0 A_heart (demo_answer no_fault 20003000)
    (advance 0 A_runner (demo_answer no_fault 3000)
      (advance 0 A_runner (demo_answer no_fault 3000)
        (advance 0 A_runner (demo_answer no_fault 3000)
          (advance 0 A_runner (demo_answer no_fault 3000) demo_start)))).

Lemma demo_running_reachable : fleet_reachable no_text no_text demo_running.
Proof. do 5 apply advance_reachable. apply demo_start_reachable. Qed.

Definition demo_p0 : Process :=
  default (start_process demo_worker 10 10) (fl_procs demo_running !! 0%nat).

Lemma demo_p0_in : fl_procs demo_running !! 0%nat = Some demo_p0.
Proof. vm_compute. reflexivity. Qed.

Definition demo_beat : option (Process * MemDB * MemRedis) :=
  process_step no_text no_text A_heart (demo_answer no_fault 20004000) demo_p0
    (sys_db (fl_sys demo_running)) (sys_redis (fl_sys demo_running)).

Example demo_p0_beats : h_pc (pr_heart demo_p0) = H_beating. Proof. vm_compute. reflexivity. Qed.

Lemma demo_beat_writes :
  match demo_beat with
  | Some (_, db', _) => mem_table db' !! 11 ≠ Some (job_in (fl_sys demo_running))
  | None => False
  end.
Proof. vm_compute. intros H. by apply (inj Some) in H. Qed.

Lemma fleet_refines_the_service_witness :
  reachable (fl_sys demo_running) ∧
  rtc step (fl_sys demo_running)
    (fl_sys (advance 0 A_heart (demo_answer no_fault 20004000) demo_running)).
Proof.
  apply (fleet_refines_the_service no_text no_text); [apply demo_running_reachable|].
  apply advance_steps.
Defined.

Lemma demo_row_in :
  mem_table (sys_db (fl_sys demo_running)) !! 11 = Some (job_in (fl_sys demo_running)).
Proof. vm_compute. reflexivity. Qed.

Lemma demo_row_processing : status (job_in (fl_sys demo_running)) = PROCESSING.
Proof. vm_compute. reflexivity. Qed.

Lemma running_job_has_one_writer_witness :
  (∃ p' db' r', demo_beat = Some (p', db', r') ∧
     mem_table db' !! 11 ≠ Some (job_in (fl_sys demo_running))) ∧ 0%nat = 0%nat.
Proof.
  assert (A_heart ≠ A_scheduler ∧ A_heart ≠ A_recovery) as Hn by done.
  pose proof demo_beat_writes as Hw. destruct demo_beat as [[[p' db'] r']|] eqn:Hb; [|destruct Hw].
  split; [exists p', db', r'; split; [reflexivity|exact Hw]|].
  unfold demo_beat in Hb.
  exact (running_job_has_one_writer no_text no_text demo_running 0 0 demo_p0 demo_p0 A_heart A_heart
    _ _ p' p' db' r' db' r' 11 (job_in (fl_sys demo_running)) demo_running_reachable
    demo_p0_in demo_p0_in demo_row_in demo_row_processing Hn Hn Hb Hb Hw Hw).
Defined.

Lemma processes_keep_order_witness :
  h_pc (pr_heart demo_p0) = H_beating ∧ ¬ ∃ a v, pr_runner demo_p0 = R_settle a v.
Proof.
  split; [exact demo_p0_beats|]. intros (a & v & Hv).
  destruct (processes_keep_order no_text no_text demo_running 0 demo_p0 demo_running_reachable
    demo_p0_in) as (H & _ & _). pose proof (H a v Hv) as Hn.
  pose proof demo_p0_beats as Hb. rewrite Hn in Hb. discriminate Hb.
Defined.

Lemma signalled_process_exits_witness :
  winds_down (DB := MemDB) (R := MemRedis) no_text no_text (request_stop demo_p0).
Proof. exact (signalled_process_exits no_text no_text demo_running 0 demo_p0 demo_running_reachable demo_p0_in). Defined.
