(* ===== verification/Requests.v ===== *)
(** * Requests: the three mutating calls of the API, await by await

    [submit_job], [cancel_job] and [retry_job] as the machine a request runs: one
    database transaction, then what is to be done in Redis.  Between two steps other
    requests and workers act, and the request may be dropped with its process.
    Run without interruption the machine computes what [Submission] and [Mutations]
    define; step by step, a submission is stored before it is published. *)

From S2P Require Import Prelude.
From S2P Require Import Text.
From S2P Require Import Errors.
From S2P Require Import Model.
From S2P Require Import Postgres.
From S2P Require Import MemDB.
From S2P Require Import Session.
From S2P Require Import Ownership.
From S2P Require Import Heartbeat.
From S2P Require Import Redis.
From S2P Require Import ReadyQueue.
From S2P Require Import Schemas.
From S2P Require Import Submission.
From S2P Require Import Mutations.

Local Open Scope Z_scope.

Inductive ApiCall (DB : Type) :=
  | Submit (env : Env DB) (request : JobCreateRequest) (key : option string)
  | Cancel (id : uuid)
  | Retry (id : uuid).
Arguments Submit {DB}. Arguments Cancel {DB}. Arguments Retry {DB}.

(** Where a request waits.  The flag is [create_job]'s [created]; for a cancellation
    or a retry it is false. *)
Inductive RequestPc (DB : Type) :=
  | Q_transaction (c : ApiCall DB)
  (** No row matched: the row is read to tell why. *)
  | Q_refused (id : uuid) (cancelling : bool)
  | Q_publish (job : Job) (created : bool)
  (** [remove_current] of a cancelled job: the lookup, then the removal. *)
  | Q_lookup (job : Job)
  | Q_remove (job : Job) (c : QueueCandidate)
  | Q_answer (res : result exn (Job * bool)).
Arguments Q_transaction {DB}. Arguments Q_refused {DB}. Arguments Q_publish {DB}.
Arguments Q_lookup {DB}. Arguments Q_remove {DB}. Arguments Q_answer {DB}.

Section requests.
Context {DB : Type} `{!Postgres DB} {R : Type} `{!Redis R}.

Definition refusal (id : uuid) (cancelling : bool) (existing : option Job)
    : result exn (Job * bool) :=
  match existing with
  | None => Err (JobNotFoundError id)
  | Some job =>
      if cancelling && bool_decide (status job = CANCELLED) then Ok (job, false)
      else Err (JobConflictError id (if cancelling then "cancel" else "retry")
                  (status_value (status job)))
  end.

(** [None]: the request has its answer. *)
Definition request_step (f : fault) (pc : RequestPc DB) (db : DB) (r : R)
    : option (RequestPc DB * DB * R) :=
  match pc with
  | Q_transaction (Submit env request key) =>
      match db_call f (run_session (create_job env request key)) db with
      | (db, Err e) => Some (Q_answer (Err e), db, r)
      | (db, Ok (job, created)) =>
          Some (if created && bool_decide (status job = PENDING) then Q_publish job created
                else Q_answer (Ok (job, created)), db, r)
      end
  | Q_transaction (Cancel id) =>
      match db_call f (run_session (cancel_transaction id)) db with
      | (db, Err e) => Some (Q_answer (Err e), db, r)
      | (db, Ok (Some job)) => Some (Q_lookup job, db, r)
      | (db, Ok None) => Some (Q_refused id true, db, r)
      end
  | Q_transaction (Retry id) =>
      match db_call f (run_session (retry_transaction id)) db with
      | (db, Err e) => Some (Q_answer (Err e), db, r)
      | (db, Ok (Some job)) => Some (Q_publish job false, db, r)
      | (db, Ok None) => Some (Q_refused id false, db, r)
      end
  | Q_refused id cancelling =>
      match db_call f (run_session (get_job id)) db with
      | (db, Err e) => Some (Q_answer (Err e), db, r)
      | (db, Ok existing) => Some (Q_answer (refusal id cancelling existing), db, r)
      end
  | Q_publish job created =>
      let '(r, _) := call f (enqueue (job_id job) (priority job)) r in
      Some (Q_answer (Ok (job, created)), db, r)
  | Q_lookup job =>
      match call f (λ r, (r, Ok (current_member (job_id job) r))) r with
      | (r, Ok (Some m)) =>
          Some (match from_member m with
                | Ok c => Q_remove job c
                | Err _ => Q_answer (Ok (job, false))
                end, db, r)
      | (r, _) => Some (Q_answer (Ok (job, false)), db, r)
      end
  | Q_remove job c =>
      let '(r, _) := call f (remove c) r in
      Some (Q_answer (Ok (job, false)), db, r)
  | Q_answer _ => None
  end.

(** Run a request with nothing between its awaits. *)
Fixpoint serve (faults : list fault) (pc : RequestPc DB) (db : DB) (r : R)
    : RequestPc DB * DB * R :=
  match faults with
  | [] => (pc, db, r)
  | f :: faults =>
      match request_step f pc db r with
      | Some (pc, db, r) => serve faults pc db r
      | None => (pc, db, r)
      end
  end.

(** The route's answer to a job. *)
Definition answer_job (res : result exn Job) : result exn (Job * bool) :=
  match res with Ok job => Ok (job, false) | Err e => Err e end.

(** The atomic definition of a call. *)
Definition api_call (c : ApiCall DB) (f : fault) (db : DB) (r : R)
    : DB * R * result exn (Job * bool) :=
  match c with
  | Submit env request key => submit_job env f request key db r
  | Cancel id =>
      let '(db, r, res) := cancel_job (λ db, db) f (λ r, r) id db r in
      (db, r, answer_job res)
  | Retry id =>
      let '(db, r, res) := retry_job (λ db, db) f id db r in
      (db, r, answer_job res)
  end.

Context `{!PostgresLaws DB}.

Lemma serve_answer faults (res : result exn (Job * bool)) db r :
  serve faults (Q_answer res) db r = (Q_answer res, db, r).
Proof using Type. by destruct faults. Qed.

(** The clean-up of a cancelled job, as one call of [remove_current]. *)
Lemma serve_lookup f job db r :
  ∃ f1 f2, serve [f1; f2] (Q_lookup job) db r =
    (Q_answer (Ok (job, false)), db, remove_ready_entry f (λ r, r) (job_id job) r).
Proof using Type.
  exists (if decide (f = command_lost) then command_lost else no_fault), f.
  unfold remove_ready_entry. cbn [serve request_step].
  destruct f; cbn [call decide]; repeat (case_decide; try done); cbn [call]; try done;
    unfold remove_current; destruct (current_member (job_id job) r) as [m|]; try done;
    destruct (from_member m) as [c|e]; try done; cbn [serve request_step call];
    by destruct (remove c r) as [r1 [b|e]].
Qed.

(** The split loses nothing: a request that is not interrupted gives the answer and
    leaves the stores that the service function gives and leaves, whatever becomes of
    its Redis call.  So what [Submission] and [Mutations] prove of the calls holds of the
    machine, and the other way round. *)
Lemma requests_run_the_calls c f db r :
  ∃ f1 f2, serve [no_fault; f1; f2] (Q_transaction c) db r =
    let '(db', r', res) := api_call c f db r in (Q_answer res, db', r').
Proof using PostgresLaws0.
  destruct c as [env request key|id|id]; cbn [api_call].
  - exists f, no_fault. unfold submit_job, submit_job_over. cbn [db_call]. cbn [serve request_step db_call].
    destruct (run_session _ db) as [db1 [[job created]|e]]; [|done].
    destruct (created && _); [|done]. cbn [serve request_step].
    by destruct (call f _ r).
  - destruct (cancel_update db id) as (db1 & Hu & _). unfold cancel_job, cancel_job_over. cbn [db_call].
    cbn [serve request_step db_call]. rewrite Hu.
    destruct ((cas _ _ _ _).2) as [job|] eqn:Hc; cbn [serve request_step].
    + destruct (serve_lookup f job db1 r) as (f1 & f2 & Hs). exists f1, f2.
      change (serve [f1; f2] (Q_lookup job) db1 r = (Q_answer (Ok (job, false)), db1,
        remove_ready_entry f (λ r, r) (job_id job) r)). exact Hs.
    + exists no_fault, no_fault. cbn [db_call]. rewrite run_get_job. unfold refusal.
      destruct (jobs_table db1 !! id) as [job|]; [|done]. by destruct (decide (status job = CANCELLED)) as [->|Hn];
        [|rewrite bool_decide_false by done].
  - destruct (retry_update db id) as (db1 & Hu & _). unfold retry_job, retry_job_over. cbn [db_call].
    destruct ((cas _ _ _ _).2) as [job|] eqn:Hc.
    + exists f, no_fault. cbn [serve request_step db_call]. rewrite Hu. cbn [serve request_step].
      by destruct (call f _ r) as [r1 [x|e]].
    + exists no_fault, no_fault. cbn [serve request_step db_call]. rewrite Hu.
      cbn [serve request_step db_call]. rewrite run_get_job. by destruct (jobs_table db1 !! id).
Qed.

(** C24: A new submission is durable before it is visible.  At its first await the row is
    committed, with a fresh attempt budget, SCHEDULED exactly when its time is in the
    future, and Redis is as it was; a job that is due is published at the second, from
    whatever the stores have become by then.  If the transaction fails nothing is
    published.  The row is fixed before Redis is asked: what becomes of that call
    changes neither the row nor the answer. *)
Theorem submission_is_stored_before_it_is_published env request key db r
    (Hreq : request_fields_ok request = true) (Hlen : opt_ok (varchar_ok 255) key = true)
    (Hkey : key ≠ Some "") (Halone : alone env) (Hclock : now_find env ≤ now_release env)
    (Hfree : ∀ k i job, key = Some k → jobs_table db !! i = Some job → holds_key k job →
                        live (now_find env) job = false)
    (Hnew : jobs_table db !! new_id env = None) :
  ∃ job db',
    jobs_table db' = <[new_id env := job]> (after_release env key (jobs_table db)) ∧
    attempt_count job = 0 ∧ max_attempts job = 3 ∧ priority job = req_priority request ∧
    idempotency_key job = key ∧
    (status job = SCHEDULED ∧ (∃ z, scheduled_at job = Some z ∧ now_build env < z) ∨
     status job = PENDING ∧ (∀ z, scheduled_at job = Some z → z ≤ now_build env)) ∧
    (∀ c, request_step c (Q_transaction (Submit env request key)) db r =
       Some (match c with
             | no_fault => if decide (status job = PENDING) then Q_publish job true
                           else Q_answer (Ok (job, true))
             | _ => Q_answer (Err (DBAPIError "connection was closed"))
             end,
             if decide (c = command_lost) then db else db', r)) ∧
    (∀ f db1 r1, request_step f (Q_publish job true) db1 r1 =
       Some (Q_answer (Ok (job, true)), db1,
             (call f (enqueue (new_id env) (req_priority request)) r1).1)) ∧
    ∀ f, submit_job env f request key db r =
      (db', (if decide (status job = PENDING)
             then (call f (enqueue (new_id env) (req_priority request)) r).1 else r),
       Ok (job, true)).
Proof using PostgresLaws0.
  destruct (create_stores env request key db)
    as (job & db' & Hrun & Ht & Hid & Hac & Hma & Hpr & Hjk & Hst); [done..|].
  exists job, db'. do 6 (split; [done|]). split; [|split].
  - intros c. cbn [request_step]. unfold db_call. rewrite Hrun. destruct c; [|done|done]. cbn [andb].
    case_decide; [by rewrite bool_decide_true|by rewrite bool_decide_false].
  - intros f db1 r1. cbn [request_step]. rewrite Hid, Hpr. by destruct (call f _ r1).
  - intros f. unfold submit_job, submit_job_over. cbn [db_call]. rewrite Hrun, Hid, Hpr. cbn [andb].
    case_decide; [rewrite bool_decide_true by done|by rewrite bool_decide_false].
    by destruct (call f (enqueue (new_id env) (req_priority request)) r).
Qed.
End requests.

(** ** Witness: a cancellation whose clean-up reaches Redis but loses the reply *)

Lemma requests_run_the_calls_witness :
  (∃ f1 f2, serve [no_fault; f1; f2] (Q_transaction (Cancel 7)) demo_db (enqueue 7 50 redis_empty).1 =
    let '(db', r', res) := api_call (Cancel 7) reply_lost demo_db (enqueue 7 50 redis_empty).1 in
    (Q_answer res, db', r')) ∧
  current_member 7 (api_call (Cancel 7) reply_lost demo_db (enqueue 7 50 redis_empty).1).1.2 = None.
Proof.
  split; [|vm_compute; reflexivity].
  exact (requests_run_the_calls (Cancel 7) reply_lost demo_db (enqueue 7 50 redis_empty).1).
Defined.

(** A submission that loses Redis: the row is there, and the answer says so. *)
Lemma submission_is_stored_before_it_is_published_witness :
  ∃ job db',
    request_step no_fault (Q_transaction (Submit (demo_env 2000 11) demo_request (Some "k")))
      demo_db demo_queue = Some (if decide (status job = PENDING) then Q_publish job true
                                 else Q_answer (Ok (job, true)), db', demo_queue) ∧
    is_Some (jobs_table db' !! 11) ∧
    submit_job (demo_env 2000 11) command_lost demo_request (Some "k") demo_db demo_queue =
      (db', (if decide (status job = PENDING)
             then (call command_lost (enqueue 11 5) demo_queue).1 else demo_queue), Ok (job, true)).
Proof.
  destruct (submission_is_stored_before_it_is_published (demo_env 2000 11) demo_request (Some "k")
    demo_db demo_queue ltac:(done) ltac:(done) ltac:(done) (demo_alone _ _) ltac:(done))
    as (job & db' & Ht & _ & _ & _ & _ & _ & Hc & _ & Hs).
  - by_demo_rows.
  - vm_compute. done.
  - exists job, db'. split; [exact (Hc no_fault)|]. split; [|exact (Hs command_lost)].
    rewrite Ht. exists job. apply lookup_insert_eq.
Defined.
