(* ===== verification/Visibility.v ===== *)
(** * Visibility: where a PENDING job can be

    The service closed: API requests ([Requests]) and worker processes ([Process],
    [Fleet]) over one database and one Redis, interleaved at every await, and nobody
    else.  A ghost set records the publications that never reached Redis: the
    command was lost, or its sender died or lost the reply of its commit first.
    What is proved is the contract between the two stores: a PENDING job has an
    entry in the ready queue, or somebody is about to publish it, or its publication
    was lost; and a job of the last kind is never seen by a worker again. *)

From S2P Require Import Prelude.
From S2P Require Import Text.
From S2P Require Import Errors.
From S2P Require Import Model.
From S2P Require Import Postgres.
From S2P Require Import MemDB.
From S2P Require Import Session.
From S2P Require Import Ownership.
From S2P Require Import Config.
From S2P Require Import Redis.
From S2P Require Import ReadyQueue.
From S2P Require Import Schemas.
From S2P Require Import Submission.
From S2P Require Import Mutations.
From S2P Require Import Fencing.
From S2P Require Import Lifecycle.
From S2P Require Import Handlers.
From S2P Require Import Heartbeat.
From S2P Require Import Runner.
From S2P Require Import Worker.
From S2P Require Import Process.
From S2P Require Import Fleet.
From S2P Require Import Requests.

Local Open Scope Z_scope.

(** ** PENDING rows *)

Definition pending (t : table) (id : uuid) : Prop :=
  ∃ row, t !! id = Some row ∧ status row = PENDING.

Definition pending_ids (t : table) : gset uuid :=
  dom (filter (λ x, status x.2 = PENDING) t).

Lemma elem_of_pending_ids t id : id ∈ pending_ids t ↔ pending t id.
Proof.
  unfold pending_ids, pending. rewrite elem_of_dom. unfold is_Some.
  by setoid_rewrite map_lookup_filter_Some.
Qed.

(** How a statement changes the table: no row appears, and none becomes PENDING but
    the [new] ones. *)
Record settles_down (new : uuid → Prop) (t t' : table) : Prop := {
  sd_rows id : is_Some (t' !! id) → is_Some (t !! id);
  sd_pending id : pending t' id → pending t id ∨ new id
}.

Lemma settles_down_refl new t : settles_down new t t.
Proof. split; [done|by left]. Qed.

Lemma cas_settles_down new i p f t :
  (∀ r, p r = true → status (f r) = PENDING → status r = PENDING ∨ new i) →
  settles_down new t (cas i p f t).1.
Proof.
  intros Hf. unfold cas. destruct (t !! i) as [r|] eqn:Hr; [|apply settles_down_refl].
  destruct (p r) eqn:Hp; [|apply settles_down_refl]. cbn. split.
  - intros id. rewrite lookup_insert. case_decide; [subst|done]. by rewrite Hr.
  - intros id (row & Hrow & Hs). rewrite lookup_insert in Hrow.
    case_decide; [subst id; simplify_eq|left; by exists row].
    destruct (Hf r Hp Hs); [left; by exists r|by right].
Qed.

Lemma map_rows_settles_down new f ids t :
  (∀ id r, t !! id = Some r → id ∈ ids → status (f r) = PENDING → new id) →
  settles_down new t (map_rows f ids t).
Proof.
  intros Hf. split; intros id; unfold pending; rewrite lookup_map_rows; [by rewrite fmap_is_Some|].
  intros (row & (r & Hr & ->)%fmap_Some & Hs). case_bool_decide; [right; eauto|left; by exists r].
Qed.

(** ** The index and what is on its way to it *)

(** What a client of the queue read there. *)
Definition genuine {R} `{!Redis R} (r : R) (c : QueueCandidate) : Prop :=
  uuid_ok (qc_job_id c) ∧ qc_member c = member (qc_sequence c) (qc_job_id c) ∧
  0 ≤ qc_sequence c ≤ counter r SEQUENCE_KEY ∧ qc_sequence c < SEQ_BOUND.

Section index.
Context {R : Type} `{!Redis R, !RedisLaws R}.
Implicit Types (r : R) (t : table).

(** [coming] are the jobs somebody will publish, [lost] those whose publication was
    lost; [seen] are the candidates read from the queue and [dropping] those about to
    be removed.  A removal can only hit the entry of a PENDING job that is covered
    otherwise. *)
Definition indexed t r (coming lost : uuid → Prop) (seen dropping : QueueCandidate → Prop)
    : Prop :=
  ∃ q, represents r q ∧ (∀ c, seen c → genuine r c) ∧
    (∀ c, dropping c → pending t (qc_job_id c) →
       snd <$> q !! qc_job_id c = Some (qc_sequence c) → coming (qc_job_id c) ∨ lost (qc_job_id c)) ∧
    (∀ id, pending t id → is_Some (q !! id) ∨ coming id ∨ lost id).

(** A candidate read from the queue, by [peek] or by its job. *)
Definition read_from r (c : QueueCandidate) : Prop :=
  peek r = Ok (Some c) ∨
  ∃ id m, uuid_ok id ∧ current_member id r = Some m ∧ from_member m = Ok c.

Lemma current_member_spec r q id :
  represents r q → uuid_ok id → current_member id r = (λ e, member e.2 id) <$> q !! id.
Proof using RedisLaws0.
  intros Hr Hid. unfold current_member. rewrite hget_spec. by apply rep_lookup_hash.
Qed.

Lemma queued_genuine r q id p seq :
  represents r q → q !! id = Some (p, seq) → genuine r (MkCandidate id (member seq id) seq).
Proof using Type.
  intros Hr Hq. destruct (rep_wf _ _ Hr _ _ _ Hq) as (Hid & _ & Hs & Hb).
  unfold genuine. cbn. split; [done|]. split; [done|]. lia.
Qed.

Lemma read_genuine r q c : represents r q → read_from r c → genuine r c.
Proof using RedisLaws0.
  intros Hr [Hp|(id & m & Hid & Hm & Hc)].
  - destruct (peek_spec r q Hr) as [[_ H]|(id & p & seq & Hq & H & _)]; rewrite H in Hp; [done|].
    simplify_eq. by eapply queued_genuine.
  - rewrite (current_member_spec r q) in Hm by done.
    apply fmap_Some in Hm as ([p seq] & Hq & ->). cbn in Hc.
    destruct (rep_bounds _ _ _ _ _ Hr Hq) as [_ Hs].
    rewrite from_member_member in Hc by done. simplify_eq. by eapply queued_genuine.
Qed.

Lemma indexed_quiet t t' r (coming coming' lost lost' : uuid → Prop)
    (seen seen' dropping dropping' : QueueCandidate → Prop) :
  indexed t r coming lost seen dropping →
  (∀ id, pending t' id → pending t id ∨ coming' id ∨ lost' id) →
  (∀ id, coming id ∨ lost id → coming' id ∨ lost' id) →
  (∀ c, seen' c → seen c ∨ read_from r c) →
  (∀ c, dropping' c → dropping c ∨ ¬ pending t' (qc_job_id c)) →
  indexed t' r coming' lost' seen' dropping'.
Proof using RedisLaws0.
  intros (q & Hr & Hs & Hd & Hv) Hp Hk Hs' Hd'. exists q. split; [done|]. split; [|split].
  - intros c [?|?]%Hs'; [by apply Hs|by eapply read_genuine].
  - intros c [Hc|Hc]%Hd' Hpc Hq; [|done]. destruct (Hp _ Hpc) as [?|?]; [|done].
    by apply Hk, Hd.
  - intros id [Hid|?]%Hp; [|by right]. destruct (Hv id Hid) as [|?]; [by left|right; by apply Hk].
Qed.

Lemma indexed_enqueue t r id p (coming coming' lost lost' : uuid → Prop)
    (seen seen' dropping dropping' : QueueCandidate → Prop) :
  indexed t r coming lost seen dropping →
  uuid_ok id → counter r SEQUENCE_KEY + 1 < SEQ_BOUND →
  (∀ i, i ≠ id → coming i ∨ lost i → coming' i ∨ lost' i) →
  (∀ c, seen' c → seen c) → (∀ c, dropping' c → dropping c) → (∀ c, dropping' c → seen c) →
  indexed t (enqueue id p r).1 coming' lost' seen' dropping'.
Proof using RedisLaws0.
  intros (q & Hr & Hs & Hd & Hv) Hid Hn Hk Hs' Hd' Hds.
  destruct (enqueue_spec r q id p Hr Hid Hn) as (r' & -> & Hr' & Hc). cbn [fst].
  exists (a_enqueue id p (counter r SEQUENCE_KEY + 1) q). split; [done|]. split; [|split].
  - intros c Hc'. destruct (Hs c (Hs' c Hc')) as (? & ? & ? & ?). do 2 (split; [done|]). lia.
  - intros c Hc' Hp Hq. unfold a_enqueue in Hq. rewrite lookup_insert in Hq. case_decide as Hi.
    + destruct (Hs c (Hds c Hc')) as (_ & _ & ? & _). cbn in Hq. simplify_eq. lia.
    + apply Hk; [congruence|]. apply Hd; [by apply Hd'|done|done].
  - intros i Hp. unfold a_enqueue. rewrite lookup_insert. case_decide as Hi; [left; by eexists|].
    destruct (Hv i Hp) as [?|?]; [by left|right; by apply Hk].
Qed.

Lemma indexed_remove t r c (coming coming' lost lost' : uuid → Prop)
    (seen seen' dropping dropping' : QueueCandidate → Prop) :
  indexed t r coming lost seen dropping →
  dropping c → seen c →
  (∀ i, coming i ∨ lost i → coming' i ∨ lost' i) →
  (∀ c, seen' c → seen c) → (∀ c, dropping' c → dropping c) →
  indexed t (remove c r).1 coming' lost' seen' dropping'.
Proof using RedisLaws0.
  intros (q & Hr & Hs & Hd & Hv) Hc Hsc Hk Hs' Hd'.
  destruct (Hs c Hsc) as (Hid & Hm & Hb & Hlt). destruct c as [id m seq]. cbn in Hid, Hm, Hb, Hlt.
  subst m. destruct (remove_spec r q id seq Hr Hid ltac:(lia)) as (r' & -> & Hr' & Hn). cbn [fst].
  assert (∀ i e, a_remove id seq q !! i = Some e → q !! i = Some e) as Hsub.
  { intros i e. unfold a_remove. repeat case_match; try done. by intros [_ ?]%lookup_delete_Some. }
  exists (a_remove id seq q). split; [done|]. split; [|split].
  - intros c Hc'. destruct (Hs c (Hs' c Hc')) as (? & ? & ? & ?). do 2 (split; [done|]). lia.
  - intros c Hc' Hp Hq. apply fmap_Some in Hq as (e & He & Heq).
    apply Hk, Hd; [by apply Hd'|done|]. by rewrite (Hsub _ _ He), Heq.
  - intros i Hp. destruct (Hv i Hp) as [[e He]|?]; [|right; by apply Hk].
    destruct (decide (i = id)) as [->|Hne].
    + unfold a_remove. rewrite He. destruct e as [pr seq']. case_decide as Hsq; [|left; by eexists].
      subst seq'. right. apply Hk. apply (Hd _ Hc); [done|]. cbn. by rewrite He.
    + left. exists e. unfold a_remove. repeat case_match; try done. by rewrite lookup_delete_ne.
Qed.
End index.

(** ** The closed service *)

(** The jobs a coroutine is about to publish. *)
Definition publishes {DB} (pc : RequestPc DB) : list uuid :=
  match pc with Q_publish job _ => [job_id job] | _ => [] end.
Definition scheduler_publishes (pc : SchedulerPc) : list uuid :=
  match pc with S_enqueue job rest => job_id <$> job :: rest | _ => [] end.

(** The candidates a coroutine holds, and those it is about to remove. *)
Definition seen_by_runner (pc : RunnerPc) (c : QueueCandidate) : Prop :=
  match pc with
  | R_claim _ c' | R_lookup _ c' | R_discard _ c' | R_remove _ c' => c' = c
  | _ => False
  end.
Definition dropped_by_runner (pc : RunnerPc) (c : QueueCandidate) : Prop :=
  match pc with R_discard _ c' | R_remove _ c' => c' = c | _ => False end.
Definition dropped_by_request {DB} (pc : RequestPc DB) (c : QueueCandidate) : Prop :=
  match pc with Q_remove _ c' => c' = c | _ => False end.

Record Live (DB R : Type) := mk_live {
  lv_fleet : Fleet DB R;
  lv_requests : gmap nat (RequestPc DB);
  lv_lost : gset uuid
}.
Arguments mk_live {DB R}. Arguments lv_fleet {DB R}. Arguments lv_requests {DB R}.
Arguments lv_lost {DB R}.

(** The ghost set after a commit, whose sender publishes what it activated only when
    the reply arrives, and after a publication. *)
Definition commit_lost (f : fault) (t t' : table) (lost : gset uuid) : gset uuid :=
  match f with reply_lost => (pending_ids t' ∖ pending_ids t) ∪ lost | _ => lost end.
Definition publish_lost (f : fault) (id : uuid) (lost : gset uuid) : gset uuid :=
  match f with command_lost => {[id]} ∪ lost | _ => lost ∖ {[id]} end.

Definition request_lost {DB} (f : fault) (pc : RequestPc DB) (t t' : table) (lost : gset uuid)
    : gset uuid :=
  match pc with
  | Q_transaction _ => commit_lost f t t' lost
  | Q_publish job _ => publish_lost f (job_id job) lost
  | _ => lost
  end.

Definition process_lost (actor : Actor) (f : fault) (p : Process) (t t' : table) (lost : gset uuid)
    : gset uuid :=
  match actor, pr_scheduler p with
  | A_scheduler, S_activate => commit_lost f t t' lost
  | A_scheduler, S_enqueue job _ => publish_lost f (job_id job) lost
  | _, _ => lost
  end.

Definition call_ok {DB} (c : ApiCall DB) : Prop :=
  match c with Submit env _ _ => alone env ∧ uuid_ok (new_id env) | _ => True end.

Section live.
Context {DB : Type} `{!Postgres DB} {R : Type} `{!Redis R}.
Context (py_str : JSON → string) (exn_repr : exn → string).

Abbreviation pstep := (process_step py_str exn_repr).
Abbreviation T s := (jobs_table (sys_db s)).

(** Sequences below 2^53 are all the queue distinguishes. *)
Definition has_room (s : Sys DB R) : Prop := counter (sys_redis s) SEQUENCE_KEY + 1 < SEQ_BOUND.

Inductive live_step : Live DB R → Live DB R → Prop :=
  | live_call F qs lost n c :
      qs !! n = None → call_ok c →
      live_step (mk_live F qs lost) (mk_live F (<[n := Q_transaction c]> qs) lost)
  | live_request s ps qs lost n pc f pc' db' r' :
      qs !! n = Some pc → has_room s →
      request_step f pc (sys_db s) (sys_redis s) = Some (pc', db', r') →
      live_step (mk_live (mk_fleet s ps) qs lost)
        (mk_live (mk_fleet (mk_sys db' r' (minted s)) ps) (<[n := pc']> qs)
           (request_lost f pc (T s) (jobs_table db') lost))
  (** A request ends, answered or not. *)
  | live_hang_up F qs lost n pc :
      qs !! n = Some pc →
      live_step (mk_live F qs lost)
        (mk_live F (delete n qs) (list_to_set (publishes pc) ∪ lost))
  | live_start s ps qs lost i wk n m :
      ps !! i = None → varchar_ok 128 (wk_id wk) = true →
      live_step (mk_live (mk_fleet s ps) qs lost)
        (mk_live (mk_fleet s (<[i := start_process wk n m]> ps)) qs lost)
  | live_signal s ps qs lost i p :
      ps !! i = Some p →
      live_step (mk_live (mk_fleet s ps) qs lost)
        (mk_live (mk_fleet s (<[i := request_stop p]> ps)) qs lost)
  | live_crash s ps qs lost i p :
      ps !! i = Some p →
      live_step (mk_live (mk_fleet s ps) qs lost)
        (mk_live (mk_fleet s (delete i ps)) qs
           (list_to_set (scheduler_publishes (pr_scheduler p)) ∪ lost))
  | live_process s ps qs lost i p actor an p' db' r' :
      ps !! i = Some p → mints actor an p ## minted s → has_room s →
      pstep actor an p (sys_db s) (sys_redis s) = Some (p', db', r') →
      live_step (mk_live (mk_fleet s ps) qs lost)
        (mk_live (mk_fleet (mk_sys db' r' (mints actor an p ∪ minted s)) (<[i := p']> ps)) qs
           (process_lost actor (an_fault an) p (T s) (jobs_table db') lost)).

(** Nothing is stored, queued or running yet. *)
Definition live_initial (V : Live DB R) : Prop :=
  fleet_initial (lv_fleet V) ∧ represents (sys_redis (fl_sys (lv_fleet V))) ∅ ∧
  lv_requests V = ∅ ∧ lv_lost V = ∅.
Definition live_reachable (V : Live DB R) : Prop := ∃ V0, live_initial V0 ∧ rtc live_step V0 V.

(** Some process or some request. *)
Definition somewhere {A} (P : Process → A → Prop) (Q : RequestPc DB → A → Prop)
    (ps : gmap nat Process) (qs : gmap nat (RequestPc DB)) (a : A) : Prop :=
  (∃ i p, ps !! i = Some p ∧ P p a) ∨ (∃ n pc, qs !! n = Some pc ∧ Q pc a).

Definition coming (ps : gmap nat Process) (qs : gmap nat (RequestPc DB)) : uuid → Prop :=
  somewhere (λ p id, id ∈ scheduler_publishes (pr_scheduler p)) (λ pc id, id ∈ publishes pc) ps qs.
Definition seen (ps : gmap nat Process) (qs : gmap nat (RequestPc DB)) : QueueCandidate → Prop :=
  somewhere (λ p, seen_by_runner (pr_runner p)) dropped_by_request ps qs.
Definition dropping (ps : gmap nat Process) (qs : gmap nat (RequestPc DB))
    : QueueCandidate → Prop :=
  somewhere (λ p, dropped_by_runner (pr_runner p)) dropped_by_request ps qs.

Section moves.
Context {A : Type} (P : Process → A → Prop) (Q : RequestPc DB → A → Prop).
Implicit Types (ps : gmap nat Process) (qs : gmap nat (RequestPc DB)).

Lemma nowhere a : ¬ somewhere P Q ∅ ∅ a.
Proof using Type. intros [(i & p & Hp & _)|(i & p & Hp & _)]; by rewrite lookup_empty in Hp. Qed.

Lemma here_process ps qs i p' a : P p' a → somewhere P Q (<[i := p']> ps) qs a.
Proof using Type. intros Ha. left. exists i, p'. by rewrite lookup_insert_eq. Qed.

Lemma here_request ps qs n pc' a : Q pc' a → somewhere P Q ps (<[n := pc']> qs) a.
Proof using Type. intros Ha. right. exists n, pc'. by rewrite lookup_insert_eq. Qed.

Lemma after_process ps qs i p' a :
  somewhere P Q (<[i := p']> ps) qs a → somewhere P Q ps qs a ∨ P p' a.
Proof using Type.
  intros [(j & p & [[<- <-]|[_ Hp]]%lookup_insert_Some & Ha)|?];
    [by right|left; left; eauto|by left; right].
Qed.

Lemma after_request ps qs n pc' a :
  somewhere P Q ps (<[n := pc']> qs) a → somewhere P Q ps qs a ∨ Q pc' a.
Proof using Type.
  intros [?|(j & pc & [[<- <-]|[_ Hp]]%lookup_insert_Some & Ha)];
    [by left; left|by right|left; right; eauto].
Qed.

Lemma before_process ps qs i p p' a :
  ps !! i = Some p → somewhere P Q ps qs a → somewhere P Q (<[i := p']> ps) qs a ∨ P p a.
Proof using Type.
  intros Hi [(j & q & Hj & Ha)|?]; [|by left; right].
  destruct (decide (j = i)) as [->|Hne]; [right; by simplify_eq|].
  left. left. exists j, q. by rewrite lookup_insert_ne.
Qed.

Lemma before_request ps qs n pc pc' a :
  qs !! n = Some pc → somewhere P Q ps qs a → somewhere P Q ps (<[n := pc']> qs) a ∨ Q pc a.
Proof using Type.
  intros Hi [?|(j & q & Hj & Ha)]; [by left; left|].
  destruct (decide (j = n)) as [->|Hne]; [right; by simplify_eq|].
  left. right. exists j, q. by rewrite lookup_insert_ne.
Qed.

(** Keeping what the old one had. *)
Lemma keep_process ps qs i p p' a :
  ps !! i = Some p → (P p a → P p' a) →
  somewhere P Q ps qs a → somewhere P Q (<[i := p']> ps) qs a.
Proof using Type. intros Hi Hp [?|?]%(before_process _ _ i p p' a Hi); [done|by apply here_process, Hp]. Qed.

Lemma shrink_process ps qs i p p' a :
  ps !! i = Some p → (P p' a → P p a) →
  somewhere P Q (<[i := p']> ps) qs a → somewhere P Q ps qs a.
Proof using Type. intros Hi Hp [?|?]%after_process; [done|left; eauto]. Qed.

Lemma shrink_request ps qs n pc pc' a :
  qs !! n = Some pc → (Q pc' a → Q pc a) →
  somewhere P Q ps (<[n := pc']> qs) a → somewhere P Q ps qs a.
Proof using Type. intros Hi Hp [?|?]%after_request; [done|right; eauto]. Qed.

Lemma fresh_process ps qs i p' a :
  ps !! i = None → somewhere P Q ps qs a → somewhere P Q (<[i := p']> ps) qs a.
Proof using Type.
  intros Hi [(j & q & Hj & Ha)|?]; [left|by right].
  exists j, q. rewrite lookup_insert_ne; [done|congruence].
Qed.

Lemma fresh_request ps qs n pc' a :
  qs !! n = None → somewhere P Q ps qs a → somewhere P Q ps (<[n := pc']> qs) a.
Proof using Type.
  intros Hn [?|(j & q & Hj & Ha)]; [by left|right].
  exists j, q. rewrite lookup_insert_ne; [done|congruence].
Qed.

Lemma gone_process ps qs i a : somewhere P Q (delete i ps) qs a → somewhere P Q ps qs a.
Proof using Type. intros [(j & p & [_ Hp]%lookup_delete_Some & Ha)|?]; [left; eauto|by right]. Qed.

Lemma gone_request ps qs n a : somewhere P Q ps (delete n qs) a → somewhere P Q ps qs a.
Proof using Type. intros [?|(j & p & [_ Hp]%lookup_delete_Some & Ha)]; [by left|right; eauto]. Qed.

Lemma left_process ps qs i p a :
  ps !! i = Some p → somewhere P Q ps qs a → somewhere P Q (delete i ps) qs a ∨ P p a.
Proof using Type.
  intros Hi [(j & q & Hj & Ha)|?]; [|by left; right].
  destruct (decide (j = i)) as [->|Hne]; [right; by simplify_eq|].
  left. left. exists j, q. by rewrite lookup_delete_ne.
Qed.

Lemma left_request ps qs n pc a :
  qs !! n = Some pc → somewhere P Q ps qs a → somewhere P Q ps (delete n qs) a ∨ Q pc a.
Proof using Type.
  intros Hi [?|(j & q & Hj & Ha)]; [by left; left|].
  destruct (decide (j = n)) as [->|Hne]; [right; by simplify_eq|].
  left. right. exists j, q. by rewrite lookup_delete_ne.
Qed.
End moves.

Context `{!PostgresLaws DB}.
Implicit Types (db : DB) (s : Sys DB R) (p : Process).

(** ** What the statements do to PENDING rows *)

Lemma activation_settles now locked n db db' jobs :
  run_session (activate_due_scheduled_jobs now locked n) db = (db', Ok jobs) →
  settles_down (λ id, id ∈ job_id <$> jobs) (jobs_table db) (jobs_table db') ∧
  (∀ id, id ∈ job_id <$> jobs → ∃ row, jobs_table db !! id = Some row ∧ status row = SCHEDULED).
Proof using PostgresLaws0.
  intros Hrun. destruct (activate_spec now locked n db) as (db1 & rs & Hu & Hp & Ht).
  rewrite Hrun in Hu. injection Hu as <- <-.
  assert (∀ id, id ∈ job_id <$> jobs ↔ id ∈ job_id <$> pg_select locked (due_query now n) db) as Hids.
  { intros id. rewrite Hp, <-list_fmap_compose. done. }
  split.
  - rewrite Ht. apply map_rows_settles_down. intros id r _ Hid _. by apply Hids.
  - intros id (r & -> & Hr)%Hids%list_elem_of_fmap.
    destruct (pg_select_facts locked (due_query now n) db _ _) as (_ & Hin & _).
    destruct (Hin r Hr) as [Hlk [[Hs _]%holds_due _]%visible_due]. eauto.
Qed.

Lemma owner_settles dl now a c db :
  settles_down (λ _, False) (jobs_table db) (jobs_table (owner_call dl now a c db).1).
Proof using PostgresLaws0.
  destruct (decide (delay_known a c)) as [Hd|Hd].
  - destruct (owner_call_cas dl now a c db Hd) as (db' & -> & Ht). cbn [fst]. rewrite Ht.
    apply cas_settles_down. intros r _. destruct c; cbn; auto; [done|].
    unfold failed_values. by case_match.
  - destruct (owner_call_no_delay dl now a c db Hd) as [res ->]. apply settles_down_refl.
Qed.

Lemma claim_settles dl now tok id w ls db :
  varchar_ok 128 w = true →
  settles_down (λ _, False) (jobs_table db)
    (jobs_table (run_session (claim_job dl now tok id w ls) db).1).
Proof using PostgresLaws0.
  intros Hw. destruct (claim_job_cas dl now tok id w ls db Hw) as (db' & -> & Ht). cbn [fst].
  by rewrite Ht; apply cas_settles_down.
Qed.

Lemma recover_settles now locked n db :
  table_wf (jobs_table db) →
  settles_down (λ _, False) (jobs_table db)
    (jobs_table (run_session (recover_expired_leases now locked n) db).1).
Proof using PostgresLaws0.
  intros Hw. destruct (recover_expired_leases_spec now locked n db) as (db' & -> & Ht).
  { intros i r Hr Hs _. by eapply wf_sweepable. }
  cbn [fst]. rewrite Ht. apply map_rows_settles_down. intros id r _ _.
  unfold settled, failed_values. by case_match.
Qed.

Lemma process_settles s p actor an p' db' r' :
  table_wf (T s) → varchar_ok 128 (wk_id (pr_wk p)) = true → actor ≠ A_scheduler →
  pstep actor an p (sys_db s) (sys_redis s) = Some (p', db', r') →
  settles_down (λ _, False) (T s) (jobs_table db').
Proof using PostgresLaws0.
  intros Hw Hid Hns Hstep. destruct (process_step_effect _ _ _ _ _ _ _ _ _ Hstep).
  - apply settles_down_refl.
  - by apply claim_settles.
  - exact (owner_settles _ _ _ _ _).
  - by destruct Hns.
  - by apply recover_settles.
Qed.

(** A transaction of a request: what becomes PENDING is published next, unless the
    reply of the commit is lost. *)
Record transacts (f : fault) (pc' : RequestPc DB) (t t' : table) : Prop := {
  tx_rows id : is_Some (t' !! id) → is_Some (t !! id) ∨ uuid_ok id;
  tx_pending id : pending t' id → pending t id ∨ id ∈ publishes pc' ∨ f = reply_lost;
  tx_publishes id : id ∈ publishes pc' →
    is_Some (t' !! id) ∧ ∀ row, t !! id = Some row → status row = FAILED;
  tx_cancelled job : pc' = Q_lookup job →
    ∃ row, t' !! job_id job = Some row ∧ status row = CANCELLED;
  tx_next : match pc' with Q_transaction _ | Q_remove _ _ => False | _ => True end
}.

(** The request that publishes nothing. *)
Lemma transacts_silent f new pc' t t' :
  settles_down new t t' → ((∀ id, ¬ new id) ∨ f = reply_lost) → publishes pc' = [] →
  (∀ job, pc' = Q_lookup job → ∃ row, t' !! job_id job = Some row ∧ status row = CANCELLED) →
  match pc' with Q_transaction _ | Q_remove _ _ => False | _ => True end →
  transacts f pc' t t'.
Proof using Type.
  intros [Hr Hp] Hn Hs Hl Hnext. split; [|intros id|intros id; rewrite Hs|done|done].
  - intros id Hid. left. by apply Hr.
  - intros [?|Hid]%Hp; [by left|]. destruct Hn as [Hn|]; [by destruct (Hn id)|auto].
  - by intros ?%not_elem_of_nil.
Qed.

Lemma transacts_same f res t : transacts f (Q_answer res) t t.
Proof using Type.
  apply (transacts_silent f (λ _, False)); try done; [apply settles_down_refl|by left; intros id []].
Qed.

Lemma pending_after_release (env : Env DB) key t id :
  pending (after_release env key t) id → pending t id.
Proof using Type.
  intros (row & Hrow & Hs). unfold after_release in Hrow. destruct (truthy key); [|by exists row].
  rewrite lookup_release_key in Hrow. apply fmap_Some in Hrow as (r0 & Hr0 & ->).
  exists r0. split; [done|]. by case_decide.
Qed.

Lemma is_Some_after_release (env : Env DB) key t id :
  is_Some (after_release env key t !! id) → is_Some (t !! id).
Proof using Type.
  unfold after_release. destruct (truthy key); [|done]. by rewrite lookup_release_key, fmap_is_Some.
Qed.

Lemma submit_transacts env request key f db (r : R) pc' db' r' :
  call_ok (Submit env request key) →
  request_step f (Q_transaction (Submit env request key)) db r = Some (pc', db', r') →
  r' = r ∧ transacts f pc' (jobs_table db) (jobs_table db').
Proof using PostgresLaws0.
  intros [Ha Hid] Hstep. cbn in Hstep. unfold db_call in Hstep.
  destruct (decide (f = command_lost)) as [->|Hf]; [simplify_eq; split; [done|apply transacts_same]|].
  destruct (run_session _ db) as [db1 res] eqn:Hrun.
  assert (jobs_table db1 = jobs_table db ∧ (∀ job, res ≠ Ok (job, true)) ∨
    ∃ job, res = Ok (job, true) ∧ job_id job = new_id env ∧ jobs_table db !! new_id env = None ∧
      jobs_table db1 = <[new_id env := job]> (after_release env key (jobs_table db)))
    as [[Ht Hno]|(job & -> & Hjid & Hfresh & Ht)].
  { destruct (create_job_cases env request key db db1 res Ha Hrun)
      as [?|(job & _ & ? & ? & ? & ?)]; [by left|right; eauto 6]. }
  - assert (r' = r ∧ db' = db1 ∧ ∃ res', pc' = Q_answer res') as (-> & -> & res' & ->);
      [|rewrite Ht; split; [done|apply transacts_same]].
    destruct f; cbn in Hstep; destruct res as [[job []]|e]; simplify_eq/=;
      eauto; by destruct (Hno job).
  - assert (∀ id, is_Some (jobs_table db1 !! id) → is_Some (jobs_table db !! id) ∨ uuid_ok id) as Hrows.
    { intros id. rewrite Ht, lookup_insert. case_decide as Hi; [subst; by right|].
      intros ?%is_Some_after_release. by left. }
    assert (∀ id, pending (jobs_table db1) id →
      pending (jobs_table db) id ∨ id = job_id job ∧ status job = PENDING) as Hpend.
    { intros id (row & Hrow & Hs). rewrite Ht, lookup_insert in Hrow. case_decide as Hi.
      - simplify_eq. by right.
      - left. apply (pending_after_release env key). by exists row. }
    destruct f; cbn in Hstep; [|done|]; simplify_eq/=.
    + split; [done|]. split; cbn; try done.
      * intros id [?|[-> Hs]]%Hpend; [by left|right; left]. rewrite bool_decide_true by done. by left.
      * intros id. case_bool_decide; cbn; [|by intros ?%not_elem_of_nil].
        intros ->%list_elem_of_singleton. rewrite Ht, Hjid, lookup_insert_eq.
        split; [by eexists|congruence].
      * intros job'. by case_bool_decide.
      * by case_bool_decide.
    + split; [done|]. split; cbn; try done; [by auto|by intros id ?%not_elem_of_nil].
Qed.

Lemma cancel_transacts id f db (r : R) pc' db' r' :
  request_step f (Q_transaction (Cancel id)) db r = Some (pc', db', r') →
  r' = r ∧ transacts f pc' (jobs_table db) (jobs_table db').
Proof using PostgresLaws0.
  intros Hstep. cbn in Hstep. destruct (cancel_update db id) as (db1 & Hu & Ht).
  assert (settles_down (λ _, False) (jobs_table db) (jobs_table db1)) as Hset.
  { rewrite Ht. by apply cas_settles_down. }
  unfold db_call in Hstep. rewrite Hu in Hstep.
  destruct f; [|simplify_eq; split; [done|apply transacts_same]|];
    [destruct ((cas _ _ _ _).2) as [job|] eqn:Hc|]; cbn in Hstep; simplify_eq; (split; [done|]);
    (apply (transacts_silent _ (λ _, False)); [done|by left; intros i []|done| |done]); try done.
  intros ? [= <-]. apply cas_some in Hc as (row & Hrow & _ & -> & Ht').
  exists (cancelled row). unfold cancelled at 1. rewrite job_id_apply_values.
  by rewrite (table_id db id row Hrow), Ht, Ht', lookup_insert_eq.
Qed.

Lemma retry_transacts id f db (r : R) pc' db' r' :
  request_step f (Q_transaction (Retry id)) db r = Some (pc', db', r') →
  r' = r ∧ transacts f pc' (jobs_table db) (jobs_table db').
Proof using PostgresLaws0.
  intros Hstep. cbn in Hstep. destruct (retry_update db id) as (db1 & Hu & Ht).
  assert (settles_down (λ i, i = id) (jobs_table db) (jobs_table db1)) as Hset.
  { rewrite Ht. apply cas_settles_down. by right. }
  unfold db_call in Hstep. rewrite Hu in Hstep. destruct f.
  - destruct ((cas _ _ _ _).2) as [job|] eqn:Hc; cbn in Hstep; simplify_eq; (split; [done|]).
    + apply cas_some in Hc as (row & Hrow & Hfail & -> & Ht').
      assert (publishes (DB := DB) (Q_publish (retried row) false) = [id]) as Hpub.
      { unfold publishes, retried. by rewrite job_id_apply_values, (table_id db id row Hrow). }
      destruct Hset as [H1 H2]. split; try done.
      * intros i ?. left. by apply H1.
      * intros i [?| ->]%H2; [by left|right; left]. rewrite Hpub. by left.
      * intros i. rewrite Hpub. intros ->%list_elem_of_singleton.
        rewrite Ht, Ht', lookup_insert_eq. split; [by eexists|]. rewrite Hrow. intros ? [= <-].
        unfold failed in Hfail. by to_prop.
    + apply (transacts_silent _ (λ _, False)); try done; [|by left; intros i []].
      rewrite Ht, cas_none by done. apply settles_down_refl.
  - simplify_eq. split; [done|apply transacts_same].
  - simplify_eq. split; [done|]. apply (transacts_silent _ (λ i, i = id)); try done. by right.
Qed.

Lemma request_transacts c f db (r : R) pc' db' r' :
  call_ok c → request_step f (Q_transaction c) db r = Some (pc', db', r') →
  r' = r ∧ transacts f pc' (jobs_table db) (jobs_table db').
Proof using PostgresLaws0.
  destruct c; intros Hc Hstep;
    [by eapply submit_transacts|by eapply cancel_transacts|by eapply retry_transacts].
Qed.

(** ** The closed service is a fleet *)

Lemma submit_job_db env f request key db (r : R) :
  (submit_job env f request key db r).1.1 = (run_session (create_job env request key) db).1.
Proof using Type. unfold submit_job, submit_job_over. cbn [db_call]. by repeat case_match. Qed.

Lemma cancel_job_db f bq id db (r : R) :
  (cancel_job (λ db, db) f bq id db r).1.1 = (run_session (cancel_transaction id) db).1.
Proof using PostgresLaws0.
  unfold cancel_job, cancel_job_over. cbn [db_call]. destruct (run_session (cancel_transaction id) db) as [db1 [[job|]|e]]; try done.
  rewrite run_get_job. by repeat case_match.
Qed.

Lemma retry_job_db f id db (r : R) :
  (retry_job (λ db, db) f id db r).1.1 = (run_session (retry_transaction id) db).1.
Proof using PostgresLaws0.
  unfold retry_job, retry_job_over. cbn [db_call]. destruct (run_session (retry_transaction id) db) as [db1 [[job|]|e]]; try done.
  - by repeat case_match.
  - rewrite run_get_job. by repeat case_match.
Qed.

(** The database half of a call, as a step of the service. *)
Lemma transaction_step c s :
  call_ok c → ∃ r', step s (mk_sys (match c with
    | Submit env request key => (run_session (create_job env request key) (sys_db s)).1
    | Cancel id => (run_session (cancel_transaction id) (sys_db s)).1
    | Retry id => (run_session (retry_transaction id) (sys_db s)).1 end) r' (minted s)).
Proof using PostgresLaws0.
  destruct c as [env request key|id|id]; intros Hc.
  - rewrite <-(submit_job_db env no_fault request key _ (sys_redis s)).
    destruct (submit_job _ _ _ _ _ _) as [[d r'] res] eqn:E. exists r'.
    by eapply step_submit; [apply Hc|].
  - rewrite <-(cancel_job_db no_fault (λ r, r) id _ (sys_redis s)).
    destruct (cancel_job _ _ _ _ _ _) as [[d r'] res] eqn:E. exists r'. by eapply step_cancel.
  - rewrite <-(retry_job_db no_fault id _ (sys_redis s)).
    destruct (retry_job _ _ _ _ _) as [[d r'] res] eqn:E. exists r'. by eapply step_retry.
Qed.

(** What a request does outside its transaction leaves the database alone. *)
Lemma request_keeps_db f pc db (r : R) pc' db' r' :
  request_step f pc db r = Some (pc', db', r') → (∀ c, pc ≠ Q_transaction c) → db' = db.
Proof using PostgresLaws0.
  destruct pc as [c|id b|job b|job|job c|res]; cbn; intros Hstep Hn.
  - by destruct (Hn c).
  - unfold db_call in Hstep. rewrite run_get_job in Hstep. by destruct f; simplify_eq/=.
  - destruct (call _ _ _). by simplify_eq.
  - repeat case_match; by simplify_eq.
  - destruct (call _ _ _). by simplify_eq.
  - done.
Qed.

Lemma request_service f pc s pc' db' r' :
  (∀ c, pc = Q_transaction c → call_ok c) →
  request_step f pc (sys_db s) (sys_redis s) = Some (pc', db', r') →
  rtc step s (mk_sys db' r' (minted s)).
Proof using PostgresLaws0.
  intros Hc Hstep. destruct pc as [c|id b|job b|job|job c|res].
  2-6: assert (db' = sys_db s) as -> by (by eapply request_keeps_db); apply rtc_once, step_redis.
  assert (db' = sys_db s ∨ db' = match c with
    | Submit env request key => (run_session (create_job env request key) (sys_db s)).1
    | Cancel id => (run_session (cancel_transaction id) (sys_db s)).1
    | Retry id => (run_session (retry_transaction id) (sys_db s)).1 end) as [-> | ->].
  { destruct c; cbn in Hstep; unfold db_call in Hstep; destruct f; cbn in Hstep;
      try (by simplify_eq; auto); (destruct (run_session _ (sys_db s)) as [d res];
      cbn in Hstep |- *; right; repeat case_match; by simplify_eq). }
  - apply rtc_once, step_redis.
  - destruct (transaction_step c s (Hc c eq_refl)) as [r1 Hs]. eapply rtc_l; [exact Hs|].
    apply rtc_once. apply (step_redis (mk_sys _ r1 (minted s))).
Qed.

Lemma service_fleet s s' ps :
  rtc step s s' → rtc (fleet_step py_str exn_repr) (mk_fleet s ps) (mk_fleet s' ps).
Proof using Type.
  induction 1 as [|s1 s2 s3 H _ IH]; [apply rtc_refl|]. eapply rtc_l; [by apply fleet_service|done].
Qed.

Lemma live_step_fleet V V' :
  (∀ n c, lv_requests V !! n = Some (Q_transaction c) → call_ok c) → live_step V V' →
  rtc (fleet_step py_str exn_repr) (lv_fleet V) (lv_fleet V').
Proof using PostgresLaws0.
  intros Hc Hstep. revert Hc.
  destruct Hstep as [F qs lost n c Hn Hok|s ps qs lost n pc f pc' db' r' Hn Hroom Hstep
    |F qs lost n pc Hn|s ps qs lost i wk n m Hi Hw|s ps qs lost i p Hi|s ps qs lost i p Hi
    |s ps qs lost i p actor an p' db' r' Hi Hf Hroom Hstep]; cbn; intros Hc; try apply rtc_refl.
  - apply service_fleet. eapply request_service; [|exact Hstep]. intros c ->. by eapply Hc.
  - apply rtc_once. by apply fleet_start.
  - apply rtc_once. by apply fleet_signal.
  - apply rtc_once, fleet_crash.
  - apply rtc_once. by eapply fleet_process.
Qed.

(** ** What each step does to the index *)

(** A step of the runner reads or removes; what it removes it had found unclaimable
    or has just claimed. *)
Record runner_reads s (pc pc' : RunnerPc) db' (r' : R) : Prop := {
  rr_redis : r' = sys_redis s ∨
    (∃ c, dropped_by_runner pc c ∧ r' = (remove c (sys_redis s)).1) ∧ db' = sys_db s ∧
    ∀ c, ¬ seen_by_runner pc' c;
  rr_seen c : seen_by_runner pc' c → seen_by_runner pc c ∨ peek (sys_redis s) = Ok (Some c);
  rr_dropped c : dropped_by_runner pc' c →
    dropped_by_runner pc c ∨ ¬ pending (jobs_table db') (qc_job_id c)
}.

Lemma dropped_seen pc c : dropped_by_runner pc c → seen_by_runner pc c.
Proof using Type. by destruct pc. Qed.

Lemma runner_reads_same s pc pc' db' :
  (∀ c, seen_by_runner pc' c → False) → runner_reads s pc pc' db' (sys_redis s).
Proof using Type.
  intros Hs. split; [by left|by intros c ?%Hs|by intros c ?%dropped_seen%Hs].
Qed.

Lemma removed_reads s pc pc' c (f : fault) :
  dropped_by_runner pc c → (∀ c, ¬ seen_by_runner pc' c) →
  runner_reads s pc pc' (sys_db s) (call f (remove c) (sys_redis s)).1.
Proof using Type.
  intros Hc Hs. split; [|by intros c' ?%Hs|by intros c' ?%dropped_seen%Hs].
  destruct f; [right|by left|right]; (split; [by exists c|by split]).
Qed.

Lemma next_candidate_seen stop k c : ¬ seen_by_runner (next_candidate stop k) c.
Proof using Type. destruct (next_candidate_cases stop k) as [->|(_ & k' & ->)]; by intros ?. Qed.

Lemma next_cycle_seen stop c : ¬ seen_by_runner (next_cycle stop) c.
Proof using Type. destruct (next_cycle_cases stop) as [[_ ->]|(_ & k' & ->)]; by intros ?. Qed.

Lemma unclaimable_not_pending t id :
  table_wf t → still_claimable (t !! id) = false → ¬ pending t id.
Proof using Type.
  intros Hw Hs (row & Hrow & Hp). rewrite Hrow in Hs. cbn in Hs.
  rewrite bool_decide_true in Hs by done.
  pose proof (wf_runnable _ (Hw id row Hrow) (or_introl Hp)).
  pose proof (wf_max _ (Hw id row Hrow)). cbn in Hs. to_prop. lia.
Qed.

Lemma claim_reads s wk an k c stop h pc h' db' r' :
  varchar_ok 128 (wk_id wk) = true →
  runner_step py_str exn_repr wk an stop h (R_claim k c) (sys_db s) (sys_redis s) =
    Some (pc, h', db', r') →
  runner_reads s (R_claim k c) pc db' r'.
Proof using PostgresLaws0.
  intros Hw Hstep. cbn in Hstep. unfold db_call in Hstep.
  destruct (claim_job_cas (wk_default_lease wk) (an_now an) (an_token an) (qc_job_id c)
    (wk_id wk) (Some (wk_lease wk)) (sys_db s) Hw) as (d1 & Hu & Ht).
  rewrite Hu in Hstep. destruct (an_fault an); cbn in Hstep; [|simplify_eq; by apply runner_reads_same..].
  destruct ((cas _ _ _ _).2) as [job|] eqn:Hc; simplify_eq.
  - split; [by left|by left|]. intros c' <-. right. intros (row & Hrow & Hs).
    apply cas_some in Hc as (r0 & _ & _ & _ & Ht'). rewrite Ht, Ht', lookup_insert_eq in Hrow.
    by simplify_eq.
  - split; [by left|by left|by intros c' []].
Qed.

Lemma runner_step_reads s wk an stop h pc pc' h' db' r' :
  table_wf (T s) → varchar_ok 128 (wk_id wk) = true →
  runner_step py_str exn_repr wk an stop h pc (sys_db s) (sys_redis s) = Some (pc', h', db', r') →
  runner_reads s pc pc' db' r'.
Proof using PostgresLaws0.
  intros Hwf Hw Hstep.
  destruct pc as [k|k c|k c|k c|job c|job a q|job a o|a v| |]; [|by eapply claim_reads|..]; cbn in Hstep.
  - destruct (an_fault an); cbn in Hstep; [|simplify_eq; by apply runner_reads_same..].
    destruct (peek (sys_redis s)) as [[c|]|e] eqn:Hp; simplify_eq; [|by apply runner_reads_same..].
    destruct stop; [by apply runner_reads_same|].
    split; [by left|intros c' <-; by right|by intros c' []].
  - unfold db_call in Hstep. rewrite run_get_job in Hstep.
    destruct (an_fault an); cbn in Hstep; [|simplify_eq; by apply runner_reads_same..].
    destruct (still_claimable _) eqn:Hs; simplify_eq.
    + apply runner_reads_same. intros c'. apply next_candidate_seen.
    + split; [by left|by left|]. intros c' <-. right. by apply unclaimable_not_pending.
  - pose proof (removed_reads s (R_discard k c)) as Hrem.
    destruct (call _ _ _) as [r1 res] eqn:Hcall.
    assert (r' = r1 ∧ db' = sys_db s ∧ ∀ c', ¬ seen_by_runner pc' c') as (-> & -> & Hn).
    { destruct res; simplify_eq; (do 2 (split; [done|])); [by apply next_candidate_seen|by intros ? []]. }
    replace r1 with (call (an_fault an) (remove c) (sys_redis s)).1 by (by rewrite Hcall).
    by apply Hrem.
  - pose proof (removed_reads s (R_remove job c)) as Hrem.
    destruct (call _ _ _) as [r1 res] eqn:Hcall.
    assert (r' = r1 ∧ db' = sys_db s ∧ ∀ c', ¬ seen_by_runner pc' c') as (-> & -> & Hn).
    { unfold start_execution in Hstep. repeat case_match; simplify_eq/=;
        (do 2 (split; [done|])); by intros ? []. }
    replace r1 with (call (an_fault an) (remove c) (sys_redis s)).1 by (by rewrite Hcall).
    by apply Hrem.
  - assert (r' = sys_redis s ∧ ∀ c', ¬ seen_by_runner pc' c') as [-> Hn].
    { repeat case_match; simplify_eq; (split; [done|]); by intros ? []. }
    by apply runner_reads_same.
  - destruct (h_pc h); simplify_eq. apply runner_reads_same. intros c. unfold after_handler.
    repeat case_match; try (by intros []). by apply next_cycle_seen.
  - destruct (db_call _ _ _) as [d [x|e]]; simplify_eq; apply runner_reads_same; [|done].
    by apply next_cycle_seen.
  - simplify_eq. apply runner_reads_same. by apply next_cycle_seen.
  - done.
Qed.

(** ** The invariant *)

(** The job whose entry a cancellation is about to remove. *)
Definition cleans (pc : RequestPc DB) (id : uuid) : Prop :=
  match pc with Q_lookup job => job_id job = id | Q_remove _ c => qc_job_id c = id | _ => False end.

Definition indexed_live (V : Live DB R) : Prop :=
  let '(mk_live (mk_fleet s ps) qs lost) := V in
  indexed (T s) (sys_redis s) (coming ps qs) (λ id, id ∈ lost) (seen ps qs) (dropping ps qs).

Record live_ok (V : Live DB R) : Prop := {
  lo_ids id : is_Some (T (fl_sys (lv_fleet V)) !! id) → uuid_ok id;
  lo_calls n c : lv_requests V !! n = Some (Q_transaction c) → call_ok c;
  lo_coming id : coming (fl_procs (lv_fleet V)) (lv_requests V) id → uuid_ok id;
  lo_cleans n pc id : lv_requests V !! n = Some pc → cleans pc id →
    uuid_ok id ∧ ∃ row, T (fl_sys (lv_fleet V)) !! id = Some row ∧ status row = CANCELLED;
  lo_index : indexed_live V
}.

Context `{!RedisLaws R}.

Lemma dropping_seen ps qs c : dropping ps qs c → seen ps qs c.
Proof using Type.
  intros [(i & p & Hp & Hc)|?]; [left|by right]. exists i, p. split; [done|by apply dropped_seen].
Qed.

Lemma cancelled_not_pending t id :
  (∃ row, t !! id = Some row ∧ status row = CANCELLED) → ¬ pending t id.
Proof using Type. intros (row & Hrow & Hs) (row' & Hrow' & Hs'). congruence. Qed.

(** A step that starts or ends a coroutine, or only moves jobs among those to come
    and those lost. *)
Lemma indexed_moves s ps ps' qs qs' lost lost' :
  indexed_live (mk_live (mk_fleet s ps) qs lost) →
  (∀ id, coming ps qs id ∨ id ∈ lost → coming ps' qs' id ∨ id ∈ lost') →
  (∀ c, seen ps' qs' c → seen ps qs c) → (∀ c, dropping ps' qs' c → dropping ps qs c) →
  indexed_live (mk_live (mk_fleet s ps') qs' lost').
Proof using RedisLaws0.
  intros Hi Hk Hs Hd. eapply indexed_quiet; [exact Hi| | | |]; cbn; auto.
Qed.

(** CANCELLED rows stay. *)
Lemma cleans_stay s s' (qs : gmap nat (RequestPc DB)) :
  rtc step s s' → table_wf (T s) →
  (∀ n pc id, qs !! n = Some pc → cleans pc id →
     uuid_ok id ∧ ∃ row, T s !! id = Some row ∧ status row = CANCELLED) →
  ∀ n pc id, qs !! n = Some pc → cleans pc id →
    uuid_ok id ∧ ∃ row, T s' !! id = Some row ∧ status row = CANCELLED.
Proof using PostgresLaws0.
  intros Hs Hw Hc n pc id Hn Hid. destruct (Hc n pc id Hn Hid) as (Hu & row & Hrow & Hst).
  split; [done|]. destruct (final_stays s s' id row Hs Hw Hrow) as (row' & Hrow' & Hp & _);
    [by right|]. exists row'. split; [done|]. unfold phase in Hp. congruence.
Qed.

(** A publication, whatever becomes of it. *)
Lemma publish_indexed s ps ps' qs qs' lost f id prio :
  indexed_live (mk_live (mk_fleet s ps) qs lost) → uuid_ok id → has_room s →
  (∀ i, coming ps qs i → coming ps' qs' i ∨ i = id) →
  (∀ c, seen ps' qs' c → seen ps qs c) → (∀ c, dropping ps' qs' c → dropping ps qs c) →
  indexed (T s) (call f (enqueue id prio) (sys_redis s)).1 (coming ps' qs')
    (λ i, i ∈ publish_lost f id lost) (seen ps' qs') (dropping ps' qs').
Proof using RedisLaws0.
  intros Hi Hid Hroom Hk Hs Hd. destruct (decide (f = command_lost)) as [->|Hf].
  - eapply indexed_quiet; [exact Hi|by left| |by left; auto|by left; auto].
    intros i. cbn. rewrite elem_of_union, elem_of_singleton. intros [[?| ->]%Hk|?]; auto.
  - assert ((call f (enqueue id prio) (sys_redis s)).1 = (enqueue id prio (sys_redis s)).1) as ->
      by (by destruct f).
    eapply indexed_enqueue; [exact Hi|done|done| |done|done|intros c ?%Hd; by apply dropping_seen].
    intros i Hne. assert (publish_lost f id lost = lost ∖ {[id]}) as -> by (by destruct f).
    rewrite elem_of_difference, elem_of_singleton. intros [[?|?]%Hk|?]; auto. by destruct Hne.
Qed.

(** A removal, whatever becomes of it. *)
Lemma removal_indexed s ps ps' qs qs' lost f c :
  indexed_live (mk_live (mk_fleet s ps) qs lost) → dropping ps qs c →
  (∀ i, coming ps qs i → coming ps' qs' i) →
  (∀ c, seen ps' qs' c → seen ps qs c) → (∀ c, dropping ps' qs' c → dropping ps qs c) →
  indexed (T s) (call f (remove c) (sys_redis s)).1 (coming ps' qs') (λ i, i ∈ lost)
    (seen ps' qs') (dropping ps' qs').
Proof using RedisLaws0.
  intros Hi Hc Hk Hs Hd. destruct (decide (f = command_lost)) as [->|Hf].
  - eapply indexed_quiet; [exact Hi|by left|intros i [?|?]; auto|by left; auto|by left; auto].
  - assert ((call f (remove c) (sys_redis s)).1 = (remove c (sys_redis s)).1) as -> by (by destruct f).
    eapply indexed_remove; [exact Hi|exact Hc|by apply dropping_seen|intros i [?|?]; auto|done|done].
Qed.

(** What a commit made PENDING without its reply arriving is lost. *)
Lemma commit_lost_pending t t' lost id :
  pending t' id → pending t id ∨ id ∈ commit_lost reply_lost t t' lost.
Proof using Type.
  intros Hp. destruct (decide (id ∈ pending_ids t)) as [Hin|Hin].
  - left. by apply elem_of_pending_ids.
  - right. apply elem_of_union_l, elem_of_difference. by rewrite elem_of_pending_ids.
Qed.

Lemma commit_lost_keeps f t t' lost id : id ∈ lost → id ∈ commit_lost f t t' lost.
Proof using Type. intros Hid. destruct f; cbn; [done|done|by apply elem_of_union_r]. Qed.

Lemma next_enqueue_publishes jobs : scheduler_publishes (next_enqueue jobs) = job_id <$> jobs.
Proof using Type. by destruct jobs. Qed.

(** The scheduler's step: what it activates it will publish. *)
Lemma scheduler_indexed s ps qs lost i p an pc' db' r' :
  ps !! i = Some p → has_room s →
  (∀ id, coming ps qs id → uuid_ok id) →
  indexed_live (mk_live (mk_fleet s ps) qs lost) →
  scheduler_step (pr_activation_batch p) an (pr_stop p) (pr_scheduler p) (sys_db s) (sys_redis s) =
    Some (pc', db', r') →
  let ps' := <[i := set_scheduler p pc']> ps in
  (∀ id, is_Some (jobs_table db' !! id) → is_Some (T s !! id)) ∧
  (∀ id, id ∈ scheduler_publishes pc' → id ∈ scheduler_publishes (pr_scheduler p) ∨
     ∃ row, T s !! id = Some row ∧ status row = SCHEDULED) ∧
  indexed (jobs_table db') r' (coming ps' qs)
    (λ id, id ∈ process_lost A_scheduler (an_fault an) p (T s) (jobs_table db') lost)
    (seen ps' qs) (dropping ps' qs).
Proof using PostgresLaws0 RedisLaws0.
  intros Hi Hroom Hids Hix Hstep ps'.
  assert (∀ c, seen ps' qs c → seen ps qs c) as Hseen by (intros c; by apply shrink_process with p).
  assert (∀ c, dropping ps' qs c → dropping ps qs c) as Hdrop
    by (intros c; by apply shrink_process with p).
  assert (∀ id, coming ps qs id → coming ps' qs id ∨ id ∈ scheduler_publishes (pr_scheduler p)) as Hold
    by (intros id; exact (before_process _ _ ps qs i p _ id Hi)).
  assert (∀ id, id ∈ scheduler_publishes pc' → coming ps' qs id) as Hnew
    by (intros id Hid; exact (here_process _ _ ps qs i _ id Hid)).
  unfold process_lost. destruct (pr_scheduler p) as [|job rest| |] eqn:Hpc; cbn in Hstep; [| | |done].
  - unfold db_call in Hstep. destruct (run_session _ (sys_db s)) as [db1 res] eqn:Hrun.
    assert (∃ jobs, res = Ok jobs) as [jobs ->].
    { destruct (activate_spec (an_now an) (an_locked an) (pr_activation_batch p) (sys_db s))
        as (d & rs & Hu & _). rewrite Hrun in Hu. simplify_eq. eauto. }
    destruct (activation_settles _ _ _ _ _ _ Hrun) as [[Hrows Hpend] Hsched].
    assert (∀ id, coming ps qs id → coming ps' qs id) as Hkeep.
    { intros id [?|?%not_elem_of_nil]%Hold; done. }
    destruct (an_fault an); cbn in Hstep; simplify_eq/=.
    + rewrite next_enqueue_publishes in *. split; [done|]. split.
      { intros id ?%Hsched. by right. }
      eapply indexed_quiet; [exact Hix| | |by left; auto|by left; auto].
      * intros id [?|?]%Hpend; [by left|right; left; by apply Hnew].
      * intros id [?|?]; auto.
    + split; [done|]. split; [by intros id ?%not_elem_of_nil|].
      eapply indexed_quiet; [exact Hix|by left|intros id [?|?]; auto|by left; auto|by left; auto].
    + split; [done|]. split; [by intros id ?%not_elem_of_nil|].
      eapply indexed_quiet; [exact Hix| | |by left; auto|by left; auto]; intros id.
      * intros [?|?]%(commit_lost_pending (T s) _ lost); [by left|by right; right].
      * intros [?|?]; [left; auto|right; by apply elem_of_union_r].
  - destruct (call _ _ _) as [r1 res] eqn:Hcall. simplify_eq. rewrite next_enqueue_publishes in *.
    split; [done|]. split; [intros id Hid; left; by right|].
    replace r' with (call (an_fault an) (enqueue (job_id job) (priority job)) (sys_redis s)).1
      by (by rewrite Hcall).
    eapply publish_indexed; [exact Hix| |done| |done|done].
    + apply Hids. left. exists i, p. rewrite Hpc. split; [done|by left].
    + intros id [?|[-> |Hid]%elem_of_cons]%Hold; [by left|by right|left; by apply Hnew].
  - simplify_eq. split; [done|]. split; [intros id; by case_match; intros ?%not_elem_of_nil|].
    eapply indexed_quiet; [exact Hix|by left| |by left; auto|by left; auto].
    intros id [[?|?%not_elem_of_nil]%Hold|?]; auto; done.
Qed.

Lemma process_reads s actor an p p' db' r' :
  table_wf (T s) → varchar_ok 128 (wk_id (pr_wk p)) = true → actor ≠ A_scheduler →
  pstep actor an p (sys_db s) (sys_redis s) = Some (p', db', r') →
  runner_reads s (pr_runner p) (pr_runner p') db' r' ∧ pr_scheduler p' = pr_scheduler p.
Proof using PostgresLaws0.
  intros Hwf Hw Hns Hstep.
  assert (∀ db1, runner_reads s (pr_runner p) (pr_runner p) db1 (sys_redis s)) as Hsame
    by (intros db1; split; [by left|by left|by left]).
  destruct actor; cbn in Hstep.
  - destruct (runner_step _ _ _ _ _ _ _ _ _) as [[[[pc h] d] r1]|] eqn:H; [|done].
    injection Hstep as <- <- <-. split; [by eapply runner_step_reads|done].
  - destruct (abandon_step _ _ _) as [[pc h]|] eqn:H; [|done]. injection Hstep as <- <- <-.
    split; [|done]. apply runner_reads_same. cbn. intros c.
    unfold abandon_step in H. repeat case_match; simplify_eq; by apply next_cycle_seen.
  - by repeat case_match; simplify_eq.
  - by repeat case_match; simplify_eq.
  - by destruct Hns.
  - by repeat case_match; simplify_eq.
  - by repeat case_match; simplify_eq.
Qed.

Lemma process_indexed s ps qs lost i p actor an p' db' r' :
  ps !! i = Some p → has_room s → table_wf (T s) → varchar_ok 128 (wk_id (pr_wk p)) = true →
  (∀ id, coming ps qs id → uuid_ok id) →
  indexed_live (mk_live (mk_fleet s ps) qs lost) →
  pstep actor an p (sys_db s) (sys_redis s) = Some (p', db', r') →
  let ps' := <[i := p']> ps in
  (∀ id, is_Some (jobs_table db' !! id) → is_Some (T s !! id)) ∧
  (∀ id, id ∈ scheduler_publishes (pr_scheduler p') → id ∈ scheduler_publishes (pr_scheduler p) ∨
     ∃ row, T s !! id = Some row ∧ status row = SCHEDULED) ∧
  indexed (jobs_table db') r' (coming ps' qs)
    (λ id, id ∈ process_lost actor (an_fault an) p (T s) (jobs_table db') lost)
    (seen ps' qs) (dropping ps' qs).
Proof using PostgresLaws0 RedisLaws0.
  intros Hi Hroom Hwf Hw Hids Hix Hstep ps'.
  destruct (decide (actor = A_scheduler)) as [->|Hns].
  { cbn in Hstep. destruct (scheduler_step _ _ _ _ _ _) as [[[pc d] r1]|] eqn:H; [|done].
    injection Hstep as <- <- <-. by eapply scheduler_indexed. }
  destruct (process_settles s p actor an p' db' r' Hwf Hw Hns Hstep) as [Hrows Hpend].
  destruct (process_reads s actor an p p' db' r' Hwf Hw Hns Hstep) as [[Hr Hs Hd] Hsch].
  assert (process_lost actor (an_fault an) p (T s) (jobs_table db') lost = lost) as ->
    by (by destruct actor).
  split; [done|]. split; [intros id; rewrite Hsch; by left|].
  assert (∀ id, coming ps qs id → coming ps' qs id) as Hkeep.
  { intros id. apply (keep_process _ _ ps qs i p p' id Hi). by rewrite Hsch. }
  destruct Hr as [->|((c & Hc & ->) & -> & Hnone)].
  - eapply indexed_quiet; [exact Hix| |intros id [?|?]; auto| |].
    + intros id [?|[]]%Hpend. by left.
    + intros c [?|[?|?]%Hs]%after_process; [by left| |by right; left].
      left. left. eauto.
    + intros c [?|[?|?]%Hd]%after_process; [by left| |by right].
      left. left. eauto.
  - assert (∀ c, seen ps' qs c → seen ps qs c) as Hseen.
    { intros c'. apply (shrink_process _ _ ps qs i p p' c' Hi). by intros ?%Hnone. }
    assert (∀ c, dropping ps' qs c → dropping ps qs c) as Hdrop.
    { intros c'. apply (shrink_process _ _ ps qs i p p' c' Hi). by intros ?%dropped_seen%Hnone. }
    change (remove c (sys_redis s)).1 with (call no_fault (remove c) (sys_redis s)).1.
    eapply removal_indexed; [exact Hix| |done..]. left. eauto.
Qed.

(** The step of a request. *)
Lemma read_job r q id m c :
  represents r q → uuid_ok id → current_member id r = Some m → from_member m = Ok c →
  qc_job_id c = id.
Proof using RedisLaws0.
  intros Hr Hid Hm Hc. rewrite (current_member_spec r q) in Hm by done.
  apply fmap_Some in Hm as ([p seq] & Hq & ->). destruct (rep_bounds _ _ _ _ _ Hr Hq) as [_ Hs].
  rewrite from_member_member in Hc by done. by simplify_eq.
Qed.

Lemma request_coming ps qs n pc pc' id :
  qs !! n = Some pc → coming ps qs id → coming ps (<[n := pc']> qs) id ∨ id ∈ publishes pc.
Proof using Type. intros Hn. exact (before_request _ _ ps qs n pc pc' id Hn). Qed.

Lemma request_quiet ps qs n pc pc' :
  qs !! n = Some pc → (∀ c, ¬ dropped_by_request pc' c) →
  (∀ c, seen ps (<[n := pc']> qs) c → seen ps qs c) ∧
  (∀ c, dropping ps (<[n := pc']> qs) c → dropping ps qs c).
Proof using Type. intros Hn Hno. split; intros c; apply shrink_request with pc; try done; by intros ?%Hno. Qed.

(** What a request's step does besides the index. *)
Record request_goes (t t' : table) (pc pc' : RequestPc DB) : Prop := {
  rg_rows id : is_Some (t' !! id) → is_Some (t !! id) ∨ uuid_ok id;
  rg_publishes id : id ∈ publishes pc' →
    is_Some (t' !! id) ∧ ∀ row, t !! id = Some row → status row = FAILED;
  rg_next c : pc' ≠ Q_transaction c;
  rg_cleans id : cleans pc' id →
    cleans pc id ∨ ∃ row, t' !! id = Some row ∧ status row = CANCELLED
}.

Lemma answer_goes t pc res : request_goes t t pc (Q_answer res).
Proof using Type. split; [by left|by intros id ?%not_elem_of_nil|done|done]. Qed.

(** What a request sees, it saw before or reads now. *)
Lemma request_sees f pc db (r : R) pc' db' r' c :
  request_step f pc db r = Some (pc', db', r') → dropped_by_request pc' c →
  ∃ job m, pc = Q_lookup job ∧ current_member (job_id job) r = Some m ∧ from_member m = Ok c.
Proof using Type.
  intros Hstep Hc. destruct pc' as [| | | |job c'|]; cbn in Hc; try done. subst c'.
  destruct pc as [[env request key|id|id]|id b|job' b|job'|job' c'|res]; cbn in Hstep;
    try (repeat case_match; by simplify_eq).
  destruct f; cbn in Hstep; [|done|done].
  destruct (current_member _ _) as [m|] eqn:Hm; [|done].
  destruct (from_member m) eqn:Hfm; simplify_eq. eauto.
Qed.

(** A step sends Redis at most one command. *)
Inductive sends (publish : uuid → Prop) (drop : QueueCandidate → Prop) (r : R) : R → Prop :=
  | sends_nothing : sends publish drop r r
  | sends_enqueue id prio : publish id → sends publish drop r (enqueue id prio r).1
  | sends_remove c : drop c → sends publish drop r (remove c r).1.

Lemma call_sends {A} f (op : R → R * result exn A) publish drop r :
  sends publish drop r (op r).1 → sends publish drop r (call f op r).1.
Proof using Type. destruct f; [done|intros _; apply sends_nothing|done]. Qed.

Lemma request_sends f pc db (r : R) pc' db' r' :
  request_step f pc db r = Some (pc', db', r') →
  sends (λ id, id ∈ publishes pc) (dropped_by_request pc) r r'.
Proof using Type.
  destruct pc as [c|id b|job b|job|job c|res]; cbn; intros Hstep.
  - destruct c; repeat case_match; simplify_eq; apply sends_nothing.
  - repeat case_match; simplify_eq; apply sends_nothing.
  - destruct (call _ _ _) as [r1 res] eqn:Hc. simplify_eq.
    change r' with (r', res).1. rewrite <-Hc. apply call_sends, sends_enqueue. by left.
  - destruct f; cbn in Hstep; repeat case_match; simplify_eq; apply sends_nothing.
  - destruct (call _ _ _) as [r1 res] eqn:Hc. simplify_eq.
    change r' with (r', res).1. rewrite <-Hc. by apply call_sends, sends_remove.
  - done.
Qed.

Lemma process_sends s actor an p p' db' r' :
  table_wf (T s) → varchar_ok 128 (wk_id (pr_wk p)) = true →
  pstep actor an p (sys_db s) (sys_redis s) = Some (p', db', r') →
  sends (λ id, id ∈ scheduler_publishes (pr_scheduler p)) (dropped_by_runner (pr_runner p))
    (sys_redis s) r'.
Proof using PostgresLaws0.
  intros Hwf Hw Hstep. destruct (decide (actor = A_scheduler)) as [->|Hns].
  - cbn in Hstep. destruct (pr_scheduler p) as [|job rest| |]; cbn in Hstep.
    + repeat case_match; simplify_eq; apply sends_nothing.
    + destruct (call _ _ _) as [r1 res] eqn:Hc. simplify_eq.
      change r' with (r', res).1. rewrite <-Hc. apply call_sends, sends_enqueue. by left.
    + simplify_eq. apply sends_nothing.
    + done.
  - destruct (process_reads s actor an p p' db' r' Hwf Hw Hns Hstep) as [[[->|[(c & Hc & ->) _]] _ _] _];
      [apply sends_nothing|by apply sends_remove].
Qed.

Lemma transaction_indexed s ps qs lost n c f pc' db' r' :
  qs !! n = Some (Q_transaction c) → call_ok c →
  indexed_live (mk_live (mk_fleet s ps) qs lost) →
  request_step f (Q_transaction c) (sys_db s) (sys_redis s) = Some (pc', db', r') →
  request_goes (T s) (jobs_table db') (Q_transaction c) pc' ∧
  indexed (jobs_table db') r' (coming ps (<[n := pc']> qs))
    (λ id, id ∈ commit_lost f (T s) (jobs_table db') lost) (seen ps (<[n := pc']> qs))
    (dropping ps (<[n := pc']> qs)).
Proof using PostgresLaws0 RedisLaws0.
  intros Hn Hok Hix Hstep.
  destruct (request_transacts c f _ _ _ _ _ Hok Hstep) as [-> [Hrows Hp Hpub Hc Hnext]]. split.
  { split; [done|done|by intros c' ->|]. intros id Hid. right.
    destruct pc'; cbn in Hid; try done. subst id. by apply Hc. }
  destruct (request_quiet ps qs n _ pc' Hn) as [Hs Hd]; [by intros c' Hc'; destruct pc'|].
  eapply indexed_quiet; [exact Hix| | |by left; auto|by left; auto]; intros id.
  - intros Hid. destruct (Hp id Hid) as [?|[Hpb| ->]]; [by left| |].
    + right. left. exact (here_request _ _ ps qs n _ id Hpb).
    + destruct (commit_lost_pending (T s) (jobs_table db') lost id Hid); auto.
  - intros [[?|?%not_elem_of_nil]%(request_coming _ _ n _ pc' _ Hn)|?]; [by left|done|].
    right. by apply commit_lost_keeps.
Qed.

(** A request that waits no longer, and did nothing. *)
Lemma answer_indexed s ps qs lost n pc res :
  qs !! n = Some pc → publishes pc = [] → indexed_live (mk_live (mk_fleet s ps) qs lost) →
  request_goes (T s) (T s) pc (Q_answer res) ∧
  indexed_live (mk_live (mk_fleet s ps) (<[n := Q_answer res]> qs) lost).
Proof using RedisLaws0.
  intros Hn Hpub Hix. split; [apply answer_goes|].
  destruct (request_quiet ps qs n _ (Q_answer res) Hn) as [Hs Hd]; [by intros c []|].
  apply (indexed_moves s ps ps qs _ lost lost Hix); [|done|done].
  intros id [[?|Hid]%(request_coming _ _ n _ (Q_answer res) _ Hn)|?]; [by left| |by right].
  rewrite Hpub in Hid. by apply not_elem_of_nil in Hid.
Qed.

Lemma lookup_indexed s ps qs lost n job m c :
  qs !! n = Some (Q_lookup job) → uuid_ok (job_id job) →
  (∃ row, T s !! job_id job = Some row ∧ status row = CANCELLED) →
  indexed_live (mk_live (mk_fleet s ps) qs lost) →
  current_member (job_id job) (sys_redis s) = Some m → from_member m = Ok c →
  request_goes (T s) (T s) (Q_lookup job) (Q_remove job c) ∧
  indexed_live (mk_live (mk_fleet s ps) (<[n := Q_remove job c]> qs) lost).
Proof using RedisLaws0.
  intros Hn Hid Hrow Hix Hm Hc.
  assert (qc_job_id c = job_id job) as Hjid.
  { destruct Hix as (q & Hr & _). by apply (read_job (sys_redis s) q _ m). }
  split; [split; [by left|by intros id ?%not_elem_of_nil|done|intros id <-; by left]|].
  eapply indexed_quiet; [exact Hix|by left| | |].
  - intros id [[?|?%not_elem_of_nil]%(request_coming _ _ n _ (Q_remove job c) _ Hn)|?]; auto; done.
  - intros c' [?|<-]%after_request; [by left|right; right; eauto].
  - intros c' [?|<-]%after_request; [by left|right]. rewrite Hjid. by apply cancelled_not_pending.
Qed.

Lemma request_indexed s ps qs lost n pc f pc' db' r' :
  qs !! n = Some pc → has_room s → live_ok (mk_live (mk_fleet s ps) qs lost) →
  request_step f pc (sys_db s) (sys_redis s) = Some (pc', db', r') →
  request_goes (T s) (jobs_table db') pc pc' ∧
  indexed (jobs_table db') r' (coming ps (<[n := pc']> qs))
    (λ id, id ∈ request_lost f pc (T s) (jobs_table db') lost) (seen ps (<[n := pc']> qs))
    (dropping ps (<[n := pc']> qs)).
Proof using PostgresLaws0 RedisLaws0.
  intros Hn Hroom [_ Hcalls Hcoming Hcleans Hix] Hstep. cbn in Hcalls, Hcoming, Hcleans.
  assert ((∀ c, pc ≠ Q_transaction c) → db' = sys_db s) as Hdb
    by (intros ?; by eapply request_keeps_db).
  pose proof (request_coming ps qs n pc pc') as Hold.
  destruct pc as [c|id b|job b|job|job c|res];
    [|rewrite Hdb in * by done; clear Hdb; cbn in Hstep; cbn [request_lost]..].
  - eapply transaction_indexed; [done|by eapply Hcalls|done|done].
  - assert (r' = sys_redis s ∧ ∃ res, pc' = Q_answer res) as (-> & res & ->).
    { repeat case_match; simplify_eq; eauto. }
    by apply answer_indexed.
  - destruct (call _ _ _) as [r1 res] eqn:Hcall. simplify_eq. split; [apply answer_goes|].
    replace r' with (call f (enqueue (job_id job) (priority job)) (sys_redis s)).1 by (by rewrite Hcall).
    destruct (request_quiet ps qs n _ (Q_answer (Ok (job, b))) Hn) as [Hs Hd]; [by intros c []|].
    eapply publish_indexed; [exact Hix| |done| |done|done].
    + apply Hcoming. right. exists n, (Q_publish job b). split; [done|by left].
    + intros id [?|?%list_elem_of_singleton]%Hold; auto.
  - assert (r' = sys_redis s ∧ ((∃ res, pc' = Q_answer res) ∨
      ∃ m c, current_member (job_id job) (sys_redis s) = Some m ∧ from_member m = Ok c ∧
        pc' = Q_remove job c)) as [-> [[res ->]|(m & c & Hm & Hc & ->)]].
    { destruct f; cbn in Hstep; [|simplify_eq; eauto..].
      destruct (current_member _ _) as [m|] eqn:Hm; [|simplify_eq; eauto].
      destruct (from_member m) eqn:Hc; simplify_eq; eauto 10. }
    + by apply answer_indexed.
    + destruct (Hcleans n _ (job_id job) Hn eq_refl). by eapply lookup_indexed.
  - destruct (call _ _ _) as [r1 res] eqn:Hcall. simplify_eq. split; [apply answer_goes|].
    replace r' with (call f (remove c) (sys_redis s)).1 by (by rewrite Hcall).
    destruct (request_quiet ps qs n _ (Q_answer (Ok (job, false))) Hn) as [Hs Hd]; [by intros c' []|].
    eapply removal_indexed; [exact Hix| | |done|done].
    + right. exists n, (Q_remove job c). by split.
    + by intros id [?|?%not_elem_of_nil]%Hold.
  - done.
Qed.

(** *** Every step keeps the invariant *)

(** A step that changes neither store. *)
Lemma live_ok_moves s ps ps' qs qs' lost lost' :
  live_ok (mk_live (mk_fleet s ps) qs lost) →
  (∀ n c, qs' !! n = Some (Q_transaction c) → call_ok c) →
  (∀ id, coming ps' qs' id → coming ps qs id) →
  (∀ n pc id, qs' !! n = Some pc → cleans pc id → ∃ n' pc', qs !! n' = Some pc' ∧ cleans pc' id) →
  (∀ id, coming ps qs id ∨ id ∈ lost → coming ps' qs' id ∨ id ∈ lost') →
  (∀ c, seen ps' qs' c → seen ps qs c) → (∀ c, dropping ps' qs' c → dropping ps qs c) →
  live_ok (mk_live (mk_fleet s ps') qs' lost').
Proof using RedisLaws0.
  intros [Hids Hcalls Hcoming Hcleans Hix] H1 H2 H3 H4 H5 H6.
  split; [done|done|intros id ?%H2; by apply Hcoming| |by eapply indexed_moves].
  intros n pc id Hn Hid. destruct (H3 n pc id Hn Hid) as (n' & pc' & ? & ?). by eapply Hcleans.
Qed.

Lemma request_ok s ps qs lost n pc f pc' db' r' :
  qs !! n = Some pc → has_room s → table_wf (T s) → live_ok (mk_live (mk_fleet s ps) qs lost) →
  request_step f pc (sys_db s) (sys_redis s) = Some (pc', db', r') →
  live_ok (mk_live (mk_fleet (mk_sys db' r' (minted s)) ps) (<[n := pc']> qs)
    (request_lost f pc (T s) (jobs_table db') lost)).
Proof using PostgresLaws0 RedisLaws0.
  intros Hn Hroom Hwf Hok Hstep.
  destruct (request_indexed s ps qs lost n pc f pc' db' r' Hn Hroom Hok Hstep) as [[Hr Hp Hq Hc] Hix].
  assert (rtc step s (mk_sys db' r' (minted s))) as Hsteps.
  { eapply request_service; [|exact Hstep]. intros c ->. by eapply (lo_calls _ Hok). }
  pose proof (cleans_stay s _ qs Hsteps Hwf (lo_cleans _ Hok)) as Hstay.
  destruct Hok as [Hids Hcalls Hcoming Hcleans _]. cbn in *.
  assert (∀ id, is_Some (jobs_table db' !! id) → uuid_ok id) as Hids'.
  { intros id [?|?]%Hr; [by apply Hids|done]. }
  split; cbn; [done| | | |exact Hix].
  - intros k c [[_ ->]|[_ ?]]%lookup_insert_Some; [by destruct (Hq c)|by eapply Hcalls].
  - intros id [?|Hid]%after_request; [by apply Hcoming|]. by apply Hids'; destruct (Hp id Hid).
  - intros k pk id [[_ <-]|[_ Hk]]%lookup_insert_Some Hid; [|by eapply Hstay].
    destruct (Hc id Hid) as [Hold|(row & Hrow & Hs)]; [by apply (Hstay n pc)|].
    split; [apply Hids'; by eexists|eauto].
Qed.

Lemma process_live_ok s ps qs lost i p actor an p' db' r' :
  ps !! i = Some p → mints actor an p ## minted s → has_room s → table_wf (T s) →
  varchar_ok 128 (wk_id (pr_wk p)) = true → live_ok (mk_live (mk_fleet s ps) qs lost) →
  pstep actor an p (sys_db s) (sys_redis s) = Some (p', db', r') →
  live_ok (mk_live (mk_fleet (mk_sys db' r' (mints actor an p ∪ minted s)) (<[i := p']> ps)) qs
    (process_lost actor (an_fault an) p (T s) (jobs_table db') lost)).
Proof using PostgresLaws0 RedisLaws0.
  intros Hi Hf Hroom Hwf Hw Hok Hstep.
  destruct (process_indexed s ps qs lost i p actor an p' db' r' Hi Hroom Hwf Hw
    (lo_coming _ Hok) (lo_index _ Hok) Hstep) as (Hr & Hp & Hix).
  pose proof (cleans_stay s _ qs (rtc_once _ _ (process_refines _ _ s p actor an p' db' r' Hw Hf Hstep))
    Hwf (lo_cleans _ Hok)) as Hstay.
  destruct Hok as [Hids Hcalls Hcoming Hcleans _]. cbn in *.
  split; cbn; [intros id ?%Hr; by apply Hids|done| |exact Hstay|exact Hix].
  intros id [?|[?|(row & ? & _)]%Hp]%after_process; [by apply Hcoming| |apply Hids; by eexists].
  apply Hcoming. left. eauto.
Qed.

Lemma coming_left_process ps qs i p (lost : gset uuid) id :
  ps !! i = Some p → coming ps qs id ∨ id ∈ lost →
  coming (delete i ps) qs id ∨ id ∈ list_to_set (scheduler_publishes (pr_scheduler p)) ∪ lost.
Proof using Type.
  intros Hi [[?|?]%(left_process _ _ ps qs i p id Hi)|?]; [by left|right..]; rewrite elem_of_union, elem_of_list_to_set; auto.
Qed.

Lemma coming_left_request ps qs n pc (lost : gset uuid) id :
  qs !! n = Some pc → coming ps qs id ∨ id ∈ lost →
  coming ps (delete n qs) id ∨ id ∈ list_to_set (publishes pc) ∪ lost.
Proof using Type.
  intros Hn [[?|?]%(left_request _ _ ps qs n pc id Hn)|?]; [by left|right..]; rewrite elem_of_union, elem_of_list_to_set; auto.
Qed.

Lemma live_step_ok V V' :
  live_step V V' → fleet_reachable py_str exn_repr (lv_fleet V) → live_ok V → live_ok V'.
Proof using PostgresLaws0 RedisLaws0.
  intros Hstep Hreach. pose proof (fleet_reachable_ok _ _ _ Hreach) as Hfl.
  pose proof (reachable_wf _ (fleet_reachable_service _ _ _ Hreach)) as Hwf.
  revert Hfl Hwf. clear Hreach.
  destruct Hstep as [F qs lost n c Hn Hcall|s ps qs lost n pc f pc' db' r' Hn Hroom Hst
    |F qs lost n pc Hn|s ps qs lost i wk n m Hi Hw|s ps qs lost i p Hi|s ps qs lost i p Hi
    |s ps qs lost i p actor an p' db' r' Hi Hf Hroom Hst]; cbn; intros Hfl Hwf Hok.
  - destruct F as [s ps]. apply (live_ok_moves s ps ps qs _ lost lost Hok).
    + intros k c' [[_ [= <-]]|[_ ?]]%lookup_insert_Some; [done|by eapply (lo_calls _ Hok)].
    + by intros id [?|?%not_elem_of_nil]%after_request.
    + intros k pk id [[_ <-]|[_ Hk]]%lookup_insert_Some Hid; [done|eauto].
    + intros id [?|?]; [left; by apply fresh_request|by right].
    + by intros c' [?|[]]%after_request.
    + by intros c' [?|[]]%after_request.
  - by apply request_ok.
  - destruct F as [s ps]. apply (live_ok_moves s ps ps qs _ lost _ Hok).
    + intros k c [_ ?]%lookup_delete_Some. by eapply (lo_calls _ Hok).
    + intros id. apply gone_request.
    + intros k pk id [_ Hk]%lookup_delete_Some Hid. eauto.
    + intros id. by apply coming_left_request.
    + intros c. apply gone_request.
    + intros c. apply gone_request.
  - apply (live_ok_moves s ps _ qs qs lost lost Hok); [apply (lo_calls _ Hok)| |eauto| | |].
    + by intros id [?|?%not_elem_of_nil]%after_process.
    + intros id [?|?]; [left; by apply fresh_process|by right].
    + by intros c [?|[]]%after_process.
    + by intros c [?|[]]%after_process.
  - apply (live_ok_moves s ps _ qs qs lost lost Hok); [apply (lo_calls _ Hok)| |eauto| | |].
    + intros id. by apply shrink_process with p.
    + intros id [?|?]; [left|by right]. by apply keep_process with p.
    + intros c. by apply shrink_process with p.
    + intros c. by apply shrink_process with p.
  - apply (live_ok_moves s ps _ qs qs lost _ Hok); [apply (lo_calls _ Hok)| |eauto| | |].
    + intros id. apply gone_process.
    + intros id. by apply coming_left_process.
    + intros c. apply gone_process.
    + intros c. apply gone_process.
  - destruct (fo_process _ Hfl i p Hi) as [_ Hw]. by eapply process_live_ok.
Qed.

Lemma live_step_reachable V V' :
  live_step V V' → fleet_reachable py_str exn_repr (lv_fleet V) → live_ok V →
  fleet_reachable py_str exn_repr (lv_fleet V').
Proof using PostgresLaws0.
  intros Hstep (F0 & Hi & Hs) Hok. exists F0. split; [done|]. etrans; [exact Hs|].
  apply live_step_fleet; [apply (lo_calls _ Hok)|done].
Qed.

Lemma live_reachable_ok V :
  live_reachable V → fleet_reachable py_str exn_repr (lv_fleet V) ∧ live_ok V.
Proof using PostgresLaws0 RedisLaws0.
  intros (V0 & (Hf & Hr & Hq & Hl) & Hs).
  assert (fleet_reachable py_str exn_repr (lv_fleet V0) ∧ live_ok V0) as H0.
  { split; [by exists (lv_fleet V0); split; [|apply rtc_refl]|].
    destruct V0 as [[s ps] qs lost]. cbn in *. subst qs lost.
    destruct Hf as [[Ht _] Hp]. cbn in Ht, Hp. subst ps.
    split; cbn; [by rewrite Ht; intros id []|done|by intros id ?%nowhere|done|].
    exists ∅. split; [done|]. split; [by intros c ?%nowhere|]. split; [by intros c ?%nowhere|].
    intros id (row & Hrow & _). by rewrite Ht in Hrow. }
  clear Hf Hr Hq Hl. induction Hs as [V|V1 V2 V3 H12 _ IH]; [done|]. apply IH.
  destruct H0. split; [by eapply live_step_reachable|by eapply live_step_ok].
Qed.

Abbreviation DBof V := (sys_db (fl_sys (lv_fleet V))).
Abbreviation Rof V := (sys_redis (fl_sys (lv_fleet V))).

(** C6: [submit_job] and the scheduler publish after the commit, in two stores, and nobody
    reconciles them; this is what holds all the same.  However API calls and workers
    interleave, whatever connections fail and whichever processes die: a PENDING job
    has its entry in the ready queue, where the next peek finds work, or somebody is
    about to publish it, or its publication was lost. *)
Theorem pending_jobs_are_accounted_for V id row
    (HV : live_reachable V) (Hrow : jobs_table (DBof V) !! id = Some row)
    (Hp : status row = PENDING) :
  (∃ c, current_member id (Rof V) = Some (qc_member c) ∧ qc_job_id c = id ∧
     is_Some (score c (Rof V)) ∧ ∃ next, peek (Rof V) = Ok (Some next)) ∨
  coming (fl_procs (lv_fleet V)) (lv_requests V) id ∨ id ∈ lv_lost V.
Proof using PostgresLaws0 RedisLaws0.
  apply live_reachable_ok in HV as [_ Hok]. pose proof (lo_ids _ Hok id) as Hid.
  destruct V as [[s ps] qs lost]. cbn in *. destruct (lo_index _ Hok) as (q & Hr & _ & _ & Hv).
  destruct (Hv id) as [[[prio seq] Hq]|?]; [by exists row| |by right]. left.
  exists (MkCandidate id (member seq id) seq). cbn.
  rewrite (current_member_spec _ q) by eauto. rewrite Hq. split; [done|]. split; [done|]. split.
  - unfold score. cbn. rewrite zscore_spec. exists (entry_score prio).
    apply (rep_zset _ _ Hr). by exists id, prio, seq.
  - destruct (peek_spec _ q Hr) as [[-> _]|(i & p & sq & _ & Hpk & _)]; [|eauto].
    by rewrite lookup_empty in Hq.
Qed.

(** A job the invariant accepts can be run by any worker once it is PENDING. *)
Lemma wf_claimable row : job_wf row → claimable row = bool_decide (status row = PENDING).
Proof using Type.
  intros Hw. unfold claimable. pose proof (wf_max _ Hw) as Hm. case_bool_decide as Hp; [|done].
  pose proof (wf_runnable _ Hw (or_introl Hp)). apply Z.ltb_lt. lia.
Qed.

Lemma wf_ready t q :
  table_wf t → (∀ id row, t !! id = Some row → countable (payload row)) → ready_to_run py_str t q.
Proof using Type.
  intros Hw Hn id row _ Hrow _. pose proof (Hw id row Hrow) as Hwf.
  split; [apply (wf_max _ Hwf)|]. split; [by eapply Hn|].
  by apply every_accepted_type_has_a_handler, (wf_type _ Hwf).
Qed.

(** C18: Submission to execution, for the whole service: after any history of API calls,
    workers, faults and crashes, once nobody is about to publish and no publication
    was lost, one worker left alone executes every PENDING job, in at most as many
    turns as the queue has entries, and touches no other job, whatever stale entries
    that history left in the queue. *)
Theorem quiet_service_runs_every_pending_job wk turns V
    (HV : live_reachable V)
    (Hquiet : ∀ id, ¬ coming (fl_procs (lv_fleet V)) (lv_requests V) id) (Hlost : lv_lost V = ∅)
    (Hn : ∀ id row, jobs_table (DBof V) !! id = Some row → countable (payload row))
    (Hcalm : Forall calm_turn turns) (Hlen : ReadyQueue.size (Rof V) ≤ Z.of_nat (length turns))
    (Hw : varchar_ok 128 (wk_id wk) = true) :
  ∃ db' r', run_forever py_str exn_repr wk turns (DBof V, Rof V) = (db', r') ∧ peek r' = Ok None ∧
    ∀ id row, jobs_table (DBof V) !! id = Some row →
      if decide (status row = PENDING)
      then ∃ row', jobs_table db' !! id = Some row' ∧ ran_in py_str exn_repr wk turns row row'
      else jobs_table db' !! id = Some row.
Proof using PostgresLaws0 RedisLaws0.
  apply live_reachable_ok in HV as [Hfl Hok].
  pose proof (reachable_wf _ (fleet_reachable_service _ _ _ Hfl)) as Hwf.
  destruct V as [[s ps] qs lost]. cbn in *. subst lost.
  destruct (lo_index _ Hok) as (q & Hr & _ & _ & Hv). rewrite (size_spec _ q Hr) in Hlen.
  destruct (polling_drains py_str exn_repr wk turns turns (sys_db s) (sys_redis s) q)
    as (db' & r' & Hrun & Hr' & [_ K D _]); [done|done|lia|done|done|by apply wf_ready|].
  exists db', r'. split; [done|]. split.
  { destruct (peek_spec r' ∅ Hr') as [[_ ?]|(i & p & sq & Hq & _)]; [done|].
    by rewrite lookup_empty in Hq. }
  intros id row Hrow. pose proof (wf_claimable row (Hwf id row Hrow)) as Hc.
  destruct (decide (status row = PENDING)) as [Hp|Hp].
  - rewrite bool_decide_true in Hc by done.
    assert (is_Some (q !! id)) as Hin.
    { destruct (Hv id) as [?|[?|?]]; [by exists row|done|by destruct (Hquiet id)|done]. }
    specialize (D id row Hin (lookup_empty _) Hrow). by rewrite Hc in D.
  - rewrite bool_decide_false in Hc by done.
    destruct (q !! id) as [e|] eqn:Hq; [|by rewrite K; [|right]].
    specialize (D id row ltac:(by eexists) (lookup_empty _) Hrow). by rewrite Hc in D.
Qed.

(** ** A lost publication *)

(** A row that is PENDING and will not be activated or retried, or is CANCELLED. *)
Definition dormant (t : table) (n : Z) (id : uuid) : Prop :=
  ∃ row, t !! id = Some row ∧ (phase row = (PENDING, n) ∨ status row = CANCELLED).

(** Nobody knows of the job: it is not queued, not about to be, and no worker or
    request holds a candidate for it. *)
Record unseen (V : Live DB R) (id : uuid) : Prop := {
  us_queue : current_member id (Rof V) = None;
  us_coming : ¬ coming (fl_procs (lv_fleet V)) (lv_requests V) id;
  us_seen c : seen (fl_procs (lv_fleet V)) (lv_requests V) c → qc_job_id c ≠ id
}.

(** Without a claim, a dormant row stays dormant. *)
Lemma dormant_steps s s' n id :
  rtc step s s' → minted s' ⊆ minted s → table_wf (T s) → dormant (T s) n id → dormant (T s') n id.
Proof using PostgresLaws0.
  intros Hs. induction Hs as [|s1 s2 s3 H12 H23 IH]; [done|]. intros Hm Hw (row & Hrow & Hd).
  destruct (step_evolves _ _ H12 Hw) as [Hev Hsub].
  assert (minted s2 ⊆ minted s3) as H23m.
  { clear -H23. induction H23 as [|a b c Hab _ IH]; [done|]. etrans; [by apply step_minted|done]. }
  apply IH; [by etrans|by eapply table_evolves_wf|].
  destruct (te_old _ _ _ Hev id row Hrow) as (row' & Hrow' & [Hwf' Hmv _ Htok _]).
  exists row'. split; [done|]. unfold phase in *.
  destruct Hd as [[= Hst Hc]|Hst]; rewrite Hst in Hmv; inversion Hmv; subst; auto; try congruence.
  destruct (wf_owned _ Hwf') as (_ & [t Ht] & _); [done|].
  destruct (wf_unowned _ (Hw id row Hrow)) as (_ & Hnone & _); [congruence|].
  destruct (Htok t Ht) as [?|[Hin Hn]%elem_of_difference]; [congruence|].
  by destruct (Hn (Hm _ (H23m _ Hin))).
Qed.

Lemma dormant_status t n id row :
  dormant t n id → t !! id = Some row → status row = PENDING ∨ status row = CANCELLED.
Proof using Type. intros (r & Hr & Hd) Hrow. assert (r = row) as -> by congruence. destruct Hd as [[= ? _]|?]; auto. Qed.

(** The queue without the job stays without it. *)
Lemma sends_unqueued publish drop (r r' : R) q id :
  represents r q → q !! id = None → sends publish drop r r' →
  (∀ i, publish i → i ≠ id ∧ uuid_ok i) → (∀ c, drop c → genuine r c) →
  counter r SEQUENCE_KEY + 1 < SEQ_BOUND → uuid_ok id → current_member id r' = None.
Proof using RedisLaws0.
  intros Hr Hq Hs Hpub Hdrop Hroom Hid.
  assert (∃ q', represents r' q' ∧ q' !! id = None) as (q' & Hr' & Hq').
  { destruct Hs as [|i prio Hi|c Hc]; [by exists q| |].
    - destruct (Hpub i Hi) as [Hne Hok].
      destruct (enqueue_spec r q i prio Hr Hok Hroom) as (r' & -> & Hr' & _).
      eexists. split; [exact Hr'|]. unfold a_enqueue. by rewrite lookup_insert_ne.
    - destruct c as [i m seq]. destruct (Hdrop _ Hc) as (Hok & Hm & Hb & Hlt).
      cbn in Hok, Hm, Hb, Hlt. subst m.
      destruct (remove_spec r q i seq Hr Hok ltac:(lia)) as (r' & -> & Hr' & _).
      eexists. split; [exact Hr'|]. unfold a_remove. repeat case_match; try done.
      apply lookup_delete_None. auto. }
  rewrite (current_member_spec r' q') by done. by rewrite Hq'.
Qed.

Lemma read_queued r q c : represents r q → read_from r c → is_Some (q !! qc_job_id c).
Proof using RedisLaws0.
  intros Hr [Hp|(id & m & Hid & Hm & Hc)].
  - destruct (peek_spec r q Hr) as [[_ H]|(id & p & seq & Hq & H & _)]; rewrite H in Hp; [done|].
    simplify_eq. by eexists.
  - rewrite (read_job r q id m c) by done. rewrite (current_member_spec r q) in Hm by done.
    apply fmap_Some in Hm as (e & Hq & _). by eexists.
Qed.

Lemma unseen_queue s ps qs lost id :
  live_ok (mk_live (mk_fleet s ps) qs lost) → uuid_ok id →
  current_member id (sys_redis s) = None →
  ∃ q, represents (sys_redis s) q ∧ q !! id = None ∧ (∀ c, seen ps qs c → genuine (sys_redis s) c).
Proof using RedisLaws0.
  intros Hok Hid Hn. destruct (lo_index _ Hok) as (q & Hr & Hg & _). exists q.
  rewrite (current_member_spec _ q) in Hn by done. by apply fmap_None in Hn.
Qed.

Lemma request_unseen s ps qs lost n pc f pc' db' r' k id :
  qs !! n = Some pc → has_room s → live_ok (mk_live (mk_fleet s ps) qs lost) →
  request_step f pc (sys_db s) (sys_redis s) = Some (pc', db', r') → dormant (T s) k id →
  unseen (mk_live (mk_fleet s ps) qs lost) id →
  unseen (mk_live (mk_fleet (mk_sys db' r' (minted s)) ps) (<[n := pc']> qs)
    (request_lost f pc (T s) (jobs_table db') lost)) id.
Proof using PostgresLaws0 RedisLaws0.
  intros Hn Hroom Hok Hstep Hdor [Huq Huc Hus]. cbn in Huq, Huc, Hus.
  assert (uuid_ok id) as Hid by (destruct Hdor as (row & Hrow & _); apply (lo_ids _ Hok); by eexists).
  destruct (unseen_queue s ps qs lost id Hok Hid Huq) as (q & Hr & Hq & Hg).
  destruct (request_indexed s ps qs lost n pc f pc' db' r' Hn Hroom Hok Hstep) as [[_ Hp _ _] _].
  split; cbn.
  - eapply (sends_unqueued _ _ _ _ q); [done|done|by eapply request_sends| | |done|done].
    + intros i Hi. assert (coming ps qs i) by (right; eauto). split; [by intros ->|by apply (lo_coming _ Hok)].
    + intros c Hc. apply Hg. right. eauto.
  - intros [?|Hc]%after_request; [done|]. destruct (Hp id Hc) as [_ Hf].
    destruct Hdor as (row & Hrow & Hd). pose proof (Hf row Hrow) as Hst. unfold phase in Hd.
    destruct Hd as [[=]|]; congruence.
  - intros c [?|Hc]%after_request; [by apply Hus|].
    destruct (request_sees _ _ _ _ _ _ _ c Hstep Hc) as (job & m & -> & Hm & Hfm). intros Heq.
    destruct (read_queued (sys_redis s) q c Hr) as [e He]; [right|congruence].
    exists (job_id job), m. split; [|done].
    by destruct (lo_cleans _ Hok n _ (job_id job) Hn eq_refl).
Qed.

Lemma process_unseen s ps qs lost i p actor an p' db' r' k id :
  ps !! i = Some p → has_room s → table_wf (T s) → varchar_ok 128 (wk_id (pr_wk p)) = true →
  live_ok (mk_live (mk_fleet s ps) qs lost) →
  pstep actor an p (sys_db s) (sys_redis s) = Some (p', db', r') → dormant (T s) k id →
  unseen (mk_live (mk_fleet s ps) qs lost) id →
  unseen (mk_live (mk_fleet (mk_sys db' r' (mints actor an p ∪ minted s)) (<[i := p']> ps)) qs
    (process_lost actor (an_fault an) p (T s) (jobs_table db') lost)) id.
Proof using PostgresLaws0 RedisLaws0.
  intros Hi Hroom Hwf Hw Hok Hstep Hdor [Huq Huc Hus]. cbn in Huq, Huc, Hus.
  assert (uuid_ok id) as Hid by (destruct Hdor as (row & Hrow & _); apply (lo_ids _ Hok); by eexists).
  destruct (unseen_queue s ps qs lost id Hok Hid Huq) as (q & Hr & Hq & Hg).
  destruct (process_indexed s ps qs lost i p actor an p' db' r' Hi Hroom Hwf Hw
    (lo_coming _ Hok) (lo_index _ Hok) Hstep) as (_ & Hp & _).
  split; cbn.
  - eapply (sends_unqueued _ _ _ _ q); [done|done|by eapply process_sends| | |done|done].
    + intros j Hj. assert (coming ps qs j) by (left; eauto). split; [by intros ->|by apply (lo_coming _ Hok)].
    + intros c Hc. apply Hg. left. exists i, p. split; [done|by apply dropped_seen].
  - intros [?|[Hc|(row & Hrow & Hs)]%Hp]%after_process; [done|by apply Huc; left; eauto|].
    destruct (dormant_status _ _ _ row Hdor Hrow); congruence.
  - intros c [?|Hc]%after_process; [by apply Hus|].
    destruct (decide (actor = A_scheduler)) as [->|Hns].
    { apply Hus. left. exists i, p. split; [done|]. cbn in Hstep. by repeat case_match; simplify_eq. }
    destruct (process_reads s actor an p p' db' r' Hwf Hw Hns Hstep) as [[_ Hs _] _].
    destruct (Hs c Hc) as [?|Hpk]; [apply Hus; left; eauto|]. intros Heq.
    destruct (read_queued (sys_redis s) q c Hr) as [e He]; [by left|congruence].
Qed.

Lemma process_dormant s ps qs i actor an p p' db' r' n id :
  ps !! i = Some p → mints actor an p ## minted s → table_wf (T s) →
  varchar_ok 128 (wk_id (pr_wk p)) = true →
  pstep actor an p (sys_db s) (sys_redis s) = Some (p', db', r') →
  (∀ c, seen ps qs c → qc_job_id c ≠ id) →
  dormant (T s) n id → dormant (jobs_table db') n id.
Proof using PostgresLaws0.
  intros Hi Hf Hwf Hw Hstep Hseen Hd.
  destruct (decide (mints actor an p = ∅)) as [Hm|Hm].
  { apply (dormant_steps s (mk_sys db' r' (mints actor an p ∪ minted s)) n id);
      [apply rtc_once; by eapply process_refines| |done|done].
    cbn. rewrite Hm. by rewrite (left_id_L ∅ (∪)). }
  destruct (process_step_effect _ _ _ _ _ _ _ _ _ Hstep) as [|k c Hpc Hfl| | |]; try done.
  destruct (claim_job_cas (wk_default_lease (pr_wk p)) (an_now an) (an_token an) (qc_job_id c)
    (wk_id (pr_wk p)) (Some (wk_lease (pr_wk p))) (sys_db s) Hw) as (d1 & -> & Ht). cbn [fst].
  destruct Hd as (row & Hrow & Hd). exists row. split; [|done]. rewrite Ht, cas_frame; [done|].
  intros ->. apply (Hseen c); [|done]. left. exists i, p. split; [done|]. by rewrite Hpc.
Qed.

Lemma live_step_unseen V V' n id :
  live_step V V' → fleet_reachable py_str exn_repr (lv_fleet V) → live_ok V →
  dormant (jobs_table (DBof V)) n id → unseen V id →
  dormant (jobs_table (DBof V')) n id ∧ unseen V' id.
Proof using PostgresLaws0 RedisLaws0.
  intros Hstep Hreach. pose proof (fleet_reachable_ok _ _ _ Hreach) as Hfl.
  pose proof (reachable_wf _ (fleet_reachable_service _ _ _ Hreach)) as Hwf.
  revert Hfl Hwf. clear Hreach.
  destruct Hstep as [F qs lost m c Hn Hcall|s ps qs lost m pc f pc' db' r' Hn Hroom Hst
    |F qs lost m pc Hn|s ps qs lost i wk a b Hi Hw|s ps qs lost i p Hi|s ps qs lost i p Hi
    |s ps qs lost i p actor an p' db' r' Hi Hf Hroom Hst]; cbn; intros Hfl Hwf Hok Hd Hu.
  - split; [done|]. destruct Hu as [H1 H2 H3]. split; cbn; [done| |].
    + by intros [?|?%not_elem_of_nil]%after_request.
    + intros c' [?|[]]%after_request. by apply H3.
  - split; [|by eapply request_unseen]. apply (dormant_steps s (mk_sys db' r' (minted s)) n id); [|done|done|done].
    eapply request_service; [|exact Hst]. intros c ->. by eapply (lo_calls _ Hok).
  - split; [done|]. destruct Hu as [H1 H2 H3]. split; cbn; [done| |].
    + by intros ?%gone_request.
    + intros c ?%gone_request. by apply H3.
  - split; [done|]. destruct Hu as [H1 H2 H3]. split; cbn; [done| |].
    + by intros [?|?%not_elem_of_nil]%after_process.
    + intros c [?|[]]%after_process. by apply H3.
  - split; [done|]. destruct Hu as [H1 H2 H3]. split; cbn; [done| |].
    + intros Hc. apply H2. by eapply shrink_process in Hc.
    + intros c Hc. apply H3. by eapply shrink_process in Hc.
  - split; [done|]. destruct Hu as [H1 H2 H3]. split; cbn; [done| |].
    + by intros ?%gone_process.
    + intros c ?%gone_process. by apply H3.
  - destruct (fo_process _ Hfl i p Hi) as [_ Hw]. split; [|by eapply process_unseen].
    eapply process_dormant; try done. apply (us_seen _ _ Hu).
Qed.

(** C17: A lost publication is never made up for: once a PENDING job is nowhere to be seen
    (not queued, nobody about to publish it, no worker holding an old candidate of
    it), no later activity of the service, retries and restarts included, ever runs
    it.  It stays PENDING with the attempts it had until somebody cancels it. *)
Theorem lost_publication_is_never_repaired V V' id row
    (HV : live_reachable V) (Hrow : jobs_table (DBof V) !! id = Some row)
    (Hp : status row = PENDING) (Hu : unseen V id) (Hrun : rtc live_step V V') :
  ∃ row', jobs_table (DBof V') !! id = Some row' ∧
    (status row' = PENDING ∧ attempt_count row' = attempt_count row ∨ status row' = CANCELLED) ∧
    current_member id (Rof V') = None ∧
    ∀ i p k c, fl_procs (lv_fleet V') !! i = Some p → pr_runner p = R_claim k c → qc_job_id c ≠ id.
Proof using PostgresLaws0 RedisLaws0.
  destruct (live_reachable_ok V HV) as [Hfl Hok].
  assert (dormant (jobs_table (DBof V)) (attempt_count row) id) as Hd.
  { exists row. split; [done|left]. unfold phase. by rewrite Hp. }
  clear HV Hrow Hp. remember (attempt_count row) as n eqn:Hn. clear Hn.
  induction Hrun as [V|V1 V2 V3 H12 _ IH].
  - destruct Hd as (row' & Hrow' & Hd), Hu as [Hq _ Hs]. exists row'. split; [done|].
    split; [destruct Hd as [[=]|]; auto|]. split; [done|]. intros i p k c Hi Hpc.
    apply Hs. left. exists i, p. split; [done|]. by rewrite Hpc.
  - destruct (live_step_unseen V1 V2 n id H12 Hfl Hok Hd Hu) as [Hd' Hu'].
    apply IH; [done|by eapply live_step_reachable|by eapply live_step_ok|done].
Qed.
End live.

(** ** Witnesses: one submission *)

Abbreviation demo_step := (live_step no_text no_text).

(** Request [n] goes on, if it can. *)
Definition proceed (n : nat) (f : fault) (V : Live MemDB MemRedis) : Live MemDB MemRedis :=
  let '(mk_live (mk_fleet s ps) qs lost) := V in
  match qs !! n with
  | None => V
  | Some pc =>
      match request_step f pc (sys_db s) (sys_redis s) with
      | None => V
      | Some (pc', db', r') =>
          if counter (sys_redis s) SEQUENCE_KEY + 1 <? SEQ_BOUND then
            mk_live (mk_fleet (mk_sys db' r' (minted s)) ps) (<[n := pc']> qs)
              (request_lost f pc (jobs_table (sys_db s)) (jobs_table db') lost)
          else V
      end
  end.

Lemma proceed_steps n f V : rtc demo_step V (proceed n f V).
Proof.
  destruct V as [[s ps] qs lost]. unfold proceed. destruct (qs !! n) as [pc|] eqn:Hn; [|apply rtc_refl].
  destruct (request_step f pc _ _) as [[[pc' db'] r']|] eqn:Hs; [|apply rtc_refl].
  destruct (_ <? _) eqn:Hr; [|apply rtc_refl]. apply Z.ltb_lt in Hr.
  apply rtc_once. by eapply live_request.
Qed.

Definition hang_up (n : nat) (V : Live MemDB MemRedis) : Live MemDB MemRedis :=
  match lv_requests V !! n with
  | None => V
  | Some pc => mk_live (lv_fleet V) (delete n (lv_requests V)) (list_to_set (publishes pc) ∪ lv_lost V)
  end.

Lemma hang_up_steps n V : rtc demo_step V (hang_up n V).
Proof.
  destruct V as [F qs lost]. unfold hang_up. cbn. destruct (qs !! n) eqn:Hn; [|apply rtc_refl].
  apply rtc_once. by apply live_hang_up.
Qed.

Definition live_empty : Live MemDB MemRedis := mk_live (mk_fleet s_empty ∅) ∅ ∅.

(** A submission whose publication meets [f]. *)
Definition live_called : Live MemDB MemRedis :=
  mk_live (mk_fleet s_empty ∅) {[ 0%nat := Q_transaction (Submit (demo_env 2000 11) demo_request None) ]} ∅.
Definition live_submitted (f : fault) : Live MemDB MemRedis :=
  hang_up 0 (proceed 0 f (proceed 0 no_fault live_called)).

Lemma live_called_reachable : live_reachable no_text no_text live_called.
Proof.
  exists live_empty. split.
  - split; [by split|]. split; [by apply represents_empty|done].
  - apply rtc_once. apply (live_call _ _ _ ∅ ∅ 0%nat); [done|]. split; [apply demo_alone|done].
Qed.

Lemma live_submitted_reachable f : live_reachable no_text no_text (live_submitted f).
Proof.
  destruct live_called_reachable as (V0 & Hi & Hs). exists V0. split; [done|].
  etrans; [exact Hs|]. etrans; [apply (proceed_steps 0 no_fault)|].
  etrans; [apply (proceed_steps 0 f)|]. apply hang_up_steps.
Qed.

Definition live_job (V : Live MemDB MemRedis) : Job := job_in (fl_sys (lv_fleet V)).

Lemma submitted_row f :
  jobs_table (sys_db (fl_sys (lv_fleet (live_submitted f)))) = {[ 11 := live_job (live_submitted no_fault) ]}.
Proof. destruct f; vm_compute; reflexivity. Qed.

Lemma submitted_pending : status (live_job (live_submitted no_fault)) = PENDING.
Proof. vm_compute. reflexivity. Qed.

Lemma submitted_payload : payload (live_job (live_submitted no_fault)) = req_payload demo_request.
Proof. vm_compute. reflexivity. Qed.

Lemma submitted_requests f : lv_requests (live_submitted f) = ∅.
Proof. destruct f; vm_compute; reflexivity. Qed.

Lemma submitted_lost : lv_lost (live_submitted no_fault) = ∅.
Proof. vm_compute. reflexivity. Qed.

Lemma submitted_procs f : fl_procs (lv_fleet (live_submitted f)) = ∅.
Proof. destruct f; vm_compute; reflexivity. Qed.

Lemma submitted_quiet f id :
  ¬ coming (fl_procs (lv_fleet (live_submitted f))) (lv_requests (live_submitted f)) id.
Proof. rewrite submitted_requests, submitted_procs. apply nowhere. Qed.

Lemma submitted_unseen : unseen (live_submitted command_lost) 11.
Proof.
  split; [vm_compute; reflexivity|apply submitted_quiet|].
  rewrite submitted_requests, submitted_procs. by intros c ?%nowhere.
Qed.

(** With the answer of Redis the job is queued, without it the job is lost. *)
Lemma pending_jobs_are_accounted_for_witness :
  (is_Some (current_member 11 (sys_redis (fl_sys (lv_fleet (live_submitted no_fault)))))) ∧
  11 ∈ lv_lost (live_submitted command_lost).
Proof.
  assert (∀ f, jobs_table (sys_db (fl_sys (lv_fleet (live_submitted f)))) !! 11 =
    Some (live_job (live_submitted no_fault))) as Hrow by (intros f; by rewrite submitted_row).
  split.
  - destruct (pending_jobs_are_accounted_for no_text no_text (live_submitted no_fault) 11 _
      (live_submitted_reachable no_fault) (Hrow no_fault) submitted_pending)
      as [(c & Hc & _)|[Hc|Hl]]; [by eexists|by apply submitted_quiet in Hc|].
    by rewrite submitted_lost in Hl.
  - destruct (pending_jobs_are_accounted_for no_text no_text (live_submitted command_lost) 11 _
      (live_submitted_reachable command_lost) (Hrow command_lost) submitted_pending)
      as [(c & Hc & _)|[Hc|Hl]]; [exfalso|by apply submitted_quiet in Hc|exact Hl].
    revert Hc. rewrite (us_queue _ _ submitted_unseen). done.
Defined.

(** A worker starts, peeks, and finds nothing. *)
Lemma lost_publication_is_never_repaired_witness :
  ∃ V' row', rtc demo_step (live_submitted command_lost) V' ∧
    fl_procs (lv_fleet V') !! 0%nat = Some (start_process demo_worker 10 10) ∧
    jobs_table (sys_db (fl_sys (lv_fleet V'))) !! 11 = Some row' ∧
    (status row' = PENDING ∧ attempt_count row' = 0 ∨ status row' = CANCELLED).
Proof.
  set (V := live_submitted command_lost).
  set (V' := mk_live (mk_fleet (fl_sys (lv_fleet V))
    (<[0%nat := start_process demo_worker 10 10]> (fl_procs (lv_fleet V)))) (lv_requests V) (lv_lost V)).
  assert (rtc demo_step V V') as Hrun.
  { apply rtc_once. unfold V'. destruct V as [[s ps] qs lost] eqn:HV. apply live_start; [|done].
    change ps with (fl_procs (lv_fleet (mk_live (mk_fleet s ps) qs lost))). rewrite <-HV.
    unfold V in *. by rewrite submitted_procs. }
  assert (jobs_table (sys_db (fl_sys (lv_fleet V))) !! 11 = Some (live_job (live_submitted no_fault)))
    as Hrow by (unfold V; by rewrite submitted_row).
  destruct (lost_publication_is_never_repaired no_text no_text V V' 11 _
    (live_submitted_reachable command_lost) Hrow submitted_pending submitted_unseen Hrun)
    as (row' & Hrow' & Hst & _).
  exists V', row'. split; [exact Hrun|]. split; [apply lookup_insert_eq|]. split; [exact Hrow'|exact Hst].
Defined.

Lemma quiet_service_runs_every_pending_job_witness :
  ∃ db' r' row', run_forever no_text no_text demo_worker [demo_turn false]
      (sys_db (fl_sys (lv_fleet (live_submitted no_fault))),
       sys_redis (fl_sys (lv_fleet (live_submitted no_fault)))) = (db', r') ∧
    peek r' = Ok None ∧ jobs_table db' !! 11 = Some row' ∧ attempt_count row' = 1.
Proof.
  destruct (quiet_service_runs_every_pending_job no_text no_text demo_worker [demo_turn false]
    (live_submitted no_fault) (live_submitted_reachable no_fault) (submitted_quiet no_fault))
    as (db' & r' & Hrun & Hpk & Hall).
  - exact submitted_lost.
  - intros id row. rewrite submitted_row. intros [_ <-]%lookup_singleton_Some.
    rewrite submitted_payload. done.
  - constructor; [apply demo_turn_calm|constructor].
  - vm_compute. done.
  - done.
  - specialize (Hall 11 (live_job (live_submitted no_fault))). rewrite submitted_row in Hall.
    specialize (Hall (lookup_singleton_eq _ _)). rewrite decide_True in Hall by exact submitted_pending.
    destruct Hall as (row' & Hrow' & t & k & _ & h & _ & (_ & Hc & _)%ended_settled).
    exists db', r', row'. split; [exact Hrun|]. split; [exact Hpk|]. split; [exact Hrow'|].
    rewrite Hc. vm_compute. reflexivity.
Defined.
