(* ===== verification/Durability.v ===== *)
(** * Durability: nothing is visible before it is stored

    The other half of the contract between the two stores ([Visibility]): whatever Redis
    names, whatever a worker has read there and whatever anybody is about to publish is
    a row of the database.  [submit_job] and the scheduler commit before they publish,
    and no statement of the service deletes a row. *)

From S2P Require Import Prelude.
From S2P Require Import Text.
From S2P Require Import Errors.
From S2P Require Import Model.
From S2P Require Import Postgres.
From S2P Require Import MemDB.
From S2P Require Import Session.
From S2P Require Import Redis.
From S2P Require Import ReadyQueue.
From S2P Require Import Lifecycle.
From S2P Require Import Handlers.
From S2P Require Import Heartbeat.
From S2P Require Import Runner.
From S2P Require Import Process.
From S2P Require Import Fleet.
From S2P Require Import Requests.
From S2P Require Import Visibility.

Local Open Scope Z_scope.

Section durability.
Context {DB : Type} `{!Postgres DB, !PostgresLaws DB} {R : Type} `{!Redis R, !RedisLaws R}.
Context (py_str : JSON → string) (exn_repr : exn → string).
Implicit Types (s : Sys DB R) (ps : gmap nat Process) (qs : gmap nat (RequestPc DB)).

Abbreviation pstep := (process_step py_str exn_repr).
Abbreviation T s := (jobs_table (sys_db s)).

(** The rows there are, for the queue and for everybody who works with it. *)
Definition backed (t : table) (r : R) ps qs : Prop :=
  (∀ id, coming ps qs id → is_Some (t !! id)) ∧
  (∀ c, seen ps qs c → is_Some (t !! qc_job_id c)) ∧
  ∃ q, represents r q ∧ ∀ id, is_Some (q !! id) → is_Some (t !! id).

Definition backed_live (V : Live DB R) : Prop :=
  backed (T (fl_sys (lv_fleet V))) (sys_redis (fl_sys (lv_fleet V))) (fl_procs (lv_fleet V))
    (lv_requests V).

(** Rows are never deleted. *)
Lemma rows_stay s s' id :
  rtc step s s' → table_wf (T s) → is_Some (T s !! id) → is_Some (T s' !! id).
Proof using PostgresLaws0.
  induction 1 as [|s s1 s2 Hst _ IH]; [done|]. intros Hwf [r Hr].
  destruct (step_evolves _ _ Hst Hwf) as [Hev _].
  apply IH; [by eapply table_evolves_wf|].
  destruct (te_old _ _ _ Hev id r Hr) as (r' & Hr' & _). by exists r'.
Qed.

(** The queue only gains what is published. *)
Lemma sends_backed (t : table) publish drop (r r' : R) q :
  represents r q → (∀ id, is_Some (q !! id) → is_Some (t !! id)) → sends publish drop r r' →
  (∀ id, publish id → is_Some (t !! id) ∧ uuid_ok id) → (∀ c, drop c → genuine r c) →
  counter r SEQUENCE_KEY + 1 < SEQ_BOUND →
  ∃ q', represents r' q' ∧ ∀ id, is_Some (q' !! id) → is_Some (t !! id).
Proof using RedisLaws0.
  intros Hr Hq Hs Hpub Hdrop Hroom. destruct Hs as [|i prio Hi|c Hc]; [by exists q|..].
  - destruct (Hpub i Hi) as [Hrow Hok].
    destruct (enqueue_spec r q i prio Hr Hok Hroom) as (r' & -> & Hr' & _).
    eexists. split; [exact Hr'|]. intros id. unfold a_enqueue. rewrite lookup_insert.
    case_decide; [by subst|apply Hq].
  - destruct c as [i m seq]. destruct (Hdrop _ Hc) as (Hok & Hm & Hb & Hlt).
    cbn in Hok, Hm, Hb, Hlt. subst m.
    destruct (remove_spec r q i seq Hr Hok ltac:(lia)) as (r' & -> & Hr' & _).
    eexists. split; [exact Hr'|]. intros id. unfold a_remove.
    destruct (q !! i) as [[p seq']|]; [case_decide|]; [|apply Hq..].
    intros [e [_ He]%lookup_delete_Some]. apply Hq. by exists e.
Qed.

Lemma request_backed s ps qs lost n pc f pc' db' r' :
  qs !! n = Some pc → has_room s → table_wf (T s) → live_ok (mk_live (mk_fleet s ps) qs lost) →
  request_step f pc (sys_db s) (sys_redis s) = Some (pc', db', r') →
  backed (T s) (sys_redis s) ps qs → backed (jobs_table db') r' ps (<[n := pc']> qs).
Proof using PostgresLaws0 RedisLaws0.
  intros Hn Hroom Hwf Hok Hstep (Hcoming & Hseen & q & Hr & Hq).
  destruct (request_indexed s ps qs lost n pc f pc' db' r' Hn Hroom Hok Hstep) as [[_ Hp _ _] _].
  assert (∀ id, is_Some (T s !! id) → is_Some (jobs_table db' !! id)) as Hkeep.
  { intros id. apply (rows_stay s (mk_sys db' r' (minted s))); [|done].
    eapply request_service; [|exact Hstep]. intros c ->. by eapply (lo_calls _ Hok). }
  destruct (lo_index _ Hok) as (q0 & _ & Hg & _).
  split; [|split].
  - intros id [?|Hid]%after_request; [by apply Hkeep, Hcoming|by destruct (Hp id Hid)].
  - intros c [?|Hc]%after_request; [by apply Hkeep, Hseen|]. apply Hkeep.
    destruct (request_sees _ _ _ _ _ _ _ c Hstep Hc) as (job & m & -> & Hm & Hfm). apply Hq.
    apply (read_queued (sys_redis s) q c Hr). right. exists (job_id job), m. split; [|done].
    by destruct (lo_cleans _ Hok n _ (job_id job) Hn eq_refl).
  - destruct (sends_backed (T s) _ _ (sys_redis s) r' q Hr Hq (request_sends _ _ _ _ _ _ _ Hstep))
      as (q' & Hr' & Hq'); [|intros c Hc; apply Hg; right; eauto|done|].
    + intros id Hid. assert (coming ps qs id) as Hc by (right; eauto).
      split; [by apply Hcoming|exact (lo_coming _ Hok id Hc)].
    + exists q'. split; [done|]. intros id Hid. by apply Hkeep, Hq'.
Qed.

Lemma process_backed s ps qs lost i p actor an p' db' r' :
  ps !! i = Some p → mints actor an p ## minted s → has_room s → table_wf (T s) →
  varchar_ok 128 (wk_id (pr_wk p)) = true → live_ok (mk_live (mk_fleet s ps) qs lost) →
  pstep actor an p (sys_db s) (sys_redis s) = Some (p', db', r') →
  backed (T s) (sys_redis s) ps qs → backed (jobs_table db') r' (<[i := p']> ps) qs.
Proof using PostgresLaws0 RedisLaws0.
  intros Hi Hf Hroom Hwf Hw Hok Hstep (Hcoming & Hseen & q & Hr & Hq).
  destruct (process_indexed _ _ s ps qs lost i p actor an p' db' r' Hi Hroom Hwf Hw
    (lo_coming _ Hok) (lo_index _ Hok) Hstep) as (_ & Hp & _).
  assert (∀ id, is_Some (T s !! id) → is_Some (jobs_table db' !! id)) as Hkeep.
  { intros id. apply (rows_stay s (mk_sys db' r' (mints actor an p ∪ minted s))); [|done].
    by eapply rtc_once, process_refines. }
  destruct (lo_index _ Hok) as (q0 & _ & Hg & _).
  split; [|split].
  - intros id [?|[Hid|(row & Hrow & _)]%Hp]%after_process; apply Hkeep; [by apply Hcoming| |by exists row].
    apply Hcoming. left. eauto.
  - intros c [?|Hc]%after_process; apply Hkeep; [by apply Hseen|].
    destruct (decide (actor = A_scheduler)) as [->|Hns].
    { apply Hseen. left. exists i, p. split; [done|]. cbn in Hstep. by repeat case_match; simplify_eq. }
    destruct (process_reads _ _ s actor an p p' db' r' Hwf Hw Hns Hstep) as [[_ Hs _] _].
    destruct (Hs c Hc) as [?|Hpk]; [apply Hseen; left; eauto|].
    apply Hq, (read_queued (sys_redis s) q c Hr). by left.
  - destruct (sends_backed (T s) _ _ (sys_redis s) r' q Hr Hq (process_sends _ _ s _ _ _ _ _ _ Hwf Hw Hstep))
      as (q' & Hr' & Hq'); [| |done|].
    + intros id Hid. assert (coming ps qs id) as Hc by (left; eauto).
      split; [by apply Hcoming|exact (lo_coming _ Hok id Hc)].
    + intros c Hc. apply Hg. left. exists i, p. split; [done|by apply dropped_seen].
    + exists q'. split; [done|]. intros id Hid. by apply Hkeep, Hq'.
Qed.

Lemma live_step_backed V V' :
  live_step py_str exn_repr V V' → fleet_reachable py_str exn_repr (lv_fleet V) → live_ok V →
  backed_live V → backed_live V'.
Proof using PostgresLaws0 RedisLaws0.
  intros Hstep Hreach. pose proof (fleet_reachable_ok _ _ _ Hreach) as Hfl.
  pose proof (reachable_wf _ (fleet_reachable_service _ _ _ Hreach)) as Hwf.
  revert Hfl Hwf. clear Hreach. unfold backed_live.
  destruct Hstep as [F qs lost m c Hn Hcall|s ps qs lost m pc f pc' db' r' Hn Hroom Hst
    |F qs lost m pc Hn|s ps qs lost i wk a b Hi Hw|s ps qs lost i p Hi|s ps qs lost i p Hi
    |s ps qs lost i p actor an p' db' r' Hi Hf Hroom Hst]; cbn; intros Hfl Hwf Hok Hb;
    try (by eapply request_backed);
    try (destruct (fo_process _ Hfl i p Hi) as [_ Hw]; by eapply process_backed);
    destruct Hb as (H1 & H2 & H3); (split; [|split; [|exact H3]]).
  - by intros id [?|?%not_elem_of_nil]%after_request; [apply H1|].
  - by intros c' [?|[]]%after_request; apply H2.
  - by intros id ?%gone_request; apply H1.
  - by intros c ?%gone_request; apply H2.
  - by intros id [?|?%not_elem_of_nil]%after_process; [apply H1|].
  - by intros c [?|[]]%after_process; apply H2.
  - intros id Hc. apply H1. by eapply shrink_process in Hc.
  - intros c Hc. apply H2. by eapply shrink_process in Hc.
  - by intros id ?%gone_process; apply H1.
  - by intros c ?%gone_process; apply H2.
Qed.

Lemma live_reachable_backed V : live_reachable py_str exn_repr V → backed_live V.
Proof using PostgresLaws0 RedisLaws0.
  intros (V0 & H0 & Hs). pose proof (live_reachable_ok py_str exn_repr V0 ltac:(by exists V0)) as [Hf Hok].
  assert (backed_live V0) as Hb.
  { destruct H0 as ((_ & Hp) & Hr & Hq & _). unfold backed_live. rewrite Hp, Hq.
    split; [by intros id ?%nowhere|]. split; [by intros c ?%nowhere|]. exists ∅. split; [done|].
    intros id [e He]. by rewrite lookup_empty in He. }
  clear H0. induction Hs as [V|V1 V2 V3 H12 _ IH]; [done|].
  apply IH; [by eapply live_step_reachable|by eapply live_step_ok|by eapply live_step_backed].
Qed.

Abbreviation DBof V := (sys_db (fl_sys (lv_fleet V))).
Abbreviation Rof V := (sys_redis (fl_sys (lv_fleet V))).

(** C7: Nothing is visible before it is stored, and never afterwards without being stored:
    in whatever way API calls, workers, faults and crashes interleave, the job that the
    next peek names, every job with an entry of its own, every job a worker is about to
    claim or a request about to drop from the queue, and every job that anybody is
    about to publish, is a row of the database. *)
Theorem nothing_is_visible_before_it_is_stored V (HV : live_reachable py_str exn_repr V) :
  let t := jobs_table (DBof V) in
  (∀ c, peek (Rof V) = Ok (Some c) → is_Some (t !! qc_job_id c)) ∧
  (∀ id m, uuid_ok id → current_member id (Rof V) = Some m → is_Some (t !! id)) ∧
  (∀ i p k c, fl_procs (lv_fleet V) !! i = Some p → pr_runner p = R_claim k c →
     is_Some (t !! qc_job_id c)) ∧
  (∀ n job c, lv_requests V !! n = Some (Q_remove job c) → is_Some (t !! qc_job_id c)) ∧
  (∀ n job created, lv_requests V !! n = Some (Q_publish job created) → is_Some (t !! job_id job)) ∧
  (∀ i p job rest, fl_procs (lv_fleet V) !! i = Some p → pr_scheduler p = S_enqueue job rest →
     is_Some (t !! job_id job)).
Proof using PostgresLaws0 RedisLaws0.
  destruct (live_reachable_backed V HV) as (Hc & Hs & q & Hr & Hq). repeat split.
  - intros c Hpk. by apply Hq, (read_queued _ q c Hr); left.
  - intros id m Hid Hm. apply Hq. rewrite (current_member_spec _ q) in Hm by done.
    apply fmap_Some in Hm as (e & He & _). by exists e.
  - intros i p k c Hp Hpc. apply Hs. left. exists i, p. split; [done|]. by rewrite Hpc.
  - intros n job c Hn. apply Hs. right. by exists n, (Q_remove job c).
  - intros n job created Hn. apply Hc. right. exists n, (Q_publish job created).
    split; [done|by left].
  - intros i p job rest Hp Hpc. apply Hc. left. exists i, p. split; [done|]. rewrite Hpc. by left.
Qed.
End durability.

(** ** Witness: a submission between its commit and its publication, and after it *)

Lemma nothing_is_visible_before_it_is_stored_witness :
  ∃ c, peek (sys_redis (fl_sys (lv_fleet (live_submitted no_fault)))) = Ok (Some c) ∧
    is_Some (jobs_table (sys_db (fl_sys (lv_fleet (live_submitted no_fault)))) !! qc_job_id c).
Proof.
  destruct (nothing_is_visible_before_it_is_stored no_text no_text (live_submitted no_fault)
    (live_submitted_reachable no_fault)) as [H _].
  assert (∃ c, peek (sys_redis (fl_sys (lv_fleet (live_submitted no_fault)))) = Ok (Some c)) as [c Hc]
    by (vm_compute; eexists; reflexivity).
  exists c. split; [exact Hc|exact (H c Hc)].
Defined.
