(* ===== verification/Completion.v ===== *)
(** * Completion: every job ends

    The three loops of [worker/main.py] over the whole table, turn by turn and in any
    order: sweeps, activations and polls, by any number of workers, with batches of any
    size.  What the theorem shows is that under a fair order every job of the service
    ends, however long the backlog, and that retries cannot keep it alive.  The measure
    is the work each job has left, twice, plus the entries of the ready queue. *)

From S2P Require Import Prelude.
From S2P Require Import Text.
From S2P Require Import Errors.
From S2P Require Import Model.
From S2P Require Import Postgres.
From S2P Require Import MemDB.
From S2P Require Import Session.
From S2P Require Import RetryPolicy.
From S2P Require Import Config.
From S2P Require Import Ownership.
From S2P Require Import Redis.
From S2P Require Import ReadyQueue.
From S2P Require Import Schemas.
From S2P Require Import Fencing.
From S2P Require Import Recovery.
From S2P Require Import Lifecycle.
From S2P Require Import Handlers.
From S2P Require Import Heartbeat.
From S2P Require Import Runner.
From S2P Require Import Scheduler.
From S2P Require Import Backlog.
From S2P Require Import Worker.
From S2P Require Import Process.
From S2P Require Import Fleet.
From S2P Require Import Requests.
From S2P Require Import Visibility.

Local Open Scope Z_scope.

(** ** The work a job has left *)

Definition attempts_left (r : Job) : nat := Z.to_nat (max_attempts r - attempt_count r).

(** The moves a job can still make without its submitter, counted from above. *)
Definition weight (r : Job) : nat :=
  match status r with
  | PENDING => 3 * attempts_left r - 1
  | SCHEDULED => 3 * attempts_left r
  | PROCESSING => S (3 * attempts_left r)
  | COMPLETED | FAILED | CANCELLED => 0
  end.

Definition effort (t : table) : nat := map_fold (λ _ r n, (weight r + n)%nat) 0%nat t.

Lemma effort_insert i r t : t !! i = None → effort (<[i := r]> t) = (weight r + effort t)%nat.
Proof. intros Hi. unfold effort. rewrite map_fold_insert_L by (done || lia). done. Qed.

Lemma effort_take i r t : t !! i = Some r → effort t = (weight r + effort (delete i t))%nat.
Proof.
  intros Hi. rewrite <-(effort_insert i) by apply lookup_delete_eq. by rewrite insert_delete_id.
Qed.

Lemma effort_bound k t : map_Forall (λ _ r, (weight r ≤ k)%nat) t → (effort t ≤ k * base.size t)%nat.
Proof.
  induction t as [|i r t Hi IH] using map_ind; intros Hb.
  { unfold effort. rewrite map_fold_empty. lia. }
  apply map_Forall_insert in Hb as [Hr Hb]; [|done].
  rewrite effort_insert, map_size_insert_None by done. specialize (IH Hb). lia.
Qed.

(** Rows that get lighter lower the sum by at least one each. *)
Lemma effort_drops t t' (ids : gset uuid) :
  (∀ i r, t !! i = Some r → ∃ r', t' !! i = Some r' ∧
     (weight r' + (if bool_decide (i ∈ ids) then 1 else 0) ≤ weight r)%nat) →
  (∀ i, t !! i = None → t' !! i = None) → ids ⊆ dom t →
  (effort t' + base.size ids ≤ effort t)%nat.
Proof.
  revert t' ids. induction t as [|i r t Hi IH] using map_ind; intros t' ids Hstep Hnone Hids.
  { assert (t' = ∅) as -> by (apply map_eq; intros i; rewrite lookup_empty; by apply Hnone).
    assert (ids = ∅) as -> by set_solver. by rewrite size_empty. }
  destruct (Hstep i r (lookup_insert_eq _ _ _)) as (r' & Hr' & Hw).
  rewrite (effort_take i r' t' Hr'), effort_insert by done.
  specialize (IH (delete i t') (ids ∖ {[i]})).
  assert (effort (delete i t') + base.size (ids ∖ {[i]}) ≤ effort t)%nat as Hle.
  { apply IH.
    - intros j r0 Hj. assert (j ≠ i) as Hne by congruence.
      destruct (Hstep j r0) as (r1 & Hr1 & Hw1); [by rewrite lookup_insert_ne|].
      exists r1. rewrite lookup_delete_ne by done. split; [done|].
      assert (bool_decide (j ∈ ids ∖ {[i]}) = bool_decide (j ∈ ids)) as -> by
        (apply bool_decide_ext; set_solver). done.
    - intros j Hj. destruct (decide (j = i)) as [->|Hne]; [apply lookup_delete_eq|].
      rewrite lookup_delete_ne by done. apply Hnone. by rewrite lookup_insert_ne.
    - rewrite dom_insert in Hids. set_solver. }
  case_bool_decide as Hin.
  - rewrite size_difference, size_singleton in Hle by set_solver.
    assert (base.size ids ≠ 0%nat) by (intros ?%size_empty_inv; set_solver). lia.
  - assert (ids ∖ {[i]} = ids) as He by set_solver. rewrite He in Hle. lia.
Qed.

(** When a row's clock runs out. *)
Definition within (H : Z) (r : Job) : Prop :=
  (status r = PROCESSING → ∃ d, lease_expires_at r = Some d ∧ d < H) ∧
  (status r = SCHEDULED → ∃ z, scheduled_at r = Some z ∧ z ≤ H).

Definition longest_delay : Z := seconds (retry_delay 2).

(** A turn that ends at [E] moves a job. *)
Record row_step (E : Z) (r r' : Job) : Prop := {
  rs_wf : job_wf r';
  rs_weight : (weight r' < weight r)%nat;
  rs_status : status r' ≠ CANCELLED;
  rs_same : same_submission r r';
  rs_within : within (E + longest_delay) r'
}.

Lemma within_mono H H' r : H ≤ H' → within H r → within H' r.
Proof.
  intros Hle [H1 H2]. split; intros Hs.
  - destruct (H1 Hs) as (d & ? & ?). exists d. split; [done|lia].
  - destruct (H2 Hs) as (d & ? & ?). exists d. split; [done|lia].
Qed.

Lemma delay_bounds n : 1 ≤ n < 3 → 0 ≤ seconds (retry_delay n) ≤ longest_delay.
Proof.
  intros Hn. assert (n = 1 ∨ n = 2) as [-> | ->] by lia; vm_compute; split; congruence.
Qed.

(** Settling a running row: done, or one attempt fewer. *)
Lemma settled_row_step E now e r :
  job_wf r → status r = PROCESSING → now ≤ E → row_step E r (settled now e r).
Proof.
  intros Hw Hs Hnow. pose proof (evolves_settled now e r Hw Hs) as [Hw' _ Hsame _ _].
  destruct (wf_owned _ Hw Hs) as (_ & _ & _ & _ & Hc). pose proof (wf_count _ Hw) as Hb.
  pose proof (wf_max _ Hw) as Hm. unfold settled, failed_values in *.
  destruct (attempt_count r <? max_attempts r) eqn:Hlt; to_prop.
  - split; [done| |done|done|].
    + unfold weight, attempts_left. cbn. rewrite Hs. lia.
    + split; [done|]. intros _. eexists. split; [done|].
      pose proof (delay_bounds (attempt_count r) ltac:(lia)). lia.
  - split; [done| |done|done|by split]. unfold weight. cbn. rewrite Hs. lia.
Qed.

Lemma completed_row_step E now v r :
  job_wf r → status r = PROCESSING → row_step E r (apply_values (complete_values now v) r).
Proof.
  intros Hw Hs. pose proof (evolves_complete now v r Hw Hs) as [Hw' _ Hsame _ _].
  split; [done| |done|done|by split]. unfold weight. cbn. rewrite Hs. lia.
Qed.

Lemma activated_row_step E r :
  job_wf r → status r = SCHEDULED → row_step E r (apply_values [SetStatus PENDING] r).
Proof.
  intros Hw Hs. pose proof (evolves_activate r Hw Hs) as [Hw' _ Hsame _ _].
  split; [done| |done|done|by split].
  pose proof (wf_runnable _ Hw (or_intror Hs)). pose proof (wf_max _ Hw).
  unfold weight, attempts_left. cbn. rewrite Hs. lia.
Qed.


Lemma row_step_before E r r1 r' :
  (weight r1 ≤ weight r)%nat → same_submission r r1 → row_step E r1 r' → row_step E r r'.
Proof.
  intros Hw Hsame [H1 H2 H3 H4 H5]. split; [done|lia|done| |done].
  unfold same_submission in *. naive_solver congruence.
Qed.

Section ran.
Context {DB R : Type} (py_str : JSON → string) (exn_repr : exn → string).

(** An attempt of a claimable job, whatever its handler does. *)
Lemma ran_row_step E wk (cy : Cycle DB R) r r' :
  job_wf r → status r = PENDING → cy_settle_now cy ≤ E → ran_by py_str exn_repr wk cy r r' →
  row_step E r r' ∧ status r' ≠ PENDING.
Proof using Type.
  intros Hw Hs Hnow (h & _ & Hend). pose proof (wf_runnable _ Hw (or_introl Hs)) as Hc.
  pose proof (wf_max _ Hw) as Hm. pose proof (wf_count _ Hw) as Hb.
  assert (claimable r = true) as Hcl by (unfold claimable; rewrite Hs, Hm; by apply Z.ltb_lt).
  set (res := outcome _) in Hend. split.
  - destruct Hend as (job1 & (p & l & ->) & ->). unfold claimed in *.
    pose proof (evolves_claim (cy_now cy) (lease_deadline (wk_default_lease wk) (cy_now cy)
      (Some (wk_lease wk))) (wk_id wk) (cy_token cy) r Hw Hcl) as [Hwc _ Hsame _ _].
    set (c := apply_values (claim_values _ _ _ _) r) in *.
    pose proof (ev_wf _ _ _ (evolves_progress p c Hwc eq_refl)) as Hwp.
    set (c' := apply_values [SetProgress p] c) in *.
    apply (row_step_before E r c'); [|exact Hsame|].
    + unfold weight, attempts_left. cbn. rewrite Hs, Hm. lia.
    + assert (settled_row exn_repr (cy_settle_now cy) res
        (apply_values [SetProgress p; SetLeaseExpiresAt l] c) =
        settled_row exn_repr (cy_settle_now cy) res c') as ->.
      { destruct res; [done|]. unfold settled_row, settled, failed_values. cbn.
        by destruct (_ <? _). }
      destruct res; [by apply completed_row_step|by apply settled_row_step].
  - apply ended_settled in Hend as (_ & _ & Hend). destruct res.
    + by destruct Hend as [-> _].
    + destruct Hend as [_ Hend]. case_match; by destruct Hend as [-> _].
Qed.
End ran.

(** ** A turn on the whole table *)

(** The rows [ids] make a step, the others stay. *)
Record stepped (E : Z) (ids : gset uuid) (t t' : table) : Prop := {
  sp_dom : ids ⊆ dom t;
  sp_row i r : t !! i = Some r → ∃ r', t' !! i = Some r' ∧
    if bool_decide (i ∈ ids) then row_step E r r' else r' = r;
  sp_none i : t !! i = None → t' !! i = None
}.

(** What a row has become after any number of turns. *)
Definition progresses (r r' : Job) : Prop :=
  r' = r ∨ ((weight r' < weight r)%nat ∧ status r' ≠ CANCELLED ∧ same_submission r r').

#[export] Instance progresses_preorder : PreOrder progresses.
Proof.
  split; [by left|]. intros r1 r2 r3 [->|(H1 & H2 & H3)] [->|(H4 & H5 & H6)]; [by left|..].
  - by right.
  - by right.
  - right. split; [lia|]. split; [done|]. unfold same_submission in *. naive_solver congruence.
Qed.

Lemma row_step_progresses E r r' : row_step E r r' → progresses r r'.
Proof. intros [_ Hw Hs Hsame _]. by right. Qed.

(** What the loops keep of every row. *)
Definition rows_ok (H : Z) (t : table) : Prop :=
  map_Forall (λ i r, uuid_ok i ∧ job_wf r ∧ countable (payload r) ∧ within H r) t.

Lemma stepped_rows E H ids t t' :
  stepped E ids t t' → rows_ok H t → rows_ok (H `max` (E + longest_delay)) t'.
Proof.
  intros [_ Hrow Hnone] Hok i r' Hr'. destruct (t !! i) as [r|] eqn:Hr; [|by rewrite Hnone in Hr'].
  destruct (Hrow i r Hr) as (r1 & Hr1 & Hstep). simplify_eq.
  destruct (Hok i r Hr) as (Hid & Hwf & Hn & Hin). case_bool_decide.
  - destruct Hstep as [Hwf' _ _ Hsame Hin']. split; [done|]. split; [done|].
    destruct Hsame as (_ & _ & -> & _). split; [done|]. eapply within_mono, Hin'. lia.
  - subst. do 3 (split; [done|]). eapply within_mono, Hin. lia.
Qed.

Lemma stepped_effort E ids t t' : stepped E ids t t' → (effort t' + base.size ids ≤ effort t)%nat.
Proof.
  intros [Hdom Hrow Hnone]. apply effort_drops; [|done|done]. intros i r Hr.
  destruct (Hrow i r Hr) as (r' & Hr' & Hs). exists r'. split; [done|].
  case_bool_decide; [pose proof (rs_weight _ _ _ Hs); lia|subst; lia].
Qed.

Lemma stepped_progresses E ids t t' i r :
  stepped E ids t t' → t !! i = Some r → ∃ r', t' !! i = Some r' ∧ progresses r r'.
Proof.
  intros [_ Hrow _] Hr. destruct (Hrow i r Hr) as (r' & Hr' & Hs). exists r'. split; [done|].
  case_bool_decide; [by eapply row_step_progresses|by left].
Qed.

Lemma stepped_nothing E t t' : stepped E ∅ t t' → t' = t.
Proof.
  intros [_ Hrow Hnone]. apply map_eq. intros i. destruct (t !! i) as [r|] eqn:Hr; [|by apply Hnone].
  destruct (Hrow i r Hr) as (r' & -> & Hs). rewrite bool_decide_false in Hs by set_solver.
  by rewrite Hs.
Qed.

(** Rewriting selected rows, as the sweep and the activation do. *)
Lemma map_rows_stepped E f (l : list uuid) t :
  (∀ i, i ∈ l → ∃ r, t !! i = Some r ∧ row_step E r (f r)) →
  stepped E (list_to_set l) t (map_rows f l t).
Proof.
  intros Hl. split.
  - intros i Hi%elem_of_list_to_set. destruct (Hl i Hi) as (r & Hr & _). by apply elem_of_dom_2 in Hr.
  - intros i r Hr. rewrite lookup_map_rows, Hr. eexists. split; [done|].
    assert (bool_decide (i ∈ (list_to_set l : gset uuid)) = bool_decide (i ∈ l)) as ->
      by (apply bool_decide_ext, elem_of_list_to_set).
    case_bool_decide as Hi; [|done]. destruct (Hl i Hi) as (r0 & Hr0 & Hs). by simplify_eq.
  - intros i Hi. by rewrite lookup_map_rows, Hi.
Qed.

(** ** Turns of the loops *)

Section completion.
Context {DB : Type} `{!Postgres DB} {R : Type} `{!Redis R}.
Context (py_str : JSON → string) (exn_repr : exn → string).

(** A turn of one loop of one worker. *)
Inductive Tick :=
  | TickSweep (now : Z) (batch : nat)
  | TickActivate (now : Z) (batch : nat)
  | TickPoll (wk : WorkerConfig) (cycles : nat → Cycle DB R).

(** The exception of a turn, if any, is logged and dropped by its loop. *)
Definition run_tick (w : DB * R) (t : Tick) : DB * R :=
  match t with
  | TickSweep now n => ((recovery_run_once now ∅ n w.1).1, w.2)
  | TickActivate now n => (scheduler_run_once now ∅ n (λ _, no_fault) w).1
  | TickPoll wk cycles => (run_once py_str exn_repr wk cycles w).1
  end.
Definition run_ticks : DB * R → list Tick → DB * R := foldl run_tick.

(** Turns that nothing disturbs and that end by [E]. *)
Definition tick_ok (E : Z) (t : Tick) : Prop :=
  match t with
  | TickSweep now n => n ≠ 0%nat ∧ now ≤ E
  | TickActivate _ n => n ≠ 0%nat
  | TickPoll wk cycles => varchar_ok 128 (wk_id wk) = true ∧
      ∀ k, calm (cycles k) ∧ cy_remove (cycles k) = no_fault ∧ cy_settle_now (cycles k) ≤ E
  end.

(** A turn that found nothing to do. *)
Definition idle_at (t : Tick) (T : table) (q : aqueue) : Prop :=
  match t with
  | TickSweep now _ => ∀ i r, T !! i = Some r → overdue now r = false
  | TickActivate now _ => ∀ i r, T !! i = Some r → due now r = false
  | TickPoll _ _ => q = ∅
  end.

(** The service at rest: rows in order, their clocks run out by [H], every PENDING job
    queued, and numbers left for every enqueue there can be. *)
Record steady (H : Z) (db : DB) (r : R) (q : aqueue) : Prop := {
  st_rows : rows_ok H (jobs_table db);
  st_queue : represents r q;
  st_indexed id : pending (jobs_table db) id → is_Some (q !! id);
  st_room : counter r SEQUENCE_KEY + Z.of_nat (effort (jobs_table db)) < SEQ_BOUND
}.

Definition energy (t : table) (q : aqueue) : nat := 2 * effort t + base.size q.

(** What a turn does: the service is at rest again, and nearer its end unless the turn
    found nothing. *)
Record tick_done (H E : Z) (t : Tick) (db : DB) (q : aqueue) (db' : DB) (r' : R) (q' : aqueue)
    : Prop := {
  td_steady : steady (H `max` (E + longest_delay)) db' r' q';
  td_progress i row : jobs_table db !! i = Some row →
    ∃ row', jobs_table db' !! i = Some row' ∧ progresses row row';
  td_energy : (energy (jobs_table db') q' < energy (jobs_table db) q)%nat ∨
    jobs_table db' = jobs_table db ∧ q' = q ∧ idle_at t (jobs_table db) q
}.

Context `{!PostgresLaws DB, !RedisLaws R}.
Implicit Types (db : DB) (r : R) (q : aqueue).

Lemma st_wf H db r q : steady H db r q → table_wf (jobs_table db).
Proof using Type. intros Hst i row Hrow. by destruct (st_rows _ _ _ _ Hst i row Hrow) as (_ & ? & _). Qed.

(** An ordered batch is empty only when there is nothing to select. *)
Lemma batch_empty (qr : Query) n db :
  Total (before qr) → Transitive (before qr) → q_offset qr = 0%nat → q_limit qr = Some n → n ≠ 0%nat →
  pg_select ∅ qr db = [] → ∀ i row, jobs_table db !! i = Some row → visible ∅ qr row = false.
Proof using PostgresLaws0.
  intros Htot Htr Hoff Hlim Hn He i row Hrow.
  destruct (pg_select_facts ∅ qr db Htot Htr) as (_ & _ & _ & Hb).
  destruct (Hb n Hoff Hlim) as [_ Hall]. rewrite He in Hall. destruct (visible ∅ qr row) eqn:Hv; [|done].
  destruct (not_elem_of_nil row). apply (Hall ltac:(cbn; lia) i row Hrow Hv).
Qed.

Lemma sweep_done H E now n db r q :
  steady H db r q → n ≠ 0%nat → now ≤ E →
  ∃ db', recovery_run_once now ∅ n db =
      (db', Ok (Z.of_nat (length (pg_select ∅ (expired_query now n) db)))) ∧
    tick_done H E (TickSweep now n) db q db' r q.
Proof using PostgresLaws0.
  intros Hst Hn Hnow. pose proof (st_wf _ _ _ _ Hst) as Hwf.
  destruct (recover_expired_leases_spec now ∅ n db) as (db' & Hrun & Ht).
  { intros i row Hrow Hs _. by eapply wf_recoverable, Hs; eapply Hwf. }
  destruct (pg_select_facts ∅ (expired_query now n) db _ _) as (Hnd & Hin & _).
  set (l := pg_select ∅ (expired_query now n) db) in *.
  exists db'. split; [unfold recovery_run_once; by rewrite Hrun, length_fmap|].
  assert (stepped E (list_to_set (job_id <$> l)) (jobs_table db) (jobs_table db')) as Hstep.
  { rewrite Ht. apply map_rows_stepped. intros i (row & -> & Hrow)%list_elem_of_fmap.
    destruct (Hin row Hrow) as [Hlk (Hs & _ & _)%visible_expired]. exists row. split; [done|].
    apply settled_row_step; [by eapply Hwf|done|done]. }
  pose proof (stepped_effort _ _ _ _ Hstep) as Heff. split.
  - split; [by eapply stepped_rows, st_rows|by apply Hst| |pose proof (st_room _ _ _ _ Hst); lia].
    intros id (row' & Hrow' & Hp). apply (st_indexed _ _ _ _ Hst).
    rewrite Ht, lookup_map_rows in Hrow'. apply fmap_Some in Hrow' as (row & Hrow & ->).
    exists row. split; [done|]. case_bool_decide; [|done]. revert Hp.
    unfold settled, failed_values. by destruct (_ <? _).
  - intros i row Hrow. by eapply stepped_progresses.
  - rewrite size_list_to_set, length_fmap in Heff by done. unfold energy.
    destruct (decide (l = [])) as [He|He].
    + right. rewrite He in Hstep. split; [by eapply stepped_nothing|]. split; [done|].
      intros i row Hrow. pose proof (batch_empty (expired_query now n) n db _ _ eq_refl eq_refl Hn He
        i row Hrow) as Hv. unfold overdue. apply not_true_is_false. intros [Hs Hx]%andb_prop. to_prop.
      apply not_true_iff_false in Hv. apply Hv, visible_expired. split; [done|].
      split; [done|apply not_elem_of_empty].
    + left. destruct l; [done|]. cbn in Heff. lia.
Qed.

Lemma activation_done H E now n db r q :
  steady H db r q → n ≠ 0%nat →
  ∃ db' r' m q', scheduler_run_once now ∅ n (λ _, no_fault) (db, r) = (db', r', Ok m) ∧
    tick_done H E (TickActivate now n) db q db' r' q'.
Proof using PostgresLaws0 RedisLaws0.
  intros Hst Hn. pose proof (st_wf _ _ _ _ Hst) as Hwf.
  destruct (activate_spec now ∅ n db) as (db' & ms & Hrun & Hms & Ht).
  destruct (pg_select_facts ∅ (due_query now n) db _ _) as (Hnd & Hin & _).
  set (l := pg_select ∅ (due_query now n) db) in *.
  assert (stepped E (list_to_set (job_id <$> l)) (jobs_table db) (jobs_table db')) as Hstep.
  { rewrite Ht. apply map_rows_stepped. intros i (row & -> & Hrow)%list_elem_of_fmap.
    destruct (Hin row Hrow) as [Hlk [[Hs _]%holds_due _]%visible_due]. exists row. split; [done|].
    apply activated_row_step; [by eapply Hwf|done]. }
  pose proof (stepped_effort _ _ _ _ Hstep) as Heff.
  rewrite size_list_to_set, length_fmap in Heff by done.
  assert (job_id <$> ms ≡ₚ job_id <$> l) as Hids by (rewrite Hms, <-list_fmap_compose; done).
  pose proof (Permutation_length Hids) as Hlen. rewrite !length_fmap in Hlen.
  pose proof (st_room _ _ _ _ Hst) as Hroom.
  destruct (publish_spec (λ _, no_fault) ms r q) as (q' & Hr' & Hpub & Hcnt);
    [by apply Hst|by rewrite Hids| |lia|].
  { apply Forall_forall. intros m Hm. assert (job_id m ∈ job_id <$> l) as Hml
      by (rewrite <-Hids; by apply list_elem_of_fmap_2).
    apply list_elem_of_fmap in Hml as (row & -> & Hrow). destruct (Hin row Hrow) as [Hlk _].
    by destruct (st_rows _ _ _ _ Hst _ _ Hlk). }
  exists db', (publish (λ _, no_fault) ms r), (Z.of_nat (length ms)), q'.
  split; [unfold scheduler_run_once; cbn; by rewrite Hrun|].
  assert (∀ id, is_Some (q !! id) ∨ id ∈ job_id <$> l ↔ is_Some (q' !! id)) as Hq'.
  { intros id. rewrite <-Hids. specialize (Hpub id).
    destruct (list_find (λ j, job_id j = id) ms) as [[k j]|] eqn:Hf.
    - destruct Hpub as (s & Hs & _). apply list_find_Some in Hf as (Hj & <- & _). rewrite Hs.
      split; [by eexists|]. intros _. right. by eapply list_elem_of_fmap_2, list_elem_of_lookup_2.
    - rewrite Hpub. split; [intros [?|(j & -> & Hj)%list_elem_of_fmap]; [done|]|by left].
      apply list_find_None in Hf. rewrite Forall_forall in Hf. by destruct (Hf j Hj). }
  split.
  - split; [by eapply stepped_rows, st_rows|done| |lia].
    intros id (row' & Hrow' & Hp). apply Hq'. rewrite Ht, lookup_map_rows in Hrow'.
    apply fmap_Some in Hrow' as (row & Hrow & ->). case_bool_decide; [by right|left].
    apply (st_indexed _ _ _ _ Hst). by exists row.
  - intros i row Hrow. by eapply stepped_progresses.
  - assert (base.size q' ≤ base.size q + length l)%nat as Hsize.
    { rewrite <-!size_dom, <-(length_fmap job_id l), <-(size_list_to_set (C := gset uuid)) by done.
      transitivity (base.size (dom q ∪ list_to_set (job_id <$> l) : gset uuid)).
      2:{ rewrite size_union_alt. apply Nat.add_le_mono_l, subseteq_size.
          by intros id [? _]%elem_of_difference. }
      apply subseteq_size. intros id [Hid|Hid]%elem_of_dom%Hq'; apply elem_of_union;
        [left; by apply elem_of_dom|right; by apply elem_of_list_to_set]. }
    unfold energy. destruct (decide (l = [])) as [He|He].
    + right. rewrite He in Hstep, Hms. split; [by eapply stepped_nothing|]. split.
      * apply Permutation_nil_r in Hms. subst ms. apply map_eq. intros id. by specialize (Hpub id).
      * intros i row Hrow. pose proof (batch_empty (due_query now n) n db _ _ eq_refl eq_refl Hn He
          i row Hrow) as Hv. unfold due. apply not_true_is_false. intros [Hs Hx]%andb_prop. to_prop.
        apply not_true_iff_false in Hv. apply Hv, visible_due. split; [|apply not_elem_of_empty].
        apply holds_due. split; [done|]. destruct (scheduled_at row) as [z|]; [|done].
        exists z. to_prop. by split.
    + left. destruct l; [done|]. cbn in Heff, Hsize. lia.
Qed.

(** The rows a cycle ran: those whose entries left the queue. *)
Lemma works_stepped E (ran : Job → Job → Prop) t q t' q' :
  table_wf t → works ran t q t' q' →
  (∀ row row', job_wf row → status row = PENDING → ran row row' →
     row_step E row row' ∧ status row' ≠ PENDING) →
  ∃ ids, stepped E ids t t' ∧ ∀ id, pending t' id → pending t id ∧ (is_Some (q !! id) → is_Some (q' !! id)).
Proof using Type.
  intros Hwf [Hsub Hkept Hdone Hnone] Hran.
  set (gone (p : uuid * Job) := is_Some (q !! p.1) ∧ q' !! p.1 = None ∧ status p.2 = PENDING).
  assert (∀ p, Decision (gone p)) by (intros p; unfold gone; apply _).
  assert (∀ i, i ∈ dom (filter gone t) ↔ ∃ row, t !! i = Some row ∧ gone (i, row)) as Hids.
  { intros i. rewrite elem_of_dom. unfold is_Some. by setoid_rewrite map_lookup_filter_Some. }
  assert (∀ i row, t !! i = Some row → ∃ row', t' !! i = Some row' ∧
    (gone (i, row) ∧ row_step E row row' ∧ status row' ≠ PENDING ∨ ¬ gone (i, row) ∧ row' = row)) as Hrow.
  { intros i row Hr. pose proof (wf_claimable row (Hwf i row Hr)) as Hc.
    destruct (decide (is_Some (q !! i) ∧ q' !! i = None)) as [[Hq Hn]|Hno].
    - specialize (Hdone i row Hq Hn Hr). rewrite Hc in Hdone. case_bool_decide as Hp.
      + destruct Hdone as (row' & Hr' & Hra). exists row'. split; [done|]. left.
        split; [done|]. apply Hran; [by eapply Hwf|done|done].
      + exists row. split; [done|]. right. split; [by intros (_ & _ & ?)|done].
    - exists row. rewrite Hkept; [|destruct (q !! i), (q' !! i) eqn:?; naive_solver].
      split; [done|]. right. split; [|done]. intros (? & ? & _). by apply Hno. }
  exists (dom (filter gone t)). split; [split|].
  - apply dom_filter_subseteq.
  - intros i row Hr. destruct (Hrow i row Hr) as (row' & Hr' & [(Hg & Hs & _)|[Hg ->]]);
      eexists; (split; [done|]).
    + rewrite bool_decide_true; [done|]. apply Hids. eauto.
    + rewrite bool_decide_false; [done|]. intros (r0 & Hr0 & Hg0)%Hids. by simplify_eq.
  - done.
  - intros id (row' & Hr' & Hp). destruct (t !! id) as [row|] eqn:Hr; [|by rewrite Hnone in Hr'].
    destruct (Hrow id row Hr) as (r1 & Hr1 & [(_ & _ & ?)|[Hg ->]]); [congruence|].
    assert (row' = row) as -> by congruence. split; [by exists row|].
    intros Hq. destruct (q' !! id) eqn:Hq'; [by eexists|]. by destruct Hg.
Qed.

Lemma poll_done H E wk cycles db r q :
  steady H db r q → tick_ok E (TickPoll wk cycles) →
  ∃ db' r' b q', run_once py_str exn_repr wk cycles (db, r) = (db', r', Ok b) ∧
    tick_done H E (TickPoll wk cycles) db q db' r' q'.
Proof using PostgresLaws0 RedisLaws0.
  intros Hst [Hw Hcy]. pose proof (st_wf _ _ _ _ Hst) as Hwf.
  destruct (calm_passes py_str exn_repr wk cycles MAX_CANDIDATES_PER_CYCLE 0 db r q)
    as (db' & r' & q' & b & Hrun & Hr' & Hn' & Hlt & Hwo).
  - intros k. by destruct (Hcy k) as (? & ? & _).
  - by apply Hst.
  - done.
  - apply wf_ready; [done|]. intros id row Hrow. by destruct (st_rows _ _ _ _ Hst id row Hrow) as (_ & _ & ? & _).
  - exists db', r', b, q'. split; [exact Hrun|].
    destruct (works_stepped E _ _ _ _ _ Hwf Hwo) as (ids & Hstep & Hpend).
    { intros row row' Hwr Hp [k Hran]. destruct (Hcy k) as (_ & _ & Hnow).
      by apply (ran_row_step py_str exn_repr E wk (cycles k)). }
    pose proof (stepped_effort _ _ _ _ Hstep) as Heff.
    pose proof (map_subseteq_size _ _ (wo_sub _ _ _ _ _ Hwo)) as Hsize.
    split.
    + split; [by eapply stepped_rows, st_rows|done| |pose proof (st_room _ _ _ _ Hst); lia].
      intros id [Hp Hq]%Hpend. by apply Hq, (st_indexed _ _ _ _ Hst).
    + intros i row Hrow. by eapply stepped_progresses.
    + unfold energy. destruct (decide (q = ∅)) as [->|Hne].
      * assert (q' = ∅) as -> by (apply map_size_empty_inv; rewrite map_size_empty in Hsize; lia).
        right. split; [|done]. apply map_eq. intros id. apply (wo_kept _ _ _ _ _ Hwo). by right.
      * left. specialize (Hlt ltac:(done) Hne). lia.
Qed.

Lemma tick_done_by H E t db r q :
  steady H db r q → tick_ok E t →
  ∃ db' r' q', run_tick (db, r) t = (db', r') ∧ tick_done H E t db q db' r' q'.
Proof using PostgresLaws0 RedisLaws0.
  intros Hst Hok. destruct t as [now n|now n|wk cycles]; cbn [run_tick fst snd].
  - destruct Hok as [Hn Hnow]. destruct (sweep_done H E now n db r q) as (db' & -> & Hd); [done..|].
    by exists db', r, q.
  - destruct (activation_done H E now n db r q) as (db' & r' & m & q' & -> & Hd); [done..|].
    by exists db', r', q'.
  - destruct (poll_done H E wk cycles db r q) as (db' & r' & b & q' & -> & Hd); [done..|].
    by exists db', r', q'.
Qed.

Lemma steady_mono H H' db r q : H ≤ H' → steady H db r q → steady H' db r q.
Proof using Type.
  intros Hle [Hrows Hq Hp Hroom]. split; [|done..]. intros i row Hrow.
  destruct (Hrows i row Hrow) as (? & ? & ? & Hin). do 3 (split; [done|]). by eapply within_mono, Hin.
Qed.

Lemma run_ticks_done H E ticks db r q :
  steady H db r q → Forall (tick_ok E) ticks →
  ∃ db' r' q', run_ticks (db, r) ticks = (db', r') ∧ steady (H `max` (E + longest_delay)) db' r' q' ∧
    (∀ i row, jobs_table db !! i = Some row →
       ∃ row', jobs_table db' !! i = Some row' ∧ progresses row row') ∧
    ((energy (jobs_table db') q' < energy (jobs_table db) q)%nat ∨
     jobs_table db' = jobs_table db ∧ q' = q ∧ Forall (λ t, idle_at t (jobs_table db) q) ticks).
Proof using PostgresLaws0 RedisLaws0.
  intros Hst Hok. revert H db r q Hst. induction Hok as [|t ticks Ht Hok IH]; intros H db r q Hst.
  { exists db, r, q. split; [done|]. split; [by eapply steady_mono, Hst; lia|]. split; [|by right].
    intros i row Hrow. by exists row. }
  destruct (tick_done_by H E t db r q Hst Ht) as (db1 & r1 & q1 & Hrun1 & [Hst1 Hp1 He1]).
  destruct (IH _ db1 r1 q1 Hst1) as (db2 & r2 & q2 & Hrun2 & Hst2 & Hp2 & He2).
  exists db2, r2, q2. split; [unfold run_ticks in *; cbn; by rewrite Hrun1|].
  split; [by rewrite <-Z.max_assoc, Z.max_id in Hst2|]. split.
  - intros i row Hrow. destruct (Hp1 i row Hrow) as (row1 & Hrow1 & Hpr1).
    destruct (Hp2 i row1 Hrow1) as (row2 & Hrow2 & Hpr2). exists row2. split; [done|by etrans].
  - destruct He1 as [He1|(Ht1 & -> & Hid1)].
    + left. destruct He2 as [?|(-> & -> & _)]; lia.
    + rewrite Ht1 in He2. destruct He2 as [?|(Ht2 & -> & Hid2)]; [by left|right].
      split; [done|]. split; [done|]. by constructor.
Qed.

(** ** Fair runs *)

(** A stretch of a run, up to the time [E]: any turns in any order, among them a sweep
    and an activation late enough to find what the stretch began with, and a poll. *)
Definition epoch (H E : Z) (ticks : list Tick) : Prop :=
  Forall (tick_ok E) ticks ∧
  (∃ now n, TickSweep now n ∈ ticks ∧ H ≤ now) ∧
  (∃ now n, TickActivate now n ∈ ticks ∧ H ≤ now) ∧
  (∃ wk cycles, TickPoll wk cycles ∈ ticks).

(** Epochs one after the other; a job that fails in one waits at most two minutes. *)
Fixpoint fair (H : Z) (run : list (Z * list Tick)) : Prop :=
  match run with
  | [] => True
  | (E, ticks) :: run => epoch H E ticks ∧ fair (H `max` (E + longest_delay)) run
  end.

Definition final (row : Job) : Prop :=
  status row = COMPLETED ∨ status row = FAILED ∨ status row = CANCELLED.

Lemma final_weight row : job_wf row → final row ↔ weight row = 0%nat.
Proof using Type.
  intros Hw. pose proof (wf_max _ Hw) as Hm. pose proof (wf_count _ Hw) as Hc.
  pose proof (wf_runnable _ Hw) as Hr. unfold final, weight, attempts_left.
  split.
  - by intros [-> |[-> | ->]].
  - intros Hz. destruct (status row); auto; try lia;
      (assert (attempt_count row < 3) by (apply Hr; auto); lia).
Qed.

Lemma energy_zero H db r q :
  steady H db r q → energy (jobs_table db) q = 0%nat ↔
    (∀ i row, jobs_table db !! i = Some row → final row) ∧ q = ∅.
Proof using Type.
  intros Hst. pose proof (st_wf _ _ _ _ Hst) as Hwf. unfold energy. split.
  - intros Hz. split; [|apply map_size_empty_inv; lia]. intros i row Hrow.
    apply final_weight; [by eapply Hwf|]. pose proof (effort_take i row _ Hrow). lia.
  - intros [Hall ->]. rewrite map_size_empty.
    assert (effort (jobs_table db) ≤ 0 * base.size (jobs_table db))%nat; [|lia].
    apply effort_bound. intros i row Hrow.
    assert (weight row = 0%nat) as -> by (apply final_weight; [by eapply Hwf|by eapply Hall]). lia.
Qed.

(** When nothing happens in a whole epoch, there is nothing left to do. *)
Lemma idle_epoch_final H E ticks db r q :
  steady H db r q → epoch H E ticks → Forall (λ t, idle_at t (jobs_table db) q) ticks →
  energy (jobs_table db) q = 0%nat.
Proof using Type.
  intros Hst (_ & (t1 & n1 & Hin1 & Ht1) & (t2 & n2 & Hin2 & Ht2) & wk & cycles & Hin3) Hidle.
  rewrite Forall_forall in Hidle. apply Hidle in Hin1, Hin2, Hin3. cbn in Hin1, Hin2, Hin3.
  apply (energy_zero _ _ _ _ Hst). split; [|done]. intros i row Hrow.
  destruct (st_rows _ _ _ _ Hst i row Hrow) as (_ & _ & _ & Hp & Hs).
  specialize (Hin1 i row Hrow). specialize (Hin2 i row Hrow). unfold overdue, due, final in *.
  destruct (status row) eqn:Hstat; auto.
  - destruct (Hs eq_refl) as (z & Hz & Hle). rewrite Hz, bool_decide_true in Hin2 by done.
    cbn in Hin2. to_prop. lia.
  - destruct (st_indexed _ _ _ _ Hst i) as [e He]; [by exists row|]. by rewrite Hin3, lookup_empty in He.
  - destruct (Hp eq_refl) as (d & Hd & Hlt). rewrite bool_decide_true in Hin1 by done. cbn in Hin1.
    assert (expired t1 row = true) as Hex; [|congruence]. apply expired_spec. exists d. split; [done|lia].
Qed.

Lemma fair_run_done H run db r q :
  steady H db r q → fair H run →
  ∃ H' db' r' q', foldl run_ticks (db, r) run.*2 = (db', r') ∧ steady H' db' r' q' ∧
    (∀ i row, jobs_table db !! i = Some row →
       ∃ row', jobs_table db' !! i = Some row' ∧ progresses row row') ∧
    (energy (jobs_table db') q' ≤ energy (jobs_table db) q - length run)%nat.
Proof using PostgresLaws0 RedisLaws0.
  revert H db r q. induction run as [|[E ticks] run IH]; intros H db r q Hst Hfair.
  { exists H, db, r, q. split; [done|]. split; [done|]. split; [|cbn; lia].
    intros i row Hrow. by exists row. }
  destruct Hfair as [Hep Hfair].
  destruct (run_ticks_done H E ticks db r q Hst (proj1 Hep))
    as (db1 & r1 & q1 & Hrun1 & Hst1 & Hp1 & He1).
  destruct (IH _ db1 r1 q1 Hst1 Hfair) as (H' & db2 & r2 & q2 & Hrun2 & Hst2 & Hp2 & He2).
  exists H', db2, r2, q2. split; [cbn; by rewrite Hrun1|]. split; [done|]. split.
  - intros i row Hrow. destruct (Hp1 i row Hrow) as (row1 & Hrow1 & Hpr1).
    destruct (Hp2 i row1 Hrow1) as (row2 & Hrow2 & Hpr2). exists row2. split; [done|by etrans].
  - cbn [length]. destruct He1 as [?|(Ht & -> & Hid)]; [lia|].
    rewrite Ht, (idle_epoch_final _ _ _ _ _ _ Hst Hep Hid) in He2. lia.
Qed.

Lemma weight_bound row : job_wf row → (weight row ≤ 9)%nat.
Proof using Type.
  intros Hw. pose proof (wf_max _ Hw) as Hm. pose proof (wf_count _ Hw) as Hc.
  pose proof (wf_owned _ Hw) as Ho. unfold weight, attempts_left. destruct (status row); try lia.
  destruct (Ho eq_refl) as (_ & _ & _ & _ & ?). lia.
Qed.

Abbreviation DBof V := (sys_db (fl_sys (lv_fleet V))).
Abbreviation Rof V := (sys_redis (fl_sys (lv_fleet V))).

(** A service that has come to rest with nothing lost. *)
Lemma quiet_steady H V :
  live_reachable py_str exn_repr V →
  (∀ id, ¬ coming (fl_procs (lv_fleet V)) (lv_requests V) id) → lv_lost V = ∅ →
  (∀ id row, jobs_table (DBof V) !! id = Some row → countable (payload row) ∧ within H row) →
  counter (Rof V) SEQUENCE_KEY + 9 * Z.of_nat (base.size (jobs_table (DBof V))) < SEQ_BOUND →
  ∃ q, steady H (DBof V) (Rof V) q ∧
    (energy (jobs_table (DBof V)) q ≤
     18 * base.size (jobs_table (DBof V)) + Z.to_nat (ReadyQueue.size (Rof V)))%nat.
Proof using PostgresLaws0 RedisLaws0.
  intros HV Hquiet Hlost Hrows Hroom. destruct (live_reachable_ok _ _ V HV) as [Hfl Hok].
  pose proof (reachable_wf _ (fleet_reachable_service _ _ _ Hfl)) as Hwf.
  destruct V as [[s ps] qs lost]. cbn in *. subst lost.
  destruct (lo_index _ Hok) as (q & Hr & _ & _ & Hv). rewrite (size_spec _ q Hr), Nat2Z.id.
  assert (effort (jobs_table (sys_db s)) ≤ 9 * base.size (jobs_table (sys_db s)))%nat as Heff.
  { apply effort_bound. intros i row Hrow. by eapply weight_bound, Hwf. }
  exists q. split; [|unfold energy; lia]. split; [|done| |lia].
  - intros i row Hrow. destruct (Hrows i row Hrow). split; [apply (lo_ids _ Hok); by eexists|].
    split; [by eapply Hwf|done].
  - intros id Hp. destruct (Hv id Hp) as [?|[?|?]]; [done|by destruct (Hquiet id)|done].
Qed.

(** C9: Every job ends.  After any history of API calls, workers, faults and crashes, once
    nobody is about to publish and no publication was lost: let workers run their
    three loops in any order, with batches of any size, in any fair run of enough
    epochs (eighteen for each job and one for each entry of the queue).  Then the
    queue is empty and every job is COMPLETED, FAILED after three attempts, or still
    CANCELLED: crashed attempts are recovered, retries run out, no backlog starves a
    job, and what had ended before is left as it was. *)
Theorem every_job_ends V H run
    (HV : live_reachable py_str exn_repr V)
    (Hquiet : ∀ id, ¬ coming (fl_procs (lv_fleet V)) (lv_requests V) id) (Hlost : lv_lost V = ∅)
    (Hrows : ∀ id row, jobs_table (DBof V) !! id = Some row → countable (payload row) ∧ within H row)
    (Hroom : counter (Rof V) SEQUENCE_KEY + 9 * Z.of_nat (base.size (jobs_table (DBof V))) < SEQ_BOUND)
    (Hfair : fair H run)
    (Hlen : (18 * base.size (jobs_table (DBof V)) + Z.to_nat (ReadyQueue.size (Rof V))
              ≤ length run)%nat) :
  ∃ db' r', foldl run_ticks (DBof V, Rof V) run.*2 = (db', r') ∧ peek r' = Ok None ∧
    ∀ id row, jobs_table (DBof V) !! id = Some row →
      ∃ row', jobs_table db' !! id = Some row' ∧ final row' ∧ job_wf row' ∧
        same_submission row row' ∧ (final row → row' = row) ∧
        (status row' = CANCELLED → status row = CANCELLED).
Proof using PostgresLaws0 RedisLaws0.
  destruct (quiet_steady H V) as (q & Hst & He); [done..|].
  destruct (fair_run_done H run _ _ q Hst Hfair) as (H' & db' & r' & q' & Hrun & Hst' & Hp & He').
  exists db', r'. split; [done|].
  destruct (proj1 (energy_zero _ _ _ _ Hst') ltac:(lia)) as [Hfin ->]. split.
  { destruct (peek_spec r' ∅ (st_queue _ _ _ _ Hst')) as [[_ ?]|(i & p & sq & Hq & _)]; [done|].
    by rewrite lookup_empty in Hq. }
  intros id row Hrow. destruct (Hp id row Hrow) as (row' & Hrow' & Hpr). exists row'.
  split; [done|]. split; [by eapply Hfin|]. split; [by eapply st_wf|].
  destruct Hpr as [->|(Hw & Hs & Hsame)]; [by repeat split|].
  split; [done|]. split; [|done].
  intros Hf. pose proof (proj1 (final_weight row (st_wf _ _ _ _ Hst id row Hrow)) Hf). lia.
Qed.
End completion.

(** ** Witness: the submitted job, run by fair turns *)

(** Epochs back to back, each with one turn of every loop, one row at a time. *)
Fixpoint demo_run (H : Z) (n : nat) : list (Z * list (Tick (DB := MemDB) (R := MemRedis))) :=
  match n with
  | O => []
  | S n => (H, [TickPoll demo_worker (λ _, demo_cycle no_fault false); TickSweep H 1; TickActivate H 1])
             :: demo_run (H `max` (H + longest_delay)) n
  end.

Lemma demo_run_fair H n : cy_settle_now (demo_cycle no_fault false) ≤ H → fair H (demo_run H n).
Proof.
  revert H. induction n as [|n IH]; intros H Hle; [done|]. split; [|apply IH; lia].
  split; [|split; [|split]].
  - repeat constructor; try done; try lia; apply demo_calm.
  - exists H, 1%nat. split; [|lia]. apply list_elem_of_In. cbn. auto.
  - exists H, 1%nat. split; [|lia]. apply list_elem_of_In. cbn. auto.
  - eexists _, _. apply list_elem_of_In. cbn. auto.
Qed.

Lemma demo_run_length H n : length (demo_run H n) = n.
Proof. revert H. induction n as [|n IH]; intros H; [done|]. cbn. by rewrite IH. Qed.

Lemma every_job_ends_witness :
  ∃ db' r' row', foldl (run_ticks no_text no_text)
      (sys_db (fl_sys (lv_fleet (live_submitted no_fault))),
       sys_redis (fl_sys (lv_fleet (live_submitted no_fault)))) (demo_run 30000000 19).*2 = (db', r') ∧
    peek r' = Ok None ∧ jobs_table db' !! 11 = Some row' ∧ final row'.
Proof.
  destruct (every_job_ends no_text no_text (live_submitted no_fault) 30000000 (demo_run 30000000 19)
    (live_submitted_reachable no_fault) (submitted_quiet no_fault))
    as (db' & r' & Hrun & Hpk & Hall).
  - exact submitted_lost.
  - intros id row. rewrite submitted_row. intros [_ <-]%lookup_singleton_Some.
    rewrite submitted_payload. split; [done|]. split; by rewrite submitted_pending.
  - vm_compute. done.
  - apply demo_run_fair. vm_compute. done.
  - rewrite demo_run_length, submitted_row, map_size_singleton.
    assert (ReadyQueue.size (sys_redis (fl_sys (lv_fleet (live_submitted no_fault)))) = 1) as ->
      by (vm_compute; reflexivity). cbn. lia.
  - destruct (Hall 11 (live_job (live_submitted no_fault))) as (row' & Hrow' & Hf & _).
    { rewrite submitted_row. apply lookup_singleton_eq. }
    exists db', r', row'. split; [exact Hrun|]. split; [exact Hpk|]. split; [exact Hrow'|exact Hf].
Defined.
