(* ===== verification/Fairness.v ===== *)
(** * Fairness: every fair run of the processes ends every job

    The worker processes of [Fleet], await by await, under any schedule that lets each
    coroutine go on again and again: no turns, no epochs and no order of the loops as in
    [Completion].  A run is the sequence of states a schedule leads through; what is
    left to do is a number, [potential], that no step of a calm run increases, and from
    every state in which it is not zero a fair run comes to one where it is smaller. *)

From S2P Require Import Prelude.
From S2P Require Import Text.
From S2P Require Import Errors.
From S2P Require Import Model.
From S2P Require Import Postgres.
From S2P Require Import MemDB.
From S2P Require Import Session.
From S2P Require Import RetryPolicy.
From S2P Require Import Config.
From S2P Require Import Ownership.
From S2P Require Import Redis.
From S2P Require Import ReadyQueue.
From S2P Require Import Schemas.
From S2P Require Import Submission.
From S2P Require Import Mutations.
From S2P Require Import Fencing.
From S2P Require Import Recovery.
From S2P Require Import Lifecycle.
From S2P Require Import Handlers.
From S2P Require Import Heartbeat.
From S2P Require Import Runner.
From S2P Require Import Process.
From S2P Require Import Fleet.
From S2P Require Import Requests.
From S2P Require Import Visibility.
From S2P Require Import Completion.
From Stdlib Require Import QArith.

Local Open Scope Z_scope.

(** ** Schedules and their runs *)

(** Whose coroutine goes on, and what it gets. *)
Record Turn := mk_turn { tn_process : nat; tn_actor : Actor; tn_answer : Answer }.

(** The coroutines that a run keeps going; losing an attempt, a timeout and the exit may
    come about as well. *)
Definition is_coroutine (actor : Actor) : bool :=
  match actor with A_runner | A_heart | A_scheduler | A_recovery => true | _ => false end.

Section runs.
Context {DB : Type} `{!Postgres DB} {R : Type} `{!Redis R}.
Context (py_str : JSON → string) (exn_repr : exn → string).

Abbreviation pstep := (process_step py_str exn_repr).

(** A coroutine that is blocked, or not there, leaves things as they are. *)
Definition take_turn (t : Turn) (F : Fleet DB R) : Fleet DB R :=
  match fl_procs F !! tn_process t with
  | None => F
  | Some p =>
      match pstep (tn_actor t) (tn_answer t) p (sys_db (fl_sys F)) (sys_redis (fl_sys F)) with
      | None => F
      | Some (p', db', r') =>
          mk_fleet (mk_sys db' r' (mints (tn_actor t) (tn_answer t) p ∪ minted (fl_sys F)))
            (<[tn_process t := p']> (fl_procs F))
      end
  end.

Fixpoint state (sched : nat → Turn) (F : Fleet DB R) (n : nat) : Fleet DB R :=
  match n with O => F | S n => take_turn (sched n) (state sched F n) end.

(** A calm and fair schedule: calls succeed and find no row locked, tokens never
    repeat, the database's clock goes on, and every coroutine gets its turn again and
    again.  A turn of a blocked coroutine counts, so this asks no more than that no
    coroutine waits for ever once it can go on. *)
Record fair_schedule (sched : nat → Turn) (F : Fleet DB R) : Prop := {
  fs_calm n : an_fault (tn_answer (sched n)) = no_fault ∧ an_locked (tn_answer (sched n)) = ∅;
  fs_fresh n : an_token (tn_answer (sched n)) ∉ minted (fl_sys F);
  fs_tokens m n : an_token (tn_answer (sched m)) = an_token (tn_answer (sched n)) → m = n;
  fs_clock t : ∃ n, ∀ m, (n ≤ m)%nat → t ≤ an_now (tn_answer (sched m));
  fs_fair i actor n : is_Some (fl_procs F !! i) → is_coroutine actor = true →
    ∃ m, (n ≤ m)%nat ∧ tn_process (sched m) = i ∧ tn_actor (sched m) = actor
}.
End runs.

(** ** What a step does to the rows *)

(** A job that moves on: nearer its end, and not by its submitter. *)
Definition row_moves (r r' : Job) : Prop :=
  (weight r' < weight r)%nat ∧ status r' ≠ CANCELLED ∧ same_submission r r'.

(** A beat or a report. *)
Definition beaten (r r' : Job) : Prop :=
  r' = apply_values [SetProgress (progress r'); SetLeaseExpiresAt (lease_expires_at r')] r.

(** [P] are the rows whose lease and progress may change. *)
Definition row_effect (P : Job → Prop) (r r' : Job) : Prop :=
  r' = r ∨ row_moves r r' ∨ (P r ∧ beaten r r').

Record table_effect (P : Job → Prop) (t t' : table) : Prop := {
  tf_row i r : t !! i = Some r → ∃ r', t' !! i = Some r' ∧ row_effect P r r';
  tf_none i : t !! i = None → t' !! i = None
}.

(** No job moved. *)
Record quiet_table (P : Job → Prop) (t t' : table) : Prop := {
  qt_row i r : t !! i = Some r → ∃ r', t' !! i = Some r' ∧ (r' = r ∨ (P r ∧ beaten r r'));
  qt_none i : t !! i = None → t' !! i = None
}.

Lemma beaten_same r r' :
  beaten r r' → status r' = status r ∧ attempt_count r' = attempt_count r ∧
    max_attempts r' = max_attempts r ∧ execution_token r' = execution_token r ∧
    scheduled_at r' = scheduled_at r ∧ same_submission r r'.
Proof. intros ->. done. Qed.

Lemma beaten_weight r r' : beaten r r' → weight r' = weight r.
Proof.
  intros (Hs & Hc & Hm & _)%beaten_same. unfold weight, attempts_left. by rewrite Hs, Hc, Hm.
Qed.

(** Every way a job can move but those of its submitter. *)
Lemma evolves_moves fresh r r' :
  job_wf r → evolves fresh r r' → status r' ≠ status r → status r ≠ FAILED →
  status r' ≠ CANCELLED → row_moves r r'.
Proof.
  intros Hw [_ Hm Hsame _ _] Hne Hf Hc. split; [|by split].
  pose proof (wf_max _ Hw) as H3. pose proof (wf_runnable _ Hw) as Hr.
  assert (max_attempts r' = max_attempts r) as H3'.
  { by destruct Hsame as (_ & _ & _ & _ & -> & _). }
  unfold weight, attempts_left. rewrite H3', H3. unfold phase in Hm.
  inversion Hm; try congruence;
    repeat match goal with H : _ = status _ |- _ => rewrite <-H in * end; try lia.
  assert (attempt_count r < 3) by (apply Hr; auto). lia.
Qed.

Lemma effect_refl P t : table_effect P t t.
Proof. split; [|done]. intros i r Hr. exists r. split; [done|by left]. Qed.

Lemma cas_effect P i p f t :
  table_wf t → (∀ r, job_wf r → p r = true → row_effect P r (f r)) →
    table_effect P t (cas i p f t).1.
Proof.
  intros Hw Hf. unfold cas. destruct (t !! i) as [r|] eqn:Hr; [|apply effect_refl].
  destruct (p r) eqn:Hp; [|apply effect_refl]. cbn. split; intros j.
  - intros r0 Hj. rewrite lookup_insert. case_decide; [subst; simplify_eq|by exists r0; split;
      [|left]].
    eexists. split; [done|]. apply Hf; [by eapply Hw|done].
  - rewrite lookup_insert. case_decide; congruence.
Qed.

Lemma map_rows_effect P f ids t :
  (∀ i r, t !! i = Some r → i ∈ ids → row_effect P r (f r)) → table_effect P t (map_rows f ids t).
Proof.
  intros Hf. split; intros i.
  - intros r Hr. rewrite lookup_map_rows, Hr. eexists. split; [done|].
    case_bool_decide; [eauto|by left].
  - intros Hr. by rewrite lookup_map_rows, Hr.
Qed.

(** Either the jobs' work got less, or no job moved. *)
Lemma effect_effort P t t' :
  table_effect P t t' → (effort t' < effort t)%nat ∨ (effort t' = effort t ∧ quiet_table P t t').
Proof.
  intros [Hrow Hnone].
  set (lighter (x : uuid * Job) := ∃ r', t' !! x.1 = Some r' ∧ (weight r' < weight x.2)%nat).
  assert (∀ x, Decision (lighter x)) as Hdec.
  { intros [i r]. unfold lighter. cbn. destruct (t' !! i) as [r'|]; [|right; naive_solver].
    destruct (decide (weight r' < weight r)%nat); [left|right]; naive_solver. }
  assert (∀ i r r', row_effect P r r' → t' !! i = Some r' →
    (weight r' < weight r)%nat ∨ (weight r' = weight r ∧ (r' = r ∨ (P r ∧ beaten r r')))) as Hw.
  { intros i r r' [->|[[? _]|[HP Hb]]] _; [by right; split; [|left]|by left|right].
    split; [by apply beaten_weight|by right]. }
  set (ids := dom (filter lighter t)).
  assert (effort t' + base.size ids ≤ effort t)%nat as Hdrop.
  { apply effort_drops; [|done|apply dom_filter_subseteq]. intros i r Hr.
    destruct (Hrow i r Hr) as (r' & Hr' & He). exists r'. split; [done|].
    case_bool_decide as Hi.
    - apply elem_of_dom in Hi as [x Hx]. apply map_lookup_filter_Some in Hx
        as [Hx (r1 & Hr1 & Hlt)].
      cbn in Hr1, Hlt. simplify_eq. lia.
    - destruct (Hw i r r' He Hr') as [?|[? _]]; lia. }
  destruct (decide (ids = ∅)) as [He|He].
  2:{ left. assert (base.size ids ≠ 0%nat) by (intros ?%size_empty_inv; set_solver). lia. }
  assert (∀ i r, t !! i = Some r → ∃ r', t' !! i = Some r' ∧ weight r' = weight r ∧
    (r' = r ∨ (P r ∧ beaten r r'))) as Hq.
  { intros i r Hr. destruct (Hrow i r Hr) as (r' & Hr' & Heff). exists r'. split; [done|].
    destruct (Hw i r r' Heff Hr') as [Hlt|?]; [|done]. exfalso.
    assert (i ∈ ids) as Hi; [|rewrite He in Hi; by apply not_elem_of_empty in Hi].
    apply elem_of_dom. exists r. apply map_lookup_filter_Some. split; [done|]. by exists r'. }
  assert (quiet_table P t t') as Hqt.
  { split; [|done]. intros i r Hr. destruct (Hq i r Hr) as (r' & ? & _ & ?). eauto. }
  destruct (decide (effort t' = effort t)) as [Heq|Hne]; [by right|left]. lia.
Qed.

Lemma effect_mono (P Q : Job → Prop) t t' :
  (∀ r, P r → Q r) → table_effect P t t' → table_effect Q t t'.
Proof.
  intros HPQ [Hrow Hnone]. split; [|done]. intros i r Hr.
  destruct (Hrow i r Hr) as (r' & Hr' & [?|[?|[? ?]]]); exists r'; (split; [done|]);
    [by left|by right; left|right; right; auto].
Qed.

Section steps.
Context {DB : Type} `{!Postgres DB, !PostgresLaws DB} {R : Type} `{!Redis R, !RedisLaws R}.
Context (py_str : JSON → string) (exn_repr : exn → string).
Implicit Types (db : DB) (s : Sys DB R) (p : Process) (F : Fleet DB R).

Abbreviation pstep := (process_step py_str exn_repr).
Abbreviation T s := (jobs_table (sys_db s)).

Lemma owner_effect dl now a c db :
  table_wf (jobs_table db) →
  table_effect (λ r, owns a r = true) (jobs_table db) (jobs_table (owner_call dl now a c db).1).
Proof using PostgresLaws0.
  intros Hw. destruct (decide (delay_known a c)) as [Hd|Hd].
  2:{ destruct (owner_call_no_delay dl now a c db Hd) as [res ->]. apply effect_refl. }
  destruct (owner_call_cas dl now a c db Hd) as (db' & -> & Ht). cbn [fst]. rewrite Ht.
  apply cas_effect; [done|]. intros r Hwr Hp. pose proof (call_fence_owns _ _ _ _ Hp) as Ho.
  pose proof Ho as (Hs & _)%owns_spec. destruct c as [ls|pct|res|e].
  - right. right. split; [done|]. by destruct r.
  - right. right. split; [done|]. by destruct r.
  - right. left. eapply evolves_moves; [done|by apply evolves_complete|..]; by rewrite ?Hs.
  - right. left. eapply evolves_moves; [done|by eapply evolves_fail| |by rewrite Hs|];
      cbn; unfold failed_values; case_match; by rewrite ?Hs.
Qed.

Lemma claim_effect dl now tok id w ls db :
  varchar_ok 128 w = true → table_wf (jobs_table db) →
  table_effect (λ _, False) (jobs_table db)
    (jobs_table (run_session (claim_job dl now tok id w ls) db).1).
Proof using PostgresLaws0.
  intros Hv Hw. destruct (claim_job_cas dl now tok id w ls db Hv) as (db' & -> & Ht). cbn [fst].
  rewrite Ht. apply cas_effect; [done|]. intros r Hwr Hc. right. left.
  assert (status r = PENDING) as Hs by (unfold claimable in Hc; by to_prop).
  eapply evolves_moves; [done|by apply evolves_claim|..]; by rewrite ?Hs.
Qed.

Lemma activate_effect now locked n db :
  table_wf (jobs_table db) →
  table_effect (λ _, False) (jobs_table db)
    (jobs_table (run_session (activate_due_scheduled_jobs now locked n) db).1).
Proof using PostgresLaws0.
  intros Hw. destruct (activate_spec now locked n db) as (db1 & rs & -> & _ & Ht). cbn [fst].
  rewrite Ht. apply map_rows_effect. intros i r Hr (r' & -> & Hr')%list_elem_of_fmap.
  destruct (pg_select_facts locked (due_query now n) db _ _) as (_ & Hin & _).
  destruct (Hin r' Hr') as [Hlk [[Hs _]%holds_due _]%visible_due]. simplify_eq. right. left.
  eapply evolves_moves; [by eapply Hw|apply evolves_activate; [by eapply Hw|done]|..];
    by rewrite ?Hs.
Qed.

Lemma recover_effect now locked n db :
  table_wf (jobs_table db) →
  table_effect (λ _, False) (jobs_table db)
    (jobs_table (run_session (recover_expired_leases now locked n) db).1).
Proof using PostgresLaws0.
  intros Hw. destruct (recover_expired_leases_spec now locked n db) as (db1 & -> & Ht).
  { intros i r Hr Hs _. by eapply wf_sweepable. }
  cbn [fst]. rewrite Ht. apply map_rows_effect. intros i r Hr (r' & -> & Hr')%list_elem_of_fmap.
  destruct (pg_select_facts locked (expired_query now n) db _ _) as (_ & Hin & _).
  destruct (Hin r' Hr') as [Hlk (Hs & _ & _)%visible_expired]. simplify_eq. right. left.
  eapply evolves_moves; [by eapply Hw|apply evolves_settled; [by eapply Hw|done]| |by rewrite Hs|];
    unfold settled, failed_values; case_match; by rewrite ?Hs.
Qed.

(** The rows of the attempts a process executes. *)
Definition touches p (r : Job) : Prop := ∃ a, held_by p a ∧ owns a r = true.

Lemma process_effect s p actor an p' db' r' :
  table_wf (T s) → varchar_ok 128 (wk_id (pr_wk p)) = true →
  pstep actor an p (sys_db s) (sys_redis s) = Some (p', db', r') →
  table_effect (touches p) (T s) (jobs_table db').
Proof using PostgresLaws0.
  intros Hw Hid Hstep. destruct (process_step_effect _ _ _ _ _ _ _ _ _ Hstep) as [| |actor a dl c
    Ha| |].
  - apply effect_refl.
  - eapply effect_mono, claim_effect; done.
  - eapply effect_mono, owner_effect; [|done]. intros r Hr. by exists a.
  - eapply effect_mono, activate_effect; done.
  - eapply effect_mono, recover_effect; done.
Qed.

(** Activation works each job it publishes off by one. *)
Lemma activation_effort now n db :
  table_wf (jobs_table db) →
  ∃ db' ms, run_session (activate_due_scheduled_jobs now ∅ n) db = (db', Ok ms) ∧
    (effort (jobs_table db') + length ms ≤ effort (jobs_table db))%nat ∧
    (n ≠ 0%nat → ms = [] → ∀ i r, jobs_table db !! i = Some r → status r = SCHEDULED →
       ∀ z, scheduled_at r = Some z → now < z).
Proof using PostgresLaws0.
  intros Hwf. destruct (activate_spec now ∅ n db) as (db' & ms & Hrun & Hms & Ht).
  destruct (pg_select_facts ∅ (due_query now n) db _ _) as (Hnd & Hin & _).
  set (l := pg_select ∅ (due_query now n) db) in *. exists db', ms. split; [done|]. split.
  - assert (stepped 0 (list_to_set (job_id <$> l)) (jobs_table db) (jobs_table db')) as Hstep.
    { rewrite Ht. apply map_rows_stepped. intros i (row & -> & Hrow)%list_elem_of_fmap.
      destruct (Hin row Hrow) as [Hlk [[Hs _]%holds_due _]%visible_due]. exists row. split; [done|].
      apply activated_row_step; [by eapply Hwf|done]. }
    apply stepped_effort in Hstep. rewrite size_list_to_set, length_fmap in Hstep by done.
    by rewrite Hms, length_fmap.
  - intros Hn -> i r Hr Hs z Hz. assert (l = []) as Hl by (by destruct l;
      [|apply Permutation_nil_l in Hms]).
    pose proof (batch_empty (due_query now n) n db _ _ eq_refl eq_refl Hn Hl i r Hr) as Hv.
    apply not_true_iff_false in Hv. apply Z.nle_gt. intros Hle. apply Hv, visible_due.
    split; [|apply not_elem_of_empty]. apply holds_due. split; [done|]. by exists z.
Qed.

(** ** What a step does to the queue *)

Definition publications (p : Process) : nat := length (scheduler_publishes (pr_scheduler p)).
Definition backlog (ps : gmap nat Process) : nat :=
  map_fold (λ _ p n, (publications p + n)%nat) 0%nat ps.

Lemma backlog_new ps i p :
  ps !! i = None → backlog (<[i := p]> ps) = (publications p + backlog ps)%nat.
Proof using Type. intros Hi. unfold backlog. rewrite map_fold_insert_L by (done || lia). done. Qed.

Lemma backlog_take ps i p :
  ps !! i = Some p → backlog ps = (publications p + backlog (delete i ps))%nat.
Proof using Type.
  intros Hi. rewrite <-(backlog_new _ i) by apply lookup_delete_eq. by rewrite insert_delete_id.
Qed.

Lemma backlog_insert ps i p p' :
  ps !! i = Some p → (backlog (<[i := p']> ps) + publications p = backlog ps + publications p')%nat.
Proof using Type.
  intros Hi. rewrite (backlog_take ps i p Hi), <-(insert_delete_eq ps i p'),
    backlog_new by apply lookup_delete_eq.
  lia.
Qed.

(** How a calm step moves work between the rows, the publications and the queue. *)
Inductive work_moves (t t' : table) (q q' : aqueue) (pub pub' : nat) : Prop :=
  | work_stays : q' = q → pub' = pub → work_moves t t' q q' pub pub'
  | work_dropped : (base.size q' < base.size q)%nat → pub' = pub → work_moves t t' q q' pub pub'
  | work_published : t' = t → pub = S pub' → (base.size q' ≤ S (base.size q))%nat →
      work_moves t t' q q' pub pub'
  | work_activated : q' = q → pub = 0%nat → (effort t' + pub' ≤ effort t)%nat →
      work_moves t t' q q' pub pub'.

Lemma step_work s ps qs i p actor an p' db' r' q :
  live_ok (mk_live (mk_fleet s ps) qs ∅) → table_wf (T s) →
  varchar_ok 128 (wk_id (pr_wk p)) = true → ps !! i = Some p → has_room s →
  an_fault an = no_fault → an_locked an = ∅ → represents (sys_redis s) q →
  pstep actor an p (sys_db s) (sys_redis s) = Some (p', db', r') →
  ∃ q', represents r' q' ∧
    work_moves (T s) (jobs_table db') q q' (publications p) (publications p') ∧
    counter r' SEQUENCE_KEY = counter (sys_redis s) SEQUENCE_KEY +
      (if decide (actor = A_scheduler) then Z.of_nat (publications p - publications p') else 0).
Proof using PostgresLaws0 RedisLaws0.
  intros Hok Hwf Hw Hi Hroom Hf Hl Hq Hstep. unfold publications.
  destruct (decide (actor = A_scheduler)) as [->|Hns].
  - cbn in Hstep. destruct (pr_scheduler p) as [|job rest| |] eqn:Hpc; cbn in Hstep;
      rewrite ?Hf, ?Hl in Hstep.
    + cbn in Hstep. destruct (activation_effort (an_now an) (pr_activation_batch p) (sys_db s) Hwf)
        as (d & ms & Hrun & Heff & _). rewrite Hrun in Hstep. simplify_eq. exists q. cbn.
      rewrite next_enqueue_publishes, length_fmap. split; [done|].
      split; [by apply work_activated|lia].
    + cbn in Hstep. assert (uuid_ok (job_id job)) as Hid.
      { apply (lo_coming _ Hok). left. exists i, p. split; [done|]. rewrite Hpc. by left. }
      destruct (enqueue_spec (sys_redis s) q (job_id job) (priority job) Hq Hid Hroom)
        as (r1 & Hen & Hr1 & Hc). rewrite Hen in Hstep. simplify_eq. eexists. split; [exact Hr1|].
      cbn [pr_scheduler set_scheduler]. rewrite next_enqueue_publishes, Hc.
      cbn [scheduler_publishes].
      rewrite !length_fmap. cbn [length]. split; [|lia].
      apply work_published; [done|done|]. unfold a_enqueue. rewrite map_size_insert.
      case_match; cbn; lia.
    + simplify_eq. exists q. cbn. split; [done|].
      split; [|by case_match; cbn; lia]. apply work_stays; [done|]. by case_match.
    + done.
  - destruct (process_reads py_str exn_repr s actor an p p' db' r' Hwf Hw Hns Hstep) as [[Hr _ _]
      ->].
    destruct Hr as [->|((c & Hc & ->) & _ & _)].
    + exists q. split; [done|]. split; [by apply work_stays|lia].
    + destruct (lo_index _ Hok) as (q1 & _ & Hseen & _).
      destruct (Hseen c) as (Hid & Hm & Hb & Hlt).
      { left. exists i, p. split; [done|]. by apply dropped_seen. }
      destruct c as [id m sq]. cbn in *. subst m.
      destruct (remove_spec (sys_redis s) q id sq Hq Hid ltac:(lia)) as (r1 & -> & Hr1 & Hn).
      cbn [fst]. eexists. split; [exact Hr1|]. split; [|by rewrite Hn, Z.add_0_r].
      unfold a_remove. destruct (q !! id) as [[pr sq']|] eqn:Hqi; [|by apply work_stays].
      case_decide; [|by apply work_stays]. apply work_dropped; [|done].
      rewrite map_size_delete_Some by (by eexists).
      assert (base.size q ≠ 0%nat) by (intros ?%map_size_empty_inv; subst q;
        by rewrite lookup_empty in Hqi). lia.
Qed.

(** ** What is left to do *)

Definition potential F : nat :=
  3 * effort (T (fl_sys F)) + 2 * backlog (fl_procs F) +
  Z.to_nat (ReadyQueue.size (sys_redis (fl_sys F))).

(** The service, with the requests [qs] that are under way and never go on: nothing was
    lost, and there are numbers for every enqueue to come. *)
Record on_course (qs : gmap nat (RequestPc DB)) F : Prop := {
  oc_live : live_reachable py_str exn_repr (mk_live F qs ∅);
  oc_room : counter (sys_redis (fl_sys F)) SEQUENCE_KEY + 1 +
    Z.of_nat (effort (T (fl_sys F)) + backlog (fl_procs F)) < SEQ_BOUND
}.

(** A turn that moves no job, publishes nothing and takes nothing off the queue. *)
Record quiet_turn (t : Turn) F F' : Prop := {
  qn_table : quiet_table (λ r, ∃ p, fl_procs F !! tn_process t = Some p ∧ touches p r)
    (T (fl_sys F)) (T (fl_sys F'));
  qn_queue q : represents (sys_redis (fl_sys F)) q → represents (sys_redis (fl_sys F')) q;
  qn_backlog : backlog (fl_procs F') = backlog (fl_procs F);
  qn_potential : (potential F' ≤ potential F)%nat
}.

Lemma quiet_refl t F : quiet_turn t F F.
Proof using Type.
  split; [|done..]. split; [|done]. intros i r Hr. exists r. split; [done|by left].
Qed.

Lemma nothing_lost actor an p (t t' : table) :
  an_fault an = no_fault → process_lost actor (an_fault an) p t t' ∅ = ∅.
Proof using PostgresLaws0 RedisLaws0.
  intros ->. unfold process_lost. destruct actor; try done. destruct (pr_scheduler p); try done.
  cbn. set_solver.
Qed.

(** What an invariant state has. *)
Lemma on_course_ok qs F :
  on_course qs F →
  fleet_ok F ∧ live_ok (mk_live F qs ∅) ∧ table_wf (T (fl_sys F)) ∧ has_room (fl_sys F) ∧
  ∃ q, represents (sys_redis (fl_sys F)) q ∧ ReadyQueue.size (sys_redis (fl_sys F)) = Z.of_nat
    (base.size q).
Proof using PostgresLaws0 RedisLaws0.
  intros [Hlive Hroom]. destruct (live_reachable_ok _ _ _ Hlive) as [Hfl Hok].
  split; [by eapply fleet_reachable_ok|]. split; [done|].
  split; [by eapply reachable_wf, fleet_reachable_service|]. split; [unfold has_room; lia|].
  destruct F as [s ps]. destruct (lo_index _ Hok) as (q & Hq & _). exists q.
  split; [done|]. by apply size_spec.
Qed.

Lemma turn_spec qs t F :
  on_course qs F → an_fault (tn_answer t) = no_fault → an_locked (tn_answer t) = ∅ →
  an_token (tn_answer t) ∉ minted (fl_sys F) →
  let F' := take_turn py_str exn_repr t F in
  on_course qs F' ∧ ((potential F' < potential F)%nat ∨ quiet_turn t F F').
Proof using PostgresLaws0 RedisLaws0.
  intros Hoc Hf Hl Hfresh F'. destruct (on_course_ok qs F Hoc)
    as (Hfl & Hok & Hwf & Hroom & q & Hq & Hsize).
  unfold F', take_turn. destruct F as [s ps]. cbn [fl_sys fl_procs] in *.
  destruct (ps !! tn_process t) as [p|] eqn:Hp; [|split; [done|right; apply quiet_refl]].
  destruct (pstep _ _ _ _ _) as [[[p' db'] r']|] eqn:Hstep; [|split; [done|right;
    apply quiet_refl]].
  destruct (fo_process _ Hfl _ _ Hp) as [_ Hw].
  pose proof (process_effect s p _ _ p' db' r' Hwf Hw Hstep) as Heff.
  assert (mints (tn_actor t) (tn_answer t) p ## minted s) as Hdis.
  { unfold mints. rewrite Hf. destruct (tn_actor t); try set_solver.
    destruct (pr_runner p); set_solver. }
  pose proof (λ q0 Hq0, step_work s ps qs (tn_process t) p _ _ p' db' r' q0 Hok Hwf Hw Hp Hroom Hf
    Hl Hq0 Hstep)
    as Hwork.
  destruct (Hwork q Hq) as (q' & Hq' & Hm & Hc).
  pose proof (backlog_insert ps _ p p' Hp) as Hb. pose proof (size_spec _ _ Hq') as Hsize'.
  assert (effort (jobs_table db') ≤ effort (T s))%nat as Hle.
  { destruct (effect_effort _ _ _ Heff) as [?|[? _]]; lia. }
  destruct Hoc as [Hlive Hr]. cbn [fl_sys fl_procs] in Hr. split.
  - split.
    + destruct Hlive as (V0 & H0 & Hs). exists V0. split; [done|]. eapply rtc_r; [exact Hs|].
      pose proof (live_process py_str exn_repr s ps qs ∅ (tn_process t) p (tn_actor t) (tn_answer t)
        p' db' r' Hp Hdis Hroom Hstep) as Hlp.
      by rewrite nothing_lost in Hlp.
    + cbn [fl_sys fl_procs sys_db sys_redis]. rewrite Hc.
      destruct Hm as [-> ?|? ?|Ht ? ?| -> ? ?]; try rewrite Ht; case_decide; lia.
  - unfold potential. cbn [fl_sys fl_procs sys_db sys_redis]. rewrite Hsize, Hsize', !Nat2Z.id.
    destruct (effect_effort _ _ _ Heff) as [Hlt|[Heq Hqt]];
      [left; destruct Hm as [-> ?|? ?|Ht ? ?| -> ? ?]; try rewrite Ht in *; lia|].
    destruct (decide (base.size q' = base.size q ∧ publications p' = publications p)) as [[Hqq
      Hpp]|Hno];
      [|left; destruct Hm as [-> ?|? ?|Ht ? ?| -> ? ?]; lia].
    right. split; unfold potential; cbn [fl_sys fl_procs sys_db sys_redis]; [| |lia|
      rewrite Hsize, Hsize', !Nat2Z.id; lia].
    + destruct Hqt as [Hrow Hnone]. split; [|done]. intros i r Hi.
      destruct (Hrow i r Hi) as (r1 & Hr1 & [?|[? ?]]); exists r1; (split; [done|]);
        [by left|right].
      split; [by exists p|done].
    + intros q0 Hq0. destruct (Hwork q0 Hq0) as (q1 & Hq1 & Hm1 & _).
      pose proof (size_spec _ _ Hq0). pose proof (size_spec _ _ Hq1).
      destruct Hm1 as [-> ?|? ?|? ? ?| -> ? ?]; [done|lia|lia|done].
Qed.
End steps.

(** ** Between two candidates *)

(** The runner executes nothing and holds no candidate. *)
Definition free (pc : RunnerPc) : Prop :=
  match pc with R_peek _ | R_sleep | R_stopped => True | _ => False end.

#[export] Instance free_dec pc : Decision (free pc).
Proof. destruct pc; cbn; apply _. Defined.

(** The coroutine the runner waits for. *)
Definition waits_for (p : Process) : Actor :=
  match pr_runner p, h_pc (pr_heart p) with
  | R_exit _ _ _, H_ended => A_runner
  | R_exit _ _ _, _ => A_heart
  | _, _ => A_runner
  end.

Definition nearer_free (p' p : Process) : Prop :=
  (runner_rank (pr_runner p') < runner_rank (pr_runner p))%nat ∨
  (runner_rank (pr_runner p') = runner_rank (pr_runner p) ∧ size_of p' < size_of p)%nat.

Lemma next_candidate_free stop k : free (next_candidate stop k).
Proof. by destruct (next_candidate_cases stop k) as [->|(_ & ? & ->)]. Qed.

Lemma next_cycle_free stop : free (next_cycle stop).
Proof. by destruct (next_cycle_cases stop) as [[_ ->]|(_ & ? & ->)]. Qed.

Lemma flow_frees stop p pc' h' :
  runner_flow stop (pr_runner p) (pr_heart p) pc' h' → ¬ free (pr_runner p) →
  free pc' ∨ nearer_free (set_runner p pc' h') p.
Proof.
  unfold nearer_free, size_of. cbn [set_runner pr_runner pr_heart].
  intros Hf Hn. destruct Hf; cbn in *; try done; auto using next_candidate_free, next_cycle_free;
    right; auto with lia.
Qed.

(** A step brings the runner nearer to its next candidate, unless another coroutine
    makes it and the runner stays where it is. *)
Lemma step_frees {DB R} `{!Postgres DB, !Redis R} py_str exn_repr actor an p (db : DB) (r : R) :
  process_ok p → ¬ free (pr_runner p) →
  match process_step py_str exn_repr actor an p db r with
  | None => actor ≠ waits_for p
  | Some (p', _, _) =>
      free (pr_runner p') ∨ nearer_free p' p ∨
      (pr_runner p' = pr_runner p ∧ size_of p' = size_of p ∧ waits_for p' = waits_for p ∧
       actor ≠ waits_for p)
  end.
Proof.
  intros Hok Hn. destruct actor; cbn [process_step].
  - destruct (runner_step _ _ _ _ _ _ _ _ _) as [[[[pc h] d] r1]|] eqn:H.
    + apply runner_step_flow in H. destruct (flow_frees _ _ _ _ H Hn) as [?|?]; [by left|by right;
        left].
    + unfold waits_for. destruct (pr_runner p); cbn in *; repeat case_match; try done;
        unfold start_execution in *; by repeat case_match.
  - destruct (abandon_step _ _ _) as [[pc h]|] eqn:H.
    + apply abandon_step_flow in H. destruct (flow_frees _ _ _ _ H Hn) as [?|?];
        [by left|by right; left].
    + unfold waits_for. by repeat case_match.
  - destruct (beating_for (pr_runner p)) as [a|] eqn:Hb.
    2:{ unfold waits_for. by destruct (pr_runner p). }
    destruct (heart_step _ _ _ _ _) as [[h d]|] eqn:H.
    + right. destruct (heart_step_ok _ _ _ _ _ _ _ _ Hb (ok_heart _ Hok) H) as (_ & _ & He).
      unfold nearer_free, waits_for, size_of. cbn. destruct (pr_runner p) eqn:Hr; try done;
        [by right|].
      destruct (He (ok_exit _ _ (ok_heart _ Hok) _ _ _ Hr)) as [He1 He2]. left. right.
      split; [done|]. cbn. rewrite He1. destruct (h_pc (pr_heart p)); try done; lia.
    + unfold heart_step in H. unfold waits_for.
      pose proof (ok_some _ _ (ok_heart _ Hok) a Hb) as Hnone.
      destruct (h_pc (pr_heart p)); try done; [|by destruct (pr_runner p)].
      by destruct (beat _ _ _ _ _ _) as [[? ?] ?].
  - destruct (timeout_step _ _) as [h|] eqn:H.
    + right. left. unfold timeout_step in H. unfold nearer_free, size_of. cbn.
      destruct (pr_runner p); try done. destruct (h_pc (pr_heart p)) eqn:Hh; try done.
      injection H as <-. right. cbn. rewrite Hh. cbn. lia.
    + unfold waits_for. by repeat case_match.
  - assert (A_scheduler ≠ waits_for p) as Hw by (unfold waits_for; by repeat case_match).
    destruct (scheduler_step _ _ _ _ _ _) as [[[? ?] ?]|]; [|done]. by right; right.
  - assert (A_recovery ≠ waits_for p) as Hw by (unfold waits_for; by repeat case_match).
    destruct (recovery_step _ _ _ _ _) as [[? ?]|]; [|done]. by right; right.
  - assert (A_main ≠ waits_for p) as Hw by (unfold waits_for; by repeat case_match).
    destruct (main_step _ _) as [[[? ?] ?]|]; [|done]. by right; right.
Qed.

(** ** A run *)

Section run.
Context {DB : Type} `{!Postgres DB, !PostgresLaws DB} {R : Type} `{!Redis R, !RedisLaws R}.
Context (py_str : JSON → string) (exn_repr : exn → string).
Context (qs : gmap nat (RequestPc DB)) (sched : nat → Turn) (F0 : Fleet DB R).
Context (Hsched : fair_schedule sched F0) (Hstart : on_course py_str exn_repr qs F0).
Implicit Types (F : Fleet DB R) (p : Process).

Abbreviation pstep := (process_step py_str exn_repr).
Abbreviation T F := (jobs_table (sys_db (fl_sys F))).
Abbreviation st := (state py_str exn_repr sched F0).
Abbreviation Rd F := (sys_redis (fl_sys F)).

Lemma turn_minted t F x :
  x ∈ minted (fl_sys (take_turn py_str exn_repr t F)) →
  x ∈ minted (fl_sys F) ∨ x = an_token (tn_answer t).
Proof using Type.
  unfold take_turn. destruct (fl_procs F !! _) as [p|]; [|by left].
  destruct (pstep _ _ _ _ _) as [[[p' db'] r']|]; [|by left]. cbn.
  rewrite elem_of_union. intros [Hx|?]; [right|by left]. unfold mints in Hx.
  destruct (tn_actor t), (pr_runner p), (an_fault (tn_answer t));
    first [by apply not_elem_of_empty in Hx|by apply elem_of_singleton in Hx].
Qed.

Lemma token_fresh n : an_token (tn_answer (sched n)) ∉ minted (fl_sys (st n)).
Proof using Hsched.
  assert (∀ x, x ∈ minted (fl_sys (st n)) →
    x ∈ minted (fl_sys F0) ∨ ∃ k, (k < n)%nat ∧ x = an_token (tn_answer (sched k))) as Hm.
  { induction n as [|n IH]; intros x; [by left|]. intros [Hx|Hx]%turn_minted.
    - destruct (IH x Hx) as [|(k & ? & ?)]; [by left|right; exists k; split; [lia|done]].
    - right. exists n. split; [lia|done]. }
  intros [Hx|(k & Hk & Hx)]%Hm; [by apply (fs_fresh _ _ Hsched n)|].
  apply (fs_tokens _ _ Hsched) in Hx. lia.
Qed.

Lemma run_on_course n : on_course py_str exn_repr qs (st n).
Proof using Hsched Hstart PostgresLaws0 RedisLaws0.
  induction n as [|n IH]; [done|]. destruct (fs_calm _ _ Hsched n) as [Hf Hl].
  apply (turn_spec py_str exn_repr qs (sched n) (st n) IH Hf Hl (token_fresh n)).
Qed.

Lemma run_turn n :
  (potential (st (S n)) < potential (st n))%nat ∨ quiet_turn (sched n) (st n) (st (S n)).
Proof using Hsched Hstart PostgresLaws0 RedisLaws0.
  destruct (fs_calm _ _ Hsched n) as [Hf Hl].
  apply (turn_spec py_str exn_repr qs (sched n) (st n) (run_on_course n) Hf Hl (token_fresh n)).
Qed.

Lemma run_mono n m : (n ≤ m)%nat → (potential (st m) ≤ potential (st n))%nat.
Proof using Hsched Hstart PostgresLaws0 RedisLaws0.
  induction 1 as [|m _ IH]; [done|]. destruct (run_turn m) as [?|[]]; lia.
Qed.

(** ** Leading from one state to another *)

(** Less is left to do, sooner or later. *)
Definition drops (n : nat) : Prop := ∃ m, (n ≤ m)%nat ∧ (potential (st m) < potential (st n))%nat.

Lemma drops_later n m : (n ≤ m)%nat → drops m → drops n.
Proof using Hsched Hstart PostgresLaws0 RedisLaws0.
  intros Hnm (k & Hk & Hlt). exists k. split; [lia|]. pose proof (run_mono n m Hnm). lia.
Qed.

Lemma persists (P : Fleet DB R → Prop) n :
  (∀ m, (n ≤ m)%nat → P (st m) → quiet_turn (sched m) (st m) (st (S m)) → P (st (S m))) →
  P (st n) → ∀ m, (n ≤ m)%nat → drops n ∨ P (st m).
Proof using Hsched Hstart PostgresLaws0 RedisLaws0.
  intros Hstep Hn m Hm. induction Hm as [|m Hm IH]; [by right|]. destruct IH as [|IH]; [by left|].
  destruct (run_turn m) as [Hlt|Hq]; [left|right; by apply Hstep].
  exists (S m). split; [lia|]. pose proof (run_mono n m Hm). lia.
Qed.

(** What [P] holds of a turn of its coroutine makes it [Q], and until then it stays. *)
Lemma leads (P Q : Fleet DB R → Prop) i actor n :
  is_Some (fl_procs F0 !! i) → is_coroutine actor = true →
  (∀ m, (n ≤ m)%nat → P (st m) → quiet_turn (sched m) (st m) (st (S m)) →
     Q (st (S m)) ∨ (P (st (S m)) ∧ ¬ (tn_process (sched m) = i ∧ tn_actor (sched m) = actor))) →
  P (st n) → drops n ∨ ∃ m, (n ≤ m)%nat ∧ Q (st m).
Proof using Hsched Hstart PostgresLaws0 RedisLaws0.
  intros Hi0 Hact Hstep Hn. destruct (fs_fair _ _ Hsched i actor n Hi0 Hact) as (m & Hm & Hi & Ha).
  assert (drops n ∨ (∃ k, (n ≤ k)%nat ∧ Q (st k)) ∨ P (st m)) as [|[|HP]]; [|by left|by right|].
  - clear Hi Ha. induction Hm as [|m Hm IH]; [auto|]. destruct IH as [|[|IH]]; [auto..|].
    destruct (run_turn m) as [Hlt|Hq].
    + left. exists (S m). split; [lia|]. pose proof (run_mono n m Hm). lia.
    + destruct (Hstep m Hm IH Hq) as [?|[? _]]; [|auto]. right. left. exists (S m).
      by split; [lia|].
  - destruct (run_turn m) as [Hlt|Hq].
    + left. exists (S m). split; [lia|]. pose proof (run_mono n m Hm). lia.
    + destruct (Hstep m Hm HP Hq) as [?|[_ Hno]]; [|by destruct Hno].
      right. exists (S m). by split; [lia|].
Qed.

(** The processes of a run are those it began with. *)
Lemma process_was n i : is_Some (fl_procs (st n) !! i) → is_Some (fl_procs F0 !! i).
Proof using Type.
  induction n as [|n IH]; [done|]. cbn [state]. unfold take_turn. intros Hi. apply IH. revert Hi.
  destruct (fl_procs (st n) !! tn_process (sched n)) as [p|] eqn:Hp; [|done].
  destruct (pstep _ _ _ _ _) as [[[p' db'] r']|]; [|done]. cbn. rewrite lookup_insert_is_Some.
  intros [<-|[_ ?]]; [by eexists|done].
Qed.

(** What a turn does to a process. *)
Lemma turn_of t F j p :
  fl_procs F !! j = Some p →
  (tn_process t ≠ j ∧ fl_procs (take_turn py_str exn_repr t F) !! j = Some p) ∨
  (tn_process t = j ∧ take_turn py_str exn_repr t F = F ∧
     pstep (tn_actor t) (tn_answer t) p (sys_db (fl_sys F)) (Rd F) = None) ∨
  (tn_process t = j ∧ ∃ p' db' r',
     pstep (tn_actor t) (tn_answer t) p (sys_db (fl_sys F)) (Rd F) = Some (p', db', r') ∧
     take_turn py_str exn_repr t F =
       mk_fleet (mk_sys db' r' (mints (tn_actor t) (tn_answer t) p ∪ minted (fl_sys F)))
         (<[j := p']> (fl_procs F))).
Proof using Type.
  intros Hp. unfold take_turn. destruct (decide (tn_process t = j)) as [->|Hne].
  - right. rewrite Hp. destruct (pstep _ _ _ _ _) as [[[p' db'] r']|]; [right; eauto 10|by left].
  - left. split; [done|]. destruct (fl_procs F !! tn_process t) as [q|]; [|done].
    destruct (pstep _ _ _ _ _) as [[[p' db'] r']|]; [|done]. cbn. by rewrite lookup_insert_ne.
Qed.

(** The same for a coroutine of process [i] at [φ], in a service that keeps [ψ]. *)
Lemma leads_proc (φ : Process → Prop) (ψ Q : Fleet DB R → Prop) i actor n p :
  is_coroutine actor = true →
  (∀ m, (n ≤ m)%nat → ψ (st m) → quiet_turn (sched m) (st m) (st (S m)) → ψ (st (S m))) →
  (∀ m p, (n ≤ m)%nat → fl_procs (st m) !! i = Some p → φ p → ψ (st m) →
     quiet_turn (sched m) (st m) (st (S m)) → tn_process (sched m) = i →
     match pstep (tn_actor (sched m)) (tn_answer (sched m)) p (sys_db (fl_sys (st m))) (Rd (st m))
       with
     | None => tn_actor (sched m) ≠ actor
     | Some (p', db', r') =>
         st (S m) = mk_fleet (mk_sys db' r' (mints (tn_actor (sched m)) (tn_answer (sched m)) p ∪
           minted (fl_sys (st m)))) (<[i := p']> (fl_procs (st m))) →
         Q (st (S m)) ∨ (φ p' ∧ tn_actor (sched m) ≠ actor)
     end) →
  fl_procs (st n) !! i = Some p → φ p → ψ (st n) → drops n ∨ ∃ m, (n ≤ m)%nat ∧ Q (st m).
Proof using Hsched Hstart PostgresLaws0 RedisLaws0.
  intros Hact Hψ Hstep Hp Hφ Hn.
  apply (leads (λ F, ψ F ∧ ∃ p, fl_procs F !! i = Some p ∧ φ p) Q i actor n); [|done| |by eauto].
  { eapply process_was. by eexists. }
  clear p Hp Hφ Hn. intros m Hm [Hs (p & Hp & Hφ)] Hq.
  specialize (Hψ m Hm Hs Hq). specialize (Hstep m p Hm Hp Hφ Hs Hq).
  destruct (turn_of (sched m) (st m) i p Hp)
    as [[Hne Hp']|[(Hi & He & Hst)|(Hi & p' & db' & r' & Hst & He)]].
  - right. split; [split; [done|]; by exists p|]. by intros [? _].
  - rewrite Hst in Hstep. right. cbn [state] in *. rewrite He in *.
    split; [split; [done|]; by exists p|]. intros [_ ?]. by apply Hstep.
  - rewrite Hst in Hstep. destruct (Hstep Hi) as [?|[? ?]]; [by cbn [state];
      rewrite He|by left|right].
    split; [|by intros [_ ?]]. split; [done|]. exists p'. cbn [state]. rewrite He. cbn.
    by rewrite lookup_insert_eq.
Qed.

(** What a step leaves of its process. *)
Lemma step_frame actor an p (db : DB) (r : R) p' db' r' :
  pstep actor an p db r = Some (p', db', r') →
  pr_stop p' = pr_stop p ∧ pr_activation_batch p' = pr_activation_batch p ∧
  pr_recovery_batch p' = pr_recovery_batch p ∧
  (actor ≠ A_scheduler → pr_scheduler p' = pr_scheduler p) ∧
  (actor ≠ A_recovery → pr_recovery p' = pr_recovery p) ∧
  (actor ≠ A_runner → beating_for (pr_runner p) = None → pr_runner p' = pr_runner p).
Proof using Type.
  intros H. destruct actor; cbn in H.
  2:{ destruct (abandon_step _ _ _) as [[pc h]|] eqn:Ha; [|done]. simplify_eq. cbn.
      split_and!; try done. intros _ Hb. unfold abandon_step in Ha. by destruct (pr_runner p). }
  all: repeat case_match; simplify_eq; by split_and!.
Qed.

(** A process that works, and goes on working. *)
Definition working p : Prop :=
  pr_stop p = false ∧ pr_activation_batch p ≠ 0%nat ∧ pr_recovery_batch p ≠ 0%nat.

Lemma process_stays i n m p :
  (n ≤ m)%nat → fl_procs (st n) !! i = Some p →
  ∃ p', fl_procs (st m) !! i = Some p' ∧ (working p → working p').
Proof using Type.
  intros Hm Hp. induction Hm as [|m Hm (p1 & Hp1 & Hw)]; [by exists p|].
  destruct (turn_of (sched m) (st m) i p1 Hp1)
    as [[_ Hp']|[(_ & He & _)|(_ & p' & db' & r' & Hst & He)]]; cbn [state].
  - by exists p1.
  - rewrite He. by exists p1.
  - rewrite He. cbn. exists p'. rewrite lookup_insert_eq. split; [done|]. intros ?%Hw.
    apply step_frame in Hst as (H1 & H2 & H3 & _). unfold working in *. by rewrite H1, H2, H3.
Qed.

Lemma run_process_ok n i p :
  fl_procs (st n) !! i = Some p → process_ok p ∧ varchar_ok 128 (wk_id (pr_wk p)) = true.
Proof using Hsched Hstart PostgresLaws0 RedisLaws0.
  destruct (on_course_ok _ _ _ _ (run_on_course n)) as (Hfl & _). apply (fo_process _ Hfl).
Qed.

(** ** Publications *)

Lemma publishing_drops n i p :
  fl_procs (st n) !! i = Some p → publications p ≠ 0%nat → drops n.
Proof using Hsched Hstart PostgresLaws0 RedisLaws0.
  intros Hp Hpub.
  destruct (leads_proc (λ p, publications p ≠ 0%nat) (λ _, True) (λ _, False) i A_scheduler n p)
    as [|(m & _ & [])]; [done|done| |done..].
  clear p Hp Hpub. intros m p _ Hp Hpub _ Hq Hi.
  destruct (pstep _ _ _ _ _) as [[[p' db'] r']|] eqn:Hst.
  - intros He. right. destruct (decide (tn_actor (sched m) = A_scheduler)) as [Ha|Ha].
    + exfalso. pose proof (qn_backlog _ _ _ Hq) as Hb. rewrite He in Hb. cbn [fl_procs] in Hb.
      pose proof (backlog_insert _ i p p' Hp) as Hins. rewrite Ha in Hst. cbn in Hst.
      unfold publications in *. destruct (pr_scheduler p) as [|job rest| |]; try done.
      cbn in Hst. destruct (call _ _ _) as [r1 res]. simplify_eq. cbn in Hins.
      rewrite next_enqueue_publishes, length_fmap in Hins. lia.
    + split; [|done]. apply step_frame in Hst as (_ & _ & _ & Hs & _). unfold publications in *.
      by rewrite Hs.
  - intros Ha. rewrite Ha in Hst. cbn in Hst. unfold publications in Hpub.
    destruct (pr_scheduler p); try done. cbn in Hst. by destruct (call _ _ _).
Qed.

(** ** SCHEDULED jobs *)

Definition waits_until id (z : Z) F : Prop :=
  ∃ row, T F !! id = Some row ∧ status row = SCHEDULED ∧ scheduled_at row = Some z.

(** From here on the database's clock is past [z]. *)
Definition late (n : nat) (z : Z) : Prop :=
  ∀ m, (n ≤ m)%nat → z ≤ an_now (tn_answer (sched m)).

Lemma later_late n z : ∃ m, (n ≤ m)%nat ∧ late m z.
Proof using Hsched.
  destruct (fs_clock _ _ Hsched z) as (k & Hk). exists (n `max` k)%nat. split; [lia|].
  intros m Hm. apply Hk. lia.
Qed.

Lemma waits_quiet id z t F F' : quiet_turn t F F' → waits_until id z F → waits_until id z F'.
Proof using Type.
  intros Hq (row & Hrow & Hs & Hz). destruct (qt_row _ _ _ (qn_table _ _ _ Hq) _ _ Hrow)
    as (row' & Hrow' & [->|[_ (H1 & _ & _ & _ & H2 & _)%beaten_same]]); [by exists row|].
  exists row'. split; [done|]. by rewrite H1, H2.
Qed.

Lemma activation_drops n i p id z :
  fl_procs (st n) !! i = Some p → working p → pr_scheduler p = S_activate → late n z →
  waits_until id z (st n) → drops n.
Proof using Hsched Hstart PostgresLaws0 RedisLaws0.
  intros Hp Hw Hpc Hlate Hid.
  destruct (leads_proc (λ p, working p ∧ pr_scheduler p = S_activate) (waits_until id z) (λ _,
    False)
    i A_scheduler n p) as [|(m & _ & [])]; [done|intros; by eapply waits_quiet| |done..].
  clear p Hp Hw Hpc Hid. intros m p Hm Hp [Hw Hpc] (row & Hrow & Hs & Hz) Hq Hi.
  destruct (pstep _ _ _ _ _) as [[[p' db'] r']|] eqn:Hst.
  - intros He. right. pose proof (step_frame _ _ _ _ _ _ _ _ Hst) as (H1 & H2 & H3 & H4 & _).
    destruct (decide (tn_actor (sched m) = A_scheduler)) as [Ha|Ha].
    + exfalso. destruct (on_course_ok _ _ _ _ (run_on_course m)) as (_ & _ & Hwf & _).
      destruct (fs_calm _ _ Hsched m) as [Hf Hl].
      rewrite Ha in Hst. cbn in Hst. rewrite Hpc in Hst. cbn in Hst. rewrite Hf, Hl in Hst.
      cbn in Hst.
      destruct (activation_effort (an_now (tn_answer (sched m))) (pr_activation_batch p) _ Hwf)
        as (d & ms & Hrun & _ & Hnone). rewrite Hrun in Hst. injection Hst as <- <- <-.
      pose proof (qn_backlog _ _ _ Hq) as Hb. rewrite He in Hb. cbn [fl_procs] in Hb.
      pose proof (backlog_insert _ i p (set_scheduler p (next_enqueue ms)) Hp) as Hins.
      unfold publications in Hins. cbn [pr_scheduler set_scheduler] in Hins.
      rewrite Hpc, next_enqueue_publishes, length_fmap in Hins.
      cbn [scheduler_publishes length] in Hins.
      rewrite Hb in Hins. destruct ms as [|j ms]; [|cbn [length] in Hins; lia].
      destruct Hw as (_ & Hn & _).
      pose proof (Hnone Hn eq_refl id row Hrow Hs z Hz). specialize (Hlate m Hm). lia.
    + split; [|done]. unfold working in *. by rewrite H1, H2, H3, H4.
  - intros Ha. rewrite Ha in Hst. cbn in Hst. rewrite Hpc in Hst. cbn in Hst. by repeat case_match.
Qed.

Lemma scheduled_drops n i p id row :
  fl_procs (st n) !! i = Some p → working p → T (st n) !! id = Some row →
  status row = SCHEDULED → drops n.
Proof using Hsched Hstart PostgresLaws0 RedisLaws0.
  intros Hp Hw Hrow Hs. destruct (on_course_ok _ _ _ _ (run_on_course n)) as (_ & _ & Hwf & _).
  destruct (wf_scheduled _ (Hwf _ _ Hrow) Hs) as [z Hz].
  destruct (later_late n z) as (m & Hm & Hlate).
  destruct (persists (waits_until id z) n) with (m := m) as [|Hid]; [|by exists row|done|done|].
  { intros k _ Hk Hq. by eapply waits_quiet. }
  apply (drops_later n m Hm). destruct (process_stays i n m p Hm Hp) as (q & Hq & Hwq).
  specialize (Hwq Hw). destruct (run_process_ok m i q Hq) as [Hok _].
  destruct (pr_scheduler q) as [|job rest| |] eqn:Hpc.
  - by eapply activation_drops.
  - eapply publishing_drops; [done|]. unfold publications. by rewrite Hpc.
  - destruct (leads_proc (λ p, working p ∧ pr_scheduler p = S_sleep) (waits_until id z)
      (λ F, waits_until id z F ∧ ∃ p, fl_procs F !! i = Some p ∧ working p ∧ pr_scheduler p =
        S_activate)
      i A_scheduler m q) as [|(k & Hk & Hidk & pk & Hpk & Hwk & Hpck)];
      [done|intros; by eapply waits_quiet| |done..| |].
    + clear q Hq Hwq Hok Hpc Hid. intros k q Hk Hq [Hwq Hpc] Hid Hqt Hi.
      destruct (pstep _ _ _ _ _) as [[[q' db'] r']|] eqn:Hst.
      * intros He. pose proof (step_frame _ _ _ _ _ _ _ _ Hst) as (H1 & H2 & H3 & H4 & _).
        destruct (decide (tn_actor (sched k) = A_scheduler)) as [Ha|Ha]; [left|right].
        -- split; [by eapply waits_quiet|]. rewrite He. cbn. exists q'. rewrite lookup_insert_eq.
           split; [done|]. split; [unfold working in *; by rewrite H1, H2, H3|].
           rewrite Ha in Hst. cbn in Hst. rewrite Hpc in Hst. injection Hst as <- <- <-. cbn.
           by destruct Hwq as [-> _].
        -- split; [|done]. unfold working in *. by rewrite H1, H2, H3, H4.
      * intros Ha. rewrite Ha in Hst. cbn in Hst. by rewrite Hpc in Hst.
    + done.
    + apply (drops_later m k Hk). eapply activation_drops; [done..| |done]. intros j Hj.
      apply Hlate. lia.
  - destruct Hwq as [Hstop _]. pose proof (ok_stopped _ Hok (or_intror (or_introl Hpc))).
    congruence.
Qed.

(** ** Running jobs *)

(** Only processes of [X] execute an attempt with this token. *)
Definition holders_in (X : nat → Prop) (tok : uuid) F : Prop :=
  ∀ j p a, fl_procs F !! j = Some p → held_by p a → at_execution_token a = tok → X j.

Lemma minted_stays tok n m : (n ≤ m)%nat → tok ∈ minted (fl_sys (st n)) →
  tok ∈ minted (fl_sys (st m)).
Proof using Type.
  induction 1 as [|m _ IH]; [done|]. intros Hn. specialize (IH Hn). cbn [state]. unfold take_turn.
  destruct (fl_procs (st m) !! _) as [p|]; [|done]. destruct (pstep _ _ _ _ _) as [[[p' db']
    r']|]; [|done].
  cbn. apply elem_of_union. by right.
Qed.

Lemma holders_stay X tok n m :
  (n ≤ m)%nat → tok ∈ minted (fl_sys (st n)) → holders_in X tok (st n) → holders_in X tok (st m).
Proof using Hsched Hstart PostgresLaws0 RedisLaws0.
  intros Hm Htok HX. induction Hm as [|m Hm IH]; [done|]. intros j p' a Hp' Ha Hat.
  pose proof (minted_stays tok n m Hm Htok) as Htm.
  assert (∃ p, fl_procs (st m) !! j = Some p) as [p Hp].
  { cbn [state] in Hp'. unfold take_turn in Hp'.
    destruct (fl_procs (st m) !! tn_process (sched m)) as [q|] eqn:Hq; [|by eexists].
    destruct (pstep _ _ _ _ _) as [[[q' db'] r']|]; [|by eexists]. cbn in Hp'.
    apply lookup_insert_Some in Hp' as [[<- _]|[_ Hp']]; by eexists. }
  destruct (turn_of (sched m) (st m) j p Hp)
    as [[_ He]|[(_ & He & _)|(Hi & q & db' & r' & Hst & He)]];
    cbn [state] in Hp'.
  - rewrite He in Hp'. injection Hp' as <-. exact (IH j p a Hp Ha Hat).
  - rewrite He in Hp'. exact (IH j p' a Hp' Ha Hat).
  - rewrite He in Hp'. cbn in Hp'. rewrite lookup_insert_eq in Hp'. injection Hp' as ->.
    destruct (run_process_ok m j p Hp) as [_ Hw].
    destruct (step_holds py_str exn_repr (fl_sys (st m)) p _ _ p' db' r' a Hw Hst Ha) as [H|Hmint];
      [exact (IH j p a Hp H Hat)|]. exfalso. apply (token_fresh m). rewrite Hat in Hmint.
      unfold mints in Hmint.
    destruct (tn_actor (sched m)), (pr_runner p), (an_fault (tn_answer (sched m)));
      first [by apply not_elem_of_empty in Hmint|apply elem_of_singleton in Hmint;
        by rewrite <-Hmint].
Qed.

(** A running job that nobody executes any more. *)
Definition orphan id (tok : uuid) (d : Z) F : Prop :=
  (∃ row, T F !! id = Some row ∧ status row = PROCESSING ∧ execution_token row = Some tok ∧
     lease_expires_at row = Some d) ∧
  tok ∈ minted (fl_sys F) ∧ holders_in (λ _, False) tok F.

Lemma orphan_quiet id tok d m :
  quiet_turn (sched m) (st m) (st (S m)) → orphan id tok d (st m) → orphan id tok d (st (S m)).
Proof using Hsched Hstart PostgresLaws0 RedisLaws0.
  intros Hq ((row & Hrow & Hs & Htok & Hd) & Hm & Hh). split; [|split].
  - destruct (qt_row _ _ _ (qn_table _ _ _ Hq) _ _ Hrow) as (row' & Hrow' & [->|[(p & Hp & a & Ha
      & Ho) _]]);
      [by exists row|]. exfalso. apply owns_spec in Ho as (_ & _ & Ho).
    apply (Hh _ _ _ Hp Ha). congruence.
  - apply (minted_stays tok m); [lia|done].
  - apply (holders_stay _ tok m); [lia|done..].
Qed.

Lemma sweep_drops n i p id tok d :
  fl_procs (st n) !! i = Some p → working p → pr_recovery p = V_recover → late n (d + 1) →
  orphan id tok d (st n) → drops n.
Proof using Hsched Hstart PostgresLaws0 RedisLaws0.
  intros Hp Hw Hpc Hlate Hid.
  destruct (leads_proc (λ p, working p ∧ pr_recovery p = V_recover) (orphan id tok d) (λ _, False)
    i A_recovery n p) as [|(m & _ & [])]; [done|intros; by apply orphan_quiet| |done..].
  clear p Hp Hw Hpc Hid. intros m p Hm Hp [Hw Hpc] ((row & Hrow & Hs & _ & Hd) & _) Hq Hi.
  destruct (pstep _ _ _ _ _) as [[[p' db'] r']|] eqn:Hst.
  - intros He. right. pose proof (step_frame _ _ _ _ _ _ _ _ Hst) as (H1 & H2 & H3 & _ & H4 & _).
    destruct (decide (tn_actor (sched m) = A_recovery)) as [Ha|Ha].
    + exfalso. destruct (on_course_ok _ _ _ _ (run_on_course m)) as (_ & _ & Hwf & _).
      destruct (fs_calm _ _ Hsched m) as [Hf Hl]. specialize (Hlate m Hm).
      rewrite Ha in Hst. cbn in Hst. rewrite Hpc in Hst. cbn in Hst. rewrite Hf, Hl in Hst.
      cbn in Hst.
      set (now := an_now (tn_answer (sched m))) in *. set (k := pr_recovery_batch p) in *.
      destruct (recover_expired_leases_spec now ∅ k (sys_db (fl_sys (st m)))) as (d1 & Hrun & Ht).
      { intros j r Hr Hsr _. by eapply wf_sweepable. }
      rewrite Hrun in Hst. injection Hst as <- <- <-.
      destruct (pg_select_facts ∅ (expired_query now k) (sys_db (fl_sys (st m))) _ _) as (_ & Hin
        & _).
      set (l := pg_select ∅ (expired_query now k) (sys_db (fl_sys (st m)))) in *.
      assert (l ≠ []) as Hne.
      { intros Hl0. destruct Hw as (_ & _ & Hk).
        pose proof (batch_empty (expired_query now k) k _ _ _ eq_refl eq_refl Hk Hl0 id row Hrow)
          as Hv.
        apply not_true_iff_false in Hv. apply Hv, visible_expired. split; [done|].
        split; [|apply not_elem_of_empty]. apply expired_spec. exists d. split; [done|lia]. }
      destruct l as [|r l]; [done|]. destruct (Hin r ltac:(by left))
        as [Hlk (Hsr & _)%visible_expired].
      destruct (qt_row _ _ _ (qn_table _ _ _ Hq) _ _ Hlk) as (r2 & Hr2 & Hsame).
      rewrite He in Hr2. cbn [fl_sys sys_db] in Hr2. rewrite Ht, lookup_map_rows, Hlk in Hr2.
      cbn in Hr2.
      rewrite bool_decide_true in Hr2 by by left. injection Hr2 as <-.
      assert (status (settled now LEASE_EXPIRED_ERROR r) = PROCESSING) as Hbad.
      { destruct Hsame as [->|[_ (-> & _)%beaten_same]]; done. }
      revert Hbad. unfold settled, failed_values. by destruct (_ <? _).
    + split; [|done]. unfold working in *. by rewrite H1, H2, H3, H4.
  - intros Ha. rewrite Ha in Hst. cbn in Hst. rewrite Hpc in Hst. cbn in Hst.
    by destruct (db_call _ _ _).
Qed.

Lemma orphan_drops n i p id tok d :
  fl_procs (st n) !! i = Some p → working p → orphan id tok d (st n) → drops n.
Proof using Hsched Hstart PostgresLaws0 RedisLaws0.
  intros Hp Hw Hid. destruct (later_late n (d + 1)) as (m & Hm & Hlate).
  destruct (persists (orphan id tok d) n) with (m := m) as [|Hidm]; [|done..|].
  { intros k _ Hk Hq. by apply orphan_quiet. }
  apply (drops_later n m Hm). destruct (process_stays i n m p Hm Hp) as (q & Hq & Hwq).
  specialize (Hwq Hw). destruct (run_process_ok m i q Hq) as [Hok _].
  destruct (pr_recovery q) as [| |] eqn:Hpc.
  - by eapply sweep_drops.
  - destruct (leads_proc (λ p, working p ∧ pr_recovery p = V_sleep) (orphan id tok d)
      (λ F, orphan id tok d F ∧ ∃ p, fl_procs F !! i = Some p ∧ working p ∧ pr_recovery p =
        V_recover)
      i A_recovery m q) as [|(k & Hk & Hidk & pk & Hpk & Hwk & Hpck)];
      [done|intros; by apply orphan_quiet| |done..| |].
    + clear q Hq Hwq Hok Hpc Hidm. intros k q Hk Hq [Hwq Hpc] Hidk Hqt Hi.
      destruct (pstep _ _ _ _ _) as [[[q' db'] r']|] eqn:Hst.
      * intros He. pose proof (step_frame _ _ _ _ _ _ _ _ Hst) as (H1 & H2 & H3 & _ & H4 & _).
        destruct (decide (tn_actor (sched k) = A_recovery)) as [Ha|Ha]; [left|right].
        -- split; [by apply orphan_quiet|]. rewrite He. cbn. exists q'. rewrite lookup_insert_eq.
           split; [done|]. split; [unfold working in *; by rewrite H1, H2, H3|].
           rewrite Ha in Hst. cbn in Hst. rewrite Hpc in Hst. injection Hst as <- <- <-. cbn.
           by destruct Hwq as [-> _].
        -- split; [|done]. unfold working in *. by rewrite H1, H2, H3, H4.
      * intros Ha. rewrite Ha in Hst. cbn in Hst. by rewrite Hpc in Hst.
    + done.
    + apply (drops_later m k Hk). eapply sweep_drops; [done..| |done]. intros j Hj. apply Hlate.
      lia.
  - destruct Hwq as [Hstop _]. pose proof (ok_stopped _ Hok (or_intror (or_intror Hpc))).
    congruence.
Qed.

(** ** Runners *)

Lemma waits_coroutine p : is_coroutine (waits_for p) = true.
Proof using Type. unfold waits_for. by repeat case_match. Qed.

(** Whatever a runner does, it gets back to its loop. *)
Lemma runner_frees n i p :
  fl_procs (st n) !! i = Some p →
  drops n ∨ ∃ m q, (n ≤ m)%nat ∧ fl_procs (st m) !! i = Some q ∧ free (pr_runner q).
Proof using Hsched Hstart PostgresLaws0 RedisLaws0.
  remember (runner_rank (pr_runner p)) as k eqn:Hk. revert n p Hk.
  induction k as [k IHk] using lt_wf_ind. intros n p Hk.
  remember (size_of p) as z eqn:Hz. revert n p Hk Hz.
  induction z as [z IHz] using lt_wf_ind. intros n p Hk Hz Hp.
  destruct (decide (free (pr_runner p))) as [|Hn]; [right; by exists n, p|].
  destruct (leads_proc
    (λ q, pr_runner q = pr_runner p ∧ size_of q = size_of p ∧ waits_for q = waits_for p) (λ _, True)
    (λ F, ∃ q, fl_procs F !! i = Some q ∧ (free (pr_runner q) ∨ nearer_free q p)) i (waits_for p)
      n p)
    as [|(m & Hm & q & Hq & [Hfree|Hnear])]; [apply waits_coroutine|done| |done..| | |].
  - intros m q _ Hq (H1 & H2 & H3) _ _ _. destruct (run_process_ok m i q Hq) as [Hok _].
    pose proof (step_frees py_str exn_repr (tn_actor (sched m)) (tn_answer (sched m)) q
      (sys_db (fl_sys (st m))) (Rd (st m)) Hok ltac:(by rewrite H1)) as Hst.
    destruct (pstep _ _ _ _ _) as [[[q' db'] r']|]; [|by rewrite H3 in Hst].
    intros ->. unfold nearer_free in *. rewrite H1, H2, H3 in Hst.
    destruct Hst as [?|[?|(? & ? & ? & ?)]]; [left..|by right]; exists q'; cbn;
      rewrite lookup_insert_eq; auto.
  - by left.
  - right. by exists m, q.
  - destruct Hnear as [Hlt|[He Hlt]].
    + destruct (IHk (runner_rank (pr_runner q)) ltac:(lia) m q eq_refl Hq)
        as [Hd|(m' & q' & ? & ?)];
        [left; by eapply drops_later|right; exists m', q'; split; [lia|done]].
    + destruct (IHz (size_of q) ltac:(lia) m q ltac:(congruence) eq_refl Hq)
        as [Hd|(m' & q' & ? & ?)];
        [left; by eapply drops_later|right; exists m', q'; split; [lia|done]].
Qed.

(** The token of the attempt a process executes. *)
Definition executes (p : Process) : option uuid :=
  match pr_runner p with
  | R_remove job _ => match attempt_of job with Ok a => Some (at_execution_token a) | Err _ =>
    None end
  | R_handler _ a _ | R_exit _ a _ | R_settle a _ => Some (at_execution_token a)
  | _ => None
  end.

Lemma executes_held p tok : executes p = Some tok ↔ ∃ a, held_by p a ∧ at_execution_token a = tok.
Proof using Type.
  unfold executes, held_by. destruct (pr_runner p) as [| | | |job c| | | | |]; cbn;
    try (destruct (attempt_of job)); naive_solver.
Qed.

Lemma only_holder n tok :
  holders_in (λ _, False) tok (st n) ∨
  ∃ j q, fl_procs (st n) !! j = Some q ∧ holders_in (λ k, k = j) tok (st n).
Proof using Hsched Hstart PostgresLaws0 RedisLaws0.
  destruct (on_course_ok _ _ _ _ (run_on_course n)) as (Hfl & _).
  destruct (decide (map_Forall (λ _ q, executes q ≠ Some tok) (fl_procs (st n)))) as [Hall|Hno].
  - left. intros j q a Hq Ha Htok. apply (Hall j q Hq). apply executes_held. eauto.
  - right. apply map_not_Forall in Hno as (j & q & Hq & Hex); [|apply _]. apply dec_stable in Hex.
    apply executes_held in Hex as (a & Ha & Htok). exists j, q. split; [done|].
    intros k q' b Hq' Hb Htok'. destruct (decide (k = j)) as [|Hne]; [done|].
    destruct (fo_distinct _ Hfl k j q' q b a Hne Hq' Hq Hb Ha). congruence.
Qed.

Lemma running_drops n i p id row :
  fl_procs (st n) !! i = Some p → working p → T (st n) !! id = Some row →
  status row = PROCESSING → drops n.
Proof using Hsched Hstart PostgresLaws0 RedisLaws0.
  intros Hp Hw Hrow Hs.
  destruct (on_course_ok _ _ _ _ (run_on_course n)) as (_ & _ & Hwf & _).
  destruct (wf_owned _ (Hwf _ _ Hrow) Hs) as (_ & [tok Htok] & _).
  assert (tok ∈ minted (fl_sys (st n))) as Hmint.
  { destruct (live_reachable_ok _ _ _ (oc_live _ _ _ _ (run_on_course n))) as [Hfl _].
    exact (reachable_tokens _ (fleet_reachable_service _ _ _ Hfl) id row tok Hrow Htok). }
  assert (∃ m, (n ≤ m)%nat ∧ (drops n ∨ holders_in (λ _, False) tok (st m))) as (m & Hm & Hor).
  { destruct (only_holder n tok) as [?|(j & q & Hq & Hj)]; [exists n; split; [lia|by right]|].
    destruct (runner_frees n j q Hq) as [?|(m & q' & Hm & Hq' & Hfree)]; [exists n; by split;
      [lia|left]|].
    exists m. split; [done|right]. intros k x a Hx Ha Ht.
    assert (k = j) as -> by exact (holders_stay _ tok n m Hm Hmint Hj k x a Hx Ha Ht).
    assert (x = q') as -> by congruence. unfold held_by in Ha. by destruct (pr_runner q'). }
  destruct Hor as [|Hno]; [done|].
  destruct (persists (λ F, ∃ row, T F !! id = Some row ∧ status row = PROCESSING ∧
    execution_token row = Some tok) n) with (m := m) as [|(row' & Hrow' & Hs' & Htok')];
      [|by exists row|done..|].
  { intros k _ (r & Hr & Hsr & Htr) Hq. destruct (qt_row _ _ _ (qn_table _ _ _ Hq) _ _ Hr)
      as (r' & Hr' & [->|[_ (H1 & _ & _ & H2 & _)%beaten_same]]); [by exists r|].
    exists r'. split; [done|]. by rewrite H1, H2. }
  destruct (on_course_ok _ _ _ _ (run_on_course m)) as (_ & _ & Hwfm & _).
  destruct (wf_owned _ (Hwfm _ _ Hrow') Hs') as (_ & _ & [d Hd] & _).
  destruct (process_stays i n m p Hm Hp) as (x & Hx & Hwx).
  apply (drops_later n m Hm), (orphan_drops m i x id tok d Hx (Hwx Hw)).
  split; [by exists row'|]. split; [by eapply minted_stays|done].
Qed.

(** ** Queued candidates *)

(** The candidate a peek reads for an entry. *)
Definition entry (q : aqueue) (c : QueueCandidate) : Prop :=
  ∃ prio seq, q !! qc_job_id c = Some (prio, seq) ∧
    c = MkCandidate (qc_job_id c) (member seq (qc_job_id c)) seq.

(** A turn of a runner that holds a candidate or none; [φ] is where it is. *)
Lemma leads_runner (pc : RunnerPc) (ψ Q : Fleet DB R → Prop) i n p :
  beating_for pc = None →
  (∀ m, (n ≤ m)%nat → ψ (st m) → quiet_turn (sched m) (st m) (st (S m)) → ψ (st (S m))) →
  (∀ m p, (n ≤ m)%nat → fl_procs (st m) !! i = Some p → pr_runner p = pc → ψ (st m) →
     quiet_turn (sched m) (st m) (st (S m)) →
     ∃ pc' h' db' r', runner_step py_str exn_repr (pr_wk p) (tn_answer (sched m)) (pr_stop p)
         (pr_heart p) pc (sys_db (fl_sys (st m))) (Rd (st m)) = Some (pc', h', db', r') ∧
       (fl_procs (st (S m)) !! i = Some (set_runner p pc' h') →
        T (st (S m)) = jobs_table db' → Rd (st (S m)) = r' → Q (st (S m)))) →
  fl_procs (st n) !! i = Some p → pr_runner p = pc → ψ (st n) →
  drops n ∨ ∃ m, (n ≤ m)%nat ∧ Q (st m).
Proof using Hsched Hstart PostgresLaws0 RedisLaws0.
  intros Hb Hψ Hstep Hp Hpc Hn.
  apply (leads_proc (λ p, pr_runner p = pc) ψ Q i A_runner n p); [done|done| |done..].
  clear p Hp Hpc Hn. intros m p Hm Hp Hpc Hs Hq Hi.
  destruct (Hstep m p Hm Hp Hpc Hs Hq) as (pc' & h' & db1 & r1 & Hst1 & HQ).
  destruct (pstep _ _ _ _ _) as [[[p' db'] r']|] eqn:Hst.
  - intros He. destruct (decide (tn_actor (sched m) = A_runner)) as [Ha|Ha]; [left|right].
    + rewrite Ha in Hst. cbn in Hst. rewrite Hpc, Hst1 in Hst. injection Hst as <- <- <-.
      apply HQ; rewrite He; cbn; [|done..]. by rewrite lookup_insert_eq.
    + split; [|done]. apply step_frame in Hst as (_ & _ & _ & _ & _ & Hr).
      rewrite Hr; [done|done|by rewrite Hpc].
  - intros Ha. rewrite Ha in Hst. cbn in Hst. by rewrite Hpc, Hst1 in Hst.
Qed.

Lemma queue_quiet q t F F' :
  quiet_turn t F F' → represents (Rd F) q → represents (Rd F') q.
Proof using Type. intros Hq. apply (qn_queue _ _ _ Hq). Qed.

Lemma pending_quiet id t F F' :
  quiet_turn t F F' → ¬ pending (T F) id → ¬ pending (T F') id.
Proof using Type.
  intros Hq Hno (row' & Hrow' & Hs). apply Hno.
  destruct (T F !! id) as [row|] eqn:Hrow.
  - destruct (qt_row _ _ _ (qn_table _ _ _ Hq) _ _ Hrow) as (r & Hr & Hsame). simplify_eq.
    exists row. split; [done|]. by destruct Hsame as [->|[_ (<- & _)%beaten_same]].
  - by rewrite (qt_none _ _ _ (qn_table _ _ _ Hq) _ Hrow) in Hrow'.
Qed.

Lemma discard_drops n i p k c q :
  fl_procs (st n) !! i = Some p → pr_runner p = R_discard k c →
  represents (Rd (st n)) q → entry q c → drops n.
Proof using Hsched Hstart PostgresLaws0 RedisLaws0.
  intros Hp Hpc Hr Hc.
  destruct (leads_runner (R_discard k c) (λ F, represents (Rd F) q) (λ _, False) i n p)
    as [|(m & _ & [])]; [done|intros; by eapply queue_quiet| |done..].
  clear p Hp Hpc Hr. intros m p Hm Hp Hpc Hr Hq. destruct (fs_calm _ _ Hsched m) as [Hf _].
  destruct Hc as (prio & seq & Hqc & ->). cbn [qc_job_id] in Hqc.
  destruct (rep_bounds _ _ _ _ _ Hr Hqc) as [_ Hb]. destruct (rep_wf _ _ Hr _ _ _ Hqc) as (Hid & _).
  cbn [runner_step qc_job_id]. rewrite Hf. cbn [call].
  destruct (remove_spec _ q _ seq Hr Hid ltac:(lia)) as (r' & -> & Hr' & _).
  eexists _, _, _, _. split; [reflexivity|]. intros _ _ HR.
  pose proof (queue_quiet q _ _ _ Hq Hr) as Hr2. rewrite HR in Hr2.
  pose proof (size_spec _ _ Hr') as H1. rewrite (size_spec _ _ Hr2) in H1.
  unfold a_remove in H1. rewrite Hqc, decide_True in H1 by done.
  rewrite map_size_delete_Some in H1 by (by eexists).
  assert (base.size q ≠ 0%nat) by (intros ?%map_size_empty_inv; subst q;
    by rewrite lookup_empty in Hqc). lia.
Qed.

Lemma lookup_drops n i p k c q :
  fl_procs (st n) !! i = Some p → pr_runner p = R_lookup k c →
  represents (Rd (st n)) q → entry q c → ¬ pending (T (st n)) (qc_job_id c) → drops n.
Proof using Hsched Hstart PostgresLaws0 RedisLaws0.
  intros Hp Hpc Hr Hc Hno.
  destruct (leads_runner (R_lookup k c) (λ F, represents (Rd F) q ∧ ¬ pending (T F) (qc_job_id c))
    (λ F, represents (Rd F) q ∧ ∃ p, fl_procs F !! i = Some p ∧ pr_runner p = R_discard k c) i n p)
    as [|(m & Hm & Hrm & x & Hx & Hpcx)]; [done| | |done..|by eapply drops_later, discard_drops].
  { intros m _ [Hr1 Hn1] Hq. split; [by eapply queue_quiet|by eapply pending_quiet]. }
  clear p Hp Hpc Hr Hno. intros m p Hm Hp Hpc [Hr Hno] Hq. destruct (fs_calm _ _ Hsched m) as [Hf
    _].
  cbn [runner_step]. rewrite Hf. cbn [db_call]. rewrite run_get_job.
  assert (still_claimable (T (st m) !! qc_job_id c) = false) as ->.
  { destruct (T (st m) !! qc_job_id c) as [row|] eqn:Hrow; [|done]. cbn.
    rewrite bool_decide_false; [done|]. intros Hs. apply Hno. by exists row. }
  eexists _, _, _, _. split; [reflexivity|]. intros Hp' _ _. split; [by eapply queue_quiet|].
  by eexists.
Qed.

Lemma claim_drops n i p k c q :
  fl_procs (st n) !! i = Some p → pr_runner p = R_claim k c →
  represents (Rd (st n)) q → entry q c → drops n.
Proof using Hsched Hstart PostgresLaws0 RedisLaws0.
  intros Hp Hpc Hr Hc.
  destruct (leads_runner (R_claim k c) (λ F, represents (Rd F) q)
    (λ F, represents (Rd F) q ∧ ¬ pending (T F) (qc_job_id c) ∧
       ∃ p, fl_procs F !! i = Some p ∧ pr_runner p = R_lookup k c) i n p)
    as [|(m & Hm & Hrm & Hno & x & Hx & Hpcx)]; [done|intros; by eapply queue_quiet| |done..|
    by eapply drops_later, lookup_drops].
  clear p Hp Hpc Hr. intros m p Hm Hp Hpc Hr Hq. destruct (fs_calm _ _ Hsched m) as [Hf _].
  destruct (run_process_ok m i p Hp) as [_ Hw].
  destruct (on_course_ok _ _ _ _ (run_on_course m)) as (_ & _ & Hwf & _).
  cbn [runner_step]. rewrite Hf. cbn [db_call].
  destruct (claim_job_cas (wk_default_lease (pr_wk p)) (an_now (tn_answer (sched m)))
    (an_token (tn_answer (sched m))) (qc_job_id c) (wk_id (pr_wk p)) (Some (wk_lease (pr_wk p)))
    (sys_db (fl_sys (st m))) Hw) as (d & -> & Ht).
  unfold cas in *. destruct (T (st m) !! qc_job_id c) as [row|] eqn:Hrow.
  - pose proof (wf_claimable row (Hwf _ _ Hrow)) as Hcl. destruct (claimable row) eqn:Hc1.
    + eexists _, _, _, _. split; [reflexivity|]. intros _ HT _. exfalso.
      destruct (qt_row _ _ _ (qn_table _ _ _ Hq) _ _ Hrow) as (r & Hr2 & Hsame).
      rewrite HT, Ht in Hr2. cbn [fst] in Hr2. rewrite lookup_insert_eq in Hr2. injection Hr2 as <-.
      symmetry in Hcl. apply bool_decide_eq_true in Hcl.
      assert (PROCESSING = status row); [|congruence].
      by destruct Hsame as [<-|[_ (<- & _)%beaten_same]].
    + eexists _, _, _, _. split; [reflexivity|]. intros Hp' HT _. split; [by eapply queue_quiet|].
      split; [|by eexists]. rewrite HT, Ht. cbn [fst]. intros (r & Hr2 & Hs). simplify_eq.
      by rewrite bool_decide_true in Hcl.
  - eexists _, _, _, _. split; [reflexivity|]. intros Hp' HT _. split; [by eapply queue_quiet|].
    split; [|by eexists]. rewrite HT, Ht. cbn [fst]. intros (r & Hr2 & Hs). congruence.
Qed.

Lemma peek_drops n i p k q :
  fl_procs (st n) !! i = Some p → working p → pr_runner p = R_peek k →
  represents (Rd (st n)) q → q ≠ ∅ → drops n.
Proof using Hsched Hstart PostgresLaws0 RedisLaws0.
  intros Hp Hwp Hpc Hr Hne.
  destruct (leads_runner (R_peek k)
    (λ F, represents (Rd F) q ∧ ∃ p, fl_procs F !! i = Some p ∧ working p)
    (λ F, represents (Rd F) q ∧ ∃ p c, fl_procs F !! i = Some p ∧ pr_runner p = R_claim k c ∧
      entry q c)
    i n p)
    as [|(m & Hm & Hrm & x & c & Hx & Hpcx & Hc)]; [done| | |done|done|by eauto| |].
  - intros m _ [Hr1 (x & Hx & Hwx)] Hq. split; [by eapply queue_quiet|].
    destruct (process_stays i m (S m) x ltac:(lia) Hx) as (y & Hy & Hwy). eauto.
  - clear p Hp Hwp Hpc Hr. intros m p Hm Hp Hpc [Hr (x & Hx & Hstop & _)] Hq. simplify_eq.
    destruct (fs_calm _ _ Hsched m) as [Hf _]. cbn [runner_step]. rewrite Hf, Hstop. cbn [call].
    destruct (peek_spec _ q Hr) as [[-> _]|(id & pr & sq & Hid & -> & _)]; [done|].
    eexists _, _, _, _. split; [reflexivity|]. intros Hp' _ _. split; [by eapply queue_quiet|].
    eexists _, _. split; [exact Hp'|]. split; [done|]. by exists pr, sq.
  - done.
  - by eapply drops_later, claim_drops.
Qed.

(** An entry of the queue is served, or dropped. *)
Lemma queue_drops n i p q :
  fl_procs (st n) !! i = Some p → working p → represents (Rd (st n)) q → q ≠ ∅ → drops n.
Proof using Hsched Hstart PostgresLaws0 RedisLaws0.
  intros Hp Hw Hr Hne.
  destruct (runner_frees n i p Hp) as [|(m & x & Hm & Hx & Hfree)]; [done|].
  destruct (persists (λ F, represents (Rd F) q) n) with (m := m) as [|Hrm]; [|done..|].
  { intros k _ Hk Hq. by eapply queue_quiet. }
  apply (drops_later n m Hm). destruct (process_stays i n m p Hm Hp) as (x' & Hx' & Hwx).
  assert (x' = x) as -> by congruence. specialize (Hwx Hw).
  destruct (run_process_ok m i x Hx) as [Hok _].
  destruct (pr_runner x) as [k| | | | | | | | |] eqn:Hpc; try done.
  - by eapply peek_drops.
  - destruct (leads_runner R_sleep
      (λ F, represents (Rd F) q ∧ ∃ p, fl_procs F !! i = Some p ∧ working p)
      (λ F, represents (Rd F) q ∧ ∃ p k, fl_procs F !! i = Some p ∧ working p ∧ pr_runner p =
        R_peek k)
      i m x) as [|(m' & Hm' & Hr' & y & k & Hy & Hwy & Hpcy)]; [done| | |done|done|by eauto| |].
    + intros m' _ [Hr1 (y & Hy & Hwy)] Hq. split; [by eapply queue_quiet|].
      destruct (process_stays i m' (S m') y ltac:(lia) Hy) as (z & Hz & Hwz). eauto.
    + intros m' y _ Hy Hpcy [Hr1 (z & Hz & Hwz)] Hq. simplify_eq.
      eexists _, _, _, _. split; [reflexivity|]. intros Hy' _ _. split; [by eapply queue_quiet|].
      eexists _, _. split; [exact Hy'|]. split; [done|]. destruct Hwz as [-> _]. reflexivity.
    + done.
    + by eapply drops_later, peek_drops.
  - destruct Hwx as [Hstop _]. pose proof (ok_stopped _ Hok (or_introl Hpc)). congruence.
Qed.

(** ** The end *)

Context (Hquiet : ∀ k pc, qs !! k = Some pc → publishes pc = []).

Lemma work_left n i p :
  fl_procs (st n) !! i = Some p → working p → potential (st n) ≠ 0%nat → drops n.
Proof using All.
  intros Hp Hw Hpot. pose proof (run_on_course n) as Hoc.
  destruct (on_course_ok _ _ _ _ Hoc) as (Hfl & Hok & Hwf & _ & q & Hr & Hsize).
  destruct (decide (map_Forall (λ _ x, publications x = 0%nat) (fl_procs (st n)))) as [Hall|Hno].
  2:{ apply map_not_Forall in Hno as (j & x & Hx & Hpub); [|apply _]. by eapply publishing_drops. }
  destruct (decide (q = ∅)) as [->|Hne]; [|by eapply queue_drops].
  destruct (decide (map_Forall (λ _ row, weight row = 0%nat) (T (st n)))) as [Hz|Hno].
  - exfalso. apply Hpot. unfold potential. rewrite Hsize, map_size_empty.
    assert (effort (T (st n)) ≤ 0 * base.size (T (st n)))%nat as Heff.
    { apply effort_bound. intros id row Hrow. by rewrite (Hz id row Hrow). }
    assert (backlog (fl_procs (st n)) = 0%nat) as Hb; [|lia].
    revert Hall. generalize (fl_procs (st n)). clear. intros ps.
    induction ps as [|j x ps Hj IH] using map_ind; [done|]. intros [Hx Hall]%map_Forall_insert;
      [|done].
    by rewrite backlog_new, Hx, IH.
  - apply map_not_Forall in Hno as (id & row & Hrow & Hweight); [|apply _].
    destruct (status row) eqn:Hs; try (by unfold weight in Hweight; rewrite Hs in Hweight).
    + by eapply scheduled_drops.
    + exfalso. destruct (st n) as [s ps]. destruct (lo_index _ Hok) as (q1 & Hr1 & _ & _ & Hv).
      destruct (Hv id) as [[e He]|[[(j & x & Hx & Hin)|(j & x & Hx & Hin)]|Hin]];
        [by exists row|..].
      * pose proof (size_spec _ _ Hr1) as H1. cbn [fl_sys] in Hsize.
        rewrite H1, map_size_empty in Hsize.
        assert (q1 = ∅) as -> by (apply map_size_empty_inv; lia). by rewrite lookup_empty in He.
      * specialize (Hall j x Hx). unfold publications in Hall. apply nil_length_inv in Hall.
        rewrite Hall in Hin. by apply not_elem_of_nil in Hin.
      * rewrite (Hquiet _ _ Hx) in Hin. by apply not_elem_of_nil in Hin.
      * by apply not_elem_of_empty in Hin.
    + by eapply running_drops.
Qed.

Lemma run_ends n i p :
  fl_procs (st n) !! i = Some p → working p → ∃ m, (n ≤ m)%nat ∧ potential (st m) = 0%nat.
Proof using All.
  remember (potential (st n)) as k eqn:Hk. revert n p Hk.
  induction k as [k IH] using lt_wf_ind. intros n p Hk Hp Hw.
  destruct (decide (potential (st n) = 0%nat)) as [|Hne]; [by exists n|].
  destruct (work_left n i p Hp Hw Hne) as (m & Hm & Hlt).
  destruct (process_stays i n m p Hm Hp) as (p' & Hp' & Hw').
  destruct (IH (potential (st m)) ltac:(lia) m p' eq_refl Hp' (Hw' Hw)) as (m' & ? & ?).
  exists m'. split; [lia|done].
Qed.

(** What a row has become. *)
Definition goes (r r' : Job) : Prop :=
  r' = r ∨ (weight r ≠ 0%nat ∧ status r' ≠ CANCELLED ∧ same_submission r r').

Lemma goes_trans r r1 r2 : goes r r1 → goes r1 r2 → goes r r2.
Proof using Type.
  intros [->|(H1 & H2 & H3)] [->|(H4 & H5 & H6)]; [by left|by right|by right|right].
  split; [done|]. split; [done|]. unfold same_submission in *. naive_solver congruence.
Qed.

Lemma run_rows n id row :
  T F0 !! id = Some row → ∃ row', T (st n) !! id = Some row' ∧ goes row row'.
Proof using Hsched Hstart PostgresLaws0 RedisLaws0.
  intros Hrow. induction n as [|n (r & Hr & Hg)]; [exists row; split; [done|by left]|].
  destruct (on_course_ok _ _ _ _ (run_on_course n)) as (Hfl & _ & Hwf & _).
  cbn [state]. unfold take_turn.
  destruct (fl_procs (st n) !! _) as [p|] eqn:Hp; [|by exists r].
  destruct (pstep _ _ _ _ _) as [[[p' db'] r']|] eqn:Hst; [|by exists r]. cbn [fl_sys sys_db].
  destruct (fo_process _ Hfl _ _ Hp) as [_ Hw].
  destruct (tf_row _ _ _ (process_effect py_str exn_repr _ _ _ _ _ _ _ Hwf Hw Hst) id r Hr)
    as (r2 & Hr2 & Heff). exists r2. split; [done|]. eapply goes_trans; [exact Hg|].
  destruct Heff as [->|[(H1 & H2 & H3)|[(a & _ & (Hs & _)%owns_spec) Hb]]]; [by left|right..].
  - split; [lia|done].
  - pose proof (beaten_same _ _ Hb) as (Hs' & _ & _ & _ & _ & Hsame).
    split; [unfold weight; by rewrite Hs|]. split; [by rewrite Hs', Hs|done].
Qed.

Lemma at_the_end n :
  potential (st n) = 0%nat →
  peek (Rd (st n)) = Ok None ∧
  (∀ j q, fl_procs (st n) !! j = Some q → scheduler_publishes (pr_scheduler q) = []) ∧
  map_Forall (λ _ row, final row ∧ job_wf row) (T (st n)).
Proof using Hsched Hstart PostgresLaws0 RedisLaws0.
  intros Hz. destruct (on_course_ok _ _ _ _ (run_on_course n))
    as (_ & _ & Hwf & _ & q & Hr & Hsize).
  unfold potential in Hz. split; [|split].
  - assert (q = ∅) as -> by (apply map_size_empty_inv; lia).
    destruct (peek_spec _ ∅ Hr) as [[_ ->]|(id & x & y & He & _)];
      [done|by rewrite lookup_empty in He].
  - intros j x Hx. pose proof (backlog_take _ j x Hx). apply nil_length_inv.
    unfold publications in *. lia.
  - intros id row Hrow. split; [|by eapply Hwf]. apply final_weight; [by eapply Hwf|].
    pose proof (effort_take id row _ Hrow). lia.
Qed.
End run.

(** ** Every fair run ends every job *)

Section ends.
Context {DB : Type} `{!Postgres DB, !PostgresLaws DB} {R : Type} `{!Redis R, !RedisLaws R}.
Context (py_str : JSON → string) (exn_repr : exn → string).

(** C8: After any history of API calls, workers, faults and crashes in which no publication
    was lost, let the processes there are go on in any fair order, await by await, in
    calm conditions and among them one that has not been asked to stop.  Then there is
    a moment from which on the queue is empty, nobody is about to publish, and every
    job is COMPLETED, FAILED or, if it was before, CANCELLED; what had ended before is
    as it was.  No interleaving of the coroutines, no heartbeat and no lease that runs
    out under a slow worker can keep a job from its end. *)
Theorem fair_runs_end_every_job V sched i p
    (HV : live_reachable py_str exn_repr V) (Hlost : lv_lost V = ∅)
    (Hrequests : ∀ k pc, lv_requests V !! k = Some pc → publishes pc = [])
    (Hp : fl_procs (lv_fleet V) !! i = Some p) (Hw : working p)
    (Hroom : counter (sys_redis (fl_sys (lv_fleet V))) SEQUENCE_KEY + 1 +
       9 * Z.of_nat (base.size (jobs_table (sys_db (fl_sys (lv_fleet V))))) +
       Z.of_nat (backlog (fl_procs (lv_fleet V))) < SEQ_BOUND)
    (Hsched : fair_schedule sched (lv_fleet V)) :
  ∃ n, ∀ m, (n ≤ m)%nat →
    let F := state py_str exn_repr sched (lv_fleet V) m in
    peek (sys_redis (fl_sys F)) = Ok None ∧
    (∀ j q, fl_procs F !! j = Some q → scheduler_publishes (pr_scheduler q) = []) ∧
    ∀ id row, jobs_table (sys_db (fl_sys (lv_fleet V))) !! id = Some row →
      ∃ row', jobs_table (sys_db (fl_sys F)) !! id = Some row' ∧ final row' ∧ job_wf row' ∧
        same_submission row row' ∧ (final row → row' = row) ∧
        (status row' = CANCELLED → status row = CANCELLED).
Proof using PostgresLaws0 RedisLaws0.
  destruct (live_reachable_ok _ _ V HV) as [Hfl _].
  pose proof (reachable_wf _ (fleet_reachable_service _ _ _ Hfl)) as Hwf.
  destruct V as [F0 qs lost]. cbn in *. subst lost.
  assert (on_course py_str exn_repr qs F0) as Hstart.
  { split; [done|]. assert (effort (jobs_table (sys_db (fl_sys F0))) ≤
      9 * base.size (jobs_table (sys_db (fl_sys F0))))%nat; [|lia].
    apply effort_bound. intros id row Hrow. by eapply weight_bound, Hwf. }
  destruct (run_ends py_str exn_repr qs sched F0 Hsched Hstart Hrequests 0 i p Hp Hw)
    as (n & _ & Hn).
  exists n. intros m Hm. set (F := state py_str exn_repr sched F0 m).
  assert (potential F = 0%nat) as Hz.
  { pose proof (run_mono py_str exn_repr qs sched F0 Hsched Hstart n m Hm). unfold F. lia. }
  destruct (at_the_end py_str exn_repr qs sched F0 Hsched Hstart m Hz) as (H1 & H2 & Hall).
  split; [done|]. split; [done|]. intros id row Hrow.
  destruct (run_rows py_str exn_repr qs sched F0 Hsched Hstart m id row Hrow)
    as (row' & Hrow' & Hg).
  destruct (Hall id row' Hrow') as [Hfin Hwf']. exists row'. do 3 (split; [done|]).
  destruct Hg as [->|(Hne & Hs & Hsame)]; [by repeat split|]. split; [done|]. split; [|done].
  intros Hf. apply final_weight in Hf; [done|by eapply Hwf].
Qed.
End ends.

(** ** Witness: two workers, turn by turn *)

Definition demo_fleet (F : Fleet MemDB MemRedis) : Fleet MemDB MemRedis :=
  mk_fleet (fl_sys F) (<[1%nat := start_process demo_worker 10 10]>
    (<[0%nat := start_process demo_worker 10 10]> (fl_procs F))).

Definition live_staffed : Live MemDB MemRedis :=
  mk_live (demo_fleet (lv_fleet (live_submitted no_fault))) ∅ ∅.

Definition demo_coroutine (k : nat) : Actor :=
  match k with O => A_runner | 1%nat => A_heart | 2%nat => A_scheduler | _ => A_recovery end.

(** Each coroutine of each of the two in turn, a millisecond apart. *)
Definition demo_sched (n : nat) : Turn :=
  mk_turn (n / 4 mod 2) (demo_coroutine (n mod 4))
    {| an_fault := no_fault; an_now := 3000 + 1000 * Z.of_nat n; an_token := 1000 + Z.of_nat n;
       an_random := λ _, 0%Q; an_hex := "c0ffee"; an_locked := ∅ |}.

Lemma demo_turn_at n i k :
  (k < 4)%nat → (i < 2)%nat →
  let m := ((2 * n + i) * 4 + k)%nat in
  (n ≤ m)%nat ∧ tn_process (demo_sched m) = i ∧ tn_actor (demo_sched m) = demo_coroutine k.
Proof.
  intros Hk Hi m. split; [unfold m; lia|].
  unfold demo_sched. cbn [tn_process tn_actor]. unfold m.
  rewrite Nat.div_add_l by lia. rewrite (Nat.div_small k) by done.
  rewrite (Nat.add_comm _ k), Nat.Div0.mod_add, (Nat.mod_small k) by done. split; [|done].
  rewrite Nat.add_0_r, (Nat.add_comm _ i), (Nat.mul_comm 2), Nat.Div0.mod_add.
  by apply Nat.mod_small.
Qed.

Lemma demo_sched_fair : fair_schedule demo_sched (lv_fleet live_staffed).
Proof.
  assert (minted (fl_sys (lv_fleet live_staffed)) = ∅) as Hm by (vm_compute; reflexivity).
  split.
  - by intros n.
  - intros n. rewrite Hm. apply not_elem_of_empty.
  - intros m n H. cbn in H. lia.
  - intros t. exists (Z.to_nat t). intros m Hm'. cbn [tn_answer demo_sched an_now]. lia.
  - intros i actor n [x Hi] Ha. cbn in Hi.
    assert (i < 2)%nat as Hi2.
    { apply lookup_insert_Some in Hi as [[<- _]|[_ Hi]]; [lia|].
      apply lookup_insert_Some in Hi as [[<- _]|[_ Hi]]; [lia|].
      rewrite submitted_procs in Hi. by rewrite lookup_empty in Hi. }
    destruct actor; try done;
      [exists ((2 * n + i) * 4 + 0)%nat|exists ((2 * n + i) * 4 + 1)%nat|
       exists ((2 * n + i) * 4 + 2)%nat|exists ((2 * n + i) * 4 + 3)%nat];
      apply demo_turn_at; lia.
Qed.

Lemma live_staffed_reachable : live_reachable no_text no_text live_staffed.
Proof.
  destruct (live_submitted_reachable no_fault) as (V0 & H0 & Hs). exists V0. split; [done|].
  etrans; [exact Hs|].
  assert (live_submitted no_fault = mk_live (mk_fleet (fl_sys (lv_fleet (live_submitted
    no_fault))) ∅) ∅ ∅)
    as Heq.
  { pose proof (submitted_procs no_fault) as H1. pose proof (submitted_requests no_fault) as H2.
    pose proof submitted_lost as H3. destruct (live_submitted no_fault) as [[s ps] qs lost].
    cbn in *.
    by subst. }
  rewrite Heq. eapply rtc_l; [by apply (live_start _ _ _ _ _ _ 0%nat demo_worker 10 10)|].
  apply rtc_once. unfold live_staffed, demo_fleet. rewrite submitted_procs.
  by apply (live_start _ _ _ _ _ _ 1%nat demo_worker 10 10).
Qed.

Lemma fair_runs_end_every_job_witness :
  ∃ n, ∀ m, (n ≤ m)%nat → ∃ row',
    jobs_table (sys_db (fl_sys (state no_text no_text demo_sched (lv_fleet live_staffed) m))) !!
      11 =
      Some row' ∧ final row'.
Proof.
  destruct (fair_runs_end_every_job no_text no_text live_staffed demo_sched 0 (start_process
    demo_worker 10 10))
    as (n & Hn).
  - exact live_staffed_reachable.
  - reflexivity.
  - intros k pc Hk. cbn in Hk. by apply lookup_empty_Some in Hk.
  - reflexivity.
  - done.
  - vm_compute. reflexivity.
  - exact demo_sched_fair.
  - exists n. intros m Hm. destruct (Hn m Hm) as (_ & _ & Hall).
    destruct (Hall 11 (live_job (live_submitted no_fault))) as (row' & Hrow' & Hf & _).
    + exact (eq_trans (f_equal (λ t, t !! 11) (submitted_row no_fault)) (lookup_singleton_eq _ _)).
    + by exists row'.
Defined.
