(* ===== verification/Startup.v ===== *)
(** * Startup: how the processes are put together

    [run] of [worker/main.py], [build_worker_id], [get_settings] of [app/core/config.py],
    [configure_logging] of [app/core/logging.py], and the lifespan of [app/main.py] with
    the closing functions of [app/core/redis.py] and [app/db/session.py].  The tree of
    loggers is the standard library's; names are lists of their dotted parts, the last
    one first. *)

From S2P Require Import Prelude.
From S2P Require Import Text.
From S2P Require Import Errors.
From S2P Require Import Model.
From S2P Require Import Postgres.
From S2P Require Import MemDB.
From S2P Require Import Session.
From S2P Require Import Config.
From S2P Require Import Ownership.
From S2P Require Import Redis.
From S2P Require Import ReadyQueue.
From S2P Require Import Lifecycle.
From S2P Require Import Handlers.
From S2P Require Import Heartbeat.
From S2P Require Import Runner.
From S2P Require Import Process.
From S2P Require Import Fleet.
From S2P Require Import Visibility.
From Stdlib Require Import QArith Ascii.

Local Open Scope Z_scope.

(** ** Settings *)

(** [get_settings] under [lru_cache]: a value is kept, an exception is not. *)
Definition get_settings (load : result exn Settings) (cache : option Settings)
    : option Settings * result exn Settings :=
  match cache with
  | Some s => (cache, Ok s)
  | None => match load with Ok s => (Some s, Ok s) | Err e => (None, Err e) end
  end.

(** ** A worker *)

(** What [run] gives [JobRunner]; [claim_job] falls back to the same lease. *)
Definition runner_config (settings : Settings) (worker_id : string) : WorkerConfig :=
  {| wk_id := worker_id; wk_lease := job_lease_seconds settings;
     wk_default_lease := job_lease_seconds settings |}.

(** The process [run] starts, with the batch sizes of its scheduler and recovery. *)
Definition run (settings : Settings) (hostname : string) (pid : Z) (hex : string) : Process :=
  start_process (runner_config settings (build_worker_id hostname pid hex))
    (Z.to_nat (scheduler_batch_size settings)) (Z.to_nat (recovery_batch_size settings)).

(** ** Logging *)

Inductive Formatting := JsonFormatter | TextFormatter (fmt : string) | OtherFormatter (name : string).
#[export] Instance Formatting_eq_dec : EqDecision Formatting.
Proof. solve_decision. Defined.

Record Handler := { hd_stream : string; hd_formatter : Formatting }.

(** A logger's own state; level 0 is NOTSET. *)
Record Logger := { lg_handlers : list Handler; lg_level : Z; lg_propagate : bool }.
Definition new_logger : Logger := {| lg_handlers := []; lg_level := 0; lg_propagate := true |}.

Record Loggers := { lg_root : Logger; lg_tree : gmap (list string) Logger }.

Definition upper_char (c : ascii) : ascii :=
  let n := nat_of_ascii c in
  if ((97 <=? n) && (n <=? 122))%nat then ascii_of_nat (n - 32) else c.

(** [str.upper] of ASCII text. *)
Fixpoint upper (s : string) : string :=
  match s with EmptyString => EmptyString | String c s => String (upper_char c) (upper s) end.

(** The standard library's level names. *)
Definition level_names : list (string * Z) :=
  [("CRITICAL", 50); ("FATAL", 50); ("ERROR", 40); ("WARN", 30); ("WARNING", 30); ("INFO", 20);
   ("DEBUG", 10); ("NOTSET", 0)].
Definition level_of (name : string) : option Z :=
  match filter (λ e, e.1 = name) level_names with (_, v) :: _ => Some v | [] => None end.

Definition TEXT_FORMAT : string := "%(asctime)s %(levelname)-8s %(name)s %(message)s".
Definition service_handler (settings : Settings) : Handler :=
  {| hd_stream := "stdout";
     hd_formatter := match log_format settings with
                     | format_json => JsonFormatter
                     | format_text => TextFormatter TEXT_FORMAT
                     end |}.

(** [getLogger(name)], with its handlers cleared and propagating. *)
Definition quieten (name : list string) (tree : gmap (list string) Logger)
    : gmap (list string) Logger :=
  let l := default new_logger (tree !! name) in
  <[name := {| lg_handlers := []; lg_level := lg_level l; lg_propagate := true |}]> tree.

Definition noisy : list (list string) := [["access"; "uvicorn"]; ["error"; "uvicorn"]].

(** [configure_logging]; [setLevel] raises on a name that is no level. *)
Definition configure_logging (settings : Settings) (st : Loggers) : Loggers * result exn unit :=
  let root level :=
    {| lg_handlers := [service_handler settings]; lg_level := level;
       lg_propagate := lg_propagate (lg_root st) |} in
  match level_of (upper (log_level settings)) with
  | None => ({| lg_root := root (lg_level (lg_root st)); lg_tree := lg_tree st |},
             Err (ValueError ("Unknown level: '" +:+ upper (log_level settings) +:+ "'")))
  | Some level => ({| lg_root := root level; lg_tree := foldr quieten (lg_tree st) noisy |}, Ok tt)
  end.

(** [Logger.callHandlers]: the logger's own handlers, then those of its parents as far
    as it propagates. *)
Fixpoint call_handlers (st : Loggers) (name : list string) : list Handler :=
  match name with
  | [] => lg_handlers (lg_root st)
  | _ :: parent =>
      match lg_tree st !! name with
      | Some l => lg_handlers l ++ if lg_propagate l then call_handlers st parent else []
      | None => call_handlers st parent
      end
  end.

(** [Logger.getEffectiveLevel] *)
Fixpoint effective_level (st : Loggers) (name : list string) : Z :=
  match name with
  | [] => lg_level (lg_root st)
  | _ :: parent =>
      match lg_tree st !! name with
      | Some l => if lg_level l =? 0 then effective_level st parent else lg_level l
      | None => effective_level st parent
      end
  end.

(** Where a record of this level goes. *)
Definition emit (st : Loggers) (name : list string) (levelno : Z) : list Handler :=
  if effective_level st name <=? levelno then call_handlers st name else [].

(** ** The API's lifespan *)

Inductive LifeEvent := L_starting (environment : Environment) | L_serving | L_redis_closed
  | L_engine_disposed | L_stopped.

(** [lifespan]: what it has done when it ends, given how the two closing awaits end. *)
Definition lifespan (settings : Settings) (st : Loggers) (close_redis dispose_engine : result exn unit)
    : list LifeEvent * result exn unit :=
  match configure_logging settings st with
  | (_, Err e) => ([], Err e)
  | (_, Ok _) =>
      let up := [L_starting (environment settings); L_serving] in
      match close_redis with
      | Err e => (up, Err e)
      | Ok _ =>
          match dispose_engine with
          | Err e => (up ++ [L_redis_closed], Err e)
          | Ok _ => (up ++ [L_redis_closed; L_engine_disposed; L_stopped], Ok tt)
          end
      end
  end.

(** ** Workers *)

(** Every accepted configuration has the bounds its loops rely on. *)
Lemma validated_bounds s s' :
  validate_settings s = Ok s' →
  s' = s ∧ 1 ≤ scheduler_batch_size s ∧ 1 ≤ recovery_batch_size s ∧
  (0 < job_heartbeat_seconds s)%Q ∧ (job_heartbeat_seconds s < job_lease_seconds s)%Q.
Proof.
  unfold validate_settings. destruct (filter _ field_constraints) as [|[name c] l] eqn:Hf; [|done].
  assert (∀ c, c ∈ field_constraints → c.2 s = true) as Hall.
  { intros c Hc. apply not_false_is_true. intros Hn.
    assert (c ∈ filter (λ c, c.2 s = false) field_constraints) as Hin
      by (by apply list_elem_of_filter). rewrite Hf in Hin. by apply not_elem_of_nil in Hin. }
  unfold heartbeat_must_beat_before_the_lease_expires. destruct (Qle_bool _ _) eqn:Hle; [done|].
  intros [= <-]. split; [done|].
  pose proof (Hall ("scheduler_batch_size", λ s, 1 <=? scheduler_batch_size s)) as H1.
  pose proof (Hall ("recovery_batch_size", λ s, 1 <=? recovery_batch_size s)) as H2.
  pose proof (Hall ("job_heartbeat_seconds", λ s, Qltb 0 (job_heartbeat_seconds s))) as H3.
  cbn [snd] in H1, H2, H3. rewrite !list_elem_of_In in H1, H2, H3.
  specialize (H1 ltac:(cbn; tauto)). specialize (H2 ltac:(cbn; tauto)).
  specialize (H3 ltac:(cbn; tauto)). to_prop. split; [done|]. split; [done|].
  assert (∀ a b, Qle_bool a b = false → (b < a)%Q) as Hlt.
  { intros a b Hab. apply Qnot_le_lt. intros Hx%Qle_bool_iff. congruence. }
  split; [|by apply Hlt]. apply Hlt. by apply negb_true_iff in H3.
Qed.

(** ** Identities *)

Definition dashless (s : string) : bool := str_forall (λ c, negb (bool_decide (c = "-"%char))) s.

Lemma last_dash_unique a b a' b' :
  dashless b = true → dashless b' = true →
  a +:+ String "-" b = a' +:+ String "-" b' → a = a' ∧ b = b'.
Proof.
  intros Hb Hb'. revert a'. induction a as [|c a IH]; intros [|c' a']; cbn; intros Heq.
  - by injection Heq as ->.
  - injection Heq as <- ->. unfold dashless in Hb. rewrite str_forall_app in Hb.
    apply andb_prop in Hb as [_ Hb]. by cbn in Hb.
  - injection Heq as -> <-. unfold dashless in Hb'. rewrite str_forall_app in Hb'.
    apply andb_prop in Hb' as [_ Hb']. by cbn in Hb'.
  - injection Heq as -> Heq. by apply IH in Heq as [-> ->].
Qed.

Lemma show_int_dashless n : 0 ≤ n → dashless (show_int n) = true.
Proof.
  intros Hn. unfold show_int. rewrite (proj2 (Z.ltb_ge n 0)) by lia.
  apply digits_forall; [lia|]. intros d Hd. by_digits d.
Qed.

Lemma substring_dashless n m s : dashless s = true → dashless (String.substring n m s) = true.
Proof.
  unfold dashless. revert n m. induction s as [|c s IH]; intros n m; [by destruct n, m|].
  cbn [str_forall]. intros [Hc Hs]%andb_prop. destruct n as [|n]; [|by apply IH].
  destruct m as [|m]; [done|]. cbn [String.substring str_forall]. by rewrite Hc, IH.
Qed.

(** A worker's identity names its host, its pid and its random suffix: two processes
    share one only if all three agree, although host names may contain dashes. *)
Theorem worker_ids_tell_workers_apart hostname hostname' pid pid' hex hex'
    (Hpid : 0 ≤ pid) (Hpid' : 0 ≤ pid') (Hhex : dashless hex = true) (Hhex' : dashless hex' = true)
    (Heq : build_worker_id hostname pid hex = build_worker_id hostname' pid' hex') :
  hostname = hostname' ∧ pid = pid' ∧ String.substring 0 6 hex = String.substring 0 6 hex'.
Proof.
  unfold build_worker_id in Heq.
  change ("-" +:+ String.substring 0 6 ?x) with (String "-" (String.substring 0 6 x)) in Heq.
  change ("-" +:+ ?x) with (String "-" x) in Heq.
  assert (∀ h p x, h +:+ String "-" (show_int p +:+ String "-" x) =
    (h +:+ String "-" (show_int p)) +:+ String "-" x) as Hassoc.
  { intros h p x. by rewrite str_app_assoc. }
  rewrite !Hassoc in Heq. apply last_dash_unique in Heq as [Heq ->]; [|by apply substring_dashless..].
  apply last_dash_unique in Heq as [-> Heq]; [|by apply show_int_dashless..].
  split; [done|]. split; [|done]. unfold show_int in Heq.
  rewrite (proj2 (Z.ltb_ge pid 0)), (proj2 (Z.ltb_ge pid' 0)) in Heq by lia.
  apply (f_equal (py_int 10)) in Heq. rewrite !py_int_show_nat in Heq by lia. by injection Heq.
Qed.

(** ** Logging *)

(** The loggers between a name and the root hand records on and have no handlers of
    their own, before those of [noisy] are reset. *)
Fixpoint clear_path (tree : gmap (list string) Logger) (name : list string) : bool :=
  match name with
  | [] => true
  | _ :: parent =>
      match tree !! name with
      | Some l => bool_decide (name ∈ noisy) ||
                  (lg_propagate l && match lg_handlers l with [] => true | _ => false end)
      | None => true
      end && clear_path tree parent
  end.

Lemma lookup_noisy tree name :
  foldr quieten tree noisy !! name =
    if decide (name ∈ noisy)
    then Some {| lg_handlers := []; lg_level := lg_level (default new_logger (tree !! name));
                 lg_propagate := true |}
    else tree !! name.
Proof.
  unfold noisy. cbn [foldr]. unfold quieten at 1.
  destruct (decide (name = ["access"; "uvicorn"])) as [->|H1].
  { rewrite lookup_insert_eq. unfold quieten. by rewrite lookup_insert_ne. }
  rewrite lookup_insert_ne by done. unfold quieten.
  destruct (decide (name = ["error"; "uvicorn"])) as [->|H2]; [by rewrite lookup_insert_eq|].
  rewrite lookup_insert_ne by done. rewrite decide_False; [done|].
  by intros [->|[->|Hn%not_elem_of_nil]%elem_of_cons]%elem_of_cons.
Qed.

(** Configured once or twice, every record a logger accepts goes out exactly once, by
    the handler of the chosen format, if the loggers above it hand records on; a level
    that does not exist keeps the process from starting. *)
Theorem configured_records_go_out_once settings st name levelno
    (Hname : clear_path (lg_tree st) name = true) :
  match configure_logging settings st with
  | (st', Ok _) => configure_logging settings st' = (st', Ok tt) ∧
      level_of (upper (log_level settings)) = Some (lg_level (lg_root st')) ∧
      emit st' name levelno = if effective_level st' name <=? levelno
                              then [service_handler settings] else []
  | (_, Err e) => level_of (upper (log_level settings)) = None ∧
      ∀ close dispose, lifespan settings st close dispose = ([], Err e)
  end.
Proof.
  unfold lifespan, configure_logging. destruct (level_of _) as [level|]; [|done].
  cbn [lg_root lg_tree lg_level lg_handlers lg_propagate]. split; [|split; [done|]].
  - do 2 f_equal. apply map_eq. intros n. rewrite !lookup_noisy. by case_decide.
  - unfold emit. destruct (_ <=? _); [|done].
    set (st' := {| lg_root := _; lg_tree := _ |}). revert Hname.
    induction name as [|seg parent IH]; [done|]. cbn [clear_path call_handlers].
    intros [Hl Hp]%andb_prop. change (lg_tree st') with (foldr quieten (lg_tree st) noisy).
    rewrite lookup_noisy. destruct (decide (seg :: parent ∈ noisy)) as [Hn|Hn].
    + exact (IH Hp).
    + destruct (lg_tree st !! (seg :: parent)) as [l|]; [|exact (IH Hp)].
      rewrite bool_decide_false in Hl by done. cbn in Hl. apply andb_prop in Hl as [Hpr Hh].
      destruct (lg_handlers l); [|done]. rewrite Hpr. exact (IH Hp).
Qed.

(** C40: But the lines of the web server keep its own format: uvicorn gives the logger
    "uvicorn" a handler and stops propagation there, and the loggers [configure_logging]
    opens are below it, so what they say reaches uvicorn's handler and never the
    service's. *)
Theorem server_lines_bypass_the_service_handler settings st st' l name
    (Hconf : configure_logging settings st = (st', Ok tt)) (Hname : name ∈ noisy)
    (Hl : lg_tree st !! ["uvicorn"] = Some l) (Hprop : lg_propagate l = false) :
  call_handlers st' name = lg_handlers l.
Proof.
  unfold configure_logging in Hconf. destruct (level_of _); [|done]. injection Hconf as <-.
  assert (∃ part, name = [part; "uvicorn"]) as [part ->].
  { apply elem_of_cons in Hname as [->|[->|Hn%not_elem_of_nil]%elem_of_cons]; [by eexists..|done]. }
  cbn [call_handlers lg_tree].
  change (quieten ["access"; "uvicorn"] (quieten ["error"; "uvicorn"] (lg_tree st)))
    with (foldr quieten (lg_tree st) noisy).
  rewrite !lookup_noisy, decide_True by done. cbn [lg_handlers lg_propagate].
  rewrite decide_False by (intros Hn; repeat (apply elem_of_cons in Hn as [Hn|Hn]; [done|]);
    by apply not_elem_of_nil in Hn).
  rewrite Hl, Hprop. by rewrite app_nil_r.
Qed.

(** ** A worker joins the service *)

Section joins.
Context {DB : Type} `{!Postgres DB} {R : Type} `{!Redis R}.
Context (py_str : JSON → string) (exn_repr : exn → string).

(** A worker started with settings that were accepted, on a host with a POSIX name, is
    one the other theorems are about: it may join the service at any moment, its loops
    take at least one row per turn, and its heartbeat is due before its lease ends. *)
Theorem accepted_settings_start_a_worker settings settings' hostname pid hex
    (s : Sys DB R) ps qs lost i
    (Hval : validate_settings settings = Ok settings')
    (Hhost : (str_len hostname ≤ 64)%nat) (Hpid : 0 ≤ pid < 2 ^ 31) (Hi : ps !! i = None)
    (p := run settings' hostname pid hex) :
  live_step py_str exn_repr (mk_live (mk_fleet s ps) qs lost)
    (mk_live (mk_fleet s (<[i := p]> ps)) qs lost) ∧
  pr_activation_batch p ≠ 0%nat ∧ pr_recovery_batch p ≠ 0%nat ∧
  (0 < job_heartbeat_seconds settings' < wk_lease (pr_wk p))%Q ∧
  wk_default_lease (pr_wk p) = wk_lease (pr_wk p).
Proof using Type.
  apply validated_bounds in Hval as (-> & H1 & H2 & H3 & H4). subst p. split; [|split; [|split]].
  - apply live_start; [done|]. by apply worker_id_fits.
  - cbn. lia.
  - cbn. lia.
  - by cbn.
Qed.
End joins.

(** ** Witnesses *)

Lemma worker_ids_tell_workers_apart_witness :
  build_worker_id "web-1" 7 "c0ffee00" ≠ build_worker_id "web" 17 "c0ffee00".
Proof.
  intros Heq. by destruct (worker_ids_tell_workers_apart "web-1" "web" 7 17 "c0ffee00" "c0ffee00"
    ltac:(lia) ltac:(lia) eq_refl eq_refl Heq) as [? _].
Defined.

Definition bare_loggers : Loggers :=
  {| lg_root := {| lg_handlers := []; lg_level := 30; lg_propagate := true |}; lg_tree := ∅ |}.

(** The tree uvicorn's default configuration leaves. *)
Definition uvicorn_logger : Logger :=
  {| lg_handlers := [{| hd_stream := "stderr"; hd_formatter := OtherFormatter "default" |}];
     lg_level := 20; lg_propagate := false |}.
Definition uvicorn_loggers : Loggers :=
  {| lg_root := lg_root bare_loggers; lg_tree := {[ ["uvicorn"] := uvicorn_logger ]} |}.

Lemma configured_records_go_out_once_witness :
  emit (configure_logging default_settings bare_loggers).1 ["runner"; "worker"] 20 =
    [service_handler default_settings].
Proof.
  pose proof (configured_records_go_out_once default_settings bare_loggers ["runner"; "worker"] 20
    eq_refl) as H.
  change (configure_logging default_settings bare_loggers) with
    ((configure_logging default_settings bare_loggers).1, (Ok tt : result exn unit)) in H.
  destruct H as (_ & _ & H). exact H.
Defined.

Lemma server_lines_bypass_the_service_handler_witness :
  call_handlers (configure_logging default_settings uvicorn_loggers).1 ["access"; "uvicorn"] =
    lg_handlers uvicorn_logger.
Proof.
  exact (server_lines_bypass_the_service_handler default_settings uvicorn_loggers _ uvicorn_logger
    ["access"; "uvicorn"] eq_refl (list_elem_of_here _ _) eq_refl eq_refl).
Defined.

Lemma accepted_settings_start_a_worker_witness :
  live_step (DB := MemDB) (R := MemRedis) no_text no_text live_empty
    (mk_live (mk_fleet s_empty {[ 0%nat := run default_settings "worker-7f9c" 42 "c0ffee00" ]}) ∅ ∅).
Proof.
  destruct (accepted_settings_start_a_worker (DB := MemDB) (R := MemRedis) no_text no_text
    default_settings default_settings "worker-7f9c" 42 "c0ffee00" s_empty ∅ ∅ ∅ 0%nat
    eq_refl ltac:(vm_compute; lia) ltac:(lia) eq_refl) as [H _].
  exact H.
Defined.
