(* ===== verification/Timing.v ===== *)
(** * Timing: a worker that runs on time keeps the job it executes

    The worker processes of [Fleet] with a clock.  The process that is watched leaves
    every await within a bound (the heartbeat's sleep within its interval and a delay,
    a call to a server within the delay, the exit of the heartbeat within its own
    bound), and of its beats no more than [misses] in a row fail to reach the database;
    nothing is assumed of the other processes but that the readings of [now()] their
    sweeps get do not run ahead of the events.  From that, and a lease that is long
    enough, follows what [Leases] assumes of an attempt. *)

From S2P Require Import Prelude.
From S2P Require Import Text.
From S2P Require Import Errors.
From S2P Require Import Model.
From S2P Require Import Postgres.
From S2P Require Import MemDB.
From S2P Require Import Session.
From S2P Require Import RetryPolicy.
From S2P Require Import Config.
From S2P Require Import Ownership.
From S2P Require Import Redis.
From S2P Require Import ReadyQueue.
From S2P Require Import Schemas.
From S2P Require Import Submission.
From S2P Require Import Mutations.
From S2P Require Import Fencing.
From S2P Require Import Recovery.
From S2P Require Import Lifecycle.
From S2P Require Import Leases.
From S2P Require Import Handlers.
From S2P Require Import Heartbeat.
From S2P Require Import Runner.
From S2P Require Import Process.
From S2P Require Import Fleet.
From Stdlib Require Import QArith.

Local Open Scope Z_scope.

(** ** What the watched process is waiting for *)

Inductive Leg := L_idle | L_remove | L_wait | L_beat | L_exit | L_settle.
#[export] Instance Leg_eq_dec : EqDecision Leg.
Proof. solve_decision. Defined.

(** While a handler runs, the heartbeat's await is the one that counts. *)
Definition leg (p : Process) : Leg :=
  match pr_runner p with
  | R_remove _ _ => L_remove
  | R_handler _ _ _ =>
      match h_pc (pr_heart p) with H_waiting => L_wait | H_beating => L_beat | _ => L_idle end
  | R_exit _ _ _ => L_exit
  | R_settle _ _ => L_settle
  | _ => L_idle
  end.

(** The clock's marks on the watched process: its latest claim or beat that reached the
    database, the begin of its present leg, and its beats lost since. *)
Record Watch := mk_watch { w_last : Z; w_since : Z; w_missed : nat }.

(** Bounds: the heartbeat's interval, the delay of an await, the exit of the heartbeat,
    how far ahead of the events the reading of a sweep may be, and the beats lost in a
    row. *)
Record Bounds := { b_interval : Z; b_delay : Z; b_exit : Z; b_skew : Z; b_misses : nat }.

Definition leg_bound (B : Bounds) (l : Leg) : Z :=
  match l with
  | L_remove | L_beat | L_settle => b_delay B
  | L_wait => b_interval B + b_delay B
  | L_exit => b_exit B
  | L_idle => 0
  end.

(** A beat, from the end of one sleep to the end of the next. *)
Definition period (B : Bounds) : Z := b_interval B + 2 * b_delay B.

(** The longest time between a beat that arrives and the settling write. *)
Definition reach (B : Bounds) : Z :=
  (Z.of_nat (b_misses B) + 1) * period B + 3 * b_delay B + b_exit B.

Definition bounds_ok (B : Bounds) : Prop := 0 ≤ b_interval B ∧ 0 ≤ b_delay B ∧ 0 ≤ b_exit B.

Definition in_time (B : Bounds) (W : Watch) (p : Process) (t : Z) : Prop :=
  leg p ≠ L_idle → t ≤ w_since W + leg_bound B (leg p).

(** Whether a step is a beat's call. *)
Definition is_call (actor : Actor) (p : Process) : bool :=
  bool_decide (actor = A_heart) && match h_pc (pr_heart p) with H_beating => true | _ => false end.

Definition watched (t : Z) (actor : Actor) (an : Answer) (p p' : Process) (W : Watch) : Watch :=
  {| w_last := if is_call actor p && negb (bool_decide (an_fault an = command_lost))
               then an_now an else w_last W;
     w_since := if decide (leg p' = leg p) then w_since W else t;
     w_missed := if is_call actor p
                 then if decide (an_fault an = command_lost) then S (w_missed W) else 0%nat
                 else w_missed W |}.

(** The readings of a step at [t]: a beat's [now()] falls in its call and not before the
    latest one, and not too many beats in a row are lost. *)
Definition own_clock (B : Bounds) (t : Z) (actor : Actor) (an : Answer) (p p' : Process)
    (W : Watch) : Prop :=
  is_call actor p = true →
    w_last W ≤ an_now an ≤ t ∧ (leg p = L_beat → w_since W ≤ an_now an) ∧
    (w_missed (watched t actor an p p' W) ≤ b_misses B)%nat.

Section timing.
Context {DB : Type} `{!Postgres DB} {R : Type} `{!Redis R}.
Context (py_str : JSON → string) (exn_repr : exn → string).
Context (i : nat) (a : Attempt) (B : Bounds).
Implicit Types (s : Sys DB R) (F : Fleet DB R) (ps : gmap nat Process) (W : Watch).

Abbreviation pstep := (process_step py_str exn_repr).
Abbreviation T s := (jobs_table (sys_db s)).

Definition on_time W ps (t : Z) : Prop := ∀ p, ps !! i = Some p → in_time B W p t.

(** A step of the fleet at time [t], process [i] being the one that executes [a]. *)
Inductive timed_step : Watch → Fleet DB R → Watch → Fleet DB R → Prop :=
  | timed_other W s s' ps t :
      on_time W ps t → others a s s' → timed_step W (mk_fleet s ps) W (mk_fleet s' ps)
  (** Another deployment's sweep. *)
  | timed_sweep W s ps t reading locked n db' res :
      on_time W ps t → reading ≤ t + b_skew B →
      run_session (recover_expired_leases reading locked n) (sys_db s) = (db', res) →
      timed_step W (mk_fleet s ps) W (mk_fleet (mk_sys db' (sys_redis s) (minted s)) ps)
  | timed_start W s ps j wk n m :
      ps !! j = None → varchar_ok 128 (wk_id wk) = true →
      timed_step W (mk_fleet s ps) W (mk_fleet s (<[j := start_process wk n m]> ps))
  | timed_signal W s ps j p :
      ps !! j = Some p → timed_step W (mk_fleet s ps) W (mk_fleet s (<[j := request_stop p]> ps))
  | timed_crash W s ps j : j ≠ i → timed_step W (mk_fleet s ps) W (mk_fleet s (delete j ps))
  | timed_process W s ps t j p actor an p' db' r' :
      on_time W ps t → ps !! j = Some p → mints actor an p ## minted s →
      pstep actor an p (sys_db s) (sys_redis s) = Some (p', db', r') →
      (actor = A_recovery → an_now an ≤ t + b_skew B) →
      (j = i → own_clock B t actor an p p' W) →
      timed_step W (mk_fleet s ps) (if decide (j = i) then watched t actor an p p' W else W)
        (mk_fleet (mk_sys db' r' (mints actor an p ∪ minted s)) (<[j := p']> ps)).

(** A step of process [i] itself. *)
Record own_step W F (t : Z) (actor : Actor) (an : Answer) (p p' : Process) (db' : DB) (r' : R)
    : Prop := {
  os_time : on_time W (fl_procs F) t;
  os_fresh : mints actor an p ## minted (fl_sys F);
  os_step : pstep actor an p (sys_db (fl_sys F)) (sys_redis (fl_sys F)) = Some (p', db', r');
  os_recovery : actor = A_recovery → an_now an ≤ t + b_skew B;
  os_clock : own_clock B t actor an p p' W
}.

(** Process [i] executes the attempt. *)
Definition executing F : Prop := ∃ p, fl_procs F !! i = Some p ∧ held_by p a.

(** A stretch of history in which it does. *)
Inductive lasting : Watch → Fleet DB R → Watch → Fleet DB R → Prop :=
  | lasting_now W F : lasting W F W F
  | lasting_next W F W1 F1 W2 F2 :
      lasting W F W1 F1 → timed_step W1 F1 W2 F2 → executing F2 → lasting W F W2 F2.

Lemma timed_fleet_step W F W' F' :
  timed_step W F W' F' →
  fleet_step py_str exn_repr F F'.
Proof using Type.
  destruct 1 as [W s s' ps t _ Ho|W s ps t reading locked n db' res _ _ Hr| | | |].
  - apply fleet_service. destruct Ho; [by eapply step_submit|by eapply step_claim|by eapply
      step_owner|
      by eapply step_activate|by eapply step_cancel|by eapply step_retry|by eapply step_redis].
  - apply fleet_service. by eapply step_recover.
  - by apply fleet_start.
  - by apply fleet_signal.
  - by apply fleet_crash.
  - by eapply fleet_process.
Qed.

(** Only a step of its own takes the attempt from the process. *)
Lemma timed_step_own W F W' F' p :
  timed_step W F W' F' → fl_procs F !! i = Some p → held_by p a →
  executing F' ∨
  ∃ t actor an p' db' r', own_step W F t actor an p p' db' r' ∧
    F' = mk_fleet (mk_sys db' r' (mints actor an p ∪ minted (fl_sys F))) (<[i := p']> (fl_procs F)).
Proof using Type.
  intros Hst Hp Ha. destruct Hst as [| |W s ps j wkj n m Hj _|W s ps j q Hj|W s ps j Hj|
    W s ps t j q actor an q' db' r' Ht Hj Hfresh Hst Hrec Hclock]; cbn [fl_procs] in Hp.
  - left. by exists p.
  - left. by exists p.
  - left. exists p. cbn. by rewrite lookup_insert_ne by congruence.
  - left. destruct (decide (j = i)) as [->|Hne]; [|exists p; cbn; by rewrite lookup_insert_ne].
    rewrite Hp in Hj. injection Hj as <-. exists (request_stop p). cbn. by rewrite lookup_insert_eq.
  - left. exists p. cbn. by rewrite lookup_delete_ne.
  - destruct (decide (j = i)) as [->|Hne]; [right|left; exists p; cbn; by rewrite lookup_insert_ne].
    rewrite Hp in Hj. injection Hj as <-. exists t, actor, an, q', db', r'.
    split; [by split; auto|done].
Qed.

(** ** The marks and the leg *)

(** How late the present leg can have begun. *)
Definition punctual_leg W (p : Process) : Prop :=
  let P := period B in
  match leg p with
  | L_remove => w_since W ≤ w_last W + b_delay B
  | L_wait => w_since W ≤ w_last W + 2 * b_delay B + Z.of_nat (w_missed W) * P
  | L_beat => w_since W ≤ w_last W + b_delay B + (Z.of_nat (w_missed W) + 1) * P
  | L_exit => w_since W ≤ w_last W + 2 * b_delay B + (Z.of_nat (b_misses B) + 1) * P
  | L_settle => w_since W ≤ w_last W + 2 * b_delay B + (Z.of_nat (b_misses B) + 1) * P + b_exit B
  | L_idle => False
  end ∧ (w_missed W ≤ b_misses B)%nat.

Lemma period_nonneg : bounds_ok B → 0 ≤ period B.
Proof using Type. unfold bounds_ok, period. lia. Qed.

Lemma misses_period m n : bounds_ok B → (m ≤ n)%nat →
  0 ≤ Z.of_nat m * period B ≤ Z.of_nat n * period B.
Proof using Type. intros HB. pose proof (period_nonneg HB). nia. Qed.

(** In time for the leg is in time for the lease. *)
Lemma leg_in_reach W p t :
  bounds_ok B → punctual_leg W p → in_time B W p t → t ≤ w_last W + reach B.
Proof using Type.
  intros HB [Hleg Hm] Ht. pose proof (misses_period _ _ HB Hm) as HP. pose proof (period_nonneg HB).
  unfold in_time, reach in *. destruct HB as (? & ? & ?). unfold period in *.
  destruct (leg p); try done; specialize (Ht ltac:(done)); cbn in Ht; nia.
Qed.

(** ** The watched process *)

Definition not_lost (res : result exn JSON) : Prop :=
  ∀ x y z, res ≠ Err (OwnershipLostError x y z).

(** What it relies on: no loss was signalled, and no handler makes one up. *)
Definition keeps (p : Process) : Prop :=
  h_lost (pr_heart p) = false ∧
  match pr_runner p with
  | R_remove job _ => countable (payload job)
  | R_handler _ _ q => not_lost (outcome q)
  | R_exit _ _ res => not_lost res
  | _ => True
  end.

(** The two places where it lets go of the attempt. *)
Definition lets_go (p : Process) (an : Answer) : Prop :=
  (∃ job c, pr_runner p = R_remove job c ∧ an_fault an ≠ no_fault) ∨
  ∃ v, pr_runner p = R_settle a v.

Context `{!PostgresLaws DB}.

(** What an own step that goes on with the attempt does to the database. *)
Definition own_effect (t : Z) W W' (wk : WorkerConfig) (actor : Actor) (an : Answer) (db db' : DB)
  : Prop :=
  (db' = db ∧ w_last W' = w_last W) ∨
  (∃ pct, db' = (owner_call (wk_default_lease wk) (an_now an) a (UpdateProgress pct) db).1 ∧
     w_last W' = w_last W) ∨
  (db' = (owner_call (wk_default_lease wk) (an_now an) a (ExtendLease (Some (wk_lease wk))) db).1 ∧
     w_last W' = an_now an ∧ an_now an ≤ t).

Lemma report_kept wk last f n t (db : DB) :
  holding a (wk_default_lease wk) (Some (wk_lease wk)) last (jobs_table db) →
  match report_call f a n t db with
  | (_, Ok _) => True
  | (_, Err e) => not_lost (Err e)
  end.
Proof using PostgresLaws0.
  intros (r & Hr & Hat & Hs & _). unfold report_call, report_progress.
  destruct (percentage n t) as [pct|]; [|by intros ???].
  destruct f; [|by intros ???..]. cbn.
  destruct (owner_call_hit 0%Q 0 a (UpdateProgress pct) db r I Hr Hat Hs) as (db' & Hu & _).
  cbn [owner_call] in Hu. by rewrite Hu.
Qed.

(** Redis answers a removal whose connection holds. *)
Lemma remove_refused f c (r r' : R) e : call f (remove c) r = (r', Err e) → f ≠ no_fault.
Proof using Type.
  intros Hc ->. cbn in Hc. unfold remove, REMOVE_SCRIPT in Hc. destruct (ZREM _ _ _).
  by simplify_eq.
Qed.

(** A step of the runner's coroutine. *)
Lemma own_runner_step W p t an pc h (db : DB) (r : R) db' r' :
  bounds_ok B → heart_ok (pr_runner p) (pr_heart p) → held_by p a → punctual_leg W p →
  in_time B W p t → keeps p →
  holding a (wk_default_lease (pr_wk p)) (Some (wk_lease (pr_wk p))) (w_last W) (jobs_table db) →
  runner_step py_str exn_repr (pr_wk p) an (pr_stop p) (pr_heart p) (pr_runner p) db r =
    Some (pc, h, db', r') →
  let p' := set_runner p pc h in
  let W' := watched t A_runner an p p' W in
  lets_go p an ∨
  (held_by p' a ∧ punctual_leg W' p' ∧ keeps p' ∧ own_effect t W W' (pr_wk p) A_runner an db db').
Proof using PostgresLaws0.
  intros HB Hh Ha Hleg Ht [Hl Hk] Hhold Hstep p' W'.
  assert (w_last W' = w_last W) as HW by done.
  assert (w_missed W' = w_missed W) as Hmiss by done.
  assert (w_since W' = if decide (leg p' = leg p) then w_since W else t) as Hsi by done.
  clearbody W'. unfold held_by, keeps, lets_go, own_effect, punctual_leg, in_time in *.
  rewrite HW, Hmiss, Hsi. subst p'. destruct Hleg as [Hleg Hm].
  pose proof (misses_period _ _ HB Hm) as HP. pose proof (period_nonneg HB) as HP0.
  assert (period B = b_interval B + 2 * b_delay B) as HPe by done. destruct HB as (? & ? & ?).
  unfold leg in *. cbn [pr_runner pr_heart set_runner] in *.
  destruct (pr_runner p) as [k|k c|k c|k c|job c|job b q|job b res|b v| |] eqn:Hpc; try done.
  - (* the claimed candidate is removed *)
    cbn [runner_step] in Hstep. destruct (call _ _ _) as [r1 [x|e]] eqn:Hc.
    2:{ left. left. exists job, c. split; [done|]. by eapply remove_refused. }
    right. cbn [holds_pc] in Ha. rewrite Ha in Hstep. unfold start_execution in Hstep.
    specialize (Ht ltac:(done)). cbn [leg_bound] in Ht.
    destruct (get_handler py_str (job_type job)) as [handler|] eqn:Hg; simplify_eq; cbn;
      rewrite decide_False by done.
    + split; [done|]. split; [by split; [lia|]|]. split; [|by left]. split; [done|].
      exact (proj2 (registered_handler_ends_properly py_str (job_type job) handler
        (job_context (pr_wk p) (an_random an) (an_hex an) job a) Hg Hk)).
    + split; [done|]. split; [by split; [lia|]|]. split; [by split|by left].
  - (* the handler runs *)
    cbn [runner_step holds_pc] in *. subst b. destruct q as [o|z q|n z q]; right.
    + simplify_eq. cbn. split; [done|].
      split; [|by split; [by split|left]]. split; [|done].
      destruct (h_pc (pr_heart p)); try done; rewrite decide_False by done;
        specialize (Ht ltac:(done)); cbn in Ht; lia.
    + simplify_eq. cbn. rewrite decide_True by done. split; [done|]. split; [by split|].
      split; [by split|by left].
    + pose proof (report_kept (pr_wk p) _ (an_fault an) n z db Hhold) as Hrep.
      pose proof (report_fst (wk_default_lease (pr_wk p)) (an_now an) (an_fault an) a n z db) as
        Hfst.
      destruct (report_call _ _ _ _ _) as [d [u|e]]; simplify_eq; cbn [fst] in Hfst;
        cbn [pr_runner pr_heart set_runner holds_pc]; rewrite decide_True by done; split;
          [done|..|done|];
        (split; [by split|]); (split; [by split|]); destruct Hfst as [->|[pct ->]];
        [by left|right; left; by exists pct|by left|right; left; by exists pct].
  - (* the heartbeat is left *)
    cbn [runner_step holds_pc] in *. subst b. destruct (h_pc (pr_heart p)) eqn:Hpc'; try done.
    simplify_eq. right. specialize (Ht ltac:(done)). cbn in Ht. unfold after_handler.
    assert (∃ v, match res with
      | Err (OwnershipLostError _ _ _) => next_cycle (pr_stop p)
      | Err (JobExecutionError m) => R_settle a (FailedWith m)
      | Err e => R_settle a (FailedWith ("unexpected error: " +:+ exn_repr e))
      | Ok res => R_settle a (Succeeded res)
      end = R_settle a v) as [v ->].
    { destruct res as [res|[]]; try (by eexists). by destruct (Hk job_id worker_id
        execution_token). }
    cbn. rewrite decide_False by done. split; [done|]. split; [by split; [lia|]|].
    split; [by split|by left].
  - left. right. cbn in Ha. subst b. by exists v.
Qed.

(** A beat of an attempt that holds its job never reports a loss. *)
Lemma beat_kept wk last now f (db : DB) :
  holding a (wk_default_lease wk) (Some (wk_lease wk)) last (jobs_table db) →
  beat (wk_default_lease wk) (Some (wk_lease wk)) a now f db =
    (if decide (f = command_lost) then db
     else (owner_call (wk_default_lease wk) now a (ExtendLease (Some (wk_lease wk))) db).1,
     false, true).
Proof using PostgresLaws0.
  intros (r & Hr & Hat & Hs & _).
  destruct (owner_call_hit (wk_default_lease wk) now a (ExtendLease (Some (wk_lease wk))) db r I Hr
    Hat Hs) as (db' & Hu & _). rewrite Hu. cbn [owner_call fst] in *. rewrite run_discard in Hu.
  unfold beat. destruct f; cbn; destruct (run_session _ db) as [d [x|e]]; by simplify_eq/=.
Qed.

(** A step of the heartbeat's coroutine. *)
Lemma own_heart_step W p t an h (db : DB) db' :
  bounds_ok B → heart_ok (pr_runner p) (pr_heart p) → beating_for (pr_runner p) = Some a →
  punctual_leg W p → in_time B W p t → keeps p →
  holding a (wk_default_lease (pr_wk p)) (Some (wk_lease (pr_wk p))) (w_last W) (jobs_table db) →
  heart_step (pr_wk p) an a (pr_heart p) db = Some (h, db') →
  let p' := set_runner p (pr_runner p) h in
  let W' := watched t A_heart an p p' W in
  own_clock B t A_heart an p p' W →
  punctual_leg W' p' ∧ keeps p' ∧ own_effect t W W' (pr_wk p) A_heart an db db'.
Proof using PostgresLaws0.
  intros HB Hh Hb [Hleg Hm] Ht [Hl Hk] Hhold Hstep p' W' Hclock.
  pose proof (misses_period _ _ HB Hm) as HP. pose proof (period_nonneg HB) as HP0.
  assert (period B = b_interval B + 2 * b_delay B) as HPe by done. pose proof HB as (? & ? & ?).
  assert (w_since W' = if decide (leg p' = leg p) then w_since W else t) as Hsi by done.
  unfold heart_step in Hstep. destruct (h_pc (pr_heart p)) eqn:Hpc; try done.
  - (* the sleep ends *)
    injection Hstep as <- <-.
    assert (w_last W' = w_last W ∧ w_missed W' = w_missed W) as [HW Hmiss]
      by (unfold W', watched, is_call; by rewrite Hpc, andb_false_r).
    clearbody W'. split; [|split; [by split|left; by split]]. split; [|by rewrite Hmiss].
    rewrite Hsi, HW, Hmiss. subst p'. unfold leg, in_time, leg in *.
    cbn [pr_runner pr_heart set_runner h_pc] in *.
    destruct (pr_runner p) as [| | | | |job b q|job b res| | |] eqn:Hr; try done.
    rewrite (ok_handler _ _ Hh _ _ _ eq_refl). cbn. rewrite decide_False by (by rewrite Hpc).
    rewrite Hpc in Ht, Hleg. specialize (Ht ltac:(done)). cbn in Ht. lia.
  - (* the call returns *)
    assert (is_call A_heart p = true) as Hcall by (unfold is_call; by rewrite Hpc).
    destruct (Hclock Hcall) as (Hnow & Hsince & Hmiss). fold W' in Hmiss.
    rewrite (beat_kept (pr_wk p) _ _ _ _ Hhold) in Hstep. injection Hstep as <- <-.
    assert (w_last W' = if decide (an_fault an = command_lost) then w_last W else an_now an) as HW
      by (unfold W', watched; rewrite Hcall; cbn; repeat case_decide; case_bool_decide; done).
    assert (w_missed W' = if decide (an_fault an = command_lost) then S (w_missed W) else 0%nat)
      as Hm'
      by (unfold W', watched; by rewrite Hcall).
    clearbody W'. split; [|split].
    + pose proof (misses_period _ _ HB Hmiss) as HP'. split; [|done].
      rewrite Hsi. clear Hsi Hclock. subst p'. unfold leg, in_time, leg in *.
      cbn [pr_runner pr_heart set_runner h_pc] in *.
      destruct (pr_runner p) as [| | | | |job b q|job b res| | |] eqn:Hr; try done.
      * rewrite (ok_handler _ _ Hh _ _ _ eq_refl). cbn. rewrite decide_False by (by rewrite Hpc).
        rewrite Hpc in Ht, Hleg, Hsince. specialize (Ht ltac:(done)). cbn in Ht.
        specialize (Hsince eq_refl). rewrite HW, Hm' in *. case_decide; lia.
      * rewrite decide_True by done. rewrite HW. case_decide; lia.
    + split; [|done]. subst p'. cbn. by rewrite Hl.
    + unfold own_effect. rewrite HW. case_decide; [by left|right; right].
      by split; [|split; [|lia]].
Qed.

(** ** The fleet around it *)

Section worker.
Context (wk : WorkerConfig) (HB : bounds_ok B).
Context (Hlease : reach B + b_skew B ≤ timedelta_seconds (wk_lease wk)).

Abbreviation held := (holding a (wk_default_lease wk) (Some (wk_lease wk))).
Abbreviation event := (Leases.event a (wk_default_lease wk) (Some (wk_lease wk)) (b_skew B)).

(** The watched process executes its attempt, on time, and the attempt holds the job. *)
Record healthy W F : Prop := {
  hl_process : ∃ p, fl_procs F !! i = Some p ∧ held_by p a ∧ pr_wk p = wk ∧ punctual_leg W p ∧
    keeps p;
  hl_held : held (w_last W) (T (fl_sys F));
  hl_wf : table_wf (T (fl_sys F));
  hl_ok : fleet_ok F
}.

(** The end of its execution: a step in which it lets go. *)
Definition left_by F F' : Prop :=
  ∃ p an p' db' r', fl_procs F !! i = Some p ∧ lets_go p an ∧
    pstep A_runner an p (sys_db (fl_sys F)) (sys_redis (fl_sys F)) = Some (p', db', r') ∧
    fl_sys F' = mk_sys db' r' (mints A_runner an p ∪ minted (fl_sys F)) ∧
    fl_procs F' = <[i := p']> (fl_procs F).

(** What another process does, and another loop of this one, is an event of [Leases]. *)
Lemma foreign_event s last t p an actor db' r' :
  store_effect s p an actor db' r' → varchar_ok 128 (wk_id (pr_wk p)) = true →
  mints actor an p ## minted s → (actor = A_recovery → an_now an ≤ t + b_skew B) →
  (∀ b, held_by p b → actor = A_runner ∨ actor = A_heart →
     at_execution_token b ≠ at_execution_token a) →
  event last s t last (mk_sys db' r' (mints actor an p ∪ minted s)).
Proof using Type.
  intros He Hw Hfresh Hclock Hb.
  assert (∀ x, x = ∅ → ∀ (d : DB) (r1 : R), mk_sys d r1 (x ∪ minted s) = mk_sys d r1 (minted s))
    as Hm.
  { intros x -> d r1. by rewrite (left_id_L ∅ (∪)). }
  destruct He as [actor r1 H|k c Hpc Hf|actor b dl c Hh Hact H|n|n].
  - rewrite (Hm _ H). apply event_other, others_redis.
  - assert (mints A_runner an p = {[an_token an]}) as Ht.
    { unfold mints. rewrite Hpc. by destruct (an_fault an). }
    rewrite Ht in *. destruct (run_session _ _) as [d res] eqn:Hrun. cbn [fst].
    apply event_other.
    eapply others_claim; [by apply disjoint_singleton_l|exact Hw|exact Hrun].
  - rewrite (Hm _ H). destruct (owner_call _ _ _ _ _) as [d res] eqn:Hrun. apply event_other.
    eapply others_call; [right; by apply Hb|exact Hrun].
  - rewrite (Hm _ eq_refl). destruct (run_session _ _) as [d res] eqn:Hrun.
    apply event_other. by eapply others_activate.
  - rewrite (Hm _ eq_refl). destruct (run_session _ _) as [d res] eqn:Hrun.
    eapply event_sweep; [by apply Hclock|exact Hrun].
Qed.

Lemma event_held W ps s s' p t t' last' :
  ps !! i = Some p → punctual_leg W p → on_time W ps t → t' ≤ t → table_wf (T s) →
  event (w_last W) s t' last' s' → held (w_last W) (T s) → held last' (T s').
Proof using Type HB Hlease PostgresLaws0 Redis0.
  intros Hp Hleg Ht Ht' Hwf He Hh. pose proof (leg_in_reach W p t HB Hleg (Ht p Hp)).
  assert (reach B + b_skew B ≤ lease_deadline (wk_default_lease wk) 0 (Some (wk_lease wk))) as Hl
    by (unfold lease_deadline; lia).
  refine (event_holding a _ _ (reach B) _ _ _ _ _ _ _ Hl Hwf He Hh). lia.
Qed.

(** An own step of the attempt keeps the job held. *)
Lemma own_effect_held W W' ps s p t actor an (db' : DB) (r' : R) ms :
  ps !! i = Some p → punctual_leg W p → on_time W ps t → table_wf (T s) →
  own_effect t W W' wk actor an (sys_db s) db' → held (w_last W) (T s) →
  held (w_last W') (T (mk_sys db' r' ms)).
Proof using Type HB Hlease PostgresLaws0 Redis0.
  intros Hp Hleg Ht Hwf [[-> ->]|[(pct & -> & ->)|(-> & -> & Hle)]] Hh; [exact Hh|..];
    destruct (owner_call _ _ _ _ _) as [d res] eqn:Hrun.
  - refine (event_held W ps s (mk_sys d (sys_redis s) (minted s)) p t t _ Hp Hleg Ht ltac:(lia)
      Hwf _ Hh).
    by eapply event_report.
  - refine (event_held W ps s (mk_sys d (sys_redis s) (minted s)) p t (an_now an) _ Hp Hleg Ht Hle
      Hwf _ Hh).
    by eapply event_beat.
Qed.

(** A step of its scheduler, its recovery loop or its main coroutine. *)
Lemma watched_elsewhere t actor an p p' W :
  actor ≠ A_heart → leg p' = leg p → watched t actor an p p' W = W.
Proof using Type.
  intros Ha Hl. unfold watched, is_call. rewrite bool_decide_false, decide_True by done.
  by destruct W.
Qed.

(** An own step: on with the attempt, or the attempt is let go. *)
Lemma watched_step W ps s t p actor an p' db' r' :
  healthy W (mk_fleet s ps) → on_time W ps t → ps !! i = Some p → mints actor an p ## minted s →
  pstep actor an p (sys_db s) (sys_redis s) = Some (p', db', r') →
  (actor = A_recovery → an_now an ≤ t + b_skew B) → own_clock B t actor an p p' W →
  let W' := watched t actor an p p' W in
  (actor = A_runner ∧ lets_go p an) ∨
  (held_by p' a ∧ pr_wk p' = wk ∧ punctual_leg W' p' ∧ keeps p' ∧
   held (w_last W') (T (mk_sys db' r' (mints actor an p ∪ minted s)))).
Proof using Type HB Hlease PostgresLaws0 Redis0.
  intros [(p0 & Hp0 & Ha & Hwk & Hleg & Hk) Hh Hwf Hok] Ht Hp Hfresh Hstep Hrec Hclock W'.
  cbn in Hp0, Hh, Hwf. rewrite Hp in Hp0. injection Hp0 as <-.
  destruct (fo_process _ Hok i p Hp) as [[Hheart _ _ _ _] Hw].
  assert (pr_wk p' = wk) as Hwk' by (rewrite <-Hwk; by eapply step_same_worker).
  assert (∀ p1, actor ≠ A_heart → actor ≠ A_runner → p' = p1 → pr_runner p1 = pr_runner p →
    h_lost (pr_heart p1) = h_lost (pr_heart p) → leg p1 = leg p →
    held_by p' a ∧ pr_wk p' = wk ∧ punctual_leg W' p' ∧ keeps p' ∧
    held (w_last W') (T (mk_sys db' r' (mints actor an p ∪ minted s)))) as Hother.
  { intros p1 Hn1 Hn2 -> Hr Hl Hg. unfold W'. rewrite watched_elsewhere by done.
    unfold held_by, punctual_leg, keeps. rewrite Hr, Hl, Hg. do 4 (split; [done|]).
    refine (event_held W ps s _ p t t _ Hp Hleg Ht (Z.le_refl t) Hwf _ Hh).
    eapply foreign_event; [by eapply process_step_effect|done..|]. intros b _ [?|?]; done. }
  assert (holding a (wk_default_lease (pr_wk p)) (Some (wk_lease (pr_wk p))) (w_last W) (T s)) as
    Hh'
    by (by rewrite Hwk).
  pose proof Hstep as Hst. destruct actor; cbn in Hstep.
  - destruct (runner_step _ _ _ _ _ _ _ _ _) as [[[[pc h] d] r1]|] eqn:H; [|done].
    injection Hstep as <- <- <-.
    destruct (own_runner_step W p t an pc h (sys_db s) (sys_redis s) d r1 HB Hheart Ha Hleg (Ht p
      Hp) Hk
      Hh' H) as [Hgo|(H1 & H2 & H3 & H4)]; [by left|right]. rewrite Hwk in H4.
    do 4 (split; [done|]). exact (own_effect_held W W' ps s p t _ an d r1 _ Hp Hleg Ht Hwf H4 Hh).
  - destruct (abandon_step _ _ _) as [[pc h]|] eqn:H; [|done]. exfalso.
    destruct Hk as [Hl _]. unfold abandon_step in H. rewrite Hl in H. by repeat case_match.
  - right. destruct (beating_for (pr_runner p)) as [b|] eqn:Hb; [|done].
    assert (b = a) as ->.
    { unfold held_by in Ha. destruct (pr_runner p); cbn in Hb, Ha; congruence. }
    destruct (heart_step _ _ _ _ _) as [[h d]|] eqn:H; [|done]. injection Hstep as <- <- <-.
    destruct (own_heart_step W p t an h (sys_db s) d HB Hheart Hb Hleg (Ht p Hp) Hk Hh' H Hclock)
      as (H1 & H2 & H3). rewrite Hwk in H3.
    do 4 (split; [done|]). exact (own_effect_held W W' ps s p t _ an d _ _ Hp Hleg Ht Hwf H3 Hh).
  - right. destruct (timeout_step _ _) as [h|] eqn:H; [|done]. injection Hstep as <- <- <-.
    unfold timeout_step in H. destruct (pr_runner p) eqn:Hr, (h_pc (pr_heart p)) eqn:Hpc; try done.
    injection H as <-. eapply Hother; [done..| |cbn; done|unfold leg; cbn; by rewrite Hr]. by cbn.
  - right. destruct (scheduler_step _ _ _ _ _ _) as [[[pc d] r1]|]; [|done].
    injection Hstep as <- <- <-. by eapply Hother.
  - right. destruct (recovery_step _ _ _ _ _) as [[pc d]|]; [|done]. injection Hstep as <- <- <-.
    by eapply Hother.
  - right. destruct (main_step _ _) as [[[? ?] ?]|]; [|done]. injection Hstep as <- <- <-.
    by eapply Hother.
Qed.

Lemma healthy_step W F W' F' :
  healthy W F → timed_step W F W' F' → healthy W' F' ∨ left_by F F'.
Proof using Type HB Hlease PostgresLaws0 Redis0.
  intros Hhl Hstep. pose proof Hhl as [(p & Hp & Ha & Hwk & Hleg & Hk) Hh Hwf Hok].
  pose proof (timed_fleet_step _ _ _ _ Hstep) as Hfs.
  pose proof (fleet_step_ok _ _ _ _ Hfs Hok) as Hok'.
  assert (table_wf (T (fl_sys F'))) as Hwf'.
  { destruct (fleet_step_refines _ _ _ _ Hok Hfs) as [->|Hs]; [done|].
    by eapply steps_wf; [apply rtc_once|]. }
  destruct Hstep as [W s s' ps t Ht Ho|W s ps t reading locked n db' res Ht Hrd Hr|W s ps j wkj n
    m Hj Hwj|
    W s ps j q Hj|W s ps j Hj|W s ps t j q actor an q' db' r' Ht Hj Hfresh Hst Hrec Hclock];
    cbn [fl_sys fl_procs] in *.
  - left. split; [by exists p| |done..].
    refine (event_held W ps s s' p t t _ Hp Hleg Ht (Z.le_refl t) Hwf _ Hh). by apply event_other.
  - left. split; [by exists p| |done..].
    refine (event_held W ps s _ p t t _ Hp Hleg Ht (Z.le_refl t) Hwf _ Hh). by eapply event_sweep.
  - left. split; [|done..]. exists p. cbn. by rewrite lookup_insert_ne by congruence.
  - left. split; [|done..]. destruct (decide (j = i)) as [->|Hne]; [|exists p; cbn;
      by rewrite lookup_insert_ne].
    rewrite Hp in Hj. injection Hj as <-. exists (request_stop p). cbn. by rewrite lookup_insert_eq.
  - left. split; [|done..]. exists p. cbn. by rewrite lookup_delete_ne.
  - case_decide as Hji.
    + subst j. rewrite Hp in Hj. injection Hj as <-.
      destruct (watched_step W ps s t p actor an q' db' r' Hhl Ht Hp Hfresh Hst Hrec (Hclock
        eq_refl))
        as [[-> Hgo]|(H1 & H2 & H3 & H4 & H5)].
      * right. by exists p, an, q', db', r'.
      * left. split; [|done..]. exists q'. cbn. by rewrite lookup_insert_eq.
    + left. destruct (fo_process _ Hok j q Hj) as [_ Hw].
      split; [exists p; cbn; by rewrite lookup_insert_ne| |done..].
      refine (event_held W ps s _ p t t _ Hp Hleg Ht (Z.le_refl t) Hwf _ Hh).
      eapply foreign_event; [by eapply process_step_effect|done..|]. intros b Hb _.
      exact (fo_distinct _ Hok j i q p b a Hji Hj Hp Hb Ha).
Qed.

Lemma lasting_healthy W F W' F' : healthy W F → lasting W F W' F' → healthy W' F'.
Proof using Type HB Hlease PostgresLaws0 Redis0.
  intros Hh Hl. induction Hl as [|W F W1 F1 W2 F2 Hl IH Hst (p & Hp & Ha)]; [done|].
  destruct (healthy_step _ _ _ _ (IH Hh) Hst)
    as [?|(q & an & q' & db' & r' & Hq & Hgo & Hs & _ & Hf)];
    [done|exfalso].
  rewrite Hf, lookup_insert_eq in Hp. injection Hp as ->. cbn in Hs.
  destruct (runner_step _ _ _ _ _ _ _ _ _) as [[[[pc h] d] r1]|] eqn:H; [|done].
  injection Hs as <- <- <-. unfold held_by in Ha. cbn in Ha.
  destruct Hgo as [(job & c & Hr & Hfl)|[v Hr]]; rewrite Hr in H; cbn in H.
  - destruct (an_fault an); [done|..]; cbn in H; by simplify_eq.
  - destruct (db_call _ _ _) as [d1 [|]]; simplify_eq; [|done].
    by destruct (next_cycle_cases (pr_stop q)) as [[_ Hc]|(_ & k & Hc)]; rewrite Hc in Ha.
Qed.
End worker.
End timing.

(** ** Properties *)

Section properties.
Context {DB : Type} `{!Postgres DB, !PostgresLaws DB} {R : Type} `{!Redis R}.
Context (py_str : JSON → string) (exn_repr : exn → string).

Abbreviation pstep := (process_step py_str exn_repr).
Abbreviation T s := (jobs_table (sys_db s)).

(** The mark after a claim that was answered at [t0]. *)
Definition claim_mark (an : Answer) (t0 : Z) : Watch := mk_watch (an_now an) t0 0.

(** After its claim the process is on its way. *)
Lemma claimed_healthy i a B wk F0 k c p0 an p1 db1 r1 job t0 :
  bounds_ok B → fleet_reachable py_str exn_repr F0 → fl_procs F0 !! i = Some p0 →
  pr_wk p0 = wk → pr_runner p0 = R_claim k c → mints A_runner an p0 ## minted (fl_sys F0) →
  pstep A_runner an p0 (sys_db (fl_sys F0)) (sys_redis (fl_sys F0)) = Some (p1, db1, r1) →
  pr_runner p1 = R_remove job c → attempt_of job = Ok a → countable (payload job) →
  t0 ≤ an_now an + b_delay B →
  healthy i a B wk (claim_mark an t0)
    (mk_fleet (mk_sys db1 r1 (mints A_runner an p0 ∪ minted (fl_sys F0))) (<[i := p1]> (fl_procs F0))).
Proof using PostgresLaws0.
  intros HB HF Hp0 Hwk Hpc Hfresh Hclaim Hwon Ha Hjob Ht0.
  pose proof (fleet_reachable_ok _ _ _ HF) as Hok0.
  destruct (fo_process _ Hok0 i p0 Hp0) as [[Hheart _ _ _ _] Hw]. rewrite Hwk in Hw.
  pose proof Hclaim as Hstep. cbn in Hstep. rewrite Hpc in Hstep. cbn in Hstep.
  rewrite Hwk in Hstep.
  unfold db_call in Hstep.
  destruct (an_fault an) eqn:Hf; cbn in Hstep;
    [|injection Hstep as <- _ _; by cbn in Hwon..].
  destruct (run_session _ _) as [d [[job'|]|e]] eqn:Hses; injection Hstep as <- <- <-; try done.
  cbn in Hwon. injection Hwon as ->.
  destruct (claimed_holding _ _ _ _ _ _ _ _ _ _ Hw Hses Ha) as [_ Hheld].
  set (F1 := mk_fleet _ _).
  assert (fleet_step py_str exn_repr F0 F1) as Hfs by (destruct F0 as [s0 ps0];
    by eapply fleet_process).
  split; [|exact Hheld| |by eapply fleet_step_ok].
  - eexists. unfold F1. cbn [fl_procs]. rewrite lookup_insert_eq. split; [done|].
    split; [exact Ha|]. split; [done|]. split; [split; [exact Ht0|cbn; lia]|]. split; [|done].
    cbn. by rewrite (ok_none _ _ Hheart) by (by rewrite Hpc).
  - apply reachable_wf, (fleet_reachable_service py_str exn_repr). destruct HF as (G & HG & Hs).
    exists G. split; [done|]. by eapply rtc_r.
Qed.

(** C3: A worker that runs on time settles what it claimed.  Let its awaits end within
    their bounds, its lost beats be few enough and the sweeps' readings close enough
    that all of it together fits into the lease.  Then from its claim on, whatever the
    rest of the fleet, the clients and Redis do, the job stays with its attempt as long
    as it executes it, and it never gives the attempt up as lost.  Only a step of its own
    takes the attempt from it, and every such step is one of two: the removal right
    after the claim, in which Redis failed, or the settling write, which is in the row
    afterwards unless the command was lost on its way to the database. *)
Theorem timely_worker_settles_its_attempt i a B wk F0 k c p0 an p1 db1 r1 job t0 W F
    (HB : bounds_ok B) (Hlease : reach B + b_skew B ≤ timedelta_seconds (wk_lease wk))
    (HF : fleet_reachable py_str exn_repr F0) (Hp0 : fl_procs F0 !! i = Some p0)
    (Hwk : pr_wk p0 = wk) (Hpc : pr_runner p0 = R_claim k c)
    (Hfresh : mints A_runner an p0 ## minted (fl_sys F0))
    (Hclaim : pstep A_runner an p0 (sys_db (fl_sys F0)) (sys_redis (fl_sys F0)) =
      Some (p1, db1, r1))
    (Hwon : pr_runner p1 = R_remove job c) (Ha : attempt_of job = Ok a)
    (Hjob : countable (payload job)) (Ht0 : t0 ≤ an_now an + b_delay B)
    (Hrun : lasting py_str exn_repr i a B (claim_mark an t0)
      (mk_fleet (mk_sys db1 r1 (mints A_runner an p0 ∪ minted (fl_sys F0)))
        (<[i := p1]> (fl_procs F0))) W F) :
  ∃ p r, fl_procs F !! i = Some p ∧ held_by p a ∧ h_lost (pr_heart p) = false ∧
    T (fl_sys F) !! at_job_id a = Some r ∧ attempt_of r = Ok a ∧ status r = PROCESSING ∧
    (∀ W' F', timed_step py_str exn_repr i a B W F W' F' →
       executing i a F' ∨
       ∃ t actor an' p' db' r', own_step py_str exn_repr i B W F t actor an' p p' db' r' ∧
         F' = mk_fleet (mk_sys db' r' (mints actor an' p ∪ minted (fl_sys F)))
                (<[i := p']> (fl_procs F))) ∧
    ∀ t actor an' p' db' r', own_step py_str exn_repr i B W F t actor an' p p' db' r' →
      held_by p' a ∨
      actor = A_runner ∧
      ((∃ job c, pr_runner p = R_remove job c ∧ an_fault an' ≠ no_fault) ∨
       ∃ v, pr_runner p = R_settle a v ∧
         (an_fault an' ≠ command_lost → jobs_table db' !! at_job_id a =
            Some (apply_values (call_values (wk_default_lease wk) (an_now an') a (verdict_call v))
              r))).
Proof using PostgresLaws0.
  pose proof (lasting_healthy _ _ i a B wk HB Hlease _ _ _ _
    (claimed_healthy i a B wk F0 k c p0 an p1 db1 r1 job t0 HB HF Hp0 Hwk Hpc Hfresh Hclaim Hwon Ha
      Hjob Ht0) Hrun) as Hh.
  pose proof Hh as [(p & Hp & Hpa & Hpw & Hleg & Hk) (r & Hr & Hat & Hs & Hd) Hwf Hok].
  exists p, r. do 2 (split; [done|]). split; [by apply Hk|]. do 3 (split; [done|]).
  split; [by intros; eapply timed_step_own|].
  intros t actor an' p' db' r' [Ht Hfr Hst Hrec Hclock]. destruct F as [s ps]. cbn in *.
  destruct (watched_step _ _ i a B wk HB Hlease W ps s t p actor an' p' db' r' Hh Ht Hp Hfr Hst Hrec
    Hclock) as [[-> Hgo]|[? _]]; [right|by left]. split; [done|].
  destruct Hgo as [?|[v Hv]]; [by left|right]. exists v. split; [done|]. intros Hfl.
  cbn in Hst. rewrite Hv in Hst. cbn in Hst.
  pose proof (db_call_fst (an_fault an') (settle (an_now an') a v) (sys_db s)) as Hfst.
  rewrite decide_False, (settle_fst (wk_default_lease wk)) in Hfst by done.
  destruct (db_call _ _ _) as [d1 res]. cbn [fst] in Hfst.
  assert (db' = d1) as -> by (by destruct res; simplify_eq). rewrite Hfst.
  destruct (owner_call_hit (wk_default_lease wk) (an_now an') a (verdict_call v) (sys_db s) r)
    as (db2 & Hu & Ht2); [|done..|].
  - apply attempt_of_spec in Hat as (_ & _ & _ & Hcnt & Hmax). destruct v; [done|]. cbn.
    rewrite Hcnt, Hmax. by destruct (wf_recoverable r (Hwf _ _ Hr) Hs) as (_ & _ & ?).
  - rewrite Hu. cbn [fst]. by rewrite Ht2, lookup_insert_eq.
Qed.
End properties.

(** ** Witness: the default settings, with delays of a second, outlast a lost beat *)

Definition default_bounds : Bounds :=
  {| b_interval := 20000000; b_delay := 1000000; b_exit := 6000000; b_skew := 2000000;
    b_misses := 1 |}.

Definition proc0 (F : Fleet MemDB MemRedis) : Process :=
  default (start_process demo_worker 10 10) (fl_procs F !! 0%nat).

Lemma lasting_advance a W F W1 F1 t actor an (p := proc0 F1) (p' := proc0 (advance 0 actor an F1)) :
  lasting no_text no_text 0 a default_bounds W F W1 F1 →
  is_Some (fl_procs F1 !! 0%nat) →
  is_Some (process_step no_text no_text actor an p (sys_db (fl_sys F1)) (sys_redis (fl_sys F1))) →
  mints actor an p = ∅ → actor ≠ A_recovery → in_time default_bounds W1 p t →
  own_clock default_bounds t actor an p p' W1 → held_by p' a →
  lasting no_text no_text 0 a default_bounds W F (watched t actor an p p' W1) (advance 0 actor an
    F1).
Proof.
  intros Hl [q Hq] [[[q' db'] r'] Hst] Hm Hrec Ht Hclock Ha.
  assert (p = q) as Hp by (unfold p, proc0; by rewrite Hq).
  assert (advance 0 actor an F1 = mk_fleet (mk_sys db' r' (mints actor an p ∪ minted (fl_sys F1)))
    (<[0%nat := q']> (fl_procs F1))) as HF.
  { unfold advance. rewrite Hq, <-Hp, Hst, decide_True; [done|]. rewrite Hm.
    apply disjoint_empty_l. }
  assert (p' = q') as Hp' by (unfold p', proc0; by rewrite HF; cbn; rewrite lookup_insert_eq).
  eapply lasting_next; [exact Hl| |].
  - rewrite HF. replace (watched t actor an p p' W1) with
      (if decide (0%nat = 0%nat) then watched t actor an p p' W1 else W1) by (by rewrite
        decide_True).
    rewrite Hp'. destruct F1 as [s ps]. eapply timed_process; [|by rewrite Hp;
      exact Hq| |exact Hst|done|].
    + intros p2 Hp2. assert (Some q = Some p2) as [= <-] by (etrans; [symmetry;
        exact Hq|exact Hp2]).
      by rewrite <-Hp.
    + rewrite Hm. apply disjoint_empty_l.
    + intros _. by rewrite <-Hp'.
  - exists p'. split; [|done]. rewrite HF, Hp'. apply lookup_insert_eq.
Qed.

Definition at_claim : Fleet MemDB MemRedis :=
  advance 0 A_runner (demo_answer no_fault 3000)
    (advance 0 A_runner (demo_answer no_fault 3000) demo_start).
Definition after_claim := advance 0 A_runner (demo_answer no_fault 3000) at_claim.
Definition demo_mark := claim_mark (demo_answer no_fault 3000) 3000.

Definition play (x : Z * Actor * Answer) (WF : Watch * Fleet MemDB MemRedis)
    : Watch * Fleet MemDB MemRedis :=
  let F' := advance 0 x.1.2 x.2 WF.2 in
  (watched x.1.1 x.1.2 x.2 (proc0 WF.2) (proc0 F') WF.1, F').

(** The entry is removed, the heartbeat wakes and its beat is lost, it wakes again and
    its beat arrives. *)
Definition played0 := (demo_mark, after_claim).
Definition played1 := play (3000, A_runner, demo_answer no_fault 3000) played0.
Definition played2 := play (20003000, A_heart, demo_answer no_fault 20003000) played1.
Definition played3 := play (20004000, A_heart, demo_answer command_lost 20004000) played2.
Definition played4 := play (41004000, A_heart, demo_answer no_fault 41004000) played3.
Definition played5 := play (41005000, A_heart, demo_answer no_fault 41005000) played4.

Abbreviation demo_lasts WF :=
  (lasting no_text no_text 0 demo_attempt default_bounds demo_mark after_claim WF.1 WF.2).

Lemma play_lasts x WF :
  demo_lasts WF → is_Some (fl_procs WF.2 !! 0%nat) →
  is_Some (process_step no_text no_text x.1.2 x.2 (proc0 WF.2) (sys_db (fl_sys WF.2))
    (sys_redis (fl_sys WF.2))) →
  mints x.1.2 x.2 (proc0 WF.2) = ∅ → x.1.2 ≠ A_recovery →
  in_time default_bounds WF.1 (proc0 WF.2) x.1.1 →
  own_clock default_bounds x.1.1 x.1.2 x.2 (proc0 WF.2) (proc0 (play x WF).2) WF.1 →
  held_by (proc0 (play x WF).2) demo_attempt → demo_lasts (play x WF).
Proof. intros. by apply lasting_advance. Qed.

(** Settle a condition of [play_lasts] on closed states. *)
Ltac timely :=
  vm_compute;
  first [ eexists; reflexivity | reflexivity | intros; discriminate
        | intros _; repeat match goal with |- _ ∧ _ => split end;
          first [intros; discriminate | lia] ].

Lemma played1_lasts : demo_lasts played1.
Proof. apply (play_lasts (3000, A_runner, demo_answer no_fault 3000) played0);
  [apply lasting_now|timely..]. Qed.
Lemma played2_lasts : demo_lasts played2.
Proof. apply (play_lasts (20003000, A_heart, demo_answer no_fault 20003000) played1);
  [apply played1_lasts|timely..]. Qed.
Lemma played3_lasts : demo_lasts played3.
Proof. apply (play_lasts (20004000, A_heart, demo_answer command_lost 20004000) played2);
  [apply played2_lasts|timely..]. Qed.
Lemma played4_lasts : demo_lasts played4.
Proof. apply (play_lasts (41004000, A_heart, demo_answer no_fault 41004000) played3);
  [apply played3_lasts|timely..]. Qed.
Lemma played5_lasts : demo_lasts played5.
Proof. apply (play_lasts (41005000, A_heart, demo_answer no_fault 41005000) played4);
  [apply played4_lasts|timely..]. Qed.

Definition demo_claimed : Job :=
  match pr_runner (proc0 after_claim) with R_remove job _ => job | _ => demo_pending end.
Definition demo_candidate : QueueCandidate :=
  match pr_runner (proc0 at_claim) with R_claim _ c => c | _ => MkCandidate 0 "" 0 end.

Lemma at_claim_reachable : fleet_reachable no_text no_text at_claim.
Proof. do 2 apply advance_reachable. apply demo_start_reachable. Qed.

Lemma timely_worker_settles_its_attempt_witness :
  ∃ p r, fl_procs played5.2 !! 0%nat = Some p ∧ held_by p demo_attempt ∧ h_lost (pr_heart p) =
    false ∧
    jobs_table (sys_db (fl_sys played5.2)) !! 11 = Some r ∧ status r = PROCESSING.
Proof.
  assert (is_Some (fl_procs at_claim !! 0%nat)) as [p0 Hp0] by (vm_compute; eexists; reflexivity).
  assert (proc0 at_claim = p0) as Hp by (unfold proc0; by rewrite Hp0).
  assert (is_Some (process_step no_text no_text A_runner (demo_answer no_fault 3000) (proc0
    at_claim)
    (sys_db (fl_sys at_claim)) (sys_redis (fl_sys at_claim)))) as [[[p1 db1] r1] Hst]
    by (vm_compute; eexists; reflexivity).
  assert (mints A_runner (demo_answer no_fault 3000) (proc0 at_claim) ## minted (fl_sys at_claim))
    as Hm.
  { assert (mints A_runner (demo_answer no_fault 3000) (proc0 at_claim) = {[77]}) as ->
      by (vm_compute; reflexivity).
    assert (minted (fl_sys at_claim) = ∅) as -> by (vm_compute; reflexivity).
    apply disjoint_empty_r. }
  assert (after_claim = mk_fleet (mk_sys db1 r1 (mints A_runner (demo_answer no_fault 3000) p0 ∪
    minted (fl_sys at_claim))) (<[0%nat := p1]> (fl_procs at_claim))) as HF.
  { unfold after_claim, advance at 1. rewrite Hp0, <-Hp, Hst, decide_True by exact Hm.
    reflexivity. }
  assert (p1 = proc0 after_claim) as Hp1 by (unfold proc0; by rewrite HF; cbn;
    rewrite lookup_insert_eq).
  rewrite Hp in Hst, Hm.
  destruct (timely_worker_settles_its_attempt no_text no_text 0 demo_attempt default_bounds
    demo_worker
    at_claim 9 demo_candidate p0 (demo_answer no_fault 3000) p1 db1 r1 demo_claimed 3000 played5.1
      played5.2)
    as (p & r & H1 & H2 & H3 & H4 & _ & H5 & _).
  - vm_compute. repeat split; discriminate.
  - vm_compute. discriminate.
  - exact at_claim_reachable.
  - exact Hp0.
  - rewrite <-Hp. vm_compute. reflexivity.
  - rewrite <-Hp. vm_compute. reflexivity.
  - exact Hm.
  - exact Hst.
  - rewrite Hp1. vm_compute. reflexivity.
  - vm_compute. reflexivity.
  - intros v n Hv. assert (payload demo_claimed = req_payload demo_request) as Hq by (vm_compute;
      reflexivity).
    rewrite Hq in Hv. discriminate Hv.
  - cbn. lia.
  - rewrite <-HF. exact played5_lasts.
  - exists p, r. by do 4 (split; [assumption|]).
Defined.
