(* ===== verification/Replay.v ===== *)
(** * Replay: the cycles of [Runner] and [Scheduler] are runs of [Process]

    [Runner.run_once] and [Scheduler.scheduler_run_once] compute a whole cycle from
    what happens at its awaits; [Process] takes one await at a time.  Every cycle is
    replayed here as steps of the process, signals, and acts of the rest of the
    system between them. *)

From S2P Require Import Prelude.
From S2P Require Import Text.
From S2P Require Import Errors.
From S2P Require Import Model.
From S2P Require Import Postgres.
From S2P Require Import MemDB.
From S2P Require Import Session.
From S2P Require Import RetryPolicy.
From S2P Require Import Config.
From S2P Require Import Ownership.
From S2P Require Import Redis.
From S2P Require Import ReadyQueue.
From S2P Require Import Fencing.
From S2P Require Import Handlers.
From S2P Require Import Heartbeat.
From S2P Require Import Runner.
From S2P Require Import Scheduler.
From S2P Require Import Process.
From Stdlib Require Import QArith.

Local Open Scope Z_scope.

Section replay.
Context {DB : Type} `{!Postgres DB} {R : Type} `{!Redis R}.
Context (py_str : JSON → string) (exn_repr : exn → string).
(** What the rest of the system may do at an await. *)
Context (G : relation (DB * R)).
Implicit Types (db : DB) (r : R) (p : Process).

Abbreviation pstep := (process_step py_str exn_repr).

Inductive replay : relation (Process * (DB * R)) :=
  | replay_own actor an p db r p' db' r' :
      pstep actor an p db r = Some (p', db', r') → replay (p, (db, r)) (p', (db', r'))
  | replay_other p w w' : G w w' → replay (p, w) (p, w')
  | replay_signal p w : replay (p, w) (request_stop p, w).

(** The acts of others in a slice, and in a cycle, are among [G]. *)
Definition slice_within (s : Slice DB) : Prop :=
  (∀ b db r, b ∈ sl_beats s → G (db, r) (bt_others b db, r)) ∧
  (∀ db r, G (db, r) (sl_others s db, r)).

Record cycle_within (cy : Cycle DB R) : Prop := {
  cw_claim w : G w (cy_before_claim cy w);
  cw_read w : G w (cy_before_read cy w);
  cw_remove w : G w (cy_before_remove cy w);
  cw_slices : Forall slice_within (cy_slices cy)
}.

Definition answer (f : fault) (now : Z) (tok : uuid) (random : nat → Q) (hex : string) : Answer :=
  {| an_fault := f; an_now := now; an_token := tok; an_random := random; an_hex := hex;
     an_locked := ∅ |}.
Definition answer_of (f : fault) (now : Z) : Answer := answer f now 0 (λ _, 0%Q) "".

Definition stopped_as (stop : bool) (p : Process) : Process :=
  if stop then request_stop p else p.

Lemma own_step actor an p db r p' db' r' c :
  pstep actor an p db r = Some (p', db', r') → rtc replay (p', (db', r')) c →
  rtc replay (p, (db, r)) c.
Proof using Type. intros H Hc. eapply rtc_l; [by eapply replay_own|exact Hc]. Qed.

Lemma other_step p w w' c : G w w' → rtc replay (p, w') c → rtc replay (p, w) c.
Proof using Type. intros H Hc. eapply rtc_l; [by eapply replay_other|exact Hc]. Qed.

(** A signal, if there is one, arrives before the step. *)
Lemma signalled_step stop actor an p db r p' db' r' c :
  pstep actor an (stopped_as stop p) db r = Some (p', db', r') → rtc replay (p', (db', r')) c →
  rtc replay (p, (db, r)) c.
Proof using Type.
  intros H Hc. destruct stop; [|by eapply own_step].
  eapply rtc_l; [apply replay_signal|]. by eapply own_step.
Qed.

(** ** The heartbeat and the handler *)

Definition signalling : Heart := mk_heart H_ended false true.

(** The beats of a slice: the heartbeat waits again, or it has reported the loss. *)
Lemma replay_beats p job a q bs db r db' lost :
  (∀ b db r, b ∈ bs → G (db, r) (bt_others b db, r)) →
  heartbeat_run (wk_default_lease (pr_wk p)) (Some (wk_lease (pr_wk p))) a (beat_tick <$> bs) db =
    (db', lost) →
  rtc replay (set_runner p (R_handler job a q) heart_enter, (db, r))
    (set_runner p (R_handler job a q) (if lost then signalling else heart_enter), (db', r)).
Proof using Type.
  intros HG. revert db. induction bs as [|b bs IH]; intros db Hrun; cbn in Hrun.
  { simplify_eq. apply rtc_refl. }
  destruct (beat _ _ _ _ _ _) as [[d lost1] go] eqn:Hb. apply beat_go_on in Hb as Hgo. subst go.
  apply (own_step A_heart (answer_of no_fault 0) _ _ _
    (set_runner p (R_handler job a q) (mk_heart H_beating false false)) db r); [done|].
  eapply other_step; [apply HG; by left|].
  apply (own_step A_heart (answer_of (bt_fault b) (bt_now b)) _ _ _
    (set_runner p (R_handler job a q) (if lost1 then signalling else heart_enter)) d r).
  { cbn. unfold heart_step. cbn. rewrite Hb. by destruct lost1. }
  destruct lost1; cbn in Hrun.
  - simplify_eq. apply rtc_refl.
  - apply IH; [intros b' d' r1 Hb'; apply HG; by right|done].
Qed.

(** A handler runs to its outcome, or its heartbeat has signalled the loss. *)
Lemma replay_handler p job a slices q db r db' res :
  Forall slice_within slices → run_handler (pr_wk p) a slices q db = (db', res) →
  (rtc replay (set_runner p (R_handler job a q) heart_enter, (db, r))
     (set_runner p (R_handler job a (Done res)) heart_enter, (db', r))) ∨
  (res = Err (lost_exn a) ∧ ∃ t q', rtc replay (set_runner p (R_handler job a q) heart_enter, (db, r))
     (set_runner p (R_handler job a (Sleep t q')) signalling, (db', r))).
Proof using Type.
  revert slices db. induction q as [o|t q IH|n t q IH]; intros slices db Hs Hrun; cbn in Hrun.
  - simplify_eq. left. apply rtc_refl.
  - assert (∀ d, pstep A_runner (answer_of no_fault 0) (set_runner p (R_handler job a (Sleep t q))
      heart_enter) d r = Some (set_runner p (R_handler job a q) heart_enter, d, r)) as Hwake by done.
    destruct Hs as [|s slices [Hsb Hso] Hs].
    { destruct (IH [] db) as [H|(-> & t' & q' & H)]; [constructor|done|left|right; split; [done|exists t', q']];
        by (eapply own_step; [apply Hwake|]). }
    destruct (heartbeat_run _ _ _ _ _) as [d lost] eqn:Hhb.
    pose proof (replay_beats p job a (Sleep t q) _ db r d lost Hsb Hhb) as Hbeats.
    destruct lost; simplify_eq; [right; split; [done|by exists t, q]|].
    destruct (IH slices (sl_others s d) Hs Hrun) as [H|(-> & t' & q' & H)];
      [left|right; split; [done|exists t', q']];
      (etrans; [exact Hbeats|]); (eapply other_step; [apply Hso|]); by (eapply own_step; [apply Hwake|]).
  - assert (∀ d x, report_progress a n t db = (d, x) → pstep A_runner (answer_of no_fault 0)
      (set_runner p (R_handler job a (Report n t q)) heart_enter) db r =
      Some (set_runner p (R_handler job a (match x with Ok _ => q | Err e => Done (Err e) end))
        heart_enter, d, r)) as Hrep.
    { intros d x Hx. cbn. unfold report_call, db_call. cbn. rewrite Hx.
      destruct (percentage n t), x; done. }
    destruct (report_progress a n t db) as [d [u|e]] eqn:Hr.
    + destruct (IH slices d Hs Hrun) as [H|(-> & t' & q' & H)];
        [left|right; split; [done|exists t', q']]; by (eapply own_step; [by apply Hrep|]).
    + simplify_eq. left. eapply own_step; [by apply Hrep|]. apply rtc_refl.
Qed.

(** ** The attempt *)

Definition ended : Heart := mk_heart H_ended true false.

(** Where an execution leaves the process, which may have been told to stop meanwhile. *)
Definition finished (stop : bool) (p : Process) (res : result exn unit) : Process :=
  set_runner (stopped_as stop p)
    (match res with Ok _ => next_cycle (pr_stop (stopped_as stop p)) | Err _ => R_sleep end) no_heart.

Lemma replay_settle p stop a v now db r db' res :
  settle now a v db = (db', res) →
  rtc replay (set_runner p (R_settle a v) no_heart, (db, r)) (finished stop p res, (db', r)).
Proof using Type.
  intros Hs. eapply (signalled_step stop A_runner (answer_of no_fault now)); [|apply rtc_refl].
  unfold finished. destruct stop; cbn; rewrite Hs; by destruct res.
Qed.

(** The handler's end: the heartbeat is told to stop and waited for, and the outcome
    is written. *)
Lemma replay_exit p stop job a o now db r db' res :
  match o with
  | Err (OwnershipLostError _ _ _) => (db, Ok tt)
  | Err (JobExecutionError m) => settle_failure now a m db
  | Err e => settle_failure now a ("unexpected error: " +:+ exn_repr e) db
  | Ok v => settle_success now a v db
  end = (db', res) →
  rtc replay (set_runner p (R_handler job a (Done o)) heart_enter, (db, r))
    (finished stop p res, (db', r)).
Proof using Type.
  intros Hset.
  apply (own_step A_runner (answer_of no_fault 0) _ _ _
    (set_runner p (R_exit job a o) (heart_exit heart_enter)) db r); [done|].
  apply (own_step A_heart (answer_of no_fault 0) _ _ _ (set_runner p (R_exit job a o) ended) db r);
    [done|].
  assert (∀ v, after_handler exn_repr (pr_stop p) a o = R_settle a v → settle now a v db = (db', res) →
    rtc replay (set_runner p (R_exit job a o) ended, (db, r)) (finished stop p res, (db', r))) as Hv.
  { intros v Hv Hs. eapply (own_step A_runner (answer_of no_fault 0)); [|by apply (replay_settle p stop a v now)].
    cbn. rewrite Hv. done. }
  destruct o as [v|[]]; try (by apply (Hv (Succeeded v))); try (by eapply (Hv (FailedWith _))).
  simplify_eq.
  eapply (signalled_step stop A_runner (answer_of no_fault 0)); [|apply rtc_refl]. by destruct stop.
Qed.

Lemma replay_execute p cy an stop job a db r db' res :
  cycle_within cy → an_random an = cy_random cy → an_hex an = cy_hex cy →
  execute py_str exn_repr (pr_wk p) cy job a db = (db', res) →
  rtc replay (set_runner p (start_execution py_str (pr_wk p) an job a).1
                (start_execution py_str (pr_wk p) an job a).2, (db, r))
    (finished stop p res, (db', r)).
Proof using Type.
  intros Hcy Hran Hhex Hex. unfold execute in Hex. unfold start_execution. rewrite Hran, Hhex.
  destruct (get_handler py_str (job_type job)) as [handler|]; cbn [fst snd];
    [|by eapply (replay_settle p stop a (FailedWith _) (cy_settle_now cy))].
  destruct (run_handler _ _ _ _ _) as [d o] eqn:Hrun.
  apply (replay_handler p job a _ _ db r) in Hrun as [H|(-> & t & q & H)]; [| |apply Hcy].
  - etrans; [exact H|]. eapply replay_exit. exact Hex.
  - cbn in Hex. simplify_eq. etrans; [exact H|].
    eapply (signalled_step stop A_abandon (answer_of no_fault 0)); [|apply rtc_refl]. by destruct stop.
Qed.

(** ** One pass of the candidate loop *)

(** Where a pass leaves the process: [k] passes are left if it goes on. *)
Definition passed (stop : bool) (p : Process) (k : nat) (res : result exn (option bool)) : Process :=
  set_runner (stopped_as stop p)
    (match res with
     | Ok None => next_candidate (pr_stop (stopped_as stop p)) k
     | Ok (Some true) => next_cycle (pr_stop (stopped_as stop p))
     | _ => R_sleep
     end) no_heart.

(** Putting the observed entry away after a claim, and running the attempt. *)
Lemma replay_claimed p cy k c stop job w db' r' res :
  pr_stop p = false → cycle_within cy →
  (let '(db, r) := cy_before_remove cy w in
   match call (cy_remove cy) (remove c) r with
   | (r, Err e) => (db, r, Err e)
   | (r, Ok _) =>
       match attempt_of job with
       | Err e => (db, r, Err e)
       | Ok a => match execute py_str exn_repr (pr_wk p) cy job a db with
                 | (db, Err e) => (db, r, Err e)
                 | (db, Ok _) => (db, r, Ok (Some true))
                 end
       end
   end) = (db', r', res) →
  rtc replay (set_runner p (R_remove job c) no_heart, w) (passed stop p k res, (db', r')).
Proof using Type.
  intros Hst Hcy Hrun. eapply other_step; [apply (cw_remove _ Hcy)|].
  destruct (cy_before_remove cy w) as [db r].
  destruct (call (cy_remove cy) (remove c) r) as [r1 [b|e]] eqn:Hrem.
  2:{ simplify_eq. eapply (signalled_step stop A_runner (answer_of (cy_remove cy) 0)); [|apply rtc_refl].
      destruct stop; cbn; by rewrite Hrem. }
  destruct (attempt_of job) as [a|e] eqn:Ha.
  2:{ simplify_eq. eapply (signalled_step stop A_runner (answer_of (cy_remove cy) 0)); [|apply rtc_refl].
      destruct stop; cbn; by rewrite Hrem, Ha. }
  set (an := answer (cy_remove cy) 0 0 (cy_random cy) (cy_hex cy)).
  destruct (execute _ _ _ _ _ _ _) as [d x] eqn:Hex.
  apply (own_step A_runner an _ _ _ (set_runner p (start_execution py_str (pr_wk p) an job a).1
    (start_execution py_str (pr_wk p) an job a).2) db r1).
  { cbn. rewrite Hrem, Ha. by destruct (start_execution _ _ _ _ _). }
  etrans; [by eapply (replay_execute p cy an stop job a)|].
  unfold finished, passed. destruct x; simplify_eq; apply rtc_refl.
Qed.

(** Looking up a candidate that could not be claimed. *)
Lemma replay_discard p cy k c stop w db' r' res :
  pr_stop p = false → cycle_within cy →
  match discard_unclaimable cy c w with
  | (db, r, Err e) => (db, r, Err e)
  | (db, r, Ok _) => (db, r, Ok None)
  end = (db', r', res) →
  rtc replay (set_runner p (R_lookup k c) no_heart, w) (passed stop p k res, (db', r')).
Proof using Type.
  intros Hst Hcy Hrun. unfold discard_unclaimable in Hrun.
  eapply other_step; [apply (cw_read _ Hcy)|]. destruct (cy_before_read cy w) as [db r].
  destruct (run_session (get_job (qc_job_id c)) db) as [d [job|e]] eqn:Hget.
  2:{ by simplify_eq. }
  destruct (still_claimable job) eqn:Hc.
  { simplify_eq. eapply (signalled_step stop A_runner (answer_of no_fault 0)); [|apply rtc_refl].
    destruct stop; cbn -[run_session]; by rewrite Hget, Hc. }
  apply (own_step A_runner (answer_of no_fault 0) _ _ _ (set_runner p (R_discard k c) no_heart) d r).
  { cbn -[run_session]. by rewrite Hget, Hc. }
  eapply other_step; [apply (cw_remove _ Hcy)|]. destruct (cy_before_remove cy (d, r)) as [d1 r1].
  destruct (call (cy_remove cy) (remove c) r1) as [r2 x] eqn:Hrem.
  eapply (signalled_step stop A_runner (answer_of (cy_remove cy) 0)); [|apply rtc_refl].
  destruct stop; cbn; rewrite Hrem; by destruct x; simplify_eq.
Qed.

Lemma replay_candidate p cy k stop db r db' r' res :
  pr_stop p = false → cycle_within cy → cy_stopped_before_peek cy = false →
  run_candidate py_str exn_repr (pr_wk p) cy (db, r) = (db', r', res) →
  ∃ stop', (stop' = stop ∨ res = Ok (Some false)) ∧
    rtc replay (set_runner p (R_peek k) no_heart, (db, r)) (passed stop' p k res, (db', r')).
Proof using Type.
  intros Hst Hcy H1 Hrun. unfold run_candidate in Hrun. rewrite H1 in Hrun.
  destruct (call (cy_peek cy) _ r) as [r1 [[c|]|e]] eqn:Hpeek.
  2,3: exists stop; split; [by left|]; simplify_eq;
    eapply (signalled_step stop A_runner (answer_of (cy_peek cy) 0)); [|apply rtc_refl];
    destruct stop; cbn; by rewrite Hpeek.
  assert (∀ s2, pstep A_runner (answer_of (cy_peek cy) 0)
    (stopped_as s2 (set_runner p (R_peek k) no_heart)) db r =
    Some (set_runner (stopped_as s2 p) (if s2 then R_sleep else R_claim k c) no_heart, db, r1)) as Hseen.
  { intros []; cbn; rewrite Hpeek; [done|]. by rewrite Hst. }
  destruct (cy_stopped_before_claim cy).
  { simplify_eq. exists true. split; [by right|].
    eapply (signalled_step true); [apply Hseen|apply rtc_refl]. }
  exists stop. split; [by left|]. eapply own_step; [apply (Hseen false)|].
  eapply other_step; [apply (cw_claim _ Hcy)|]. destruct (cy_before_claim cy (db, r1)) as [d rd].
  set (an := answer no_fault (cy_now cy) (cy_token cy) (λ _, 0%Q) "").
  destruct (run_session (claim_job _ _ _ _ _ _) d) as [d1 [[job|]|e]] eqn:Hclaim.
  - eapply (own_step A_runner an); [cbn; by rewrite Hclaim|].
    by eapply (replay_claimed p cy k c stop job).
  - eapply (own_step A_runner an); [cbn; by rewrite Hclaim|]. by apply (replay_discard p cy).
  - simplify_eq. eapply (signalled_step stop A_runner an); [|apply rtc_refl].
    destruct stop; cbn; by rewrite Hclaim.
Qed.

(** ** The cycle *)

Definition cycled (stop : bool) (p : Process) (res : result exn bool) : Process :=
  set_runner (stopped_as stop p)
    (match res with Ok true => next_cycle (pr_stop (stopped_as stop p)) | _ => R_sleep end) no_heart.

Lemma replay_candidates p cycles fuel k db r db' r' res :
  pr_stop p = false → (∀ i, cycle_within (cycles i)) →
  run_candidates py_str exn_repr (pr_wk p) cycles fuel k (db, r) = (db', r', res) →
  let stop := cy_stopped_before_peek (cycles k) in
  ∃ stop', rtc replay (set_runner (stopped_as stop p) (next_candidate stop fuel) no_heart, (db, r))
    (cycled stop' p res, (db', r')).
Proof using Type.
  intros Hst Hcy. revert k db r. induction fuel as [|fuel IH]; intros k db r Hrun stop;
    cbn [run_candidates] in Hrun.
  { cbn in Hrun. simplify_eq. exists stop. apply rtc_refl. }
  destruct stop eqn:Hs; subst stop.
  { exists true. unfold run_candidate in Hrun. rewrite Hs in Hrun. simplify_eq. apply rtc_refl. }
  destruct (run_candidate py_str exn_repr (pr_wk p) (cycles k) (db, r)) as [[d1 r1] x] eqn:Hc.
  destruct (replay_candidate p (cycles k) fuel (cy_stopped_before_peek (cycles (S k))) db r d1 r1 x)
    as (s2 & Hs2 & Hpath); [done..|]. cbn [stopped_as next_candidate].
  destruct x as [[b|]|e].
  - simplify_eq. exists s2. by destruct b.
  - destruct Hs2 as [->|]; [|done]. destruct (IH (S k) d1 r1 Hrun) as (s3 & H3). exists s3.
    etrans; [exact Hpath|]. unfold passed.
    replace (pr_stop (stopped_as (cy_stopped_before_peek (cycles (S k))) p))
      with (cy_stopped_before_peek (cycles (S k))); [exact H3|].
    by destruct (cy_stopped_before_peek (cycles (S k))).
  - simplify_eq. exists s2. exact Hpath.
Qed.

(** A cycle of the runner, with whatever its awaits let happen, is a run of the
    process from the head of the candidate loop to the end of the cycle: what
    [Runner] computes in one go, the process does step by step. *)
Theorem run_once_is_a_run p cycles db r db' r' res
    (Hst : pr_stop p = false) (Hcy : ∀ i, cycle_within (cycles i))
    (Hrun : run_once py_str exn_repr (pr_wk p) cycles (db, r) = (db', r', res))
    (stop := cy_stopped_before_peek (cycles 0%nat)) :
  ∃ stop', rtc replay
    (set_runner (stopped_as stop p) (next_candidate stop MAX_CANDIDATES_PER_CYCLE) no_heart, (db, r))
    (cycled stop' p res, (db', r')).
Proof using Type. by apply replay_candidates. Qed.

(** ** The turns of the background loops *)

Lemma replay_publish p faults jobs db r :
  rtc replay (set_scheduler p (next_enqueue jobs), (db, r))
    (set_scheduler p S_sleep, (db, publish faults jobs r)).
Proof using Type.
  revert r. induction jobs as [|job jobs IH]; intros r; [apply rtc_refl|]. cbn [publish next_enqueue].
  destruct (call (faults (job_id job)) (enqueue (job_id job) (priority job)) r) as [r1 x] eqn:Hc.
  apply (own_step A_scheduler (answer_of (faults (job_id job)) 0) _ _ _
    (set_scheduler p (next_enqueue jobs)) db r1); [cbn; by rewrite Hc|].
  destruct x; apply IH.
Qed.

(** The same for a turn of the scheduler and of the recovery loop. *)
Theorem background_turns_are_runs p now locked faults db r :
  (∀ db' r' res, scheduler_run_once now locked (pr_activation_batch p) faults (db, r) = (db', r', res) →
     rtc replay (set_scheduler p S_activate, (db, r)) (set_scheduler p S_sleep, (db', r'))) ∧
  (∀ db' res, recovery_run_once now locked (pr_recovery_batch p) db = (db', res) →
     rtc replay (set_recovery p V_recover, (db, r)) (set_recovery p V_sleep, (db', r))).
Proof using Type.
  set (an := {| an_fault := no_fault; an_now := now; an_token := 0; an_random := λ _, 0%Q;
                an_hex := ""; an_locked := locked |}). split.
  - intros db' r' res Hrun. unfold scheduler_run_once in Hrun. cbn [fst snd] in Hrun.
    destruct (run_session _ db) as [d [jobs|e]] eqn:Ha; simplify_eq.
    + apply (own_step A_scheduler an _ _ _ (set_scheduler p (next_enqueue jobs)) db' r);
        [cbn; by rewrite Ha|]. apply replay_publish.
    + eapply (own_step A_scheduler an); [cbn; by rewrite Ha|]. apply rtc_refl.
  - intros db' res Hrun. unfold recovery_run_once in Hrun.
    destruct (run_session _ db) as [d x] eqn:Hr.
    eapply (own_step A_recovery an _ _ _ (set_recovery p V_sleep) db' r); [|apply rtc_refl].
    cbn. rewrite Hr. by destruct x; simplify_eq.
Qed.
End replay.

(** ** Witnesses *)

Lemma demo_cycle_within f stop : cycle_within eq (demo_cycle f stop).
Proof.
  split; try done. apply Forall_forall. intros s ->%list_elem_of_singleton. split; [|done].
  intros b db r Hb. cbn in Hb. repeat (apply elem_of_cons in Hb as [->|Hb]; [done|]).
  by apply not_elem_of_nil in Hb.
Qed.

(** The demo cycle ends with the job settled, however its first beat's connection broke. *)
Lemma run_once_is_a_run_witness :
  ∃ stop' db' r',
    rtc (replay (λ _, "") (λ _, "") eq)
      (set_runner (start_process demo_worker 10 10) (R_peek 9) no_heart, (demo_email_db, demo_queue))
      (cycled stop' (start_process demo_worker 10 10) (Ok true), (db', r')).
Proof.
  destruct (run_once (λ _, "") (λ _, "") demo_worker (λ _, demo_cycle no_fault false)
    (demo_email_db, demo_queue)) as [[db' r'] res] eqn:E.
  destruct (run_once_is_a_run (λ _, "") (λ _, "") eq (start_process demo_worker 10 10)
    (λ _, demo_cycle no_fault false) demo_email_db demo_queue db' r' res eq_refl
    (λ _, demo_cycle_within no_fault false) E) as (stop' & H).
  assert (res = Ok true) as ->.
  { apply (f_equal (λ x, x.2)) in E. cbn [snd] in E. rewrite <-E. vm_compute. reflexivity. }
  exists stop', db', r'. exact H.
Defined.
