(* ===== verification/Schema.v ===== *)
(** * Schema: the tables the models declare and the migrations build

    [app/db/models.py] and [app/db/base.py] as metadata, and the DDL of
    [alembic/versions/0001_initial_schema.py] and [0002_execution_token.py] in both
    directions.  [Ddl] lists the operations the scripts call; [ddl] is their documented
    effect on a catalog, [None] where the server may refuse.  [Catalog] is the
    database's side of it, an interface like [Postgres]. *)

From S2P Require Import Prelude.
From S2P Require Import Text.
From S2P Require Import Errors.
From S2P Require Import Model.
From S2P Require Import Postgres.
From S2P Require Import Session.
From S2P Require Import RetryPolicy.
From S2P Require Import Config.
From S2P Require Import Ownership.
From S2P Require Import Submission.
From Stdlib Require Import QArith.

Local Open Scope Z_scope.

(** ** Columns *)

Inductive ColumnType := TUuid | TVarchar (n : nat) | TText | TJsonb | TInteger | TTimestamptz
  | TJobStatus.

Record Column := {
  col_name : string;
  col_type : ColumnType;
  col_nullable : bool;
  col_default : option string
}.

Definition column (name : string) (t : ColumnType) (nullable : bool) (default : option string) :=
  {| col_name := name; col_type := t; col_nullable := nullable; col_default := default |}.

Definition JOB_STATUS_VALUES : list string :=
  ["scheduled"; "pending"; "processing"; "completed"; "failed"; "cancelled"].

(** [op.create_table("jobs", ...)] of revision 0001 *)
Definition jobs_columns_0001 : list Column :=
  [column "id" TUuid false (Some "gen_random_uuid()");
   column "type" (TVarchar 128) false None;
   column "payload" TJsonb false None;
   column "status" TJobStatus false None;
   column "priority" TInteger false (Some "0");
   column "attempt_count" TInteger false (Some "0");
   column "max_attempts" TInteger false (Some "3");
   column "progress" TInteger false (Some "0");
   column "result" TJsonb true None;
   column "error" TText true None;
   column "scheduled_at" TTimestamptz true None;
   column "created_at" TTimestamptz false (Some "now()");
   column "started_at" TTimestamptz true None;
   column "completed_at" TTimestamptz true None;
   column "worker_id" (TVarchar 128) true None;
   column "lease_expires_at" TTimestamptz true None;
   column "idempotency_key" (TVarchar 255) true None;
   column "idempotency_expires_at" TTimestamptz true None].

Definition job_logs_columns_0001 : list Column :=
  [column "id" TUuid false (Some "gen_random_uuid()");
   column "job_id" TUuid false None;
   column "level" (TVarchar 16) false None;
   column "message" TText false None;
   column "metadata" TJsonb true None;
   column "created_at" TTimestamptz false (Some "now()")].

(** [op.add_column] of revision 0002 *)
Definition added_column_0002 : Column := column "execution_token" TUuid true None.

(** The columns class [Job] declares, in its order. *)
Definition model_columns : list Column :=
  [column "id" TUuid false (Some "gen_random_uuid()");
   column "type" (TVarchar 128) false None;
   column "payload" TJsonb false None;
   column "status" TJobStatus false None;
   column "priority" TInteger false (Some "0");
   column "attempt_count" TInteger false (Some "0");
   column "max_attempts" TInteger false (Some "3");
   column "progress" TInteger false (Some "0");
   column "result" TJsonb true None;
   column "error" TText true None;
   column "scheduled_at" TTimestamptz true None;
   column "created_at" TTimestamptz false (Some "now()");
   column "started_at" TTimestamptz true None;
   column "completed_at" TTimestamptz true None;
   column "worker_id" (TVarchar 128) true None;
   column "execution_token" TUuid true None;
   column "lease_expires_at" TTimestamptz true None;
   column "idempotency_key" (TVarchar 255) true None;
   column "idempotency_expires_at" TTimestamptz true None].

(** The columns class [JobLog] declares. *)
Definition model_log_columns : list Column :=
  [column "id" TUuid false (Some "gen_random_uuid()");
   column "job_id" TUuid false None;
   column "level" (TVarchar 16) false None;
   column "message" TText false None;
   column "metadata" TJsonb true None;
   column "created_at" TTimestamptz false (Some "now()")].

(** ** Constraints, indexes, tables *)

(** The SQL conditions of CHECK constraints and partial indexes. *)
Inductive SqlTest :=
  | AtLeast (col : string) (n : Z)
  | AtMostColumn (col col' : string)
  | Between (col : string) (lo hi : Z)
  | NotNull (col : string)
  | StatusIs (value : string).

Inductive Constraint :=
  | PrimaryKey (cols : list string)
  | Check_ (test : SqlTest)
  | ForeignKey (col ref_table ref_col on_delete : string).

Record Index := {
  ix_columns : list string;
  ix_unique : bool;
  ix_where : option SqlTest
}.

Record TableDef := {
  td_columns : list Column;
  td_constraints : list (string * Constraint);
  td_indexes : list (string * Index)
}.

Record Cat := { cat_enums : gmap string (list string); cat_tables : gmap string TableDef }.

(** The CHECK constraints of revision 0001, by their bare names. *)
Definition jobs_checks_0001 : list (string * SqlTest) :=
  [("attempt_count_non_negative", AtLeast "attempt_count" 0);
   ("max_attempts_positive", AtLeast "max_attempts" 1);
   ("attempt_count_within_max", AtMostColumn "attempt_count" "max_attempts");
   ("progress_percentage_range", Between "progress" 0 100)].

(** *** [NAMING_CONVENTION] *)

(** Only the CHECK convention mentions the given name, so it applies to named
    constraints; the others name what is unnamed. *)
Definition ck_name (table name : string) : string := "ck_" +:+ table +:+ "_" +:+ name.
Definition pk_name (table : string) : string := "pk_" +:+ table.
Definition fk_name (table col ref_table : string) : string :=
  "fk_" +:+ table +:+ "_" +:+ col +:+ "_" +:+ ref_table.

(** A constraint as it is declared, and its name in the database. *)
Definition declared (table : string) (name : option string) (c : Constraint) : string * Constraint :=
  (match c, name with
   | Check_ _, Some name => ck_name table name
   | Check_ _, None => ck_name table ""
   | _, Some name => name
   | PrimaryKey _, None => pk_name table
   | ForeignKey col ref _ _, None => fk_name table col ref
   end, c).

Definition plain_index (cols : list string) : Index :=
  {| ix_columns := cols; ix_unique := false; ix_where := None |}.
Definition partial_index (cols : list string) (unique : bool) (where_ : SqlTest) : Index :=
  {| ix_columns := cols; ix_unique := unique; ix_where := Some where_ |}.

(** *** The metadata of the models *)

(** [Job.__table_args__] *)
Definition model_checks : list (string * SqlTest) :=
  [("attempt_count_non_negative", AtLeast "attempt_count" 0);
   ("max_attempts_positive", AtLeast "max_attempts" 1);
   ("attempt_count_within_max", AtMostColumn "attempt_count" "max_attempts");
   ("progress_percentage_range", Between "progress" 0 100)].

Definition model_indexes : list (string * Index) :=
  [("uq_jobs_idempotency_key_active", partial_index ["idempotency_key"] true (NotNull "idempotency_key"));
   ("ix_jobs_idempotency_expires_at",
      partial_index ["idempotency_expires_at"] false (NotNull "idempotency_key"));
   ("ix_jobs_scheduled_due", partial_index ["scheduled_at"] false (StatusIs "scheduled"));
   ("ix_jobs_processing_lease", partial_index ["lease_expires_at"] false (StatusIs "processing"));
   ("ix_jobs_status_created_at", plain_index ["status"; "created_at"]);
   ("ix_jobs_type_created_at", plain_index ["type"; "created_at"]);
   ("ix_jobs_created_at", plain_index ["created_at"])].

Definition model_jobs : TableDef :=
  {| td_columns := model_columns;
     td_constraints := declared "jobs" None (PrimaryKey ["id"]) ::
       ((λ c, declared "jobs" (Some c.1) (Check_ c.2)) <$> model_checks);
     td_indexes := model_indexes |}.

Definition model_job_logs : TableDef :=
  {| td_columns := model_log_columns;
     td_constraints := [declared "job_logs" None (PrimaryKey ["id"]);
                        declared "job_logs" None (ForeignKey "job_id" "jobs" "id" "CASCADE")];
     td_indexes := [("ix_job_logs_job_id_created_at", plain_index ["job_id"; "created_at"])] |}.

Definition model_catalog : Cat :=
  {| cat_enums := {[ "job_status" := status_value <$> JobStatus_members ]};
     cat_tables := {[ "jobs" := model_jobs; "job_logs" := model_job_logs ]} |}.

(** ** Alembic's operations *)

Inductive Ddl :=
  (** [ENUM(...).create(bind, checkfirst=True)] and [.drop(bind, checkfirst=True)] *)
  | CreateEnum (name : string) (values : list string)
  | DropEnum (name : string)
  | CreateTable (name : string) (columns : list Column) (constraints : list (string * Constraint))
  | DropTable (name : string)
  | CreateIndex (name table : string) (index : Index)
  | DropIndex (name table : string)
  | AddColumn (table : string) (col : Column)
  | DropColumn (table name : string).

(** The columns a condition, a constraint, an index mentions. *)
Definition test_columns (t : SqlTest) : list string :=
  match t with
  | AtLeast c _ | Between c _ _ | NotNull c => [c]
  | AtMostColumn c c' => [c; c']
  | StatusIs _ => ["status"]
  end.
Definition constraint_columns (c : Constraint) : list string :=
  match c with
  | PrimaryKey cols => cols
  | Check_ t => test_columns t
  | ForeignKey col _ _ _ => [col]
  end.
Definition index_columns (i : Index) : list string :=
  ix_columns i ++ match ix_where i with Some t => test_columns t | None => [] end.

Definition has_columns (cols : list Column) (names : list string) : bool :=
  forallb (λ n, bool_decide (n ∈ col_name <$> cols)) names.

Definition uses_enum (d : TableDef) : bool :=
  existsb (λ c, match col_type c with TJobStatus => true | _ => false end) (td_columns d).

Definition refers_to (name : string) (d : TableDef) : bool :=
  existsb (λ c, match c.2 with ForeignKey _ t _ _ => bool_decide (t = name) | _ => false end)
    (td_constraints d).

(** A foreign key needs its table and column; any enum type must exist. *)
Definition well_founded_table (c : Cat) (d : TableDef) : bool :=
  (negb (uses_enum d) || bool_decide (is_Some (cat_enums c !! "job_status"))) &&
  forallb (λ k, has_columns (td_columns d) (constraint_columns k.2)) (td_constraints d) &&
  forallb (λ k, match k.2 with
                | ForeignKey _ t col _ =>
                    match cat_tables c !! t with
                    | Some d' => has_columns (td_columns d') [col]
                    | None => false
                    end
                | _ => true
                end) (td_constraints d).

Definition index_names (c : Cat) : list string :=
  map_to_list (cat_tables c) ≫= λ t, (td_indexes t.2).*1.

Definition set_table (name : string) (d : TableDef) (c : Cat) : Cat :=
  {| cat_enums := cat_enums c; cat_tables := <[name := d]> (cat_tables c) |}.

(** The documented effect of an operation whose names are free or in use as it
    needs. *)
Definition ddl (op : Ddl) (c : Cat) : option Cat :=
  match op with
  | CreateEnum name values =>
      match cat_enums c !! name with
      | Some _ => Some c
      | None => Some {| cat_enums := <[name := values]> (cat_enums c); cat_tables := cat_tables c |}
      end
  | DropEnum name =>
      if bool_decide (map_Forall (λ _ d, uses_enum d = false) (cat_tables c))
      then Some {| cat_enums := delete name (cat_enums c); cat_tables := cat_tables c |}
      else None
  | CreateTable name columns constraints =>
      let d := {| td_columns := columns; td_constraints := constraints; td_indexes := [] |} in
      if bool_decide (cat_tables c !! name = None) && well_founded_table c d
      then Some (set_table name d c) else None
  | DropTable name =>
      if bool_decide (is_Some (cat_tables c !! name)) &&
         bool_decide (map_Forall (λ n d, n = name ∨ refers_to name d = false) (cat_tables c))
      then Some {| cat_enums := cat_enums c; cat_tables := delete name (cat_tables c) |} else None
  | CreateIndex name table index =>
      match cat_tables c !! table with
      | Some d =>
          if bool_decide (name ∉ index_names c) && has_columns (td_columns d) (index_columns index)
          then Some (set_table table {| td_columns := td_columns d; td_constraints := td_constraints d;
                                        td_indexes := td_indexes d ++ [(name, index)] |} c)
          else None
      | None => None
      end
  | DropIndex name table =>
      match cat_tables c !! table with
      | Some d =>
          if bool_decide (name ∈ (td_indexes d).*1)
          then Some (set_table table {| td_columns := td_columns d; td_constraints := td_constraints d;
                                        td_indexes := filter (λ i, i.1 ≠ name) (td_indexes d) |} c)
          else None
      | None => None
      end
  | AddColumn table col =>
      match cat_tables c !! table with
      | Some d =>
          if bool_decide (col_name col ∉ col_name <$> td_columns d) && col_nullable col
          then Some (set_table table {| td_columns := td_columns d ++ [col];
                                        td_constraints := td_constraints d;
                                        td_indexes := td_indexes d |} c)
          else None
      | None => None
      end
  | DropColumn table name =>
      match cat_tables c !! table with
      | Some d =>
          if bool_decide (name ∈ col_name <$> td_columns d) &&
             forallb (λ k, negb (bool_decide (name ∈ constraint_columns k.2))) (td_constraints d) &&
             forallb (λ i, negb (bool_decide (name ∈ index_columns i.2))) (td_indexes d)
          then Some (set_table table {| td_columns := filter (λ k, col_name k ≠ name) (td_columns d);
                                        td_constraints := td_constraints d;
                                        td_indexes := td_indexes d |} c)
          else None
      | None => None
      end
  end.

Fixpoint ddl_all (ops : list Ddl) (c : Cat) : option Cat :=
  match ops with
  | [] => Some c
  | op :: ops => match ddl op c with Some c => ddl_all ops c | None => None end
  end.

Class Catalog (S : Type) := {
  cat : S → Cat;
  execute_ddl : Ddl → S → result exn S
}.

Class CatalogLaws (S : Type) `{!Catalog S} : Prop := {
  execute_ddl_spec op (s : S) c' :
    ddl op (cat s) = Some c' → ∃ s', execute_ddl op s = Ok s' ∧ cat s' = c'
}.

(** ** The revisions *)

Section revisions.
Context {S : Type} `{!Catalog S}.

Fixpoint run_ops (ops : list Ddl) (s : S) : result exn S :=
  match ops with
  | [] => Ok s
  | op :: ops => match execute_ddl op s with Ok s => run_ops ops s | Err e => Err e end
  end.

(** [0001_initial_schema.upgrade] *)
Definition upgrade_0001_ops : list Ddl :=
  [CreateEnum "job_status" JOB_STATUS_VALUES;
   CreateTable "jobs" jobs_columns_0001
     (((λ c, declared "jobs" (Some c.1) (Check_ c.2)) <$> jobs_checks_0001) ++
      [declared "jobs" (Some "pk_jobs") (PrimaryKey ["id"])]);
   CreateIndex "uq_jobs_idempotency_key_active" "jobs"
     (partial_index ["idempotency_key"] true (NotNull "idempotency_key"));
   CreateIndex "ix_jobs_idempotency_expires_at" "jobs"
     (partial_index ["idempotency_expires_at"] false (NotNull "idempotency_key"));
   CreateIndex "ix_jobs_scheduled_due" "jobs"
     (partial_index ["scheduled_at"] false (StatusIs "scheduled"));
   CreateIndex "ix_jobs_processing_lease" "jobs"
     (partial_index ["lease_expires_at"] false (StatusIs "processing"));
   CreateIndex "ix_jobs_status_created_at" "jobs" (plain_index ["status"; "created_at"]);
   CreateIndex "ix_jobs_type_created_at" "jobs" (plain_index ["type"; "created_at"]);
   CreateIndex "ix_jobs_created_at" "jobs" (plain_index ["created_at"]);
   CreateTable "job_logs" job_logs_columns_0001
     [declared "job_logs" (Some "fk_job_logs_job_id_jobs") (ForeignKey "job_id" "jobs" "id" "CASCADE");
      declared "job_logs" (Some "pk_job_logs") (PrimaryKey ["id"])];
   CreateIndex "ix_job_logs_job_id_created_at" "job_logs" (plain_index ["job_id"; "created_at"])].

(** [0001_initial_schema.downgrade] *)
Definition downgrade_0001_ops : list Ddl :=
  [DropIndex "ix_job_logs_job_id_created_at" "job_logs";
   DropTable "job_logs";
   DropIndex "ix_jobs_created_at" "jobs";
   DropIndex "ix_jobs_type_created_at" "jobs";
   DropIndex "ix_jobs_status_created_at" "jobs";
   DropIndex "ix_jobs_processing_lease" "jobs";
   DropIndex "ix_jobs_scheduled_due" "jobs";
   DropIndex "ix_jobs_idempotency_expires_at" "jobs";
   DropIndex "uq_jobs_idempotency_key_active" "jobs";
   DropTable "jobs";
   DropEnum "job_status"].

(** The DDL of [0002_execution_token]; its data step is in [Migration]. *)
Definition upgrade_0002_ops : list Ddl := [AddColumn "jobs" added_column_0002].
Definition downgrade_0002_ops : list Ddl := [DropColumn "jobs" "execution_token"].
End revisions.

(** ** A database that also holds other things *)

Definition service_tables : list string := ["jobs"; "job_logs"].
Definition service_indexes : list string := "ix_job_logs_job_id_created_at" :: model_indexes.*1.

(** The rest of the database (Alembic's version table, other applications). *)
Record outside (o : Cat) : Prop := {
  out_enum : cat_enums o !! "job_status" = None;
  out_table n : n ∈ service_tables → cat_tables o !! n = None;
  out_uses n d : cat_tables o !! n = Some d → uses_enum d = false;
  out_refers n d t : cat_tables o !! n = Some d → t ∈ service_tables → refers_to t d = false;
  out_index n d i : cat_tables o !! n = Some d → i ∈ service_indexes → i ∉ (td_indexes d).*1
}.

Definition beside (o c : Cat) : Cat :=
  {| cat_enums := cat_enums c ∪ cat_enums o; cat_tables := cat_tables c ∪ cat_tables o |}.

(** A catalog, an operation, of the service's own names. *)
Definition own_names (c : Cat) : Prop :=
  (∀ n, is_Some (cat_enums c !! n) → n = "job_status") ∧
  (∀ n, is_Some (cat_tables c !! n) → n ∈ service_tables).

Definition own_constraint (k : string * Constraint) : Prop :=
  match k.2 with ForeignKey _ t _ _ => t ∈ service_tables | _ => True end.

#[export] Instance own_constraint_dec k : Decision (own_constraint k).
Proof. unfold own_constraint. destruct (k.2); apply _. Defined.

Definition own_op (op : Ddl) : Prop :=
  match op with
  | CreateEnum n _ | DropEnum n => n = "job_status"
  | CreateTable n _ cs => n ∈ service_tables ∧ Forall own_constraint cs
  | DropTable n => n ∈ service_tables
  | CreateIndex i t _ | DropIndex i t => i ∈ service_indexes ∧ t ∈ service_tables
  | AddColumn t _ | DropColumn t _ => t ∈ service_tables
  end.

#[export] Instance own_op_dec op : Decision (own_op op).
Proof. destruct op; cbn; apply _. Defined.

Lemma own_names_set t d c : t ∈ service_tables → own_names c → own_names (set_table t d c).
Proof.
  intros Hs [He Ht]. split; [done|]. intros m. cbn. rewrite lookup_insert.
  case_decide; [by subst|apply Ht].
Qed.

Section frame.
Context (o : Cat) (Ho : outside o).

Lemma beside_lookup c t : t ∈ service_tables → cat_tables (beside o c) !! t = cat_tables c !! t.
Proof using Ho.
  intros Ht. cbn. rewrite lookup_union, (out_table _ Ho t Ht).
  by destruct (cat_tables c !! t).
Qed.

Lemma beside_enum c : cat_enums (beside o c) !! "job_status" = cat_enums c !! "job_status".
Proof using Ho.
  cbn. rewrite lookup_union, (out_enum _ Ho). by destruct (cat_enums c !! _).
Qed.

Lemma beside_set t d c : set_table t d (beside o c) = beside o (set_table t d c).
Proof using Type. unfold beside, set_table. cbn. f_equal. by rewrite insert_union_l. Qed.

Lemma beside_Forall c (P : string → TableDef → Prop) :
  map_Forall P (cat_tables c) → map_Forall P (cat_tables o) → map_Forall P (cat_tables (beside o c)).
Proof using Type. intros Hc Hx n d [Hn|[_ Hn]]%lookup_union_Some_raw; eauto. Qed.

Lemma beside_index c i :
  i ∈ service_indexes → i ∉ index_names c → i ∉ index_names (beside o c).
Proof using Ho.
  intros Hi Hno (d & Hin & Hd)%list_elem_of_bind. destruct d as [n d]. cbn in Hin.
  apply elem_of_map_to_list, lookup_union_Some_raw in Hd as [Hd|[_ Hd]].
  - apply Hno, list_elem_of_bind. exists (n, d). split; [done|by apply elem_of_map_to_list].
  - by apply (out_index _ Ho n d i).
Qed.

Lemma beside_well_founded c d :
  Forall own_constraint (td_constraints d) →
  well_founded_table (beside o c) d = well_founded_table c d.
Proof using Ho.
  intros Hk. unfold well_founded_table. f_equal; [by rewrite beside_enum|].
  induction Hk as [|k ks Hk _ IH]; [done|]. cbn [forallb]. f_equal; [|done].
  unfold own_constraint in Hk. destruct (k.2); try done. by rewrite beside_lookup.
Qed.

(** What the service's operations do does not depend on what else is there. *)
Lemma ddl_beside op c c' :
  own_op op → own_names c → ddl op c = Some c' →
  ddl op (beside o c) = Some (beside o c') ∧ own_names c'.
Proof using Ho.
  intros Hop [He Ht] H. destruct op as [n vs|n|n cols cs|n|i t ix|i t|t col|t n]; cbn in Hop, H.
  - subst n. cbn [ddl]. rewrite beside_enum. destruct (cat_enums c !! "job_status"); simplify_eq; [done|].
    split; [|split; cbn; [|done]].
    + unfold beside. cbn. do 2 f_equal. by rewrite insert_union_l.
    + intros n. rewrite lookup_insert. case_decide; [done|]. apply He.
  - subst n. case_bool_decide as Hu; simplify_eq. cbn [ddl]. rewrite bool_decide_true.
    2:{ apply beside_Forall; [done|]. intros n d. apply (out_uses _ Ho). }
    split; [|split; cbn; [|done]].
    + unfold beside. cbn. do 2 f_equal. rewrite delete_union. f_equal.
      apply delete_id, (out_enum _ Ho).
    + intros n [x [_ Hx]%lookup_delete_Some]. apply He. by exists x.
  - destruct Hop as [Hn Hk]. cbn [ddl]. rewrite beside_lookup, beside_well_founded by done.
    case_match; simplify_eq. rewrite beside_set. split; [done|by apply own_names_set; [|split]].
  - cbn [ddl]. rewrite beside_lookup by done. case_bool_decide as Hi; [|done].
    case_bool_decide as Hr; simplify_eq/=. rewrite bool_decide_true.
    2:{ apply beside_Forall; [done|]. intros m d Hm. right. by apply (out_refers _ Ho m). }
    split; [|split; [done|]].
    + unfold beside. cbn. do 2 f_equal. rewrite delete_union. f_equal. by apply delete_id, (out_table _ Ho).
    + intros m [x Hx]. cbn in Hx. apply lookup_delete_Some in Hx as [_ Hx]. apply Ht. by exists x.
  - destruct Hop as [Hi Hts]. cbn [ddl]. rewrite beside_lookup by done.
    destruct (cat_tables c !! t) as [d|] eqn:Hd; [|done]. case_bool_decide as Hn; [|done].
    rewrite bool_decide_true by by apply beside_index. case_match; simplify_eq.
    rewrite beside_set. split; [done|by apply own_names_set; [|split]].
  - destruct Hop as [Hi Hts]. cbn [ddl]. rewrite beside_lookup by done.
    destruct (cat_tables c !! t) as [d|] eqn:Hd; [|done]. case_match; simplify_eq.
    rewrite beside_set. split; [done|by apply own_names_set; [|split]].
  - cbn [ddl]. rewrite beside_lookup by done.
    destruct (cat_tables c !! t) as [d|] eqn:Hd; [|done]. case_match; simplify_eq.
    rewrite beside_set. split; [done|by apply own_names_set; [|split]].
  - cbn [ddl]. rewrite beside_lookup by done.
    destruct (cat_tables c !! t) as [d|] eqn:Hd; [|done]. case_match; simplify_eq.
    rewrite beside_set. split; [done|by apply own_names_set; [|split]].
Qed.

Lemma ddl_all_beside ops c c' :
  Forall own_op ops → own_names c → ddl_all ops c = Some c' →
  ddl_all ops (beside o c) = Some (beside o c') ∧ own_names c'.
Proof using Ho.
  intros Hops. revert c. induction Hops as [|op ops Hop Hops IH]; intros c Hc H; cbn in *.
  { by simplify_eq. }
  destruct (ddl op c) as [c1|] eqn:H1; [|done].
  destruct (ddl_beside op c c1) as [-> Hc1]; [done..|]. by apply IH.
Qed.
End frame.

(** ** Properties *)

(** Tables are compared up to the order of their columns, constraints and indexes. *)
#[export] Instance TableDef_equiv : Equiv TableDef := λ d d',
  td_columns d ≡ₚ td_columns d' ∧ td_constraints d ≡ₚ td_constraints d' ∧
  td_indexes d ≡ₚ td_indexes d'.
#[export] Instance TableDef_equivalence : Equivalence (≡@{TableDef}).
Proof.
  split; [done|intros ?? (?&?&?); by split_and!|].
  intros ??? (H1&H2&H3) (H4&H5&H6). split_and!; by etrans.
Qed.

#[export] Instance Cat_equiv : Equiv Cat := λ c c',
  cat_enums c = cat_enums c' ∧ cat_tables c ≡ cat_tables c'.

Definition no_cat : Cat := {| cat_enums := ∅; cat_tables := ∅ |}.

Lemma no_cat_own : own_names no_cat.
Proof. split; intros n [x Hx]; cbn in Hx; by rewrite lookup_empty in Hx. Qed.

Lemma beside_no_cat o : beside o no_cat = o.
Proof. destruct o. unfold beside. cbn. by rewrite !(left_id_L ∅ (∪)). Qed.

Lemma revisions_own :
  Forall own_op (upgrade_0001_ops ++ upgrade_0002_ops ++ downgrade_0002_ops ++ downgrade_0001_ops).
Proof. apply (bool_decide_unpack _). vm_compute. done. Qed.

(** The catalogs after each revision, on an empty database. *)
Definition catalog_0001 : Cat := default no_cat (ddl_all upgrade_0001_ops no_cat).
Definition catalog_0002 : Cat := default no_cat (ddl_all upgrade_0002_ops catalog_0001).

Lemma upgrade_0001_ddl : ddl_all upgrade_0001_ops no_cat = Some catalog_0001.
Proof. vm_compute. reflexivity. Qed.
Lemma upgrade_0002_ddl : ddl_all upgrade_0002_ops catalog_0001 = Some catalog_0002.
Proof. vm_compute. reflexivity. Qed.
Lemma downgrade_0002_ddl : ddl_all downgrade_0002_ops catalog_0002 = Some catalog_0001.
Proof. vm_compute. reflexivity. Qed.
Lemma downgrade_0001_ddl : ddl_all downgrade_0001_ops catalog_0001 = Some no_cat.
Proof. vm_compute. reflexivity. Qed.

Lemma migrated_columns : added_column_0002 :: jobs_columns_0001 ≡ₚ model_columns.
Proof.
  exact (Permutation_middle (take 15 jobs_columns_0001) (drop 15 jobs_columns_0001) added_column_0002).
Qed.

(** The migrated table has exactly the columns the model declares, with the same
    types, nullability and defaults; its status type has the model's values and its
    CHECK constraints the names [Model] gives them. *)
Theorem migrations_build_the_model :
  added_column_0002 :: jobs_columns_0001 ≡ₚ model_columns ∧
  JOB_STATUS_VALUES = status_value <$> JobStatus_members ∧
  jobs_checks_0001.*1 = check_constraints.*1.
Proof. split; [apply migrated_columns|done]. Qed.

Definition migrated_jobs : TableDef := default model_jobs (cat_tables catalog_0002 !! "jobs").
Definition migrated_job_logs : TableDef :=
  default model_job_logs (cat_tables catalog_0002 !! "job_logs").

Lemma catalog_0002_tables :
  cat_tables catalog_0002 = {[ "jobs" := migrated_jobs; "job_logs" := migrated_job_logs ]}.
Proof. vm_compute. reflexivity. Qed.

Lemma migrated_jobs_equiv : migrated_jobs ≡ model_jobs.
Proof.
  split; [|split].
  - transitivity (added_column_0002 :: jobs_columns_0001); [|apply migrated_columns].
    symmetry. exact (Permutation_cons_append jobs_columns_0001 added_column_0002).
  - symmetry. exact (Permutation_cons_append (tail (td_constraints model_jobs))
      (declared "jobs" None (PrimaryKey ["id"]))).
  - exact (reflexivity (td_indexes model_jobs)).
Qed.

Lemma migrated_job_logs_equiv : migrated_job_logs ≡ model_job_logs.
Proof. split; [done|]. split; [apply perm_swap|done]. Qed.

Section properties.
Context {S : Type} `{!Catalog S, !CatalogLaws S}.

Lemma run_ops_spec ops (s : S) c' :
  ddl_all ops (cat s) = Some c' → ∃ s', run_ops ops s = Ok s' ∧ cat s' = c'.
Proof using Type*.
  revert s. induction ops as [|op ops IH]; intros s H; cbn in *; [simplify_eq; eauto|].
  destruct (ddl op (cat s)) as [c1|] eqn:H1; [|done].
  destruct (execute_ddl_spec op s c1 H1) as (s1 & -> & <-). by apply IH.
Qed.

(** A revision of the service run next to other things. *)
Lemma revision_spec o ops (s : S) c c' :
  outside o → Forall own_op ops → own_names c → cat s = beside o c → ddl_all ops c = Some c' →
  ∃ s', run_ops ops s = Ok s' ∧ cat s' = beside o c' ∧ own_names c'.
Proof using Type*.
  intros Ho Hops Hc Hs Hd. destruct (ddl_all_beside o Ho ops c c' Hops Hc Hd) as [Hb Hc'].
  rewrite <-Hs in Hb. destruct (run_ops_spec ops s _ Hb) as (s' & Hrun & Hcat). eauto.
Qed.

(** The migrations build what the models declare: on any database where the
    service's names are free, both revisions run, everything else is left as it
    was, and the tables, columns, types, defaults, constraints with their
    conventional names, indexes with their conditions and the enum type are those
    of the models, up to order. *)
Theorem migrations_match_the_models (s : S) (Ho : outside (cat s)) :
  ∃ s1 s2, run_ops upgrade_0001_ops s = Ok s1 ∧ run_ops upgrade_0002_ops s1 = Ok s2 ∧
    cat s2 ≡ beside (cat s) model_catalog.
Proof using Type*.
  pose proof revisions_own as Hown. rewrite !Forall_app in Hown. destruct Hown as (H1 & H2 & _ & _).
  destruct (revision_spec (cat s) upgrade_0001_ops s no_cat catalog_0001) as (s1 & Hr1 & Hc1 & Hn1);
    [done|done|apply no_cat_own|by rewrite beside_no_cat|apply upgrade_0001_ddl|].
  destruct (revision_spec (cat s) upgrade_0002_ops s1 catalog_0001 catalog_0002)
    as (s2 & Hr2 & Hc2 & _); [done..|apply upgrade_0002_ddl|].
  exists s1, s2. split; [done|]. split; [done|]. rewrite Hc2. split.
  - cbn. by f_equal.
  - intros n. cbn [beside cat_tables]. rewrite !lookup_union, catalog_0002_tables. cbn [model_catalog cat_tables].
    rewrite !lookup_insert, !lookup_singleton. repeat case_decide; [..|done].
    + pose proof migrated_jobs_equiv. destruct (cat_tables (cat s) !! n); by constructor.
    + pose proof migrated_job_logs_equiv. destruct (cat_tables (cat s) !! n); by constructor.
Qed.

(** C33: Every downgrade undoes its upgrade: on any database where the service's names are
    free, going up and back down restores the catalog after each revision exactly,
    down to the order of the columns, and in the end the database as it was. *)
Theorem downgrades_undo_the_upgrades (s : S) (Ho : outside (cat s)) :
  ∃ s1 s2 s1' s', run_ops upgrade_0001_ops s = Ok s1 ∧ run_ops upgrade_0002_ops s1 = Ok s2 ∧
    run_ops downgrade_0002_ops s2 = Ok s1' ∧ cat s1' = cat s1 ∧ cat s2 ≠ cat s1 ∧
    run_ops downgrade_0001_ops s1' = Ok s' ∧ cat s' = cat s ∧ cat s1 ≠ cat s.
Proof using Type*.
  pose proof revisions_own as Hown. rewrite !Forall_app in Hown. destruct Hown as (H1 & H2 & H3 & H4).
  destruct (revision_spec (cat s) upgrade_0001_ops s no_cat catalog_0001) as (s1 & Hr1 & Hc1 & Hn1);
    [done|done|apply no_cat_own|by rewrite beside_no_cat|apply upgrade_0001_ddl|].
  destruct (revision_spec (cat s) upgrade_0002_ops s1 catalog_0001 catalog_0002)
    as (s2 & Hr2 & Hc2 & Hn2); [done..|apply upgrade_0002_ddl|].
  destruct (revision_spec (cat s) downgrade_0002_ops s2 catalog_0002 catalog_0001)
    as (s1' & Hr3 & Hc3 & Hn3); [done..|apply downgrade_0002_ddl|].
  destruct (revision_spec (cat s) downgrade_0001_ops s1' catalog_0001 no_cat)
    as (s' & Hr4 & Hc4 & _); [done..|apply downgrade_0001_ddl|].
  exists s1, s2, s1', s'. rewrite Hc1, Hc2, Hc3, Hc4, beside_no_cat.
  assert (∀ c, (λ d, col_name <$> td_columns d) <$> (cat_tables (beside (cat s) c) !! "jobs") =
               (λ d, col_name <$> td_columns d) <$> (cat_tables c !! "jobs")) as Hlk.
  { intros c. by rewrite beside_lookup by (done || by left). }
  split; [exact Hr1|]. split; [exact Hr2|]. split; [exact Hr3|]. split; [reflexivity|].
  split; [|split; [exact Hr4|split; [reflexivity|]]].
  - intros E. apply (f_equal (λ c, (λ d, col_name <$> td_columns d) <$> (cat_tables c !! "jobs"))) in E.
    rewrite !Hlk in E. vm_compute in E. done.
  - intros E. assert ("jobs" ∈ service_tables) as Hj by by left.
    pose proof (beside_lookup (cat s) Ho catalog_0001 "jobs" Hj) as Hb.
    rewrite E, (out_table _ Ho "jobs" Hj) in Hb. vm_compute in Hb. discriminate Hb.
Qed.
End properties.

(** ** A concrete catalog, and witnesses *)

#[export] Instance Cat_catalog : Catalog Cat := {|
  cat := λ c, c;
  execute_ddl op c :=
    match ddl op c with Some c' => Ok c' | None => Err (DBAPIError "DDL statement failed") end
|}.

#[export] Instance Cat_laws : CatalogLaws Cat.
Proof. split. intros op s c' H. exists c'. cbn in *. by rewrite H. Qed.

(** A database with Alembic's version table. *)
Definition versioned : Cat :=
  {| cat_enums := ∅;
     cat_tables := {[ "alembic_version" :=
       {| td_columns := [column "version_num" (TVarchar 32) false None];
          td_constraints := [("alembic_version_pkc", PrimaryKey ["version_num"])];
          td_indexes := [] |} ]} |}.

Lemma versioned_outside : outside versioned.
Proof.
  split; cbn.
  - done.
  - intros n Hn. apply lookup_singleton_None. intros <-. revert Hn. apply (bool_decide_unpack _). done.
  - by intros n d [<- <-]%lookup_singleton_Some.
  - by intros n d t [<- <-]%lookup_singleton_Some _.
  - intros n d i [<- <-]%lookup_singleton_Some _. apply not_elem_of_nil.
Qed.

Lemma migrations_match_the_models_witness :
  ∃ c1 c2, run_ops upgrade_0001_ops versioned = Ok c1 ∧ run_ops upgrade_0002_ops c1 = Ok c2 ∧
    c2 ≡ beside versioned model_catalog.
Proof. exact (migrations_match_the_models versioned versioned_outside). Defined.

Lemma downgrades_undo_the_upgrades_witness :
  ∃ c1 c2 c1' c', run_ops upgrade_0001_ops versioned = Ok c1 ∧
    run_ops upgrade_0002_ops c1 = Ok c2 ∧ run_ops downgrade_0002_ops c2 = Ok c1' ∧ c1' = c1 ∧
    c2 ≠ c1 ∧ run_ops downgrade_0001_ops c1' = Ok c' ∧ c' = versioned ∧ c1 ≠ versioned.
Proof. exact (downgrades_undo_the_upgrades versioned versioned_outside). Defined.
