(* ===== verification/Migration.v ===== *)
(** * Migration: the data step of revision 0002

    [alembic/versions/0002_execution_token.py]: after the column is added ([Schema]) it
    is NULL in every row, and the data step is an UPDATE on the rows. *)

From S2P Require Import Prelude.
From S2P Require Import Text.
From S2P Require Import Errors.
From S2P Require Import Model.
From S2P Require Import Postgres.
From S2P Require Import MemDB.
From S2P Require Import Session.
From S2P Require Import RetryPolicy.
From S2P Require Import Config.
From S2P Require Import Ownership.
From Stdlib Require Import QArith.

Local Open Scope Z_scope.

(** ** The data step of revision 0002 *)

Definition upgrade_where : list Cond :=
  [λ r, sql_eq (Some (status r)) (Some PROCESSING); λ r, sql_is_null (execution_token r)].

Definition upgrade_values (now : Z) : list Assign :=
  [SetStatus SCHEDULED; SetScheduledAt (Some now); SetWorkerId None; SetExecutionToken None;
   SetLeaseExpiresAt None].

Section upgrade.
Context {DB : Type} `{!Postgres DB}.

Definition upgrade (now : Z) : M DB unit :=
  do! execute_update upgrade_where (upgrade_values now) in
  commit.

Context `{!PostgresLaws DB}.
Implicit Types db : DB.

Lemma upgrade_update now db :
  ∃ db' rs, pg_update upgrade_where (upgrade_values now) db = Ok (db', rs) ∧
    jobs_table db' = update_rows upgrade_where (upgrade_values now) (jobs_table db).
Proof using PostgresLaws0.
  destruct (pg_update_ok upgrade_where (upgrade_values now) db) as (db' & rs & Hu & Ht & _).
  { apply update_rows_ok; [apply pg_table_ok| |solve_keeps_key].
    intros i r Hr%table_storable _. solve_storable. }
  by exists db', rs.
Qed.

Lemma upgrade_spec now db :
  ∃ db', run_session (upgrade now) db = (db', Ok tt) ∧
    jobs_table db' = update_rows upgrade_where (upgrade_values now) (jobs_table db).
Proof using PostgresLaws0.
  destruct (upgrade_update now db) as (db' & rs & Hu & Ht). exists db'. split; [|done]. unfold run_session, upgrade, bind, execute_update. simpl.
  by rewrite Hu.
Qed.

Lemma holds_upgrade r :
  holds upgrade_where r = true ↔ status r = PROCESSING ∧ execution_token r = None.
Proof using Type.
  unfold upgrade_where. autorewrite with sql. simpl.
  rewrite andb_true_r, andb_true_iff, bool_decide_eq_true.
  destruct (execution_token r); naive_solver.
Qed.

(** The upgrade moves every PROCESSING row, whose token column has just been added,
    to SCHEDULED and unowned, due at once, keeps its attempt count, and touches no
    other row: no row is left PROCESSING for a recovery that cannot match it. *)
Theorem upgrade_releases_processing_rows now db
    (Hnew : ∀ i r, jobs_table db !! i = Some r → execution_token r = None) :
  ∃ db', run_session (upgrade now) db = (db', Ok tt) ∧
    ∀ i r, jobs_table db !! i = Some r → ∃ r', jobs_table db' !! i = Some r' ∧
      status r' ≠ PROCESSING ∧
      if decide (status r = PROCESSING) then
        status r' = SCHEDULED ∧ scheduled_at r' = Some now ∧ unowned r' ∧
        attempt_count r' = attempt_count r
      else r' = r.
Proof using PostgresLaws0.
  destruct (upgrade_spec now db) as (db' & Hrun & Ht). exists db'. split; [done|].
  intros i r Hr. rewrite Ht, lookup_update_rows, Hr. simpl. eexists. split; [done|].
  pose proof (holds_upgrade r) as Hh. pose proof (Hnew i r Hr).
  case_decide as Hs; destruct (holds upgrade_where r) eqn:E.
  - done.
  - exfalso. by assert (false = true) by by apply Hh.
  - exfalso. by apply Hs, Hh.
  - done.
Qed.

(** C38: But a row released on its last attempt is stranded: once activation makes it
    PENDING it has no attempt left, so no worker can ever claim it, and it is not
    recorded as failed either. *)
Theorem upgrade_strands_exhausted_rows now now' n db i r
    (Hr : jobs_table db !! i = Some r) (Hs : status r = PROCESSING)
    (Htok : execution_token r = None) (Hlast : attempt_count r = max_attempts r)
    (Hdue : now ≤ now')
    (Hn : (size (jobs_table db) < n)%nat) :
  ∃ db1 db2 ms r',
    run_session (upgrade now) db = (db1, Ok tt) ∧
    run_session (activate_due_scheduled_jobs now' ∅ n) db1 = (db2, Ok ms) ∧
    jobs_table db2 !! i = Some r' ∧ status r' = PENDING ∧
    ∀ dl now'' tok w ls db3, varchar_ok 128 w = true → jobs_table db3 !! i = Some r' →
      ∃ db4, run_session (claim_job dl now'' tok i w ls) db3 = (db4, Ok None).
Proof using PostgresLaws0.
  destruct (upgrade_spec now db) as (db1 & Hrun & Ht1).
  set (r1 := apply_values (upgrade_values now) r).
  assert (jobs_table db1 !! i = Some r1) as Hr1.
  { rewrite Ht1, lookup_update_rows, Hr. simpl.
    by rewrite (proj2 (holds_upgrade r) (conj Hs Htok)). }
  destruct (activate_spec now' ∅ n db1) as (db2 & ms & H2 & _ & Ht2).
  set (r2 := apply_values [SetStatus PENDING] r1).
  exists db1, db2, ms, r2. split; [done|]. split; [done|]. split; [|split; [done|]].
  - rewrite Ht2, lookup_map_rows, Hr1. simpl. rewrite bool_decide_true; [done|].
    destruct (pg_select_facts ∅ (due_query now' n) db1 _ _) as (_ & _ & _ & Hl).
    destruct (Hl n eq_refl eq_refl) as [_ Hin].
    rewrite <-(table_id _ _ _ Hr1). apply list_elem_of_fmap_2.
    assert (size (jobs_table db1) < n)%nat as Hn1
      by (rewrite Ht1; unfold update_rows; by rewrite map_size_fmap).
    apply (Hin (select_short _ _ _ _ _ _ Hn1) i r1 Hr1). apply visible_due. split; [|set_solver].
    apply holds_due. split; [done|]. exists now. by split.
  - intros dl now'' tok w ls db3 Hw Hr3.
    destruct (claim_job_cas dl now'' tok i w ls db3 Hw) as (db4 & Hu & _).
    exists db4. rewrite cas_miss in Hu; [exact Hu|]. rewrite Hr3. intros ? [= <-].
    unfold claimable. cbn. rewrite Hlast. apply Z.ltb_irrefl.
Qed.
End upgrade.

(** ** Witnesses *)

(** A row left by a claim that predates the token column, on its last attempt. *)
Definition old_claim : Job := apply_values
  [SetExecutionToken None; SetLeaseExpiresAt None; SetAttemptCount (λ _, 3)] demo_processing.

Definition old_db : MemDB := mem_of {[ 9 := old_claim ]}.

Lemma upgrade_releases_processing_rows_witness :
  ∃ db', run_session (upgrade 70) old_db = (db', Ok tt) ∧
    ∃ r', jobs_table db' !! 9 = Some r' ∧ status r' ≠ PROCESSING.
Proof.
  destruct (upgrade_releases_processing_rows 70 old_db) as (db' & H1 & H2).
  - intros i r Hr. assert (jobs_table old_db = {[ 9 := old_claim ]}) as E by (vm_compute; done).
    rewrite E in Hr. by apply lookup_singleton_Some in Hr as [<- <-].
  - exists db'. split; [exact H1|].
    destruct (H2 9 old_claim ltac:(vm_compute; done)) as (r' & H3 & H4 & _). by exists r'.
Defined.

Lemma upgrade_strands_exhausted_rows_witness :
  ∃ db1 db2 ms r',
    run_session (upgrade 70) old_db = (db1, Ok tt) ∧
    run_session (activate_due_scheduled_jobs 80 ∅ 10) db1 = (db2, Ok ms) ∧
    jobs_table db2 !! 9 = Some r' ∧ status r' = PENDING.
Proof.
  destruct (upgrade_strands_exhausted_rows 70 80 10 old_db 9 old_claim ltac:(vm_compute; done)
              ltac:(done) ltac:(done) ltac:(done) ltac:(done) ltac:(apply Nat.ltb_lt; vm_compute; done))
    as (db1 & db2 & ms & r' & H1 & H2 & H3 & H4 & _).
  exists db1, db2, ms, r'. split; [exact H1|]. split; [exact H2|]. split; [exact H3|exact H4].
Defined.
