(* ===== verification/Upgrades.v ===== *)
(** * Upgrades: running the migrations

    [do_run_migrations] of [alembic/env.py]: the revisions Alembic plans, one after the
    other, inside [begin_transaction].  Alembic is an interface: [upgrade_plan] is the
    list of revisions it runs from the version the database records to the head, and it
    records each one it has run.  A connection has what is committed and what its
    transaction has done so far; every statement, the first look at the version, the
    COMMIT and their replies may be lost with it. *)

From S2P Require Import Prelude.
From S2P Require Import Text.
From S2P Require Import Errors.
From S2P Require Import Model.
From S2P Require Import Postgres.
From S2P Require Import MemDB.
From S2P Require Import Session.
From S2P Require Import Config.
From S2P Require Import Ownership.
From S2P Require Import Redis.
From S2P Require Import Schema.
From S2P Require Import Migration.
From Stdlib Require Import QArith.

Local Open Scope Z_scope.

(** A statement of a revision: DDL, or the data step. *)
Inductive Operation := OpDdl (op : Ddl) | OpUpdate (cs : list Cond) (vs : list Assign).

Record Revision := {
  rv_revision : string;
  rv_down_revision : option string;
  rv_upgrade : list Operation
}.

Definition revision_0001 : Revision :=
  {| rv_revision := "0001_initial_schema"; rv_down_revision := None;
     rv_upgrade := OpDdl <$> upgrade_0001_ops |}.
Definition revision_0002 (now : Z) : Revision :=
  {| rv_revision := "0002_execution_token"; rv_down_revision := Some "0001_initial_schema";
     rv_upgrade := (OpDdl <$> upgrade_0002_ops) ++ [OpUpdate upgrade_where (upgrade_values now)] |}.
(** The scripts of [alembic/versions], [now] being the clock of the data step. *)
Definition versions (now : Z) : list Revision := [revision_0001; revision_0002 now].

(** Revisions in the order of their [down_revision] links. *)
Fixpoint linked (down : option string) (revs : list Revision) : bool :=
  match revs with
  | [] => true
  | r :: revs => bool_decide (rv_down_revision r = down) && linked (Some (rv_revision r)) revs
  end.

Definition last_revision (revs : list Revision) : option string := rv_revision <$> last revs.

Class Alembic := { upgrade_plan : list Revision → option string → list Revision }.
Class AlembicLaws `{!Alembic} : Prop := {
  (** [upgrade head] from a version runs the revisions that follow it. *)
  upgrade_plan_spec done todo : linked None (done ++ todo) = true →
    NoDup (rv_revision <$> done ++ todo) →
    upgrade_plan (done ++ todo) (last_revision done) = todo
}.

(** The schema, the rows of [jobs] and the version table. *)
Record Database (S DB : Type) := mk_database {
  db_schema : S;
  db_rows : DB;
  db_version : option string
}.
Arguments mk_database {S DB}. Arguments db_schema {S DB}. Arguments db_rows {S DB}.
Arguments db_version {S DB}.

Section upgrades.
Context {S : Type} `{!Catalog S} {DB : Type} `{!Postgres DB} {A : Alembic}.

(** One statement. *)
Definition run_operation (op : Operation) (d : Database S DB) : result exn (Database S DB) :=
  match op with
  | OpDdl op =>
      match execute_ddl op (db_schema d) with
      | Ok s => Ok (mk_database s (db_rows d) (db_version d))
      | Err e => Err e
      end
  | OpUpdate cs vs =>
      match pg_update cs vs (db_rows d) with
      | Ok (db, _) => Ok (mk_database (db_schema d) db (db_version d))
      | Err e => Err (exn_of_pg e)
      end
  end.

(** ** A connection and its transaction *)

Record Connection := mk_conn {
  cn_committed : Database S DB;
  cn_working : Database S DB;
  (** How many messages were sent over it. *)
  cn_sent : nat
}.

(** What is done over a connection: a computation with exceptions. *)
Definition Task : Type := Connection → Connection * result exn unit.

Section connection.
(** What becomes of each message. *)
Context (fate : nat → fault).

Definition closed : exn := OtherError "connection was closed in the middle of operation".

Definition answered (f : fault) : result exn unit :=
  match f with no_fault => Ok tt | _ => Err closed end.

(** A statement works on what the transaction sees. *)
Definition statement (run : Database S DB → result exn (Database S DB)) : Task := λ c,
  let sent := Datatypes.S (cn_sent c) in
  match fate (cn_sent c) with
  | command_lost => (mk_conn (cn_committed c) (cn_working c) sent, Err closed)
  | f =>
      match run (cn_working c) with
      | Ok d => (mk_conn (cn_committed c) d sent, answered f)
      | Err e => (mk_conn (cn_committed c) (cn_working c) sent, Err e)
      end
  end.

Definition commit_transaction : Task := λ c,
  let sent := Datatypes.S (cn_sent c) in
  match fate (cn_sent c) with
  | command_lost => (mk_conn (cn_committed c) (cn_committed c) sent, Err closed)
  | f => (mk_conn (cn_working c) (cn_working c) sent, answered f)
  end.

(** Asked for, or done by the server that lost its client. *)
Definition rollback (c : Connection) : Connection :=
  mk_conn (cn_committed c) (cn_committed c) (cn_sent c).

Definition skip : Task := λ c, (c, Ok tt).
Definition and_then (m1 m2 : Task) : Task := λ c,
  match m1 c with (c, Ok _) => m2 c | (c, Err e) => (c, Err e) end.

(** [with context.begin_transaction():] commits if the block ends, and rolls back if it
    raises. *)
Definition begin_transaction (block : Task) : Task := λ c,
  match block c with
  | (c, Ok _) => commit_transaction c
  | (c, Err e) => (rollback c, Err e)
  end.

Fixpoint run_operations (ops : list Operation) : Task :=
  match ops with
  | [] => skip
  | op :: ops => and_then (statement (run_operation op)) (run_operations ops)
  end.

Definition record_version (v : string) (d : Database S DB) : Database S DB :=
  mk_database (db_schema d) (db_rows d) (Some v).

Fixpoint run_plan (plan : list Revision) : Task :=
  match plan with
  | [] => skip
  | r :: plan =>
      and_then (run_operations (rv_upgrade r))
        (and_then (statement (λ d, Ok (record_version (rv_revision r) d))) (run_plan plan))
  end.

(** [context.run_migrations()]: the recorded version is read, and what follows it run. *)
Definition run_migrations (revs : list Revision) : Task :=
  and_then (statement Ok) (λ c, run_plan (upgrade_plan revs (db_version (cn_working c))) c).

(** [do_run_migrations] over a fresh connection, and what the database is afterwards. *)
Definition do_run_migrations (revs : list Revision) (d : Database S DB)
    : Database S DB * result exn unit :=
  let '(c, res) := begin_transaction (run_migrations revs) (mk_conn d d 0) in
  (cn_committed c, res).

(** ** What a task does *)

(** From [d] a task ends with the transaction at [d'], or the connection breaks; what is
    committed stays. *)
Definition leads (m : Task) (d d' : Database S DB) : Prop :=
  ∀ c, cn_working c = d →
    cn_committed (m c).1 = cn_committed c ∧
    match (m c).2 with
    | Ok _ => cn_working (m c).1 = d'
    | Err _ => ∃ n, fate n ≠ no_fault
    end.

Lemma leads_skip d : leads skip d d.
Proof using Type. by intros c. Qed.

Lemma leads_statement run d d' : run d = Ok d' → leads (statement run) d d'.
Proof using Type.
  intros Hrun c Hc. unfold statement. rewrite Hc, Hrun.
  destruct (fate (cn_sent c)) eqn:Hf; (split; [done|]); cbn; [done|..]; exists (cn_sent c);
    by rewrite Hf.
Qed.

Lemma leads_then m1 m2 d d1 d2 : leads m1 d d1 → leads m2 d1 d2 → leads (and_then m1 m2) d d2.
Proof using Type.
  intros H1 H2 c Hc. destruct (H1 c Hc) as [Hk Hr]. unfold and_then.
  destruct (m1 c) as [c1 [u|e]]; cbn in *; [|done].
  destruct (H2 c1 Hr) as [Hk2 Hr2]. by rewrite Hk2.
Qed.

(** All of a block or nothing of it. *)
Lemma transaction_all_or_nothing block d d' n :
  leads block d d' →
  let '(c, res) := begin_transaction block (mk_conn d d n) in
  match res with
  | Ok _ => cn_committed c = d'
  | Err _ => (∃ k, fate k ≠ no_fault) ∧ (cn_committed c = d ∨ cn_committed c = d')
  end.
Proof using Type.
  intros Hb. destruct (Hb (mk_conn d d n) eq_refl) as [Hk Hr]. unfold begin_transaction, commit_transaction.
  destruct (block _) as [c [u|e]]; cbn in *; [|by split; [|left]].
  destruct (fate (cn_sent c)) eqn:Hf; cbn; [done|..]; (split; [exists (cn_sent c); by rewrite Hf|]);
    auto.
Qed.
End connection.

Context `{!CatalogLaws S, !PostgresLaws DB} {AL : AlembicLaws}.
Implicit Types d : Database S DB.

(** Where the service's part of the schema is, for the version that is recorded. *)
Definition at_version (o : Cat) d : Prop :=
  (db_version d = None ∧ cat (db_schema d) = o) ∨
  (db_version d = Some "0001_initial_schema" ∧ cat (db_schema d) = beside o catalog_0001) ∨
  (db_version d = Some "0002_execution_token" ∧ cat (db_schema d) = beside o catalog_0002).

Lemma planned now d done todo :
  versions now = done ++ todo → db_version d = last_revision done →
  upgrade_plan (versions now) (db_version d) = todo.
Proof using AL.
  intros Hv ->. rewrite Hv. apply upgrade_plan_spec; rewrite <-Hv; [done|].
  cbn. repeat constructor; rewrite ?elem_of_cons, ?elem_of_nil; naive_solver.
Qed.

(** Revision 0001, and revision 0002 after it. *)
Lemma run_0001 o d :
  outside o → cat (db_schema d) = o →
  ∃ s, run_ops upgrade_0001_ops (db_schema d) = Ok s ∧ cat s = beside o catalog_0001.
Proof using CatalogLaws0.
  intros Ho Hc. pose proof revisions_own as Hown. rewrite !Forall_app in Hown.
  destruct Hown as (H1 & _).
  destruct (revision_spec o upgrade_0001_ops (db_schema d) no_cat catalog_0001)
    as (s & Hrun & Hs & _); [done|done|apply no_cat_own|by rewrite beside_no_cat|
    apply upgrade_0001_ddl|]. by exists s.
Qed.

Lemma run_0002 o d :
  outside o → cat (db_schema d) = beside o catalog_0001 →
  ∃ s, run_ops upgrade_0002_ops (db_schema d) = Ok s ∧ cat s = beside o catalog_0002.
Proof using CatalogLaws0.
  intros Ho Hc. pose proof revisions_own as Hown. rewrite !Forall_app in Hown.
  destruct Hown as (H1 & H2 & _ & _).
  destruct (ddl_all_beside o Ho upgrade_0001_ops no_cat catalog_0001 H1 no_cat_own upgrade_0001_ddl)
    as [_ Hn].
  destruct (revision_spec o upgrade_0002_ops (db_schema d) catalog_0001 catalog_0002)
    as (s & Hrun & Hs & _); [done..|apply upgrade_0002_ddl|]. by exists s.
Qed.

Section runs.
Context (fate : nat → fault).

Lemma leads_ddl ops d s' :
  run_ops ops (db_schema d) = Ok s' →
  leads fate (run_operations fate (OpDdl <$> ops)) d (mk_database s' (db_rows d) (db_version d)).
Proof using Type.
  revert d. induction ops as [|op ops IH]; intros d Hops; cbn in Hops.
  { injection Hops as <-. destruct d. apply leads_skip. }
  destruct (execute_ddl op (db_schema d)) as [s1|] eqn:Hop; [|done].
  rewrite fmap_cons. cbn [run_operations]. eapply leads_then.
  - apply leads_statement. cbn. by rewrite Hop.
  - exact (IH (mk_database s1 (db_rows d) (db_version d)) Hops).
Qed.

Lemma leads_operations ops1 ops2 d d1 d2 :
  leads fate (run_operations fate ops1) d d1 → leads fate (run_operations fate ops2) d1 d2 →
  leads fate (run_operations fate (ops1 ++ ops2)) d d2.
Proof using Type.
  intros H1 H2 c Hc.
  assert (run_operations fate (ops1 ++ ops2) c =
    and_then (run_operations fate ops1) (run_operations fate ops2) c) as ->.
  { clear. revert c. induction ops1 as [|op ops1 IH]; intros c; [done|].
    cbn [app run_operations]. unfold and_then at 1 2 3.
    destruct (statement _ _ c) as [c1 [u|e]]; [apply IH|done]. }
  by eapply leads_then.
Qed.

(** The rows of a released database. *)
Lemma released_rows now t i :
  update_rows upgrade_where (upgrade_values now) t !! i =
    (λ r, if decide (status r = PROCESSING ∧ execution_token r = None) then
       apply_values [SetStatus SCHEDULED; SetScheduledAt (Some now); SetWorkerId None;
                     SetExecutionToken None; SetLeaseExpiresAt None] r
     else r) <$> t !! i.
Proof using Type.
  rewrite lookup_update_rows. destruct (t !! i) as [r|]; [|done]. cbn. f_equal.
  pose proof (holds_upgrade r) as Hh. case_decide as Hd.
  - by rewrite (proj2 Hh Hd).
  - destruct (holds upgrade_where r); [by destruct Hd; apply Hh|done].
Qed.

(** The upgraded database: the schema at the head, every row that was being processed
    without a token is due again at once and owned by nobody, every other row is as it
    was; a database that was at the head is as it was altogether. *)
Definition upgraded (o : Cat) (now : Z) d d' : Prop :=
  if decide (db_version d = Some "0002_execution_token") then d' = d else
  db_version d' = Some "0002_execution_token" ∧
  cat (db_schema d') = beside o catalog_0002 ∧
  ∀ i, jobs_table (db_rows d') !! i =
    (λ r, if decide (status r = PROCESSING ∧ execution_token r = None) then
       apply_values [SetStatus SCHEDULED; SetScheduledAt (Some now); SetWorkerId None;
                     SetExecutionToken None; SetLeaseExpiresAt None] r
     else r) <$> jobs_table (db_rows d) !! i.

Lemma leads_0002 now o d :
  outside o → cat (db_schema d) = beside o catalog_0001 →
  db_version d ≠ Some "0002_execution_token" →
  ∃ d', upgraded o now d d' ∧ leads fate (run_plan fate [revision_0002 now]) d d'.
Proof using CatalogLaws0 PostgresLaws0.
  intros Ho Hc Hv. destruct (run_0002 o d Ho Hc) as (s & Hrun & Hs).
  destruct (upgrade_update now (db_rows d)) as (db & rs & Hu & Ht).
  exists (mk_database s db (Some "0002_execution_token")). split.
  - unfold upgraded. rewrite decide_False by done. split; [done|]. split; [done|]. intros i.
    cbn [db_rows]. rewrite Ht. apply released_rows.
  - cbn [run_plan revision_0002 rv_upgrade rv_revision]. eapply leads_then; [|eapply leads_then].
    + eapply leads_operations; [by apply leads_ddl|]. eapply leads_then; [|apply leads_skip].
      apply leads_statement. cbn [run_operation db_rows]. by rewrite Hu.
    + by apply leads_statement.
    + apply leads_skip.
Qed.

(** From every version to the head. *)
Lemma leads_upgraded now o d :
  outside o → at_version o d →
  ∃ d', upgraded o now d d' ∧ leads fate (run_migrations fate (versions now)) d d'.
Proof using AL CatalogLaws0 PostgresLaws0.
  intros Ho Hd.
  assert (∀ todo d', upgrade_plan (versions now) (db_version d) = todo →
    leads fate (run_plan fate todo) d d' → leads fate (run_migrations fate (versions now)) d d') as Hgo.
  { intros todo d' <- Hl. eapply leads_then; [by apply leads_statement|]. intros c Hc.
    rewrite Hc. by apply Hl. }
  destruct Hd as [[Hv Hc]|[[Hv Hc]|[Hv Hc]]].
  - destruct (run_0001 o d Ho Hc) as (s & Hrun & Hs).
    destruct (leads_0002 now o (mk_database s (db_rows d) (Some "0001_initial_schema")) Ho Hs)
      as (d' & Hup & Hl); [done|]. exists d'. split.
    + unfold upgraded in *. rewrite Hv. by rewrite decide_False in * by done.
    + apply (Hgo (versions now)); [by apply (planned now d [])|].
      eapply leads_then; [by apply leads_ddl|]. eapply leads_then; [by apply leads_statement|exact Hl].
  - destruct (leads_0002 now o d Ho Hc) as (d' & Hup & Hl); [congruence|].
    exists d'. split; [done|]. apply (Hgo [revision_0002 now]); [|done].
    by apply (planned now d [revision_0001]).
  - exists d. split; [unfold upgraded; by rewrite decide_True|]. apply (Hgo []); [|apply leads_skip].
    apply (planned now d (versions now)); [by rewrite app_nil_r|done].
Qed.
End runs.

Lemma upgraded_at_head o now d d' :
  at_version o d → upgraded o now d d' →
  db_version d' = Some "0002_execution_token" ∧ cat (db_schema d') = beside o catalog_0002.
Proof using Type.
  unfold upgraded. case_decide as Hv; [|by intros _ (? & ? & _)].
  intros [[H _]|[[H _]|[_ H]]] ->; [congruence|congruence|done].
Qed.

(** C19: An upgrade is all or nothing, and can be repeated.  From any version the service
    has had, next to whatever else the database holds, and whatever becomes of each
    message, the COMMIT included: an upgrade that ends has upgraded the database; one
    that fails has lost its connection, and the database is as it was, or upgraded, if
    only the reply to the COMMIT was lost.  Either way the next upgrade over a
    connection that holds succeeds, and once upgraded no upgrade changes anything. *)
Theorem upgrade_is_all_or_nothing now fate o d (Ho : outside o) (Hd : at_version o d) :
  let '(d', res) := do_run_migrations fate (versions now) d in
  match res with
  | Ok _ => upgraded o now d d'
  | Err _ => (∃ n, fate n ≠ no_fault) ∧ (d' = d ∨ upgraded o now d d')
  end ∧
  ∀ now', (do_run_migrations (λ _, no_fault) (versions now') d').2 = Ok tt ∧
    (upgraded o now d d' → ∀ fate', (do_run_migrations fate' (versions now') d').1 = d').
Proof using AL CatalogLaws0 PostgresLaws0.
  assert (∀ f t x, at_version o x → ∃ x', upgraded o t x x' ∧
    match do_run_migrations f (versions t) x with
    | (y, Ok _) => y = x'
    | (y, Err _) => (∃ n, f n ≠ no_fault) ∧ (y = x ∨ y = x')
    end) as Hrun.
  { intros f t x Hx. destruct (leads_upgraded f t o x Ho Hx) as (x' & Hup & Hl). exists x'.
    split; [done|]. unfold do_run_migrations.
    pose proof (transaction_all_or_nothing f _ x x' 0 Hl) as Ht.
    by destruct (begin_transaction _ _ _) as [c [u|e]]. }
  destruct (Hrun fate now d Hd) as (x & Hup & Hres).
  destruct (do_run_migrations fate (versions now) d) as [d' res].
  assert (at_version o x) as Hx by (right; right; by eapply upgraded_at_head).
  assert (d' = d ∨ d' = x) as Hd' by (destruct res; [by right|by destruct Hres]).
  split; [|intros now'; split].
  - destruct res; [by subst|]. destruct Hres as [? [->| ->]]; auto.
  - assert (at_version o d') as Hat by (by destruct Hd' as [->| ->]).
    destruct (Hrun (λ _, no_fault) now' d' Hat) as (y & _ & Hy).
    destruct (do_run_migrations _ _ d') as [z [[]|e]]; [done|]. by destruct Hy as [[]].
  - intros Hu fate'. destruct (upgraded_at_head _ _ _ _ Hd Hu) as [Hv Hs].
    destruct (Hrun fate' now' d') as (y & Hy & Hz); [by right; right|].
    unfold upgraded in Hy. rewrite decide_True in Hy by done. subst y.
    destruct (do_run_migrations _ _ d') as [z [u|e]]; [done|]. by destruct Hz as [_ [->| ->]].
Qed.
End upgrades.

(** ** Witness *)

Fixpoint following (v : string) (revs : list Revision) : list Revision :=
  match revs with
  | [] => []
  | r :: revs => if decide (rv_revision r = v) then revs else following v revs
  end.

#[export] Instance demo_alembic : Alembic :=
  {| upgrade_plan revs v := match v with Some v => following v revs | None => revs end |}.

#[export] Instance demo_alembic_laws : AlembicLaws.
Proof.
  split. intros done todo _ Hnd. unfold last_revision. cbn.
  destruct done as [|r done _] using rev_ind; [done|]. rewrite last_snoc. cbn.
  rewrite <-(app_assoc done) in *. induction done as [|x done IH]; cbn in *.
  - by rewrite decide_True.
  - apply NoDup_cons in Hnd as [Hn Hnd]. rewrite decide_False; [by apply IH|].
    intros Heq. apply Hn. rewrite Heq, fmap_app, fmap_cons. apply elem_of_app. right. by left.
Qed.

Definition fresh_database : Database Cat MemDB := mk_database versioned mem_empty None.

(** The connection breaks at the [n]th message. *)
Definition breaks_at (n : nat) (f : fault) (k : nat) : fault := if decide (k = n) then f else no_fault.

(** A statement is lost; the upgrade runs to its end; the reply to the COMMIT is lost. *)
Lemma upgrade_is_all_or_nothing_witness :
  (do_run_migrations (breaks_at 3 command_lost) (versions 70) fresh_database).1 = fresh_database ∧
  db_version (do_run_migrations (λ _, no_fault) (versions 70) fresh_database).1 =
    Some "0002_execution_token" ∧
  (do_run_migrations (λ _, no_fault) (versions 80)
    (do_run_migrations (λ _, no_fault) (versions 70) fresh_database).1).2 = Ok tt.
Proof.
  assert (at_version versioned fresh_database) as Hv by (by left).
  split.
  - pose proof (upgrade_is_all_or_nothing 70 (breaks_at 3 command_lost) versioned fresh_database
      versioned_outside Hv) as H.
    assert (db_version (do_run_migrations (breaks_at 3 command_lost) (versions 70) fresh_database).1 = None)
      as Hn by (vm_compute; reflexivity).
    destruct (do_run_migrations (breaks_at 3 command_lost) (versions 70) fresh_database) as [d' [u|e]];
      cbn in Hn; destruct H as [H _]; unfold upgraded in H; cbn in H.
    + destruct H as [H _]. congruence.
    + destruct H as [_ [H|[H _]]]; [exact H|congruence].
  - pose proof (upgrade_is_all_or_nothing 70 (λ _, no_fault) versioned fresh_database
      versioned_outside Hv) as H.
    destruct (do_run_migrations (λ _, no_fault) (versions 70) fresh_database) as [d' [u|e]];
      destruct H as [H1 H2].
    + split; [exact (proj1 H1)|exact (proj1 (H2 80))].
    + destruct H1 as [[n Hn] _]. by destruct Hn.
Defined.
