(* ===== verification/Rows.v ===== *)
(** * Rows: the migrated schema accepts exactly the rows of [Model]

    [Model.storable] and [Model.table_ok] are what the theorems of this library use
    for PostgreSQL's constraints.  Here the columns, constraints and indexes that the
    migrations build ([Schema]) are given their meaning on rows that may have any values
    and NULLs under any names, and the tables they accept are proved to be the tables of
    jobs with those predicates; the partial indexes are proved to hold every row the queries
    they are for can select. *)

From S2P Require Import Prelude.
From S2P Require Import Text.
From S2P Require Import Errors.
From S2P Require Import Model.
From S2P Require Import Postgres.
From S2P Require Import MemDB.
From S2P Require Import Session.
From S2P Require Import RetryPolicy.
From S2P Require Import Config.
From S2P Require Import Ownership.
From S2P Require Import Schemas.
From S2P Require Import Submission.
From S2P Require Import Schema.
From Stdlib Require Import QArith Btauto.

Local Open Scope Z_scope.

(** ** Column values *)

Inductive Value :=
  | VNull
  | VUuid (u : uuid)
  | VText (s : string)
  | VInt (z : Z)
  | VJson (j : JSON)
  | VTime (z : Z).

Definition nullable {A} (f : A → Value) (o : option A) : Value :=
  match o with Some a => f a | None => VNull end.

(** A row as PostgreSQL has it: a value, or NULL, under the name of each column. *)
Abbreviation RawRow := (gmap string Value).

(** The columns of a job. *)
Definition row_values (r : Job) : list (string * Value) :=
  [("id", VUuid (job_id r)); ("type", VText (job_type r)); ("payload", VJson (payload r));
   ("status", VText (status_value (status r))); ("priority", VInt (priority r));
   ("attempt_count", VInt (attempt_count r)); ("max_attempts", VInt (max_attempts r));
   ("progress", VInt (progress r)); ("result", nullable VJson (job_result r));
   ("error", nullable VText (job_error r)); ("scheduled_at", nullable VTime (scheduled_at r));
   ("created_at", VTime (created_at r)); ("started_at", nullable VTime (started_at r));
   ("completed_at", nullable VTime (completed_at r)); ("worker_id", nullable VText (worker_id r));
   ("execution_token", nullable VUuid (execution_token r));
   ("lease_expires_at", nullable VTime (lease_expires_at r));
   ("idempotency_key", nullable VText (idempotency_key r));
   ("idempotency_expires_at", nullable VTime (idempotency_expires_at r))].

Definition raw_of (r : Job) : RawRow := list_to_map (row_values r).

Definition row_value (raw : RawRow) (col : string) : Value := default VNull (raw !! col).

(** A value in a column: its type's range, or NULL where the column allows it. *)
Definition value_fits (c : Column) (v : option Value) : bool :=
  match v, col_type c with
  | Some VNull, _ => col_nullable c
  | Some (VUuid _), TUuid | Some (VJson _), TJsonb | Some (VTime _), TTimestamptz
  | Some (VText _), TText => true
  | Some (VText s), TVarchar n => varchar_ok n s
  | Some (VText s), TJobStatus => bool_decide (s ∈ JOB_STATUS_VALUES)
  | Some (VInt z), TInteger => int4_ok z
  | _, _ => false
  end.

(** ** Conditions, three-valued *)

Definition not_null (v : Value) : bool := match v with VNull => false | _ => true end.
Definition int_value (v : Value) : option Z := match v with VInt z => Some z | _ => None end.
Definition text_value (v : Value) : option string := match v with VText s => Some s | _ => None end.

Definition test_row (t : SqlTest) (raw : RawRow) : tri :=
  match t with
  | AtLeast c n => sql_le (Some n) (int_value (row_value raw c))
  | AtMostColumn c c' => sql_le (int_value (row_value raw c)) (int_value (row_value raw c'))
  | Between c lo hi =>
      sql_and (sql_le (Some lo) (int_value (row_value raw c)))
              (sql_le (int_value (row_value raw c)) (Some hi))
  | NotNull c => Some (not_null (row_value raw c))
  | StatusIs v => sql_eq (text_value (row_value raw "status")) (Some v)
  end.

(** A CHECK constraint is violated by false only; a partial index holds the rows its
    condition is true of. *)
Definition check_passes (t : SqlTest) (raw : RawRow) : bool :=
  match test_row t raw with Some false => false | _ => true end.
Definition index_holds (i : Index) (raw : RawRow) : bool :=
  match ix_where i with Some t => is_true (test_row t raw) | None => true end.

(** ** Tables *)

Definition column_names (d : TableDef) : list string := col_name <$> td_columns d.

(** A row has the table's columns, no more and no fewer. *)
Definition row_accepted (d : TableDef) (raw : RawRow) : bool :=
  bool_decide (dom raw = list_to_set (column_names d)) &&
  forallb (λ c, value_fits c (raw !! col_name c)) (td_columns d) &&
  forallb (λ k, match k.2 with Check_ t => check_passes t raw | _ => true end) (td_constraints d).

Definition key_of (cols : list string) (raw : RawRow) : list Value := row_value raw <$> cols.

(** The rows a unique index tells apart: NULLs never collide. *)
Definition told_apart (i : Index) (raw : RawRow) : bool :=
  index_holds i raw && forallb not_null (key_of (ix_columns i) raw).

Definition unique_respected (i : Index) (l : list RawRow) : Prop :=
  NoDup (key_of (ix_columns i) <$> filter (λ raw, told_apart i raw = true) l).

(** The contents a table may have. *)
Record accepts (d : TableDef) (l : list RawRow) : Prop := {
  acc_rows raw : raw ∈ l → row_accepted d raw = true;
  acc_primary n cols : (n, PrimaryKey cols) ∈ td_constraints d → NoDup (key_of cols <$> l);
  acc_unique n i : (n, i) ∈ td_indexes d → ix_unique i = true → unique_respected i l
}.

(** ** The rows of the migrated table *)

Lemma status_value_listed s : status_value s ∈ JOB_STATUS_VALUES.
Proof. destruct s; cbn; set_solver. Qed.

Lemma listed_status v : v ∈ JOB_STATUS_VALUES → ∃ s, v = status_value s.
Proof.
  unfold JOB_STATUS_VALUES. rewrite !elem_of_cons, elem_of_nil.
  intros [->|[->|[->|[->|[->|[->|[]]]]]]];
    [by exists SCHEDULED|by exists PENDING|by exists PROCESSING|by exists COMPLETED|
     by exists FAILED|by exists CANCELLED].
Qed.

(** What a value that fits its column is. *)
Definition typed (c : Column) (v : option Value) : Prop :=
  let nulls {A} (f : A → Value) := if col_nullable c then ∃ o, v = Some (nullable f o)
                                   else ∃ a, v = Some (f a) in
  match col_type c with
  | TUuid => nulls VUuid
  | TJsonb => nulls VJson
  | TTimestamptz => nulls VTime
  | TText | TVarchar _ => nulls VText
  | TInteger => nulls VInt
  | TJobStatus => nulls (λ s, VText (status_value s))
  end.

Lemma fits_typed c v : value_fits c v = true → typed c v.
Proof.
  unfold value_fits, typed. destruct v as [[|u|s|z|j|z]|]; [|destruct (col_type c); try done..|done].
  - intros ->. destruct (col_type c); by exists None.
  - intros _. destruct (col_nullable c); [by exists (Some u)|by exists u].
  - intros _. destruct (col_nullable c); [by exists (Some s)|by exists s].
  - intros _. destruct (col_nullable c); [by exists (Some s)|by exists s].
  - intros [st ->]%bool_decide_eq_true%listed_status.
    destruct (col_nullable c); [by exists (Some st)|by exists st].
  - intros _. destruct (col_nullable c); [by exists (Some z)|by exists z].
  - intros _. destruct (col_nullable c); [by exists (Some j)|by exists j].
  - intros _. destruct (col_nullable c); [by exists (Some z)|by exists z].
Qed.

Lemma migrated_jobs_columns : td_columns migrated_jobs = jobs_columns_0001 ++ [added_column_0002].
Proof. done. Qed.

Lemma migrated_jobs_constraints :
  td_constraints migrated_jobs =
    ((λ c, declared "jobs" (Some c.1) (Check_ c.2)) <$> jobs_checks_0001) ++
    [declared "jobs" (Some "pk_jobs") (PrimaryKey ["id"])].
Proof. done. Qed.

Lemma migrated_jobs_indexes : td_indexes migrated_jobs = model_indexes.
Proof. done. Qed.

Fixpoint assoc (l : list (string * Value)) (name : string) : option Value :=
  match l with
  | [] => None
  | (n, v) :: l => if String.eqb n name then Some v else assoc l name
  end.

Lemma lookup_assoc l k : (list_to_map l : RawRow) !! k = assoc l k.
Proof.
  induction l as [|[n v] l IH]; [done|]. rewrite list_to_map_cons, lookup_insert. cbn.
  destruct (String.eqb_spec n k); [by rewrite decide_True|by rewrite decide_False].
Qed.

Lemma lookup_raw_of r k : raw_of r !! k = assoc (row_values r) k.
Proof. apply lookup_assoc. Qed.

Lemma dom_raw_of r : dom (raw_of r) = list_to_set (column_names migrated_jobs).
Proof.
  unfold raw_of. rewrite dom_list_to_map_L.
  assert (∀ names, (row_values r).*1 = names → bool_decide ((list_to_set names : gset string) =
    list_to_set (column_names migrated_jobs)) = true → (list_to_set (row_values r).*1 : gset string) =
    list_to_set (column_names migrated_jobs)) as H by (by intros names -> ?%bool_decide_eq_true).
  eapply H; [reflexivity|]. vm_compute. reflexivity.
Qed.

(** What has the columns of the table, with values of their types, is a job. *)
Lemma raw_is_job raw :
  dom raw = list_to_set (column_names migrated_jobs) →
  Forall (λ c, typed c (raw !! col_name c)) (td_columns migrated_jobs) →
  ∃ r, raw = raw_of r.
Proof.
  intros Hdom Hall. rewrite migrated_jobs_columns in Hall. cbn in Hall.
  rewrite !Forall_cons in Hall. unfold typed in Hall. cbn in Hall.
  destruct Hall as ([c1 H1]&[c2 H2]&[c3 H3]&[c4 H4]&[c5 H5]&[c6 H6]&[c7 H7]&[c8 H8]&[c9 H9]&[c10 H10]&
    [c11 H11]&[c12 H12]&[c13 H13]&[c14 H14]&[c15 H15]&[c16 H16]&[c17 H17]&[c18 H18]&[c19 H19]&_).
  exists (MkJob c1 c2 c3 c4 c5 c6 c7 c8 c9 c10 c11 c12 c13 c14 c15 c19 c16 c17 c18).
  apply map_eq. intros k.
  destruct (decide (k ∈ column_names migrated_jobs)) as [Hk|Hk].
  - rewrite lookup_raw_of. unfold column_names in Hk. rewrite migrated_jobs_columns in Hk.
    cbn in Hk. rewrite !elem_of_cons, elem_of_nil in Hk.
    destruct Hk as [->|[->|[->|[->|[->|[->|[->|[->|[->|[->|[->|[->|[->|[->|[->|[->|[->|[->|[->|[]]]]]]]]]]]]]]]]]]]];
      assumption.
  - assert (∀ m : RawRow, dom m = list_to_set (column_names migrated_jobs) → m !! k = None) as Hno.
    { intros m Hm. apply not_elem_of_dom. rewrite Hm. by rewrite elem_of_list_to_set. }
    by rewrite !Hno by (done || apply dom_raw_of).
Qed.

(** A nullable column of a type without bounds takes any value. *)
Ltac unbounded_column :=
  match goal with
  | |- context [?m] =>
      match m with
      | match nullable ?f ?o with VNull => _ | _ => _ end =>
          let E := fresh in assert (m = true) as E by (by destruct o); rewrite E; clear E
      end
  end.

Lemma opt_fits n (o : option string) :
  match nullable VText o with VNull => true | VText s => varchar_ok n s | _ => false end =
  opt_ok (varchar_ok n) o.
Proof. by destruct o. Qed.

Lemma row_accepted_columns r :
  forallb (λ c, value_fits c (raw_of r !! col_name c)) (td_columns migrated_jobs) =
  column_types_ok r.
Proof.
  assert (∀ cs, forallb (λ c, value_fits c (raw_of r !! col_name c)) cs =
    forallb (λ c, value_fits c (assoc (row_values r) (col_name c))) cs) as ->
    by (intros cs; induction cs as [|c cs IH]; [done|]; cbn [forallb];
        by rewrite IH, lookup_raw_of).
  rewrite migrated_jobs_columns.
  cbn -[varchar_ok int4_ok JOB_STATUS_VALUES].
  rewrite bool_decide_true by apply status_value_listed. unfold column_types_ok.
  repeat unbounded_column. rewrite !opt_fits. btauto.
Qed.

Lemma row_value_raw r c : row_value (raw_of r) c = default VNull (assoc (row_values r) c).
Proof. unfold row_value. by rewrite lookup_raw_of. Qed.

Lemma row_accepted_checks r :
  forallb (λ k, match k.2 with Check_ t => check_passes t (raw_of r) | _ => true end)
    (td_constraints migrated_jobs) = checks_ok r.
Proof.
  rewrite migrated_jobs_constraints.
  cbn -[Z.leb row_value raw_of]. unfold check_passes, checks_ok, check_constraints, test_row.
  rewrite !row_value_raw. cbn -[Z.leb].
  destruct (0 <=? attempt_count r), (1 <=? max_attempts r), (attempt_count r <=? max_attempts r),
    (0 <=? progress r), (progress r <=? 100); done.
Qed.

Lemma row_accepted_storable r : row_accepted migrated_jobs (raw_of r) = storable r.
Proof.
  unfold row_accepted, storable. rewrite bool_decide_true by apply dom_raw_of.
  by rewrite row_accepted_columns, row_accepted_checks, andb_comm.
Qed.

(** The rows the table accepts are the rows the model calls storable. *)
Lemma row_accepted_iff raw :
  row_accepted migrated_jobs raw = true ↔ ∃ r, raw = raw_of r ∧ storable r = true.
Proof.
  split; [|intros (r & -> & Hs); by rewrite row_accepted_storable].
  intros H. pose proof H as H0. unfold row_accepted in H0.
  apply andb_true_iff in H0 as [[Hdom%bool_decide_eq_true Hall]%andb_true_iff _].
  destruct (raw_is_job raw Hdom) as [r ->].
  - apply Forall_forall. intros c Hc%list_elem_of_In. apply fits_typed.
    rewrite forallb_forall in Hall. by apply Hall.
  - exists r. split; [reflexivity|]. rewrite <-row_accepted_storable. exact H.
Qed.

(** ** The table *)

Lemma NoDup_fmap_inj {A B} (f : A → B) l x y :
  NoDup (f <$> l) → x ∈ l → y ∈ l → f x = f y → x = y.
Proof.
  intros Hnd (i & Hi)%list_elem_of_lookup (j & Hj)%list_elem_of_lookup Heq.
  assert (i = j) as ->; [|congruence].
  apply (NoDup_lookup (f <$> l) i j (f x) Hnd); rewrite list_lookup_fmap; [by rewrite Hi|].
  by rewrite Hj, Heq.
Qed.

Lemma key_of_id r : key_of ["id"] (raw_of r) = [VUuid (job_id r)].
Proof. unfold key_of. cbn [fmap list_fmap]. by rewrite row_value_raw. Qed.

Lemma key_of_key r : key_of ["idempotency_key"] (raw_of r) = [nullable VText (idempotency_key r)].
Proof. unfold key_of. cbn [fmap list_fmap]. by rewrite row_value_raw. Qed.

(** The only unique index, and the only primary key. *)
Lemma unique_index n i :
  (n, i) ∈ td_indexes migrated_jobs → ix_unique i = true →
  n = IDEMPOTENCY_INDEX_NAME ∧
  i = partial_index ["idempotency_key"] true (NotNull "idempotency_key").
Proof.
  rewrite migrated_jobs_indexes. intros Hin Hu.
  repeat (apply elem_of_cons in Hin as [[= -> ->]|Hin]; [by cbn in *|]).
  by apply not_elem_of_nil in Hin.
Qed.

Lemma primary_key n cols : (n, PrimaryKey cols) ∈ td_constraints migrated_jobs → cols = ["id"].
Proof.
  rewrite migrated_jobs_constraints.
  intros [Hin|Hin]%elem_of_app.
  - by apply list_elem_of_fmap in Hin as (x & ? & _).
  - by apply list_elem_of_singleton in Hin as [= _ ->].
Qed.

Abbreviation key_index := (partial_index ["idempotency_key"] true (NotNull "idempotency_key")).

Lemma told_apart_key r : told_apart key_index (raw_of r) = true ↔ idempotency_key r ≠ None.
Proof.
  unfold told_apart, index_holds. cbn [ix_where ix_columns partial_index test_row].
  rewrite key_of_key, row_value_raw. cbn. by destruct (idempotency_key r).
Qed.

Lemma keys_told_apart t : table_ok t → NoDup (key_of ["id"] <$> (raw_of <$> rows t)).
Proof.
  intros [Hids _ _]. rewrite <-list_fmap_compose.
  rewrite (list_fmap_ext _ ((λ i, [VUuid i]) ∘ job_id) (rows t))
    by (intros ???; apply key_of_id).
  rewrite list_fmap_compose. apply NoDup_fmap_2; [by intros ?? [=]|].
  assert (job_id <$> rows t = (map_to_list t).*1) as ->; [|apply NoDup_fst_map_to_list].
  unfold rows. rewrite <-list_fmap_compose. apply list_fmap_ext.
  intros k [i r] Hr%list_elem_of_lookup_2%elem_of_map_to_list. exact (Hids i r Hr).
Qed.

(** A table of the model, as rows. *)
Lemma model_accepted t l : table_ok t → l ≡ₚ raw_of <$> rows t → accepts migrated_jobs l.
Proof.
  intros Ht Hl. pose proof (keys_told_apart t Ht) as Hnd. destruct Ht as [Hids Hrows Hkeys]. split.
  - intros raw Hraw. rewrite Hl in Hraw. apply list_elem_of_fmap in Hraw as (r & -> & Hr).
    apply elem_of_rows in Hr as [i Hr]. rewrite row_accepted_storable. by eapply Hrows.
  - intros n cols ->%primary_key. by rewrite Hl.
  - intros n i Hin Hu. destruct (unique_index n i Hin Hu) as [_ ->]. unfold unique_respected.
    rewrite Hl. apply NoDup_fmap_2_strong; [|apply NoDup_filter; by eapply NoDup_fmap_1].
    intros x y [Hx (r & -> & [j Hr]%elem_of_rows)%list_elem_of_fmap]%list_elem_of_filter
      [_ (r' & -> & [j' Hr']%elem_of_rows)%list_elem_of_fmap]%list_elem_of_filter Heq.
    apply told_apart_key in Hx. cbn [ix_columns partial_index] in Heq. rewrite !key_of_key in Heq.
    destruct (Hkeys j r Hr j' r' Hr') as [->|[?|Hne]]; [congruence|done|destruct Hne].
    destruct (idempotency_key r), (idempotency_key r'); cbn in Heq; congruence.
Qed.

Lemma raw_jobs (l : list RawRow) :
  (∀ raw, raw ∈ l → row_accepted migrated_jobs raw = true) →
  ∃ rs : list Job, l = raw_of <$> rs ∧ ∀ r, r ∈ rs → storable r = true.
Proof.
  induction l as [|raw l IH]; intros Hl; [exists []; split; [done|]; by intros r ?%not_elem_of_nil|].
  destruct IH as (rs & -> & Hrs); [intros ??; apply Hl; by right|].
  destruct (proj1 (row_accepted_iff raw)) as (r & -> & Hr); [apply Hl; by left|].
  exists (r :: rs). split; [done|]. intros r' [->|?]%elem_of_cons; auto.
Qed.

(** Accepted rows, as a table of the model. *)
Lemma accepted_model l : accepts migrated_jobs l → ∃ t, table_ok t ∧ l ≡ₚ raw_of <$> rows t.
Proof.
  intros [Hrows Hpk Huniq]. destruct (raw_jobs l Hrows) as (rs & -> & Hst).
  assert (NoDup (job_id <$> rs)) as Hnd.
  { assert (∃ n, (n, PrimaryKey ["id"]) ∈ td_constraints migrated_jobs) as [n Hn].
    { exists "pk_jobs". rewrite migrated_jobs_constraints. apply elem_of_app. right. by left. }
    pose proof (Hpk n _ Hn) as H. rewrite <-list_fmap_compose in H.
    rewrite (list_fmap_ext _ ((λ i, [VUuid i]) ∘ job_id) rs) in H by (intros ???; apply key_of_id).
    rewrite list_fmap_compose in H. by apply NoDup_fmap_1 in H. }
  set (pairs := (λ r, (job_id r, r)) <$> rs).
  assert (pairs.*1 = job_id <$> rs) as H1 by (unfold pairs; by rewrite <-list_fmap_compose).
  assert (pairs.*2 = rs) as H2 by (unfold pairs; rewrite <-list_fmap_compose; apply list_fmap_id).
  set (t := list_to_map pairs : table).
  assert (∀ i r, t !! i = Some r → job_id r = i ∧ r ∈ rs) as Ht.
  { intros i r Hr%elem_of_list_to_map_2. unfold pairs in Hr.
    by apply list_elem_of_fmap in Hr as (r' & [= -> ->] & Hr'). }
  exists t. split; [split|].
  - intros i r Hr. by apply Ht.
  - intros i r Hr. by apply Hst, (Ht i).
  - intros i r Hr j r' Hr'. destruct (Ht i r Hr) as [<- Hin]. destruct (Ht j r' Hr') as [<- Hin'].
    destruct (decide (idempotency_key r = None)) as [|Hk]; [by right; left|].
    destruct (decide (idempotency_key r = idempotency_key r')) as [Heq|]; [left|by right; right].
    assert ((IDEMPOTENCY_INDEX_NAME, key_index) ∈ td_indexes migrated_jobs) as Hix
      by (rewrite migrated_jobs_indexes; by left).
    assert (raw_of r = raw_of r') as Hraw.
    { eapply NoDup_fmap_inj; [exact (Huniq _ _ Hix eq_refl)| | |by rewrite !key_of_key, Heq];
        apply list_elem_of_filter; (split; [apply told_apart_key; congruence|by apply list_elem_of_fmap_2]). }
    apply (f_equal (key_of ["id"])) in Hraw. rewrite !key_of_id in Hraw. congruence.
  - unfold rows, t. rewrite map_to_list_to_map by by rewrite H1. by rewrite H2.
Qed.

(** C20: The migrated [jobs] table holds exactly the tables of [Model].  A set of rows,
    with any values or NULLs under any names, is one the table accepts (its columns, no
    more and no fewer, their types, ranges and nullability, the CHECK constraints with
    SQL's three-valued reading, the primary key, the unique index) exactly if it is the
    rows of a table of jobs that [Model] calls well formed; and the one unique index has
    the name that the service looks for in an error. *)
Theorem migrated_schema_is_the_model :
  (∀ l, accepts migrated_jobs l ↔ ∃ t, table_ok t ∧ l ≡ₚ raw_of <$> rows t) ∧
  (∀ n i, (n, i) ∈ td_indexes migrated_jobs → ix_unique i = true → n = IDEMPOTENCY_INDEX_NAME).
Proof.
  split.
  - intros l. split; [apply accepted_model|]. intros (t & Ht & Hl). by eapply model_accepted.
  - intros n i Hin Hu. by apply (unique_index n i).
Qed.

(** ** The partial indexes *)

Definition index_named (n : string) : option Index :=
  snd <$> head (filter (λ i : string * Index, i.1 = n) (td_indexes migrated_jobs)).

(** A partial index serves a condition when it holds every row the condition takes. *)
Definition serves (n : string) (cs : list Cond) : Prop :=
  ∃ i, index_named n = Some i ∧ ∀ r, holds cs r = true → index_holds i (raw_of r) = true.

(** Each partial index holds every row that the query it is for can select, so the
    planner may use it and misses nothing: activation, the lease sweep, the lookup
    of a live key and the release of an expired one. *)
Theorem partial_indexes_serve_their_queries now n key :
  serves "ix_jobs_scheduled_due" (q_where (due_query now n)) ∧
  serves "ix_jobs_processing_lease" (q_where (expired_query now n)) ∧
  serves "uq_jobs_idempotency_key_active" (active_where now key) ∧
  serves "ix_jobs_idempotency_expires_at" (expired_key_where now key).
Proof.
  split_and!.
  - eexists. split; [reflexivity|]. intros r [Hs _]%holds_due. unfold index_holds.
    cbn -[row_value raw_of]. rewrite row_value_raw. cbn. by rewrite Hs.
  - eexists. split; [reflexivity|]. intros r Hh. unfold index_holds.
    cbn [q_where expired_query] in Hh. rewrite holds_cons in Hh. apply andb_prop in Hh as [Hs _]. cbn in Hs. to_prop.
    cbn -[row_value raw_of]. rewrite row_value_raw. cbn. by rewrite Hs.
  - exists (partial_index ["idempotency_key"] true (NotNull "idempotency_key")).
    split; [reflexivity|]. intros r [Hk _]%holds_active. unfold index_holds.
    cbn [ix_where partial_index test_row]. rewrite row_value_raw. cbn. by rewrite Hk.
  - exists (partial_index ["idempotency_expires_at"] false (NotNull "idempotency_key")).
    split; [reflexivity|]. intros r [Hk _]%holds_expired_key. unfold index_holds.
    cbn [ix_where partial_index test_row]. rewrite row_value_raw. cbn. by rewrite Hk.
Qed.

(** ** Witness: the demo table, and a row without a status *)

Lemma migrated_schema_is_the_model_witness :
  accepts migrated_jobs (raw_of <$> rows (jobs_table demo_db)) ∧
  ¬ accepts migrated_jobs [<["status" := VNull]> (raw_of demo_pending)].
Proof.
  destruct migrated_schema_is_the_model as [H _]. split.
  - apply H. exists (jobs_table demo_db). split; [apply pg_table_ok|done].
  - intros (t & _ & Ht)%H. set (raw := <["status" := VNull]> (raw_of demo_pending)) in Ht.
    assert (raw ∈ raw_of <$> rows t) as (r & Hr & _)%list_elem_of_fmap by (rewrite <-Ht; by left).
    assert (raw_of r !! "status" = Some VNull) as Hn by (rewrite <-Hr; apply lookup_insert_eq).
    rewrite lookup_raw_of in Hn. discriminate Hn.
Defined.
