(* ===== verification/Api.v ===== *)
(** * Api: the HTTP handlers and the health report

    [app/api/jobs.py], [app/services/health.py], [app/schemas/health.py] and the
    [/health] and [/] routes of [app/main.py].  A handler answers with a status and a
    body, raises an [HTTPException], or lets another exception through (a 500).
    Routing, header and query parsing are FastAPI's. *)

From S2P Require Import Prelude.
From S2P Require Import Text.
From S2P Require Import Errors.
From S2P Require Import Model.
From S2P Require Import Postgres.
From S2P Require Import MemDB.
From S2P Require Import Session.
From S2P Require Import Config.
From S2P Require Import Schemas.
From S2P Require Import Ownership.
From S2P Require Import Redis.
From S2P Require Import ReadyQueue.
From S2P Require Import Submission.
From S2P Require Import Mutations.
From S2P Require Import Queries.
From S2P Require Import Heartbeat.

Local Open Scope Z_scope.

Record HTTPException := { http_status : Z; http_detail : string }.

Inductive api_error := Http (e : HTTPException) | Unhandled (e : exn).

(** [Session.get_session] gives a request its session; by [run_get_session] that is
    [run_session]. *)
Definition translate_mutation (e : exn) : api_error :=
  match e with
  | JobNotFoundError _ => Http {| http_status := 404; http_detail := "job not found" |}
  | JobConflictError _ action status =>
      Http {| http_status := 409;
              http_detail := "cannot " +:+ action +:+ " a job that is " +:+ status |}
  | _ => Unhandled e
  end.

Definition page_limit_ok (limit : Z) : bool := (1 <=? limit) && (limit <=? MAX_PAGE_SIZE).
Definition page_offset_ok (offset : Z) : bool := 0 <=? offset.

(** [Header(min_length=1, max_length=255)] *)
Definition idempotency_key_ok (key : option string) : bool :=
  match key with
  | Some k => (1 <=? str_len k)%nat && (str_len k <=? 255)%nat
  | None => true
  end.

Section api.
Context {DB : Type} `{!Postgres DB} {R : Type} `{!Redis R}.

(** In each route [c], [c1] and [c2] are what becomes of its calls to the database, and
    [f] of the call to Redis. *)
Definition api_create_job (c : fault) (env : Env DB) (f : fault) (request : JobCreateRequest)
    (key : option string) (db : DB) (r : R) : DB * R * result api_error (Z * JobResponse) :=
  match submit_job_over c env f request key db r with
  | (db, r, Ok (job, created)) => (db, r, Ok (if created then 201 else 200, job_response job))
  | (db, r, Err e) => (db, r, Err (Unhandled e))
  end.

Definition api_list_jobs (c : fault) (between : DB → DB) (st : option JobStatus) (ty : option JobType)
    (limit offset : Z) (db : DB) : DB * result api_error JobListResponse :=
  match db_call c (run_session (list_jobs between st ty limit offset)) db with
  | (db, Ok (jobs, total)) =>
      (db, Ok {| list_items := job_response <$> jobs; list_total := total;
                 list_limit := limit; list_offset := offset |})
  | (db, Err e) => (db, Err (Unhandled e))
  end.

Definition api_get_job (c : fault) (id : uuid) (db : DB) : DB * result api_error JobResponse :=
  match db_call c (run_session (get_job id)) db with
  | (db, Ok (Some job)) => (db, Ok (job_response job))
  | (db, Ok None) => (db, Err (Http {| http_status := 404; http_detail := "job not found" |}))
  | (db, Err e) => (db, Err (Unhandled e))
  end.

Definition api_cancel_job (c1 c2 : fault) (between : DB → DB) (f : fault) (bq : R → R)
    (id : uuid) (db : DB) (r : R) : DB * R * result api_error JobResponse :=
  match cancel_job_over c1 c2 between f bq id db r with
  | (db, r, Ok job) => (db, r, Ok (job_response job))
  | (db, r, Err e) => (db, r, Err (translate_mutation e))
  end.

Definition api_retry_job (c1 c2 : fault) (between : DB → DB) (f : fault) (id : uuid)
    (db : DB) (r : R) : DB * R * result api_error JobResponse :=
  match retry_job_over c1 c2 between f id db r with
  | (db, r, Ok job) => (db, r, Ok (job_response job))
  | (db, r, Err e) => (db, r, Err (translate_mutation e))
  end.
End api.

(** *** The service's own route *)

Record ServiceInfo := {
  info_service : string;
  info_version : string;
  info_status : string;
  info_docs : string
}.

(** [root]; [version] is the package's [__version__]. *)
Definition root (settings : Settings) (version : string) : ServiceInfo :=
  {| info_service := app_name settings; info_version := version; info_status := "ok";
     info_docs := "/docs" |}.

(** ** Health *)

Definition HEALTHY : string := "healthy".
Definition UNHEALTHY : string := "unhealthy".

(** [QueueStats]: [None] is null. *)
Record QueueStats := { qs_ready : option Z; qs_counts : list (JobStatus * option Z) }.

Record HealthResponse := {
  health_status : string;
  health_database : string;
  health_redis : string;
  health_queue : QueueStats
}.

Section health.
Context {DB : Type} `{!Postgres DB} {R : Type} `{!Redis R}.

(** [between] is what others do to Redis after the rows were counted. *)
Definition collect_health (db_fault redis_fault : fault) (between : R → R) (db : DB) (r : R)
    : HealthResponse :=
  let '(counts, database) :=
    match db_call db_fault (run_session count_jobs_by_status) db with
    | (_, Ok counts) => (prod_map id Some <$> counts, HEALTHY)
    | (_, Err _) => ((λ s, (s, None)) <$> JobStatus_members, UNHEALTHY)
    end in
  let '(ready, redis) :=
    match call redis_fault (λ r, (r, Ok (ReadyQueue.size r))) (between r) with
    | (_, Ok n) => (Some n, HEALTHY)
    | (_, Err _) => (None, UNHEALTHY)
    end in
  {| health_status := if decide (database = HEALTHY ∧ redis = HEALTHY) then HEALTHY else UNHEALTHY;
     health_database := database;
     health_redis := redis;
     health_queue := {| qs_ready := ready; qs_counts := counts |} |}.

(** The [/health] route: the report, with 503 unless it is healthy. *)
Definition health_route (db_fault redis_fault : fault) (between : R → R) (db : DB) (r : R)
    : Z * HealthResponse :=
  let report := collect_health db_fault redis_fault between db r in
  (if decide (health_status report = HEALTHY) then 200 else 503, report).

Context `{!PostgresLaws DB, !RedisLaws R}.

(** The health route answers whatever is down, with 200 exactly when both stores
    answered; each store's numbers are there exactly when that store answered, so
    one failure does not hide the other store, and a gap between the ready queue
    and the PENDING count is no failure.  The rows are counted first; the queue is
    measured as it is then. *)
Theorem health_reports_each_store fd fr between (db : DB) (r : R) q
    (Hr : represents (between r) q) :
  let '(code, report) := health_route fd fr between db r in
  (code = 200 ↔ fd = no_fault ∧ fr = no_fault) ∧ (code = 200 ∨ code = 503) ∧
  qs_ready (health_queue report) =
    (if decide (fr = no_fault) then Some (Z.of_nat (base.size q)) else None) ∧
  (qs_counts (health_queue report)).*1 = JobStatus_members ∧
  ∀ s n, (s, n) ∈ qs_counts (health_queue report) →
    n = if decide (fd = no_fault)
        then Some (Z.of_nat (length (filter (λ j, status j = s) (rows (jobs_table db)))))
        else None.
Proof using PostgresLaws0 RedisLaws0.
  destruct (run_count_jobs db) as (counts & Hc & Hm & Hn).
  unfold health_route, collect_health, db_call, call. rewrite Hc, (size_spec _ q Hr).
  destruct fd, fr; cbn; (split; [split; [try done|by intros []]|]);
    (split; [by auto|]); (split; [done|]); (split; [try done|]).
  all: try (rewrite <-list_fmap_compose, <-Hm; by apply list_fmap_ext).
  all: try (intros s n Hin; apply list_elem_of_fmap in Hin as ([s' n'] & [= -> ->] & Hin);
            by rewrite (Hn s' n' Hin)).
  all: intros s n Hin; repeat (apply elem_of_cons in Hin as [[= -> ->]|Hin]; [done|]);
    by apply not_elem_of_nil in Hin.
Qed.
End health.

Section properties.
Context {DB : Type} `{!Postgres DB, !PostgresLaws DB} {R : Type} `{!Redis R}.
Implicit Types db : DB.

(** The answer when no row matched and the row is read to tell why; [agrees] are the
    statuses with which there is nothing left to do. *)
Definition reads_why (action : string) (agrees : JobStatus → bool) (c : fault)
    (found : option Job) (res : result api_error JobResponse) : Prop :=
  match c, found with
  | no_fault, None => res = Err (Http {| http_status := 404; http_detail := "job not found" |})
  | no_fault, Some job =>
      res = if agrees (status job) then Ok (job_response job)
            else Err (Http {| http_status := 409; http_detail :=
                   "cannot " +:+ action +:+ " a job that is " +:+ status_value (status job) |})
  | _, _ => res = Err (Unhandled (DBAPIError "connection was closed"))
  end.

Lemma api_cancel_miss c2 between f bq id db (r : R) :
  (∀ job, jobs_table db !! id = Some job → cancellable job = false) →
  let '(db', r', res) := api_cancel_job no_fault c2 between f bq id db r in
  ∃ db1, jobs_table db1 = jobs_table db ∧ db' = between db1 ∧ r' = r ∧
    reads_why "cancel" (λ s, bool_decide (s = CANCELLED)) c2 (jobs_table db' !! id) res.
Proof using PostgresLaws0.
  intros Hno. destruct (cancel_over_miss c2 between f bq id db r Hno) as (db1 & Ht & Heq).
  unfold api_cancel_job. rewrite Heq. unfold reads_why.
  destruct c2; [|by exists db1..].
  destruct (jobs_table (between db1) !! id) as [job|] eqn:Hj; [case_decide|]; exists db1;
    rewrite Hj; do 3 (split; [done|]); [by rewrite bool_decide_true|by rewrite bool_decide_false|done].
Qed.

Lemma api_retry_miss c2 between f id db (r : R) :
  (∀ job, jobs_table db !! id = Some job → status job ≠ FAILED) →
  let '(db', r', res) := api_retry_job no_fault c2 between f id db r in
  ∃ db1, jobs_table db1 = jobs_table db ∧ db' = between db1 ∧ r' = r ∧
    reads_why "retry" (λ _, false) c2 (jobs_table db' !! id) res.
Proof using PostgresLaws0.
  intros Hno. destruct (retry_over_miss c2 between f id db r Hno) as (db1 & Ht & Heq).
  unfold api_retry_job. rewrite Heq. unfold reads_why.
  destruct c2; [|by exists db1..].
  destruct (jobs_table (between db1) !! id) as [job|] eqn:Hj; exists db1; by rewrite Hj.
Qed.

(** C35: Every outcome of the mutation routes, whatever others commit between the update and
    the look at the row, and whatever becomes of every call.  Where the update finds the
    job, 200 with the row it wrote, even when Redis fails.  Where it does not, 404 if the
    job is not there, 409 naming the action and the status that is in the way, and 200
    for a job that is cancelled already.  A connection to the database that breaks is a
    server error, with Redis untouched, and nothing else is. *)
Theorem mutation_routes_translate_every_outcome c1 c2 between f bq id db (r : R) :
  (let '(db', r', res) := api_cancel_job c1 c2 between f bq id db r in
   match c1, jobs_table db !! id with
   | no_fault, Some job =>
       if decide (status job = PENDING ∨ status job = SCHEDULED) then
         ∃ job', jobs_table db' = <[id := job']> (jobs_table db) ∧ status job' = CANCELLED ∧
           res = Ok (job_response job')
       else ∃ db1, jobs_table db1 = jobs_table db ∧ db' = between db1 ∧ r' = r ∧
         reads_why "cancel" (λ s, bool_decide (s = CANCELLED)) c2 (jobs_table db' !! id) res
   | no_fault, None => ∃ db1, jobs_table db1 = jobs_table db ∧ db' = between db1 ∧ r' = r ∧
       reads_why "cancel" (λ s, bool_decide (s = CANCELLED)) c2 (jobs_table db' !! id) res
   | _, _ => (c1 = command_lost → db' = db) ∧ r' = r ∧
       res = Err (Unhandled (DBAPIError "connection was closed"))
   end) ∧
  (let '(db', r', res) := api_retry_job c1 c2 between f id db r in
   match c1, jobs_table db !! id with
   | no_fault, Some job =>
       if decide (status job = FAILED) then
         ∃ job', jobs_table db' = <[id := job']> (jobs_table db) ∧ status job' = PENDING ∧
           attempt_count job' = 0 ∧ res = Ok (job_response job')
       else ∃ db1, jobs_table db1 = jobs_table db ∧ db' = between db1 ∧ r' = r ∧
         reads_why "retry" (λ _, false) c2 (jobs_table db' !! id) res
   | no_fault, None => ∃ db1, jobs_table db1 = jobs_table db ∧ db' = between db1 ∧ r' = r ∧
       reads_why "retry" (λ _, false) c2 (jobs_table db' !! id) res
   | _, _ => (c1 = command_lost → db' = db) ∧ r' = r ∧
       res = Err (Unhandled (DBAPIError "connection was closed"))
   end).
Proof using PostgresLaws0.
  split.
  - pose proof (api_cancel_miss c2 between f bq id db r) as Hmiss.
    destruct c1; [|unfold api_cancel_job; by rewrite cancel_over_broken..].
    destruct (jobs_table db !! id) as [job|] eqn:Hj; [|by apply Hmiss].
    case_decide as Hs.
    + destruct (cancel_over_hit c2 between f bq id db r job Hj) as (db' & Heq & Ht);
        [by apply cancellable_spec|].
      unfold api_cancel_job. rewrite Heq. by exists (cancelled job).
    + apply Hmiss. intros ? [= <-]. rewrite <-cancellable_spec in Hs. by apply not_true_iff_false.
  - pose proof (api_retry_miss c2 between f id db r) as Hmiss.
    destruct c1; [|unfold api_retry_job; by rewrite retry_over_broken..].
    destruct (jobs_table db !! id) as [job|] eqn:Hj; [|by apply Hmiss].
    case_decide as Hs; [|apply Hmiss; by intros ? [= <-]].
    destruct (retry_over_hit c2 between f id db r job Hj Hs) as (db' & Heq & Ht).
    unfold api_retry_job. rewrite Heq. by exists (retried job).
Qed.

(** A response never depends on who owns the job or on its idempotency key. *)
Lemma response_hides_ownership w tok lease key expires job :
  job_response (apply_values [SetWorkerId w; SetExecutionToken tok; SetLeaseExpiresAt lease;
                              SetIdempotencyKey key; SetIdempotencyExpiresAt expires] job) =
  job_response job.
Proof using Type. done. Qed.
End properties.

Lemma health_reports_each_store_witness :
  qs_ready (health_queue (health_route command_lost no_fault id demo_db demo_queue).2) = Some 2.
Proof.
  pose proof (health_reports_each_store command_lost no_fault id demo_db demo_queue _ demo_represents) as H.
  destruct (health_route command_lost no_fault id demo_db demo_queue) as [code report].
  destruct H as (_ & _ & H & _). exact H.
Defined.


(** A running job cannot be cancelled; one that is not there is not found, unless the
    connection breaks before the row is read. *)
Lemma mutation_routes_translate_every_outcome_witness :
  (api_cancel_job no_fault no_fault (λ db, db) no_fault (λ r, r) 9 demo_db demo_queue).2 =
    Err (Http {| http_status := 409; http_detail := "cannot cancel a job that is processing" |}) ∧
  (api_cancel_job no_fault reply_lost (λ db, db) no_fault (λ r, r) 11 demo_db demo_queue).2 =
    Err (Unhandled (DBAPIError "connection was closed")).
Proof.
  destruct (mutation_routes_translate_every_outcome no_fault no_fault (λ db, db) no_fault (λ r, r) 9
    demo_db demo_queue) as [H9 _].
  destruct (mutation_routes_translate_every_outcome no_fault reply_lost (λ db, db) no_fault (λ r, r) 11
    demo_db demo_queue) as [H11 _].
  destruct (api_cancel_job _ _ _ _ _ 9 demo_db demo_queue) as [[db1 r1] res1].
  destruct (api_cancel_job _ _ _ _ _ 11 demo_db demo_queue) as [[db2 r2] res2].
  replace (jobs_table demo_db !! 9) with (Some demo_processing) in H9 by (vm_compute; done).
  replace (jobs_table demo_db !! 11) with (@None Job) in H11 by (vm_compute; done).
  destruct H9 as (db3 & Ht & -> & _ & H9). rewrite Ht in H9.
  replace (jobs_table demo_db !! 9) with (Some demo_processing) in H9 by (vm_compute; done).
  destruct H11 as (db4 & _ & _ & _ & H11). split; [exact H9|exact H11].
Defined.
