(* ===== verification/Monitoring.v ===== *)
(** * Monitoring: what the health report says about lost publications

    [/health] shows the number of PENDING jobs and the size of the ready queue side by
    side ([Api]); [Visibility] says what the gap between them can be.  Together: on a
    service at rest, a gap is a number of jobs that no worker will ever see; on one that
    goes on between the two reads, it may also be work that was taken up. *)

From S2P Require Import Prelude.
From S2P Require Import Text.
From S2P Require Import Errors.
From S2P Require Import Model.
From S2P Require Import Postgres.
From S2P Require Import MemDB.
From S2P Require Import Session.
From S2P Require Import Redis.
From S2P Require Import ReadyQueue.
From S2P Require Import Queries.
From S2P Require Import Lifecycle.
From S2P Require Import Handlers.
From S2P Require Import Process.
From S2P Require Import Fleet.
From S2P Require Import Requests.
From S2P Require Import Visibility.
From S2P Require Import Api.

Local Open Scope Z_scope.

(** The number of rows the report counts as PENDING. *)
Lemma count_pending t :
  length (filter (λ j, status j = PENDING) (rows t)) = base.size (pending_ids t).
Proof.
  unfold pending_ids. rewrite size_dom. unfold rows.
  induction t as [|i r t Hi IH] using map_ind; [done|].
  rewrite (map_to_list_insert t i r Hi), fmap_cons. cbn [snd].
  destruct (decide (status r = PENDING)) as [Hs|Hs].
  - rewrite filter_cons_True, map_filter_insert_True, map_size_insert_None by
      (done || (apply map_lookup_filter_None; auto)).
    cbn [length]. by rewrite IH.
  - rewrite filter_cons_False, map_filter_insert_False, delete_id by done. exact IH.
Qed.

Lemma union_size (X Y : gset uuid) : (base.size (X ∪ Y) ≤ base.size X + base.size Y)%nat.
Proof.
  rewrite size_union_alt. apply Nat.add_le_mono_l, subseteq_size. by intros id [? _]%elem_of_difference.
Qed.

Section monitoring.
Context {DB : Type} `{!Postgres DB, !PostgresLaws DB} {R : Type} `{!Redis R, !RedisLaws R}.
Context (py_str : JSON → string) (exn_repr : exn → string).

(** C30: What an operator can read off [/health] while the service goes on.  The PENDING
    rows are counted first, the ready queue is measured later.  When both stores answer
    and nobody is about to publish by then, every job the report counts beyond the size
    of the queue is one whose publication was lost, or one that left PENDING between the
    two reads.  On a service that moved nothing in between, a gap is a number of lost
    publications. *)
Theorem health_gap_counts_lost_publications (V V' : Live DB R)
    (HV : live_reachable py_str exn_repr V) (Hlater : rtc (live_step py_str exn_repr) V V')
    (Hquiet : ∀ id, ¬ coming (fl_procs (lv_fleet V')) (lv_requests V') id) :
  let P := pending_ids (jobs_table (sys_db (fl_sys (lv_fleet V)))) in
  let P' := pending_ids (jobs_table (sys_db (fl_sys (lv_fleet V')))) in
  let '(code, report) := health_route no_fault no_fault (λ _, sys_redis (fl_sys (lv_fleet V')))
                           (sys_db (fl_sys (lv_fleet V))) (sys_redis (fl_sys (lv_fleet V))) in
  code = 200 ∧ ∃ ready pending_count,
    qs_ready (health_queue report) = Some ready ∧
    (PENDING, Some pending_count) ∈ qs_counts (health_queue report) ∧
    pending_count - ready ≤
      Z.of_nat (base.size (P ∩ P' ∩ lv_lost V')) + Z.of_nat (base.size (P ∖ P')).
Proof using PostgresLaws0 RedisLaws0.
  assert (live_reachable py_str exn_repr V') as HV'
    by (destruct HV as (V0 & H0 & Hs); exists V0; split; [done|by etrans]).
  destruct (live_reachable_ok _ _ V' HV') as [_ Hok].
  set (db := sys_db (fl_sys (lv_fleet V))). set (r := sys_redis (fl_sys (lv_fleet V))).
  clearbody db r. destruct V' as [[s ps] qs lost].
  cbn [lv_fleet fl_sys lv_lost lv_requests fl_procs] in *.
  set (P := pending_ids (jobs_table db)). set (P' := pending_ids (jobs_table (sys_db s))).
  destruct (lo_index _ Hok) as (q & Hr & _ & _ & Hv).
  pose proof (health_reports_each_store no_fault no_fault (λ _, sys_redis s) db r q Hr) as H.
  destruct (health_route _ _ _ _ _) as [code report]. destruct H as (Hc & _ & Hrd & Hm & Hn).
  split; [by apply Hc|]. rewrite decide_True in Hrd by done.
  assert (PENDING ∈ (qs_counts (health_queue report)).*1) as Hin
    by (rewrite Hm; apply list_elem_of_In; cbn; auto).
  apply list_elem_of_fmap in Hin as ([st n] & Hst & Hin). cbn in Hst. subst st.
  pose proof (Hn _ _ Hin) as Hx. rewrite decide_True in Hx by done. rewrite Hx in Hin.
  eexists _, _. split; [exact Hrd|]. split; [exact Hin|]. rewrite count_pending. fold P.
  enough (base.size P ≤ base.size q + (base.size (P ∩ P' ∩ lost) + base.size (P ∖ P')))%nat by lia.
  rewrite <-(size_dom q). transitivity (base.size (dom q ∪ (P ∩ P' ∩ lost ∪ P ∖ P'))).
  - apply subseteq_size. intros id Hid. rewrite !elem_of_union, !elem_of_intersection, elem_of_difference.
    destruct (decide (id ∈ P')) as [Hid'|]; [|tauto].
    destruct (Hv id) as [?|[?|?]]; [by apply elem_of_pending_ids|left; by apply elem_of_dom|
      by destruct (Hquiet id)|tauto].
  - etrans; [apply union_size|]. apply Nat.add_le_mono_l, union_size.
Qed.
End monitoring.

(** ** Witness: a submission whose publication was lost, and nothing in between *)

Lemma health_gap_counts_lost_publications_witness :
  let '(code, report) := health_route no_fault no_fault
    (λ _, sys_redis (fl_sys (lv_fleet (live_submitted command_lost))))
    (sys_db (fl_sys (lv_fleet (live_submitted command_lost))))
    (sys_redis (fl_sys (lv_fleet (live_submitted command_lost)))) in
  code = 200 ∧ ∃ ready pending_count,
    qs_ready (health_queue report) = Some ready ∧
    (PENDING, Some pending_count) ∈ qs_counts (health_queue report) ∧
    pending_count - ready ≤ 1.
Proof.
  pose proof (health_gap_counts_lost_publications no_text no_text (live_submitted command_lost)
    (live_submitted command_lost) (live_submitted_reachable command_lost) (rtc_refl _ _)
    (submitted_quiet command_lost)) as H.
  cbv zeta in H. destruct (health_route _ _ _ _ _) as [code report].
  destruct H as [Hc (rd & pc & H1 & H2 & H3)].
  split; [exact Hc|]. exists rd, pc. split; [exact H1|]. split; [exact H2|]. etrans; [exact H3|].
  assert (∀ P : gset uuid, P ∖ P = ∅) as -> by (intros P; set_solver).
  assert (base.size (∅ : gset uuid) = 0%nat) as -> by reflexivity.
  rewrite Z.add_0_r. etrans; [apply inj_le, subseteq_size, intersection_subseteq_r|].
  assert (base.size (lv_lost (live_submitted command_lost)) = 1%nat) as -> by (vm_compute; reflexivity).
  done.
Defined.
